(* ===== verification/_CoqProject ===== *)
-Q . S2P
Prelude.v
Tsc.v
OrderPool.v
LadderSide.v
PriceTime.v
OrderBook.v
BookTheorems.v
FlatHashMap.v
Itch.v
Exchange.v
MatchingEngine.v
EngineTheorems.v
SlotEconomy.v
MoldUDP64.v
SpscRing.v
PacketPool.v
FeedHandler.v
FeedHandlerXdp.v
Startup.v
EngineUdp.v
Replay.v
UdpTheorems.v
Counters.v
Liveness.v
Cli.v
UdpProgram.v
