(* ===== verification/Prelude.v ===== *)
(** * A verification of the ITCH order book

    The program reads a NASDAQ ITCH feed, from a file or over UDP, and keeps
    the limit order books of up to 65,536 stocks, matching incoming orders by
    price and time. This library models its core and networking code under
    src/include and src/src and proves what makes it correct.

    ** The program's parts and the files that model them

    - Prelude: machine integers kept at their widths by [u8] to [u64]; the
      [result] monad, whose errors are undefined behaviour (an access outside a
      vector or buffer), a thrown exception, [std::abort], an exit with a
      status and a loop that ran out of fuel; [vec], a std::vector with checked accesses.
    - Tsc (include/tsc.hpp and the calibration of src/matching_engine.cpp and
      src/engine_udp.cpp): the time stamp counter by platform, its calibration
      against the clock and the conversion of cycles to nanoseconds, in the
      binary64 arithmetic of [double].
    - OrderPool (include/order_pool.hpp): the arena of order nodes and its free
      list; [pool_inv].
    - LadderSide (include/ladder_side.hpp): one side of a book, a window of
      price levels with an intrusive FIFO each and a sorted overflow vector;
      [side_rep] relates it to the list of its orders in priority order.
    - PriceTime: price-time priority on lists of (slot, order), the reference
      for the ladder code.
    - OrderBook (include/orderbook.hpp, src/orderbook.cpp): [handleOrder],
      matching and resting, and [removeByIndex]; [book_rep].
    - BookTheorems: the properties of pool, ladder and book.
    - FlatHashMap (include/flat_hash_map.hpp): open addressing with linear
      probing and backward-shift deletion; [map_rep] relates a table to a
      finite map.
    - Itch (include/itch.hpp, src/itch.cpp): the message parser on byte
      lists, on a little-endian host; the wire encodings it inverts.
    - Exchange: the contract of the engine, a market of books in which orders
      are known by reference number only: [Exchange.step].
    - MatchingEngine (include/matching_engine.hpp, src/matching_engine.cpp):
      [processMessage] and [run], from the opened file to the converted
      samples. What it needs of the order map is the class
      [OrderIndex] with its laws [OrderIndexSpec]; FlatHashMap is the instance.
    - EngineTheorems: the properties of map, parser and engine.
    - SlotEconomy: what grows the order pool, and its memory over a session.
    - MoldUDP64 (include/moldudp64.hpp): packet header, message iterator and
      packet builder.
    - SpscRing (include/spsc_ring.hpp) and PacketPool (include/packet_pool.hpp):
      the lock-free queue and the lock-free free list between the two threads,
      as whole calls and as single loads, stores and compare-and-swaps
      ([access]), with the sequential objects they linearize to.
    - FeedHandler (include/feed_handler.hpp, src/feed_handler.cpp): the
      receive loop, its sequence tracking and counters.
    - FeedHandlerXdp (src/feed_handler_xdp.cpp): the AF_XDP receive path:
      parsing raw frames ([moldPacket]), what one frame does ([receiveFrame]),
      batches and the frame buffers lent to the kernel ([batch]).
    - Startup: the system calls around the loops of src/feed_handler.cpp,
      src/feed_handler_xdp.cpp, [MatchingEngine::run] and src/replay.cpp and
      the start of the receive thread, every error path, as the list of calls a
      piece of code makes; [audit] follows what is acquired and released.
    - EngineUdp (src/engine_udp.cpp): the two threads of UDP mode around pool
      and ring, as turns in any order, the receive thread on either path.
    - Replay (src/replay.cpp): the program that sends a file as a session,
      paced by the clock.
    - UdpTheorems: the properties of UDP mode as a whole.
    - Counters: the counters UDP mode reports.
    - Liveness: infinite runs of the two threads ([trace]), which a failing turn
      ends, and a measure that goes down on fair ones.
    - Cli (src/main.cpp, src/replay.cpp): the command lines of both programs
      with the number conversions they use, the choice of the mode, [main] and
      the sample files.
    - UdpProgram (src/engine_udp.cpp, src/main.cpp): [runUdp] as a whole, from
      calibration to the report it prints, given the turns of its threads, and the
      program with both modes.

    ** What the theorems show

    - The book: [handleOrder] and [removeByIndex] implement price-time priority
      ([handle_order_price_time], [remove_by_index_cancels]); shares are
      conserved, the queue is served from its front, and a call fails only on
      an unknown side. The parts: the pool hands out fresh slots, [add],
      [remove], [bestLevel], [advanceBest] and the binary search keep the ladder.
    - The map: [find], [insert] and [erase] are those of a finite map
      ([map_is_finite_map]) as long as one slot is empty, which is necessary
      ([full_table_find_diverges]).
    - The clock: calibration ends ([calibration_terminates]) and the conversion
      of the samples is accurate and keeps their order
      ([cycles_to_ns_accurate]).
    - The engine: every message refines [Exchange.step]
      ([process_message_refines]) and a whole file refines the session
      ([run_refines_exchange]) and never leaves a crossed book
      ([run_never_crossed]); pool slots are never leaked and the arena stays
      within the largest number of live orders ([slots_accounted]); messages for
      unknown orders change nothing. The program in file mode writes one line per Add
      message ([file_mode_program]).
    - The wire: parsers invert the encodings; a built packet parses back; the
      iterator stays inside any packet.
    - The threads: under every interleaving the ring is free of races and
      linearizes to a bounded queue ([spsc_linearizable]), and the pool to a
      stack of free slots while one thread acquires ([pool_linearizable]); with
      two it may hand a slot out twice. This is why EngineUdp takes the calls
      as single steps.
    - UDP mode: under every interleaving and any network input slots have one
      owner and packets arrive intact and in order ([packets_delivered]); a
      session sent by the replay program, delivered in order and not dropped on a
      full ring, leaves the engine at the market the file describes
      ([replay_session_refines]), and a session of fewer packets than the ring has
      slots is never dropped; the counters are exact
      ([counters_exact]); all on either receive path. If both threads go on
      having turns and the end of the session arrives, both end with every
      queued packet processed, unless a message makes the engine fail
      ([udp_fair_run_ends]). The program as a whole, from
      the datagrams of the replay to the report and the sample files, is
      [udp_mode_program]. What the threads and
      programs acquire from the operating system they release, with the
      exceptions stated ([resources_released]).
    - AF_XDP: frame parsing is exact and in bounds for any bytes
      ([xdp_parse_exact]), the path does what the socket path does
      ([xdp_equivalent]), and no frame buffer is lost until the batch that
      ends the session ([xdp_frames_conserved]), which may return addresses it
      never stored ([xdp_end_reads_unwritten]).
    - Command lines: options parse back to the configuration they spell
      ([cli_roundtrip]), every command line comes to one of a few outcomes
      within the types' ranges ([cli_outcomes]), and the replay program as run
      sends every message once, in order and not before its time, up to a message
      that fits no packet or a failing [sendto] ([replay_main_sends_all]); a limit
      above 256 may overflow its arrays ([replay_overflows_batch]).

    ** Choices

    A vector is its length, the slots written and a default, so that the table
    of 8,388,608 entries and the 65,536 books can be evaluated. Loops whose
    recursion is not structural take fuel, and every theorem that an operation
    returns shows that the fuel given suffices: a probe takes the capacity plus
    one, a match the number of pool nodes plus one, a binary search the length,
    a file or packet its number of bytes plus one, since each message has two
    length bytes; a run of calibration or of a wait of the replay takes the
    readings of the clock it may make, and ends if one of them is late enough.
    The bound of the engine theorems is the capacity of the order
    map, fewer than 8,388,608 live orders; well-formed input is
    [Exchange.all_admissible]: sides B or S and references that are not live
    and not the reserved 2^64 - 1.

    The readings of the time stamp counter and of the clock, the results of
    system calls and of libxdp, what [recv] stores, whether [sendto] succeeds,
    the frames the kernel stores and what the AF_XDP fill ring grants are
    arguments; the one law assumed of the last is that a reservation that fits
    is granted in full. Where the engine converts its samples the theorems ask
    that the calibrated ratio converts every 64-bit count ([converts]), which
    holds for a counter of at least two ticks per nanosecond
    ([fast_counter_converts]). Frames are cut at
    their length as the code does, which ignores the length field of the UDP
    header. A turn of a thread that fails, an exception in the engine say, ends the
    program, so the states of UDP mode are those before any failure. A hardware
    memory model is not part of the library: each access of shared memory is one step of an
    interleaving, which the acquire and release pairs of the source guarantee
    for these access patterns.

    ** Not modelled

    Messages to the terminal other than the report of UDP mode,
    [logExecutedOrders], which only prints, and the AF_XDP stub of other
    platforms; memory hints (huge pages and [madvise]), which do not change a
    value. Of prefetching the bytes read and the slot addressed are modelled, the
    hint is not. *)
From Stdlib Require Import ZArith Lia.
From stdpp Require Import base numbers gmap list.
Open Scope Z_scope.

(** * Machine integers *)

Definition u8 (z : Z) : Z := z mod 2 ^ 8.
Definition u16 (z : Z) : Z := z mod 2 ^ 16.
Definition u32 (z : Z) : Z := z mod 2 ^ 32.
Definition u64 (z : Z) : Z := z mod 2 ^ 64.

Definition UINT32_MAX : Z := 4294967295.
Definition UINT64_MAX : Z := 18446744073709551615.

Lemma u32_small z : 0 <= z < 2 ^ 32 -> u32 z = z.
Proof. intros; unfold u32; by apply Z.mod_small. Qed.

Lemma u64_small z : 0 <= z < 2 ^ 64 -> u64 z = z.
Proof. intros; unfold u64; by apply Z.mod_small. Qed.

Lemma u16_small z : 0 <= z < 2 ^ 16 -> u16 z = z.
Proof. intros; unfold u16; by apply Z.mod_small. Qed.

Lemma u32_range z : 0 <= u32 z < 2 ^ 32.
Proof. apply Z.mod_pos_bound; lia. Qed.

Lemma u64_range z : 0 <= u64 z < 2 ^ 64.
Proof. apply Z.mod_pos_bound; lia. Qed.

(** * Results: what a C++ call can do *)

(** [UB]: an access outside a vector or through a null pointer, which C++
    leaves undefined. [Throw]: an exception was thrown. [Diverge]: the fuel
    of a loop ran out. [Aborted]: [std::abort] was called. [Exited]: the program
    ended with the exit status. *)
Inductive error := UB | Throw | Diverge | Aborted | Exited (code : Z).

Inductive result (A : Type) :=
| Ok (a : A)
| Err (e : error).
Arguments Ok {A} a.
Arguments Err {A} e.

#[export] Instance result_ret : MRet result := fun A a => Ok a.
#[export] Instance result_bind : MBind result := fun A B f m =>
  match m with Ok a => f a | Err e => Err e end.

#[export] Instance error_eq_dec : EqDecision error.
Proof. solve_decision. Defined.

Lemma bind_ok {A B} (a : A) (f : A -> result B) : (Ok a ≫= f) = f a.
Proof. done. Qed.

Lemma bind_inv {A B} (m : result A) (f : A -> result B) b :
  (m ≫= f) = Ok b -> exists a, m = Ok a /\ f a = Ok b.
Proof. destruct m; simpl; [eauto | done]. Qed.

Definition is_ok {A} (m : result A) : bool :=
  match m with Ok _ => true | Err _ => false end.

(** A loop that overwrites each element by a computation that may fail. *)
Fixpoint map_result {A B} (f : A -> result B) (l : list A) : result (list B) :=
  match l with
  | [] => Ok []
  | x :: l => y ← f x; ys ← map_result f l; Ok (y :: ys)
  end.

Lemma map_result_ok {A B} (f : A -> result B) l :
  Forall (fun x => exists y, f x = Ok y) l -> exists ys, map_result f l = Ok ys /\ Forall2 (fun x y => f x = Ok y) l ys.
Proof.
  induction 1 as [|x l (y & E) _ (ys & E' & IH)]; [by exists []|]. exists (y :: ys). cbn [map_result]. rewrite E, bind_ok, E'. by split; [|constructor].
Qed.

(** * std::vector *)

(** A vector is its size, the slots written so far and the value every other
    slot holds; so that the 8,388,608-entry table and the 65,536 books of the
    engine evaluate. [vnth]/[vupd] are the unchecked accesses, [vget]/[vset]
    the accesses of the program, undefined outside the vector. *)
Record vec (A : Type) := Vec { vlen : Z; vdata : gmap Z A; vfill : A }.
Arguments Vec {A} _ _ _.
Arguments vlen {A} _.
Arguments vdata {A} _.
Arguments vfill {A} _.

Definition vnth {A} (v : vec A) (i : Z) : A := default (vfill v) (vdata v !! i).
Definition vupd {A} (v : vec A) (i : Z) (x : A) : vec A :=
  Vec (vlen v) (<[i:=x]> (vdata v)) (vfill v).
Definition vin {A} (v : vec A) (i : Z) : bool := (0 <=? i) && (i <? vlen v).

Definition vget {A} (v : vec A) (i : Z) : result A :=
  if vin v i then Ok (vnth v i) else Err UB.
Definition vset {A} (v : vec A) (i : Z) (x : A) : result (vec A) :=
  if vin v i then Ok (vupd v i x) else Err UB.
(** [emplace_back] / [push_back]. *)
Definition vpush {A} (v : vec A) (x : A) : vec A :=
  Vec (vlen v + 1) (<[vlen v:=x]> (vdata v)) (vfill v).
(** [assign(n, x)], [resize(n, x)] on an empty vector. *)
Definition vassign {A} (n : Z) (x : A) : vec A := Vec n ∅ x.

Section vec.
Context {A : Type}.
Implicit Types (v : vec A) (x : A) (i j : Z).

Lemma vin_spec v i : vin v i = true <-> 0 <= i < vlen v.
Proof. unfold vin; rewrite andb_true_iff; lia. Qed.

Lemma vget_ok v i : 0 <= i < vlen v -> vget v i = Ok (vnth v i).
Proof. intros H; unfold vget; by rewrite (proj2 (vin_spec v i) H). Qed.

Lemma vset_ok v i x : 0 <= i < vlen v -> vset v i x = Ok (vupd v i x).
Proof. intros H; unfold vset; by rewrite (proj2 (vin_spec v i) H). Qed.

Lemma vnth_vupd_eq v i x : vnth (vupd v i x) i = x.
Proof. unfold vnth, vupd; simpl; by rewrite lookup_insert_eq. Qed.

Lemma vnth_vupd_ne v i j x : i <> j -> vnth (vupd v i x) j = vnth v j.
Proof. intros; unfold vnth, vupd; simpl; by rewrite lookup_insert_ne. Qed.

Lemma vnth_vupd v i j x :
  vnth (vupd v i x) j = if decide (i = j) then x else vnth v j.
Proof. case_decide; subst; [apply vnth_vupd_eq | by apply vnth_vupd_ne]. Qed.

Lemma vlen_vupd v i x : vlen (vupd v i x) = vlen v.
Proof. done. Qed.

Lemma vupd_vupd v i x y : vupd (vupd v i x) i y = vupd v i y.
Proof. unfold vupd; simpl; by rewrite insert_insert_eq. Qed.

Lemma vnth_vpush_eq v x : vnth (vpush v x) (vlen v) = x.
Proof. unfold vnth, vpush; simpl; by rewrite lookup_insert_eq. Qed.

Lemma vnth_vpush_ne v j x : j <> vlen v -> vnth (vpush v x) j = vnth v j.
Proof. intros; unfold vnth, vpush; simpl; by rewrite lookup_insert_ne. Qed.

Lemma vlen_vpush v x : vlen (vpush v x) = vlen v + 1.
Proof. done. Qed.

Lemma vnth_vassign n i x : vnth (vassign n x) i = x.
Proof. unfold vnth, vassign; simpl; by rewrite lookup_empty. Qed.
End vec.

Create Rewrite HintDb vec.
#[export] Hint Rewrite @vlen_vupd @vlen_vpush @vnth_vupd_eq @vnth_vassign : vec.
#[export] Hint Rewrite @vnth_vupd_ne using (done || lia || congruence) : vec.

(** [vsimpl]: rewrite reads of updated vectors. *)
Ltac vsimpl := repeat (autorewrite with vec in *; simpl in *).

(** * Lists *)

Section list_facts.
Context {A B : Type}.

Lemma NoDup_app_3 (l1 l2 : list A) x :
  NoDup (l1 ++ x :: l2) -> (x ∉ l1) /\ (x ∉ l2) /\ NoDup (l1 ++ l2).
Proof.
  rewrite !NoDup_app, NoDup_cons; intros (H1 & H2 & H3 & H4).
  split; [|split]; [set_solver | done |].
  rewrite ?NoDup_app; set_solver.
Qed.

Lemma elem_of_split_NoDup (l : list A) x :
  NoDup l -> x ∈ l -> exists l1 l2, l = l1 ++ x :: l2 /\ (x ∉ l1) /\ (x ∉ l2).
Proof.
  intros Hnd Hx; destruct (list_elem_of_split l x Hx) as (l1 & l2 & ->).
  apply NoDup_app_3 in Hnd as (? & ? & ?); eauto 6.
Qed.

Lemma filter_all (P : A -> Prop) `{Hdec : !forall x, Decision (P x)} (l : list A) :
  (forall x, x ∈ l -> P x) -> filter P l = l.
Proof.
  induction l as [|x l IH]; intros Hall; [done|].
  rewrite filter_cons_True by set_solver. rewrite IH by set_solver; done.
Qed.

Lemma sublist_same_length (l1 l2 : list A) : l1 `sublist_of` l2 -> length l1 = length l2 -> l1 = l2.
Proof.
  induction 1 as [|x l1 l2 _ IH|x l1 l2 Hs _]; simpl; intros Hl; [done | f_equal; auto |].
  apply sublist_length in Hs. lia.
Qed.
End list_facts.

(** Distinct indices below [n] are at most [n]. *)
Lemma NoDup_bounded_length (l : list Z) n :
  NoDup l -> (forall i, i ∈ l -> 0 <= i < n) -> Z.of_nat (length l) <= Z.max 0 n.
Proof.
  intros Hnd Hin. assert (l ⊆+ seqZ 0 n) as Hs.
  { apply NoDup_submseteq; [done|]. intros i Hi; apply elem_of_seqZ; specialize (Hin i Hi); lia. }
  apply submseteq_length in Hs. rewrite length_seqZ in Hs; lia.
Qed.
