(* ===== verification/Tsc.v ===== *)
(** The clocks: the time stamp counter of include/tsc.hpp, its calibration
    against the monotonic clock ([calibrateTsc] of src/matching_engine.cpp and
    [calibrateTscUdp] of src/engine_udp.cpp) and the conversion of recorded
    cycles to nanoseconds, in binary64 arithmetic; with the proofs that
    calibration ends, that a conversion is accurate and that it keeps the order
    of the samples.

    What the hardware counter and [clock_gettime] return is an argument. The
    arithmetic is that of IEEE 754 for the operations used: each rounds the
    exact result to the nearest value, ties to even. All values are
    non-negative, and exponents stay far inside the range of the format. *)
From Stdlib Require Import ZArith Lia QArith Lqa SpecFloat.
From stdpp Require Import base numbers list.
From S2P Require Import Prelude.
Open Scope Z_scope.

(** ** Doubles *)

(** [Fin m e] is [m * 2^e] with a significand [m] of 53 bits. *)
Inductive double := Zero | Fin (m e : Z) | Inf | NaN.

Module Double.

(** The integer nearest to [n / d], ties to even. *)
Definition half_even (n d : Z) : Z :=
  let q := n / d in
  let r := n mod d in
  if (2 * r <? d) || ((2 * r =? d) && Z.even q) then q else q + 1.

(** [2^e] as a fraction. *)
Definition up (e : Z) : Z := 2 ^ Z.max 0 e.
Definition down (e : Z) : Z := 2 ^ Z.max 0 (- e).

(** The exponent that leaves 53 bits before the point of [n / d]. *)
Definition exponent (n d : Z) : Z :=
  let e := Z.log2 n - Z.log2 d - 52 in
  if n * down e <? 2 ^ 52 * (d * up e) then e - 1 else e.

(** The double nearest to [n / d], both positive. *)
Definition rnd (n d : Z) : double :=
  let e := exponent n d in
  let m := half_even (n * down e) (d * up e) in
  if m =? 2 ^ 53 then Fin (2 ^ 52) (e + 1) else Fin m e.

(** [static_cast<double>] of a [uint64_t]. *)
Definition of_u64 (c : Z) : double := if c =? 0 then Zero else rnd c 1.

Definition div (x y : double) : double :=
  match x, y with
  | NaN, _ | _, NaN | Zero, Zero | Inf, Inf => NaN
  | Zero, _ | Fin _ _, Inf => Zero
  | Inf, _ | Fin _ _, Zero => Inf
  | Fin m e, Fin m' e' => rnd (m * up e * down e') (m' * up e' * down e)
  end.

(** [static_cast<uint64_t>] truncates; a value it cannot hold is undefined. *)
Definition to_u64 (x : double) : result Z :=
  match x with
  | Zero => Ok 0
  | Fin m e => let n := m * up e / down e in if n <=? UINT64_MAX then Ok n else Err UB
  | Inf | NaN => Err UB
  end.
End Double.

(** ** Clocks *)

Record timespec := mkTimespec { tv_sec : Z; tv_nsec : Z }.

(** The [monoNs] lambdas. *)
Definition monoNs (ts : timespec) : Z := u64 (u64 (tv_sec ts) * 1000000000 + tv_nsec ts).

(** [tscNow] and [tscIsCycles] on x86 and elsewhere; [rdtscp] is what the
    instruction returned, [ts] what the clock did. *)
Inductive platform := X86 | Other.
Definition tscNow (p : platform) (rdtscp : Z) (ts : timespec) : Z :=
  match p with X86 => rdtscp | Other => monoNs ts end.
Definition tscIsCycles (p : platform) : bool := match p with X86 => true | Other => false end.

Module Calibrate.

(** [do calNs1 = monoNs(); while (calNs1 - calNs0 < 100000000)]: the i-th
    reading of the clock is [clock i]. *)
Fixpoint spin (fuel : nat) (clock : nat -> timespec) (calNs0 : Z) (i : nat) : result Z :=
  match fuel with
  | O => Err Diverge
  | S fuel =>
      let calNs1 := monoNs (clock i) in
      if u64 (calNs1 - calNs0) <? 100000000 then spin fuel clock calNs0 (S i) else Ok calNs1
  end.

(** The two readings of the counter enclose the loop. *)
Definition calibrateTsc (fuel : nat) (clock : nat -> timespec) (calCycles0 calCycles1 : Z) : result double :=
  let calNs0 := monoNs (clock 0%nat) in
  calNs1 ← spin fuel clock calNs0 1;
  Ok (Double.div (Double.of_u64 (u64 (calCycles1 - calCycles0))) (Double.of_u64 (u64 (calNs1 - calNs0)))).

(** [calibrateTscUdp] is the same code. *)
Definition calibrateTscUdp (fuel : nat) (clock : nat -> timespec) (calCycles0 calCycles1 : Z) : result double :=
  let calNs0 := monoNs (clock 0%nat) in
  calNs1 ← spin fuel clock calNs0 1;
  Ok (Double.div (Double.of_u64 (u64 (calCycles1 - calCycles0))) (Double.of_u64 (u64 (calNs1 - calNs0)))).

(** [static_cast<uint64_t>(cycles / cyclesPerNs)]. *)
Definition toNs (cyclesPerNs : double) (cycles : Z) : result Z :=
  Double.to_u64 (Double.div (Double.of_u64 cycles) cyclesPerNs).
End Calibrate.
Import Double Calibrate.

(** ** Agreement with the specification of binary64 in the standard library *)

Definition to_spec (x : double) : spec_float :=
  match x with
  | Zero => S754_zero false
  | Fin m e => S754_finite false (Z.to_pos m) e
  | Inf => S754_infinity false
  | NaN => S754_nan
  end.

Definition spec_of_u64 (c : Z) : spec_float := binary_normalize 53 1024 c 0 false.

Definition test_values : list Z :=
  [0; 1; 2; 3; 7; 10; 100000000; 299999999; 2 ^ 53 - 1; 2 ^ 53; 2 ^ 53 + 1; 2 ^ 53 + 3; 2 ^ 63 + 1025; 2 ^ 64 - 1025; 2 ^ 64 - 1024; 2 ^ 64 - 1].

Lemma spec_float_agrees :
  (fun c => to_spec (of_u64 c)) <$> test_values = spec_of_u64 <$> test_values /\
  (fun p => to_spec (div (of_u64 p.1) (of_u64 p.2))) <$> list_prod test_values test_values =
  (fun p => SFdiv 53 1024 (spec_of_u64 p.1) (spec_of_u64 p.2)) <$> list_prod test_values test_values.
Proof. split; vm_compute; reflexivity. Qed.

(** ** Rounding *)

Lemma up_pos e : 0 < up e.
Proof. apply Z.pow_pos_nonneg; lia. Qed.
Lemma down_pos e : 0 < down e.
Proof. apply Z.pow_pos_nonneg; lia. Qed.

Lemma scale_le e e' : e <= e' -> down e * up e' = down e' * up e * 2 ^ (e' - e).
Proof. intros H. unfold up, down. rewrite <-!Z.pow_add_r by lia. f_equal. lia. Qed.

Lemma half_even_spec n d : 0 < d -> 2 * Z.abs (half_even n d * d - n) <= d.
Proof.
  intros Hd. unfold half_even. pose proof (Z.div_mod n d ltac:(lia)). pose proof (Z.mod_pos_bound n d Hd).
  destruct (Z.ltb_spec (2 * (n mod d)) d), (Z.eqb_spec (2 * (n mod d)) d), (Z.even (n / d)); cbn [orb andb]; nia.
Qed.

(** At a tie the result is even. *)
Lemma half_even_tie n d : 0 < d -> 2 * Z.abs (half_even n d * d - n) = d -> Z.even (half_even n d) = true.
Proof.
  intros Hd. unfold half_even. pose proof (Z.div_mod n d ltac:(lia)). pose proof (Z.mod_pos_bound n d Hd).
  destruct (Z.ltb_spec (2 * (n mod d)) d), (Z.eqb_spec (2 * (n mod d)) d), (Z.even (n / d)) eqn:E; cbn [orb andb]; intros Ht; try done; try nia.
  rewrite Z.even_add, E. done.
Qed.

(** Rounding keeps the order, whatever the denominators. *)
Lemma half_even_mono n d n' d' : 0 < d -> 0 < d' -> n * d' <= n' * d -> half_even n d <= half_even n' d'.
Proof.
  intros Hd Hd' Hle. pose proof (half_even_spec n d Hd) as H1. pose proof (half_even_spec n' d' Hd') as H2.
  destruct (Z.le_gt_cases (half_even n d) (half_even n' d')) as [|Hgt]; [done|]. exfalso.
  pose proof (half_even_tie n d Hd) as T1. pose proof (half_even_tie n' d' Hd') as T2.
  set (a := half_even n d) in *. set (b := half_even n' d') in *.
  assert (Ha : 2 * (a * d - n) <= d) by lia. assert (Hb : 2 * (n' - b * d') <= d') by lia.
  assert (Hda : 2 * (a * d - n) * d' <= d * d') by nia. assert (Hdb : 2 * (n' - b * d') * d <= d * d') by nia.
  assert (Ea : a = b + 1) by nia. assert (Et : 2 * (a * d - n) = d) by (subst a; nia). assert (Et' : 2 * (n' - b * d') = d') by (subst a; nia).
  assert (Z.even a = true) by (apply T1; lia). assert (Z.even b = true) by (apply T2; lia).
  rewrite Ea, Z.even_add in *. by destruct (Z.even b).
Qed.

Lemma exponent_range n d (e := Z.log2 n - Z.log2 d - 52) : 0 < n -> 0 < d ->
  2 ^ 51 * (d * up e) < n * down e < 2 ^ 53 * (d * up e).
Proof.
  intros Hn Hd. pose proof (Z.log2_spec n Hn) as [Hn1 Hn2]. pose proof (Z.log2_spec d Hd) as [Hd1 Hd2].
  pose proof (Z.log2_nonneg n). pose proof (Z.log2_nonneg d). pose proof (up_pos e). pose proof (down_pos e).
  assert (E1 : 2 ^ (Z.succ (Z.log2 n)) * down e = 2 ^ 53 * (2 ^ Z.log2 d * up e)).
  { unfold up, down. rewrite <-!Z.pow_add_r by lia. f_equal. lia. }
  assert (E2 : 2 ^ Z.log2 n * down e = 2 ^ 51 * (2 ^ (Z.succ (Z.log2 d)) * up e)).
  { unfold up, down. rewrite <-!Z.pow_add_r by lia. f_equal. lia. }
  split.
  - apply Z.lt_le_trans with (2 ^ Z.log2 n * down e); [rewrite E2|]; nia.
  - apply Z.lt_le_trans with (2 ^ (Z.succ (Z.log2 n)) * down e); [|rewrite E1]; nia.
Qed.

Lemma exponent_spec n d : 0 < n -> 0 < d ->
  2 ^ 52 * (d * up (exponent n d)) <= n * down (exponent n d) < 2 ^ 53 * (d * up (exponent n d)).
Proof.
  intros Hn Hd. pose proof (exponent_range n d Hn Hd) as [Hl Hu]. unfold exponent. cbv zeta.
  set (e := Z.log2 n - Z.log2 d - 52) in *. destruct (Z.ltb_spec (n * down e) (2 ^ 52 * (d * up e))) as [Hlt|]; [|lia].
  pose proof (scale_le (e - 1) e ltac:(lia)) as Hs. replace (e - (e - 1)) with 1 in Hs by lia.
  pose proof (up_pos e). pose proof (up_pos (e - 1)). pose proof (down_pos e). pose proof (down_pos (e - 1)).
  split.
  - apply (Z.mul_le_mono_pos_r _ _ (up e)); [done|]. nia.
  - apply (Z.mul_lt_mono_pos_r (up e)); [done|]. nia.
Qed.

(** The value of a finite double, as a fraction. *)
Definition vnum (m e : Z) : Z := m * up e.
Definition is_double (m : Z) : Prop := 2 ^ 52 <= m < 2 ^ 53.

(** Rounding is within half a unit in the last place, a relative error of at
    most 2^-53. *)
Lemma rnd_spec n d : 0 < n -> 0 < d ->
  exists m e, rnd n d = Fin m e /\ is_double m /\ Z.abs (vnum m e * d - n * down e) * 2 ^ 53 <= n * down e.
Proof.
  intros Hn Hd. pose proof (exponent_spec n d Hn Hd) as [Hl Hu]. unfold rnd. set (e := exponent n d) in *.
  pose proof (up_pos e). pose proof (down_pos e). assert (HD : 0 < d * up e) by nia.
  pose proof (half_even_spec (n * down e) (d * up e) HD) as Hh. cbv zeta. set (m := half_even _ _) in *.
  assert (Hm : 2 ^ 52 <= m <= 2 ^ 53) by nia.
  destruct (Z.eqb_spec m (2 ^ 53)) as [Em|Em]; eexists _, _; (split; [reflexivity|]); unfold is_double, vnum.
  - split; [lia|]. pose proof (scale_le e (e + 1) ltac:(lia)) as Hs. replace (e + 1 - e) with 1 in Hs by lia.
    pose proof (up_pos (e + 1)). pose proof (down_pos (e + 1)).
    assert (Eq : (2 ^ 52 * up (e + 1) * d - n * down (e + 1)) * down e = (m * (d * up e) - n * down e) * down (e + 1)) by (rewrite Em; nia).
    apply (Z.mul_le_mono_pos_r _ _ (down e)); [done|]. 
    replace (Z.abs (2 ^ 52 * up (e + 1) * d - n * down (e + 1)) * 2 ^ 53 * down e)
      with (Z.abs ((2 ^ 52 * up (e + 1) * d - n * down (e + 1)) * down e) * 2 ^ 53) by (rewrite Z.abs_mul, (Z.abs_eq (down e)) by lia; lia).
    rewrite Eq, Z.abs_mul, (Z.abs_eq (down (e + 1))) by lia. nia.
  - split; [lia|]. replace (m * up e * d) with (m * (d * up e)) by lia. nia.
Qed.

(** ** Rounding keeps the order *)

(** The result is [half_even ... * 2^exponent], carried or not. *)
Lemma rnd_value n d m e (E := exponent n d) : rnd n d = Fin m e ->
  vnum m e * down E = vnum (half_even (n * down E) (d * up E)) E * down e.
Proof.
  unfold rnd. fold E. cbv zeta. destruct (Z.eqb_spec (half_even (n * down E) (d * up E)) (2 ^ 53)) as [Em|]; intros [= <- <-]; [|done].
  rewrite Em. pose proof (scale_le E (E + 1) ltac:(lia)) as Hs. replace (E + 1 - E) with 1 in Hs by lia. unfold vnum. nia.
Qed.

Lemma exponent_mono n d n' d' : 0 < n -> 0 < d -> 0 < n' -> 0 < d' -> n * d' <= n' * d -> exponent n d <= exponent n' d'.
Proof.
  intros Hn Hd Hn' Hd' Hle. destruct (exponent_spec n d Hn Hd) as [Hl _]. destruct (exponent_spec n' d' Hn' Hd') as [_ Hu].
  set (E := exponent n d) in *. set (E' := exponent n' d') in *. destruct (Z.le_gt_cases E E') as [|Hgt]; [done|]. exfalso.
  pose proof (scale_le E' E ltac:(lia)) as Hs. assert (HX2 : 2 <= 2 ^ (E - E')) by (apply (Z.pow_le_mono_r 2 1); lia).
  pose proof (up_pos E). pose proof (up_pos E'). pose proof (down_pos E). pose proof (down_pos E').
  assert (HX1 : 2 ^ 52 * (d * up E) * (d' * down E') <= n * down E * (d' * down E')) by nia.
  assert (HX3 : n' * down E' * (d * down E) < 2 ^ 53 * (d' * up E') * (d * down E)) by nia.
  assert (HX4 : n * down E * (d' * down E') <= n' * down E' * (d * down E)) by nia.
  assert (HX5 : up E * down E' >= 2 * (up E' * down E)) by nia. nia.
Qed.

Lemma rnd_bounds n d : 0 < n -> 0 < d -> 2 ^ 52 <= half_even (n * down (exponent n d)) (d * up (exponent n d)) <= 2 ^ 53.
Proof.
  intros Hn Hd. pose proof (exponent_spec n d Hn Hd) as [Hl Hu]. pose proof (up_pos (exponent n d)).
  pose proof (half_even_spec (n * down (exponent n d)) (d * up (exponent n d)) ltac:(nia)). nia.
Qed.

Lemma rnd_mono n d n' d' m e m' e' : 0 < n -> 0 < d -> 0 < n' -> 0 < d' -> n * d' <= n' * d ->
  rnd n d = Fin m e -> rnd n' d' = Fin m' e' -> vnum m e * down e' <= vnum m' e' * down e.
Proof.
  intros Hn Hd Hn' Hd' Hle E1 E2. pose proof (rnd_value _ _ _ _ E1) as V1. pose proof (rnd_value _ _ _ _ E2) as V2. cbv zeta in V1, V2.
  pose proof (exponent_mono n d n' d' Hn Hd Hn' Hd' Hle) as HE. pose proof (rnd_bounds n d Hn Hd) as B1. pose proof (rnd_bounds n' d' Hn' Hd') as B2.
  set (E := exponent n d) in *. set (E' := exponent n' d') in *.
  pose proof (up_pos E). pose proof (up_pos E'). pose proof (down_pos E). pose proof (down_pos E'). pose proof (down_pos e). pose proof (down_pos e').
  pose proof (scale_le E E' HE) as Hs.
  assert (Hm : vnum (half_even (n * down E) (d * up E)) E * down E' <= vnum (half_even (n' * down E') (d' * up E')) E' * down E).
  { unfold vnum. destruct (Z.eq_dec E E') as [Ee|Hne].
    - rewrite <-Ee in *. assert (Hh : half_even (n * down E) (d * up E) <= half_even (n' * down E) (d' * up E)) by (apply half_even_mono; nia). nia.
    - assert (HP : 2 <= 2 ^ (E' - E)) by (apply (Z.pow_le_mono_r 2 1); lia).
      set (a := half_even (n * down E) (d * up E)) in *. set (b := half_even (n' * down E') (d' * up E')) in *. nia. }
  apply (Z.mul_le_mono_pos_r _ _ (down E * down E')); [nia|].
  replace (vnum m e * down e' * (down E * down E')) with (vnum m e * down E * (down e' * down E')) by lia.
  replace (vnum m' e' * down e * (down E * down E')) with (vnum m' e' * down E' * (down e * down E)) by lia.
  rewrite V1, V2. apply (Z.mul_le_mono_nonneg_r _ _ (down e * down e')) in Hm; [lia | nia].
Qed.

(** ** Calibration *)

(** The loop ends with the first reading that is 100 ms away. *)
Lemma spin_ok clock calNs0 k i fuel :
  100000000 <= u64 (monoNs (clock (i + k)%nat) - calNs0) ->
  (forall j, (j < k)%nat -> u64 (monoNs (clock (i + j)%nat) - calNs0) < 100000000) ->
  (k < fuel)%nat -> spin fuel clock calNs0 i = Ok (monoNs (clock (i + k)%nat)).
Proof.
  revert i fuel; induction k as [|k IH]; intros i fuel Hk Hj Hf; (destruct fuel as [|fuel]; [lia|]); cbn [spin].
  - rewrite Nat.add_0_r in *. by destruct (Z.ltb_spec (u64 (monoNs (clock i) - calNs0)) 100000000); [lia|].
  - pose proof (Hj 0%nat ltac:(lia)) as H0. rewrite Nat.add_0_r in H0. destruct (Z.ltb_spec (u64 (monoNs (clock i) - calNs0)) 100000000); [|lia].
    replace (i + S k)%nat with (S i + k)%nat in * by lia. apply IH; [done | | lia].
    intros j Hlt. replace (S i + j)%nat with (i + S j)%nat by lia. apply Hj. lia.
Qed.

Lemma spin_inv fuel clock calNs0 i r : spin fuel clock calNs0 i = Ok r -> 100000000 <= u64 (r - calNs0).
Proof.
  revert i; induction fuel as [|fuel IH]; intros i; cbn [spin]; [done|]. case_match eqn:E; [apply IH|]. intros [= <-]. lia.
Qed.

(** Some reading is far enough, so there is a first one. *)
Lemma first_reading clock calNs0 n :
  100000000 <= u64 (monoNs (clock (1 + n)%nat) - calNs0) ->
  exists k, (k <= n)%nat /\ 100000000 <= u64 (monoNs (clock (1 + k)%nat) - calNs0) /\
    forall j, (j < k)%nat -> u64 (monoNs (clock (1 + j)%nat) - calNs0) < 100000000.
Proof.
  induction n as [n IH] using lt_wf_ind. intros Hn.
  destruct (decide (Exists (fun j => 100000000 <= u64 (monoNs (clock (1 + j)%nat) - calNs0)) (seq 0 n))) as [He|He].
  - apply Exists_exists in He as (j & Hj & Hf). apply elem_of_seq in Hj. destruct (IH j ltac:(lia) Hf) as (k & ? & ? & ?). exists k. split; [lia | done].
  - exists n. split_and!; [done | done |]. intros j Hj. destruct (Z.lt_ge_cases (u64 (monoNs (clock (1 + j)%nat) - calNs0)) 100000000); [done|].
    exfalso. apply He, Exists_exists. exists j. split; [apply elem_of_seq; lia | done].
Qed.

(** ** Accuracy *)

(** Rational bounds: [x] is between [lo] and [hi] times [y]. *)
Definition within (lo hi x y : Q) : Prop := (lo * y <= x /\ x <= hi * y)%Q.

Definition frac (n d : Z) : Q := (inject_Z n / inject_Z d)%Q.
Definition val (m e : Z) : Q := frac (vnum m e) (down e).
Definition unit_roundoff : Q := 1 # 9007199254740992.
Definition rlo : Q := (1 - unit_roundoff)%Q.
Definition rhi : Q := (1 + unit_roundoff)%Q.

Lemma inject_pos n : 0 < n -> (0 < inject_Z n)%Q.
Proof. intros H. change 0%Q with (inject_Z 0). by rewrite <-Zlt_Qlt. Qed.

Lemma frac_pos n d : 0 < n -> 0 < d -> (0 < frac n d)%Q.
Proof. intros Hn Hd. apply Qlt_shift_div_l; [by apply inject_pos|]. rewrite Qmult_0_l. by apply inject_pos. Qed.

Lemma within_trans lo hi lo' hi' x y z :
  (0 <= lo)%Q -> (0 <= hi)%Q -> within lo hi x y -> within lo' hi' y z -> within (lo * lo') (hi * hi') x z.
Proof.
  unfold within. intros Hlo Hhi [A B] [C D]. split.
  - apply Qle_trans with (lo * y)%Q; [|done]. rewrite <-Qmult_assoc, !(Qmult_comm lo). by apply Qmult_le_compat_r.
  - apply Qle_trans with (hi * y)%Q; [done|]. rewrite <-Qmult_assoc, !(Qmult_comm hi). by apply Qmult_le_compat_r.
Qed.

Lemma within_div lo hi lo' hi' x y x' y' :
  (0 <= lo)%Q -> (0 < lo')%Q -> (0 < hi')%Q -> (0 < y)%Q -> (0 < y')%Q -> (0 < x')%Q ->
  within lo hi x y -> within lo' hi' x' y' -> within (lo / hi') (hi / lo') (x / x') (y / y').
Proof.
  unfold within. intros Hlo Hlo' Hhi' Hy Hy' Hx' [A B] [C D]. split.
  - apply Qle_shift_div_l; [done|].
    assert (E : (lo / hi' * (y / y') * x' == lo * y * (x' / (hi' * y')))%Q) by (field; split; lra). rewrite E.
    apply Qle_trans with (lo * y * 1)%Q; [|lra].
    rewrite !(Qmult_comm (lo * y)). apply Qmult_le_compat_r; [apply Qle_shift_div_r; nra | nra].
  - apply Qle_shift_div_r; [done|].
    assert (E : (hi / lo' * (y / y') * x' == hi * y * (x' / (lo' * y')))%Q) by (field; split; lra). rewrite E.
    apply Qle_trans with (hi * y * 1)%Q; [lra|].
    rewrite !(Qmult_comm (hi * y)). apply Qmult_le_compat_r; [apply Qle_shift_div_l; nra | nra].
Qed.

(** One rounding. *)
Lemma rnd_within n d m e : 0 < n -> 0 < d -> rnd n d = Fin m e -> within rlo rhi (val m e) (frac n d).
Proof.
  intros Hn Hd E. destruct (rnd_spec n d Hn Hd) as (m' & e' & E' & Hm & Hb). rewrite E in E'. injection E' as <- <-.
  pose proof (down_pos e) as Hdn. unfold within, val, frac.
  assert (Hd' : (0 < inject_Z d)%Q) by by apply inject_pos. assert (Hde : (0 < inject_Z (down e))%Q) by by apply inject_pos.
  assert (Hq : (inject_Z (vnum m e) * inject_Z d * inject_Z (2 ^ 53) <= inject_Z n * inject_Z (down e) * inject_Z (2 ^ 53 + 1))%Q /\
    (inject_Z n * inject_Z (down e) * inject_Z (2 ^ 53 - 1) <= inject_Z (vnum m e) * inject_Z d * inject_Z (2 ^ 53))%Q).
  { rewrite <-!inject_Z_mult, <-!Zle_Qle. lia. }
  destruct Hq as [Hu Hl]. change (inject_Z (2 ^ 53)) with (9007199254740992 # 1) in *.
  change (inject_Z (2 ^ 53 + 1)) with (9007199254740993 # 1) in *. change (inject_Z (2 ^ 53 - 1)) with (9007199254740991 # 1) in *. split.
  - apply Qle_shift_div_l; [done|].
    assert (E1 : (rlo * (inject_Z n / inject_Z d) * inject_Z (down e) == inject_Z n * inject_Z (down e) * rlo / inject_Z d)%Q) by (field; lra).
    rewrite E1. apply Qle_shift_div_r; [done|]. unfold rlo, unit_roundoff. lra.
  - apply Qle_shift_div_r; [done|].
    assert (E1 : (rhi * (inject_Z n / inject_Z d) * inject_Z (down e) == inject_Z n * inject_Z (down e) * rhi / inject_Z d)%Q) by (field; lra).
    rewrite E1. apply Qle_shift_div_l; [done|]. unfold rhi, unit_roundoff. lra.
Qed.

#[export] Instance within_proper : Proper (Qeq ==> Qeq ==> Qeq ==> Qeq ==> iff) within.
Proof. intros a a' Ha b b' Hb x x' Hx y y' Hy. unfold within. by rewrite Ha, Hb, Hx, Hy. Qed.

Lemma within_widen lo hi lo' hi' x y : (0 <= y)%Q -> (lo' <= lo)%Q -> (hi <= hi')%Q -> within lo hi x y -> within lo' hi' x y.
Proof.
  intros Hy Hl Hh [A B]. split.
  - apply Qle_trans with (lo * y)%Q; [by apply Qmult_le_compat_r | done].
  - apply Qle_trans with (hi * y)%Q; [done | by apply Qmult_le_compat_r].
Qed.

Lemma val_pos m e : is_double m -> (0 < val m e)%Q.
Proof. unfold is_double. intros Hm. pose proof (up_pos e). apply frac_pos; [unfold vnum; nia | apply down_pos]. Qed.

Lemma of_u64_within c : 0 < c -> exists m e, of_u64 c = Fin m e /\ is_double m /\ within rlo rhi (val m e) (inject_Z c).
Proof.
  intros Hc. unfold of_u64. destruct (Z.eqb_spec c 0); [lia|]. destruct (rnd_spec c 1 Hc ltac:(lia)) as (m & e & E & Hm & _).
  exists m, e. split_and!; try done. pose proof (rnd_within c 1 m e Hc ltac:(lia) E) as Hw.
  assert (E1 : (frac c 1 == inject_Z c)%Q) by (unfold frac; change (inject_Z 1) with 1%Q; field). by rewrite E1 in Hw.
Qed.

Lemma div_within m e m' e' : is_double m -> is_double m' ->
  exists m1 e1, div (Fin m e) (Fin m' e') = Fin m1 e1 /\ is_double m1 /\ within rlo rhi (val m1 e1) (val m e / val m' e').
Proof.
  unfold is_double at 1 2. intros Hm Hm'. pose proof (up_pos e). pose proof (up_pos e'). pose proof (down_pos e). pose proof (down_pos e').
  assert (Hn : 0 < m * up e * down e') by nia. assert (Hd : 0 < m' * up e' * down e) by nia.
  destruct (rnd_spec _ _ Hn Hd) as (m1 & e1 & E & Hm1 & _). exists m1, e1. split_and!; try done.
  pose proof (rnd_within _ _ _ _ Hn Hd E) as Hw.
  assert (E1 : (frac (m * up e * down e') (m' * up e' * down e) == val m e / val m' e')%Q).
  { unfold frac, val, frac, vnum. rewrite !inject_Z_mult.
    assert (Hp : forall z, 0 < z -> ~ (inject_Z z == 0)%Q) by (intros z Hz Hq; pose proof (inject_pos z Hz); lra).
    field. split_and!; apply Hp; lia. }
  by rewrite E1 in Hw.
Qed.

(** The five roundings of calibration and conversion together. *)
Lemma convert_within c dc dn : 0 < c -> 0 < dc -> 0 < dn ->
  exists m e, div (of_u64 c) (div (of_u64 dc) (of_u64 dn)) = Fin m e /\ is_double m /\
    within (1 - (1 # 1125899906842624)) (1 + (1 # 1125899906842624)) (val m e) (inject_Z c / (inject_Z dc / inject_Z dn)).
Proof.
  intros Hc Hdc Hdn. destruct (of_u64_within c Hc) as (m1 & e1 & -> & Hm1 & W1).
  destruct (of_u64_within dc Hdc) as (m2 & e2 & -> & Hm2 & W2). destruct (of_u64_within dn Hdn) as (m3 & e3 & -> & Hm3 & W3).
  destruct (div_within m2 e2 m3 e3 Hm2 Hm3) as (m4 & e4 & -> & Hm4 & W4). destruct (div_within m1 e1 m4 e4 Hm1 Hm4) as (m5 & e5 & E & Hm5 & W5).
  exists m5, e5. split_and!; try done. pose proof (inject_pos c Hc). pose proof (inject_pos dc Hdc). pose proof (inject_pos dn Hdn).
  assert (Hr : (0 < inject_Z dc / inject_Z dn)%Q) by (by apply frac_pos).
  assert (Hlo : (0 < rlo)%Q) by done. assert (Hhi : (0 < rhi)%Q) by done.
  assert (W23 : within (rlo / rhi) (rhi / rlo) (val m2 e2 / val m3 e3) (inject_Z dc / inject_Z dn))
    by (apply within_div; try done; by apply val_pos).
  assert (W4' : within (rlo * (rlo / rhi)) (rhi * (rhi / rlo)) (val m4 e4) (inject_Z dc / inject_Z dn))
    by (eapply within_trans; [| | exact W4 | exact W23]; done).
  assert (W14 : within (rlo / (rhi * (rhi / rlo))) (rhi / (rlo * (rlo / rhi))) (val m1 e1 / val m4 e4) (inject_Z c / (inject_Z dc / inject_Z dn)))
    by (apply within_div; try done; by apply val_pos).
  assert (W : within (rlo * (rlo / (rhi * (rhi / rlo)))) (rhi * (rhi / (rlo * (rlo / rhi)))) (val m5 e5) (inject_Z c / (inject_Z dc / inject_Z dn)))
    by (eapply within_trans; [| | exact W5 | exact W14]; done).
  eapply within_widen; [| | | exact W]; [|vm_compute; discriminate..].
  apply Qlt_le_weak, Qlt_shift_div_l; [done | lra].
Qed.

(** ** Converting *)

Lemma truncate_bounds m e (n := m * up e / down e) : (inject_Z n <= val m e /\ val m e < inject_Z (n + 1))%Q.
Proof.
  pose proof (down_pos e). pose proof (inject_pos (down e) ltac:(done)). unfold val, frac, vnum.
  pose proof (Z.div_mod (m * up e) (down e) ltac:(lia)). pose proof (Z.mod_pos_bound (m * up e) (down e) ltac:(done)). fold n in H1. split.
  - apply Qle_shift_div_l; [done|]. rewrite <-inject_Z_mult, <-Zle_Qle. nia.
  - apply Qlt_shift_div_r; [done|]. rewrite <-inject_Z_mult, <-Zlt_Qlt. nia.
Qed.

(** The bounds in whole numbers. *)
Lemma convert_bounds c dc dn n x :
  0 < dc -> 0 < dn -> (inject_Z n <= x)%Q -> (x < inject_Z (n + 1))%Q ->
  within (1 - (1 # 1125899906842624)) (1 + (1 # 1125899906842624)) x (inject_Z c / (inject_Z dc / inject_Z dn)) ->
  2 ^ 50 * Z.abs (n * dc - c * dn) <= 2 ^ 50 * dc + c * dn.
Proof.
  intros Hdc Hdn Hn Hn' [Hl Hu]. pose proof (inject_pos dc Hdc). pose proof (inject_pos dn Hdn).
  assert (E : (inject_Z c / (inject_Z dc / inject_Z dn) == inject_Z (c * dn) / inject_Z dc)%Q) by (rewrite inject_Z_mult; field; lra).
  rewrite E in Hl, Hu. set (y := (inject_Z (c * dn) / inject_Z dc)%Q) in *.
  assert (Ey : (y * inject_Z dc == inject_Z (c * dn))%Q) by (unfold y; field; lra).
  assert (H1 : (inject_Z (n * dc) * (1125899906842624 # 1) <= inject_Z (c * dn) * (1125899906842625 # 1))%Q).
  { rewrite <-Ey, inject_Z_mult. assert (inject_Z n <= (1 + (1 # 1125899906842624)) * y)%Q by lra.
    apply (Qmult_le_compat_r _ _ (inject_Z dc)) in H1; lra. }
  assert (H2 : (inject_Z (c * dn) * (1125899906842623 # 1) <= inject_Z ((n + 1) * dc) * (1125899906842624 # 1))%Q).
  { rewrite <-Ey, inject_Z_mult. assert ((1 - (1 # 1125899906842624)) * y <= inject_Z (n + 1))%Q by lra.
    apply (Qmult_le_compat_r _ _ (inject_Z dc)) in H2; lra. }
  change (1125899906842624 # 1) with (inject_Z 1125899906842624) in *. change (1125899906842625 # 1) with (inject_Z 1125899906842625) in *.
  change (1125899906842623 # 1) with (inject_Z 1125899906842623) in *. rewrite <-!inject_Z_mult, <-!Zle_Qle in H1, H2. lia.
Qed.

Lemma of_u64_pos c : 0 < c -> exists m e, of_u64 c = Fin m e /\ is_double m.
Proof. intros Hc. destruct (of_u64_within c Hc) as (m & e & E & Hm & _). eauto. Qed.

Lemma ratio_pos dc dn : 0 < dc -> 0 < dn -> exists m e, div (of_u64 dc) (of_u64 dn) = Fin m e /\ is_double m.
Proof.
  intros H1 H2. destruct (of_u64_pos dc H1) as (m1 & e1 & -> & ?), (of_u64_pos dn H2) as (m2 & e2 & -> & ?).
  destruct (div_within m1 e1 m2 e2) as (m & e & E & Hm & _); eauto.
Qed.

Lemma toNs_ok c dc dn : 0 <= c -> 0 < dc -> 0 < dn -> c * dn <= 2 ^ 63 * dc ->
  exists n, toNs (div (of_u64 dc) (of_u64 dn)) c = Ok n /\ 0 <= n <= UINT64_MAX /\ 2 ^ 50 * Z.abs (n * dc - c * dn) <= 2 ^ 50 * dc + c * dn.
Proof.
  intros Hc Hdc Hdn Hr. unfold toNs. destruct (Z.eq_dec c 0) as [->|Hne].
  { destruct (ratio_pos dc dn Hdc Hdn) as (m & e & -> & _). exists 0. split; [done|]. unfold UINT64_MAX. lia. }
  destruct (convert_within c dc dn ltac:(lia) Hdc Hdn) as (m & e & -> & Hm & Hw). cbn [to_u64]. set (n := m * up e / down e).
  destruct (truncate_bounds m e) as [Hn1 Hn2]. cbv zeta in Hn1, Hn2. fold n in Hn1, Hn2.
  pose proof (convert_bounds c dc dn n _ Hdc Hdn Hn1 Hn2 Hw) as Hb.
  assert (0 <= n) by (apply Z.div_pos; [unfold is_double in Hm; pose proof (up_pos e); nia | apply down_pos]).
  assert (n <= UINT64_MAX) by (unfold UINT64_MAX; nia).
  exists n. destruct (Z.leb_spec n UINT64_MAX); [done | lia].
Qed.

(** ** The order of samples *)

Lemma of_u64_mono c c' m e m' e' : 0 < c <= c' -> of_u64 c = Fin m e -> of_u64 c' = Fin m' e' -> vnum m e * down e' <= vnum m' e' * down e.
Proof.
  intros Hc. unfold of_u64. destruct (Z.eqb_spec c 0), (Z.eqb_spec c' 0); try lia. apply rnd_mono; lia.
Qed.

Lemma truncate_mono m e m' e' : vnum m e * down e' <= vnum m' e' * down e -> m * up e / down e <= m' * up e' / down e'.
Proof.
  unfold vnum. intros H. pose proof (down_pos e). pose proof (down_pos e').
  apply Z.div_le_lower_bound; [done|]. pose proof (Z.mul_div_le (m * up e) (down e) ltac:(done)).
  apply (Z.mul_le_mono_pos_r _ _ (down e)); [done|]. nia.
Qed.

(** Dividing by the same positive double and truncating keeps the order. *)
Lemma quotient_mono r re m e m' e' m1 e1 m2 e2 : is_double r -> is_double m -> is_double m' ->
  vnum m e * down e' <= vnum m' e' * down e -> div (Fin m e) (Fin r re) = Fin m1 e1 -> div (Fin m' e') (Fin r re) = Fin m2 e2 ->
  m1 * up e1 / down e1 <= m2 * up e2 / down e2.
Proof.
  unfold is_double, vnum. intros Hr Hm Hm' Hle E1 E2. apply truncate_mono.
  pose proof (up_pos e). pose proof (up_pos e'). pose proof (up_pos re). pose proof (down_pos re). pose proof (down_pos e). pose proof (down_pos e').
  assert (Hu : 0 < m * up e) by nia. assert (Hu' : 0 < m' * up e') by nia. assert (Hru : 0 < r * up re) by nia.
  cbn [div] in E1, E2. eapply rnd_mono; [| | | | | exact E1 | exact E2]; try nia.
Qed.

Lemma toNs_mono r re c c' n n' : is_double r -> 0 <= c <= c' -> toNs (Fin r re) c = Ok n -> toNs (Fin r re) c' = Ok n' -> n <= n'.
Proof.
  intros Hr Hc. unfold toNs. destruct (Z.eq_dec c 0) as [->|Hne].
  { intros [= <-]. destruct (Z.eq_dec c' 0) as [->|Hne']; [by intros [= <-]|].
    destruct (of_u64_pos c' ltac:(lia)) as (m & e & -> & Hm). destruct (div_within m e r re Hm Hr) as (m1 & e1 & -> & Hm1 & _).
    cbn [to_u64]. case_match; intros [= <-]. apply Z.div_pos; [unfold is_double in Hm1; pose proof (up_pos e1); nia | apply down_pos]. }
  destruct (of_u64_pos c ltac:(lia)) as (m & e & E1 & Hm), (of_u64_pos c' ltac:(lia)) as (m' & e' & E2 & Hm'). rewrite E1, E2.
  pose proof (of_u64_mono c c' m e m' e' ltac:(lia) E1 E2) as Hle.
  destruct (div_within m e r re Hm Hr) as (m1 & e1 & E3 & _), (div_within m' e' r re Hm' Hr) as (m2 & e2 & E4 & _).
  rewrite E3, E4. cbn [to_u64]. do 2 case_match; try done. intros [= <-] [= <-]. exact (quotient_mono r re m e m' e' m1 e1 m2 e2 Hr Hm Hm' Hle E3 E4).
Qed.

(** A conversion that is defined is defined for shorter samples. *)
Lemma toNs_defined_below r re c c' n' : is_double r -> 0 <= c <= c' -> toNs (Fin r re) c' = Ok n' -> exists n, toNs (Fin r re) c = Ok n.
Proof.
  intros Hr Hc. unfold toNs. destruct (Z.eq_dec c 0) as [->|Hne]; [by exists 0|].
  destruct (of_u64_pos c ltac:(lia)) as (m & e & E1 & Hm), (of_u64_pos c' ltac:(lia)) as (m' & e' & E2 & Hm'). rewrite E1, E2.
  pose proof (of_u64_mono c c' m e m' e' ltac:(lia) E1 E2) as Hle.
  destruct (div_within m e r re Hm Hr) as (m1 & e1 & E3 & _), (div_within m' e' r re Hm' Hr) as (m2 & e2 & E4 & _).
  rewrite E3, E4. cbn [to_u64]. case_match; [|done]. intros _. pose proof (quotient_mono r re m e m' e' m1 e1 m2 e2 Hr Hm Hm' Hle E3 E4).
  case_match; [eauto | lia].
Qed.

(** Cycle counts of 64 bits all convert when the counter ticks at least twice
    per nanosecond. *)
Definition converts (cyclesPerNs : double) : Prop := forall c, 0 <= c <= UINT64_MAX -> exists n, toNs cyclesPerNs c = Ok n.

Lemma fast_counter_converts dc dn : 0 < dn -> 2 * dn <= dc -> converts (div (of_u64 dc) (of_u64 dn)).
Proof.
  intros Hdn Hr c Hc. destruct (toNs_ok c dc dn) as (n & E & _); [lia | lia | done | unfold UINT64_MAX in Hc; nia | eauto].
Qed.

(** *** Signs *)

Definition nonneg (x : double) : Prop := match x with Fin m _ => 0 <= m | _ => True end.

Lemma rnd_nonneg n d : 0 <= n -> 0 <= d -> nonneg (rnd n d).
Proof.
  intros Hn Hd. unfold rnd. set (e := exponent n d). pose proof (up_pos e). pose proof (down_pos e).
  assert (Hh : 0 <= half_even (n * down e) (d * up e)).
  { unfold half_even. assert (0 <= (n * down e) / (d * up e)).
    { destruct (Z.eq_dec (d * up e) 0) as [->|]; [by rewrite Z.div_0_r | apply Z.div_pos; nia]. }
    case_match; lia. }
  case_match; simpl; lia.
Qed.

Lemma of_u64_nonneg c : 0 <= c -> nonneg (of_u64 c).
Proof. intros Hc. unfold of_u64. case_match; [done | by apply rnd_nonneg]. Qed.

Lemma div_nonneg x y : nonneg x -> nonneg y -> nonneg (div x y).
Proof.
  destruct x as [|m e| |], y as [|m' e'| |]; simpl; try done. intros Hm Hm'.
  pose proof (up_pos e). pose proof (up_pos e'). pose proof (down_pos e). pose proof (down_pos e'). apply rnd_nonneg; nia.
Qed.

(** What a calibrated conversion returns fits its type. *)
Lemma toNs_range fuel clock cyc0 cyc1 cpn c n :
  calibrateTsc fuel clock cyc0 cyc1 = Ok cpn -> 0 <= c -> toNs cpn c = Ok n -> 0 <= n <= UINT64_MAX.
Proof.
  unfold calibrateTsc. intros (ns1 & _ & [= <-])%bind_inv Hc. unfold toNs.
  assert (Hu : forall z, 0 <= u64 z) by (intros z; unfold u64; apply Z.mod_pos_bound; lia).
  pose proof (div_nonneg _ _ (of_u64_nonneg c Hc) (div_nonneg _ _ (of_u64_nonneg _ (Hu (cyc1 - cyc0))) (of_u64_nonneg _ (Hu (ns1 - monoNs (clock 0%nat)))))) as Hd.
  destruct (div (of_u64 c) _) as [|m e| |]; cbn [to_u64]; try done; [intros [= <-]; unfold UINT64_MAX; lia|].
  simpl in Hd. pose proof (up_pos e). pose proof (down_pos e). assert (0 <= m * up e / down e) by (apply Z.div_pos; nia).
  case_match; [|done]. intros [= <-]. lia.
Qed.

(** ** Properties *)

(** C19: calibration ends and divides by a usable interval. Once some reading of
    the clock is 100 ms after the first, the loop ends with the first such
    reading, and the result is the rounded ratio of the two wrapped differences,
    the divisor being at least 100 ms; it is a positive number exactly if the
    counter moved, and a counter that did not move makes every conversion
    undefined. *)
Theorem calibration_terminates clock n cyc0 cyc1 fuel :
  100000000 <= u64 (monoNs (clock (1 + n)%nat) - monoNs (clock 0%nat)) -> (n < fuel)%nat ->
  exists k, (k <= n)%nat /\
    (forall j, (j < k)%nat -> u64 (monoNs (clock (1 + j)%nat) - monoNs (clock 0%nat)) < 100000000) /\
    let dc := u64 (cyc1 - cyc0) in
    let dn := u64 (monoNs (clock (1 + k)%nat) - monoNs (clock 0%nat)) in
    100000000 <= dn /\
    calibrateTsc fuel clock cyc0 cyc1 = Ok (div (of_u64 dc) (of_u64 dn)) /\
    calibrateTscUdp fuel clock cyc0 cyc1 = Ok (div (of_u64 dc) (of_u64 dn)) /\
    (if dc =? 0 then forall c, toNs (div (of_u64 dc) (of_u64 dn)) c = Err UB
     else exists m e, div (of_u64 dc) (of_u64 dn) = Fin m e /\ is_double m).
Proof.
  intros Hn Hf. destruct (first_reading clock _ n Hn) as (k & Hk & Hk1 & Hk2). exists k. split; [done|]. split; [done|]. cbv zeta.
  assert (Hs : spin fuel clock (monoNs (clock 0%nat)) 1 = Ok (monoNs (clock (1 + k)%nat))) by (apply spin_ok; [done | done | lia]).
  unfold calibrateTsc, calibrateTscUdp. rewrite Hs, !bind_ok. split_and!; try done.
  set (dn := u64 (monoNs (clock (1 + k)%nat) - monoNs (clock 0%nat))) in *. destruct (Z.eqb_spec (u64 (cyc1 - cyc0)) 0) as [->|Hne].
  - intros c. destruct (of_u64_pos dn ltac:(lia)) as (m & e & -> & Hm). unfold toNs. change (div (of_u64 0) (Fin m e)) with Zero.
    by destruct (of_u64 c).
  - apply ratio_pos; [|lia]. pose proof (Z.mod_pos_bound (cyc1 - cyc0) (2 ^ 64) ltac:(lia)). unfold u64 in *. lia.
Qed.

(** A clock that advances by 40 ms per reading. *)
Definition clock40 (i : nat) : timespec := mkTimespec 5 (40000000 * Z.of_nat i).

Lemma calibration_terminates_witness :
  exists k, (k <= 2)%nat /\ calibrateTsc 5 clock40 1000 360001000 =
    Ok (div (of_u64 360000000) (of_u64 (u64 (monoNs (clock40 (1 + k)%nat) - monoNs (clock40 0%nat))))).
Proof.
  destruct (calibration_terminates clock40 2 1000 360001000 5) as (k & Hk & _ & _ & E & _).
  - vm_compute; discriminate.
  - lia.
  - exists k. split; [exact Hk | exact E].
Defined.

(** C20: the conversion of cycles to nanoseconds is accurate and keeps the order
    of the samples. With [dc] cycles counted in [dn] nanoseconds, a sample of [c]
    cycles that lasted at most 2^63 ns converts without undefined behaviour to
    a number of nanoseconds within 1 ns and 2^-50 of [c * dn / dc], all five
    roundings and the truncation included; every shorter sample converts too, to
    no larger a number. *)
Theorem cycles_to_ns_accurate c dc dn :
  0 <= c -> 0 < dc -> 0 < dn -> c * dn <= 2 ^ 63 * dc ->
  exists n, toNs (div (of_u64 dc) (of_u64 dn)) c = Ok n /\ 0 <= n <= UINT64_MAX /\
    2 ^ 50 * Z.abs (n * dc - c * dn) <= 2 ^ 50 * dc + c * dn /\
    forall c', 0 <= c' <= c -> exists n', toNs (div (of_u64 dc) (of_u64 dn)) c' = Ok n' /\ n' <= n.
Proof.
  intros Hc Hdc Hdn Hr. destruct (toNs_ok c dc dn Hc Hdc Hdn Hr) as (n & E & Hn & Hb). exists n. split_and!; try done; try apply Hn.
  intros c' Hc'. destruct (ratio_pos dc dn Hdc Hdn) as (m & e & Er & Hm). rewrite Er in *.
  destruct (toNs_defined_below m e c' c n Hm Hc' E) as (n' & E'). exists n'. split; [done|]. by eapply toNs_mono.
Qed.

(** A counter of 3 GHz: 1000 cycles are 333 ns. *)
Lemma cycles_to_ns_accurate_witness :
  toNs (div (of_u64 300000000) (of_u64 100000000)) 1000 = Ok 333 /\
  exists n, toNs (div (of_u64 300000000) (of_u64 100000000)) 1000 = Ok n /\ 0 <= n <= UINT64_MAX /\
    2 ^ 50 * Z.abs (n * 300000000 - 1000 * 100000000) <= 2 ^ 50 * 300000000 + 1000 * 100000000 /\
    forall c', 0 <= c' <= 1000 -> exists n', toNs (div (of_u64 300000000) (of_u64 100000000)) c' = Ok n' /\ n' <= n.
Proof.
  split; [vm_compute; reflexivity|]. apply (cycles_to_ns_accurate 1000 300000000 100000000); lia.
Defined.
