(* ===== verification/OrderPool.v ===== *)
(** The order arena of include/order_pool.hpp and the records of
    include/itch.hpp it stores: [OrderPool.allocate] and [OrderPool.free] on
    one vector of nodes whose free slots are chained through their own [next]
    field, with the free-list invariant and the doubly linked segments the
    price levels thread through the same nodes. *)
From Stdlib Require Import ZArith Lia.
From stdpp Require Import base numbers gmap list.
From S2P Require Import Prelude.
Open Scope Z_scope.

(** Sentinel index meaning "no node". *)
Definition INVALID_INDEX : Z := UINT32_MAX.

Record Order := mkOrder {
  orderReferenceNumberHigh : Z;
  orderReferenceNumberLow : Z;
  shares : Z;
  price : Z;
  buySellIndicator : Z
}.

Record PoolNode := mkNode { order : Order; next : Z; prev : Z }.

Record OrderPool := mkPool { nodes : vec PoolNode; freeHead : Z }.

Definition Order_zero : Order := mkOrder 0 0 0 0 0.
Definition PoolNode_zero : PoolNode := mkNode Order_zero 0 0.

#[export] Instance Order_eq_dec : EqDecision Order.
Proof. solve_decision. Defined.
#[export] Instance PoolNode_eq_dec : EqDecision PoolNode.
Proof. solve_decision. Defined.

Definition set_order (o : Order) (n : PoolNode) : PoolNode := mkNode o (next n) (prev n).
Definition set_next (i : Z) (n : PoolNode) : PoolNode := mkNode (order n) i (prev n).
Definition set_prev (i : Z) (n : PoolNode) : PoolNode := mkNode (order n) (next n) i.
Definition set_shares (s : Z) (o : Order) : Order :=
  mkOrder (orderReferenceNumberHigh o) (orderReferenceNumberLow o) s (price o)
    (buySellIndicator o).

(** The 64-bit reference number of an order:
    [(uint64_t(high) << 32) | low]. *)
Definition order_ref (o : Order) : Z :=
  Z.lor (u64 (Z.shiftl (orderReferenceNumberHigh o) 32)) (orderReferenceNumberLow o).

Module OrderPool.

(** [OrderPool(reserveCapacity)]: reserving changes no element. *)
Definition new : OrderPool := mkPool (Vec 0 ∅ PoolNode_zero) INVALID_INDEX.

Definition get (pool : OrderPool) (idx : Z) : result PoolNode := vget (nodes pool) idx.

(** [pool[idx].f = ...]: one field write through the node reference. *)
Definition modify (f : PoolNode -> PoolNode) (idx : Z) (pool : OrderPool) : result OrderPool :=
  n ← vget (nodes pool) idx;
  ns ← vset (nodes pool) idx (f n);
  Ok (mkPool ns (freeHead pool)).

Definition allocate (o : Order) (pool : OrderPool) : result (Z * OrderPool) :=
  '(idx, pool) ←
    (if negb (freeHead pool =? INVALID_INDEX) then
       let idx := freeHead pool in
       n ← get pool idx;
       Ok (idx, mkPool (nodes pool) (next n))
     else
       let idx := u32 (vlen (nodes pool)) in
       Ok (idx, mkPool (vpush (nodes pool) PoolNode_zero) (freeHead pool)));
  pool ← modify (set_order o) idx pool;
  pool ← modify (set_next INVALID_INDEX) idx pool;
  pool ← modify (set_prev INVALID_INDEX) idx pool;
  Ok (idx, pool).

Definition free (idx : Z) (pool : OrderPool) : result OrderPool :=
  pool ← modify (set_next (freeHead pool)) idx pool;
  Ok (mkPool (nodes pool) idx).

End OrderPool.

(** ** Allocation states *)

(** [agree_off X ns ns']: the two node vectors differ only at indices of [X];
    [ns'] may have grown. *)
Definition agree_off (X : list Z) (ns ns' : vec PoolNode) : Prop :=
  vlen ns <= vlen ns' /\
  (forall i, 0 <= i < vlen ns -> i ∉ X -> vnth ns' i = vnth ns i).

Lemma agree_off_refl X ns : agree_off X ns ns.
Proof. split; [lia | done]. Qed.

Lemma agree_off_trans X ns1 ns2 ns3 :
  agree_off X ns1 ns2 -> agree_off X ns2 ns3 -> agree_off X ns1 ns3.
Proof.
  intros [L1 H1] [L2 H2]; split; [lia|].
  intros i Hi HX; rewrite H2, H1; [done | lia | done | lia | done].
Qed.

Lemma agree_off_weaken X Y ns ns' :
  (forall i, i ∈ X -> i ∈ Y) -> agree_off X ns ns' -> agree_off Y ns ns'.
Proof. intros HXY [L H]; split; [done|]. intros; apply H; eauto. Qed.

Lemma agree_off_vupd X ns i n : i ∈ X -> agree_off X ns (vupd ns i n).
Proof.
  intros Hi; split; [simpl; lia|].
  intros j _ Hj; rewrite vnth_vupd_ne; [done | set_solver].
Qed.

(** [fseg ns h F]: following [next] from [h] visits exactly the indices [F],
    in order, and ends at [INVALID_INDEX]. *)
Fixpoint fseg (ns : vec PoolNode) (h : Z) (F : list Z) : Prop :=
  match F with
  | [] => h = INVALID_INDEX
  | i :: F' => h = i /\ 0 <= i < vlen ns /\ fseg ns (next (vnth ns i)) F'
  end.

(** The arena fits the index type: no node has the sentinel as its index. *)
Definition pool_fits (ns : vec PoolNode) : Prop := 0 <= vlen ns <= INVALID_INDEX.

(** The free-list invariant. *)
Record pool_inv (pool : OrderPool) (F : list Z) : Prop := {
  pi_fits : pool_fits (nodes pool);
  pi_free : fseg (nodes pool) (freeHead pool) F;
  pi_nodup : NoDup F
}.

Lemma fseg_in_range ns h F i : fseg ns h F -> i ∈ F -> 0 <= i < vlen ns.
Proof.
  revert h; induction F as [|j F IH]; simpl; intros h; [set_solver|].
  intros (-> & Hj & HF) [->|Hi]%elem_of_cons; eauto.
Qed.

Lemma fseg_agree X ns ns' h F :
  agree_off X ns ns' -> (forall i, i ∈ F -> i ∉ X) -> fseg ns h F -> fseg ns' h F.
Proof.
  intros [L H]; revert h; induction F as [|j F IH]; simpl; intros h HX; [done|].
  intros (-> & Hj & HF); split; [done|]; split; [lia|].
  rewrite H; [|done|set_solver]. apply IH; [set_solver | done].
Qed.

(** [dseg ns pp p q qn l]: the nodes [l] are doubly linked from first [p] to
    last [q]; [pp] precedes the first, [qn] follows the last. *)
Fixpoint dseg (ns : vec PoolNode) (pp p q qn : Z) (l : list Z) : Prop :=
  match l with
  | [] => p = qn /\ pp = q
  | i :: l' => p = i /\ 0 <= i < vlen ns /\ prev (vnth ns i) = pp /\
               dseg ns i (next (vnth ns i)) q qn l'
  end.

Section dseg.
Implicit Types (ns : vec PoolNode) (l : list Z).

Lemma dseg_app ns pp p q qn l1 l2 :
  dseg ns pp p q qn (l1 ++ l2) <->
  exists j jn, dseg ns pp p j jn l1 /\ dseg ns j jn q qn l2.
Proof.
  revert pp p; induction l1 as [|i l1 IH]; simpl; intros pp p.
  - split; [intros H; by exists pp, p | by intros (j & jn & (-> & ->) & H)].
  - setoid_rewrite IH; naive_solver.
Qed.

Lemma dseg_agree X ns ns' pp p q qn l :
  agree_off X ns ns' -> (forall i, i ∈ l -> i ∉ X) ->
  dseg ns pp p q qn l -> dseg ns' pp p q qn l.
Proof.
  intros [L H]; revert pp p; induction l as [|j l IH]; simpl; intros pp p HX; [done|].
  intros (-> & Hj & Hp & Hl); split; [done|]; split; [lia|].
  rewrite H; [|done|set_solver]. split; [done|]. apply IH; [set_solver | done].
Qed.

Lemma dseg_in_range ns pp p q qn l i :
  dseg ns pp p q qn l -> i ∈ l -> 0 <= i < vlen ns.
Proof.
  revert pp p; induction l as [|j l IH]; simpl; intros pp p; [set_solver|].
  intros (-> & Hj & Hp & Hl) [->|Hi]%elem_of_cons; eauto.
Qed.

Lemma dseg_snoc ns pp p q qn l i :
  dseg ns pp p q qn (l ++ [i]) <->
  q = i /\ 0 <= i < vlen ns /\ next (vnth ns i) = qn /\
  dseg ns pp p (prev (vnth ns i)) i l.
Proof.
  rewrite dseg_app; simpl; split.
  - intros (j & jn & H & -> & Hi & <- & <- & <-); auto.
  - intros (-> & Hi & Hn & H); eauto 10.
Qed.

(** Rewriting the boundary links of a segment. *)
Lemma dseg_set_first ns pp pp' p q qn i l :
  i ∉ l -> dseg ns pp p q qn (i :: l) ->
  dseg (vupd ns i (set_prev pp' (vnth ns i))) pp' p q qn (i :: l).
Proof.
  simpl; intros Hi (-> & Hr & Hp & Hl); rewrite vnth_vupd_eq; simpl.
  split; [done|]; split; [done|]; split; [done|].
  apply (dseg_agree [i] ns); [apply agree_off_vupd; set_solver | set_solver | done].
Qed.

Lemma dseg_set_last ns pp p q qn qn' i l :
  i ∉ l -> dseg ns pp p q qn (l ++ [i]) ->
  dseg (vupd ns i (set_next qn' (vnth ns i))) pp p q qn' (l ++ [i]).
Proof.
  rewrite !dseg_snoc; simpl; intros Hi (-> & Hr & Hp & Hl); rewrite vnth_vupd_eq; simpl.
  split; [done|]; split; [done|]; split; [done|].
  apply (dseg_agree [i] ns); [apply agree_off_vupd; set_solver | set_solver | done].
Qed.
End dseg.

(** ** Relinking *)

(** [relinked X ns ns']: only the links of nodes in [X] changed; no node
    moved and every order is as it was. *)
Record relinked (X : list Z) (ns ns' : vec PoolNode) : Prop := {
  rl_len : vlen ns' = vlen ns;
  rl_order : forall j, order (vnth ns' j) = order (vnth ns j);
  rl_off : forall j, j ∉ X -> vnth ns' j = vnth ns j
}.

Lemma relinked_refl X ns : relinked X ns ns.
Proof. by split. Qed.

Lemma relinked_trans X ns1 ns2 ns3 :
  relinked X ns1 ns2 -> relinked X ns2 ns3 -> relinked X ns1 ns3.
Proof.
  intros [L1 O1 H1] [L2 O2 H2]; split; [congruence | |]; intros j; [by rewrite O2|].
  intros Hj; by rewrite H2, H1.
Qed.

Lemma relinked_weaken X Y ns ns' :
  (forall i, i ∈ X -> i ∈ Y) -> relinked X ns ns' -> relinked Y ns ns'.
Proof. intros HXY [L O H]; split; eauto. Qed.

Lemma relinked_next X ns i n : i ∈ X -> relinked X ns (vupd ns i (set_next n (vnth ns i))).
Proof.
  intros Hi; split; [done | |]; intros j.
  - rewrite vnth_vupd; case_decide; by subst.
  - intros Hj; rewrite vnth_vupd_ne; [done | set_solver].
Qed.

Lemma relinked_prev X ns i n : i ∈ X -> relinked X ns (vupd ns i (set_prev n (vnth ns i))).
Proof.
  intros Hi; split; [done | |]; intros j.
  - rewrite vnth_vupd; case_decide; by subst.
  - intros Hj; rewrite vnth_vupd_ne; [done | set_solver].
Qed.

Lemma relinked_agree X ns ns' : relinked X ns ns' -> agree_off X ns ns'.
Proof. intros [L O H]; split; [lia|]; auto. Qed.

Create HintDb pool.
#[export] Hint Resolve relinked_refl relinked_agree agree_off_refl : pool.

Lemma pool_inv_agree X pool pool' F :
  agree_off X (nodes pool) (nodes pool') -> pool_fits (nodes pool') ->
  freeHead pool' = freeHead pool -> (forall i, i ∈ F -> i ∉ X) ->
  pool_inv pool F -> pool_inv pool' F.
Proof.
  intros Hag Hfits Hh HX [_ Hfree Hnd]; split; [done | | done].
  rewrite Hh; by eapply fseg_agree.
Qed.

(** ** What [allocate] and [free] do *)

Section pool_ops.
Implicit Types (pool : OrderPool) (F : list Z).

Lemma modify_ok f i pool :
  0 <= i < vlen (nodes pool) ->
  OrderPool.modify f i pool =
  Ok (mkPool (vupd (nodes pool) i (f (vnth (nodes pool) i))) (freeHead pool)).
Proof. intros Hi; unfold OrderPool.modify; by rewrite vget_ok; simpl; rewrite ?vset_ok. Qed.

(** There is a slot to hand out: a freed one, or an index the arena can
    still grow into. *)
Definition pool_room pool F : Prop := F <> [] \/ vlen (nodes pool) < INVALID_INDEX.

(** The slot [allocate] hands out, and the free list it leaves. *)
Definition alloc_slot pool F : Z :=
  match F with [] => vlen (nodes pool) | i :: _ => i end.

Lemma allocate_spec o pool F :
  pool_inv pool F -> pool_room pool F ->
  exists pool',
    OrderPool.allocate o pool = Ok (alloc_slot pool F, pool') /\
    pool_inv pool' (tail F) /\
    agree_off [alloc_slot pool F] (nodes pool) (nodes pool') /\
    0 <= alloc_slot pool F < vlen (nodes pool') /\
    vnth (nodes pool') (alloc_slot pool F) = mkNode o INVALID_INDEX INVALID_INDEX /\
    vlen (nodes pool') = (if F is [] then vlen (nodes pool) + 1 else vlen (nodes pool)).
Proof.
  intros [Hfits Hfree Hnd] Hroom; unfold OrderPool.allocate.
  unfold pool_fits, INVALID_INDEX, UINT32_MAX in *.
  destruct F as [|i F]; simpl in *.
  - destruct Hroom as [?|Hroom]; [done|]. unfold INVALID_INDEX, UINT32_MAX in Hroom.
    rewrite Hfree; simpl. rewrite u32_small by lia.
    do 3 (rewrite modify_ok by (simpl; lia); simpl). rewrite !vupd_vupd, !vnth_vupd_eq; simpl.
    eexists; split; [done|]. split; [split; unfold pool_fits, INVALID_INDEX, UINT32_MAX; simpl; [lia | done | constructor]|].
    split; [|simpl; rewrite vnth_vupd_eq; by split_and!; try lia].
    split; [simpl; lia|]. intros j Hj Hne; simpl.
    rewrite vnth_vupd_ne, vnth_vpush_ne by (lia || set_solver); done.
  - destruct Hfree as (Hh & Hi & HF). apply NoDup_cons in Hnd as [Hni Hnd].
    rewrite Hh, (proj2 (Z.eqb_neq i 4294967295)) by lia; simpl.
    unfold OrderPool.get; rewrite vget_ok by done; simpl.
    do 3 (rewrite modify_ok by (simpl; lia); simpl). rewrite !vupd_vupd, !vnth_vupd_eq; simpl.
    eexists; split; [done|]. split; [|split; [apply agree_off_vupd; set_solver|]].
    + split; simpl; [done| |done].
      eapply fseg_agree; [apply (agree_off_vupd [i]); set_solver | set_solver | done].
    + simpl; rewrite vnth_vupd_eq; by split_and!; try lia.
Qed.

Lemma free_spec i pool F :
  pool_inv pool F -> 0 <= i < vlen (nodes pool) -> i ∉ F ->
  exists pool',
    OrderPool.free i pool = Ok pool' /\
    pool_inv pool' (i :: F) /\ relinked [i] (nodes pool) (nodes pool').
Proof.
  intros [Hfits Hfree Hnd] Hi HiF; unfold OrderPool.free.
  rewrite modify_ok by done; simpl. eexists; split; [done|].
  split; [|apply relinked_next; set_solver].
  split; simpl; [done| |by apply NoDup_cons].
  split; [done|]; split; [done|]. rewrite vnth_vupd_eq; simpl.
  eapply fseg_agree; [apply (agree_off_vupd [i]); set_solver | set_solver | done].
Qed.

Lemma new_inv : pool_inv OrderPool.new [].
Proof. split; simpl; [unfold pool_fits, INVALID_INDEX, UINT32_MAX; simpl; lia | done | constructor]. Qed.
End pool_ops.
