(* ===== verification/LadderSide.v ===== *)
(** One side of an order book, include/ladder_side.hpp: the fixed window of
    price levels, the sorted overflow vector, the cached best slot, and the
    FIFO chains the levels thread through the order pool. *)
From Stdlib Require Import ZArith Lia.
From stdpp Require Import base numbers gmap sorting list.
From S2P Require Import Prelude OrderPool.
Open Scope Z_scope.

Record Level := mkLevel { lvl_head : Z; lvl_tail : Z }.
Definition Level_new : Level := mkLevel INVALID_INDEX INVALID_INDEX.

#[export] Instance Level_eq_dec : EqDecision Level.
Proof. solve_decision. Defined.

Definition TICK : Z := 100.
Definition WINDOW : Z := 2048.

Record LadderSide := mkSide {
  bid : bool;
  ladder : vec Level;
  overflow : list (Z * Level);
  base : Z;
  anchored : bool;
  bestSlot : Z
}.

(** A [Level*] or [Level&] points into the ladder vector or into the overflow
    vector of the side it came from. *)
Inductive LevelRef := InLadder (slot : Z) | InOverflow (pos : nat).

Module LadderSide.

Definition new (isBid : bool) : LadderSide :=
  mkSide isBid (Vec 0 ∅ Level_new) [] 0 false INVALID_INDEX.

Definition set_ladder (l : vec Level) (s : LadderSide) : LadderSide :=
  mkSide (bid s) l (overflow s) (base s) (anchored s) (bestSlot s).
Definition set_overflow (o : list (Z * Level)) (s : LadderSide) : LadderSide :=
  mkSide (bid s) (ladder s) o (base s) (anchored s) (bestSlot s).
Definition set_bestSlot (b : Z) (s : LadderSide) : LadderSide :=
  mkSide (bid s) (ladder s) (overflow s) (base s) (anchored s) b.

(** [*ref] and [*ref = lvl]. *)
Definition deref (s : LadderSide) (ref : LevelRef) : result Level :=
  match ref with
  | InLadder slot => vget (ladder s) slot
  | InOverflow pos =>
      match overflow s !! pos with Some (_, lvl) => Ok lvl | None => Err UB end
  end.

Definition store (s : LadderSide) (ref : LevelRef) (lvl : Level) : result LadderSide :=
  match ref with
  | InLadder slot =>
      l ← vset (ladder s) slot lvl;
      Ok (set_ladder l s)
  | InOverflow pos =>
      match overflow s !! pos with
      | Some (p, _) => Ok (set_overflow (<[pos:=(p, lvl)]> (overflow s)) s)
      | None => Err UB
      end
  end.

(** [std::lower_bound] on the overflow vector: the halving search for the
    first element whose price is not below [price]. *)
Fixpoint lower_bound_loop (fuel : nat) (o : list (Z * Level)) (p : Z)
    (first len : nat) : nat :=
  match fuel with
  | O => first
  | S fuel =>
      if (len =? 0)%nat then first else
      let half := Nat.div2 len in
      let mid := (first + half)%nat in
      match o !! mid with
      | Some (q, _) =>
          if q <? p then lower_bound_loop fuel o p (S mid) (len - half - 1)%nat
          else lower_bound_loop fuel o p first half
      | None => first
      end
  end.

Definition overflowLowerBound (s : LadderSide) (p : Z) : nat :=
  lower_bound_loop (S (length (overflow s))) (overflow s) p 0 (length (overflow s)).

(** [it == overflow.end() || it->first != price]. *)
Definition overflowMiss (s : LadderSide) (it : nat) (p : Z) : bool :=
  match overflow s !! it with
  | None => true
  | Some (q, _) => negb (q =? p)
  end.

Definition overflowInsert (it : nat) (x : Z * Level) (s : LadderSide) : LadderSide :=
  set_overflow (take it (overflow s) ++ x :: drop it (overflow s)) s.

Definition overflowErase (it : nat) (s : LadderSide) : LadderSide :=
  set_overflow (delete it (overflow s)) s.

Definition anchor (p : Z) (s : LadderSide) : LadderSide :=
  let half := u64 ((WINDOW / 2) * TICK) in
  let candidate := if half <? p then u32 (p - u32 half) else 0 in
  let candidate := u64 (candidate - candidate mod TICK) in
  mkSide (bid s) (vassign WINDOW Level_new) (overflow s) (u32 candidate) true (bestSlot s).

Definition priceToSlot (s : LadderSide) (p : Z) : Z :=
  if negb (anchored s) || (p <? base s) then INVALID_INDEX else
  let offset := u64 (p - base s) in
  if negb (offset mod TICK =? 0) then INVALID_INDEX else
  let slot := offset / TICK in
  if WINDOW <=? slot then INVALID_INDEX else
  u32 slot.

Definition slotToPrice (s : LadderSide) (slot : Z) : Z :=
  u32 (base s + u32 (slot * TICK)).

Definition linkAtTail (pool : OrderPool) (lvl : Level) (idx : Z) : result (OrderPool * Level) :=
  pool ← OrderPool.modify (set_prev (lvl_tail lvl)) idx pool;
  pool ← OrderPool.modify (set_next INVALID_INDEX) idx pool;
  if negb (lvl_tail lvl =? INVALID_INDEX) then
    pool ← OrderPool.modify (set_next idx) (lvl_tail lvl) pool;
    Ok (pool, mkLevel (lvl_head lvl) idx)
  else
    Ok (pool, mkLevel idx idx).

(** [node] is a reference: its fields are read again after each write. *)
Definition unlink (pool : OrderPool) (lvl : Level) (idx : Z) : result (OrderPool * Level) :=
  node ← OrderPool.get pool idx;
  '(pool, lvl) ←
    (if negb (prev node =? INVALID_INDEX) then
       pool ← OrderPool.modify (set_next (next node)) (prev node) pool;
       Ok (pool, lvl)
     else Ok (pool, mkLevel (next node) (lvl_tail lvl)));
  node ← OrderPool.get pool idx;
  if negb (next node =? INVALID_INDEX) then
    pool ← OrderPool.modify (set_prev (prev node)) (next node) pool;
    Ok (pool, lvl)
  else Ok (pool, mkLevel (lvl_head lvl) (prev node)).

(** The two scanning loops of [advanceBest]; a full window is [WINDOW]
    iterations, so the fuel [WINDOW + 1] never runs out. *)
Fixpoint advanceBest_loop (fuel : nat) (isBid : bool) (l : vec Level) (b : Z) : result Z :=
  match fuel with
  | O => Err Diverge
  | S fuel =>
      if b =? INVALID_INDEX then Ok b else
      lvl ← vget l b;
      if negb (lvl_head lvl =? INVALID_INDEX) then Ok b else
      if isBid then
        if b =? 0 then Ok INVALID_INDEX
        else advanceBest_loop fuel isBid l (u32 (b - 1))
      else
        let b := u32 (b + 1) in
        if WINDOW <=? b then Ok INVALID_INDEX
        else advanceBest_loop fuel isBid l b
  end.

Definition advanceBest (s : LadderSide) : result LadderSide :=
  b ← advanceBest_loop (S (Z.to_nat WINDOW)) (bid s) (ladder s) (bestSlot s);
  Ok (set_bestSlot b s).

Definition add (pool : OrderPool) (p : Z) (idx : Z) (s : LadderSide)
    : result (OrderPool * LadderSide) :=
  let s := if negb (anchored s) then anchor p s else s in
  let slot := priceToSlot s p in
  if negb (slot =? INVALID_INDEX) then
    lvl ← deref s (InLadder slot);
    '(pool, lvl) ← linkAtTail pool lvl idx;
    s ← store s (InLadder slot) lvl;
    if (bestSlot s =? INVALID_INDEX) ||
       (if bid s then bestSlot s <? slot else slot <? bestSlot s)
    then Ok (pool, set_bestSlot slot s)
    else Ok (pool, s)
  else
    let it := overflowLowerBound s p in
    let s := if overflowMiss s it p then overflowInsert it (p, Level_new) s else s in
    lvl ← deref s (InOverflow it);
    '(pool, lvl) ← linkAtTail pool lvl idx;
    s ← store s (InOverflow it) lvl;
    Ok (pool, s).

Definition remove (pool : OrderPool) (p : Z) (idx : Z) (s : LadderSide)
    : result (OrderPool * LadderSide) :=
  let slot := priceToSlot s p in
  if negb (slot =? INVALID_INDEX) then
    lvl ← deref s (InLadder slot);
    '(pool, lvl) ← unlink pool lvl idx;
    s ← store s (InLadder slot) lvl;
    if (lvl_head lvl =? INVALID_INDEX) && (slot =? bestSlot s) then
      s ← advanceBest s;
      Ok (pool, s)
    else Ok (pool, s)
  else
    let it := overflowLowerBound s p in
    if overflowMiss s it p then Ok (pool, s) else
    lvl ← deref s (InOverflow it);
    '(pool, lvl) ← unlink pool lvl idx;
    s ← store s (InOverflow it) lvl;
    if lvl_head lvl =? INVALID_INDEX then Ok (pool, overflowErase it s)
    else Ok (pool, s).

(** Position and price of [bid ? overflow.back() : overflow.front()]. *)
Definition overflowEdge (s : LadderSide) : option (nat * Z) :=
  let pos := if bid s then (length (overflow s) - 1)%nat else 0%nat in
  match overflow s !! pos with Some (p, _) => Some (pos, p) | None => None end.

(** [nullptr], or the level with the price written to [priceOut]. *)
Definition bestLevel (s : LadderSide) : option (LevelRef * Z) :=
  let ladderEmpty := bestSlot s =? INVALID_INDEX in
  match overflowEdge s with
  | None =>
      if ladderEmpty then None
      else Some (InLadder (bestSlot s), slotToPrice s (bestSlot s))
  | Some (pos, edge) =>
      if ladderEmpty then Some (InOverflow pos, edge) else
      let ladderPrice := slotToPrice s (bestSlot s) in
      let ladderWins := if bid s then edge <=? ladderPrice else ladderPrice <=? edge in
      if ladderWins then Some (InLadder (bestSlot s), ladderPrice)
      else Some (InOverflow pos, edge)
  end.

Definition removeEmptyBest (p : Z) (s : LadderSide) : result LadderSide :=
  let slot := priceToSlot s p in
  if negb (slot =? INVALID_INDEX) then
    if slot =? bestSlot s then advanceBest s else Ok s
  else
    let it := overflowLowerBound s p in
    if negb (overflowMiss s it p) then Ok (overflowErase it s) else Ok s.

End LadderSide.

(** ** FIFO chains *)

(** The level's chain, from [head] to [tail], is [l]. *)
Definition level_rep (ns : vec PoolNode) (lvl : Level) (l : list Z) : Prop :=
  dseg ns INVALID_INDEX (lvl_head lvl) (lvl_tail lvl) INVALID_INDEX l.

Section chains.
Implicit Types (ns : vec PoolNode) (lvl : Level) (l : list Z) (pool : OrderPool).

Lemma level_rep_new ns : level_rep ns Level_new [].
Proof. done. Qed.

Lemma index_valid ns i : pool_fits ns -> 0 <= i < vlen ns -> (i =? INVALID_INDEX) = false.
Proof. unfold pool_fits, INVALID_INDEX, UINT32_MAX; intros; lia. Qed.

Lemma level_rep_head ns lvl l :
  pool_fits ns -> level_rep ns lvl l ->
  (lvl_head lvl =? INVALID_INDEX) = bool_decide (l = []).
Proof.
  intros Hf; destruct l as [|i l].
  - intros [-> _]; by rewrite Z.eqb_refl.
  - intros (-> & Hi & _); erewrite index_valid by done; by rewrite bool_decide_eq_false_2.
Qed.

Lemma level_rep_tail ns lvl l :
  pool_fits ns -> level_rep ns lvl l ->
  (lvl_tail lvl =? INVALID_INDEX) = bool_decide (l = []).
Proof.
  intros Hf; destruct l as [|i l _] using rev_ind.
  - intros [_ <-]; by rewrite Z.eqb_refl.
  - intros (-> & Hi & _)%dseg_snoc; erewrite index_valid by done.
    case_bool_decide as H; [by destruct l | done].
Qed.

Lemma level_rep_agree X ns ns' lvl l :
  agree_off X ns ns' -> (forall i, i ∈ l -> i ∉ X) ->
  level_rep ns lvl l -> level_rep ns' lvl l.
Proof. apply dseg_agree. Qed.

(** Appending at the tail keeps arrival order. *)
Lemma linkAtTail_spec pool lvl l i :
  pool_fits (nodes pool) -> level_rep (nodes pool) lvl l ->
  NoDup l -> i ∉ l -> 0 <= i < vlen (nodes pool) ->
  exists ns' lvl',
    LadderSide.linkAtTail pool lvl i = Ok (mkPool ns' (freeHead pool), lvl') /\
    level_rep ns' lvl' (l ++ [i]) /\ relinked (i :: l) (nodes pool) ns'.
Proof.
  intros Hf Hl Hnd Hi Hr; unfold LadderSide.linkAtTail.
  do 2 (rewrite modify_ok by done; simpl).
  rewrite vupd_vupd, vnth_vupd_eq.
  set (n1 := set_next _ _); set (ns1 := vupd (nodes pool) i n1).
  assert (Hag : relinked [i] (nodes pool) ns1).
  { split; [done | |]; intros j; unfold ns1.
    - rewrite vnth_vupd; case_decide; by subst.
    - intros Hj; rewrite vnth_vupd_ne; [done | set_solver]. }
  assert (Hn1 : vnth ns1 i = n1) by apply vnth_vupd_eq.
  erewrite level_rep_tail by done. case_bool_decide as He; simpl.
  - subst l. destruct Hl as [_ Ht]. do 2 eexists; split; [done|]; split; [|done].
    unfold level_rep; simpl. by rewrite Hn1.
  - destruct l as [|a l _] using rev_ind; [done|].
    pose proof Hl as (Ht & Ha & _)%dseg_snoc. rewrite Ht in *.
    apply NoDup_app in Hnd as (Hnd & Hal & _).
    rewrite modify_ok by (simpl; lia); simpl. do 2 eexists; split; [done|]. split.
    + unfold level_rep; simpl. rewrite dseg_snoc. split; [done|]; split; [simpl; lia|].
      rewrite vnth_vupd_ne by set_solver. rewrite Hn1; split; [done|]. simpl; rewrite Ht.
      eapply dseg_set_last; [set_solver|].
      eapply dseg_agree; [by apply relinked_agree | set_solver | unfold level_rep in Hl; by rewrite Ht in Hl].
    + eapply relinked_trans; [eapply relinked_weaken; [|done]; set_solver|].
      apply relinked_next; set_solver.
Qed.

(** Unlinking closes the chain around the node. *)
Lemma unlink_spec pool lvl l1 l2 i :
  pool_fits (nodes pool) -> level_rep (nodes pool) lvl (l1 ++ i :: l2) ->
  NoDup (l1 ++ i :: l2) ->
  exists ns' lvl',
    LadderSide.unlink pool lvl i = Ok (mkPool ns' (freeHead pool), lvl') /\
    level_rep ns' lvl' (l1 ++ l2) /\ relinked (l1 ++ l2) (nodes pool) ns'.
Proof.
  intros Hf Hl Hnd; pose proof (NoDup_app_3 _ _ _ Hnd) as (Hi1 & Hi2 & Hnd').
  unfold level_rep in Hl; pose proof Hl as (j & jn & H1 & -> & Hi & Hp & H2)%dseg_app.
  destruct pool as [ns fh], lvl as [h t]; simpl in *.
  unfold LadderSide.unlink, OrderPool.get; simpl. rewrite vget_ok by done; simpl.
  rewrite Hp.
  (* the first write: the predecessor, or the head *)
  assert (exists ns1 h1,
    (if negb (j =? INVALID_INDEX) then
       OrderPool.modify (set_next (next (vnth ns i))) j (mkPool ns fh) ≫=
       λ pool, Ok (pool, mkLevel h t)
     else Ok (mkPool ns fh, mkLevel (next (vnth ns i)) t)) =
      Ok (mkPool ns1 fh, mkLevel h1 t) /\
    dseg ns1 INVALID_INDEX h1 j (next (vnth ns i)) l1 /\ relinked l1 ns ns1)
    as (ns1 & h1 & -> & H1' & R1).
  { destruct l1 as [|a l1 _] using rev_ind.
    - destruct H1 as [-> <-]; rewrite Z.eqb_refl; simpl. eauto 10 with pool.
    - pose proof H1 as (-> & Ha & _)%dseg_snoc.
      erewrite index_valid by done; simpl. rewrite modify_ok by done; simpl.
      do 2 eexists; split; [done|]; split; [|apply relinked_next; set_solver].
      eapply dseg_set_last; [|done].
      apply NoDup_app in Hnd as ((_ & Hx & _)%NoDup_app & _); set_solver. }
  simpl. rewrite vget_ok by (rewrite (rl_len _ _ _ R1); done); simpl.
  rewrite (rl_off _ _ _ R1 i) by done. rewrite Hp.
  assert (H2' : dseg ns1 i (next (vnth ns i)) t INVALID_INDEX l2).
  { eapply dseg_agree; [by apply relinked_agree | | done].
    apply NoDup_app in Hnd'; set_solver. }
  destruct l2 as [|b l2]; simpl in H2'.
  - destruct H2' as [En Et]; rewrite En in *; rewrite Z.eqb_refl; simpl.
    do 2 eexists; split; [done|]. rewrite app_nil_r. split; [exact H1' | exact R1].
  - pose proof H2' as (En & Hb & _); rewrite En in *. erewrite index_valid; [simpl | | done].
    2: { unfold pool_fits; rewrite (rl_len _ _ _ R1); exact Hf. }
    rewrite modify_ok by done; simpl. do 2 eexists; split; [done|]. split.
    + apply dseg_app; exists j, b; split.
      * eapply dseg_agree; [apply (agree_off_vupd [b]); set_solver | | done].
        apply NoDup_app in Hnd'; set_solver.
      * eapply dseg_set_first; [|done].
        apply NoDup_app in Hnd' as (_ & _ & []%NoDup_cons); done.
    + eapply relinked_trans; [eapply relinked_weaken; [|done]; set_solver|].
      apply relinked_prev; set_solver.
Qed.
End chains.

(** ** Where a price lives *)

(** [better isBid p q]: [p] has priority over [q]; also the order on slots. *)
Definition better (isBid : bool) (p q : Z) : bool := if isBid then q <? p else p <? q.

(** The overflow vector is sorted ascending by price, without repetition. *)
Definition overflow_sorted (o : list (Z * Level)) : Prop := StronglySorted Z.lt (o.*1).

Section lower_bound.
Implicit Types (o : list (Z * Level)).

Lemma overflow_sorted_lookup o i j e1 e2 :
  overflow_sorted o -> o !! i = Some e1 -> o !! j = Some e2 -> (i < j)%nat -> e1.1 < e2.1.
Proof.
  unfold overflow_sorted; revert i j; induction o as [|e o IH]; intros i j Hs Hi Hj Hij; [done|].
  simpl in Hs; apply StronglySorted_inv in Hs as [Hs Hall].
  destruct j as [|j]; [lia|]; destruct i as [|i]; simplify_eq/=.
  - rewrite Forall_fmap, Forall_lookup in Hall. eapply (Hall j); eauto.
  - eapply (IH i j); eauto; lia.
Qed.

(** The halving loop ends at the partition point. *)
Lemma lower_bound_loop_spec fuel o p first len :
  overflow_sorted o -> (len < fuel)%nat -> (first + len <= length o)%nat ->
  (forall i e, (i < first)%nat -> o !! i = Some e -> e.1 < p) ->
  (forall i e, (first + len <= i)%nat -> o !! i = Some e -> p <= e.1) ->
  let k := LadderSide.lower_bound_loop fuel o p first len in
  (k <= length o)%nat /\
  (forall i e, (i < k)%nat -> o !! i = Some e -> e.1 < p) /\
  (forall i e, (k <= i)%nat -> o !! i = Some e -> p <= e.1).
Proof.
  intros Hs; revert first len; induction fuel as [|fuel IH]; [lia|].
  intros first len Hfuel Hlen Hlo Hhi; simpl.
  case_match eqn:E; [apply Nat.eqb_eq in E; subst len; rewrite Nat.add_0_r in *; auto|].
  apply Nat.eqb_neq in E. pose proof (Nat.lt_div2 len ltac:(lia)) as Hhalf.
  set (half := Nat.div2 len) in *; clearbody half.
  destruct (o !! (first + half)%nat) as [[q lvl]|] eqn:Hmid.
  2: { apply lookup_ge_None in Hmid; lia. }
  case_match eqn:Eq.
  - apply IH; [lia | lia | |].
    + intros i e Hi He. assert (i = first + half \/ i < first + half)%nat as [->|Hlt] by lia.
      * simplify_eq/=; lia.
      * pose proof (overflow_sorted_lookup _ _ _ _ _ Hs He Hmid Hlt); simpl in *; lia.
    + intros i e Hi He; apply (Hhi i e); [lia | done].
  - apply IH; [lia | lia | done |].
    intros i e Hi He. destruct (decide (i = first + half)%nat) as [->|Hne].
    + simplify_eq/=; lia.
    + pose proof (overflow_sorted_lookup _ _ _ _ _ Hs Hmid He ltac:(lia)); simpl in *; lia.
Qed.

(** The overflow vector seen from a price: the entries below it, its own
    entry if it has one, the entries above. *)
Lemma overflow_view s p :
  overflow_sorted (overflow s) ->
  exists o1 o2,
    Forall (fun e => e.1 < p) o1 /\ Forall (fun e => p < e.1) o2 /\
    LadderSide.overflowLowerBound s p = length o1 /\
    ((overflow s = o1 ++ o2 /\ LadderSide.overflowMiss s (length o1) p = true) \/
     (exists lvl, overflow s = o1 ++ (p, lvl) :: o2 /\
                  LadderSide.overflowMiss s (length o1) p = false)).
Proof.
  intros Hs. unfold LadderSide.overflowLowerBound, LadderSide.overflowMiss.
  set (o := overflow s) in *.
  destruct (lower_bound_loop_spec (S (length o)) o p 0 (length o) Hs) as (Hk & Hlo & Hhi); [lia|lia|lia| |].
  { intros i e Hi He; apply lookup_lt_Some in He; lia. }
  set (k := LadderSide.lower_bound_loop _ _ _ _ _) in *.
  assert (Hlen : length (take k o) = k) by (rewrite length_take; lia).
  assert (H1 : Forall (fun e : Z * Level => e.1 < p) (take k o)).
  { apply Forall_lookup; intros i e [He Hi]%lookup_take_Some; eauto. }
  assert (H2 : forall i e, (k < i)%nat -> o !! i = Some e -> p < e.1).
  { intros i e Hi He. destruct (o !! k) as [e'|] eqn:Hek.
    - pose proof (Hhi k e' ltac:(lia) Hek).
      pose proof (overflow_sorted_lookup _ _ _ _ _ Hs Hek He Hi); lia.
    - apply lookup_ge_None in Hek; apply lookup_lt_Some in He; lia. }
  destruct (o !! k) as [[q lvl]|] eqn:Hek.
  - destruct (Z.eq_dec q p) as [->|Hne].
    + exists (take k o), (drop (S k) o); rewrite Hlen, Hek.
      split; [done|]; split; [|split; [done|right; exists lvl; rewrite take_drop_middle by done]].
      * apply Forall_lookup; intros i e; rewrite lookup_drop; intros He; eapply H2; [|done]; lia.
      * by rewrite Z.eqb_refl.
    + exists (take k o), (drop k o); rewrite Hlen, Hek.
      split; [done|]; split; [|split; [done|left; rewrite take_drop]].
      * apply Forall_lookup; intros i e; rewrite lookup_drop; intros He.
        destruct i; [rewrite Nat.add_0_r in He; rewrite Hek in He; injection He as <-; simpl|eapply H2; [|done]; lia].
        pose proof (Hhi k (q, lvl) ltac:(lia) Hek); simpl in *; lia.
      * by rewrite (proj2 (Z.eqb_neq q p) Hne).
  - exists (take k o), (drop k o); rewrite Hlen, Hek.
    split; [done|]; split; [|split; [done|left; by rewrite take_drop]].
    apply lookup_ge_None in Hek; rewrite drop_ge by lia; constructor.
Qed.
End lower_bound.

(** ** The window *)

Ltac ladder_consts :=
  unfold INVALID_INDEX, UINT32_MAX, WINDOW, TICK in *.

Definition in_window (k : Z) : Prop := 0 <= k < WINDOW.
Definition is_price (p : Z) : Prop := 0 <= p < 2 ^ 32.

(** A price either has no slot, or is the price of exactly one slot. *)
Lemma slot_view s p :
  anchored s = true -> is_price (base s) -> is_price p ->
  (LadderSide.priceToSlot s p = INVALID_INDEX /\
   (forall k, in_window k -> p <> base s + TICK * k)) \/
  (exists k, in_window k /\ LadderSide.priceToSlot s p = k /\ p = base s + TICK * k).
Proof.
  unfold is_price, in_window, LadderSide.priceToSlot; intros -> Hb Hp; simpl.
  case_match eqn:E1; [left; split; [done|]; ladder_consts; lia|].
  rewrite u64_small by lia. ladder_consts.
  pose proof (Z.div_mod (p - base s) 100 ltac:(lia)) as Hdm.
  case_match eqn:E2; [left; split; [done|]; intros k Hk ->|].
  { replace (base s + 100 * k - base s) with (k * 100) in E2 by lia.
    rewrite Z.mod_mul in E2 by lia; done. }
  assert ((p - base s) mod 100 = 0) by lia.
  case_match eqn:E3; [left; split; [done|]; lia|].
  right; exists ((p - base s) / 100). rewrite u32_small by lia. split; [lia|]; split; [done | lia].
Qed.

Lemma slotToPrice_ok s k :
  is_price (base s) -> in_window k -> is_price (base s + TICK * k) ->
  LadderSide.slotToPrice s k = base s + TICK * k.
Proof.
  unfold is_price, in_window, LadderSide.slotToPrice; ladder_consts; intros.
  rewrite (u32_small (k * 100)), u32_small by lia; lia.
Qed.

Lemma slot_valid k : in_window k -> (k =? INVALID_INDEX) = false.
Proof. unfold in_window; ladder_consts; lia. Qed.

(** The scan of [advanceBest], from a slot above which everything is empty,
    always ends, at the best populated slot if there is one. *)
Lemma advanceBest_loop_spec fuel (isBid : bool) l (b : Z) :
  vlen l = WINDOW -> in_window b ->
  (if isBid then b else WINDOW - 1 - b) < Z.of_nat fuel ->
  (forall k, in_window k -> better isBid k b = true -> lvl_head (vnth l k) = INVALID_INDEX) ->
  exists r, LadderSide.advanceBest_loop fuel isBid l b = Ok r /\
    ((r = INVALID_INDEX /\ forall k, in_window k -> lvl_head (vnth l k) = INVALID_INDEX) \/
     (in_window r /\ lvl_head (vnth l r) <> INVALID_INDEX /\
      forall k, in_window k -> better isBid k r = true -> lvl_head (vnth l k) = INVALID_INDEX)).
Proof.
  intros Hlen; revert b; induction fuel as [|fuel IH]; intros b Hb Hfuel Hbetter.
  { unfold in_window in Hb; destruct isBid; lia. }
  simpl. rewrite (slot_valid b Hb), vget_ok by (rewrite Hlen; done); simpl.
  destruct (lvl_head (vnth l b) =? INVALID_INDEX) eqn:Eb; simpl; [|exists b; split; [done|right; split_and!; auto; lia]].
  unfold in_window, better, WINDOW in *.
  assert (Hstep : forall k, 0 <= k < 2048 -> (if isBid then b - 1 <? k else k <? b + 1) = true ->
                  lvl_head (vnth l k) = INVALID_INDEX).
  { intros k Hk Hkb; destruct (Z.eq_dec k b) as [->|]; [lia|]. apply Hbetter; destruct isBid; lia. }
  destruct isBid.
  - destruct (b =? 0) eqn:E0; [exists INVALID_INDEX; split; [done|left; split; [done|]; intros; apply Hstep; lia]|].
    rewrite u32_small by lia. apply IH; [lia | lia | done].
  - rewrite u32_small by lia.
    destruct (2048 <=? b + 1) eqn:E0; [exists INVALID_INDEX; split; [done|left; split; [done|]; intros; apply Hstep; lia]|].
    apply IH; [lia | lia | done].
Qed.

(** ** The representation invariant *)

(** What a side holds: at each price, the FIFO queue of pool indices. *)
Abbreviation levels := (Z -> list Z).

Definition lupd (qa : levels) (p : Z) (l : list Z) : levels :=
  fun q => if q =? p then l else qa q.

Lemma lupd_eq qa p l : lupd qa p l p = l.
Proof. unfold lupd; by rewrite Z.eqb_refl. Qed.

Lemma lupd_ne qa p q l : q <> p -> lupd qa p l q = qa q.
Proof. intros; unfold lupd; by rewrite (proj2 (Z.eqb_neq q p)). Qed.

(** The cached slot is the best populated one of the window. *)
Definition best_ok (isBid : bool) (b bs : Z) (qa : levels) : Prop :=
  (bs = INVALID_INDEX /\ forall k, in_window k -> qa (b + TICK * k) = []) \/
  (in_window bs /\ qa (b + TICK * bs) <> [] /\
   forall k, in_window k -> better isBid k bs = true -> qa (b + TICK * k) = []).

Record ladder_rep (ns : vec PoolNode) (s : LadderSide) (qa : levels) : Prop := {
  lr_price : forall p, qa p <> [] -> is_price p;
  lr_nodup : forall p, NoDup (qa p);
  lr_disj : forall p q i, i ∈ qa p -> i ∈ qa q -> p = q;
  lr_fresh : anchored s = false -> overflow s = [];
  lr_base : is_price (base s);
  lr_len : anchored s = true -> vlen (ladder s) = WINDOW;
  lr_slots : anchored s = true -> forall k, in_window k ->
    level_rep ns (vnth (ladder s) k) (qa (base s + TICK * k));
  lr_best : if anchored s then best_ok (bid s) (base s) (bestSlot s) qa
            else bestSlot s = INVALID_INDEX;
  lr_sorted : overflow_sorted (overflow s);
  lr_over : Forall (fun e => LadderSide.priceToSlot s e.1 = INVALID_INDEX /\
                             qa e.1 <> [] /\ level_rep ns e.2 (qa e.1)) (overflow s);
  lr_cover : forall p, LadderSide.priceToSlot s p = INVALID_INDEX -> qa p <> [] ->
    p ∈ (overflow s).*1
}.

(** Equal queues at every price are the same contents. *)
#[export] Instance ladder_rep_proper ns s :
  Proper (pointwise_relation Z eq ==> iff) (ladder_rep ns s).
Proof.
  assert (forall qa qb : levels, (forall p, qa p = qb p) -> ladder_rep ns s qa -> ladder_rep ns s qb) as H.
  { intros qa qb E [Hp Hn Hd Hf Hb Hl Hs Hbest Hsort Ho Hc]; split; try done.
    - intros p; rewrite <-E; auto.
    - intros p; rewrite <-E; auto.
    - intros p q i; rewrite <-!E; eauto.
    - intros Ha k Hk; rewrite <-E; auto.
    - destruct (anchored s); [|done]. destruct Hbest as [[? Hbest]|(? & ? & Hbest)].
      + left; split; [done|]; intros; rewrite <-E; auto.
      + right; rewrite <-E; split_and!; auto. intros; rewrite <-E; auto.
    - eapply Forall_impl; [exact Ho|]; intros e; simpl; by rewrite <-!E.
    - intros p; rewrite <-E; auto. }
  intros qa qb E; split; apply H; intros p; [apply E | symmetry; apply E].
Qed.

(** ** Changing one level *)

Section update.
Context (ns ns' : vec PoolNode) (s : LadderSide) (qa : levels) (p : Z) (l' : list Z) (X : list Z).
Hypothesis Hrep : ladder_rep ns s qa.
Hypothesis Hanch : anchored s = true.
Hypothesis Hprice : is_price p.
(** The nodes that changed belong to no other level, nor do those of [l']. *)
Hypothesis Hagree : agree_off X ns ns'.
Hypothesis Hframe : forall q i, q <> p -> i ∈ qa q -> i ∉ X.
Hypothesis Hnodup : NoDup l'.
Hypothesis Hother : forall q i, q <> p -> i ∈ l' -> i ∉ qa q.

Local Lemma lupd_price q : lupd qa p l' q <> [] -> is_price q.
Proof using Hrep Hprice.
  destruct (Z.eq_dec q p) as [->|Hne]; [done|]. rewrite lupd_ne by done. apply (lr_price _ _ _ Hrep).
Qed.

Local Lemma lupd_nodup q : NoDup (lupd qa p l' q).
Proof using Hrep Hnodup.
  destruct (Z.eq_dec q p) as [->|Hne]; [by rewrite lupd_eq|].
  rewrite lupd_ne by done. apply (lr_nodup _ _ _ Hrep).
Qed.

Local Lemma lupd_disj q1 q2 i : i ∈ lupd qa p l' q1 -> i ∈ lupd qa p l' q2 -> q1 = q2.
Proof using Hrep Hother.
  destruct (Z.eq_dec q1 p) as [->|H1], (Z.eq_dec q2 p) as [->|H2];
    rewrite ?lupd_eq, ?lupd_ne by done; intros; [done | | |].
  - exfalso; eapply (Hother q2); eauto.
  - exfalso; eapply (Hother q1); eauto.
  - by eapply (lr_disj _ _ _ Hrep).
Qed.

Local Lemma lupd_level lvl q :
  q <> p -> level_rep ns lvl (qa q) -> level_rep ns' lvl (lupd qa p l' q).
Proof using Hagree Hframe.
  intros Hq Hl; rewrite lupd_ne by done. eapply level_rep_agree; eauto.
Qed.

(** In the window: the slot's level is replaced. *)
Lemma rep_store_slot k lvl' bs :
  in_window k -> p = base s + TICK * k -> level_rep ns' lvl' l' ->
  best_ok (bid s) (base s) bs (lupd qa p l') ->
  ladder_rep ns' (LadderSide.set_bestSlot bs
                    (LadderSide.set_ladder (vupd (ladder s) k lvl') s)) (lupd qa p l').
Proof using Hrep Hanch Hprice Hagree Hframe Hnodup Hother.
  intros Hk Hp Hl' Hbest.
  pose proof (lr_over _ _ _ Hrep) as Ho.
  assert (Hps : forall q, LadderSide.priceToSlot (LadderSide.set_bestSlot bs
            (LadderSide.set_ladder (vupd (ladder s) k lvl') s)) q = LadderSide.priceToSlot s q) by done.
  assert (Hslot : LadderSide.priceToSlot s p <> INVALID_INDEX).
  { destruct (slot_view s p Hanch (lr_base _ _ _ Hrep) Hprice) as [[_ Hv]|(j & Hj & -> & _)].
    - by destruct (Hv k Hk).
    - pose proof (slot_valid j Hj); lia. }
  split; simpl.
  - apply lupd_price.
  - apply lupd_nodup.
  - apply lupd_disj.
  - eapply lr_fresh; done.
  - by eapply lr_base.
  - by eapply lr_len.
  - intros _ j Hj; rewrite vnth_vupd; case_decide as Hjk.
    + subst j; rewrite <-Hp, lupd_eq; done.
    + apply lupd_level; [ladder_consts; lia | by eapply lr_slots].
  - by rewrite Hanch.
  - by eapply lr_sorted.
  - eapply Forall_impl; [exact Ho|]. intros e (Hs & Hne & Hl); rewrite Hps; split; [done|].
    assert (e.1 <> p) by (intros <-; done). split; [by rewrite lupd_ne | by apply lupd_level].
  - intros q; rewrite Hps; intros Hq. rewrite lupd_ne by (intros ->; done). by eapply lr_cover.
Qed.

(** In the overflow vector: the entry of [p] is replaced, added or erased. *)
Lemma rep_store_overflow o1 mid o2 mid' :
  LadderSide.priceToSlot s p = INVALID_INDEX ->
  overflow s = o1 ++ mid ++ o2 -> (forall e, e ∈ mid -> e.1 = p) ->
  Forall (fun e => e.1 < p) o1 -> Forall (fun e => p < e.1) o2 ->
  (l' = [] /\ mid' = []) \/ (l' <> [] /\ exists lvl', mid' = [(p, lvl')] /\ level_rep ns' lvl' l') ->
  ladder_rep ns' (LadderSide.set_overflow (o1 ++ mid' ++ o2) s) (lupd qa p l').
Proof using Hrep Hanch Hprice Hagree Hframe Hnodup Hother.
  intros Hslot Ho Hmid H1 H2 Hcase.
  assert (Hps : forall q, LadderSide.priceToSlot (LadderSide.set_overflow (o1 ++ mid' ++ o2) s) q
            = LadderSide.priceToSlot s q) by done.
  assert (Hnw : forall k, in_window k -> base s + TICK * k <> p).
  { destruct (slot_view s p Hanch (lr_base _ _ _ Hrep) Hprice) as [[_ Hv]|(j & Hj & E & _)].
    - intros k Hk E; by apply (Hv k).
    - pose proof (slot_valid j Hj); rewrite Hslot in E; lia. }
  pose proof (lr_over _ _ _ Hrep) as Hov; rewrite Ho, !Forall_app in Hov.
  destruct Hov as (Hov1 & _ & Hov2).
  pose proof (lr_sorted _ _ _ Hrep) as Hsort; unfold overflow_sorted in Hsort.
  rewrite Ho, !fmap_app in Hsort.
  split; simpl.
  - apply lupd_price.
  - apply lupd_nodup.
  - apply lupd_disj.
  - congruence.
  - by eapply lr_base.
  - by eapply lr_len.
  - intros _ k Hk; apply lupd_level; [by apply Hnw | by eapply lr_slots].
  - rewrite Hanch; pose proof (lr_best _ _ _ Hrep) as Hb; rewrite Hanch in Hb.
    destruct Hb as [[? Hb]|(Hw & Hne & Hb)]; [left | right].
    + split; [done|]; intros k Hk; rewrite lupd_ne by (by apply Hnw); auto.
    + rewrite lupd_ne by (by apply Hnw). split_and!; auto.
      intros k Hk Hkb; rewrite lupd_ne by (by apply Hnw); auto.
  - unfold overflow_sorted; rewrite !fmap_app.
    apply StronglySorted_app_2; [|by apply StronglySorted_app_1_l in Hsort|].
    + intros x y (e & -> & He)%list_elem_of_fmap. rewrite Forall_forall in H1, H2.
      specialize (H1 _ He). rewrite <-fmap_app; intros (e' & -> & [He'|He']%elem_of_app)%list_elem_of_fmap.
      * destruct Hcase as [[_ ->]|(_ & lvl' & -> & _)]; [set_solver|].
        apply list_elem_of_singleton in He' as ->; simpl; lia.
      * specialize (H2 _ He'); lia.
    + do 2 apply StronglySorted_app_1_r in Hsort.
      destruct Hcase as [[_ ->]|(_ & lvl' & -> & _)]; simpl; [done|].
      apply StronglySorted_cons; split; [|done].
      apply Forall_fmap; eapply Forall_impl; [exact H2|]; done.
  - rewrite !Forall_app; split_and!.
    + apply Forall_forall; intros e He; rewrite Forall_forall in Hov1, H1.
      destruct (Hov1 e He) as (? & ? & ?); specialize (H1 e He).
      rewrite Hps; split; [done|]; split; [rewrite lupd_ne by lia; done | apply lupd_level; [lia | done]].
    + destruct Hcase as [[_ ->]|(Hl & lvl' & -> & Hlvl)]; [by constructor|].
      apply Forall_singleton; simpl; rewrite lupd_eq; auto.
    + apply Forall_forall; intros e He; rewrite Forall_forall in Hov2, H2.
      destruct (Hov2 e He) as (? & ? & ?); specialize (H2 e He).
      rewrite Hps; split; [done|]; split; [rewrite lupd_ne by lia; done | apply lupd_level; [lia | done]].
  - intros q; rewrite Hps; intros Hq Hne; rewrite !fmap_app, !elem_of_app.
    destruct (Z.eq_dec q p) as [->|Hqp].
    + rewrite lupd_eq in Hne; destruct Hcase as [[-> _]|(_ & lvl' & -> & _)]; [done|]. set_solver.
    + rewrite lupd_ne in Hne by done. pose proof (lr_cover _ _ _ Hrep q Hq Hne) as Hin.
      rewrite Ho, !fmap_app, !elem_of_app in Hin. destruct Hin as [?|[Hin|?]]; auto.
      apply list_elem_of_fmap in Hin as (e & -> & He); by destruct Hqp; apply Hmid.
Qed.
End update.

(** ** The cached best slot *)

Section best.
Context (isBid : bool) (b bs : Z) (qa : levels).
Hypothesis Hbest : best_ok isBid b bs qa.

Local Lemma slot_price_inj k j : b + TICK * k = b + TICK * j -> k = j.
Proof. ladder_consts; lia. Qed.

Lemma best_ok_add k l' :
  in_window k -> l' <> [] ->
  best_ok isBid b (if (bs =? INVALID_INDEX) || better isBid k bs then k else bs)
    (lupd qa (b + TICK * k) l').
Proof using Hbest.
  intros Hk Hl; right. destruct Hbest as [[-> He]|(Hw & Hne & He)].
  - rewrite Z.eqb_refl; simpl. split; [done|]; split; [by rewrite lupd_eq|].
    intros j Hj Hjk; rewrite lupd_ne; [auto|]. intros ->%slot_price_inj; unfold better in *; destruct isBid; lia.
  - rewrite (slot_valid bs Hw); simpl. destruct (better isBid k bs) eqn:E.
    + split; [done|]; split; [by rewrite lupd_eq|]. intros j Hj Hjk.
      rewrite lupd_ne; [apply He; [done|]|]; [|intros ->%slot_price_inj]; unfold better in *; destruct isBid; lia.
    + split; [done|]; split.
      * destruct (Z.eq_dec bs k) as [->|]; [by rewrite lupd_eq|].
        by rewrite lupd_ne by (intros ?%slot_price_inj; done).
      * intros j Hj Hjb; rewrite lupd_ne; [auto|]. intros ->%slot_price_inj; congruence.
Qed.

Lemma best_ok_keep k l' :
  in_window k -> qa (b + TICK * k) <> [] -> l' <> [] -> best_ok isBid b bs (lupd qa (b + TICK * k) l').
Proof using Hbest.
  intros Hk Hq Hl. pose proof (best_ok_add k l' Hk Hl) as H.
  destruct Hbest as [[-> He]|(Hw & Hne & He)]; [by destruct Hq; auto|].
  rewrite (slot_valid bs Hw) in H; simpl in H. destruct (better isBid k bs) eqn:E; [|done].
  by destruct Hq; auto.
Qed.

Lemma best_ok_other k :
  in_window k -> k <> bs -> best_ok isBid b bs (lupd qa (b + TICK * k) []).
Proof using Hbest.
  intros Hk Hne'. assert (forall j, qa (b + TICK * j) = [] -> lupd qa (b + TICK * k) [] (b + TICK * j) = []) as Hl.
  { intros j Hj; unfold lupd; by case_match. }
  destruct Hbest as [[-> He]|(Hw & Hne & He)]; [left|right]; [split; auto|].
  rewrite lupd_ne by (intros ?%slot_price_inj; congruence). split_and!; auto.
Qed.
End best.

(** [advanceBest] restores the cached slot after the best level emptied. *)
Lemma advanceBest_spec ns s qa k :
  pool_fits ns -> in_window k -> bestSlot s = k -> vlen (ladder s) = WINDOW ->
  (forall j, in_window j -> level_rep ns (vnth (ladder s) j) (qa (base s + TICK * j))) ->
  (forall j, in_window j -> better (bid s) j k = true -> qa (base s + TICK * j) = []) ->
  exists r, LadderSide.advanceBest s = Ok (LadderSide.set_bestSlot r s) /\
            best_ok (bid s) (base s) r qa.
Proof.
  intros Hf Hk Hbs Hlen Hl He; unfold LadderSide.advanceBest; rewrite Hbs.
  assert (Hiff : forall j, in_window j ->
    lvl_head (vnth (ladder s) j) = INVALID_INDEX <-> qa (base s + TICK * j) = []).
  { intros j Hj; pose proof (level_rep_head _ _ _ Hf (Hl j Hj)) as E.
    rewrite <-Z.eqb_eq, E; by rewrite bool_decide_eq_true. }
  destruct (advanceBest_loop_spec (S (Z.to_nat WINDOW)) (bid s) (ladder s) k) as (r & -> & Hr);
    [done | done | unfold in_window, WINDOW in *; destruct (bid s); lia | |].
  { intros j Hj Hb; apply Hiff; auto. }
  simpl; exists r; split; [done|]. destruct Hr as [[-> Hr]|(Hw & Hne & Hr)]; [left|right].
  - split; [done|]; intros j Hj; apply Hiff; auto.
  - split; [done|]; split; [by rewrite <-Hiff | intros j Hj Hb; apply Hiff; auto].
Qed.

(** ** References to levels *)

(** [ref] points at the level of price [p]. *)
Inductive ref_at (s : LadderSide) (p : Z) : LevelRef -> Prop :=
| ref_ladder k : anchored s = true -> in_window k -> p = base s + TICK * k ->
    LadderSide.priceToSlot s p = k -> ref_at s p (InLadder k)
| ref_overflow o1 lvl o2 : anchored s = true -> LadderSide.priceToSlot s p = INVALID_INDEX ->
    overflow s = o1 ++ (p, lvl) :: o2 -> ref_at s p (InOverflow (length o1)).

Lemma overflow_sorted_split o1 p lvl o2 :
  overflow_sorted (o1 ++ (p, lvl) :: o2) ->
  Forall (fun e => e.1 < p) o1 /\ Forall (fun e => p < e.1) o2.
Proof.
  unfold overflow_sorted; rewrite fmap_app; simpl; intros (H1 & _ & H2)%StronglySorted_app.
  apply StronglySorted_cons in H2 as [H2 _]; rewrite Forall_fmap in H2; split; [|done].
  apply Forall_forall; intros e He; apply H1; [by apply list_elem_of_fmap_2 | set_solver].
Qed.

Lemma overflow_hit s o1 p lvl o2 :
  overflow_sorted (overflow s) -> overflow s = o1 ++ (p, lvl) :: o2 ->
  LadderSide.overflowLowerBound s p = length o1 /\
  LadderSide.overflowMiss s (length o1) p = false.
Proof.
  intros Hs Ho; destruct (overflow_view s p Hs) as (a1 & a2 & Ha1 & Ha2 & -> & Hc).
  rewrite Forall_forall in Ha1, Ha2. rewrite Ho in Hs, Hc.
  destruct (overflow_sorted_split _ _ _ _ Hs) as [H1 _]; rewrite Forall_forall in H1.
  destruct Hc as [[E _]|(lvl' & E & Hm)].
  - assert ((p, lvl) ∈ a1 ++ a2) as [Hin|Hin]%elem_of_app by (rewrite <-E; set_solver).
    + specialize (Ha1 _ Hin); simpl in *; lia.
    + specialize (Ha2 _ Hin); simpl in *; lia.
  - apply not_elem_of_app_cons_inv_l in E as (-> & _ & _); [done | |].
    + intros Hin; specialize (Ha1 _ Hin); simpl in *; lia.
    + intros Hin; specialize (H1 _ Hin); simpl in *; lia.
Qed.

Section refs.
Context (ns : vec PoolNode) (s : LadderSide) (qa : levels) (p : Z) (ref : LevelRef).
Hypothesis Hrep : ladder_rep ns s qa.
Hypothesis Href : ref_at s p ref.

Lemma deref_spec :
  exists lvl, LadderSide.deref s ref = Ok lvl /\ level_rep ns lvl (qa p).
Proof using Hrep Href.
  destruct Href as [k Ha Hk -> _ | o1 lvl o2 Ha Hs Ho]; simpl.
  - rewrite vget_ok by (rewrite (lr_len _ _ _ Hrep Ha); done). eexists; split; [done|].
    by eapply lr_slots.
  - rewrite Ho, list_lookup_middle by done. eexists; split; [done|].
    pose proof (lr_over _ _ _ Hrep) as H; rewrite Ho, Forall_app, Forall_cons in H.
    by destruct H as (_ & (_ & _ & ?) & _).
Qed.

(** Writing through a reference, and writing again. *)
Lemma store_spec lvl' :
  exists s', LadderSide.store s ref lvl' = Ok s' /\ LadderSide.deref s' ref = Ok lvl' /\
    ref_at s' p ref /\ bid s' = bid s /\
    (forall lvl2, LadderSide.store s' ref lvl2 = LadderSide.store s ref lvl2).
Proof using Hrep Href.
  destruct Href as [k Ha Hk Hp Hslot | o1 lvl o2 Ha Hs Ho]; simpl.
  - pose proof (lr_len _ _ _ Hrep Ha) as Hlen. unfold in_window in Hk; rewrite <-Hlen in Hk.
    rewrite vset_ok by done; simpl. eexists; split; [done|]; simpl.
    rewrite vget_ok, vnth_vupd_eq by done. split; [done|]; split; [by constructor; rewrite ?Hlen in Hk|].
    split; [done|]; intros lvl2. rewrite !vset_ok by done; simpl. unfold LadderSide.set_ladder; simpl.
    by rewrite vupd_vupd.
  - rewrite Ho, list_lookup_middle by done. eexists; split; [done|]; simpl.
    rewrite insert_app_r_alt, Nat.sub_diag by done; simpl.
    rewrite list_lookup_middle by done. split; [done|]; split; [by econstructor|]. split; [done|].
    intros lvl2; unfold LadderSide.set_overflow; simpl.
    rewrite !insert_app_r_alt, Nat.sub_diag by done; done.
Qed.

Context (ns' : vec PoolNode) (l' : list Z) (X : list Z) (lvl' : Level) (s1 : LadderSide).
Hypothesis Hlive : qa p <> [].
Hypothesis Hagree : agree_off X ns ns'.
Hypothesis Hframe : forall q i, q <> p -> i ∈ qa q -> i ∉ X.
Hypothesis Hnodup : NoDup l'.
Hypothesis Hother : forall q i, q <> p -> i ∈ l' -> i ∉ qa q.
Hypothesis Hlvl : level_rep ns' lvl' l'.
Hypothesis Hstore : LadderSide.store s ref lvl' = Ok s1.

(** Replacing a non-empty level by a non-empty level. *)
Lemma store_rep : l' <> [] -> ladder_rep ns' s1 (lupd qa p l').
Proof using All.
  intros Hl'. pose proof (lr_price _ _ _ Hrep p Hlive) as Hprice.
  destruct Href as [k Ha Hk Hp Hslot | o1 lvl o2 Ha Hs Ho]; simpl in Hstore.
  - rewrite vset_ok in Hstore by (rewrite (lr_len _ _ _ Hrep Ha); done); simplify_eq/=.
    eapply (rep_store_slot ns ns' s qa _ l' X) in Hlvl; [exact Hlvl|..]; try done; [].
    pose proof (lr_best _ _ _ Hrep) as Hb; rewrite Ha in Hb. by apply best_ok_keep.
  - rewrite Ho, list_lookup_middle in Hstore by done; simplify_eq/=.
    rewrite insert_app_r_alt, Nat.sub_diag by done; simpl.
    pose proof (lr_sorted _ _ _ Hrep) as Hsort; rewrite Ho in Hsort.
    destruct (overflow_sorted_split _ _ _ _ Hsort).
    apply (rep_store_overflow ns ns' s qa p l' X) with (mid := [(p, lvl)]) (mid' := [(p, lvl')]);
      try done; [set_solver|]. right; eauto.
Qed.

(** Draining a level: the slot is skipped or the entry erased. *)
Lemma drain_rep :
  pool_fits ns' -> l' = [] ->
  exists s', LadderSide.removeEmptyBest p s1 = Ok s' /\ bid s' = bid s /\
             ladder_rep ns' s' (lupd qa p []).
Proof using All.
  intros Hf ->. pose proof (lr_price _ _ _ Hrep p Hlive) as Hprice.
  unfold LadderSide.removeEmptyBest.
  destruct Href as [k Ha Hk Hp Hslot | o1 lvl o2 Ha Hs Ho]; simpl in Hstore.
  - rewrite vset_ok in Hstore by (rewrite (lr_len _ _ _ Hrep Ha); done); injection Hstore as <-.
    change (LadderSide.priceToSlot (LadderSide.set_ladder _ s)) with (LadderSide.priceToSlot s).
    rewrite Hslot, (slot_valid k Hk); simpl.
    assert (Hupd : forall bs, best_ok (bid s) (base s) bs (lupd qa p []) -> ladder_rep ns'
       (LadderSide.set_bestSlot bs (LadderSide.set_ladder (vupd (ladder s) k lvl') s)) (lupd qa p [])).
    { intros bs Hb; by eapply (rep_store_slot ns ns' s qa _ [] X). }
    pose proof (lr_best _ _ _ Hrep) as Hb; rewrite Ha in Hb.
    destruct (Z.eqb_spec k (bestSlot s)) as [Ebs|Ebs].
    + destruct (advanceBest_spec ns' (LadderSide.set_ladder (vupd (ladder s) k lvl') s) (lupd qa p []) k)
        as (r & -> & Hr); simpl; try done.
      * by rewrite (lr_len _ _ _ Hrep Ha).
      * intros j Hj; rewrite vnth_vupd; case_decide as Ej; [subst j; by rewrite <-Hp, lupd_eq|].
        rewrite lupd_ne by (rewrite Hp; intros E%slot_price_inj; congruence).
        eapply level_rep_agree; [done| |by eapply lr_slots].
        intros i; eapply Hframe; rewrite Hp; intros E%slot_price_inj; congruence.
      * intros j Hj Hjb; unfold lupd; case_match; [done|].
        destruct Hb as [[E _]|(_ & _ & Hb)]; [apply (slot_valid k) in Hk; lia|]. rewrite <-Ebs in Hb; auto.
      * exists (LadderSide.set_bestSlot r (LadderSide.set_ladder (vupd (ladder s) k lvl') s)); auto.
    + eexists; split; [done|]; split; [done|]. apply (Hupd (bestSlot s)). rewrite Hp; by apply best_ok_other.
  - rewrite Ho, list_lookup_middle in Hstore by done; injection Hstore as <-.
    rewrite insert_app_r_alt, Nat.sub_diag by done; simpl.
    pose proof (lr_sorted _ _ _ Hrep) as Hsort; rewrite Ho in Hsort.
    destruct (overflow_sorted_split _ _ _ _ Hsort) as [H1 H2].
    set (s1 := LadderSide.set_overflow _ _).
    change (LadderSide.priceToSlot s1 p) with (LadderSide.priceToSlot s p). rewrite Hs, Z.eqb_refl; simpl.
    assert (overflow_sorted (overflow s1)) as Hsort1.
    { unfold overflow_sorted, s1 in *; simpl; rewrite fmap_app in *; done. }
    destruct (overflow_hit s1 o1 p lvl' o2 Hsort1 eq_refl) as [-> ->]; simpl.
    eexists; split; [done|]; split; [done|].
    unfold LadderSide.overflowErase, LadderSide.set_overflow, s1; simpl.
    rewrite delete_middle.
    apply (rep_store_overflow ns ns' s qa p [] X) with (mid := [(p, lvl)]) (mid' := []);
      try done; [set_solver|]. by left.
Qed.
End refs.

(** ** The best level *)

Lemma overflowEdge_spec s :
  overflow_sorted (overflow s) ->
  match LadderSide.overflowEdge s with
  | None => overflow s = []
  | Some (pos, p) => exists o1 lvl o2, overflow s = o1 ++ (p, lvl) :: o2 /\ pos = length o1 /\
      forall q, q ∈ (overflow s).*1 -> better (bid s) q p = false
  end.
Proof.
  intros Hs; unfold LadderSide.overflowEdge, better. destruct (bid s).
  - destruct (overflow s) as [|[p lvl] o _] eqn:E using rev_ind; [done|].
    rewrite length_app, Nat.add_sub, list_lookup_middle by done.
    exists o, lvl, []; split; [done|]; split; [done|].
    destruct (overflow_sorted_split _ _ _ _ Hs) as [H1 _]; rewrite Forall_forall in H1.
    intros q (e & -> & [He|He]%elem_of_app)%list_elem_of_fmap; [specialize (H1 _ He); lia|].
    apply list_elem_of_singleton in He as ->; simpl; lia.
  - destruct (overflow s) as [|[p lvl] o] eqn:E; [done|]. simpl.
    exists [], lvl, o; split; [done|]; split; [done|].
    destruct (overflow_sorted_split [] _ _ _ Hs) as [_ H2]; rewrite Forall_forall in H2.
    intros q [->|(e & -> & He)%list_elem_of_fmap]%elem_of_cons; [lia|]. specialize (H2 _ He); lia.
Qed.

(** Every live price is a populated slot no better than the cached one, or an
    entry of the overflow vector. *)
Lemma live_cases ns s qa q :
  ladder_rep ns s qa -> qa q <> [] ->
  anchored s = true /\
  ((in_window (bestSlot s) /\ is_price (base s + TICK * bestSlot s) /\
    better (bid s) q (base s + TICK * bestSlot s) = false) \/ q ∈ (overflow s).*1).
Proof.
  intros Hrep Hq. pose proof (lr_price _ _ _ Hrep q Hq) as Hp.
  destruct (anchored s) eqn:Ha.
  - split; [done|]. pose proof (lr_best _ _ _ Hrep) as Hb; rewrite Ha in Hb.
    destruct (slot_view s q Ha (lr_base _ _ _ Hrep) Hp) as [[Hs _]|(k & Hk & _ & ->)].
    + right; by eapply lr_cover.
    + left. destruct Hb as [[_ Hb]|(Hw & Hne & Hb)]; [by destruct Hq; apply Hb|].
      split; [done|]; split; [by eapply lr_price|].
      destruct (better (bid s) k (bestSlot s)) eqn:E; [by destruct Hq; apply Hb|].
      unfold better in *; ladder_consts; destruct (bid s); lia.
  - exfalso. pose proof (lr_cover _ _ _ Hrep q) as Hc. rewrite (lr_fresh _ _ _ Hrep Ha) in Hc.
    unfold LadderSide.priceToSlot in Hc; rewrite Ha in Hc; simpl in Hc. by apply Hc, elem_of_nil in Hq.
Qed.

(** [bestLevel] finds the best live price and a reference to its level, or
    reports that nothing rests. *)
Lemma bestLevel_spec ns s qa :
  ladder_rep ns s qa ->
  match LadderSide.bestLevel s with
  | None => forall p, qa p = []
  | Some (ref, p) => qa p <> [] /\ ref_at s p ref /\
      forall q, qa q <> [] -> better (bid s) q p = false
  end.
Proof.
  intros Hrep; unfold LadderSide.bestLevel.
  pose proof (fun q => live_cases ns s qa q Hrep) as Hlive.
  pose proof (overflowEdge_spec s (lr_sorted _ _ _ Hrep)) as Hedge.
  pose proof (lr_best _ _ _ Hrep) as Hb.
  (* the ladder's candidate *)
  assert (Hl : bestSlot s <> INVALID_INDEX -> let p := LadderSide.slotToPrice s (bestSlot s) in
    in_window (bestSlot s) /\ p = base s + TICK * bestSlot s /\ qa p <> [] /\ ref_at s p (InLadder (bestSlot s))).
  { intros Hne; destruct (anchored s) eqn:Ha; [|done].
    destruct Hb as [[? _]|(Hw & Hq & _)]; [done|]. simpl.
    pose proof (lr_price _ _ _ Hrep _ Hq) as Hp. pose proof (lr_base _ _ _ Hrep) as Hbase.
    rewrite slotToPrice_ok by done. split_and!; try done. constructor; try done.
    destruct (slot_view s _ Ha Hbase Hp) as [[_ Hv]|(k & Hk & -> & E)]; [by destruct (Hv _ Hw)|].
    ladder_consts; lia. }
  (* the overflow's candidate *)
  assert (Ho : forall pos p, LadderSide.overflowEdge s = Some (pos, p) ->
    qa p <> [] /\ ref_at s p (InOverflow pos) /\ forall q, q ∈ (overflow s).*1 -> better (bid s) q p = false).
  { intros pos p E; rewrite E in Hedge; destruct Hedge as (o1 & lvl & o2 & Eo & -> & Hq).
    pose proof (lr_over _ _ _ Hrep) as H; rewrite Eo, Forall_app, Forall_cons in H.
    destruct H as (_ & (Hslot & Hne & _) & _); simpl in *. split_and!; try done.
    eapply ref_overflow; [|done|done]. by destruct (Hlive p Hne). }
  destruct (LadderSide.overflowEdge s) as [[pos edge]|] eqn:Eo.
  - destruct (Ho pos edge eq_refl) as (Ho1 & Ho2 & Ho3).
    destruct (Z.eqb_spec (bestSlot s) INVALID_INDEX) as [Ei|Ei].
    + split_and!; try done. intros q Hq. destruct (Hlive q Hq) as [_ [[Hw _]|Hin]]; [|auto].
      pose proof (slot_valid _ Hw); lia.
    + destruct (Hl Ei) as (Hw & Hp & Hl1 & Hl2).
      destruct (if bid s then _ else _) eqn:Ew; split_and!; try done; intros q Hq;
        destruct (Hlive q Hq) as [_ [(_ & _ & Hq')|Hin%Ho3]]; rewrite ?Hp in *;
        unfold better in *; destruct (bid s); lia.
  - destruct (Z.eqb_spec (bestSlot s) INVALID_INDEX) as [Ei|Ei].
    + intros p; destruct (decide (qa p = [])) as [|Hp]; [done|].
      destruct (Hlive p Hp) as [_ [[Hw _]|Hin]]; [pose proof (slot_valid _ Hw); lia|].
      rewrite Hedge in Hin; by apply elem_of_nil in Hin.
    + destruct (Hl Ei) as (Hw & Hp & Hl1 & Hl2). split_and!; try done. intros q Hq.
      destruct (Hlive q Hq) as [_ [(_ & _ & Hq')|Hin]]; [by rewrite Hp|].
      rewrite Hedge in Hin; by apply elem_of_nil in Hin.
Qed.

(** ** [add] and [remove] *)

Lemma anchor_rep ns s qa p :
  anchored s = false -> is_price p -> ladder_rep ns s qa -> ladder_rep ns (LadderSide.anchor p s) qa.
Proof.
  intros Ha Hp Hrep. pose proof (lr_fresh _ _ _ Hrep Ha) as Ho.
  assert (Hq : forall q, qa q = []).
  { intros q; destruct (decide (qa q = [])) as [|Hq]; [done|].
    destruct (live_cases _ _ _ _ Hrep Hq); congruence. }
  pose proof (lr_best _ _ _ Hrep) as Hb; rewrite Ha in Hb.
  unfold LadderSide.anchor; split; simpl.
  - intros q; by rewrite Hq.
  - intros q; rewrite Hq; constructor.
  - intros q1 q2 i; rewrite Hq; set_solver.
  - done.
  - apply u32_range.
  - done.
  - intros _ k Hk. rewrite vnth_vassign, Hq. apply level_rep_new.
  - rewrite Hb. left; split; [done|]; intros; apply Hq.
  - rewrite Ho; constructor.
  - rewrite Ho; constructor.
  - intros q; by rewrite Hq.
Qed.

Lemma add_spec pool s qa p idx :
  pool_fits (nodes pool) -> ladder_rep (nodes pool) s qa -> is_price p ->
  0 <= idx < vlen (nodes pool) -> (forall q, idx ∉ qa q) ->
  exists ns' s', LadderSide.add pool p idx s = Ok (mkPool ns' (freeHead pool), s') /\
    ladder_rep ns' s' (lupd qa p (qa p ++ [idx])) /\
    relinked (idx :: qa p) (nodes pool) ns' /\ bid s' = bid s.
Proof.
  intros Hf Hrep0 Hp Hidx Hfresh; unfold LadderSide.add.
  set (s1 := if negb (anchored s) then _ else _).
  assert (exists Ha : anchored s1 = true, ladder_rep (nodes pool) s1 qa /\ bid s1 = bid s) as (Ha & Hrep & <-).
  { unfold s1; destruct (anchored s) eqn:E; simpl; [by exists E|].
    by exists eq_refl; split; [apply anchor_rep|]. }
  clearbody s1; clear Hrep0 s. rename s1 into s.
  assert (Hframe : forall q i, q <> p -> i ∈ qa q -> i ∉ idx :: qa p).
  { intros q i Hqp Hi [->|Hi']%elem_of_cons; [by apply (Hfresh q)|].
    by apply Hqp; eapply (lr_disj _ _ _ Hrep). }
  assert (Hother : forall q i, q <> p -> i ∈ qa p ++ [idx] -> i ∉ qa q).
  { intros q i Hqp Hi Hi'; eapply Hframe; eauto. set_solver. }
  assert (Hnd : NoDup (qa p ++ [idx])).
  { apply NoDup_app; split_and!; [by eapply lr_nodup | | apply NoDup_singleton].
    intros i Hi ->%list_elem_of_singleton; by apply (Hfresh p). }
  assert (Hne : qa p ++ [idx] <> []) by (by destruct (qa p)).
  pose proof (fun lvl Hl => linkAtTail_spec pool lvl (qa p) idx Hf Hl (lr_nodup _ _ _ Hrep p) (Hfresh p) Hidx) as Hlink.
  destruct (slot_view s p Ha (lr_base _ _ _ Hrep) Hp) as [[Hslot _]|(k & Hk & Hslot & Hpk)].
  - rewrite Hslot, Z.eqb_refl; simpl.
    destruct (overflow_view s p (lr_sorted _ _ _ Hrep)) as (o1 & o2 & H1 & H2 & -> & Hc).
    pose proof (lr_over _ _ _ Hrep) as Hov.
    destruct Hc as [[Ho ->]|(lvl & Ho & ->)].
    + assert (Hempty : qa p = []).
      { destruct (decide (qa p = [])) as [|Hq]; [done|]. rewrite Forall_forall in H1, H2.
        pose proof (lr_cover _ _ _ Hrep p Hslot Hq) as (e & -> & He)%list_elem_of_fmap.
        rewrite Ho in He; apply elem_of_app in He as [He|He]; [specialize (H1 _ He)|specialize (H2 _ He)]; lia. }
      unfold LadderSide.overflowInsert; rewrite Ho, take_app_length, drop_app_length; simpl.
      rewrite list_lookup_middle by done; simpl.
      destruct (Hlink Level_new) as (ns' & lvl' & -> & Hl' & Hr); [rewrite Hempty; apply level_rep_new|].
      simpl. do 2 eexists; split; [done|].
      split; [|by split]. rewrite insert_app_r_alt, Nat.sub_diag by done; simpl.
      apply (rep_store_overflow (nodes pool) ns' s qa p _ (idx :: qa p))
        with (mid := []) (mid' := [(p, lvl')]); eauto with pool; set_solver.
    + rewrite Ho, list_lookup_middle by done; simpl.
      rewrite Ho, Forall_app, Forall_cons in Hov; destruct Hov as (_ & (_ & _ & Hl) & _); simpl in Hl.
      destruct (Hlink lvl Hl) as (ns' & lvl' & -> & Hl' & Hr). simpl.
      do 2 eexists; split; [done|].
      split; [|by split]. rewrite insert_app_r_alt, Nat.sub_diag by done; simpl.
      apply (rep_store_overflow (nodes pool) ns' s qa p _ (idx :: qa p))
        with (mid := [(p, lvl)]) (mid' := [(p, lvl')]); eauto with pool; set_solver.
  - rewrite Hslot, (slot_valid k Hk); simpl.
    rewrite vget_ok by (rewrite (lr_len _ _ _ Hrep Ha); done); simpl.
    pose proof (lr_slots _ _ _ Hrep Ha k Hk) as Hl; rewrite <-Hpk in Hl.
    destruct (Hlink _ Hl) as (ns' & lvl' & -> & Hl' & Hr). simpl.
    rewrite vset_ok by (rewrite (lr_len _ _ _ Hrep Ha); done); simpl.
    pose proof (lr_best _ _ _ Hrep) as Hb; rewrite Ha in Hb.
    pose proof (best_ok_add _ _ _ _ Hb k (qa p ++ [idx]) Hk Hne) as Hb'; rewrite <-Hpk in Hb'.
    assert (Hupd := rep_store_slot (nodes pool) ns' s qa p _ (idx :: qa p) Hrep Ha Hp
      (relinked_agree _ _ _ Hr) Hframe Hnd Hother k lvl' _ Hk Hpk Hl' Hb').
    unfold better in Hupd. exists ns'.
    destruct ((bestSlot s =? INVALID_INDEX) || _); eexists; (split; [done|]); split; try exact Hupd; by split.
Qed.

(** A live price has a reference. *)
Lemma live_ref ns s qa p :
  ladder_rep ns s qa -> qa p <> [] ->
  exists ref, ref_at s p ref /\
    match ref with
    | InLadder k => LadderSide.priceToSlot s p = k /\ (k =? INVALID_INDEX) = false
    | InOverflow it => LadderSide.priceToSlot s p = INVALID_INDEX /\
        LadderSide.overflowLowerBound s p = it /\ LadderSide.overflowMiss s it p = false
    end.
Proof.
  intros Hrep Hq. destruct (live_cases _ _ _ _ Hrep Hq) as [Ha _].
  destruct (slot_view s p Ha (lr_base _ _ _ Hrep) (lr_price _ _ _ Hrep p Hq)) as [[Hslot _]|(k & Hk & Hslot & Hpk)].
  - pose proof (lr_cover _ _ _ Hrep p Hslot Hq) as ([p' lvl] & -> & He)%list_elem_of_fmap; simpl in *.
    apply list_elem_of_split in He as (o1 & o2 & Ho).
    exists (InOverflow (length o1)); split; [by eapply ref_overflow|]. split; [done|].
    eapply overflow_hit; [by eapply lr_sorted | done].
  - exists (InLadder k); split; [by constructor|]. split; [done | by apply slot_valid].
Qed.

Lemma remove_spec pool s qa p idx l1 l2 :
  pool_fits (nodes pool) -> ladder_rep (nodes pool) s qa -> qa p = l1 ++ idx :: l2 ->
  exists ns' s', LadderSide.remove pool p idx s = Ok (mkPool ns' (freeHead pool), s') /\
    ladder_rep ns' s' (lupd qa p (l1 ++ l2)) /\
    relinked (l1 ++ l2) (nodes pool) ns' /\ bid s' = bid s.
Proof.
  intros Hf Hrep Hq.
  assert (Hlive : qa p <> []) by (rewrite Hq; by destruct l1).
  pose proof (lr_nodup _ _ _ Hrep p) as Hnd; rewrite Hq in Hnd.
  pose proof (NoDup_app_3 _ _ _ Hnd) as (_ & _ & Hnd').
  assert (Hsub : forall i, i ∈ l1 ++ l2 -> i ∈ qa p) by (rewrite Hq; set_solver).
  assert (Hframe : forall q i, q <> p -> i ∈ qa q -> i ∉ l1 ++ l2).
  { intros q i Hqp Hi Hi'; apply Hqp; eapply (lr_disj _ _ _ Hrep); eauto. }
  assert (Hother : forall q i, q <> p -> i ∈ l1 ++ l2 -> i ∉ qa q).
  { intros q i Hqp Hi Hi'; eapply Hframe; eauto. }
  destruct (live_ref _ _ _ _ Hrep Hlive) as (ref & Href & Hloc).
  destruct (deref_spec _ _ _ _ _ Hrep Href) as (lvl & Hd & Hl); rewrite Hq in Hl.
  destruct (unlink_spec pool lvl l1 l2 idx Hf Hl Hnd) as (ns' & lvl' & Hu & Hl' & Hr).
  destruct (store_spec _ _ _ _ _ Hrep Href lvl') as (s1 & Hst & _ & _ & Hbid & _).
  assert (Hf' : pool_fits ns') by (unfold pool_fits; rewrite (rl_len _ _ _ Hr); done).
  pose proof (level_rep_head _ _ _ Hf' Hl') as Hhead.
  pose proof (store_rep _ _ _ _ _ Hrep Href ns' (l1 ++ l2) (l1 ++ l2) lvl' s1 Hlive
    (relinked_agree _ _ _ Hr) Hframe Hnd' Hother Hl' Hst) as Hkeep.
  pose proof (drain_rep _ _ _ _ _ Hrep Href ns' (l1 ++ l2) (l1 ++ l2) lvl' s1 Hlive
    (relinked_agree _ _ _ Hr) Hframe Hnd' Hother Hl' Hst Hf') as Hdrain.
  assert (Hslot : LadderSide.priceToSlot s1 p = LadderSide.priceToSlot s p /\
                  forall it, ref = InOverflow it -> LadderSide.overflowLowerBound s1 p = LadderSide.overflowLowerBound s p
                    /\ LadderSide.overflowMiss s1 it p = false).
  { destruct Href as [k Ha Hk Hp Hslot | o1 lvl0 o2 Ha Hs Ho]; simpl in Hst.
    - rewrite vset_ok in Hst by (rewrite (lr_len _ _ _ Hrep Ha); done).
      injection Hst as <-; split; [done|]. intros it ?; done.
    - pose proof (lr_sorted _ _ _ Hrep) as Hsort.
      destruct Hloc as (_ & Hlb & _). rewrite Ho, list_lookup_middle in Hst by done.
      injection Hst as <-; split; [done|]; intros it [= <-].
      rewrite Hlb. apply (overflow_hit _ o1 p lvl' o2); simpl;
        rewrite insert_app_r_alt, Nat.sub_diag by done; [|done].
      rewrite Ho in Hsort; unfold overflow_sorted in *; rewrite fmap_app in *; done. }
  unfold LadderSide.remove. unfold LadderSide.removeEmptyBest in Hdrain. destruct Hslot as [Hs1 Hs2].
  rewrite Hs1 in Hdrain. destruct ref as [k|it].
  - destruct Hloc as [Hk Hkv]. rewrite Hk, Hkv in *. simpl negb in *; cbv iota in *.
    rewrite Hd; simpl. rewrite Hu; simpl. simpl in Hst; rewrite Hst; simpl. rewrite Hhead.
    case_bool_decide as He; simpl; [|exists ns', s1; split_and!; [done | by apply Hkeep | done | done]].
    destruct (Hdrain He) as (s' & E & Hb & Hrep'). rewrite He in Hr |- *.
    destruct (k =? bestSlot s1); [rewrite E; simpl | injection E as <-]; eexists ns', _; (split_and!; [reflexivity | exact Hrep' | done | congruence]).
  - destruct Hloc as (Hk & Hlb & Hm). destruct (Hs2 it eq_refl) as [Hlb1 Hm1]. rewrite Hk, Hlb, ?Hm in *.
    rewrite Hlb1, Hm1 in Hdrain. rewrite Z.eqb_refl in *. simpl negb in *; cbv iota in *.
    rewrite Hd; simpl. rewrite Hu; simpl. simpl in Hst; rewrite Hst; simpl. rewrite Hhead.
    case_bool_decide as He; simpl; [|exists ns', s1; split_and!; [done | by apply Hkeep | done | done]].
    destruct (Hdrain He) as (s' & [= <-] & Hb & Hrep'). rewrite He in Hr |- *.
    eexists ns', _; split_and!; [done | exact Hrep' | done | done].
Qed.

Lemma LadderSide_new_rep ns isBid : ladder_rep ns (LadderSide.new isBid) (fun _ => []).
Proof.
  split; simpl; try done.
  - intros; constructor.
  - intros p q i Hi; by apply elem_of_nil in Hi.
  - constructor.
Qed.

(** Nodes of no level may change under a side. *)
Lemma ladder_rep_agree X ns ns' s qa :
  agree_off X ns ns' -> (forall p i, i ∈ qa p -> i ∉ X) -> ladder_rep ns s qa -> ladder_rep ns' s qa.
Proof.
  intros Hag HX Hrep; destruct Hrep as [Hp Hn Hd Hf Hb Hl Hs Hbest Hsort Ho Hc]; split; try done.
  - intros Ha k Hk; eapply level_rep_agree; eauto.
  - eapply Forall_impl; [exact Ho|]; intros e (? & ? & ?); split_and!; try done.
    eapply level_rep_agree; eauto.
Qed.
