(* ===== verification/PriceTime.v ===== *)
(** The contract of an order book: price-time priority over a plain list.

    One side of a book is the list of its resting orders, best first: by price,
    and by arrival among equal prices. Entering, sweeping and cancelling are
    list functions; the pool, the ladder and the overflow vector do not occur.
    [OrderBook] proves that the program's book implements these functions. *)
From Stdlib Require Import ZArith Lia.
From stdpp Require Import base numbers gmap sorting list.
From S2P Require Import Prelude OrderPool LadderSide.
Open Scope Z_scope.

(** A resting order with the pool slot that names it. *)
Abbreviation entry := (Z * Order)%type.
Abbreviation eprice e := (price (snd e)).

Module PriceTime.

(** Behind every order at least as good. *)
Fixpoint enqueue (isBid : bool) (e : entry) (Q : list entry) : list entry :=
  match Q with
  | [] => [e]
  | e' :: Q' => if better isBid (eprice e) (eprice e') then e :: Q else e' :: enqueue isBid e Q'
  end.

Record sweep_result := Sweep {
  left : Z;                  (* incoming quantity left *)
  fills : list (Z * Z);      (* reference and quantity of each execution *)
  gone : list entry;         (* resting orders filled completely *)
  rest : list entry          (* the side afterwards *)
}.

(** Execute [qty] against the side, best first, while the price is accepted. *)
Fixpoint sweep (accept : Z -> bool) (qty : Z) (Q : list entry) : sweep_result :=
  match Q with
  | [] => Sweep qty [] [] []
  | (i, o) :: Q' =>
      if (0 <? qty) && accept (price o) then
        let x := Z.min qty (shares o) in
        if x =? shares o then
          let r := sweep accept (qty - x) Q' in
          Sweep (left r) ((order_ref o, x) :: fills r) ((i, o) :: gone r) (rest r)
        else
          Sweep (qty - x) [(order_ref o, x)] [] ((i, set_shares (shares o - x) o) :: Q')
      else Sweep qty [] [] Q
  end.

Definition cancel (i : Z) (Q : list entry) : list entry := filter (fun e => e.1 <> i) Q.

(** A book is its two sides. *)
Record abook := ABook { aBids : list entry; aAsks : list entry }.

Definition own (isBuy : bool) (b : abook) : list entry := if isBuy then aBids b else aAsks b.
Definition opp (isBuy : bool) (b : abook) : list entry := if isBuy then aAsks b else aBids b.

(** A limit order takes prices no worse than its own. *)
Definition accepts (isBuy : bool) (limit p : Z) : bool :=
  if isBuy then p <=? limit else limit <=? p.

(** Entering an order: sweep the opposite side, rest the remainder in slot
    [idx]. *)
Definition submit (isBuy : bool) (o : Order) (idx : Z) (b : abook) : sweep_result * abook :=
  let r := sweep (accepts isBuy (price o)) (shares o) (opp isBuy b) in
  let own' := if 0 <? left r then enqueue isBuy (idx, set_shares (left r) o) (own isBuy b)
              else own isBuy b in
  (r, if isBuy then ABook own' (rest r) else ABook (rest r) own').

Definition book_cancel (i : Z) (b : abook) : abook :=
  ABook (cancel i (aBids b)) (cancel i (aAsks b)).

Definition book_idxs (b : abook) : list Z := (aBids b).*1 ++ (aAsks b).*1.

(** ** Well-formed sides *)

Definition entry_ok (e : entry) : Prop :=
  is_price (eprice e) /\ 0 < shares e.2 < 2 ^ 32.

(** Not worse than. *)
Definition prio (isBid : bool) (e1 e2 : entry) : Prop := better isBid (eprice e2) (eprice e1) = false.

Record side_ok (isBid : bool) (Q : list entry) : Prop := {
  so_sorted : StronglySorted (prio isBid) Q;
  so_entries : Forall entry_ok Q;
  so_nodup : NoDup (Q.*1)
}.

(** The queue at one price. *)
Definition queue_at (p : Z) (Q : list entry) : list entry := filter (fun e => eprice e = p) Q.
Definition idx_at (Q : list entry) (p : Z) : list Z := (queue_at p Q).*1.

Definition side_total (Q : list entry) : Z := foldr (fun e t => shares e.2 + t) 0 Q.

(** ** Queues *)

Section queues.
Implicit Types (Q : list entry) (e : entry).

Lemma idx_at_app p Q1 Q2 : idx_at (Q1 ++ Q2) p = idx_at Q1 p ++ idx_at Q2 p.
Proof. unfold idx_at, queue_at; by rewrite filter_app, fmap_app. Qed.

Lemma idx_at_cons_eq e Q : idx_at (e :: Q) (eprice e) = e.1 :: idx_at Q (eprice e).
Proof. unfold idx_at, queue_at; by rewrite filter_cons_True. Qed.

Lemma idx_at_cons_ne p e Q : eprice e <> p -> idx_at (e :: Q) p = idx_at Q p.
Proof. intros; unfold idx_at, queue_at; by rewrite filter_cons_False. Qed.

Lemma elem_of_idx_at i p Q : i ∈ idx_at Q p <-> exists o, (i, o) ∈ Q /\ price o = p.
Proof.
  unfold idx_at, queue_at; rewrite list_elem_of_fmap. split.
  - intros ([j o] & -> & [Hp Hin]%list_elem_of_filter); simpl in *; eauto.
  - intros (o & Hin & Hp); exists (i, o); split; [done|]. by apply list_elem_of_filter.
Qed.

Lemma idx_at_nil p Q : (forall e, e ∈ Q -> eprice e <> p) <-> idx_at Q p = [].
Proof.
  split.
  - intros H; unfold idx_at; destruct (queue_at p Q) as [|e l] eqn:E; [done|].
    assert (e ∈ queue_at p Q) as [Hp Hin]%list_elem_of_filter by (rewrite E; set_solver).
    by destruct (H e Hin).
  - intros H [i o] Hin Hp. assert (Hi : i ∈ idx_at Q p) by (apply elem_of_idx_at; eauto).
    rewrite H in Hi; by apply elem_of_nil in Hi.
Qed.

Lemma idx_at_all p Q : (forall e, e ∈ Q -> eprice e = p) -> idx_at Q p = Q.*1.
Proof.
  intros H; induction Q as [|e Q IH]; [done|].
  rewrite <-(H e) by set_solver. rewrite idx_at_cons_eq, (H e) by set_solver.
  rewrite IH by set_solver; done.
Qed.

Lemma idx_at_nodup p Q : NoDup (Q.*1) -> NoDup (idx_at Q p).
Proof.
  intros H; induction Q as [|e Q IH]; [constructor|].
  apply NoDup_cons in H as [Hni Hnd]. destruct (Z.eq_dec (eprice e) p) as [<-|Hne].
  - rewrite idx_at_cons_eq; apply NoDup_cons; split; [|auto].
    intros (o & Hin & _)%elem_of_idx_at; apply Hni, list_elem_of_fmap; by exists (e.1, o).
  - rewrite idx_at_cons_ne by done; auto.
Qed.

(** Entering extends one queue at its tail. *)
Lemma idx_at_enqueue isBid e Q p :
  StronglySorted (prio isBid) Q ->
  idx_at (enqueue isBid e Q) p = lupd (idx_at Q) (eprice e) (idx_at Q (eprice e) ++ [e.1]) p.
Proof.
  intros Hs; induction Q as [|e' Q IH]; simpl.
  - destruct (Z.eq_dec p (eprice e)) as [->|Hne].
    + by rewrite lupd_eq, idx_at_cons_eq.
    + by rewrite lupd_ne, idx_at_cons_ne by done.
  - apply StronglySorted_cons in Hs as [Hall Hs]. rewrite Forall_forall in Hall.
    destruct (better isBid (eprice e) (eprice e')) eqn:Hb.
    + assert (idx_at (e' :: Q) (eprice e) = []) as E.
      { apply idx_at_nil; intros e2 [->|He2]%elem_of_cons; unfold better in Hb; destruct isBid; try lia.
        all: specialize (Hall _ He2); unfold prio, better in Hall; lia. }
      rewrite E. destruct (Z.eq_dec p (eprice e)) as [->|Hne].
      * by rewrite lupd_eq, idx_at_cons_eq, E.
      * by rewrite lupd_ne, idx_at_cons_ne by done.
    + destruct (Z.eq_dec p (eprice e')) as [->|Hne'].
      * rewrite idx_at_cons_eq, IH by done. destruct (Z.eq_dec (eprice e') (eprice e)) as [Ee|Hne].
        -- rewrite Ee, !lupd_eq, <-Ee, idx_at_cons_eq; done.
        -- by rewrite !lupd_ne, idx_at_cons_eq by done.
      * rewrite idx_at_cons_ne, IH by done. destruct (Z.eq_dec p (eprice e)) as [->|Hne].
        -- rewrite !lupd_eq, idx_at_cons_ne by done; done.
        -- by rewrite !lupd_ne, idx_at_cons_ne by done.
Qed.

Lemma enqueue_perm isBid e Q : enqueue isBid e Q ≡ₚ e :: Q.
Proof.
  induction Q as [|e' Q IH]; simpl; [done|]. case_match; [done|].
  rewrite IH; apply Permutation_swap.
Qed.

Lemma prio_trans isBid : Transitive (prio isBid).
Proof. intros e1 e2 e3; unfold prio, better; destruct isBid; lia. Qed.

Lemma enqueue_ok isBid e Q :
  entry_ok e -> (e.1 ∉ Q.*1) -> side_ok isBid Q -> side_ok isBid (enqueue isBid e Q).
Proof.
  intros He Hni [Hs Hent Hnd]; split.
  - clear Hent Hnd Hni; induction Q as [|e' Q IH]; simpl; [by repeat constructor|].
    apply StronglySorted_cons in Hs as [Hall Hs]. rewrite Forall_forall in Hall.
    destruct (better isBid (eprice e) (eprice e')) eqn:Hb; apply StronglySorted_cons; split.
    + apply Forall_forall; intros e2 [->|He2]%elem_of_cons; [|specialize (Hall _ He2)];
        unfold prio, better in *; destruct isBid; lia.
    + apply StronglySorted_cons; split; [by apply Forall_forall | done].
    + apply Forall_forall; intros e2; rewrite enqueue_perm. intros [->|He2]%elem_of_cons; auto.
    + auto.
  - rewrite enqueue_perm; by constructor.
  - rewrite enqueue_perm; simpl; by apply NoDup_cons.
Qed.

Lemma cancel_split i o Q1 Q2 :
  NoDup ((Q1 ++ (i, o) :: Q2).*1) -> cancel i (Q1 ++ (i, o) :: Q2) = Q1 ++ Q2.
Proof.
  rewrite fmap_app; simpl; intros (H1 & H2 & _)%NoDup_app_3. unfold cancel.
  rewrite filter_app, filter_cons_False by (simpl; tauto).
  rewrite !filter_all; [done | |]; intros e He Ei; rewrite <-Ei in *;
    [apply H2 | apply H1]; by apply list_elem_of_fmap_2.
Qed.

Lemma side_ok_app isBid Q1 Q2 :
  side_ok isBid (Q1 ++ Q2) -> side_ok isBid Q1 /\ side_ok isBid Q2.
Proof.
  intros [(_ & S1 & S2)%StronglySorted_app [E1 E2]%Forall_app Hnd].
  rewrite fmap_app in Hnd; apply NoDup_app in Hnd as (N1 & _ & N2); by split; split.
Qed.

Lemma side_ok_remove isBid Q1 e Q2 :
  side_ok isBid (Q1 ++ e :: Q2) -> side_ok isBid (Q1 ++ Q2).
Proof.
  intros [Hs He Hnd]; split.
  - apply StronglySorted_app in Hs as (Hx & S1 & [_ S2]%StronglySorted_cons).
    apply StronglySorted_app_2; [|done|done]. set_solver.
  - rewrite Forall_app, Forall_cons in He; apply Forall_app; naive_solver.
  - rewrite fmap_app in *; simpl in Hnd. apply NoDup_app_3 in Hnd; naive_solver.
Qed.
End queues.

(** ** Sweeps *)

Section sweep.
Context (accept : Z -> bool).
Implicit Types (Q : list entry).

Definition sum_fills (fs : list (Z * Z)) : Z := foldr (fun f t => f.2 + t) 0 fs.

(** The untouched and the touched part: indices leave from the front. *)
Lemma sweep_indices qty Q :
  Q.*1 = (gone (sweep accept qty Q)).*1 ++ (rest (sweep accept qty Q)).*1.
Proof.
  revert qty; induction Q as [|[i o] Q IH]; intros qty; simpl; [done|].
  repeat case_match; simpl; [by f_equal|done|done].
Qed.

(** Every share is accounted for: what the incoming order lost is what the
    executions report and what the side lost. *)
Lemma sweep_conserves qty Q :
  qty - left (sweep accept qty Q) = sum_fills (fills (sweep accept qty Q)) /\
  side_total Q - side_total (rest (sweep accept qty Q)) =
    sum_fills (fills (sweep accept qty Q)).
Proof.
  revert qty; induction Q as [|[i o] Q IH]; intros qty; simpl; [lia|].
  case_match; simpl; [|lia]. case_match; simpl; [|lia].
  specialize (IH (qty - qty `min` shares o)); lia.
Qed.

Lemma sweep_left qty Q :
  Forall entry_ok Q -> 0 <= qty -> 0 <= left (sweep accept qty Q) <= qty.
Proof.
  revert qty; induction Q as [|[i o] Q IH]; intros qty; simpl; [lia|].
  intros [[_ Ho] HQ]%Forall_cons Hq; simpl in Ho. repeat case_match; simpl; [|lia|lia].
  specialize (IH (qty - qty `min` shares o) HQ); lia.
Qed.

(** Something is left on both sides only if the best price is refused. *)
Lemma sweep_stops qty Q e Q' :
  Forall entry_ok Q -> 0 < left (sweep accept qty Q) -> rest (sweep accept qty Q) = e :: Q' ->
  accept (eprice e) = false.
Proof.
  revert qty; induction Q as [|[i o] Q IH]; intros qty; simpl; [done|].
  intros [[_ Ho] HQ]%Forall_cons; simpl in Ho. case_match eqn:E1; simpl.
  - case_match eqn:E2; simpl; [by apply IH|]. lia.
  - intros Hq [= <- <-]; simpl. destruct (accept (price o)); lia.
Qed.

Lemma sweep_ok isBid qty Q :
  0 <= qty -> side_ok isBid Q -> side_ok isBid (rest (sweep accept qty Q)).
Proof.
  revert qty; induction Q as [|[i o] Q IH]; intros qty Hq HQ; simpl; [done|].
  pose proof HQ as [Hs Hent Hnd]. apply Forall_cons in Hent as [[Hp Ho] Hent]; simpl in *.
  case_match eqn:E1; simpl; [|done]. case_match eqn:E2; simpl.
  - apply IH; [lia|]. by apply (side_ok_app _ [_]) in HQ as [_ ?].
  - apply StronglySorted_cons in Hs as [Hall Hs]. split; [|constructor; [split; simpl; lia || done | done]|done].
    apply StronglySorted_cons; split; [|done]. eapply Forall_impl; [exact Hall|]; done.
Qed.

(** Sweeping a prefix whose prices are all accepted, then the rest. *)
Lemma sweep_app qty Q1 Q2 :
  Forall entry_ok Q1 -> 0 <= qty -> Forall (fun e => accept (eprice e) = true) Q1 ->
  let r1 := sweep accept qty Q1 in
  sweep accept qty (Q1 ++ Q2) =
    match rest r1 with
    | [] => let r2 := sweep accept (left r1) Q2 in
            Sweep (left r2) (fills r1 ++ fills r2) (gone r1 ++ gone r2) (rest r2)
    | _ => Sweep (left r1) (fills r1) (gone r1) (rest r1 ++ Q2)
    end.
Proof.
  revert qty; induction Q1 as [|[i o] Q1 IH]; intros qty; simpl.
  { intros _ _ _; by destruct (sweep accept qty Q2). }
  intros [[_ Ho] HQ]%Forall_cons Hq [Ha Hacc]%Forall_cons; simpl in *. rewrite Ha.
  destruct (0 <? qty) eqn:Eq; simpl; [|done]. case_match eqn:E2; simpl; [|done].
  rewrite IH by (done || lia). simpl. by destruct (rest _).
Qed.

(** When quantity is left over, the swept prefix is gone. *)
Lemma sweep_rest_nil qty Q :
  Forall entry_ok Q -> 0 <= qty -> Forall (fun e => accept (eprice e) = true) Q ->
  rest (sweep accept qty Q) <> [] -> left (sweep accept qty Q) = 0.
Proof.
  revert qty; induction Q as [|[i o] Q IH]; intros qty; simpl; [done|].
  intros [[_ Ho] HQ]%Forall_cons Hq [Ha Hacc]%Forall_cons; simpl in *. rewrite Ha.
  destruct (0 <? qty) eqn:Eq; simpl; [|lia]. case_match eqn:E2; simpl; [apply IH; done || lia|lia].
Qed.

Lemma sweep_rest_elem qty Q e :
  e ∈ rest (sweep accept qty Q) -> exists e', e' ∈ Q /\ e'.1 = e.1 /\ eprice e' = eprice e.
Proof.
  revert qty; induction Q as [|[i o] Q IH]; intros qty; simpl; [set_solver|].
  repeat case_match; simpl.
  - intros (e' & ? & ?)%IH; exists e'; set_solver.
  - intros [->|He]%elem_of_cons; [exists (i, o); set_solver | exists e; set_solver].
  - intros He; exists e; set_solver.
Qed.

(** What survives is what was there, up to its share count. *)
Lemma sweep_rest_fields qty Q i o :
  (i, o) ∈ rest (sweep accept qty Q) -> exists o', (i, o') ∈ Q /\ o = set_shares (shares o) o'.
Proof.
  assert (Heta : forall x, x = set_shares (shares x) x) by (by intros []).
  revert qty; induction Q as [|[j x] Q IH]; intros qty; simpl; [set_solver|].
  repeat case_match; simpl.
  - intros (o' & ? & ?)%IH; exists o'; set_solver.
  - intros [[= -> ->]|He]%elem_of_cons; [exists x; set_solver | exists o; set_solver].
  - intros He; exists o; set_solver.
Qed.

Lemma sweep_nil qty Q : (0 <? qty) = false -> sweep accept qty Q = Sweep qty [] [] Q.
Proof. destruct Q as [|[i o] Q]; simpl; [done|]. by intros ->. Qed.
End sweep.

Lemma sweep_ext f g qty Q :
  (forall e, e ∈ Q -> f (eprice e) = g (eprice e)) -> sweep f qty Q = sweep g qty Q.
Proof.
  revert qty; induction Q as [|[i o] Q IH]; intros qty H; simpl; [done|].
  pose proof (H (i, o) ltac:(set_solver)) as Ho; simpl in Ho; rewrite Ho. by rewrite IH by set_solver.
Qed.

(** The best level is a prefix of the side. *)
Lemma best_prefix isBid p Q :
  StronglySorted (prio isBid) Q -> (forall e, e ∈ Q -> better isBid (eprice e) p = false) ->
  exists Qp Qr, Q = Qp ++ Qr /\ (forall e, e ∈ Qp -> eprice e = p) /\
                (forall e, e ∈ Qr -> eprice e <> p).
Proof.
  induction Q as [|e Q IH]; intros Hs Hp; [by exists [], []; set_solver|].
  apply StronglySorted_cons in Hs as [Hall Hs]; rewrite Forall_forall in Hall.
  destruct (Z.eq_dec (eprice e) p) as [He|He].
  - destruct IH as (Qp & Qr & -> & H1 & H2); [done | set_solver |].
    exists (e :: Qp), Qr; set_solver.
  - exists [], (e :: Q); split_and!; [done | set_solver |]. pose proof (Hp e ltac:(set_solver)) as Hpe.
    intros e' [->|He']%elem_of_cons; [done|]. specialize (Hall _ He').
    unfold prio, better in *; destruct isBid; lia.
Qed.

(** Replacing the orders of one price. *)
Lemma idx_at_replace p Qp R Qr q :
  (forall e, e ∈ Qp -> eprice e = p) -> (forall e, e ∈ R -> eprice e = p) ->
  (forall e, e ∈ Qr -> eprice e <> p) ->
  idx_at (R ++ Qr) q = lupd (idx_at (Qp ++ Qr)) p (R.*1) q.
Proof.
  intros HQ HR Hr; rewrite idx_at_app. destruct (Z.eq_dec q p) as [->|Hq].
  - rewrite lupd_eq, (idx_at_all p R) by done. rewrite (proj1 (idx_at_nil p Qr)) by done. apply app_nil_r.
  - rewrite lupd_ne, idx_at_app by done. f_equal.
    rewrite !(proj1 (idx_at_nil q _)); [done | |]; intros e He E; [apply HQ in He | apply HR in He]; congruence.
Qed.

(** ** Crossed books *)

Definition uncrossed (b : abook) : Prop :=
  forall x y, x ∈ aBids b -> y ∈ aAsks b -> eprice x < eprice y.

(** A side as [sweep] needs it: sorted, of well-formed orders. *)
Definition sorted_ok (isBid : bool) (Q : list entry) : Prop :=
  StronglySorted (prio isBid) Q /\ Forall entry_ok Q.

(** What is left of an order is worse than everything it left. *)
Lemma sweep_refused isBid accept qty Q e :
  sorted_ok isBid Q -> 0 <= qty -> (forall p q, better isBid p q = false -> accept q = false -> accept p = false) ->
  0 < left (sweep accept qty Q) -> e ∈ rest (sweep accept qty Q) -> accept (eprice e) = false.
Proof.
  intros [Hs He] Hq Hmono Hl Hin. destruct (rest (sweep accept qty Q)) as [|e0 R] eqn:E; [by apply elem_of_nil in Hin|].
  pose proof (sweep_stops accept qty Q e0 R He Hl E) as H0.
  apply elem_of_cons in Hin as [->|Hin]; [done|].
  assert (HR : StronglySorted (prio isBid) (rest (sweep accept qty Q))).
  { clear -Hs. revert qty; induction Q as [|[i o] Q IH]; intros qty; simpl; [constructor|].
    pose proof Hs as [Hall Hs']%StronglySorted_cons. repeat case_match; simpl; [by apply IH | | done].
    apply StronglySorted_cons; split; [|done]. eapply Forall_impl; [exact Hall|]; done. }
  rewrite E in HR. apply StronglySorted_cons in HR as [Hall _]. rewrite Forall_forall in Hall.
  exact (Hmono _ _ (Hall e Hin) H0).
Qed.

Lemma submit_uncrossed (isBuy : bool) o idx b :
  sorted_ok true (aBids b) -> sorted_ok false (aAsks b) -> uncrossed b -> 0 <= shares o ->
  uncrossed (submit isBuy o idx b).2.
Proof.
  intros Hb Ha Hu Hq x y. unfold submit, own, opp. destruct isBuy; simpl.
  - set (r := sweep _ _ _). intros Hx Hy. destruct (0 <? left r) eqn:El.
    + rewrite enqueue_perm in Hx. apply elem_of_cons in Hx as [->|Hx].
      * simpl. pose proof (sweep_refused false (accepts true (price o)) _ _ y Ha Hq) as H. simpl in H.
        enough (accepts true (price o) (eprice y) = false) by (simpl in *; lia).
        apply H; [unfold better; lia | fold r; lia | done].
      * apply sweep_rest_elem in Hy as (y' & Hy & _ & <-). auto.
    + apply sweep_rest_elem in Hy as (y' & Hy & _ & <-). auto.
  - set (r := sweep _ _ _). intros Hx Hy. destruct (0 <? left r) eqn:El.
    + rewrite enqueue_perm in Hy. apply elem_of_cons in Hy as [->|Hy].
      * simpl. pose proof (sweep_refused true (accepts false (price o)) _ _ x Hb Hq) as H. simpl in H.
        enough (accepts false (price o) (eprice x) = false) by (simpl in *; lia).
        apply H; [unfold better; lia | fold r; lia | done].
      * apply sweep_rest_elem in Hx as (x' & Hx & _ & <-). auto.
    + apply sweep_rest_elem in Hx as (x' & Hx & _ & <-). auto.
Qed.

Lemma side_sorted isBid Q : side_ok isBid Q -> sorted_ok isBid Q.
Proof. by intros [Hs He _]. Qed.
End PriceTime.
