(* ===== verification/OrderBook.v ===== *)
(** The order book of include/orderbook.hpp and src/orderbook.cpp: matching an
    incoming order against the opposite side, resting the remainder, removing
    by pool index; and the proof that it implements price-time priority
    ([PriceTime]). *)
From Stdlib Require Import ZArith Lia.
From stdpp Require Import base numbers gmap sorting list.
From S2P Require Import Prelude OrderPool LadderSide PriceTime.
Open Scope Z_scope.

(** The character literals the source compares with. *)
Definition chr_B : Z := 66.
Definition chr_S : Z := 83.
Definition chr_E : Z := 69.

Record ItchOrderExecuted := mkExecuted {
  message_type : Z;
  stock_locate : Z;
  tracking_number : Z;
  timestamp_high : Z;
  timestamp_low : Z;
  order_reference_number : Z;
  executed_shares : Z;
  match_number : Z
}.

(** The pool is shared by every book and passed explicitly. *)
Record OrderBook := mkBook { bids : LadderSide; asks : LadderSide }.

(** What a call hands back: the order with its remaining shares, the resting
    index, and the two output buffers. *)
Record HandleOut := mkOut {
  out_order : Order;
  restingIdx : Z;
  removedRefs : list Z;
  executedOrders : list ItchOrderExecuted
}.

Module OrderBook.

Definition new : OrderBook := mkBook (LadderSide.new true) (LadderSide.new false).

(** The execution record: the fields the engine does not know are [-1] in
    their width. *)
Definition execution (ref qty : Z) : ItchOrderExecuted :=
  mkExecuted chr_E (u16 (-1)) (u16 (-1)) (u16 (-1)) (u32 (-1)) ref qty (u64 (-1)).

(** State of the two matching loops. *)
Record loop := mkLoop {
  l_pool : OrderPool;
  l_side : LadderSide;                 (* the side matched against *)
  l_shares : Z;                        (* shares left of the incoming order *)
  l_removed : list Z;
  l_executed : list ItchOrderExecuted
}.

(** The head order is filled: the level moves to its successor and the slot
    is freed. *)
Definition pop_head (level : LevelRef) (lvl : Level) (node : PoolNode)
    (pool : OrderPool) (side : LadderSide) : result (OrderPool * LadderSide) :=
  let filledIdx := lvl_head lvl in
  side ← LadderSide.store side level (mkLevel (next node) (lvl_tail lvl));
  '(pool, side) ←
    (if negb (next node =? INVALID_INDEX) then
       pool ← OrderPool.modify (set_prev INVALID_INDEX) (next node) pool;
       Ok (pool, side)
     else
       side ← LadderSide.store side level (mkLevel (next node) INVALID_INDEX);
       Ok (pool, side));
  pool ← OrderPool.free filledIdx pool;
  Ok (pool, side).

(** The inner [while]: fill against the orders of one level. Each iteration
    removes an order or ends the incoming one, so one more iteration than
    the pool has nodes is never needed. *)
Fixpoint fill_level (fuel : nat) (level : LevelRef) (st : loop) : result loop :=
  match fuel with
  | O => Err Diverge
  | S fuel =>
      if negb (0 <? l_shares st) then Ok st else
      lvl ← LadderSide.deref (l_side st) level;
      if lvl_head lvl =? INVALID_INDEX then Ok st else
      node ← OrderPool.get (l_pool st) (lvl_head lvl);
      let resting := order node in
      let executedShares := Z.min (l_shares st) (shares resting) in
      let executedOrder := execution (order_ref resting) executedShares in
      let executed := l_executed st ++ [executedOrder] in
      let left := u32 (l_shares st - executedShares) in
      pool ← OrderPool.modify
               (fun n => set_order (set_shares (u32 (shares (order n) - executedShares)) (order n)) n)
               (lvl_head lvl) (l_pool st);
      node ← OrderPool.get pool (lvl_head lvl);
      if shares (order node) =? 0 then
        let removed := l_removed st ++ [order_reference_number executedOrder] in
        '(pool, side) ← pop_head level lvl node pool (l_side st);
        fill_level fuel level (mkLoop pool side left removed executed)
      else
        fill_level fuel level (mkLoop pool (l_side st) left (l_removed st) executed)
  end.

Definition loop_fuel (pool : OrderPool) : nat := S (Z.to_nat (vlen (nodes pool))).

(** The outer [while]: take the best level while it is not refused
    ([refuse] is [bestPrice > price] for a buy, [bestPrice < price] for a
    sell). *)
Fixpoint match_loop (fuel : nat) (refuse : Z -> bool) (st : loop) : result loop :=
  match fuel with
  | O => Err Diverge
  | S fuel =>
      if negb (0 <? l_shares st) then Ok st else
      match LadderSide.bestLevel (l_side st) with
      | None => Ok st
      | Some (level, bestPrice) =>
          if refuse bestPrice then Ok st else
          st ← fill_level (loop_fuel (l_pool st)) level st;
          lvl ← LadderSide.deref (l_side st) level;
          if lvl_head lvl =? INVALID_INDEX then
            side ← LadderSide.removeEmptyBest bestPrice (l_side st);
            match_loop fuel refuse
              (mkLoop (l_pool st) side (l_shares st) (l_removed st) (l_executed st))
          else match_loop fuel refuse st
      end
  end.

Definition handleBuyOrder (buyOrder : Order) (removed : list Z) (executed : list ItchOrderExecuted)
    (pool : OrderPool) (book : OrderBook) : result (HandleOut * OrderPool * OrderBook) :=
  st ← match_loop (loop_fuel pool) (fun bestPrice => price buyOrder <? bestPrice)
         (mkLoop pool (asks book) (shares buyOrder) removed executed);
  let buyOrder := set_shares (l_shares st) buyOrder in
  let book := mkBook (bids book) (l_side st) in
  if 0 <? shares buyOrder then
    '(idx, pool) ← OrderPool.allocate buyOrder (l_pool st);
    '(pool, side) ← LadderSide.add pool (price buyOrder) idx (bids book);
    Ok (mkOut buyOrder idx (l_removed st) (l_executed st), pool, mkBook side (asks book))
  else
    Ok (mkOut buyOrder INVALID_INDEX (l_removed st) (l_executed st), l_pool st, book).

Definition handleSellOrder (sellOrder : Order) (removed : list Z) (executed : list ItchOrderExecuted)
    (pool : OrderPool) (book : OrderBook) : result (HandleOut * OrderPool * OrderBook) :=
  st ← match_loop (loop_fuel pool) (fun bestPrice => bestPrice <? price sellOrder)
         (mkLoop pool (bids book) (shares sellOrder) removed executed);
  let sellOrder := set_shares (l_shares st) sellOrder in
  let book := mkBook (l_side st) (asks book) in
  if 0 <? shares sellOrder then
    '(idx, pool) ← OrderPool.allocate sellOrder (l_pool st);
    '(pool, side) ← LadderSide.add pool (price sellOrder) idx (asks book);
    Ok (mkOut sellOrder idx (l_removed st) (l_executed st), pool, mkBook (bids book) side)
  else
    Ok (mkOut sellOrder INVALID_INDEX (l_removed st) (l_executed st), l_pool st, book).

Definition removeByIndex (idx : Z) (pool : OrderPool) (book : OrderBook)
    : result (OrderPool * OrderBook) :=
  node ← OrderPool.get pool idx;
  let p := price (order node) in
  '(pool, book) ←
    (if buySellIndicator (order node) =? chr_B then
       '(pool, side) ← LadderSide.remove pool p idx (bids book);
       Ok (pool, mkBook side (asks book))
     else
       '(pool, side) ← LadderSide.remove pool p idx (asks book);
       Ok (pool, mkBook (bids book) side));
  pool ← OrderPool.free idx pool;
  Ok (pool, book).

Definition handleOrder (o : Order) (removed : list Z) (executed : list ItchOrderExecuted)
    (pool : OrderPool) (book : OrderBook) : result (HandleOut * OrderPool * OrderBook) :=
  if buySellIndicator o =? chr_B then handleBuyOrder o removed executed pool book
  else if buySellIndicator o =? chr_S then handleSellOrder o removed executed pool book
  else Err Throw.

End OrderBook.

(** ** Filling one level *)

(** [ref] can be written through, any number of times. *)
Definition writable (s : LadderSide) (ref : LevelRef) : Prop :=
  forall lvl, exists s', LadderSide.store s ref lvl = Ok s' /\ LadderSide.deref s' ref = Ok lvl /\
    bid s' = bid s /\ (forall lvl2, LadderSide.store s' ref lvl2 = LadderSide.store s ref lvl2).

(** Orders may differ, links do not. *)
Definition links_same (ns ns' : vec PoolNode) : Prop :=
  vlen ns' = vlen ns /\
  forall j, next (vnth ns' j) = next (vnth ns j) /\ prev (vnth ns' j) = prev (vnth ns j).

Definition holds_orders (ns : vec PoolNode) (Q : list entry) : Prop :=
  forall i o, (i, o) ∈ Q -> order (vnth ns i) = o.

Lemma level_rep_links ns ns' lvl l : links_same ns ns' -> level_rep ns lvl l -> level_rep ns' lvl l.
Proof.
  intros [Hlen H]; unfold level_rep. generalize INVALID_INDEX at 1 3 as pp. generalize (lvl_head lvl).
  induction l as [|i l IH]; simpl; intros p pp; [done|].
  destruct (H i) as [-> ->]; rewrite Hlen. intros (-> & Hi & Hp & Hl); split_and!; try done; lia || by apply IH.
Qed.

Lemma ladder_rep_links ns ns' s qa : links_same ns ns' -> ladder_rep ns s qa -> ladder_rep ns' s qa.
Proof.
  intros Hl [Hp Hn Hd Hf Hb Hlen Hs Hbest Hsort Ho Hc]; split; try done.
  - intros Ha k Hk; eapply level_rep_links; eauto.
  - eapply Forall_impl; [exact Ho|]; intros e (? & ? & ?); split_and!; try done.
    eapply level_rep_links; eauto.
Qed.

Lemma holds_orders_agree X ns ns' Q :
  agree_off X ns ns' -> (forall i, i ∈ Q.*1 -> (i ∉ X) /\ 0 <= i < vlen ns) ->
  holds_orders ns Q -> holds_orders ns' Q.
Proof.
  intros [_ H] HX HQ i o Hin. assert (i ∈ Q.*1) as Hi by (apply list_elem_of_fmap; by exists (i, o)).
  destruct (HX i Hi); rewrite H by done; auto.
Qed.

Lemma writable_store s ref lvl s' :
  writable s ref -> LadderSide.store s ref lvl = Ok s' -> writable s' ref /\
    LadderSide.deref s' ref = Ok lvl /\ bid s' = bid s /\
    (forall lvl2, LadderSide.store s' ref lvl2 = LadderSide.store s ref lvl2).
Proof.
  intros Hw Hst. destruct (Hw lvl) as (s1 & E & Hd & Hb & Hsame).
  rewrite Hst in E; injection E as <-. split_and!; try done.
  intros lvl2. destruct (Hw lvl2) as (s2 & E2 & Hd2 & Hb2 & Hsame2).
  exists s2; rewrite Hsame; split_and!; try done; [congruence|]. intros lvl3; by rewrite Hsame2, Hsame.
Qed.

(** Popping the filled head leaves the chain of the others and one more free
    slot. *)
Lemma pop_head_spec ref lvl i l pool s F :
  writable s ref -> pool_inv pool F -> level_rep (nodes pool) lvl (i :: l) ->
  NoDup ((i :: l) ++ F) ->
  exists pool' s' lvl',
    OrderBook.pop_head ref lvl (vnth (nodes pool) i) pool s = Ok (pool', s') /\
    LadderSide.store s ref lvl' = Ok s' /\
    level_rep (nodes pool') lvl' l /\ pool_inv pool' (i :: F) /\
    vlen (nodes pool') = vlen (nodes pool) /\ agree_off (i :: l) (nodes pool) (nodes pool') /\
    (forall j, order (vnth (nodes pool') j) = order (vnth (nodes pool) j)).
Proof.
  intros Hw Hinv Hl Hnd. pose proof (pi_fits _ _ Hinv) as Hf.
  simpl in Hnd; apply NoDup_cons in Hnd as [Hi Hnd]. rewrite not_elem_of_app in Hi; destruct Hi as [Hil HiF].
  destruct lvl as [h t]; simpl in Hl; destruct Hl as (Hh & Hr & Hp & Hl); simpl in *; subst h.
  unfold OrderBook.pop_head; simpl. set (n := next (vnth (nodes pool) i)) in *.
  destruct (Hw (mkLevel n t)) as (s1 & Hs1 & Hd1 & _ & Hsame). rewrite Hs1; simpl.
  destruct l as [|b l]; simpl in Hl.
  - destruct Hl as [-> Ht]; simpl. destruct (Hw (mkLevel INVALID_INDEX INVALID_INDEX)) as (s2 & Hs2 & _).
    rewrite Hsame, Hs2; simpl. destruct (free_spec i pool F) as (pool' & -> & Hinv' & Hrl); try done.
    simpl; do 3 eexists; split_and!; [done | exact Hs2 | done | done | apply Hrl | auto with pool | apply Hrl].
  - pose proof Hl as (Hb & Hbr & _). rewrite Hb in *; erewrite index_valid by done; simpl.
    rewrite modify_ok by done; simpl. set (ns1 := vupd _ _ _).
    assert (Hr1 : relinked (i :: b :: l) (nodes pool) ns1) by (apply relinked_prev; set_solver).
    assert (b ∉ l) as Hbl by (by apply NoDup_app in Hnd as ([]%NoDup_cons & _)).
    assert (level_rep ns1 (mkLevel b t) (b :: l)) as Hl1 by (eapply dseg_set_first; done).
    destruct (free_spec i (mkPool ns1 (freeHead pool)) F) as (pool' & -> & Hinv' & Hrl); try done.
    { eapply (pool_inv_agree [b] pool); try done; [apply agree_off_vupd; set_solver|].
      apply NoDup_app in Hnd as (_ & Hx & _). intros j Hj Ej; apply list_elem_of_singleton in Ej; subst j. apply (Hx b); [apply elem_of_cons; by left | done]. }
    assert (relinked (i :: b :: l) (nodes pool) (nodes pool')) as Hrl'.
    { eapply relinked_trans; [exact Hr1|]. eapply relinked_weaken; [|exact Hrl]; set_solver. }
    simpl; do 3 eexists; split_and!; [done | exact Hs1 | | done | apply Hrl' | auto with pool | apply Hrl'].
    eapply (level_rep_agree [i]); [by apply relinked_agree | | exact Hl1].
    intros j Hj Ej; apply list_elem_of_singleton in Ej; by subst j.
Qed.

(** What one level looks like before and after a sweep of it. *)
Record level_state (pool : OrderPool) (s : LadderSide) (ref : LevelRef) (lvl : Level)
    (Q : list entry) (F : list Z) : Prop := {
  ls_write : writable s ref;
  ls_deref : LadderSide.deref s ref = Ok lvl;
  ls_chain : level_rep (nodes pool) lvl (Q.*1);
  ls_orders : holds_orders (nodes pool) Q;
  ls_pool : pool_inv pool F;
  ls_nodup : NoDup (Q.*1 ++ F);
  ls_entries : Forall PriceTime.entry_ok Q
}.

Definition gone_refs (r : PriceTime.sweep_result) : list Z :=
  (fun e : entry => order_ref e.2) <$> PriceTime.gone r.
Definition fill_records (r : PriceTime.sweep_result) : list ItchOrderExecuted :=
  (fun f : Z * Z => OrderBook.execution f.1 f.2) <$> PriceTime.fills r.

(** Writing the reduced share count touches no link. *)
Definition with_shares (pool : OrderPool) (i : Z) (q : Z) : OrderPool :=
  mkPool (vupd (nodes pool) i (set_order (set_shares q (order (vnth (nodes pool) i))) (vnth (nodes pool) i)))
    (freeHead pool).

Lemma with_shares_links pool i q : links_same (nodes pool) (nodes (with_shares pool i q)).
Proof. split; [done|]. intros j; unfold with_shares; simpl; rewrite vnth_vupd; case_decide; by subst. Qed.

Lemma with_shares_order pool i q j :
  order (vnth (nodes (with_shares pool i q)) j) =
  (if decide (i = j) then set_shares q (order (vnth (nodes pool) i)) else order (vnth (nodes pool) j)).
Proof. unfold with_shares; simpl; rewrite vnth_vupd; by case_decide. Qed.

Lemma with_shares_inv pool i q F : pool_inv pool F -> i ∉ F -> pool_inv (with_shares pool i q) F.
Proof.
  intros Hinv Hi; apply (pool_inv_agree [i] pool); [apply agree_off_vupd; set_solver | apply Hinv | done | | done].
  set_solver.
Qed.

Lemma with_shares_agree X pool i q : i ∈ X -> agree_off X (nodes pool) (nodes (with_shares pool i q)).
Proof. intros Hi; by apply agree_off_vupd. Qed.

Lemma with_shares_len pool i q : vlen (nodes (with_shares pool i q)) = vlen (nodes pool).
Proof. done. Qed.

Lemma modify_shares pool i x :
  0 <= i < vlen (nodes pool) ->
  OrderPool.modify (fun n => set_order (set_shares (u32 (shares (order n) - x)) (order n)) n) i pool =
  Ok (with_shares pool i (u32 (shares (order (vnth (nodes pool) i)) - x))).
Proof. intros Hi; by rewrite modify_ok. Qed.

#[local] Opaque with_shares.

Lemma holds_orders_cons ns i o Q : holds_orders ns ((i, o) :: Q) <-> order (vnth ns i) = o /\ holds_orders ns Q.
Proof.
  unfold holds_orders; split; [intros H; split; intros; apply H; set_solver|].
  intros [H1 H2] j o' [[= -> ->]|Hin]%elem_of_cons; auto.
Qed.

(** A partial fill keeps the level: only the head order shrinks. *)
Lemma partial_state pool s ref lvl i o Q F q :
  level_state pool s ref lvl ((i, o) :: Q) F -> 0 < q < 2 ^ 32 ->
  level_state (with_shares pool i q) s ref lvl ((i, set_shares q o) :: Q) F.
Proof.
  intros [Hw Hd Hc Ho Hinv Hnd Hent] Hq. apply Forall_cons in Hent as [[Hp _] Hent].
  apply holds_orders_cons in Ho as [Hoi Ho].
  simpl in Hnd; pose proof Hnd as [Hi Hnd']%NoDup_cons; rewrite not_elem_of_app in Hi; destruct Hi as [HiQ HiF].
  split; try done.
  - eapply level_rep_links; [apply with_shares_links | done].
  - apply holds_orders_cons; split; [by rewrite with_shares_order, decide_True, Hoi|].
    intros j o' Hin; rewrite with_shares_order, decide_False; [auto|].
    intros ->; apply HiQ, list_elem_of_fmap; by exists (j, o').
  - by apply with_shares_inv.
  - constructor; [by split|done].
Qed.

(** A complete fill pops the head. *)
Lemma full_state pool s ref lvl i o Q F q :
  level_state pool s ref lvl ((i, o) :: Q) F ->
  exists pool' s' lvl',
    OrderBook.pop_head ref lvl (vnth (nodes (with_shares pool i q)) i) (with_shares pool i q) s = Ok (pool', s') /\
    LadderSide.store s ref lvl' = Ok s' /\ level_state pool' s' ref lvl' Q (i :: F) /\
    vlen (nodes pool') = vlen (nodes pool) /\ agree_off (i :: Q.*1) (nodes pool) (nodes pool').
Proof.
  intros [Hw Hd Hc Ho Hinv Hnd Hent]. apply Forall_cons in Hent as [_ Hent].
  apply holds_orders_cons in Ho as [Hoi Ho].
  simpl in Hnd; pose proof Hnd as [Hi Hnd']%NoDup_cons; rewrite not_elem_of_app in Hi; destruct Hi as [HiQ HiF].
  destruct (pop_head_spec ref lvl i (Q.*1) (with_shares pool i q) s F) as
    (pool' & s' & lvl' & E & Hst & Hl & Hinv' & Hlen & Hag & Hord); try done.
  { by apply with_shares_inv. }
  { eapply level_rep_links; [apply with_shares_links | done]. }
  destruct (writable_store _ _ _ _ Hw Hst) as (Hw' & Hd' & _ & _).
  exists pool', s', lvl'; split_and!; try done.
  - split; try done.
    + intros j o' Hin; rewrite Hord, with_shares_order, decide_False; [auto|].
      intros ->; apply HiQ, list_elem_of_fmap; by exists (j, o').
    + apply NoDup_app in Hnd' as (? & ? & ?); apply NoDup_app; split_and!; [done|set_solver|by apply NoDup_cons].
  - eapply agree_off_trans; [|exact Hag]. apply with_shares_agree; set_solver.
Qed.

(** The inner loop performs the sweep of the level, and always ends. *)
Lemma fill_level_spec ref fuel Q pool s lvl qty rem exe F :
  (length Q < fuel)%nat -> 0 <= qty < 2 ^ 32 -> level_state pool s ref lvl Q F ->
  let r := PriceTime.sweep (fun _ => true) qty Q in
  exists pool' s' lvl',
    OrderBook.fill_level fuel ref (OrderBook.mkLoop pool s qty rem exe) =
      Ok (OrderBook.mkLoop pool' s' (PriceTime.left r) (rem ++ gone_refs r) (exe ++ fill_records r)) /\
    level_state pool' s' ref lvl' (PriceTime.rest r) (reverse (PriceTime.gone r).*1 ++ F) /\
    vlen (nodes pool') = vlen (nodes pool) /\ agree_off (Q.*1) (nodes pool) (nodes pool') /\
    ((s' = s /\ links_same (nodes pool) (nodes pool') /\ (PriceTime.rest r).*1 = Q.*1) \/
     LadderSide.store s ref lvl' = Ok s').
Proof.
  revert Q pool s lvl qty rem exe F; induction fuel as [|fuel IH]; [lia|].
  intros Q pool s lvl qty rem exe F Hfuel Hq Hls. simpl OrderBook.fill_level.
  destruct (0 <? qty) eqn:Eq; simpl negb; cbv iota.
  2: { rewrite PriceTime.sweep_nil by done. exists pool, s, lvl; simpl. rewrite !app_nil_r.
       split_and!; try done; auto with pool. left; split_and!; try done. }
  rewrite (ls_deref _ _ _ _ _ _ Hls); simpl.
  pose proof (pi_fits _ _ (ls_pool _ _ _ _ _ _ Hls)) as Hfits.
  rewrite (level_rep_head _ _ _ Hfits (ls_chain _ _ _ _ _ _ Hls)).
  destruct Q as [|[i o] Q].
  { simpl. exists pool, s, lvl; rewrite !app_nil_r. split_and!; try done; auto with pool. left; split_and!; done. }
  simpl fmap; rewrite bool_decide_eq_false_2 by done. simpl.
  pose proof (ls_chain _ _ _ _ _ _ Hls) as (Hh & Hr & _); simpl in *. rewrite Hh.
  pose proof (ls_entries _ _ _ _ _ _ Hls) as [[_ Hsh] Hent]%Forall_cons; simpl in Hsh.
  pose proof (ls_orders _ _ _ _ _ _ Hls) as [Hoi _]%holds_orders_cons.
  unfold OrderPool.get; rewrite vget_ok by done; simpl. rewrite modify_shares by done; simpl. rewrite Hoi, Eq; simpl.
  set (x := qty `min` shares o). rewrite (u32_small (qty - x)), (u32_small (shares o - x)) by lia.
  rewrite vget_ok by (by rewrite with_shares_len); simpl.
  rewrite with_shares_order, decide_True, Hoi by done; simpl.
  replace (shares o - x =? 0) with (x =? shares o) by lia.
  destruct (x =? shares o) eqn:Ex; simpl.
  - destruct (full_state pool s ref lvl i o Q F (shares o - x) Hls)
      as (pool1 & s1 & lvl1 & -> & Hst & Hls1 & Hlen1 & Hag1). simpl.
    edestruct (IH Q pool1 s1 lvl1 (qty - x)) as (pool' & s' & lvl' & -> & Hls' & Hlen' & Hag' & Hcase);
      [lia | lia | exact Hls1 |].
    destruct (writable_store _ _ _ _ (ls_write _ _ _ _ _ _ Hls) Hst) as (_ & Hd1 & _ & Hsame).
    exists pool', s', lvl'. unfold gone_refs, fill_records; simpl.
    rewrite <-!app_assoc. rewrite reverse_cons, <-app_assoc; simpl. split_and!; try done.
    + congruence.
    + eapply agree_off_trans; [exact Hag1|]. eapply agree_off_weaken; [|exact Hag']; set_solver.
    + right. destruct Hcase as [(-> & _ & _)|Hst']; [|by rewrite <-Hsame].
      rewrite (ls_deref _ _ _ _ _ _ Hls') in Hd1; injection Hd1 as ->; done.
  - assert (Hx : 0 < shares o - x < 2 ^ 32) by lia.
    pose proof (partial_state _ _ _ _ _ _ _ _ _ Hls Hx) as Hls1.
    destruct fuel as [|fuel]; [lia|]. replace (qty - x) with 0 by lia. simpl.
    unfold gone_refs, fill_records; simpl; rewrite app_nil_r. do 3 eexists; split; [done|]. split; [exact Hls1|]. split_and!; try done.
    + apply with_shares_agree; set_solver.
    + left; split_and!; try done; apply with_shares_links.
Qed.

(** ** The matching loop *)

(** A side of the book represents the list [Q] of the contract. *)
Record side_rep (ns : vec PoolNode) (s : LadderSide) (isBid : bool) (Q : list entry) : Prop := {
  sr_bid : bid s = isBid;
  sr_ladder : ladder_rep ns s (PriceTime.idx_at Q);
  sr_orders : holds_orders ns Q;
  sr_ok : PriceTime.side_ok isBid Q
}.

Lemma ladder_rep_in_range ns s qa p i : ladder_rep ns s qa -> i ∈ qa p -> 0 <= i < vlen ns.
Proof.
  intros Hrep Hi. assert (Hp : qa p <> []) by (destruct (qa p); set_solver).
  destruct (live_ref _ _ _ _ Hrep Hp) as (ref & Href & _).
  destruct (deref_spec _ _ _ _ _ Hrep Href) as (lvl & _ & Hl). by eapply dseg_in_range.
Qed.

Lemma side_rep_in_range ns s isBid Q i : side_rep ns s isBid Q -> i ∈ Q.*1 -> 0 <= i < vlen ns.
Proof.
  intros Hs ([j o] & -> & Hin)%list_elem_of_fmap. eapply (ladder_rep_in_range _ _ _ (price o)); [apply Hs|].
  apply PriceTime.elem_of_idx_at; eauto.
Qed.

Lemma side_rep_agree X ns ns' s isBid Q :
  agree_off X ns ns' -> (forall i, i ∈ Q.*1 -> i ∉ X) -> side_rep ns s isBid Q -> side_rep ns' s isBid Q.
Proof.
  intros Hag HX Hs. pose proof (fun i => side_rep_in_range _ _ _ _ i Hs) as Hrange.
  destruct Hs as [Hb Hl Ho Hok]; split; try done.
  - eapply ladder_rep_agree; [done| |done]. intros p i (o & Hin & _)%PriceTime.elem_of_idx_at.
    apply HX, list_elem_of_fmap; by exists (i, o).
  - eapply holds_orders_agree; [done| |done]. intros i Hi; split; auto.
Qed.

(** The best level as the prefix of the represented list. *)
Lemma bestLevel_prefix ns s isBid Q :
  side_rep ns s isBid Q ->
  match LadderSide.bestLevel s with
  | None => Q = []
  | Some (ref, p) => exists Qp Qr, Q = Qp ++ Qr /\ Qp <> [] /\ (forall e, e ∈ Qp -> eprice e = p) /\
      (forall e, e ∈ Qr -> eprice e <> p) /\ ref_at s p ref /\ PriceTime.idx_at Q p = Qp.*1
  end.
Proof.
  intros [Hb Hl Ho [Hs He Hnd]]. pose proof (bestLevel_spec _ _ _ Hl) as Hbest; rewrite Hb in Hbest.
  destruct (LadderSide.bestLevel s) as [[ref p]|].
  - destruct Hbest as (Hlive & Href & Hall).
    destruct (PriceTime.best_prefix isBid p Q Hs) as (Qp & Qr & -> & H1 & H2).
    { intros e Hin; apply Hall. rewrite <-PriceTime.idx_at_nil. intros H; by apply (H e). }
    assert (E : PriceTime.idx_at (Qp ++ Qr) p = Qp.*1).
    { rewrite PriceTime.idx_at_app, PriceTime.idx_at_all by done.
      rewrite (proj1 (PriceTime.idx_at_nil p Qr)) by done. apply app_nil_r. }
    exists Qp, Qr; split_and!; try done. intros ->; by rewrite E in Hlive.
  - destruct Q as [|e Q]; [done|]. specialize (Hbest (eprice e)). by rewrite PriceTime.idx_at_cons_eq in Hbest.
Qed.

Lemma side_rep_level_state pool s isBid Q Qp Qr F ref p :
  side_rep (nodes pool) s isBid Q -> pool_inv pool F -> NoDup (Q.*1 ++ F) ->
  Q = Qp ++ Qr -> ref_at s p ref -> PriceTime.idx_at Q p = Qp.*1 ->
  exists lvl, level_state pool s ref lvl Qp F.
Proof.
  intros [Hb Hl Ho [Hs He Hnd]] Hinv Hnd' -> Href Ep.
  destruct (deref_spec _ _ _ _ _ Hl Href) as (lvl & Hd & Hlvl). rewrite Ep in Hlvl.
  exists lvl; split; try done.
  - intros lvl2. destruct (store_spec _ _ _ _ _ Hl Href lvl2) as (s' & ? & ? & _ & ? & ?); eauto 10.
  - intros i o Hin; apply Ho; set_solver.
  - rewrite fmap_app, <-app_assoc, !NoDup_app in Hnd'. rewrite NoDup_app. set_solver.
  - by apply Forall_app in He as [].
Qed.

(** One iteration of the outer loop: the best level is swept, and the side
    represents what the sweep left of it followed by the other levels. *)
Lemma match_level_spec pool s isBid Qp Qr F ref p qty rem exe :
  side_rep (nodes pool) s isBid (Qp ++ Qr) -> pool_inv pool F -> NoDup ((Qp ++ Qr).*1 ++ F) ->
  Qp <> [] -> (forall e, e ∈ Qp -> eprice e = p) -> (forall e, e ∈ Qr -> eprice e <> p) ->
  ref_at s p ref -> PriceTime.idx_at (Qp ++ Qr) p = Qp.*1 -> 0 < qty < 2 ^ 32 ->
  let r := PriceTime.sweep (fun _ => true) qty Qp in
  exists pool' s1 s',
    OrderBook.fill_level (OrderBook.loop_fuel pool) ref (OrderBook.mkLoop pool s qty rem exe) =
      Ok (OrderBook.mkLoop pool' s1 (PriceTime.left r) (rem ++ gone_refs r) (exe ++ fill_records r)) /\
    (exists lvl, LadderSide.deref s1 ref = Ok lvl /\
       (lvl_head lvl =? INVALID_INDEX) = bool_decide (PriceTime.rest r = [])) /\
    (if bool_decide (PriceTime.rest r = []) then LadderSide.removeEmptyBest p s1 else Ok s1) = Ok s' /\
    side_rep (nodes pool') s' isBid (PriceTime.rest r ++ Qr) /\
    pool_inv pool' (reverse (PriceTime.gone r).*1 ++ F) /\
    vlen (nodes pool') = vlen (nodes pool) /\ agree_off (Qp.*1) (nodes pool) (nodes pool').
Proof.
  intros Hside Hinv Hnd Hne Hp Hr Href Ep Hq r.
  destruct (side_rep_level_state _ _ _ _ _ _ _ _ _ Hside Hinv Hnd eq_refl Href Ep) as (lvl & Hls).
  assert (Hfuel : (length Qp < OrderBook.loop_fuel pool)%nat).
  { pose proof (ls_nodup _ _ _ _ _ _ Hls) as [Hn _]%NoDup_app.
    pose proof (NoDup_bounded_length (Qp.*1) (vlen (nodes pool)) Hn) as Hb. rewrite length_fmap in Hb.
    unfold OrderBook.loop_fuel. enough (Z.of_nat (length Qp) <= 0 `max` vlen (nodes pool)) by lia.
    apply Hb; intros i Hi; eapply side_rep_in_range; [done|]. rewrite fmap_app; set_solver. }
  destruct (fill_level_spec ref _ Qp pool s lvl qty rem exe F Hfuel ltac:(lia) Hls)
    as (pool' & s1 & lvl' & E & Hls' & Hlen & Hag & Hcase); fold r in E, Hls', Hcase.
  pose proof Hside as [Hb Hl Ho Hok].
  pose proof (pi_fits _ _ (ls_pool _ _ _ _ _ _ Hls')) as Hfits.
  assert (HRp : forall e, e ∈ PriceTime.rest r -> eprice e = p).
  { intros e (e' & Hin & _ & <-)%PriceTime.sweep_rest_elem; auto. }
  assert (Hidx : forall q, lupd (PriceTime.idx_at (Qp ++ Qr)) p (PriceTime.rest r).*1 q =
                           PriceTime.idx_at (PriceTime.rest r ++ Qr) q).
  { intros q; symmetry; by apply PriceTime.idx_at_replace. }
  assert (Hframe : forall q i, q <> p -> i ∈ PriceTime.idx_at (Qp ++ Qr) q -> i ∉ Qp.*1).
  { intros q i Hqp Hi Hi'; apply Hqp; rewrite <-Ep in Hi'; by eapply (lr_disj _ _ _ Hl). }
  assert (Hsub : forall i, i ∈ (PriceTime.rest r).*1 -> i ∈ Qp.*1).
  { intros i ([j o] & -> & (e' & Hin & Ei & _)%PriceTime.sweep_rest_elem)%list_elem_of_fmap; simpl in *.
    rewrite <-Ei; by apply list_elem_of_fmap_2. }
  assert (Hother : forall q i, q <> p -> i ∈ (PriceTime.rest r).*1 -> i ∉ PriceTime.idx_at (Qp ++ Qr) q).
  { intros q i Hqp Hi Hi'; eapply Hframe; eauto. }
  assert (Hnr : NoDup (PriceTime.rest r).*1) by (by pose proof (ls_nodup _ _ _ _ _ _ Hls') as [? _]%NoDup_app).
  assert (Hlive : PriceTime.idx_at (Qp ++ Qr) p <> []) by (rewrite Ep; by destruct Qp).
  assert (Hok' : PriceTime.side_ok isBid (PriceTime.rest r ++ Qr)).
  { pose proof (PriceTime.sweep_ok (fun q => q =? p) isBid qty (Qp ++ Qr) ltac:(lia) Hok) as H.
    rewrite PriceTime.sweep_app in H; [| |lia|].
    - rewrite (PriceTime.sweep_ext _ (fun _ => true)) in H by (intros e He; rewrite (Hp e He); lia). fold r in H.
      destruct (PriceTime.rest r) eqn:Er; [|done]. simpl. by apply PriceTime.side_ok_app in Hok as [_ ?].
    - destruct Hok as [_ He _]; by apply Forall_app in He as [].
    - apply Forall_forall; intros e He; rewrite (Hp e He); lia. }
  assert (Hhold : holds_orders (nodes pool') (PriceTime.rest r ++ Qr)).
  { intros i o [Hin|Hin]%elem_of_app; [by apply (ls_orders _ _ _ _ _ _ Hls')|].
    eapply (holds_orders_agree (Qp.*1) (nodes pool) _ Qr); [done | | |exact Hin].
    - intros j Hj; split; [|eapply side_rep_in_range; [done|]; rewrite fmap_app; set_solver].
      rewrite fmap_app, <-app_assoc, NoDup_app in Hnd; set_solver.
    - intros j o' Hj; apply Ho; set_solver. }
  pose proof (level_rep_head _ _ _ Hfits (ls_chain _ _ _ _ _ _ Hls')) as Hhead.
  assert (Hbd : bool_decide ((PriceTime.rest r).*1 = []) = bool_decide (PriceTime.rest r = [])).
  { apply bool_decide_ext; split; [apply fmap_nil_inv | by intros ->]. }
  rewrite Hbd in Hhead. exists pool', s1.
  assert (Hs' : exists s',
    (if bool_decide (PriceTime.rest r = []) then LadderSide.removeEmptyBest p s1 else Ok s1) = Ok s' /\
    bid s' = isBid /\ ladder_rep (nodes pool') s' (lupd (PriceTime.idx_at (Qp ++ Qr)) p (PriceTime.rest r).*1)).
  { destruct Hcase as [(-> & Hlinks & Hsame)|Hst].
    - rewrite bool_decide_eq_false_2 by (intros Er; rewrite Er in Hsame; by destruct Qp).
      exists s; split_and!; try done. eapply ladder_rep_links; [exact Hlinks|].
      eapply ladder_rep_proper; [|exact Hl]. intros q; rewrite Hsame, <-Ep.
      destruct (Z.eq_dec q p) as [->|]; [by rewrite lupd_eq | by rewrite lupd_ne].
    - destruct (decide (PriceTime.rest r = [])) as [Er|Er];
        [rewrite bool_decide_eq_true_2 by done | rewrite bool_decide_eq_false_2 by done].
      + destruct (drain_rep _ _ _ _ _ Hl Href (nodes pool') (PriceTime.rest r).*1 (Qp.*1) lvl' s1)
          as (s' & -> & Hb' & Hrep); try done; [apply (ls_chain _ _ _ _ _ _ Hls') | by rewrite Er |].
        exists s'; split_and!; try done; [congruence|]. by rewrite Er.
      + exists s1; split_and!; [done | |].
        * destruct (writable_store _ _ _ _ (ls_write _ _ _ _ _ _ Hls) Hst) as (_ & _ & -> & _); done.
        * eapply (store_rep _ _ _ _ _ Hl Href (nodes pool') _ (Qp.*1) lvl'); try done; [exact (ls_chain _ _ _ _ _ _ Hls') |].
          intros En; by apply fmap_nil_inv in En. }
  destruct Hs' as (s' & Hs' & Hb' & Hrep). exists s'; split_and!; try done.
  - exists lvl'; split; [apply Hls' | done].
  - split; try done. eapply ladder_rep_proper; [|exact Hrep]. intros q; symmetry; apply Hidx.
  - apply Hls'.
Qed.

(** The outer loop performs the whole sweep, and always ends. *)
Lemma match_loop_spec isBid refuse fuel Q pool s qty rem exe F :
  (length Q < fuel)%nat -> 0 <= qty < 2 ^ 32 ->
  side_rep (nodes pool) s isBid Q -> pool_inv pool F -> NoDup (Q.*1 ++ F) ->
  let r := PriceTime.sweep (fun p => negb (refuse p)) qty Q in
  exists pool' s',
    OrderBook.match_loop fuel refuse (OrderBook.mkLoop pool s qty rem exe) =
      Ok (OrderBook.mkLoop pool' s' (PriceTime.left r) (rem ++ gone_refs r) (exe ++ fill_records r)) /\
    side_rep (nodes pool') s' isBid (PriceTime.rest r) /\
    pool_inv pool' (reverse (PriceTime.gone r).*1 ++ F) /\
    vlen (nodes pool') = vlen (nodes pool) /\ agree_off (Q.*1) (nodes pool) (nodes pool').
Proof.
  revert Q pool s qty rem exe F; induction fuel as [|fuel IH]; [lia|].
  intros Q pool s qty rem exe F Hfuel Hq Hside Hinv Hnd. cbn [OrderBook.match_loop OrderBook.l_shares OrderBook.l_side OrderBook.l_pool].
  assert (Hstop : forall r, r = PriceTime.Sweep qty [] [] Q -> exists pool' s',
    Ok (OrderBook.mkLoop pool s qty rem exe) =
      Ok (OrderBook.mkLoop pool' s' (PriceTime.left r) (rem ++ gone_refs r) (exe ++ fill_records r)) /\
    side_rep (nodes pool') s' isBid (PriceTime.rest r) /\
    pool_inv pool' (reverse (PriceTime.gone r).*1 ++ F) /\
    vlen (nodes pool') = vlen (nodes pool) /\ agree_off (Q.*1) (nodes pool) (nodes pool')).
  { intros r ->; exists pool, s; unfold gone_refs, fill_records; simpl.
    rewrite !app_nil_r. by split_and!; auto with pool. }
  destruct (0 <? qty) eqn:Eq; simpl negb; cbv iota; [|by apply Hstop, PriceTime.sweep_nil].
  pose proof (bestLevel_prefix _ _ _ _ Hside) as Hbest.
  destruct (LadderSide.bestLevel s) as [[ref p]|]; [|subst Q; by apply Hstop].
  destruct Hbest as (Qp & Qr & -> & Hne & Hp & Hr & Href & Ep).
  destruct (refuse p) eqn:Erf.
  { apply Hstop. destruct Qp as [|[i o] Qp]; [done|]. simpl.
    pose proof (Hp (i, o) ltac:(set_solver)) as Ho; simpl in Ho. by rewrite Ho, Erf, andb_false_r. }
  destruct (match_level_spec pool s isBid Qp Qr F ref p qty rem exe)
    as (pool1 & s1 & s2 & E & (lvl & Hd & Hh) & Hdrain & Hside1 & Hinv1 & Hlen1 & Hag1); try done; [lia|].
  rewrite E; simpl. rewrite Hd; simpl. rewrite Hh. clear E Hd Hh.
  set (r1 := PriceTime.sweep (fun _ => true) qty Qp) in *.
  assert (HQp : Forall PriceTime.entry_ok Qp).
  { destruct (sr_ok _ _ _ _ Hside) as [_ He _]; by apply Forall_app in He as []. }
  assert (Hacc : Forall (fun e => negb (refuse (eprice e)) = true) Qp).
  { apply Forall_forall; intros e He; by rewrite (Hp e He), Erf. }
  rewrite (PriceTime.sweep_app (fun p => negb (refuse p))) by (done || lia).
  rewrite (PriceTime.sweep_ext _ (fun _ => true) qty Qp) by (intros e He; by rewrite (Hp e He), Erf). fold r1.
  assert (Hleft : 0 <= PriceTime.left r1 <= qty) by (apply PriceTime.sweep_left; [done|lia]).
  assert (Hsplit : (Qp ++ Qr).*1 ++ F ≡ₚ (PriceTime.rest r1 ++ Qr).*1 ++ (reverse (PriceTime.gone r1).*1 ++ F)).
  { rewrite !fmap_app, (PriceTime.sweep_indices (fun _ => true) qty Qp). fold r1.
    rewrite (reverse_Permutation (PriceTime.gone r1).*1). solve_Permutation. }
  assert (Hag : agree_off ((Qp ++ Qr).*1) (nodes pool) (nodes pool1)).
  { eapply agree_off_weaken; [|exact Hag1]. rewrite fmap_app; set_solver. }
  rewrite Hsplit in Hnd. destruct (PriceTime.rest r1) as [|e R] eqn:ER.
  - rewrite bool_decide_eq_true_2 in Hdrain |- * by done. rewrite Hdrain; simpl.
    simpl in Hside1, Hnd.
    destruct (IH Qr pool1 s2 (PriceTime.left r1) (rem ++ gone_refs r1) (exe ++ fill_records r1)
      (reverse (PriceTime.gone r1).*1 ++ F)) as (pool' & s' & -> & Hside' & Hinv' & Hlen' & Hag');
      [rewrite length_app in Hfuel; destruct Qp as [|e0 Qp]; [done | simpl in Hfuel; lia]
      | lia | exact Hside1 | exact Hinv1 | done |].
    exists pool', s'; simpl. unfold gone_refs, fill_records; simpl. rewrite !fmap_app, <-!app_assoc.
    split_and!; try done.
    + rewrite reverse_app, <-app_assoc; done.
    + congruence.
    + eapply (agree_off_trans _ _ (nodes pool1)); eapply agree_off_weaken; [|exact Hag1| |exact Hag']; set_solver.
  - rewrite bool_decide_eq_false_2 in Hdrain |- * by done. injection Hdrain as ->.
    assert (H0 : PriceTime.left r1 = 0).
    { apply PriceTime.sweep_rest_nil; [done | lia | by apply Forall_forall | fold r1; by rewrite ER]. }
    destruct fuel as [|fuel]; [destruct Qp as [|e0 Qp]; [done | simpl in Hfuel; lia]|].
    simpl OrderBook.match_loop. rewrite H0; simpl. exists pool1, s2; split_and!; try done; by rewrite H0.
Qed.

(** ** The book *)

(** Each side holds orders of its own indicator. *)
Definition sides_ok (B : PriceTime.abook) : Prop :=
  (forall i o, (i, o) ∈ PriceTime.aBids B -> buySellIndicator o = chr_B) /\
  (forall i o, (i, o) ∈ PriceTime.aAsks B -> buySellIndicator o = chr_S).

(** The two sides and the free list [F] own disjoint slots of the pool. *)
Record book_rep (pool : OrderPool) (book : OrderBook) (B : PriceTime.abook) (F : list Z) : Prop := {
  br_bids : side_rep (nodes pool) (bids book) true (PriceTime.aBids B);
  br_asks : side_rep (nodes pool) (asks book) false (PriceTime.aAsks B);
  br_pool : pool_inv pool F;
  br_nodup : NoDup (PriceTime.book_idxs B ++ F);
  br_sides : sides_ok B
}.

(** Both handlers are one procedure over the order's own and the opposite
    side. *)
Definition match_and_rest (isBuy : bool) (o : Order) (rem : list Z) (exe : list ItchOrderExecuted)
    (pool : OrderPool) (own opp : LadderSide) : result (HandleOut * OrderPool * LadderSide * LadderSide) :=
  st ← OrderBook.match_loop (OrderBook.loop_fuel pool)
         (fun p => negb (PriceTime.accepts isBuy (price o) p))
         (OrderBook.mkLoop pool opp (shares o) rem exe);
  let o := set_shares (OrderBook.l_shares st) o in
  if 0 <? shares o then
    '(idx, pool) ← OrderPool.allocate o (OrderBook.l_pool st);
    '(pool, own) ← LadderSide.add pool (price o) idx own;
    Ok (mkOut o idx (OrderBook.l_removed st) (OrderBook.l_executed st), pool, own, OrderBook.l_side st)
  else
    Ok (mkOut o INVALID_INDEX (OrderBook.l_removed st) (OrderBook.l_executed st),
        OrderBook.l_pool st, own, OrderBook.l_side st).

Lemma match_loop_ext f g fuel st :
  (forall p, f p = g p) -> OrderBook.match_loop fuel f st = OrderBook.match_loop fuel g st.
Proof.
  intros H; revert st; induction fuel as [|fuel IH]; intros st; [done|]. cbn [OrderBook.match_loop].
  case_match; [done|]. destruct (LadderSide.bestLevel _) as [[ref p]|]; [|done]. rewrite H. case_match; [done|].
  destruct (OrderBook.fill_level _ _ _); cbn -[OrderBook.match_loop]; [|done]. destruct (LadderSide.deref _ _); cbn -[OrderBook.match_loop]; [|done].
  case_match; [|done]. destruct (LadderSide.removeEmptyBest _ _); cbn -[OrderBook.match_loop]; [apply IH | done].
Qed.

Lemma handleBuyOrder_eq o rem exe pool book :
  OrderBook.handleBuyOrder o rem exe pool book =
  '(out, pool, own, opp) ← match_and_rest true o rem exe pool (bids book) (asks book);
  Ok (out, pool, mkBook own opp).
Proof.
  unfold OrderBook.handleBuyOrder, match_and_rest.
  rewrite (match_loop_ext _ (fun p => negb (PriceTime.accepts true (price o) p))) by (intros p; simpl; lia).
  destruct (OrderBook.match_loop _ _ _) as [st|]; simpl; [|done]. case_match; simpl; [|done].
  destruct (OrderPool.allocate _ _) as [[idx pool']|]; simpl; [|done].
  by destruct (LadderSide.add _ _ _ _) as [[pool'' s]|].
Qed.

Lemma handleSellOrder_eq o rem exe pool book :
  OrderBook.handleSellOrder o rem exe pool book =
  '(out, pool, own, opp) ← match_and_rest false o rem exe pool (asks book) (bids book);
  Ok (out, pool, mkBook opp own).
Proof.
  unfold OrderBook.handleSellOrder, match_and_rest.
  rewrite (match_loop_ext _ (fun p => negb (PriceTime.accepts false (price o) p))) by (intros p; simpl; lia).
  destruct (OrderBook.match_loop _ _ _) as [st|]; simpl; [|done]. case_match; simpl; [|done].
  destruct (OrderPool.allocate _ _) as [[idx pool']|]; simpl; [|done].
  by destruct (LadderSide.add _ _ _ _) as [[pool'' s]|].
Qed.

(** An order as the parser produces it. *)
Definition order_ok (o : Order) : Prop := is_price (price o) /\ 0 <= shares o < 2 ^ 32.

(** Resting an order: a slot is allocated and appended to its level. *)
Lemma rest_spec pool s isBid Q F o :
  side_rep (nodes pool) s isBid Q -> pool_inv pool F -> pool_room pool F -> NoDup (Q.*1 ++ F) ->
  is_price (price o) -> 0 < shares o < 2 ^ 32 ->
  let idx := alloc_slot pool F in
  exists pool1 pool' s',
    OrderPool.allocate o pool = Ok (idx, pool1) /\ LadderSide.add pool1 (price o) idx s = Ok (pool', s') /\
    side_rep (nodes pool') s' isBid (PriceTime.enqueue isBid (idx, o) Q) /\
    pool_inv pool' (tail F) /\ agree_off (idx :: Q.*1) (nodes pool) (nodes pool') /\
    vlen (nodes pool') = (if F is [] then vlen (nodes pool) + 1 else vlen (nodes pool)) /\
    0 <= idx < vlen (nodes pool').
Proof.
  intros Hside Hinv Hroom Hnd Hp Hsh idx.
  destruct (allocate_spec o pool F Hinv Hroom) as (pool1 & E1 & Hinv1 & Hag1 & Hr1 & Hn1 & Hlen1).
  fold idx in E1, Hag1, Hr1, Hn1.
  assert (HidxQ : idx ∉ Q.*1).
  { intros Hin; unfold idx, alloc_slot in *; destruct F as [|i F].
    - apply (side_rep_in_range _ _ _ _ _ Hside) in Hin; lia.
    - apply NoDup_app in Hnd as (_ & Hx & _); apply (Hx i Hin); set_solver. }
  assert (HidxF : idx ∉ tail F).
  { unfold idx, alloc_slot; destruct F as [|i F]; simpl; [set_solver|].
    apply NoDup_app in Hnd as (_ & _ & []%NoDup_cons); done. }
  assert (Hside1 : side_rep (nodes pool1) s isBid Q) by (eapply side_rep_agree; [done|set_solver|done]).
  destruct (add_spec pool1 s (PriceTime.idx_at Q) (price o) idx) as (ns' & s' & E2 & Hrep & Hrl & Hb);
    [apply Hinv1 | apply Hside1 | done | done | |].
  { intros q (o' & Hin & _)%PriceTime.elem_of_idx_at; apply HidxQ, list_elem_of_fmap; by exists (idx, o'). }
  assert (Hsub : forall i, i ∈ idx :: PriceTime.idx_at Q (price o) -> i ∈ idx :: Q.*1).
  { intros i [->|(o' & Hin & _)%PriceTime.elem_of_idx_at]%elem_of_cons; [set_solver|].
    apply elem_of_cons; right; apply list_elem_of_fmap; by exists (i, o'). }
  exists pool1, (mkPool ns' (freeHead pool1)), s'; split_and!; try done.
  - destruct Hside as [Hbid Hl Ho Hok]. split; simpl.
    + rewrite Hb; done.
    + eapply ladder_rep_proper; [|exact Hrep]. intros q. apply (PriceTime.idx_at_enqueue isBid (idx, o)), Hok.
    + intros i o' Hin; rewrite (rl_order _ _ _ Hrl). rewrite PriceTime.enqueue_perm in Hin.
      apply elem_of_cons in Hin as [[= -> ->]|Hin]; [by rewrite Hn1|]. by apply (sr_orders _ _ _ _ Hside1).
    + by apply PriceTime.enqueue_ok.
  - apply (pool_inv_agree (idx :: Q.*1) pool1); simpl; try done.
    + eapply agree_off_weaken; [exact Hsub|]. by apply relinked_agree.
    + unfold pool_fits; rewrite (rl_len _ _ _ Hrl); apply Hinv1.
    + intros i Hi [->|HiQ]%elem_of_cons; [done|]. apply NoDup_app in Hnd as (_ & Hx & _).
      apply (Hx i HiQ); destruct F; [by apply elem_of_nil in Hi | simpl in Hi; set_solver].
  - eapply agree_off_trans; [eapply agree_off_weaken; [|exact Hag1]; set_solver|].
    eapply agree_off_weaken; [exact Hsub|]. by apply relinked_agree.
  - simpl; rewrite (rl_len _ _ _ Hrl); done.
  - simpl; rewrite ?(rl_len _ _ _ Hrl); lia.
  - simpl; rewrite ?(rl_len _ _ _ Hrl); lia.
Qed.

(** The slots added at the end of the arena by a call. *)
Definition grown (pool pool' : OrderPool) : list Z :=
  seqZ (vlen (nodes pool)) (vlen (nodes pool') - vlen (nodes pool)).

Lemma grown_none pool pool' : vlen (nodes pool') = vlen (nodes pool) -> grown pool pool' = [].
Proof. intros E; unfold grown; by rewrite E, Z.sub_diag. Qed.

Lemma grown_one pool pool' :
  vlen (nodes pool') = vlen (nodes pool) + 1 -> grown pool pool' = [vlen (nodes pool)].
Proof. intros E; unfold grown; rewrite E. by replace (_ + 1 - _) with 1 by lia. Qed.

Lemma match_and_rest_spec isBuy o rem exe pool own opp Qo Qx F :
  side_rep (nodes pool) own isBuy Qo -> side_rep (nodes pool) opp (negb isBuy) Qx ->
  pool_inv pool F -> NoDup (Qo.*1 ++ Qx.*1 ++ F) -> order_ok o -> pool_room pool F ->
  let r := PriceTime.sweep (PriceTime.accepts isBuy (price o)) (shares o) Qx in
  let idx := alloc_slot pool (reverse (PriceTime.gone r).*1 ++ F) in
  exists pool' own' opp' Qo' F',
    match_and_rest isBuy o rem exe pool own opp =
      Ok (mkOut (set_shares (PriceTime.left r) o) (if 0 <? PriceTime.left r then idx else INVALID_INDEX)
            (rem ++ gone_refs r) (exe ++ fill_records r), pool', own', opp') /\
    Qo' = (if 0 <? PriceTime.left r
           then PriceTime.enqueue isBuy (idx, set_shares (PriceTime.left r) o) Qo else Qo) /\
    side_rep (nodes pool') own' isBuy Qo' /\ side_rep (nodes pool') opp' (negb isBuy) (PriceTime.rest r) /\
    pool_inv pool' F' /\
    Qo'.*1 ++ (PriceTime.rest r).*1 ++ F' ≡ₚ Qo.*1 ++ Qx.*1 ++ F ++ grown pool pool' /\
    agree_off (Qo.*1 ++ Qx.*1 ++ F) (nodes pool) (nodes pool').
Proof.
  intros Hown Hopp Hinv Hnd [Hp Hsh] Hroom r idx.
  assert (Hfuel : (length Qx < OrderBook.loop_fuel pool)%nat).
  { apply NoDup_app in Hnd as (_ & _ & [Hn _]%NoDup_app).
    pose proof (NoDup_bounded_length (Qx.*1) (vlen (nodes pool)) Hn) as Hb. rewrite length_fmap in Hb.
    unfold OrderBook.loop_fuel. enough (Z.of_nat (length Qx) <= 0 `max` vlen (nodes pool)) by lia.
    apply Hb; intros i Hi; by eapply side_rep_in_range. }
  assert (Hndx : NoDup (Qx.*1 ++ F)) by (by apply NoDup_app in Hnd as (_ & _ & ?)).
  destruct (match_loop_spec (negb isBuy) (fun p => negb (PriceTime.accepts isBuy (price o) p)) _ Qx pool opp
    (shares o) rem exe F Hfuel Hsh Hopp Hinv Hndx) as (pool1 & opp' & E & Hopp' & Hinv1 & Hlen1 & Hag1).
  rewrite (PriceTime.sweep_ext _ (PriceTime.accepts isBuy (price o))) in E, Hopp', Hinv1
    by (intros; by rewrite negb_involutive). fold r in E, Hopp', Hinv1.
  set (F1 := reverse (PriceTime.gone r).*1 ++ F) in *.
  assert (Hsplit : Qx.*1 ++ F ≡ₚ (PriceTime.rest r).*1 ++ F1).
  { unfold F1. rewrite (PriceTime.sweep_indices (PriceTime.accepts isBuy (price o)) (shares o) Qx).
    fold r. rewrite (reverse_Permutation (PriceTime.gone r).*1). solve_Permutation. }
  assert (Hroom1 : pool_room pool1 F1).
  { destruct Hroom as [HF|Hv]; [left|right; by rewrite Hlen1].
    unfold F1; intros [_ HF']%app_eq_nil; done. }
  clearbody F1.
  assert (Hown1 : side_rep (nodes pool1) own isBuy Qo).
  { eapply side_rep_agree; [done| |done]. apply NoDup_app in Hnd as (_ & Hx & _); set_solver. }
  unfold match_and_rest. rewrite E; cbn -[OrderBook.match_loop].
  assert (Hleft : 0 <= PriceTime.left r <= shares o).
  { apply PriceTime.sweep_left; [apply Hopp | lia]. }
  rewrite Hsplit in Hnd. destruct (0 <? PriceTime.left r) eqn:El.
  - pose proof Hnd as (HnQ & HxQ & (HnR & HxR & HnF)%NoDup_app)%NoDup_app.
    destruct (rest_spec pool1 own isBuy Qo F1 (set_shares (PriceTime.left r) o))
      as (pool2 & pool' & own' & E1 & E2 & Hown' & Hinv' & Hag' & Hlen' & Hr'); simpl; try done; try lia.
    { apply NoDup_app; split_and!; [done|set_solver|done]. }
    assert (Hidx : alloc_slot pool1 F1 = idx) by (unfold alloc_slot, idx; by rewrite Hlen1).
    rewrite Hidx in *. simpl in E2. rewrite E1; simpl. rewrite E2; simpl.
    assert (HF' : idx :: tail F1 ≡ₚ F1 ++ grown pool pool').
    { unfold idx, alloc_slot. destruct F1 as [|i F2] eqn:EF; simpl in *.
      - rewrite grown_one by lia; done.
      - rewrite grown_none by lia. by rewrite app_nil_r. }
    assert (Hx' : forall i, i ∈ (PriceTime.rest r).*1 -> i ∉ idx :: Qo.*1).
    { intros i Hi Hi'. apply elem_of_cons in Hi' as [->|Hi']; [|apply (HxQ i Hi'); set_solver].
      unfold idx, alloc_slot in Hi; destruct F1 as [|j F1]; simpl in *; [|by apply (HxR j Hi); set_solver].
      apply (side_rep_in_range _ _ _ _ _ Hopp') in Hi; lia. }
    do 5 eexists; split_and!; [done | done | exact Hown' | | exact Hinv' | |].
    + eapply side_rep_agree; [exact Hag' | exact Hx' | done].
    + rewrite PriceTime.enqueue_perm. rewrite (assoc_L app (Qx.*1)), Hsplit, <-app_assoc, <-HF'. simpl.
      solve_Permutation.
    + assert (Hag0 : agree_off (Qo.*1 ++ Qx.*1 ++ F) (nodes pool) (nodes pool1)).
      { eapply agree_off_weaken; [|exact Hag1]; set_solver. }
      destruct Hag0 as [L0 H0], Hag' as [L1 H1]. split; [lia|]. intros i Hi Hni.
      rewrite H1, H0; [done | done | done | lia |]. intros [->|HiQ]%elem_of_cons; [|set_solver].
      assert (idx ∈ F1 ++ grown pool pool') as [Hin|Hin]%elem_of_app by (rewrite <-HF'; set_solver).
      * apply Hni. rewrite Hsplit. set_solver.
      * unfold grown in Hin; apply elem_of_seqZ in Hin; lia.
  - assert (PriceTime.left r = 0) as Hz by lia.
    do 5 eexists; split_and!; [done | done | exact Hown1 | done | exact Hinv1 | |].
    + rewrite grown_none, app_nil_r by done. by rewrite Hsplit.
    + eapply agree_off_weaken; [|exact Hag1]; set_solver.
Qed.

Lemma submit_sides_ok (isBuy : bool) o idx B :
  sides_ok B -> buySellIndicator o = (if isBuy then chr_B else chr_S) ->
  sides_ok (PriceTime.submit isBuy o idx B).2.
Proof.
  intros [Hb Ha] Ho. unfold PriceTime.submit, PriceTime.own, PriceTime.opp.
  split; destruct isBuy; simpl; intros i x.
  1, 4: case_match; [rewrite PriceTime.enqueue_perm; intros [[= -> ->]|Hin]%elem_of_cons; [done|eauto] | eauto].
  all: intros (o' & Hin & ->)%PriceTime.sweep_rest_fields; simpl; eauto.
Qed.

(** [handleOrder] implements [PriceTime.submit]. *)
Lemma handleOrder_spec (isBuy : bool) o rem exe pool book B F :
  book_rep pool book B F -> order_ok o -> pool_room pool F ->
  buySellIndicator o = (if isBuy then chr_B else chr_S) ->
  let r := PriceTime.sweep (PriceTime.accepts isBuy (price o)) (shares o) (PriceTime.opp isBuy B) in
  let idx := alloc_slot pool (reverse (PriceTime.gone r).*1 ++ F) in
  let B' := (PriceTime.submit isBuy o idx B).2 in
  exists pool' book' F',
    OrderBook.handleOrder o rem exe pool book =
      Ok (mkOut (set_shares (PriceTime.left r) o) (if 0 <? PriceTime.left r then idx else INVALID_INDEX)
            (rem ++ gone_refs r) (exe ++ fill_records r), pool', book') /\
    book_rep pool' book' B' F' /\
    PriceTime.book_idxs B' ++ F' ≡ₚ PriceTime.book_idxs B ++ F ++ grown pool pool' /\
    agree_off (PriceTime.book_idxs B ++ F) (nodes pool) (nodes pool').
Proof.
  intros [Hb Ha Hinv Hnd Hsides] Hok Hroom Hind r idx B'.
  pose proof (submit_sides_ok isBuy o idx B Hsides Hind) as Hsides'. fold B' in Hsides'.
  unfold PriceTime.book_idxs in *. rewrite <-app_assoc in Hnd.
  assert (Hgrown : forall L pool', L ≡ₚ (PriceTime.aBids B).*1 ++ (PriceTime.aAsks B).*1 ++ F ++ grown pool pool' -> NoDup L).
  { intros L pool' ->. rewrite !app_assoc. apply NoDup_app; split_and!; [by rewrite <-!app_assoc| |apply NoDup_seqZ].
    intros i Hi Hg. unfold grown in Hg; apply elem_of_seqZ in Hg.
    enough (0 <= i < vlen (nodes pool)) by lia. rewrite !elem_of_app in Hi.
    destruct Hi as [[Hi|Hi]|Hi]; [exact (side_rep_in_range _ _ _ _ _ Hb Hi) | exact (side_rep_in_range _ _ _ _ _ Ha Hi) |].
    destruct Hinv as [_ Hfree _]; exact (fseg_in_range _ _ _ _ Hfree Hi). }
  unfold OrderBook.handleOrder. destruct isBuy; rewrite Hind; simpl.
  - rewrite handleBuyOrder_eq.
    destruct (match_and_rest_spec true o rem exe pool (bids book) (asks book) (PriceTime.aBids B)
      (PriceTime.aAsks B) F) as (pool' & own' & opp' & Qo' & F' & E & EQ & Hown & Hopp & Hinv' & Hperm & Hag); try done.
    rewrite E; simpl. exists pool', (mkBook own' opp'), F'. subst Qo'.
    split_and!; [done | split; simpl; try done | | by rewrite <-app_assoc].
    + unfold PriceTime.book_idxs; simpl. rewrite <-app_assoc. exact (Hgrown _ _ Hperm).
    + unfold B'; simpl. rewrite <-!app_assoc. exact Hperm.
  - rewrite handleSellOrder_eq.
    destruct (match_and_rest_spec false o rem exe pool (asks book) (bids book) (PriceTime.aAsks B)
      (PriceTime.aBids B) F) as (pool' & own' & opp' & Qo' & F' & E & EQ & Hown & Hopp & Hinv' & Hperm & Hag); try done.
    { by rewrite (Permutation_app_swap_app (PriceTime.aAsks B).*1). }
    rewrite E; simpl. exists pool', (mkBook opp' own'), F'. subst Qo'.
    rewrite (Permutation_app_swap_app (PriceTime.aAsks B).*1), (Permutation_app_swap_app _ (_.*1)) in Hperm.
    split_and!; [done | split; simpl; try done | |].
    + unfold PriceTime.book_idxs; simpl. rewrite <-app_assoc. exact (Hgrown _ _ Hperm).
    + unfold B'; simpl. rewrite <-!app_assoc. exact Hperm.
    + eapply agree_off_weaken; [|exact Hag]; set_solver.
Qed.

(** Removing one order from a side. *)
Lemma side_remove_spec pool s isBid Q i o :
  side_rep (nodes pool) s isBid Q -> pool_fits (nodes pool) -> (i, o) ∈ Q ->
  exists ns' s', LadderSide.remove pool (price o) i s = Ok (mkPool ns' (freeHead pool), s') /\
    side_rep ns' s' isBid (PriceTime.cancel i Q) /\ relinked (PriceTime.cancel i Q).*1 (nodes pool) ns'.
Proof.
  intros Hside Hf Hin. destruct (list_elem_of_split _ _ Hin) as (Q1 & Q2 & ->).
  pose proof (PriceTime.so_nodup _ _ (sr_ok _ _ _ _ Hside)) as Hnd.
  rewrite (PriceTime.cancel_split _ _ _ _ Hnd). destruct Hside as [Hb Hl Ho Hok].
  set (p := price o) in *.
  assert (Eq : PriceTime.idx_at (Q1 ++ (i, o) :: Q2) p = PriceTime.idx_at Q1 p ++ i :: PriceTime.idx_at Q2 p).
  { rewrite PriceTime.idx_at_app. f_equal. apply (PriceTime.idx_at_cons_eq (i, o)). }
  destruct (remove_spec pool s _ p i _ _ Hf Hl Eq) as (ns' & s' & -> & Hrep & Hrl & Hb').
  exists ns', s'; split; [done|]; split.
  - split; [congruence | | | by apply PriceTime.side_ok_remove in Hok].
    + eapply ladder_rep_proper; [|exact Hrep]. intros q. rewrite <-PriceTime.idx_at_app.
      destruct (Z.eq_dec q p) as [->|Hq]; [by rewrite lupd_eq|].
      rewrite lupd_ne, !PriceTime.idx_at_app by done. f_equal. symmetry.
      apply (PriceTime.idx_at_cons_ne q (i, o)). done.
    + intros j x Hj; rewrite (rl_order _ _ _ Hrl). apply Ho; set_solver.
  - eapply relinked_weaken; [|exact Hrl]. rewrite <-PriceTime.idx_at_app.
    intros j (x & Hj & _)%PriceTime.elem_of_idx_at; apply list_elem_of_fmap; by exists (j, x).
Qed.

Lemma cancel_subset i Q j : j ∈ (PriceTime.cancel i Q).*1 -> (j ∈ Q.*1) /\ j <> i.
Proof.
  intros (e & -> & [Hne Hin]%list_elem_of_filter)%list_elem_of_fmap; split; [|done].
  by apply list_elem_of_fmap_2.
Qed.

Lemma cancel_absent i Q : (i ∉ Q.*1) -> PriceTime.cancel i Q = Q.
Proof. intros Hi; apply filter_all; intros e He Ei. apply Hi; rewrite <-Ei; by apply list_elem_of_fmap_2. Qed.

Lemma cancel_perm i o Q : (i, o) ∈ Q -> NoDup (Q.*1) -> Q.*1 ≡ₚ i :: (PriceTime.cancel i Q).*1.
Proof.
  intros (Q1 & Q2 & ->)%list_elem_of_split Hnd. rewrite (PriceTime.cancel_split _ _ _ _ Hnd).
  rewrite !fmap_app; simpl. solve_Permutation.
Qed.

(** [removeByIndex] implements [PriceTime.book_cancel]; the slot is free. *)
Lemma removeByIndex_spec (isBid : bool) i o pool book B F :
  book_rep pool book B F -> (i, o) ∈ PriceTime.own isBid B ->
  exists pool' book',
    OrderBook.removeByIndex i pool book = Ok (pool', book') /\
    book_rep pool' book' (PriceTime.book_cancel i B) (i :: F) /\
    PriceTime.book_idxs (PriceTime.book_cancel i B) ++ i :: F ≡ₚ PriceTime.book_idxs B ++ F /\
    vlen (nodes pool') = vlen (nodes pool) /\
    agree_off (PriceTime.book_idxs B) (nodes pool) (nodes pool').
Proof.
  intros [Hb Ha Hinv Hnd Hsides] Hin. unfold OrderBook.removeByIndex, OrderPool.get.
  set (Q := PriceTime.own isBid B) in *. set (Q' := PriceTime.own (negb isBid) B).
  set (s := if isBid then bids book else asks book). set (s' := if isBid then asks book else bids book).
  assert (Hs : side_rep (nodes pool) s isBid Q) by (by destruct isBid).
  assert (Hs' : side_rep (nodes pool) s' (negb isBid) Q') by (by destruct isBid).
  assert (Hperm : PriceTime.book_idxs B ≡ₚ Q.*1 ++ Q'.*1).
  { unfold Q, Q', PriceTime.book_idxs; destruct isBid; [done | apply Permutation_app_comm]. }
  assert (HiQ : i ∈ Q.*1) by (apply list_elem_of_fmap; by exists (i, o)).
  pose proof (side_rep_in_range _ _ _ _ _ Hs HiQ) as Hr.
  rewrite vget_ok by done; simpl. rewrite (sr_orders _ _ _ _ Hs i o Hin).
  destruct (side_remove_spec pool s isBid Q i o Hs (pi_fits _ _ Hinv) Hin) as (ns' & s1 & Erm & Hs1 & Hrl).
  assert (Eif : (if buySellIndicator o =? chr_B then
      '(pool, side) ← LadderSide.remove pool (price o) i (bids book); Ok (pool, mkBook side (asks book))
    else '(pool, side) ← LadderSide.remove pool (price o) i (asks book); Ok (pool, mkBook (bids book) side)) =
    Ok (mkPool ns' (freeHead pool), if isBid then mkBook s1 (asks book) else mkBook (bids book) s1)).
  { destruct Hsides as [Hsb Hsa]. unfold Q, s in *; destruct isBid; simpl in *.
    - by rewrite (Hsb i o Hin), Erm.
    - by rewrite (Hsa i o Hin), Erm. }
  rewrite Eif; simpl. clear Eif Erm.
  rewrite Hperm in Hnd. rewrite <-app_assoc in Hnd.
  pose proof Hnd as (HnQ & HxQ & (HnQ' & HxF & HnF)%NoDup_app)%NoDup_app.
  assert (HiF : i ∉ F) by (intros Hi; apply (HxQ i HiQ); set_solver).
  assert (HiQ' : i ∉ Q'.*1) by (intros Hi; apply (HxQ i HiQ); set_solver).
  assert (Hsub : forall j, j ∈ (PriceTime.cancel i Q).*1 -> j ∈ Q.*1) by (intros j []%cancel_subset; done).
  destruct (free_spec i (mkPool ns' (freeHead pool)) F) as (pool' & -> & Hinv' & Hrl'); [| |done|].
  { apply (pool_inv_agree (Q.*1) pool); simpl; try done.
    - eapply agree_off_weaken; [exact Hsub|]; auto with pool.
    - unfold pool_fits; rewrite (rl_len _ _ _ Hrl); apply Hinv.
    - intros j Hj HjQ; apply (HxQ j HjQ); set_solver. }
  { simpl; rewrite (rl_len _ _ _ Hrl); done. }
  assert (Hag : agree_off (Q.*1) (nodes pool) (nodes pool')).
  { eapply agree_off_trans; eapply agree_off_weaken; [exact Hsub | apply relinked_agree, Hrl | | apply relinked_agree, Hrl'].
    set_solver. }
  assert (Hs1' : side_rep (nodes pool') s1 isBid (PriceTime.cancel i Q)).
  { eapply side_rep_agree; [apply relinked_agree, Hrl' | |done]. intros j [_ Hj]%cancel_subset; set_solver. }
  assert (Hs'' : side_rep (nodes pool') s' (negb isBid) (PriceTime.cancel i Q')).
  { rewrite cancel_absent by done. eapply side_rep_agree; [exact Hag | |done].
    intros j Hj Hj'; apply (HxQ j Hj'); set_solver. }
  assert (Hperm' : PriceTime.book_idxs (PriceTime.book_cancel i B) ++ i :: F ≡ₚ PriceTime.book_idxs B ++ F).
  { rewrite Hperm, (cancel_perm i o Q) by done. unfold PriceTime.book_idxs; simpl.
    replace (Q'.*1) with ((PriceTime.cancel i Q').*1) by (by rewrite cancel_absent).
    unfold Q, Q'; destruct isBid; simpl; solve_Permutation. }
  eexists pool', _; split; [done|]. split_and!; [split| | |].
  - unfold s', Q, Q' in *; by destruct isBid.
  - unfold s', Q, Q' in *; by destruct isBid.
  - done.
  - rewrite Hperm', Hperm, <-app_assoc; done.
  - destruct Hsides as [Hsb Hsa]. split; simpl; intros j x [_ Hj]%list_elem_of_filter; eauto.
  - done.
  - simpl in Hrl'. rewrite (rl_len _ _ _ Hrl'); simpl. apply Hrl.
  - eapply agree_off_weaken; [|exact Hag]. intros j Hj; rewrite Hperm; set_solver.
Qed.

(** An empty book. *)
Lemma book_new_rep p F : pool_inv p F -> book_rep p OrderBook.new (PriceTime.ABook [] []) F.
Proof.
  intros Hinv.
  assert (Hs : forall isBid, side_rep (nodes p) (LadderSide.new isBid) isBid []).
  { intros isBid; split; [done | apply LadderSide_new_rep | intros i o Hi; by apply elem_of_nil in Hi |].
    split; simpl; [constructor | constructor | constructor]. }
  split; simpl; auto; [apply Hinv|]. split; intros i o Hi; by apply elem_of_nil in Hi.
Qed.
