(* ===== verification/BookTheorems.v ===== *)
(** What is shown of the pool, the price ladder and the order book: the
    properties of OrderPool.v, LadderSide.v and OrderBook.v, each with an
    instance on a small concrete state. *)
From Stdlib Require Import ZArith Lia.
From stdpp Require Import base numbers gmap sorting list.
From S2P Require Import Prelude OrderPool LadderSide PriceTime OrderBook.
Open Scope Z_scope.

(** ** The pool *)

(** [allocate] hands out a slot that is not in use: the last freed one if
    there is one, otherwise a new one at the end of the arena. The slot holds
    the order with both links cleared, every other slot is as before, and the
    rest of the free list is intact. *)
Theorem allocate_fresh o pool F :
  pool_inv pool F -> pool_room pool F ->
  exists pool', OrderPool.allocate o pool = Ok (alloc_slot pool F, pool') /\
    pool_inv pool' (tail F) /\ (alloc_slot pool F ∉ tail F) /\
    vnth (nodes pool') (alloc_slot pool F) = mkNode o INVALID_INDEX INVALID_INDEX /\
    (forall i, 0 <= i < vlen (nodes pool) -> i <> alloc_slot pool F -> vnth (nodes pool') i = vnth (nodes pool) i).
Proof.
  intros Hinv Hroom. destruct (allocate_spec o pool F Hinv Hroom) as (pool' & E & Hinv' & [_ Hag] & _ & Hn & _).
  exists pool'; split_and!; try done; [|intros i Hi Hne; apply Hag; set_solver].
  unfold alloc_slot. destruct F as [|i F]; simpl; [set_solver|].
  by destruct Hinv as [_ _ [? _]%NoDup_cons].
Qed.

(** Two orders at one price and one above, for the examples. *)
Definition bid1 : Order := mkOrder 0 1 50 10000 chr_B.
Definition bid2 : Order := mkOrder 0 2 30 10000 chr_B.
Definition ask1 : Order := mkOrder 0 3 70 9900 chr_S.

Definition pool1 : OrderPool :=
  match OrderPool.allocate bid1 OrderPool.new with Ok (_, p) => p | _ => OrderPool.new end.

Lemma pool1_inv : pool_inv pool1 [].
Proof.
  split; [vm_compute; done | reflexivity | constructor].
Qed.

Lemma allocate_fresh_witness :
  exists pool', OrderPool.allocate bid2 pool1 = Ok (1, pool') /\ vnth (nodes pool') 1 = mkNode bid2 INVALID_INDEX INVALID_INDEX.
Proof.
  destruct (allocate_fresh bid2 pool1 [] pool1_inv) as (pool' & E & _ & _ & Hn & _).
  - right; reflexivity.
  - exists pool'; split; [exact E | exact Hn].
Defined.

(** A freed slot is the next one handed out, so the arena does not grow
    while slots are free. *)
Theorem free_allocate_reuses i o pool F :
  pool_inv pool F -> 0 <= i < vlen (nodes pool) -> i ∉ F ->
  exists pool1 pool2, OrderPool.free i pool = Ok pool1 /\ OrderPool.allocate o pool1 = Ok (i, pool2) /\
    pool_inv pool2 F /\ vlen (nodes pool2) = vlen (nodes pool).
Proof.
  intros Hinv Hi HF. destruct (free_spec i pool F Hinv Hi HF) as (p1 & E1 & Hinv1 & Hrl).
  destruct (allocate_spec o p1 (i :: F) Hinv1) as (p2 & E2 & Hinv2 & _ & _ & _ & Hlen); [by left|].
  exists p1, p2; split_and!; try done. rewrite Hlen. apply Hrl.
Qed.

Lemma free_allocate_reuses_witness :
  exists p1 p2, OrderPool.free 0 pool1 = Ok p1 /\ OrderPool.allocate bid2 p1 = Ok (0, p2) /\
    pool_inv p2 [] /\ vlen (nodes p2) = 1.
Proof.
  apply (free_allocate_reuses 0 bid2 pool1 []).
  - exact pool1_inv.
  - vm_compute; done.
  - intros H; inversion H.
Defined.

(** [allocate] hands out a slot that is not in use, the last freed one if
    there is one and otherwise a new one at the end of the arena, holding the
    order with both links cleared, and changes no other slot; and a slot that is
    freed is the next one handed out, so the arena does not grow while slots are
    free. *)
Theorem pool_allocation i o o' pool F :
  pool_inv pool F -> pool_room pool F -> 0 <= i < vlen (nodes pool) -> i ∉ F ->
  (exists pool', OrderPool.allocate o pool = Ok (alloc_slot pool F, pool') /\
    pool_inv pool' (tail F) /\ (alloc_slot pool F ∉ tail F) /\
    vnth (nodes pool') (alloc_slot pool F) = mkNode o INVALID_INDEX INVALID_INDEX /\
    (forall i, 0 <= i < vlen (nodes pool) -> i <> alloc_slot pool F -> vnth (nodes pool') i = vnth (nodes pool) i)) /\
  (exists pool1 pool2, OrderPool.free i pool = Ok pool1 /\ OrderPool.allocate o' pool1 = Ok (i, pool2) /\
    pool_inv pool2 F /\ vlen (nodes pool2) = vlen (nodes pool)).
Proof. intros Hinv Hroom Hi HF. split; [by apply allocate_fresh | by apply free_allocate_reuses]. Qed.

Lemma pool_allocation_witness :
  exists p1 p2, OrderPool.free 0 pool1 = Ok p1 /\ OrderPool.allocate bid2 p1 = Ok (0, p2) /\
    pool_inv p2 [] /\ vlen (nodes p2) = 1.
Proof.
  apply (pool_allocation 0 bid2 bid2 pool1 []).
  - exact pool1_inv.
  - right; reflexivity.
  - vm_compute; done.
  - intros H; inversion H.
Defined.

(** ** The price ladder *)

(** C25: [bestLevel] is the best non-empty price level of the side, wherever it
    is kept (ladder window or overflow vector), and null exactly when the side
    is empty. *)
Theorem best_level_is_best ns s qa :
  ladder_rep ns s qa ->
  match LadderSide.bestLevel s with
  | Some (ref, p) => qa p <> [] /\ (forall q, qa q <> [] -> if bid s then q <= p else p <= q) /\
      exists lvl, LadderSide.deref s ref = Ok lvl /\ level_rep ns lvl (qa p)
  | None => forall p, qa p = []
  end.
Proof.
  intros Hrep. pose proof (bestLevel_spec _ _ _ Hrep) as H. destruct (LadderSide.bestLevel s) as [[ref p]|]; [|done].
  destruct H as (Hlive & Href & Hall). split_and!; [done | | by apply deref_spec].
  intros q Hq. specialize (Hall q Hq). unfold better in Hall. destruct (bid s); lia.
Qed.

(** C26: [remove] takes exactly the given order out of the queue of its price,
    keeping the order of the others; the side afterwards has the right best
    level again. *)
Theorem remove_unlinks pool s qa p idx l1 l2 :
  pool_fits (nodes pool) -> ladder_rep (nodes pool) s qa -> qa p = l1 ++ idx :: l2 ->
  exists ns' s', LadderSide.remove pool p idx s = Ok (mkPool ns' (freeHead pool), s') /\
    ladder_rep ns' s' (lupd qa p (l1 ++ l2)) /\
    (forall i, order (vnth ns' i) = order (vnth (nodes pool) i)).
Proof.
  intros Hf Hr Hq. destruct (remove_spec pool s qa p idx l1 l2 Hf Hr Hq) as (ns' & s' & E & Hr' & Hrl & _).
  exists ns', s'; split_and!; [done | done | apply Hrl].
Qed.

Definition added1 : OrderPool * LadderSide :=
  match LadderSide.add pool1 10000 0 (LadderSide.new true) with Ok x => x | _ => (pool1, LadderSide.new true) end.

Lemma added1_rep : ladder_rep (nodes added1.1) added1.2 (lupd (fun _ => []) 10000 [0]).
Proof.
  destruct (add_spec pool1 (LadderSide.new true) (fun _ => []) 10000 0) as (ns' & s' & E & Hr & _).
  - vm_compute; split; discriminate.
  - apply LadderSide_new_rep.
  - split; [discriminate | reflexivity].
  - vm_compute; split; [discriminate | reflexivity].
  - intros q H; inversion H.
  - unfold added1. rewrite E. exact Hr.
Qed.

Lemma best_level_is_best_witness :
  exists ref lvl, LadderSide.bestLevel added1.2 = Some (ref, 10000) /\
    LadderSide.deref added1.2 ref = Ok lvl /\ level_rep (nodes added1.1) lvl [0].
Proof.
  pose proof (best_level_is_best _ _ _ added1_rep) as H.
  assert (E : LadderSide.bestLevel added1.2 = Some (InLadder (bestSlot added1.2), 10000)) by reflexivity.
  rewrite E in H. destruct H as (_ & _ & lvl & H1 & H2). exists (InLadder (bestSlot added1.2)), lvl. by split_and!.
Defined.

Lemma remove_unlinks_witness :
  exists ns' s', LadderSide.remove added1.1 10000 0 added1.2 = Ok (mkPool ns' (freeHead added1.1), s') /\
    ladder_rep ns' s' (lupd (lupd (fun _ => []) 10000 [0]) 10000 ([] ++ [])) /\
    (forall i, order (vnth ns' i) = order (vnth (nodes added1.1) i)).
Proof.
  apply (remove_unlinks added1.1 added1.2 (lupd (fun _ => []) 10000 [0]) 10000 0 [] []).
  - vm_compute; split; discriminate.
  - exact added1_rep.
  - reflexivity.
Defined.

(** The binary search of the overflow vector returns the first position
    whose price is not below the one sought. *)
Theorem lower_bound_correct s p :
  overflow_sorted (overflow s) ->
  let k := LadderSide.overflowLowerBound s p in
  (k <= length (overflow s))%nat /\
  (forall i e, (i < k)%nat -> overflow s !! i = Some e -> e.1 < p) /\
  (forall i e, (k <= i)%nat -> overflow s !! i = Some e -> p <= e.1).
Proof.
  intros Hs. apply lower_bound_loop_spec; [done | lia | lia | lia |].
  intros i e Hi He; apply lookup_lt_Some in He; lia.
Qed.

Definition side_overflow : LadderSide :=
  mkSide true (Vec 0 ∅ Level_new) [(5, Level_new); (9, Level_new); (20, Level_new)] 0 false INVALID_INDEX.

Lemma lower_bound_correct_witness :
  LadderSide.overflowLowerBound side_overflow 10 = 2%nat /\
  (forall i e, (i < 2)%nat -> overflow side_overflow !! i = Some e -> e.1 < 10).
Proof.
  split; [reflexivity|].
  apply (lower_bound_correct side_overflow 10). repeat constructor.
Defined.

(** [advanceBest] terminates on every window, started anywhere at or beyond
    the best level, and leaves [bestSlot] at the best non-empty slot, or at the
    sentinel when the window is empty. *)
Theorem advance_best_finds ns s qa k :
  pool_fits ns -> in_window k -> bestSlot s = k -> vlen (ladder s) = WINDOW ->
  (forall j, in_window j -> level_rep ns (vnth (ladder s) j) (qa (base s + TICK * j))) ->
  (forall j, in_window j -> better (bid s) j k = true -> qa (base s + TICK * j) = []) ->
  exists r, LadderSide.advanceBest s = Ok (LadderSide.set_bestSlot r s) /\ best_ok (bid s) (base s) r qa.
Proof. intros; by eapply advanceBest_spec. Qed.

Lemma set_bestSlot_inj a b s : Ok (LadderSide.set_bestSlot a s) = Ok (LadderSide.set_bestSlot b s) -> a = b.
Proof. by injection 1. Qed.

Lemma advance_best_finds_witness :
  let s := LadderSide.set_bestSlot (bestSlot added1.2 + 5) added1.2 in
  exists r, LadderSide.advanceBest s = Ok (LadderSide.set_bestSlot r s) /\ r = bestSlot added1.2.
Proof.
  intros s. pose proof added1_rep as H.
  destruct (advance_best_finds (nodes added1.1) s (lupd (fun _ => []) 10000 [0]) (bestSlot added1.2 + 5)) as (r & E & _).
  - vm_compute; split; discriminate.
  - vm_compute; split; [discriminate | reflexivity].
  - reflexivity.
  - reflexivity.
  - exact (lr_slots _ _ _ H eq_refl).
  - intros j Hj Hb. pose proof (lr_best _ _ _ H) as Hbest.
    assert (Ha : anchored added1.2 = true) by reflexivity. rewrite Ha in Hbest.
    destruct Hbest as [[_ Hn]|(_ & _ & Hn)]; apply Hn; [exact Hj | exact Hj |].
    change (bid s) with true in Hb. change (bid added1.2) with true.
    revert Hb. generalize (bestSlot added1.2). intros b. unfold better. lia.
  - exists r; split; [exact E|]. assert (E' : LadderSide.advanceBest s = Ok (LadderSide.set_bestSlot (bestSlot added1.2) s)) by (vm_compute; reflexivity).
    rewrite E in E'. exact (set_bestSlot_inj _ _ _ E').
Defined.

(** ** The order book *)

(** A book with two bids at one price. *)
Definition handled (o : Order) (st : OrderPool * OrderBook) : OrderPool * OrderBook :=
  match OrderBook.handleOrder o [] [] st.1 st.2 with Ok (_, p, b) => (p, b) | Err _ => st end.

(** Resting an order on a side nothing on the other side matches. *)
Lemma handled_rep (isBuy : bool) o st B F :
  book_rep st.1 st.2 B F -> order_ok o -> pool_room st.1 F ->
  buySellIndicator o = (if isBuy then chr_B else chr_S) ->
  exists F', book_rep (handled o st).1 (handled o st).2
    (PriceTime.submit isBuy o (alloc_slot st.1
      (reverse (PriceTime.gone (PriceTime.sweep (PriceTime.accepts isBuy (price o)) (shares o) (PriceTime.opp isBuy B))).*1 ++ F)) B).2 F'.
Proof.
  intros H Ho Hr Hs. destruct (handleOrder_spec isBuy o [] [] st.1 st.2 B F H Ho Hr Hs) as (p & b & F' & E & H' & _).
  exists F'. unfold handled. rewrite E. exact H'.
Qed.

Lemma no_free p F : pool_inv p F -> freeHead p = INVALID_INDEX -> F = [].
Proof.
  intros [Hf Hs _] E. destruct F as [|i F]; [done|]. simpl in Hs. destruct Hs as (Hi & Hr & _).
  unfold pool_fits in Hf. lia.
Qed.

Definition one_bid : OrderPool * OrderBook := handled bid1 (OrderPool.new, OrderBook.new).
Definition two_bids : OrderPool * OrderBook := handled bid2 one_bid.

Lemma one_bid_rep : book_rep one_bid.1 one_bid.2 (PriceTime.ABook [(0, bid1)] []) [].
Proof.
  destruct (handled_rep true bid1 (OrderPool.new, OrderBook.new) (PriceTime.ABook [] []) []) as (F & H);
    [apply book_new_rep, new_inv | vm_compute; intuition congruence | right; reflexivity | reflexivity |].
  assert (E : freeHead one_bid.1 = INVALID_INDEX) by (vm_compute; reflexivity).
  rewrite (no_free one_bid.1 F (br_pool _ _ _ _ H) E) in H. exact H.
Qed.

Lemma two_bids_rep : book_rep two_bids.1 two_bids.2 (PriceTime.ABook [(0, bid1); (1, bid2)] []) [].
Proof.
  assert (Hlen : vlen (nodes one_bid.1) = 1) by (vm_compute; reflexivity).
  destruct (handled_rep true bid2 one_bid (PriceTime.ABook [(0, bid1)] []) []) as (F & H);
    [exact one_bid_rep | vm_compute; intuition congruence | right; rewrite Hlen; reflexivity | reflexivity |].
  assert (E : freeHead two_bids.1 = INVALID_INDEX) by (vm_compute; reflexivity).
  fold two_bids in H. rewrite (no_free two_bids.1 F (br_pool _ _ _ _ H) E) in H.
  rewrite <-Hlen. exact H.
Qed.

(** The best levels of an uncrossed book. *)
Lemma best_levels_uncrossed pool book B F rb ra pb pa :
  book_rep pool book B F -> PriceTime.uncrossed B ->
  LadderSide.bestLevel (bids book) = Some (rb, pb) -> LadderSide.bestLevel (asks book) = Some (ra, pa) -> pb < pa.
Proof.
  intros [Hb Ha _ _ _] Hu Eb Ea.
  pose proof (bestLevel_prefix _ _ _ _ Hb) as Pb; rewrite Eb in Pb. pose proof (bestLevel_prefix _ _ _ _ Ha) as Pa; rewrite Ea in Pa.
  destruct Pb as (Qb & Rb & EQb & Nb & Hpb & _), Pa as (Qa & Ra & EQa & Na & Hpa & _).
  destruct Qb as [|x Qb]; [done|]. destruct Qa as [|y Qa]; [done|].
  rewrite <-(Hpb x), <-(Hpa y) by set_solver. apply Hu; [rewrite EQb | rewrite EQa]; set_solver.
Qed.

Definition total_executed (l : list ItchOrderExecuted) : Z := foldr (fun x t => executed_shares x + t) 0 l.

Lemma total_executed_records fs :
  total_executed ((fun f : Z * Z => OrderBook.execution f.1 f.2) <$> fs) = PriceTime.sum_fills fs.
Proof.
  induction fs as [|f fs IH]; [done|]. rewrite fmap_cons. unfold total_executed in *. cbn [foldr]. by rewrite IH.
Qed.

Lemma sweep_gone_take accept qty Q :
  PriceTime.gone (PriceTime.sweep accept qty Q) = take (length (PriceTime.gone (PriceTime.sweep accept qty Q))) Q.
Proof.
  revert qty; induction Q as [|[i o] Q IH]; intros qty; simpl; [done|]. repeat case_match; simpl; [by f_equal | done | done].
Qed.

(** C4: [handleOrder] implements price-time priority. The incoming order
    executes against the opposite side best price first and first come first
    served, the executions and the references of the filled orders are
    reported in that order, the remainder rests behind the orders at its price,
    and [restingIdx] names its slot, or is the sentinel when nothing is left.
    The call terminates and makes no access outside a vector; every slot it
    uses is a free one or a new one. *)
Theorem handle_order_price_time (isBuy : bool) o rem exe pool book B F :
  book_rep pool book B F -> order_ok o -> pool_room pool F ->
  buySellIndicator o = (if isBuy then chr_B else chr_S) ->
  let r := PriceTime.sweep (PriceTime.accepts isBuy (price o)) (shares o) (PriceTime.opp isBuy B) in
  let idx := alloc_slot pool (reverse (PriceTime.gone r).*1 ++ F) in
  exists pool' book' F',
    OrderBook.handleOrder o rem exe pool book =
      Ok (mkOut (set_shares (PriceTime.left r) o) (if 0 <? PriceTime.left r then idx else INVALID_INDEX)
            (rem ++ gone_refs r) (exe ++ fill_records r), pool', book') /\
    book_rep pool' book' (PriceTime.submit isBuy o idx B).2 F' /\
    PriceTime.book_idxs (PriceTime.submit isBuy o idx B).2 ++ F' ≡ₚ
      PriceTime.book_idxs B ++ F ++ grown pool pool'.
Proof.
  intros H Ho Hr Hs r idx. destruct (handleOrder_spec isBuy o rem exe pool book B F H Ho Hr Hs)
    as (pool' & book' & F' & E & H' & Hp & _). by exists pool', book', F'.
Qed.

(** A sell of 70 takes the first bid whole and 20 of the second. *)
Lemma handle_order_price_time_witness :
  exists pool' book' F',
    OrderBook.handleOrder ask1 [] [] two_bids.1 two_bids.2 =
      Ok (mkOut (set_shares 0 ask1) INVALID_INDEX [1] [OrderBook.execution 1 50; OrderBook.execution 2 20], pool', book') /\
    book_rep pool' book' (PriceTime.ABook [(1, set_shares 10 bid2)] []) F'.
Proof.
  destruct (handle_order_price_time false ask1 [] [] two_bids.1 two_bids.2 (PriceTime.ABook [(0, bid1); (1, bid2)] []) [])
    as (pool' & book' & F' & E & H & _).
  - exact two_bids_rep.
  - vm_compute; intuition congruence.
  - right. vm_compute. reflexivity.
  - reflexivity.
  - exists pool', book', F'. split; [exact E | exact H].
Defined.

(** C22: [removeByIndex] takes exactly the order in the given slot out of the
    book, keeping the priority of all others, and puts the slot on the free
    list. *)
Theorem remove_by_index_cancels (isBid : bool) i o pool book B F :
  book_rep pool book B F -> (i, o) ∈ PriceTime.own isBid B ->
  exists pool' book', OrderBook.removeByIndex i pool book = Ok (pool', book') /\
    book_rep pool' book' (PriceTime.book_cancel i B) (i :: F) /\
    vlen (nodes pool') = vlen (nodes pool).
Proof.
  intros H Hin. destruct (removeByIndex_spec isBid i o pool book B F H Hin) as (pool' & book' & E & H' & _ & Hl & _).
  by exists pool', book'.
Qed.

Lemma remove_by_index_cancels_witness :
  exists pool' book', OrderBook.removeByIndex 0 two_bids.1 two_bids.2 = Ok (pool', book') /\
    book_rep pool' book' (PriceTime.ABook [(1, bid2)] []) [0] /\ vlen (nodes pool') = vlen (nodes two_bids.1).
Proof.
  apply (remove_by_index_cancels true 0 bid1 two_bids.1 two_bids.2 (PriceTime.ABook [(0, bid1); (1, bid2)] []) []).
  - exact two_bids_rep.
  - apply elem_of_cons; left; reflexivity.
Defined.

Lemma handled_ok (isBuy : bool) o st B F :
  book_rep st.1 st.2 B F -> order_ok o -> pool_room st.1 F ->
  buySellIndicator o = (if isBuy then chr_B else chr_S) ->
  exists out, OrderBook.handleOrder o [] [] st.1 st.2 = Ok (out, (handled o st).1, (handled o st).2).
Proof.
  intros H Ho Hr Hs. destruct (handleOrder_spec isBuy o [] [] st.1 st.2 B F H Ho Hr Hs) as (p & b & F' & E & _).
  unfold handled. rewrite E. eauto.
Qed.

(** C23: no share is created or lost: what the incoming order lost is the sum of
    the reported executions, and so is what the opposite side lost. *)
Theorem handle_order_conserves (isBuy : bool) o rem pool book B F out pool' book' :
  book_rep pool book B F -> order_ok o -> pool_room pool F ->
  buySellIndicator o = (if isBuy then chr_B else chr_S) ->
  OrderBook.handleOrder o rem [] pool book = Ok (out, pool', book') ->
  exists B' F', book_rep pool' book' B' F' /\
    shares o - shares (out_order out) = total_executed (executedOrders out) /\
    PriceTime.side_total (PriceTime.opp isBuy B) - PriceTime.side_total (PriceTime.opp isBuy B') =
      total_executed (executedOrders out).
Proof.
  intros H Ho Hr Hs E. destruct (handleOrder_spec isBuy o rem [] pool book B F H Ho Hr Hs)
    as (p & b & F' & E' & H' & _). rewrite E in E'. injection E' as -> -> ->.
  eexists _, F'; split; [exact H'|]. simpl. unfold fill_records. rewrite total_executed_records.
  destruct (PriceTime.sweep_conserves (PriceTime.accepts isBuy (price o)) (shares o) (PriceTime.opp isBuy B)) as [H1 H2].
  split; [exact H1|]. rewrite <-H2. by destruct isBuy.
Qed.

Lemma handle_order_conserves_witness :
  exists out, OrderBook.handleOrder ask1 [] [] two_bids.1 two_bids.2 = Ok (out, (handled ask1 two_bids).1, (handled ask1 two_bids).2) /\
  exists B' F', book_rep (handled ask1 two_bids).1 (handled ask1 two_bids).2 B' F' /\
    70 - shares (out_order out) = total_executed (executedOrders out) /\
    80 - PriceTime.side_total (PriceTime.opp false B') = total_executed (executedOrders out).
Proof.
  assert (Ho : order_ok ask1) by (vm_compute; intuition congruence).
  assert (Hr : pool_room two_bids.1 []) by (right; vm_compute; reflexivity).
  destruct (handled_ok false ask1 two_bids _ _ two_bids_rep Ho Hr eq_refl) as (out & E).
  exists out. split; [exact E|]. exact (handle_order_conserves false ask1 [] _ _ _ _ _ _ _ two_bids_rep Ho Hr eq_refl E).
Defined.

(** C24: what leaves the opposite side is a prefix of its priority order: the
    filled orders are the first [n] in line, reported in that order, and the
    survivors keep their slots and their relative order. *)
Theorem handle_order_first_in_line (isBuy : bool) o exe pool book B F out pool' book' :
  book_rep pool book B F -> order_ok o -> pool_room pool F ->
  buySellIndicator o = (if isBuy then chr_B else chr_S) ->
  OrderBook.handleOrder o [] exe pool book = Ok (out, pool', book') ->
  exists n B' F', book_rep pool' book' B' F' /\
    removedRefs out = order_ref <$> (take n (PriceTime.opp isBuy B)).*2 /\
    (PriceTime.opp isBuy B').*1 = drop n (PriceTime.opp isBuy B).*1.
Proof.
  intros H Ho Hr Hs E. destruct (handleOrder_spec isBuy o [] exe pool book B F H Ho Hr Hs)
    as (p & b & F' & E' & H' & _). rewrite E in E'. injection E' as -> -> ->.
  set (accept := PriceTime.accepts isBuy (price o)) in *. set (Q := PriceTime.opp isBuy B) in *.
  exists (length (PriceTime.gone (PriceTime.sweep accept (shares o) Q))), (PriceTime.submit isBuy o (alloc_slot pool (reverse (PriceTime.gone (PriceTime.sweep accept (shares o) Q)).*1 ++ F)) B).2, F'.
  split_and!; [exact H' | |].
  - simpl. rewrite <-(sweep_gone_take accept (shares o) Q). unfold gone_refs. by rewrite <-list_fmap_compose.
  - rewrite (PriceTime.sweep_indices accept (shares o) Q).
    rewrite <-(length_fmap fst), drop_app_length. by destruct isBuy.
Qed.

Lemma handle_order_first_in_line_witness :
  exists out, OrderBook.handleOrder ask1 [] [] two_bids.1 two_bids.2 = Ok (out, (handled ask1 two_bids).1, (handled ask1 two_bids).2) /\
  exists n B' F', book_rep (handled ask1 two_bids).1 (handled ask1 two_bids).2 B' F' /\
    removedRefs out = order_ref <$> (take n [(0, bid1); (1, bid2)]).*2 /\ (PriceTime.opp false B').*1 = drop n [0; 1].
Proof.
  assert (Ho : order_ok ask1) by (vm_compute; intuition congruence).
  assert (Hr : pool_room two_bids.1 []) by (right; vm_compute; reflexivity).
  destruct (handled_ok false ask1 two_bids _ _ two_bids_rep Ho Hr eq_refl) as (out & E).
  exists out. split; [exact E|]. exact (handle_order_first_in_line false ask1 [] _ _ _ _ _ _ _ two_bids_rep Ho Hr eq_refl E).
Defined.

(** On a well-formed book the only failure of [handleOrder] is the
    exception, raised exactly for an order whose side is neither ['B'] nor
    ['S']; any other order is handled. *)
Theorem handle_order_failure o rem exe pool book B F :
  book_rep pool book B F -> order_ok o -> pool_room pool F ->
  (forall err, OrderBook.handleOrder o rem exe pool book = Err err ->
     err = Throw /\ buySellIndicator o <> chr_B /\ buySellIndicator o <> chr_S) /\
  (buySellIndicator o <> chr_B -> buySellIndicator o <> chr_S ->
     OrderBook.handleOrder o rem exe pool book = Err Throw).
Proof.
  intros H Ho Hr. split.
  - intros err E. destruct (Z.eq_dec (buySellIndicator o) chr_B) as [Hb|Hb];
      [|destruct (Z.eq_dec (buySellIndicator o) chr_S) as [Hs|Hs]].
    + destruct (handleOrder_spec true o rem exe pool book B F H Ho Hr Hb) as (? & ? & ? & E' & _). congruence.
    + destruct (handleOrder_spec false o rem exe pool book B F H Ho Hr Hs) as (? & ? & ? & E' & _). congruence.
    + split; [|done]. unfold OrderBook.handleOrder in E.
      rewrite (proj2 (Z.eqb_neq _ _) Hb), (proj2 (Z.eqb_neq _ _) Hs) in E. by injection E.
  - intros Hb Hs. unfold OrderBook.handleOrder. by rewrite (proj2 (Z.eqb_neq _ _) Hb), (proj2 (Z.eqb_neq _ _) Hs).
Qed.

Lemma handle_order_failure_witness :
  OrderBook.handleOrder (mkOrder 0 9 10 500 0) [] [] two_bids.1 two_bids.2 = Err Throw.
Proof.
  apply (handle_order_failure (mkOrder 0 9 10 500 0) [] [] two_bids.1 two_bids.2 (PriceTime.ABook [(0, bid1); (1, bid2)] []) []).
  - exact two_bids_rep.
  - vm_compute; intuition congruence.
  - right. vm_compute. reflexivity.
  - discriminate.
  - discriminate.
Defined.
