(* ===== verification/FlatHashMap.v ===== *)
(** The open-addressed hash map of include/flat_hash_map.hpp: linear probing,
    identity or multiplicative hash, and deletion by Knuth's Algorithm R; with
    the proof that it behaves as a finite map while one slot stays empty. *)
From Stdlib Require Import ZArith Lia.
From stdpp Require Import base numbers gmap list.
From S2P Require Import Prelude.
Open Scope Z_scope.

Record Entry (V : Type) := mkEntry { key : Z; value : V }.
Arguments mkEntry {V} _ _.
Arguments key {V} _.
Arguments value {V} _.

Record FlatHashMap (V : Type) := mkMap { mask : Z; table : vec (Entry V) }.
Arguments mkMap {V} _ _.
Arguments mask {V} _.
Arguments table {V} _.

Module FlatHashMap.
Section ops.
(** [K] is [uint64_t]; [EMPTY] and [Identity] are the template's. *)
Context {V : Type} (EMPTY : Z) (Identity : bool).
Implicit Types (m : FlatHashMap V) (k : Z).

(** [FlatHashMap(capacity)]: every slot is [{EMPTY, V()}]. The assertion on
    the capacity is the hypothesis [is_capacity] of the theorems. *)
Definition new (v0 : V) (capacity : Z) : FlatHashMap V :=
  mkMap (u64 (capacity - 1)) (vassign capacity (mkEntry EMPTY v0)).

Definition hash (mask k : Z) : Z :=
  if Identity then Z.land k mask
  else Z.land (u64 (k * 11400714819323198485)) mask.

Definition step (mask i : Z) : Z := Z.land (u64 (i + 1)) mask.

Definition fuel m : nat := S (Z.to_nat (vlen (table m))).

(** [while (table[idx].key != EMPTY && table[idx].key != key)]: the slot the
    probe of [k] from [idx] stops at. *)
Fixpoint probe (n : nat) (mask : Z) (t : vec (Entry V)) (k idx : Z) : result Z :=
  match n with
  | O => Err Diverge
  | S n =>
      e ← vget t idx;
      if negb (key e =? EMPTY) && negb (key e =? k) then probe n mask t k (step mask idx)
      else Ok idx
  end.

Definition insert k (v : V) m : result (FlatHashMap V) :=
  idx ← probe (fuel m) (mask m) (table m) k (hash (mask m) k);
  t ← vset (table m) idx (mkEntry k v);
  Ok (mkMap (mask m) t).

(** [while (table[idx].key != EMPTY) { if (... == key) return &value; ... }]. *)
Fixpoint find_loop (n : nat) (mask : Z) (t : vec (Entry V)) (k idx : Z) : result (option V) :=
  match n with
  | O => Err Diverge
  | S n =>
      e ← vget t idx;
      if negb (key e =? EMPTY) then
        if key e =? k then Ok (Some (value e)) else find_loop n mask t k (step mask idx)
      else Ok None
  end.

Definition find k m : result (option V) :=
  find_loop (fuel m) (mask m) (table m) k (hash (mask m) k).

(** [prefetch] takes the address of the slot of [k]; the hint changes nothing. *)
Definition prefetch k m : result unit :=
  _ ← vget (table m) (hash (mask m) k);
  Ok tt.

(** The first loop of [erase]: the slot of [k], or an empty one. *)
Fixpoint locate (n : nat) (mask : Z) (t : vec (Entry V)) (k i : Z) : result Z :=
  match n with
  | O => Err Diverge
  | S n =>
      e ← vget t i;
      if negb (key e =? EMPTY) then
        if key e =? k then Ok i else locate n mask t k (step mask i)
      else Ok i
  end.

Definition set_key (k : Z) (e : Entry V) : Entry V := mkEntry k (value e).

(** The second loop: scan [j] from the hole [i], moving entries back. *)
Fixpoint backshift (n : nat) (mask : Z) (t : vec (Entry V)) (i j : Z) : result (vec (Entry V)) :=
  match n with
  | O => Err Diverge
  | S n =>
      let j := step mask j in
      ej ← vget t j;
      if key ej =? EMPTY then Ok t else
      let h := hash mask (key ej) in
      if Z.land (u64 (j - i)) mask <=? Z.land (u64 (j - h)) mask then
        t ← vset t i ej;
        ej ← vget t j;
        t ← vset t j (set_key EMPTY ej);
        backshift n mask t j j
      else backshift n mask t i j
  end.

Definition erase k m : result (FlatHashMap V) :=
  i ← locate (fuel m) (mask m) (table m) k (hash (mask m) k);
  e ← vget (table m) i;
  if key e =? EMPTY then Ok m else
  t ← vset (table m) i (set_key EMPTY e);
  t ← backshift (fuel m) (mask m) t i i;
  Ok (mkMap (mask m) t).
End ops.
End FlatHashMap.

(** ** Cyclic positions *)

(** [capacity > 0 && (capacity & (capacity - 1)) == 0], for a [size_t]. *)
Definition is_capacity (cap : Z) : Prop := exists n, 0 <= n < 64 /\ cap = 2 ^ n.

Lemma is_capacity_range cap : is_capacity cap -> 0 < cap <= 2 ^ 63.
Proof.
  intros (n & Hn & ->); split; [apply Z.pow_pos_nonneg; lia | apply Z.pow_le_mono_r; lia].
Qed.

Lemma land_mask cap x : is_capacity cap -> Z.land (u64 x) (cap - 1) = x mod cap.
Proof.
  intros (n & Hn & ->); unfold u64.
  replace (2 ^ n - 1) with (Z.ones n) by (rewrite Z.ones_equiv; lia).
  rewrite Z.land_ones by lia.
  replace 64 with (n + (64 - n)) by lia. rewrite Z.pow_add_r by lia.
  assert (0 < 2 ^ n) by (apply Z.pow_pos_nonneg; lia).
  assert (0 < 2 ^ (64 - n)) by (apply Z.pow_pos_nonneg; lia).
  rewrite Z.rem_mul_r by lia. rewrite Z.mul_comm, Z.mod_add by lia. apply Z.mod_mod; lia.
Qed.

(** Distance walked from [a] to [b], and the position after [x] steps. *)
Definition dist (cap a b : Z) : Z := if a <=? b then b - a else b - a + cap.
Definition posn (cap a x : Z) : Z := if a + x <? cap then a + x else a + x - cap.
Definition slot (cap i : Z) : Prop := 0 <= i < cap.

Ltac cyclic := unfold dist, posn, slot in *; repeat case_match; lia.

Section cyclic.
Context (cap : Z).

Lemma dist_range a b : slot cap a -> slot cap b -> 0 <= dist cap a b < cap.
Proof. cyclic. Qed.
Lemma posn_slot a x : slot cap a -> 0 <= x < cap -> slot cap (posn cap a x).
Proof. cyclic. Qed.
Lemma posn_dist a b : slot cap a -> slot cap b -> posn cap a (dist cap a b) = b.
Proof. cyclic. Qed.
Lemma dist_posn a x : slot cap a -> 0 <= x < cap -> dist cap a (posn cap a x) = x.
Proof. cyclic. Qed.
Lemma posn_succ a x : slot cap a -> 0 <= x -> x + 1 < cap -> posn cap (posn cap a x) 1 = posn cap a (x + 1).
Proof. cyclic. Qed.

Lemma dist_mod a b : slot cap a -> slot cap b -> (b - a) mod cap = dist cap a b.
Proof.
  unfold slot, dist; intros; case_match; [apply Z.mod_small; lia|].
  rewrite <-(Z.mod_add _ 1) by lia. rewrite Z.mul_1_l; apply Z.mod_small; lia.
Qed.
Lemma posn_mod a : slot cap a -> (a + 1) mod cap = posn cap a 1.
Proof.
  unfold slot, posn; intros; case_match; [apply Z.mod_small; lia|].
  rewrite <-(Z.mod_add _ (-1)) by lia. rewrite Z.mod_small; lia.
Qed.
End cyclic.

(** The least point of a decidable property. *)
Lemma least_point (P : Z -> bool) x0 :
  0 <= x0 -> P x0 = true ->
  exists x, 0 <= x <= x0 /\ P x = true /\ forall y, 0 <= y < x -> P y = false.
Proof.
  intros H0; pattern x0; apply Zlt_0_ind; [|done]. clear x0 H0. intros x0 IH H0 HP.
  destruct (decide (Exists (fun y => P y = true) (seqZ 0 x0))) as [Hex|Hno].
  - apply Exists_exists in Hex as (y & Hy%elem_of_seqZ & HPy).
    destruct (IH y ltac:(lia) HPy) as (x & Hx & ?); exists x; split; [lia | done].
  - exists x0; split; [lia|]; split; [done|]. intros y Hy.
    destruct (P y) eqn:E; [|done]. destruct Hno; apply Exists_exists; exists y; split; [|done].
    apply elem_of_seqZ; lia.
Qed.

(** ** The probing invariant *)

Section proofs.
Context {V : Type} (EMPTY : Z) (Identity : bool) (cap : Z).
Hypothesis Hcap : is_capacity cap.
Implicit Types (t : vec (Entry V)) (k s : Z).

Abbreviation home := (FlatHashMap.hash Identity (cap - 1)).
Abbreviation K t s := (key (vnth t s)).

(** The home of any number is a slot. *)
Lemma home_any k : slot cap (home k).
Proof using Hcap.
  pose proof (is_capacity_range _ Hcap). destruct Hcap as (n & Hn & ->). unfold FlatHashMap.hash, slot.
  replace (2 ^ n - 1) with (Z.ones n) by (rewrite Z.ones_equiv; lia).
  destruct Identity; rewrite Z.land_ones by lia; apply Z.mod_pos_bound; lia.
Qed.

Lemma home_slot k : 0 <= k < 2 ^ 64 -> slot cap (home k).
Proof using Hcap. intros _. apply home_any. Qed.

Lemma step_posn i : slot cap i -> FlatHashMap.step (cap - 1) i = posn cap i 1.
Proof using Hcap. intros Hi; unfold FlatHashMap.step. by rewrite land_mask, posn_mod. Qed.

Lemma land_dist i j : slot cap i -> slot cap j -> Z.land (u64 (j - i)) (cap - 1) = dist cap i j.
Proof using Hcap. intros Hi Hj. by rewrite land_mask, dist_mod. Qed.

(** No gap between the home of an entry and its slot; no key twice. *)
Record probe_inv t : Prop := {
  pr_len : vlen t = cap;
  pr_keys : forall s, slot cap s -> 0 <= K t s < 2 ^ 64;
  pr_chain : forall s x, slot cap s -> K t s <> EMPTY -> 0 <= x < dist cap (home (K t s)) s ->
    K t (posn cap (home (K t s)) x) <> EMPTY;
  pr_unique : forall s s', slot cap s -> slot cap s' -> K t s <> EMPTY -> K t s = K t s' -> s = s'
}.

Definition has_empty t : Prop := exists s, slot cap s /\ K t s = EMPTY.

(** A probe of [k] stops at [s]: nothing before is empty or [k]. *)
Definition stops_at t k s : Prop :=
  slot cap s /\ (K t s = EMPTY \/ K t s = k) /\
  forall y, 0 <= y < dist cap (home k) s -> K t (posn cap (home k) y) <> EMPTY /\ K t (posn cap (home k) y) <> k.

Lemma stops_exists t k : 0 <= k < 2 ^ 64 -> has_empty t -> exists s, stops_at t k s.
Proof using Hcap.
  intros Hk (s0 & Hs0 & He). pose proof (home_slot k Hk) as Hh.
  destruct (least_point (fun x => (K t (posn cap (home k) x) =? EMPTY) || (K t (posn cap (home k) x) =? k))
    (dist cap (home k) s0)) as (x & Hx & HP & Hmin).
  - by apply dist_range.
  - rewrite posn_dist by done. lia.
  - pose proof (dist_range cap _ _ Hh Hs0). exists (posn cap (home k) x). split; [apply posn_slot; [done|lia]|].
    split; [lia|]. rewrite dist_posn by (done || lia). intros y Hy; specialize (Hmin y Hy); lia.
Qed.

Lemma probe_spec n t k s y :
  vlen t = cap -> 0 <= k < 2 ^ 64 -> stops_at t k s -> 0 <= y <= dist cap (home k) s ->
  dist cap (home k) s - y < Z.of_nat n ->
  FlatHashMap.probe EMPTY n (cap - 1) t k (posn cap (home k) y) = Ok s.
Proof using Hcap.
  intros Hlen Hk (Hs & Hstop & Hmin). pose proof (home_slot k Hk) as Hh.
  pose proof (dist_range cap _ _ Hh Hs) as Hd.
  revert y; induction n as [|n IH]; intros y Hy Hn; [lia|]. simpl.
  assert (Hy' : slot cap (posn cap (home k) y)) by (apply posn_slot; [done|lia]).
  rewrite vget_ok by (rewrite Hlen; exact Hy'); simpl.
  destruct (Z.eq_dec y (dist cap (home k) s)) as [->|Hne].
  - rewrite posn_dist by done. replace (_ && _) with false by lia. done.
  - destruct (Hmin y ltac:(lia)). replace (_ && _) with true by lia.
    rewrite step_posn, posn_succ by (done || lia). apply IH; lia.
Qed.

Lemma probe_home t k s :
  vlen t = cap -> 0 <= k < 2 ^ 64 -> stops_at t k s ->
  FlatHashMap.probe EMPTY (S (Z.to_nat (vlen t))) (cap - 1) t k (home k) = Ok s.
Proof using Hcap.
  intros Hlen Hk Hst. pose proof (home_slot k Hk) as Hh. pose proof (dist_range cap _ _ Hh (proj1 Hst)).
  replace (home k) with (posn cap (home k) 0) at 1 by cyclic.
  apply probe_spec; try done; lia.
Qed.

(** The loops of [find] and [erase] probe the same slots. *)
Lemma locate_probe n m t k i : FlatHashMap.locate EMPTY n m t k i = FlatHashMap.probe EMPTY n m t k i.
Proof.
  revert i; induction n as [|n IH]; intros i; simpl; [done|].
  destruct (vget t i) as [e|]; simpl; [|done]. rewrite IH. by destruct (key e =? EMPTY), (key e =? k).
Qed.

Lemma find_loop_probe n m t k i :
  FlatHashMap.find_loop EMPTY n m t k i =
  (s ← FlatHashMap.probe EMPTY n m t k i; e ← vget t s;
   Ok (if key e =? EMPTY then None else Some (value e))).
Proof.
  revert i; induction n as [|n IH]; intros i; simpl; [done|].
  destruct (vget t i) as [e|] eqn:E; simpl; [|done]. rewrite IH.
  destruct (key e =? EMPTY) eqn:E1, (key e =? k) eqn:E2; simpl; rewrite ?E; simpl; rewrite ?E1; done || lia.
Qed.

(** The slot a probe stops at holds the key, if any slot does. *)
Lemma stops_found t k s s' :
  probe_inv t -> k <> EMPTY -> stops_at t k s -> slot cap s' -> K t s' = k -> s = s'.
Proof using Hcap.
  intros Hinv Hk (Hs & Hstop & Hmin) Hs' Ek. assert (0 <= k < 2 ^ 64) as Hk64 by (rewrite <-Ek; by apply Hinv).
  pose proof (home_slot k Hk64) as Hh.
  assert (Hle : ~ dist cap (home k) s' < dist cap (home k) s).
  { intros Hlt. destruct (Hmin (dist cap (home k) s')) as [_ Hne].
    - split; [by apply dist_range | done].
    - by rewrite posn_dist in Hne. }
  destruct Hstop as [He|Hk'].
  - exfalso. assert (Hlt : dist cap (home k) s < dist cap (home k) s').
    { destruct (Z.eq_dec s s') as [->|Hne]; [congruence|]. cyclic. }
    pose proof (pr_chain _ Hinv s' (dist cap (home k) s) Hs') as Hc. rewrite Ek in Hc.
    rewrite posn_dist in Hc by done. apply Hc; [done | | done]. split; [by apply dist_range|done].
  - eapply (pr_unique _ Hinv); [done | done | congruence | congruence].
Qed.

(** ** Insertion *)

(** Writing a key where its probe stops. *)
Lemma write_inv t k v s :
  probe_inv t -> k <> EMPTY -> 0 <= k < 2 ^ 64 -> stops_at t k s ->
  probe_inv (vupd t s (mkEntry k v)).
Proof using Hcap.
  intros Hinv Hk Hk64 Hst. pose proof Hst as (Hs & Hstop & Hmin).
  assert (HK : forall s', K (vupd t s (mkEntry k v)) s' = if decide (s = s') then k else K t s').
  { intros s'; rewrite vnth_vupd; by case_decide. }
  assert (Hmono : forall s', K t s' <> EMPTY -> K (vupd t s (mkEntry k v)) s' <> EMPTY).
  { intros s' H; rewrite HK; by case_decide. }
  split.
  - apply Hinv.
  - intros s' Hs'; rewrite HK; case_decide; [done | by apply Hinv].
  - intros s' x Hs'. rewrite (HK s'). case_decide as E.
    + subst s'. intros _ Hx. apply Hmono. by destruct (Hmin x Hx).
    + intros Hne Hx; apply Hmono. by apply Hinv.
  - intros s1 s2 H1 H2; rewrite !HK. do 2 case_decide; subst; try done.
    + intros _ Ek. eapply stops_found; eauto.
    + intros _ Ek. symmetry; eapply stops_found; eauto.
    + by apply Hinv.
Qed.

(** The finite map a table stands for. *)
Definition holds t (M : gmap Z V) : Prop :=
  forall k v, M !! k = Some v <-> k <> EMPTY /\ exists s, slot cap s /\ vnth t s = mkEntry k v.

Lemma write_holds t M k v s :
  probe_inv t -> k <> EMPTY -> stops_at t k s -> holds t M ->
  holds (vupd t s (mkEntry k v)) (<[k:=v]> M).
Proof using Hcap.
  intros Hinv Hk Hst HM k' v'. pose proof Hst as (Hs & Hstop & _). split.
  - rewrite lookup_insert. case_decide as E.
    + intros [= <-]; subst k'. split; [done|]. exists s; by rewrite vnth_vupd_eq.
    + intros (Hk' & s' & Hs' & Ht)%HM. split; [done|]. exists s'; split; [done|].
      rewrite vnth_vupd_ne; [done|]. intros ->. rewrite Ht in Hstop; simpl in Hstop; naive_solver.
  - intros (Hk' & s' & Hs' & Ht). rewrite vnth_vupd in Ht. rewrite lookup_insert.
    case_decide as Es; case_decide as Ek; try congruence.
    + exfalso; apply Es. eapply stops_found; [done | exact Hk | exact Hst | done | by rewrite Ht].
    + apply HM; eauto.
Qed.

(** As long as there are fewer keys than slots, a slot is empty. *)
Lemma room_has_empty t M :
  probe_inv t -> holds t M -> Z.of_nat (size M) < cap -> has_empty t.
Proof using Hcap.
  intros Hinv HM Hsize.
  destruct (decide (Exists (fun s => K t s = EMPTY) (seqZ 0 cap))) as [Hex|Hno].
  { apply Exists_exists in Hex as (s & Hs%elem_of_seqZ & He). exists s; unfold slot; split; [lia | done]. }
  exfalso. assert (Hfull : forall s, slot cap s -> K t s <> EMPTY).
  { intros s Hs He; apply Hno, Exists_exists; exists s; split; [apply elem_of_seqZ; unfold slot in Hs; lia | done]. }
  assert (Hsub : ((fun s => K t s) <$> seqZ 0 cap) ⊆+ elements (dom M)).
  { apply NoDup_submseteq.
    - apply NoDup_fmap_2_strong; [|apply NoDup_seqZ].
      intros s1 s2 H1%elem_of_seqZ H2%elem_of_seqZ E.
      eapply (pr_unique _ Hinv s1 s2); [unfold slot; lia | unfold slot; lia | apply Hfull; unfold slot; lia | done].
    - intros k (s & -> & Hs%elem_of_seqZ)%list_elem_of_fmap. apply elem_of_elements, elem_of_dom.
      exists (value (vnth t s)). apply HM. split; [apply Hfull; unfold slot; lia|].
      exists s; split; [unfold slot; lia | by destruct (vnth t s)]. }
  apply submseteq_length in Hsub. rewrite length_fmap, length_seqZ in Hsub.
  pose proof (size_dom M) as Hd. unfold size, set_size in Hd; simpl in Hd.
  change (length (elements (dom M)) = size M) in Hd. lia.
Qed.

(** ** Deletion *)

Hypothesis HEMPTY : 0 <= EMPTY < 2 ^ 64.

(** During the scan there is one hole, [i]; it can be missing only from the
    chains of entries beyond [j]. *)
Record hole_inv t (i j : Z) : Prop := {
  hi_len : vlen t = cap;
  hi_keys : forall s, slot cap s -> 0 <= K t s < 2 ^ 64;
  hi_i : slot cap i;
  hi_j : slot cap j;
  hi_hole : K t i = EMPTY;
  hi_chain : forall s x, slot cap s -> K t s <> EMPTY -> 0 <= x < dist cap (home (K t s)) s ->
    K t (posn cap (home (K t s)) x) <> EMPTY \/
    (posn cap (home (K t s)) x = i /\ dist cap i j < dist cap i s);
  hi_unique : forall s s', slot cap s -> slot cap s' -> K t s <> EMPTY -> K t s = K t s' -> s = s'
}.

(** Taking the key out of its slot opens the hole. *)
Lemma hole_open t i :
  probe_inv t -> slot cap i ->
  hole_inv (vupd t i (FlatHashMap.set_key EMPTY (vnth t i))) i i.
Proof using Hcap HEMPTY.
  intros [Hlen Hkeys Hchain Huniq] Hi.
  assert (HK : forall s, K (vupd t i (FlatHashMap.set_key EMPTY (vnth t i))) s = if decide (i = s) then EMPTY else K t s).
  { intros s; rewrite vnth_vupd; by case_decide. }
  split; try done.
  - intros s Hs; rewrite HK; case_decide; auto.
  - by rewrite HK, decide_True.
  - intros s x Hs. rewrite (HK s). case_decide as Es; [done|]. intros Hne Hx.
    specialize (Hchain s x Hs Hne Hx). rewrite HK. case_decide as Ex; [right|by left]. split; [done|]. cyclic.
  - intros s s' Hs Hs'; rewrite !HK. repeat case_decide; intros H1 H2; try congruence; by apply Huniq.
Qed.

Section scan.
Context t (i j : Z).
Hypothesis Hinv : hole_inv t i j.
Let j' := posn cap j 1.

Local Lemma scan_slot : slot cap j'.
Proof using Hinv Hcap.
  pose proof (is_capacity_range _ Hcap). pose proof (hi_j _ _ _ Hinv). unfold j'; cyclic.
Qed.

Local Lemma scan_home s : slot cap s -> slot cap (home (K t s)).
Proof using Hinv Hcap. intros Hs; apply home_slot; by apply Hinv. Qed.

(** An empty slot after the scanned run ends the deletion. *)
Lemma hole_done : K t j' = EMPTY -> probe_inv t.
Proof using Hinv Hcap.
  intros He. pose proof Hinv as [Hlen Hkeys Hi Hj Hhole Hchain Huniq]. pose proof scan_slot as Hj'.
  split; try done. intros s x Hs Hne Hx.
  destruct (Hchain s x Hs Hne Hx) as [|[Ei Hd]]; [done|]. pose proof (scan_home s Hs) as Hh.
  set (h := home (K t s)) in *.
  assert (s <> j') by congruence.
  destruct (Hchain s (x + dist cap i j') Hs Hne) as [Hn|[Hn _]]; try (fold h in Hn); fold h.
  - split; [pose proof (dist_range cap i j' Hi Hj'); lia|]. unfold j' in *. cyclic.
  - exfalso; apply Hn. replace (posn cap h _) with j'; [done|]. unfold j' in *; cyclic.
  - exfalso. unfold j' in *; cyclic.
Qed.

(** An entry whose home is after the hole stays. *)
Lemma hole_skip :
  K t j' <> EMPTY -> dist cap (home (K t j')) j' < dist cap i j' -> hole_inv t i j'.
Proof using Hinv Hcap.
  intros Hne Hlt. pose proof Hinv as [Hlen Hkeys Hi Hj Hhole Hchain Huniq]. pose proof scan_slot as Hj'.
  assert (Hij : j' <> i) by congruence.
  split; try done. intros s x Hs Hnes Hx.
  destruct (Hchain s x Hs Hnes Hx) as [|[Ei Hd]]; [by left|]. right; split; [done|].
  pose proof (scan_home s Hs) as Hh. set (h := home (K t s)) in *.
  destruct (Z.eq_dec s j') as [->|Hs']; [exfalso; fold h in Hlt; unfold j' in *; cyclic|].
  unfold j' in *; cyclic.
Qed.

(** An entry whose home is not after the hole moves into it. *)
Lemma hole_move :
  K t j' <> EMPTY -> dist cap i j' <= dist cap (home (K t j')) j' ->
  hole_inv (vupd (vupd t i (vnth t j')) j' (FlatHashMap.set_key EMPTY (vnth t j'))) j' j'.
Proof using Hinv Hcap HEMPTY.
  intros Hne Hle. pose proof Hinv as [Hlen Hkeys Hi Hj Hhole Hchain Huniq]. pose proof scan_slot as Hj'.
  assert (Hij : j' <> i) by congruence. set (t' := vupd _ _ _).
  assert (HK : forall s, K t' s = if decide (j' = s) then EMPTY else if decide (i = s) then K t j' else K t s).
  { intros s; unfold t'; rewrite vnth_vupd; case_decide; [done|]. rewrite vnth_vupd; by case_decide. }
  split; try done.
  - intros s Hs; rewrite HK; repeat case_decide; auto.
  - rewrite HK, decide_True; done.
  - intros s x Hs. rewrite (HK s). case_decide as E1; [done|]. case_decide as E2.
    + intros _ Hx. left. subst s. pose proof (scan_home j' Hj') as Hh. set (h := home (K t j')) in *.
      destruct (Hchain j' x Hj' Hne) as [Hn|[Hn _]]; try (fold h in Hn); fold h.
      * unfold j' in *; cyclic.
      * rewrite HK. repeat case_decide; try done. exfalso; unfold j' in *; cyclic.
      * exfalso; unfold j' in *; cyclic.
    + intros Hnes Hx. pose proof (scan_home s Hs) as Hh. set (h := home (K t s)) in *.
      destruct (Hchain s x Hs Hnes Hx) as [Hn|[Hn _]]; try (fold h in Hn); fold h; rewrite HK; repeat case_decide;
        try (by left); try (right; split; [done|]; cyclic); congruence.
  - intros s s' Hs Hs'; rewrite !HK. intros Hk1 Hk2.
    repeat case_decide; try congruence.
    + exfalso; assert (j' = s') by eauto using Huniq; congruence.
    + exfalso; assert (s = j') by eauto using Huniq; congruence.
    + eauto using Huniq.
Qed.
End scan.

(** The tables hold the same live entries. *)
Definition same_entries t t' : Prop :=
  forall e, key e <> EMPTY ->
    (exists s, slot cap s /\ vnth t s = e) <-> (exists s, slot cap s /\ vnth t' s = e).

Lemma move_same_entries t i j :
  slot cap i -> slot cap j -> i <> j -> K t i = EMPTY ->
  same_entries t (vupd (vupd t i (vnth t j)) j (FlatHashMap.set_key EMPTY (vnth t j))).
Proof.
  intros Hi Hj Hij He e Hne; split; intros (s & Hs & Ht).
  - destruct (decide (s = j)) as [->|Hsj].
    + exists i; split; [done|]. by rewrite vnth_vupd_ne, vnth_vupd_eq by done.
    + exists s; split; [done|]. rewrite !vnth_vupd_ne; congruence.
  - rewrite vnth_vupd in Ht; case_decide as E1; [subst e; done|].
    rewrite vnth_vupd in Ht; case_decide as E2; [exists j; auto | exists s; auto].
Qed.

(** The scan ends at the latest at an empty slot other than the hole. *)
Lemma backshift_spec n t i j e0 :
  hole_inv t i j -> slot cap e0 -> K t e0 = EMPTY -> e0 <> i -> e0 <> j ->
  dist cap j e0 < Z.of_nat n ->
  exists t', FlatHashMap.backshift EMPTY Identity n (cap - 1) t i j = Ok t' /\
             probe_inv t' /\ same_entries t t'.
Proof using Hcap HEMPTY.
  revert t i j; induction n as [|n IH]; intros t i j Hinv He0 Hk0 Hi0 Hj0 Hn.
  { pose proof (dist_range cap j e0 (hi_j _ _ _ Hinv) He0); lia. }
  pose proof (scan_slot _ _ _ Hinv) as Hj'. pose proof (hi_j _ _ _ Hinv) as Hj.
  pose proof (hi_i _ _ _ Hinv) as Hi. pose proof (is_capacity_range _ Hcap).
  simpl. rewrite step_posn by done. set (j' := posn cap j 1) in *.
  rewrite vget_ok by (rewrite (hi_len _ _ _ Hinv); exact Hj'); simpl.
  destruct (Z.eqb_spec (K t j') EMPTY) as [Ej|Ej].
  { exists t; split; [done|]; split; [by eapply hole_done | done]. }
  assert (j' <> e0) by congruence.
  assert (j' <> i) by (pose proof (hi_hole _ _ _ Hinv); congruence).
  assert (Hd : dist cap j' e0 < Z.of_nat n) by (unfold j' in *; cyclic).
  assert (Hh : slot cap (home (K t j'))) by (apply home_slot; by apply Hinv).
  rewrite !land_dist by done.
  destruct (Z.leb_spec (dist cap i j') (dist cap (home (K t j')) j')) as [Hle|Hlt].
  - rewrite vset_ok by (rewrite (hi_len _ _ _ Hinv); exact Hi); simpl.
    rewrite vget_ok by (rewrite vlen_vupd, (hi_len _ _ _ Hinv); exact Hj'); simpl.
    rewrite vset_ok by (rewrite vlen_vupd, (hi_len _ _ _ Hinv); exact Hj'); simpl.
    rewrite vnth_vupd_ne by done.
    destruct (IH _ _ _ (hole_move _ _ _ Hinv Ej Hle)) as (t' & E & Hp & Hsame); try done.
    { unfold j' in *; rewrite !vnth_vupd_ne by done; done. }
    exists t'; split; [exact E|]; split; [done|].
    intros e Hne. rewrite <-(Hsame e Hne). apply move_same_entries; try done.
    by apply Hinv.
  - apply IH; try done. by apply hole_skip.
Qed.

(** ** The map as a whole *)

(** [m] stands for [M], and at least one slot is empty. *)
Record map_rep (m : FlatHashMap V) (M : gmap Z V) : Prop := {
  mr_mask : mask m = cap - 1;
  mr_probe : probe_inv (table m);
  mr_holds : holds (table m) M;
  mr_room : Z.of_nat (size M) < cap
}.

Lemma prefetch_spec m M k : map_rep m M -> FlatHashMap.prefetch Identity k m = Ok tt.
Proof using Hcap.
  intros [Hm Hp _ _]. unfold FlatHashMap.prefetch. rewrite Hm, vget_ok; [done|]. rewrite (pr_len _ Hp). apply home_any.
Qed.

Lemma map_rep_stops m M k :
  map_rep m M -> 0 <= k < 2 ^ 64 ->
  exists s, stops_at (table m) k s /\
    FlatHashMap.probe EMPTY (FlatHashMap.fuel m) (mask m) (table m) k (FlatHashMap.hash Identity (mask m) k) = Ok s.
Proof using Hcap.
  intros [Hm Hp Hh Hr] Hk. pose proof (room_has_empty _ _ Hp Hh Hr) as He.
  destruct (stops_exists _ _ Hk He) as (s & Hs). exists s; split; [done|].
  rewrite Hm. apply probe_home; try done. apply Hp.
Qed.

Lemma map_rep_lookup m M k s :
  map_rep m M -> stops_at (table m) k s ->
  M !! k = (if key (vnth (table m) s) =? EMPTY then None else Some (value (vnth (table m) s))).
Proof using Hcap.
  intros [Hm Hp Hh Hr] Hst. pose proof Hst as (Hs & Hstop & _).
  destruct (Z.eqb_spec (K (table m) s) EMPTY) as [E|E].
  - destruct (M !! k) as [v|] eqn:Ek; [|done]. apply Hh in Ek as (Hne & s' & Hs' & Ht).
    assert (s = s') as -> by (eapply stops_found; eauto; by rewrite Ht). rewrite Ht in E; done.
  - destruct Hstop as [|Ek]; [done|]. apply Hh. rewrite <-Ek. split; [done|].
    exists s; split; [done | by destruct (vnth (table m) s)].
Qed.

Lemma find_spec m M k :
  map_rep m M -> 0 <= k < 2 ^ 64 -> FlatHashMap.find EMPTY Identity k m = Ok (M !! k).
Proof using Hcap.
  intros Hrep Hk. destruct (map_rep_stops _ _ _ Hrep Hk) as (s & Hst & E).
  unfold FlatHashMap.find. rewrite find_loop_probe, E; simpl.
  rewrite vget_ok by (rewrite (pr_len _ (mr_probe _ _ Hrep)); apply Hst); simpl.
  by rewrite (map_rep_lookup _ _ _ _ Hrep Hst).
Qed.

Lemma insert_spec m M k v :
  map_rep m M -> 0 <= k < 2 ^ 64 -> k <> EMPTY -> Z.of_nat (size (<[k:=v]> M)) < cap ->
  exists m', FlatHashMap.insert EMPTY Identity k v m = Ok m' /\ map_rep m' (<[k:=v]> M).
Proof using Hcap.
  intros Hrep Hk Hne Hroom. destruct (map_rep_stops _ _ _ Hrep Hk) as (s & Hst & E).
  unfold FlatHashMap.insert. rewrite E; simpl.
  rewrite vset_ok by (rewrite (pr_len _ (mr_probe _ _ Hrep)); apply Hst); simpl.
  eexists; split; [done|]. destruct Hrep as [Hm Hp Hh Hr]. split; simpl; try done.
  - by apply write_inv.
  - by apply write_holds.
Qed.

Lemma erase_spec m M k :
  map_rep m M -> 0 <= k < 2 ^ 64 ->
  exists m', FlatHashMap.erase EMPTY Identity k m = Ok m' /\ map_rep m' (delete k M).
Proof using Hcap HEMPTY.
  intros Hrep Hk. destruct (map_rep_stops _ _ _ Hrep Hk) as (s & Hst & E).
  unfold FlatHashMap.erase. rewrite locate_probe, E, bind_ok; cbv beta.
  pose proof (pr_len _ (mr_probe _ _ Hrep)) as Hlen. pose proof (proj1 Hst) as Hs.
  rewrite vget_ok by (rewrite Hlen; apply Hst). rewrite bind_ok; cbv beta.
  pose proof (map_rep_lookup _ _ _ _ Hrep Hst) as Hlk.
  destruct (Z.eqb_spec (K (table m) s) EMPTY) as [Es|Es].
  { exists m; split; [done|]. by rewrite delete_id. }
  rewrite vset_ok by (rewrite Hlen; exact Hs). rewrite bind_ok; cbv beta. rewrite (mr_mask _ _ Hrep).
  destruct (room_has_empty _ _ (mr_probe _ _ Hrep) (mr_holds _ _ Hrep) (mr_room _ _ Hrep)) as (e0 & He0 & Hk0).
  assert (e0 <> s) by congruence.
  destruct (backshift_spec (FlatHashMap.fuel m) _ _ _ e0 (hole_open _ s (mr_probe _ _ Hrep) Hs))
    as (t' & -> & Hp' & Hsame); try done.
  { by rewrite vnth_vupd_ne. }
  { unfold FlatHashMap.fuel; rewrite Hlen. pose proof (dist_range cap s e0 Hs He0); lia. }
  simpl; eexists; split; [done|]. destruct Hrep as [Hm Hp Hh Hr].
  assert (Ek : K (table m) s = k) by (by destruct Hst as (_ & [|] & _)).
  split; simpl; try done.
  - intros k' v'. rewrite lookup_delete_Some, (Hh k' v'). split.
    + intros (Hkk & Hne' & s' & Hs' & Ht). split; [done|]. apply (Hsame (mkEntry k' v')); [done|].
      exists s'; split; [done|]. rewrite vnth_vupd_ne; [done|]. intros ->. rewrite Ht in Ek; done.
    + intros (Hne' & Hex). apply (Hsame (mkEntry k' v') Hne') in Hex as (s' & Hs' & Ht).
      rewrite vnth_vupd in Ht. case_decide as Es'; [injection Ht as <- <-; done|].
      split; [|eauto]. intros ->. apply Es'. eapply (pr_unique _ Hp); try done. by rewrite Ht, Ek.
  - rewrite map_size_delete. destruct (M !! k); simpl; lia.
Qed.

Lemma new_spec v0 : map_rep (FlatHashMap.new EMPTY v0 cap) ∅.
Proof using Hcap HEMPTY.
  pose proof (is_capacity_range _ Hcap). split; simpl.
  - rewrite u64_small; lia.
  - split; simpl; try done; intros *; rewrite !vnth_vassign; simpl; done || lia.
  - intros k v; rewrite lookup_empty. split; [done|]. intros (Hne & s & _ & Ht).
    rewrite vnth_vassign in Ht; injection Ht as <- _; done.
  - rewrite map_size_empty; lia.
Qed.
End proofs.
