(* ===== verification/Itch.v ===== *)
(** The ITCH message parser of include/itch.hpp and src/itch.cpp, on byte
    buffers, with the wire layout it decodes and the round trip between the
    two. A [const char*&] is the list of bytes from the pointer to the end of
    the buffer; reading or stepping past the end is [UB]. *)
From Stdlib Require Import ZArith Lia.
From stdpp Require Import base numbers gmap list.
From S2P Require Import Prelude OrderPool.
Open Scope Z_scope.

Abbreviation bytes := (list Z).

(** ** Loads and byte order *)

(** [memcpy] into an integer on a little-endian host. *)
Definition le16 (b0 b1 : Z) : Z := b0 + 2 ^ 8 * b1.
Definition le32 (b0 b1 b2 b3 : Z) : Z := le16 b0 b1 + 2 ^ 16 * le16 b2 b3.

(** [ntohs], [ntohl], [htons], [htonl]: reverse the bytes. *)
Definition bswap16 (v : Z) : Z := (v mod 2 ^ 8) * 2 ^ 8 + (v / 2 ^ 8) mod 2 ^ 8.
Definition bswap32 (v : Z) : Z := bswap16 (v mod 2 ^ 16) * 2 ^ 16 + bswap16 (v / 2 ^ 16).

Definition advance (n : nat) (data : bytes) : result bytes :=
  if (n <=? length data)%nat then Ok (drop n data) else Err UB.

Definition load16 (data : bytes) : result Z :=
  match data with b0 :: b1 :: _ => Ok (le16 b0 b1) | _ => Err UB end.
Definition load32 (data : bytes) : result Z :=
  match data with b0 :: b1 :: b2 :: b3 :: _ => Ok (le32 b0 b1 b2 b3) | _ => Err UB end.

Record DeleteOrder := mkDelete { del_high : Z; del_low : Z }.
Record OrderExecutedMsg := mkExecMsg { exec_orderRef : Z; exec_shares : Z }.
Record OrderReplaceMsg := mkReplace {
  originalOrderRef : Z; newOrderRef : Z; rep_shares : Z; rep_price : Z
}.

Module ItchParser.

Definition skipHeader (data : bytes) : result bytes := advance 10 data.

Definition readU32 (data : bytes) : result (Z * bytes) :=
  v ← load32 data;
  data ← advance 4 data;
  Ok (bswap32 v, data).

Definition readRef (data : bytes) : result (Z * bytes) :=
  '(hi, data) ← readU32 data;
  '(lo, data) ← readU32 data;
  Ok (Z.lor (u64 (Z.shiftl hi 32)) lo, data).

Definition readDeleteOrder (data : bytes) : result (DeleteOrder * bytes) :=
  data ← skipHeader data;
  '(ref, data) ← readRef data;
  Ok (mkDelete (u32 (Z.shiftr ref 32)) (u32 ref), data).

Definition readAddOrder (data : bytes) : result (Order * bytes) :=
  data ← skipHeader data;
  '(ref, data) ← readRef data;
  '(side, data) ← (match data with c :: data => Ok (c, data) | [] => Err UB end);
  '(shares, data) ← readU32 data;
  data ← advance 8 data;
  '(price, data) ← readU32 data;
  Ok (mkOrder (u32 (Z.shiftr ref 32)) (u32 ref) shares price side, data).

Definition readOrderExecuted (data : bytes) : result (OrderExecutedMsg * bytes) :=
  data ← skipHeader data;
  '(ref, data) ← readRef data;
  '(shares, data) ← readU32 data;
  Ok (mkExecMsg ref shares, data).

Definition readOrderReplace (data : bytes) : result (OrderReplaceMsg * bytes) :=
  data ← skipHeader data;
  '(origRef, data) ← readRef data;
  '(newRef, data) ← readRef data;
  '(shares, data) ← readU32 data;
  '(price, data) ← readU32 data;
  Ok (mkReplace origRef newRef shares price, data).

End ItchParser.

(** ** The wire layout *)

(** Big-endian fields. *)
Definition be16 (v : Z) : bytes := [v / 2 ^ 8 mod 2 ^ 8; v mod 2 ^ 8].
Definition be32 (v : Z) : bytes := be16 (v / 2 ^ 16) ++ be16 (v mod 2 ^ 16).
Definition be64 (v : Z) : bytes := be32 (v / 2 ^ 32) ++ be32 (v mod 2 ^ 32).

(** The bytes after the type byte. [header] is stock locate, tracking number
    and timestamp; [stock] the 8-character symbol. *)
Definition enc_add (header : bytes) (ref side shares : Z) (stock : bytes) (price : Z) : bytes :=
  header ++ be64 ref ++ [side] ++ be32 shares ++ stock ++ be32 price.
Definition enc_delete (header : bytes) (ref : Z) : bytes := header ++ be64 ref.
Definition enc_executed (header : bytes) (ref shares : Z) : bytes := header ++ be64 ref ++ be32 shares.
Definition enc_replace (header : bytes) (orig new shares price : Z) : bytes :=
  header ++ be64 orig ++ be64 new ++ be32 shares ++ be32 price.

(** A message behind its 2-byte length, and a sequence of them: the format of
    ITCH files and of packet bodies. *)
Definition frame (msg : bytes) : bytes := be16 (Z.of_nat (length msg)) ++ msg.
Definition frames (msgs : list bytes) : bytes := concat (frame <$> msgs).
Definition is_msg (m : bytes) : Prop := Z.of_nat (length m) < 65536.

Definition is_u16 (v : Z) : Prop := 0 <= v < 65536.
Definition is_u32 (v : Z) : Prop := 0 <= v < 2 ^ 32.
Definition is_u64 (v : Z) : Prop := 0 <= v < 2 ^ 64.

(** ** Reading back *)

Lemma bswap16_le16 w : 0 <= w < 2 ^ 16 -> bswap16 (le16 (w / 2 ^ 8 mod 2 ^ 8) (w mod 2 ^ 8)) = w.
Proof.
  unfold bswap16, le16; intros. change (2 ^ 8) with 256. change (2 ^ 16) with 65536 in *.
  Z.to_euclidean_division_equations. lia.
Qed.

Lemma le16_range b0 b1 : 0 <= b0 < 2 ^ 8 -> 0 <= b1 < 2 ^ 8 -> 0 <= le16 b0 b1 < 2 ^ 16.
Proof. unfold le16. lia. Qed.

Lemma byte_range v : 0 <= v mod 2 ^ 8 < 2 ^ 8.
Proof. apply Z.mod_pos_bound; lia. Qed.
#[local] Hint Resolve byte_range : core.

Lemma bswap32_le32 v : is_u32 v ->
  bswap32 (le32 (v / 2 ^ 16 / 2 ^ 8 mod 2 ^ 8) (v / 2 ^ 16 mod 2 ^ 8)
                (v mod 2 ^ 16 / 2 ^ 8 mod 2 ^ 8) (v mod 2 ^ 16 mod 2 ^ 8)) = v.
Proof.
  unfold is_u32; intros Hv. unfold bswap32, le32.
  set (a := le16 _ _). set (b := le16 _ _).
  assert (0 <= a < 2 ^ 16) by (apply le16_range; auto).
  assert (0 <= b < 2 ^ 16) by (apply le16_range; auto).
  replace ((a + 2 ^ 16 * b) mod 2 ^ 16) with a
    by (rewrite Z.mul_comm, Z.mod_add, Z.mod_small; lia).
  replace ((a + 2 ^ 16 * b) / 2 ^ 16) with b
    by (rewrite Z.mul_comm, Z.div_add, Z.div_small; lia).
  subst a b. rewrite !bswap16_le16.
  - rewrite (Z.div_mod v (2 ^ 16)) at 3 by lia. lia.
  - apply Z.mod_pos_bound; lia.
  - split; [apply Z.div_pos; lia | apply Z.div_lt_upper_bound; lia].
Qed.

Lemma readU32_be32 v rest : is_u32 v -> ItchParser.readU32 (be32 v ++ rest) = Ok (v, rest).
Proof.
  intros Hv. unfold ItchParser.readU32, be32, be16; simpl app. cbn [load32].
  rewrite bind_ok. rewrite bswap32_le32 by done. done.
Qed.

Lemma load16_be16 v rest : is_u16 v -> exists w, load16 (be16 v ++ rest) = Ok w /\ bswap16 w = v.
Proof. intros Hv. eexists; split; [done|]. by apply bswap16_le16. Qed.

Lemma load32_be32 v rest : is_u32 v -> exists w, load32 (be32 v ++ rest) = Ok w /\ is_u32 w /\ bswap32 w = v.
Proof.
  intros Hv. eexists; split; [done|]. split; [|by apply bswap32_le32].
  unfold is_u32, le32. match goal with |- context [le16 ?a ?b + 2 ^ 16 * le16 ?c ?d] =>
    assert (0 <= le16 a b < 2 ^ 16) by (apply le16_range; auto);
    assert (0 <= le16 c d < 2 ^ 16) by (apply le16_range; auto) end. lia.
Qed.

(** [(hi << 32) | lo] is the 64-bit number with those halves. *)
Lemma join_halves hi lo : is_u32 hi -> is_u32 lo ->
  Z.lor (u64 (Z.shiftl hi 32)) lo = hi * 2 ^ 32 + lo.
Proof.
  unfold is_u32; intros Hhi Hlo. rewrite Z.shiftl_mul_pow2, u64_small by lia.
  assert (Hd : Z.land (hi * 2 ^ 32) lo = 0).
  { apply Z.bits_inj'; intros n Hn. rewrite Z.land_spec, Z.bits_0.
    destruct (Z.ltb_spec n 32).
    - rewrite Z.mul_pow2_bits_low by lia; done.
    - rewrite (Z.bits_above_log2 lo n); [apply andb_false_r | lia |].
      destruct (Z.eq_dec lo 0) as [->|]; [simpl; lia|]. apply Z.log2_lt_pow2; [lia|].
      apply (Z.lt_le_trans _ (2 ^ 32)); [lia | apply Z.pow_le_mono_r; lia]. }
  rewrite Z.add_nocarry_lxor, Z.lxor_lor by done. done.
Qed.

Lemma halves v : is_u64 v -> is_u32 (v / 2 ^ 32) /\ is_u32 (v mod 2 ^ 32).
Proof.
  unfold is_u64, is_u32; intros Hv. split; [|apply Z.mod_pos_bound; lia].
  split; [apply Z.div_pos; lia | apply Z.div_lt_upper_bound; lia].
Qed.

Lemma readRef_be64 v rest : is_u64 v -> ItchParser.readRef (be64 v ++ rest) = Ok (v, rest).
Proof.
  intros Hv. destruct (halves v Hv) as [Hhi Hlo]. unfold ItchParser.readRef, be64.
  rewrite <-app_assoc, readU32_be32, bind_ok, readU32_be32, bind_ok, join_halves by done.
  rewrite (Z.div_mod v (2 ^ 32)) at 3 by lia. do 2 f_equal. lia.
Qed.

Lemma advance_app n l rest : n = length l -> advance n (l ++ rest) = Ok rest.
Proof.
  intros ->. unfold advance. rewrite length_app, drop_app_length.
  by destruct (Nat.leb_spec (length l) (length l + length rest)); [|lia].
Qed.

Lemma skipHeader_app header rest : length header = 10%nat ->
  ItchParser.skipHeader (header ++ rest) = Ok rest.
Proof. intros Hl. by apply advance_app. Qed.

(** The high and low words an [Order] or [DeleteOrder] keeps of a reference. *)
Lemma ref_high v : is_u64 v -> u32 (Z.shiftr v 32) = v / 2 ^ 32.
Proof. intros Hv. rewrite Z.shiftr_div_pow2 by lia. apply u32_small, (halves v Hv). Qed.

(** An order as the parser builds it from a reference, and its reference back. *)
Definition order_of (ref side shares price : Z) : Order :=
  mkOrder (ref / 2 ^ 32) (ref mod 2 ^ 32) shares price side.

Lemma order_ref_of ref side shares price : is_u64 ref -> order_ref (order_of ref side shares price) = ref.
Proof.
  intros Hv. destruct (halves ref Hv). unfold order_ref, order_of; simpl.
  rewrite join_halves by done. rewrite (Z.div_mod ref (2 ^ 32)) at 3 by lia. lia.
Qed.

Lemma readAddOrder_enc header ref side shares stock price rest :
  length header = 10%nat -> is_u64 ref -> is_u32 shares -> length stock = 8%nat -> is_u32 price ->
  ItchParser.readAddOrder (enc_add header ref side shares stock price ++ rest) =
  Ok (order_of ref side shares price, rest).
Proof.
  intros Hh Hr Hs Hst Hp. unfold ItchParser.readAddOrder, enc_add. rewrite <-!app_assoc.
  rewrite skipHeader_app, bind_ok, readRef_be64, bind_ok by done. cbn [app].
  rewrite bind_ok, readU32_be32, bind_ok by done.
  by rewrite advance_app, bind_ok, readU32_be32, bind_ok, ref_high by done.
Qed.

Lemma readDeleteOrder_enc header ref rest : length header = 10%nat -> is_u64 ref ->
  ItchParser.readDeleteOrder (enc_delete header ref ++ rest) =
  Ok (mkDelete (ref / 2 ^ 32) (ref mod 2 ^ 32), rest).
Proof.
  intros. unfold ItchParser.readDeleteOrder, enc_delete. rewrite <-!app_assoc.
  by rewrite skipHeader_app, bind_ok, readRef_be64, bind_ok, ref_high by done.
Qed.

Lemma readOrderExecuted_enc header ref shares rest :
  length header = 10%nat -> is_u64 ref -> is_u32 shares ->
  ItchParser.readOrderExecuted (enc_executed header ref shares ++ rest) =
  Ok (mkExecMsg ref shares, rest).
Proof.
  intros. unfold ItchParser.readOrderExecuted, enc_executed. rewrite <-!app_assoc.
  by rewrite skipHeader_app, bind_ok, readRef_be64, bind_ok, readU32_be32, bind_ok by done.
Qed.

Lemma readOrderReplace_enc header orig new shares price rest :
  length header = 10%nat -> is_u64 orig -> is_u64 new -> is_u32 shares -> is_u32 price ->
  ItchParser.readOrderReplace (enc_replace header orig new shares price ++ rest) =
  Ok (mkReplace orig new shares price, rest).
Proof.
  intros. unfold ItchParser.readOrderReplace, enc_replace. rewrite <-!app_assoc.
  rewrite skipHeader_app, bind_ok, readRef_be64, bind_ok, readRef_be64, bind_ok by done.
  by rewrite readU32_be32, bind_ok, readU32_be32, bind_ok by done.
Qed.

Lemma frames_cons m msgs : frames (m :: msgs) = be16 (Z.of_nat (length m)) ++ m ++ frames msgs.
Proof. unfold frames, frame. rewrite fmap_cons. cbn [concat]. by rewrite <-app_assoc. Qed.

Lemma frames_length m msgs : length (frames (m :: msgs)) = (2 + length m + length (frames msgs))%nat.
Proof. rewrite frames_cons, !length_app. simpl. lia. Qed.

Lemma frames_count msgs : (length msgs <= length (frames msgs))%nat.
Proof. induction msgs as [|m msgs IH]; [done|]. rewrite frames_length. simpl. lia. Qed.
