(* ===== verification/Exchange.v ===== *)
(** The contract of the matching engine: a market of price-time books in which
    orders are known by their reference numbers alone. Pool slots, the order
    map and the price ladders do not occur; [MatchingEngine] proves that the
    engine implements [Exchange.step]. *)
From Stdlib Require Import ZArith Lia.
From stdpp Require Import base numbers gmap sorting functions list.
From S2P Require Import Prelude OrderPool LadderSide PriceTime OrderBook.
Open Scope Z_scope.

Module Exchange.

(** ** Books of orders *)

Record book := Book { Bids : list Order; Asks : list Order }.

Fixpoint enqueue (isBid : bool) (o : Order) (Q : list Order) : list Order :=
  match Q with
  | [] => [o]
  | o' :: Q' => if better isBid (price o) (price o') then o :: Q else o' :: enqueue isBid o Q'
  end.

Record swept := Swept { left : Z; fills : list (Z * Z); gone : list Z; rest : list Order }.

(** Execute [qty] best first while the price is accepted; [gone] names the
    orders filled completely. *)
Fixpoint sweep (accept : Z -> bool) (qty : Z) (Q : list Order) : swept :=
  match Q with
  | [] => Swept qty [] [] []
  | o :: Q' =>
      if (0 <? qty) && accept (price o) then
        let x := Z.min qty (shares o) in
        if x =? shares o then
          let r := sweep accept (qty - x) Q' in
          Swept (left r) ((order_ref o, x) :: fills r) (order_ref o :: gone r) (rest r)
        else Swept (qty - x) [(order_ref o, x)] [] (set_shares (shares o - x) o :: Q')
      else Swept qty [] [] Q
  end.

Definition submit (o : Order) (b : book) : swept * book :=
  if buySellIndicator o =? chr_B then
    let r := sweep (fun p => p <=? price o) (shares o) (Asks b) in
    (r, Book (if 0 <? left r then enqueue true (set_shares (left r) o) (Bids b) else Bids b) (rest r))
  else
    let r := sweep (fun p => price o <=? p) (shares o) (Bids b) in
    (r, Book (rest r) (if 0 <? left r then enqueue false (set_shares (left r) o) (Asks b) else Asks b)).

Definition cancel (ref : Z) (b : book) : book :=
  Book (filter (fun o => order_ref o <> ref) (Bids b)) (filter (fun o => order_ref o <> ref) (Asks b)).

Definition reduce1 (ref x : Z) (o : Order) : Order :=
  if order_ref o =? ref then set_shares (shares o - x) o else o.
Definition reduce (ref x : Z) (b : book) : book :=
  Book (reduce1 ref x <$> Bids b) (reduce1 ref x <$> Asks b).

Definition resting (ref : Z) (b : book) : option Order :=
  snd <$> list_find (fun o => order_ref o = ref) (Bids b ++ Asks b).

(** ** The market *)

(** A book per stock locate code, and the directory: which book holds the
    live order of a reference. *)
Record market := Market { books : Z -> book; dir : gmap Z Z }.

Definition empty : market := Market (fun _ => Book [] []) ∅.

Inductive message :=
| Add (locate : Z) (o : Order)
| Delete (ref : Z)
| Reduce (ref x : Z)                       (* executed or cancelled shares *)
| Replace (orig new x p : Z)
| Ignored.

(** Enter an order: the executions, and the market afterwards. *)
Definition enter (l : Z) (o : Order) (mk : market) : market * list (Z * Z) :=
  let '(r, b) := submit o (books mk l) in
  let dir := foldr delete (dir mk) (gone r) in
  (Market (<[l := b]> (books mk)) (if 0 <? left r then <[order_ref o := l]> dir else dir), fills r).

Definition remove (l ref : Z) (mk : market) : market :=
  Market (<[l := cancel ref (books mk l)]> (books mk)) (delete ref (dir mk)).

(** The order a replacement enters: the side is the original's. *)
Definition replacement (new x p : Z) (orig : Order) : Order :=
  mkOrder (u32 (Z.shiftr new 32)) (u32 new) x p (buySellIndicator orig).

(** One message. The second component is the list of executions of the
    order the message entered, if it entered one. *)
Definition step (m : message) (mk : market) : market * option (list (Z * Z)) :=
  match m with
  | Add l o => let '(mk, f) := enter l o mk in (mk, Some f)
  | Delete ref =>
      match dir mk !! ref with
      | None => (mk, None)
      | Some l => (remove l ref mk, None)
      end
  | Reduce ref x =>
      match dir mk !! ref with
      | None => (mk, None)
      | Some l =>
          match resting ref (books mk l) with
          | None => (mk, None)
          | Some o =>
              if shares o <=? x then (remove l ref mk, None)
              else (Market (<[l := reduce ref x (books mk l)]> (books mk)) (dir mk), None)
          end
      end
  | Replace orig new x p =>
      match dir mk !! orig with
      | None => (mk, None)
      | Some l =>
          match resting orig (books mk l) with
          | None => (mk, None)
          | Some o =>
              let '(mk, f) := enter l (replacement new x p o) (remove l orig mk) in (mk, Some f)
          end
      end
  | Ignored => (mk, None)
  end.

(** What the feed guarantees of the next message: an order of a known side,
    under a reference that is not live and is not the map's sentinel, and
    fewer than [cap] live orders. *)
Definition enterable (cap reserved : Z) (o : Order) (mk : market) : Prop :=
  dir mk !! order_ref o = None /\ order_ref o <> reserved /\
  Z.of_nat (size (dir mk)) + 1 < cap.

(** No bid reaches an ask. *)
Definition uncrossed (b : book) : Prop :=
  forall x y, x ∈ Bids b -> y ∈ Asks b -> price x < price y.

Definition admissible (cap reserved : Z) (m : message) (mk : market) : Prop :=
  match m with
  | Add l o => (buySellIndicator o = chr_B \/ buySellIndicator o = chr_S) /\ enterable cap reserved o mk
  | Replace orig new x p =>
      new <> reserved /\ (new = orig \/ dir mk !! new = None)
  | _ => True
  end.

(** A session: the messages in order. *)
Fixpoint steps (ms : list message) (mk : market) : market :=
  match ms with
  | [] => mk
  | m :: ms => steps ms (step m mk).1
  end.

Fixpoint all_admissible (cap reserved : Z) (ms : list message) (mk : market) : Prop :=
  match ms with
  | [] => True
  | m :: ms => admissible cap reserved m mk /\ all_admissible cap reserved ms (step m mk).1
  end.
End Exchange.

(** ** Forgetting the slots *)

Definition reduce_entry (i x : Z) (e : entry) : entry :=
  if e.1 =? i then (e.1, set_shares (shares e.2 - x) e.2) else e.
Definition book_reduce (i x : Z) (B : PriceTime.abook) : PriceTime.abook :=
  PriceTime.ABook (reduce_entry i x <$> PriceTime.aBids B) (reduce_entry i x <$> PriceTime.aAsks B).

(** The book without its slots, its entries, and slot and reference of each. *)
Definition view (B : PriceTime.abook) : Exchange.book :=
  Exchange.Book (PriceTime.aBids B).*2 (PriceTime.aAsks B).*2.
Definition entries (B : PriceTime.abook) : list entry := PriceTime.aBids B ++ PriceTime.aAsks B.
Definition ekey (e : entry) : Z * Z := (e.1, order_ref e.2).
Definition keys (B : PriceTime.abook) : list (Z * Z) := ekey <$> entries B.

Section views.
Implicit Types (Q : list entry) (B : PriceTime.abook).

Lemma enqueue_view isBid e Q : (PriceTime.enqueue isBid e Q).*2 = Exchange.enqueue isBid e.2 Q.*2.
Proof. induction Q as [|e' Q IH]; simpl; [done|]. case_match; [done|]. by rewrite fmap_cons, IH. Qed.

Lemma sweep_view accept qty Q :
  let r := PriceTime.sweep accept qty Q in
  Exchange.sweep accept qty Q.*2 =
  Exchange.Swept (PriceTime.left r) (PriceTime.fills r) (gone_refs r) (PriceTime.rest r).*2.
Proof.
  simpl. revert qty; induction Q as [|[i o] Q IH]; intros qty; simpl; [done|].
  case_match; [|done]. case_match; [|done]. by rewrite IH.
Qed.

Lemma submit_view (isBuy : bool) o idx B :
  (buySellIndicator o =? chr_B) = isBuy ->
  let r := (PriceTime.submit isBuy o idx B).1 in
  Exchange.submit o (view B) =
  (Exchange.Swept (PriceTime.left r) (PriceTime.fills r) (gone_refs r) (PriceTime.rest r).*2,
   view (PriceTime.submit isBuy o idx B).2).
Proof.
  intros Ho. unfold Exchange.submit, PriceTime.submit, view. rewrite Ho.
  destruct isBuy; simpl;
    [change (fun p => p <=? price o) with (PriceTime.accepts true (price o))
    |change (fun p => price o <=? p) with (PriceTime.accepts false (price o))];
    rewrite sweep_view; cbn [Exchange.left Exchange.rest]; case_match; by rewrite ?enqueue_view.
Qed.

Lemma uncrossed_view B : Exchange.uncrossed (view B) <-> PriceTime.uncrossed B.
Proof.
  unfold Exchange.uncrossed, PriceTime.uncrossed, view; simpl. split.
  - intros H x y Hx Hy. apply H; by apply list_elem_of_fmap_2.
  - intros H x y (x' & -> & Hx)%list_elem_of_fmap (y' & -> & Hy)%list_elem_of_fmap. auto.
Qed.

Lemma cancel_side_view i ref Q :
  (forall e, e ∈ Q -> e.1 = i <-> order_ref e.2 = ref) ->
  (PriceTime.cancel i Q).*2 = filter (fun o => order_ref o <> ref) Q.*2.
Proof.
  unfold PriceTime.cancel. induction Q as [|e Q IH]; intros H; [done|].
  rewrite filter_cons. change ((e :: Q).*2) with (e.2 :: Q.*2). rewrite filter_cons.
  pose proof (H e ltac:(set_solver)). rewrite <-IH by set_solver.
  repeat case_decide; try done; tauto.
Qed.

Lemma reduce_side_view i ref x Q :
  (forall e, e ∈ Q -> e.1 = i <-> order_ref e.2 = ref) ->
  (reduce_entry i x <$> Q).*2 = Exchange.reduce1 ref x <$> Q.*2.
Proof.
  induction Q as [|e Q IH]; intros H; [done|]. rewrite !fmap_cons, IH by set_solver. f_equal.
  unfold reduce_entry, Exchange.reduce1. pose proof (H e ltac:(set_solver)).
  destruct (Z.eqb_spec e.1 i), (Z.eqb_spec (order_ref e.2) ref); tauto || done.
Qed.

Lemma cancel_view i ref B :
  (forall e, e ∈ entries B -> e.1 = i <-> order_ref e.2 = ref) ->
  view (PriceTime.book_cancel i B) = Exchange.cancel ref (view B).
Proof.
  intros H; unfold view, Exchange.cancel, PriceTime.book_cancel, entries in *; simpl.
  by rewrite !(cancel_side_view i ref) by set_solver.
Qed.

Lemma reduce_view i ref x B :
  (forall e, e ∈ entries B -> e.1 = i <-> order_ref e.2 = ref) ->
  view (book_reduce i x B) = Exchange.reduce ref x (view B).
Proof.
  intros H; unfold view, Exchange.reduce, book_reduce, entries in *; simpl.
  by rewrite !(reduce_side_view i ref) by set_solver.
Qed.

Lemma resting_view i o B :
  (i, o) ∈ entries B -> (forall e, e ∈ entries B -> order_ref e.2 = order_ref o -> e = (i, o)) ->
  Exchange.resting (order_ref o) (view B) = Some o.
Proof.
  unfold Exchange.resting, view, entries; simpl. rewrite <-fmap_app.
  generalize (PriceTime.aBids B ++ PriceTime.aAsks B) as Q.
  intros Q Hin Hu. induction Q as [|e Q IH]; [by apply elem_of_nil in Hin|]. simpl.
  case_decide as He.
  - by rewrite (Hu e ltac:(set_solver) He).
  - apply elem_of_cons in Hin as [<-|Hin]; [done|].
    rewrite <-option_fmap_compose. rewrite <-IH by set_solver. by destruct (list_find _ _) as [[]|].
Qed.

(** *** Slots and references through the operations *)

Lemma sweep_keys accept qty Q :
  let r := PriceTime.sweep accept qty Q in
  ekey <$> Q = (ekey <$> PriceTime.gone r) ++ (ekey <$> PriceTime.rest r).
Proof.
  simpl. revert qty; induction Q as [|[i o] Q IH]; intros qty; simpl; [done|].
  repeat case_match; simpl; [by f_equal | done | done].
Qed.

(** The filled orders leave, the remainder joins; [R] is what stays. *)
Lemma submit_keys (isBuy : bool) o idx B :
  let r := (PriceTime.submit isBuy o idx B).1 in
  exists R,
    keys B ≡ₚ (ekey <$> PriceTime.gone r) ++ R /\
    keys (PriceTime.submit isBuy o idx B).2 ≡ₚ
      (if 0 <? PriceTime.left r then [(idx, order_ref o)] else []) ++ R.
Proof.
  unfold keys, entries, PriceTime.submit, PriceTime.own, PriceTime.opp.
  destruct isBuy; simpl; rewrite ?fmap_app;
    [rewrite (sweep_keys (PriceTime.accepts true (price o)) (shares o) (PriceTime.aAsks B))
    |rewrite (sweep_keys (PriceTime.accepts false (price o)) (shares o) (PriceTime.aBids B))]; simpl.
  - eexists ((ekey <$> PriceTime.aBids B) ++ (ekey <$> PriceTime.rest _)). split; [solve_Permutation|].
    case_match; rewrite ?PriceTime.enqueue_perm; done.
  - eexists ((ekey <$> PriceTime.rest _) ++ (ekey <$> PriceTime.aAsks B)). split; [solve_Permutation|].
    case_match; rewrite ?PriceTime.enqueue_perm; simpl; solve_Permutation.
Qed.

Lemma cancel_keys i o B :
  (i, o) ∈ entries B -> NoDup (PriceTime.book_idxs B) ->
  keys B ≡ₚ (i, order_ref o) :: keys (PriceTime.book_cancel i B).
Proof.
  assert (Hc : forall Q, NoDup Q.*1 -> (i, o) ∈ Q ->
    ekey <$> Q ≡ₚ (i, order_ref o) :: (ekey <$> PriceTime.cancel i Q)).
  { intros Q Hnd (Q1 & Q2 & ->)%list_elem_of_split. rewrite (PriceTime.cancel_split _ _ _ _ Hnd).
    rewrite !fmap_app; simpl. solve_Permutation. }
  unfold keys, entries, PriceTime.book_idxs, PriceTime.book_cancel; simpl.
  intros [Hin|Hin]%elem_of_app (N1 & Hx & N2)%NoDup_app; rewrite !fmap_app; rewrite (Hc _ N1 Hin) || rewrite (Hc _ N2 Hin).
  - rewrite (cancel_absent i (PriceTime.aAsks B)); [done|]. apply Hx, list_elem_of_fmap; by exists (i, o).
  - rewrite (cancel_absent i (PriceTime.aBids B)); [solve_Permutation|].
    intros Hi; apply (Hx i Hi), list_elem_of_fmap; by exists (i, o).
Qed.

Lemma reduce_keys i x B : keys (book_reduce i x B) = keys B.
Proof.
  unfold keys, entries, book_reduce; simpl. rewrite !fmap_app, <-!list_fmap_compose.
  f_equal; apply list_fmap_ext; intros j e _; unfold compose, reduce_entry; by case_match.
Qed.

Lemma keys_fst B : (keys B).*1 = PriceTime.book_idxs B.
Proof. unfold keys, entries, PriceTime.book_idxs. rewrite !fmap_app, <-!list_fmap_compose. done. Qed.
End views.
