(* ===== verification/MatchingEngine.v ===== *)
(** The matching engine of include/matching_engine.hpp and
    src/matching_engine.cpp: one pool, one book per stock locate code, the map
    from order references to their place, and the message dispatch; with the
    proof that it implements [Exchange.step]. *)
From Stdlib Require Import ZArith Lia.
From stdpp Require Import base numbers gmap sorting functions list.
From S2P Require Import Prelude Tsc OrderPool LadderSide PriceTime OrderBook FlatHashMap Itch Exchange.
Open Scope Z_scope.

Record OrderLocation := mkLoc { stockLocate : Z; poolIdx : Z }.

#[export] Instance OrderLocation_eq_dec : EqDecision OrderLocation.
Proof. solve_decision. Defined.

Record EngineScratch := mkScratch {
  scr_removedRefs : list Z;
  scr_executedOrders : list ItchOrderExecuted
}.

(** ** What the engine needs of the order map *)

(** The four operations the engine calls on [orderMap]. *)
Class OrderIndex (I : Type) := {
  idx_find : Z -> I -> result (option OrderLocation);
  idx_insert : Z -> OrderLocation -> I -> result I;
  idx_erase : Z -> I -> result I;
  idx_prefetch : Z -> I -> result unit
}.

(** What they promise: a finite map of fewer than [cap] entries, none of
    which has the key [reserved]. *)
Class OrderIndexSpec (I : Type) {HI : OrderIndex I} (cap reserved : Z) := {
  idx_rep : I -> gmap Z OrderLocation -> Prop;
  idx_rep_room : forall m M, idx_rep m M -> Z.of_nat (size M) < cap;
  idx_find_ok : forall m M k, idx_rep m M -> is_u64 k -> idx_find k m = Ok (M !! k);
  idx_insert_ok : forall m M k v,
    idx_rep m M -> is_u64 k -> k <> reserved -> Z.of_nat (size (<[k:=v]> M)) < cap ->
    exists m', idx_insert k v m = Ok m' /\ idx_rep m' (<[k:=v]> M);
  idx_erase_ok : forall m M k,
    idx_rep m M -> is_u64 k -> exists m', idx_erase k m = Ok m' /\ idx_rep m' (delete k M);
  idx_prefetch_ok : forall m M k, idx_rep m M -> idx_prefetch k m = Ok tt
}.

(** The engine's map is [FlatHashMap<uint64_t, OrderLocation, UINT64_MAX, true>]. *)
#[export] Instance flat_index : OrderIndex (FlatHashMap OrderLocation) := {|
  idx_find := FlatHashMap.find UINT64_MAX true;
  idx_insert := FlatHashMap.insert UINT64_MAX true;
  idx_erase := FlatHashMap.erase UINT64_MAX true;
  idx_prefetch := FlatHashMap.prefetch true
|}.

#[export] Instance flat_index_spec cap (Hcap : is_capacity cap) :
  OrderIndexSpec (FlatHashMap OrderLocation) cap UINT64_MAX.
Proof.
  refine {| idx_rep := map_rep UINT64_MAX true cap |}.
  - intros m M H; apply H.
  - intros m M k; by apply find_spec.
  - intros m M k v; by apply insert_spec.
  - intros m M k; apply erase_spec; [done | unfold UINT64_MAX; lia].
  - intros m M k H. by eapply prefetch_spec.
Defined.

(** ** The engine *)

(** [tscReads] counts the readings taken of the time stamp counter. *)
Record MatchingEngine (I : Type) := mkEngine {
  pool : OrderPool;
  orderMap : I;
  orderBooks : vec OrderBook;
  latencies : list Z;
  wireLatencies : list Z;
  tscReads : Z
}.
Arguments mkEngine {I} _ _ _ _ _ _.
Arguments pool {I} _.
Arguments orderMap {I} _.
Arguments orderBooks {I} _.
Arguments latencies {I} _.
Arguments wireLatencies {I} _.
Arguments tscReads {I} _.

Definition chr_A : Z := 65.
Definition chr_C : Z := 67.
Definition chr_D : Z := 68.
Definition chr_F : Z := 70.
Definition chr_U : Z := 85.
Definition chr_X : Z := 88.

(** What [open] and [mmap] came to. *)
Inductive opened := OpenFailed | MapFailed | Mapped (contents : bytes).

Module MatchingEngine.
Section engine.
(** [tscNow n] is what the [n]-th reading of the counter returns. *)
Context {I : Type} {HI : OrderIndex I} (tscNow : Z -> Z).
Implicit Types (e : MatchingEngine I).

Definition new (orderMap : I) : MatchingEngine I :=
  mkEngine OrderPool.new orderMap (vassign 65536 OrderBook.new) [] [] 0.

Definition readTsc e : Z * MatchingEngine I :=
  (tscNow (tscReads e),
   mkEngine (pool e) (orderMap e) (orderBooks e) (latencies e) (wireLatencies e) (tscReads e + 1)).

Definition set_pool (p : OrderPool) e : MatchingEngine I :=
  mkEngine p (orderMap e) (orderBooks e) (latencies e) (wireLatencies e) (tscReads e).
Definition set_map (m : I) e : MatchingEngine I :=
  mkEngine (pool e) m (orderBooks e) (latencies e) (wireLatencies e) (tscReads e).
Definition set_reads (n : Z) e : MatchingEngine I :=
  mkEngine (pool e) (orderMap e) (orderBooks e) (latencies e) (wireLatencies e) n.
Definition push_latency (n : Z) e : MatchingEngine I :=
  mkEngine (pool e) (orderMap e) (orderBooks e) (latencies e ++ [n]) (wireLatencies e) (tscReads e).
Definition push_wireLatency (n : Z) e : MatchingEngine I :=
  mkEngine (pool e) (orderMap e) (orderBooks e) (latencies e) (wireLatencies e ++ [n]) (tscReads e).

(** [orderBooks[l].handleOrder(...)] and [orderBooks[l].removeByIndex(...)]. *)
Definition bookHandle (l : Z) (o : Order) (scratch : EngineScratch) e
    : result (HandleOut * MatchingEngine I) :=
  book ← vget (orderBooks e) l;
  '(out, p, book) ← OrderBook.handleOrder o (scr_removedRefs scratch) (scr_executedOrders scratch) (pool e) book;
  books ← vset (orderBooks e) l book;
  Ok (out, mkEngine p (orderMap e) books (latencies e) (wireLatencies e) (tscReads e)).

Definition bookRemove (l idx : Z) e : result (MatchingEngine I) :=
  book ← vget (orderBooks e) l;
  '(p, book) ← OrderBook.removeByIndex idx (pool e) book;
  books ← vset (orderBooks e) l book;
  Ok (mkEngine p (orderMap e) books (latencies e) (wireLatencies e) (tscReads e)).

(** [for (uint64_t ref : scratch.removedRefs) orderMap.erase(ref)]. *)
Fixpoint eraseAll (refs : list Z) (m : I) : result I :=
  match refs with
  | [] => Ok m
  | ref :: refs => m ← idx_erase ref m; eraseAll refs m
  end.

Definition insertResting (ref l idx : Z) (m : I) : result I :=
  if negb (idx =? INVALID_INDEX) then idx_insert ref (mkLoc l idx) m else Ok m.

Definition scratch_of (out : HandleOut) : EngineScratch :=
  mkScratch (removedRefs out) (executedOrders out).

(** Cases ['A'] and ['F']. *)
Definition onAdd (data : bytes) (tWireCycles : Z) e : result (EngineScratch * MatchingEngine I) :=
  v ← load16 data;
  let l := bswap16 v in
  '(o, _) ← ItchParser.readAddOrder data;
  let '(startCycles, e) := readTsc e in
  '(out, e) ← bookHandle l o (mkScratch [] []) e;
  let '(endCycles, e) := readTsc e in
  m ← eraseAll (removedRefs out) (orderMap e);
  m ← insertResting (order_ref (out_order out)) l (restingIdx out) m;
  let e := push_latency (u64 (endCycles - startCycles)) (set_map m e) in
  let e := if negb (tWireCycles =? 0) then push_wireLatency (u64 (startCycles - tWireCycles)) e else e in
  Ok (scratch_of out, e).

(** Case ['D']. *)
Definition onDelete (data : bytes) e : result (MatchingEngine I) :=
  '(d, _) ← ItchParser.readDeleteOrder data;
  let ref := Z.lor (u64 (Z.shiftl (del_high d) 32)) (del_low d) in
  found ← idx_find ref (orderMap e);
  match found with
  | None => Ok e
  | Some loc =>
      e ← bookRemove (stockLocate loc) (poolIdx loc) e;
      m ← idx_erase ref (orderMap e);
      Ok (set_map m e)
  end.

(** Cases ['E'], ['C'] and ['X']. *)
Definition onExecuted (data : bytes) e : result (MatchingEngine I) :=
  '(msg, _) ← ItchParser.readOrderExecuted data;
  found ← idx_find (exec_orderRef msg) (orderMap e);
  match found with
  | None => Ok e
  | Some loc =>
      node ← OrderPool.get (pool e) (poolIdx loc);
      if shares (order node) <=? exec_shares msg then
        e ← bookRemove (stockLocate loc) (poolIdx loc) e;
        m ← idx_erase (exec_orderRef msg) (orderMap e);
        Ok (set_map m e)
      else
        p ← OrderPool.modify
              (fun n => set_order (set_shares (u32 (shares (order n) - exec_shares msg)) (order n)) n)
              (poolIdx loc) (pool e);
        Ok (set_pool p e)
  end.

(** Case ['U']; [None] when the original is unknown. *)
Definition onReplace (data : bytes) e : result (option EngineScratch * MatchingEngine I) :=
  '(rep, _) ← ItchParser.readOrderReplace data;
  found ← idx_find (originalOrderRef rep) (orderMap e);
  match found with
  | None => Ok (None, e)
  | Some loc =>
      let l := stockLocate loc in
      node ← OrderPool.get (pool e) (poolIdx loc);
      let side := buySellIndicator (order node) in
      e ← bookRemove l (poolIdx loc) e;
      m ← idx_erase (originalOrderRef rep) (orderMap e);
      let e := set_map m e in
      let newOrder := mkOrder (u32 (Z.shiftr (newOrderRef rep) 32)) (u32 (newOrderRef rep))
                        (rep_shares rep) (rep_price rep) side in
      '(out, e) ← bookHandle l newOrder (mkScratch [] []) e;
      m ← eraseAll (removedRefs out) (orderMap e);
      m ← insertResting (newOrderRef rep) l (restingIdx out) m;
      Ok (Some (scratch_of out), set_map m e)
  end.

Definition processMessage (data : bytes) (messageLength : Z) (scratch : EngineScratch)
    (tWireCycles : Z) e : result (EngineScratch * MatchingEngine I) :=
  match data with
  | [] => Err UB
  | t :: data =>
      if (t =? chr_A) || (t =? chr_F) then onAdd data tWireCycles e
      else if t =? chr_D then
        e ← onDelete data e; Ok (scratch, e)
      else if (t =? chr_E) || (t =? chr_C) || (t =? chr_X) then
        e ← onExecuted data e; Ok (scratch, e)
      else if t =? chr_U then
        '(s, e) ← onReplace data e; Ok (default scratch s, e)
      else Ok (scratch, e)
  end.

(** The reference whose map slot [run] prefetches while it processes a message,
    given the bytes from the next length prefix on, if there is one. *)
Definition prefetchRef (nextPkt : bytes) : result (option Z) :=
  if (21 <=? length nextPkt)%nat then
    match nextPkt !! 2%nat with
    | Some nt =>
        if (nt =? chr_A) || (nt =? chr_F) || (nt =? chr_D) || (nt =? chr_E)
           || (nt =? chr_C) || (nt =? chr_X) || (nt =? chr_U) then
          hi ← load32 (drop 13 nextPkt);
          lo ← load32 (drop 17 nextPkt);
          Ok (Some (Z.lor (u64 (Z.shiftl (bswap32 hi) 32)) (bswap32 lo)))
        else Ok None
    | None => Err UB
    end
  else Ok None.

Definition prefetchNext (nextPkt : bytes) e : result unit :=
  r ← prefetchRef nextPkt;
  match r with Some ref => idx_prefetch ref (orderMap e) | None => Ok tt end.

(** The [while] of [run]: [data] is what is left of the file. Stepping past
    its end ends the loop. *)
Fixpoint run_loop (fuel : nat) (data : bytes) (scratch : EngineScratch) e
    : result (EngineScratch * MatchingEngine I) :=
  match fuel with
  | O => Err Diverge
  | S fuel =>
      match data with
      | [] => Ok (scratch, e)
      | _ =>
          v ← load16 data;
          let messageLength := bswap16 v in
          data ← advance 2 data;
          _ ← prefetchNext (drop (Z.to_nat messageLength) data) e;
          '(scratch, e) ← processMessage data messageLength scratch 0 e;
          run_loop fuel (drop (Z.to_nat messageLength) data) scratch e
      end
  end.

(** The recorded cycles become nanoseconds where the counter counts cycles. *)
Definition convert (p : platform) (cyclesPerNs : double) e : result (MatchingEngine I) :=
  if tscIsCycles p then
    ls ← map_result (Calibrate.toNs cyclesPerNs) (latencies e);
    ws ← map_result (Calibrate.toNs cyclesPerNs) (wireLatencies e);
    Ok (mkEngine (pool e) (orderMap e) (orderBooks e) ls ws (tscReads e))
  else Ok e.

(** [run]. When [open] fails, [fstat] fails too and the size is read from a
    [stat] that was never written; when [mmap] fails, [run] returns. [fuel]
    bounds the readings of the clock during calibration. *)
Definition run (p : platform) (fuel : nat) (clock : nat -> timespec) (f : opened) e : result (MatchingEngine I) :=
  match f with
  | OpenFailed => Err UB
  | MapFailed => Ok e
  | Mapped file =>
      cyclesPerNs ← Calibrate.calibrateTsc fuel clock (tscNow (tscReads e)) (tscNow (tscReads e + 1));
      '(_, e) ← run_loop (S (length file)) file (mkScratch [] []) (set_reads (tscReads e + 2) e);
      convert p cyclesPerNs e
  end.
End engine.

(** [MatchingEngine()], with its map of 8388608 slots. *)
Definition engine0 : MatchingEngine (FlatHashMap OrderLocation) :=
  new (FlatHashMap.new UINT64_MAX (mkLoc 0 0) 8388608).
End MatchingEngine.

(** ** Many books on one pool *)

Definition is_locate (l : Z) : Prop := 0 <= l < 65536.

(** Every book stands for its abstract book, the books own disjoint slots, and
    a slot that no book owns is on the free list. *)
Record books_rep (p : OrderPool) (bs : vec OrderBook) (Bs : Z -> PriceTime.abook) (F : list Z) : Prop := {
  bk_len : vlen bs = 65536;
  bk_book : forall l, is_locate l -> book_rep p (vnth bs l) (Bs l) F;
  bk_disj : forall l1 l2 i, is_locate l1 -> is_locate l2 ->
    i ∈ PriceTime.book_idxs (Bs l1) -> i ∈ PriceTime.book_idxs (Bs l2) -> l1 = l2;
  bk_all : forall i, 0 <= i < vlen (nodes p) ->
    i ∈ F \/ exists l, is_locate l /\ i ∈ PriceTime.book_idxs (Bs l)
}.

Section books.
Implicit Types (B : PriceTime.abook) (Bs : Z -> PriceTime.abook) (F : list Z).

Lemma book_idxs_range p bk B F i : book_rep p bk B F -> i ∈ PriceTime.book_idxs B -> 0 <= i < vlen (nodes p).
Proof.
  intros [Hb Ha _ _ _] [Hi|Hi]%elem_of_app;
    [exact (side_rep_in_range _ _ _ _ _ Hb Hi) | exact (side_rep_in_range _ _ _ _ _ Ha Hi)].
Qed.

Lemma book_rep_agree X p p' bk B F F' :
  book_rep p bk B F -> agree_off X (nodes p) (nodes p') -> (forall i, i ∈ PriceTime.book_idxs B -> i ∉ X) ->
  pool_inv p' F' -> NoDup (PriceTime.book_idxs B ++ F') -> book_rep p' bk B F'.
Proof.
  intros [Hb Ha Hinv Hnd Hs] Hag HX Hinv' Hnd'. unfold PriceTime.book_idxs in HX.
  split; try done; eapply side_rep_agree; eauto; set_solver.
Qed.

(** One book changes, within its own slots and the free ones. *)
Lemma books_update p bs Bs F l p' bk' B' F' :
  books_rep p bs Bs F -> is_locate l -> book_rep p' bk' B' F' ->
  PriceTime.book_idxs B' ++ F' ≡ₚ PriceTime.book_idxs (Bs l) ++ F ++ grown p p' ->
  agree_off (PriceTime.book_idxs (Bs l) ++ F) (nodes p) (nodes p') ->
  books_rep p' (vupd bs l bk') (<[l:=B']> Bs) F'.
Proof.
  intros [Hlen Hbk Hdisj Hall] Hl Hbk' Hperm Hag.
  assert (Hin : forall i, i ∈ PriceTime.book_idxs B' ++ F' <->
    i ∈ PriceTime.book_idxs (Bs l) ++ F ++ grown p p') by (intros i; by rewrite Hperm).
  assert (Hfresh : forall l' i, is_locate l' -> l' <> l -> i ∈ PriceTime.book_idxs (Bs l') ->
    i ∉ PriceTime.book_idxs (Bs l) ++ F ++ grown p p').
  { intros l' i Hl' Hne Hi. rewrite !elem_of_app. intros [Hx|[Hx|Hx]].
    - apply Hne. by eapply Hdisj.
    - pose proof (br_nodup _ _ _ _ (Hbk l' Hl')) as (_ & Hd & _)%NoDup_app. by apply (Hd i).
    - pose proof (book_idxs_range _ _ _ _ _ (Hbk l' Hl') Hi). apply elem_of_seqZ in Hx; lia. }
  split.
  - by rewrite vlen_vupd.
  - intros l' Hl'. destruct (Z.eq_dec l' l) as [->|Hne].
    { by rewrite vnth_vupd_eq, fn_lookup_insert. }
    rewrite vnth_vupd_ne, fn_lookup_insert_ne by done.
    eapply book_rep_agree; [by apply Hbk | exact Hag | | apply Hbk' |].
    + intros i Hi Hx. apply (Hfresh l' i Hl' Hne Hi). set_solver.
    + pose proof (br_nodup _ _ _ _ (Hbk l' Hl')) as (N1 & _ & _)%NoDup_app.
      pose proof (br_nodup _ _ _ _ Hbk') as (_ & _ & N2)%NoDup_app.
      apply NoDup_app; split_and!; [done | | done]. intros i Hi Hx.
      apply (Hfresh l' i Hl' Hne Hi), Hin. set_solver.
  - intros l1 l2 i H1 H2.
    destruct (Z.eq_dec l1 l) as [->|N1], (Z.eq_dec l2 l) as [->|N2]; [done | | |];
      rewrite ?fn_lookup_insert, ?fn_lookup_insert_ne by done; [| |by apply Hdisj].
    + intros Hx Hy. destruct (Hfresh l2 i H2 N2 Hy). apply Hin; set_solver.
    + intros Hy Hx. destruct (Hfresh l1 i H1 N1 Hy). apply Hin; set_solver.
  - intros i Hi.
    assert (Hgo : i ∈ PriceTime.book_idxs (Bs l) ++ F ++ grown p p' ->
      i ∈ F' \/ exists l', is_locate l' /\ i ∈ PriceTime.book_idxs (<[l:=B']> Bs l')).
    { intros [Hx|Hx]%Hin%elem_of_app; [right; exists l; by rewrite fn_lookup_insert | by left]. }
    destruct (decide (i < vlen (nodes p))) as [Hlt|Hge].
    + destruct (Hall i) as [Hx|(l' & Hl' & Hx)]; [lia | apply Hgo; set_solver |].
      destruct (Z.eq_dec l' l) as [->|Hne]; [apply Hgo; set_solver|].
      right; exists l'; by rewrite fn_lookup_insert_ne.
    + apply Hgo. rewrite !elem_of_app; right; right. apply elem_of_seqZ; lia.
Qed.

Lemma reduce_entry_fst i x Q : (reduce_entry i x <$> Q).*1 = Q.*1.
Proof.
  rewrite <-list_fmap_compose. apply list_fmap_ext; intros j e _. unfold compose, reduce_entry; by case_match.
Qed.

Lemma reduce_idxs i x B : PriceTime.book_idxs (book_reduce i x B) = PriceTime.book_idxs B.
Proof. unfold PriceTime.book_idxs; simpl. by rewrite !reduce_entry_fst. Qed.

Lemma idx_at_reduce i x Q q : PriceTime.idx_at (reduce_entry i x <$> Q) q = PriceTime.idx_at Q q.
Proof.
  induction Q as [|e Q IH]; [done|]. rewrite fmap_cons.
  assert (E : eprice (reduce_entry i x e) = eprice e /\ (reduce_entry i x e).1 = e.1)
    by (unfold reduce_entry; by case_match).
  destruct E as [E1 E2]. destruct (Z.eq_dec (eprice e) q) as [<-|Hne].
  - rewrite <-E1 at 1. rewrite !PriceTime.idx_at_cons_eq, E1, E2, IH. done.
  - rewrite !PriceTime.idx_at_cons_ne by congruence. done.
Qed.

(** Reducing the shares of one order in place keeps its side. *)
Lemma reduce_side p s isBid Q i o x :
  side_rep (nodes p) s isBid Q -> (forall o', (i, o') ∈ Q -> o' = o) -> 0 <= x < shares o ->
  side_rep (nodes (with_shares p i (shares o - x))) s isBid (reduce_entry i x <$> Q).
Proof.
  intros [Hb Hl Ho [Hs He Hn]] Hu Hx. split; [done | | |split].
  - eapply ladder_rep_proper; [|eapply ladder_rep_links; [apply with_shares_links|exact Hl]].
    intros q; apply idx_at_reduce.
  - intros j o' ([k o0] & Ee & Hin)%list_elem_of_fmap. unfold reduce_entry in Ee; simpl in Ee.
    rewrite with_shares_order. pose proof (Ho k o0 Hin) as Hk.
    destruct (Z.eqb_spec k i) as [->|Hne]; injection Ee as -> ->.
    + rewrite decide_True by done. rewrite Hk, (Hu o0) by done; done.
    + by rewrite decide_False.
  - clear -Hs. induction Q as [|e Q IH]; [constructor|]. rewrite fmap_cons.
    apply StronglySorted_cons in Hs as [Hall Hs]. apply StronglySorted_cons; split; [|auto].
    apply Forall_fmap. eapply Forall_impl; [exact Hall|]. intros e' Hp. unfold PriceTime.prio, compose in *.
    replace (eprice (reduce_entry i x e')) with (eprice e') by (unfold reduce_entry; by case_match).
    by replace (eprice (reduce_entry i x e)) with (eprice e) by (unfold reduce_entry; by case_match).
  - apply Forall_forall; intros e' ([k o0] & -> & Hin)%list_elem_of_fmap.
    rewrite Forall_forall in He; pose proof (He _ Hin) as [Hp Hsh]; simpl in *.
    unfold reduce_entry; simpl. destruct (Z.eqb_spec k i) as [->|Hne]; [|done].
    rewrite (Hu o0 Hin) in *. split; simpl; [done | lia].
  - by rewrite reduce_entry_fst.
Qed.

Lemma elem_of_own B e : e ∈ entries B <-> exists isBid, e ∈ PriceTime.own isBid B.
Proof.
  unfold entries, PriceTime.own; rewrite elem_of_app. split.
  - intros [H|H]; [by exists true | by exists false].
  - intros [[] H]; auto.
Qed.

Lemma entries_fst B : (entries B).*1 = PriceTime.book_idxs B.
Proof. unfold entries, PriceTime.book_idxs; by rewrite fmap_app. Qed.

Lemma entries_unique B i o o' :
  NoDup (PriceTime.book_idxs B) -> (i, o) ∈ entries B -> (i, o') ∈ entries B -> o' = o.
Proof.
  rewrite <-entries_fst. intros Hnd (Q1 & Q2 & EQ)%list_elem_of_split H'. rewrite EQ in *.
  rewrite fmap_app in Hnd; simpl in Hnd. apply NoDup_app_3 in Hnd as (H1 & H2 & _).
  apply elem_of_app in H' as [H'|[[= ->]|H']%elem_of_cons]; [| done |]; exfalso.
  - apply H1. exact (list_elem_of_fmap_2 fst _ _ H').
  - apply H2. exact (list_elem_of_fmap_2 fst _ _ H').
Qed.

(** The node of a live order holds it. *)
Lemma entries_node p bk B F i o :
  book_rep p bk B F -> (i, o) ∈ entries B -> 0 <= i < vlen (nodes p) /\ order (vnth (nodes p) i) = o.
Proof.
  intros Hbk Hin. split.
  - eapply book_idxs_range; [done|]. rewrite <-entries_fst. by apply (list_elem_of_fmap_2 fst _ _ Hin).
  - destruct Hbk as [Hb Ha _ _ _]. apply elem_of_app in Hin as [Hin|Hin];
      [exact (sr_orders _ _ _ _ Hb _ _ Hin) | exact (sr_orders _ _ _ _ Ha _ _ Hin)].
Qed.

Lemma entries_ok p bk B F e : book_rep p bk B F -> e ∈ entries B -> PriceTime.entry_ok e.
Proof.
  intros [[_ _ _ Hb] [_ _ _ Ha] _ _ _] [Hin|Hin]%elem_of_app;
    [apply PriceTime.so_entries in Hb | apply PriceTime.so_entries in Ha]; rewrite Forall_forall in *; auto.
Qed.

Lemma reduce_book p bk B F i o x :
  book_rep p bk B F -> (i, o) ∈ entries B -> 0 <= x < shares o ->
  book_rep (with_shares p i (shares o - x)) bk (book_reduce i x B) F.
Proof.
  intros Hbk Hin Hx. pose proof Hbk as [Hb Ha Hinv Hnd [Hsb Hsa]].
  assert (Hu : forall o', (i, o') ∈ entries B -> o' = o).
  { intros o'; apply (entries_unique B i); [|done]. by apply NoDup_app in Hnd as (? & _). }
  assert (Hi : i ∈ PriceTime.book_idxs B).
  { rewrite <-entries_fst. by apply (list_elem_of_fmap_2 fst _ _ Hin). }
  split; simpl.
  - apply reduce_side; try done. intros o' Ho'; apply Hu; unfold entries; set_solver.
  - apply reduce_side; try done. intros o' Ho'; apply Hu; unfold entries; set_solver.
  - apply with_shares_inv; [done|]. apply NoDup_app in Hnd as (_ & Hd & _); auto.
  - by rewrite reduce_idxs.
  - split; simpl; intros j o' ([k o0] & Ee & Hk)%list_elem_of_fmap; unfold reduce_entry in Ee; simpl in Ee;
      case_match; injection Ee as -> ->; simpl; eauto.
Qed.
End books.

(** ** The order index *)

(** The map names exactly the live orders: [K l] lists slot and reference of
    the orders in book [l]. *)
Definition index_rep (M : gmap Z OrderLocation) (K : Z -> list (Z * Z)) : Prop :=
  forall ref l i, M !! ref = Some (mkLoc l i) <-> is_locate l /\ (i, ref) ∈ K l.

Section index.
Implicit Types (M : gmap Z OrderLocation) (K : Z -> list (Z * Z)).

Lemma index_rep_ext M K K' :
  (forall l x, is_locate l -> x ∈ K l <-> x ∈ K' l) -> index_rep M K -> index_rep M K'.
Proof. intros HK H ref l i. rewrite (H ref l i). split; intros [Hl Hx]; split; try done; by apply HK. Qed.

Lemma index_unique M K ref l l' i i' :
  index_rep M K -> is_locate l -> is_locate l' -> (i, ref) ∈ K l -> (i', ref) ∈ K l' -> l = l' /\ i = i'.
Proof.
  intros H Hl Hl' Hx Hx'. assert (E : M !! ref = Some (mkLoc l i)) by by apply H.
  assert (E' : M !! ref = Some (mkLoc l' i')) by by apply H. rewrite E in E'; by injection E'.
Qed.

Lemma lookup_foldr_delete {A} (m : gmap Z A) refs k :
  foldr delete m refs !! k = if decide (k ∈ refs) then None else m !! k.
Proof.
  induction refs as [|r refs IH]; simpl; [done|]. destruct (decide (k = r)) as [->|Hne].
  - rewrite lookup_delete_eq. rewrite decide_True by set_solver. done.
  - rewrite lookup_delete_ne, IH by done. apply decide_ext; set_solver.
Qed.

Lemma foldr_delete_comm {A} (m : gmap Z A) refs k : foldr delete (delete k m) refs = delete k (foldr delete m refs).
Proof.
  apply map_eq; intros j. rewrite lookup_foldr_delete. destruct (decide (j = k)) as [->|Hne].
  - rewrite !lookup_delete_eq. by case_decide.
  - by rewrite !lookup_delete_ne, lookup_foldr_delete by done.
Qed.

Lemma fmap_foldr_delete {A B} (f : A -> B) (m : gmap Z A) refs :
  f <$> foldr delete m refs = foldr delete (f <$> m) refs.
Proof. induction refs as [|r refs IH]; simpl; [done|]. by rewrite fmap_delete, IH. Qed.

(** The orders [G] leave book [l]. *)
Lemma index_leave M K l G R :
  index_rep M K -> is_locate l -> NoDup (K l) -> K l ≡ₚ G ++ R ->
  index_rep (foldr delete M G.*2) (<[l:=R]> K).
Proof.
  intros H Hl Hnd HK ref l' i. rewrite lookup_foldr_delete.
  assert (HG : forall j r, (j, r) ∈ G -> (j, r) ∈ K l) by (intros j r; rewrite HK; set_solver).
  assert (HR : forall j r, (j, r) ∈ R -> (j, r) ∈ K l) by (intros j r; rewrite HK; set_solver).
  rewrite HK in Hnd; apply NoDup_app in Hnd as (_ & Hd & _).
  assert (Hg : forall r, r ∈ G.*2 -> exists j, (j, r) ∈ G).
  { intros r ([j r'] & -> & Hx)%list_elem_of_fmap; eauto. }
  destruct (Z.eq_dec l' l) as [->|Hne];
    [rewrite fn_lookup_insert | rewrite fn_lookup_insert_ne by done]; case_decide as Hin.
  - split; [done|]. intros [_ Hx]. destruct (Hg ref Hin) as (j & Hj).
    destruct (index_unique M K ref l l i j H) as [_ ->]; auto. by destruct (Hd _ Hj Hx).
  - rewrite (H ref l i), HK, elem_of_app. split; intros [_ Hx]; split; try done; [|by right].
    destruct Hx as [Hx|Hx]; [|done]. destruct Hin; by apply (list_elem_of_fmap_2 snd _ _ Hx).
  - split; [done|]. intros [Hl' Hx]. destruct (Hg ref Hin) as (j & Hj).
    destruct (index_unique M K ref l' l i j H) as [-> _]; auto; done.
  - apply H.
Qed.

(** A fresh order joins book [l]. *)
Lemma index_join M K l i ref :
  index_rep M K -> is_locate l -> M !! ref = None ->
  index_rep (<[ref:=mkLoc l i]> M) (<[l:=(i, ref) :: K l]> K).
Proof.
  intros H Hl Hnone r l' j. destruct (Z.eq_dec r ref) as [->|Hr].
  - rewrite lookup_insert_eq. assert (Hno : forall l0 j0, is_locate l0 -> (j0, ref) ∈ K l0 -> False).
    { intros l0 j0 Hl0 Hx. assert (M !! ref = Some (mkLoc l0 j0)) by by apply H. congruence. }
    split.
    + intros [= <- <-]. rewrite fn_lookup_insert. split; [done | set_solver].
    + intros [Hl' Hx]. destruct (Z.eq_dec l' l) as [->|Hne].
      * rewrite fn_lookup_insert in Hx. apply elem_of_cons in Hx as [[= ->]|Hx]; [done|]. by destruct (Hno l j).
      * rewrite fn_lookup_insert_ne in Hx by done. by destruct (Hno l' j).
  - rewrite lookup_insert_ne by done. rewrite (H r l' j). destruct (Z.eq_dec l' l) as [->|Hne].
    + rewrite fn_lookup_insert, elem_of_cons. split; intros [? Hx]; split; try done; [by right|].
      by destruct Hx as [[= -> ->]|Hx].
    + by rewrite fn_lookup_insert_ne.
Qed.
End index.

(** ** Messages on the wire *)

(** [data], from the type byte on, is the message [m], possibly followed by
    more bytes. *)
Inductive encodes : Exchange.message -> bytes -> Prop :=
| encodes_add t l h ref side shares stock price rest :
    t = chr_A \/ t = chr_F -> is_locate l -> length h = 8%nat -> is_u64 ref -> is_u32 shares ->
    length stock = 8%nat -> is_u32 price ->
    encodes (Exchange.Add l (order_of ref side shares price))
      (t :: enc_add (be16 l ++ h) ref side shares stock price ++ rest)
| encodes_delete header ref rest :
    length header = 10%nat -> is_u64 ref ->
    encodes (Exchange.Delete ref) (chr_D :: enc_delete header ref ++ rest)
| encodes_reduce t header ref shares rest :
    t = chr_E \/ t = chr_C \/ t = chr_X -> length header = 10%nat -> is_u64 ref -> is_u32 shares ->
    encodes (Exchange.Reduce ref shares) (t :: enc_executed header ref shares ++ rest)
| encodes_replace header orig new shares price rest :
    length header = 10%nat -> is_u64 orig -> is_u64 new -> is_u32 shares -> is_u32 price ->
    encodes (Exchange.Replace orig new shares price)
      (chr_U :: enc_replace header orig new shares price ++ rest)
| encodes_other t rest :
    t ∉ [chr_A; chr_F; chr_D; chr_E; chr_C; chr_X; chr_U] -> encodes Exchange.Ignored (t :: rest).

Lemma encodes_app m data more : encodes m data -> encodes m (data ++ more).
Proof. destruct 1; rewrite <-app_comm_cons, ?(assoc_L app), <-?app_assoc; rewrite ?app_assoc; by (rewrite <-app_assoc; constructor) || constructor. Qed.

Lemma load16_add l h ref side shares stock price rest : is_locate l ->
  exists v, load16 (enc_add (be16 l ++ h) ref side shares stock price ++ rest) = Ok v /\ bswap16 v = l.
Proof. intros Hl. unfold enc_add. rewrite <-!app_assoc. by apply load16_be16. Qed.

Lemma encodes_add_inv l o t data :
  encodes (Exchange.Add l o) (t :: data) ->
  exists h ref side shares stock price rest,
    o = order_of ref side shares price /\
    data = enc_add (be16 l ++ h) ref side shares stock price ++ rest /\
    is_locate l /\ length h = 8%nat /\ is_u64 ref /\ is_u32 shares /\ length stock = 8%nat /\ is_u32 price.
Proof.
  inversion 1 as [? ? h ref side sh stock pr rest| | | |].
  exists h, ref, side, sh, stock, pr, rest. by split_and!.
Qed.

(** ** The engine implements the exchange *)

Section refinement.
Context {I : Type} {HI : OrderIndex I} {cap reserved : Z} {HS : OrderIndexSpec I cap reserved}.
Implicit Types (e : MatchingEngine I) (mk : Exchange.market) (M : gmap Z OrderLocation).

(** Pool, books and map stand for the market [mk]. *)
Record core_rep (p : OrderPool) (bs : vec OrderBook) (m : I) mk
    (Bs : Z -> PriceTime.abook) M (F : list Z) : Prop := {
  cr_books : books_rep p bs Bs F;
  cr_map : idx_rep m M;
  cr_index : index_rep M (fun l => keys (Bs l));
  cr_refs : forall ref, is_Some (M !! ref) -> is_u64 ref;
  cr_view : forall l, is_locate l -> Exchange.books mk l = view (Bs l);
  cr_dir : Exchange.dir mk = stockLocate <$> M
}.

Definition engine_rep e mk : Prop :=
  exists Bs M F, core_rep (pool e) (orderBooks e) (orderMap e) mk Bs M F.

Lemma core_nodup p bs m mk Bs M F l :
  core_rep p bs m mk Bs M F -> is_locate l -> NoDup (PriceTime.book_idxs (Bs l)).
Proof. intros H Hl. by pose proof (br_nodup _ _ _ _ (bk_book _ _ _ _ (cr_books _ _ _ _ _ _ _ H) l Hl)) as (? & _)%NoDup_app. Qed.

Lemma core_keys_nodup p bs m mk Bs M F l :
  core_rep p bs m mk Bs M F -> is_locate l -> NoDup (keys (Bs l)).
Proof. intros H Hl. apply (NoDup_fmap_1 fst). rewrite keys_fst. by eapply core_nodup. Qed.

(** The live order of a reference. *)
Lemma core_live p bs m mk Bs M F ref loc :
  core_rep p bs m mk Bs M F -> M !! ref = Some loc ->
  is_locate (stockLocate loc) /\
  exists o, (poolIdx loc, o) ∈ entries (Bs (stockLocate loc)) /\ order_ref o = ref.
Proof.
  intros H E. destruct loc as [l i]. apply (cr_index _ _ _ _ _ _ _ H) in E as [Hl Hx].
  split; [done|]. apply list_elem_of_fmap in Hx as ([j o] & [= -> ->] & Hin). eauto.
Qed.

(** In its book, slot and reference identify the same order. *)
Lemma core_same p bs m mk Bs M F l i o (x : entry) :
  core_rep p bs m mk Bs M F -> is_locate l -> (i, o) ∈ entries (Bs l) -> x ∈ entries (Bs l) ->
  x.1 = i <-> order_ref x.2 = order_ref o.
Proof.
  intros H Hl Hin He. destruct x as [j o']; simpl. split.
  - intros ->. by rewrite (entries_unique (Bs l) i o o' (core_nodup _ _ _ _ _ _ _ l H Hl) Hin He).
  - intros E. destruct (index_unique M (fun l => keys (Bs l)) (order_ref o) l l j i (cr_index _ _ _ _ _ _ _ H)); try done.
    + apply list_elem_of_fmap. exists (j, o'). unfold ekey; simpl. by rewrite E.
    + apply list_elem_of_fmap. by exists (i, o).
Qed.

(** Live slots and free slots are all the slots. *)
Lemma live_slots p bs m mk Bs M F :
  core_rep p bs m mk Bs M F ->
  seqZ 0 (vlen (nodes p)) ≡ₚ ((fun x => poolIdx x.2) <$> map_to_list M) ++ F.
Proof.
  intros H. pose proof (cr_books _ _ _ _ _ _ _ H) as Hbk. pose proof (cr_index _ _ _ _ _ _ _ H) as Hix.
  assert (Hl0 : is_locate 0) by (unfold is_locate; lia).
  assert (Hlive : forall i, i ∈ (fun x => poolIdx x.2) <$> map_to_list M <->
    exists l, is_locate l /\ i ∈ PriceTime.book_idxs (Bs l)).
  { intros i. rewrite list_elem_of_fmap. split.
    - intros ([ref [l j]] & -> & E%elem_of_map_to_list). apply Hix in E as [Hl Hx]. exists l; split; [done|].
      rewrite <-keys_fst. exact (list_elem_of_fmap_2 fst _ _ Hx).
    - intros (l & Hl & Hx). rewrite <-keys_fst in Hx. apply list_elem_of_fmap in Hx as ([j ref] & -> & Hx).
      exists (ref, mkLoc l j). split; [done|]. apply elem_of_map_to_list, Hix. done. }
  pose proof (br_pool _ _ _ _ (bk_book _ _ _ _ Hbk 0 Hl0)) as [_ Hfree HnF].
  apply NoDup_Permutation; [apply NoDup_seqZ | | ].
  - apply NoDup_app; split_and!; [| |done].
    + apply NoDup_fmap_2_strong; [|apply NoDup_map_to_list].
      intros [r1 [l1 i1]] [r2 [l2 i2]] E1%elem_of_map_to_list E2%elem_of_map_to_list; simpl; intros ->.
      apply Hix in E1 as [Hl1 H1]; apply Hix in E2 as [Hl2 H2].
      pose proof (list_elem_of_fmap_2 fst _ _ H1) as I1. pose proof (list_elem_of_fmap_2 fst _ _ H2) as I2.
      rewrite keys_fst in I1, I2; simpl in I1, I2. pose proof (bk_disj _ _ _ _ Hbk l1 l2 i2 Hl1 Hl2 I1 I2) as <-.
      apply list_elem_of_fmap in H1 as ([j1 o1] & [= -> ->] & H1), H2 as ([j2 o2] & [= Ej ->] & H2). subst j2.
      by rewrite (entries_unique (Bs l1) j1 o1 o2 (core_nodup _ _ _ _ _ _ _ l1 H Hl1) H1 H2).
    + intros i (l & Hl & Hi)%Hlive HiF. pose proof (br_nodup _ _ _ _ (bk_book _ _ _ _ Hbk l Hl)) as (_ & Hd & _)%NoDup_app.
      by apply (Hd i).
  - intros i. rewrite elem_of_seqZ, elem_of_app, Hlive. split.
    + intros Hi. destruct (bk_all _ _ _ _ Hbk i) as [?|?]; [lia | by right | by left].
    + intros [(l & Hl & Hi)|Hi].
      * pose proof (book_idxs_range _ _ _ _ _ (bk_book _ _ _ _ Hbk l Hl) Hi). lia.
      * pose proof (fseg_in_range _ _ _ _ Hfree Hi). lia.
Qed.

Lemma eraseAll_ok refs m M :
  idx_rep m M -> Forall is_u64 refs ->
  exists m', MatchingEngine.eraseAll refs m = Ok m' /\ idx_rep m' (foldr delete M refs).
Proof.
  revert m M; induction refs as [|r refs IH]; intros m M Hm Hr; simpl; [eauto|].
  apply Forall_cons in Hr as [Hr Hrs]. destruct (idx_erase_ok m M r Hm Hr) as (m1 & -> & Hm1); simpl.
  destruct (IH m1 (delete r M) Hm1 Hrs) as (m' & -> & Hm'). exists m'; split; [done|].
  by rewrite <-foldr_delete_comm.
Qed.

Lemma size_foldr_delete {A} (m : gmap Z A) refs : (size (foldr delete m refs) <= size m)%nat.
Proof.
  induction refs as [|r refs IH]; simpl; [done|]. etrans; [|exact IH].
  apply map_subseteq_size, delete_subseteq.
Qed.

(** Removing the live order of [ref]. *)
Lemma core_remove p bs m mk Bs M F ref l i :
  core_rep p bs m mk Bs M F -> M !! ref = Some (mkLoc l i) ->
  exists p' bk' m',
    OrderBook.removeByIndex i p (vnth bs l) = Ok (p', bk') /\ idx_erase ref m = Ok m' /\
    core_rep p' (vupd bs l bk') m' (Exchange.remove l ref mk)
      (<[l:=PriceTime.book_cancel i (Bs l)]> Bs) (delete ref M) (i :: F).
Proof.
  intros H E. destruct (core_live _ _ _ _ _ _ _ _ _ H E) as (Hl & o & Hin & <-); simpl in *.
  pose proof H as [Hbk Hm Hix Hrefs Hview Hdir].
  destruct (proj1 (elem_of_own _ _) Hin) as [isBid Hown].
  destruct (removeByIndex_spec isBid i o p (vnth bs l) (Bs l) F (bk_book _ _ _ _ Hbk l Hl) Hown)
    as (p' & bk' & -> & Hbk' & Hperm & Hlen & Hag).
  destruct (idx_erase_ok m M (order_ref o) Hm (Hrefs _ (mk_is_Some _ _ E))) as (m' & -> & Hm').
  exists p', bk', m'; split_and!; [done..|]. split.
  - eapply books_update; [done | done | done | |].
    + by rewrite grown_none, app_nil_r.
    + eapply agree_off_weaken; [|exact Hag]; set_solver.
  - done.
  - eapply index_rep_ext; [|eapply (index_leave M _ l [(i, order_ref o)]); [exact Hix | done | by eapply core_keys_nodup |]].
    + intros l' x Hl'. destruct (Z.eq_dec l' l) as [->|Hne];
        [rewrite !fn_lookup_insert | rewrite !fn_lookup_insert_ne by done]; done.
    + apply cancel_keys; [done | by eapply core_nodup].
  - intros r [x Hx]. apply lookup_delete_Some in Hx as [_ Hx]; eauto.
  - intros l' Hl'; simpl. destruct (Z.eq_dec l' l) as [->|Hne];
      [rewrite !fn_lookup_insert | rewrite !fn_lookup_insert_ne by done]; [|auto].
    rewrite Hview by done. symmetry. apply cancel_view. intros e He. by eapply core_same.
  - simpl. by rewrite fmap_delete, Hdir.
Qed.

(** Reducing the live order of [ref] in place. *)
Lemma core_reduce p bs m mk Bs M F ref l i o x :
  core_rep p bs m mk Bs M F -> M !! ref = Some (mkLoc l i) -> (i, o) ∈ entries (Bs l) -> 0 <= x < shares o ->
  core_rep (with_shares p i (shares o - x)) bs m
    (Exchange.Market (<[l:=Exchange.reduce (order_ref o) x (Exchange.books mk l)]> (Exchange.books mk)) (Exchange.dir mk))
    (<[l:=book_reduce i x (Bs l)]> Bs) M F.
Proof.
  intros H E Hin Hx. destruct (core_live _ _ _ _ _ _ _ _ _ H E) as (Hl & _); simpl in Hl.
  pose proof H as [Hbk Hm Hix Hrefs Hview Hdir]. split; try done.
  - pose proof (books_update p bs Bs F l (with_shares p i (shares o - x)) (vnth bs l) (book_reduce i x (Bs l)) F
      Hbk Hl) as Hu. rewrite grown_none, reduce_idxs, app_nil_r in Hu by done.
    assert (Hi : i ∈ PriceTime.book_idxs (Bs l))
      by (rewrite <-entries_fst; exact (list_elem_of_fmap_2 fst _ _ Hin)).
    destruct Hu as [U1 U2 U3 U4]; [apply reduce_book; [by apply Hbk | done..] | done | apply with_shares_agree; set_solver |].
    split; try done. intros l' Hl'. pose proof (U2 l' Hl') as U.
    by destruct (Z.eq_dec l' l) as [->|Hne]; [rewrite vnth_vupd_eq in U | rewrite vnth_vupd_ne in U].
  - eapply index_rep_ext; [|exact Hix]. intros l' y _. destruct (Z.eq_dec l' l) as [->|Hne];
      [rewrite fn_lookup_insert | by rewrite fn_lookup_insert_ne]. by rewrite reduce_keys.
  - intros l' Hl'; simpl. destruct (Z.eq_dec l' l) as [->|Hne];
      [rewrite !fn_lookup_insert | rewrite !fn_lookup_insert_ne by done]; [|auto].
    rewrite Hview by done. symmetry. apply reduce_view. intros y Hy. by eapply core_same.
Qed.

(** The map after an order was entered. *)
Lemma index_enter M Bs l (isBuy : bool) o idx :
  index_rep M (fun l => keys (Bs l)) -> is_locate l -> NoDup (keys (Bs l)) -> M !! order_ref o = None ->
  let r := (PriceTime.submit isBuy o idx (Bs l)).1 in
  let M1 := foldr delete M (gone_refs r) in
  index_rep (if 0 <? PriceTime.left r then <[order_ref o := mkLoc l idx]> M1 else M1)
    (fun l' => keys (<[l:=(PriceTime.submit isBuy o idx (Bs l)).2]> Bs l')).
Proof.
  intros Hix Hl Hnd Hnone r M1. destruct (submit_keys isBuy o idx (Bs l)) as (R & H1 & H2). fold r in H1, H2.
  assert (E : gone_refs r = (ekey <$> PriceTime.gone r).*2).
  { unfold gone_refs. rewrite <-list_fmap_compose. done. }
  pose proof (index_leave M _ l _ R Hix Hl Hnd H1) as Hlv. rewrite <-E in Hlv. fold M1 in Hlv.
  assert (Hn1 : M1 !! order_ref o = None) by (unfold M1; rewrite lookup_foldr_delete; by case_decide).
  destruct (0 <? PriceTime.left r); (eapply index_rep_ext; [|first [eapply (index_join M1 _ l idx) | exact Hlv]]; [|done..]);
    intros l' y _; destruct (Z.eq_dec l' l) as [->|Hne]; by rewrite ?fn_lookup_insert, ?fn_lookup_insert_ne, ?H2.
Qed.

(** Listing the resting order. *)
Lemma insertResting_ok (rests : bool) m M ref l idx :
  idx_rep m M -> is_u64 ref -> ref <> reserved -> Z.of_nat (size M) + 1 < cap ->
  (rests = true -> idx <> INVALID_INDEX) ->
  exists m', MatchingEngine.insertResting ref l (if rests then idx else INVALID_INDEX) m = Ok m' /\
             idx_rep m' (if rests then <[ref:=mkLoc l idx]> M else M).
Proof.
  intros Hm Hu Hres Hroom Hidx. unfold MatchingEngine.insertResting. destruct rests; [|by exists m].
  rewrite (proj2 (Z.eqb_neq _ _) (Hidx eq_refl)); simpl. apply idx_insert_ok; try done.
  enough (Z.of_nat (size (<[ref:=mkLoc l idx]> M)) <= Z.of_nat (S (size M))) by lia.
  rewrite map_size_insert. destruct (M !! ref); simpl; lia.
Qed.

(** The slot of a remainder that rests is not the sentinel. *)
Lemma submit_slot (isBuy : bool) o idx p bk B F :
  book_rep p bk (PriceTime.submit isBuy o idx B).2 F ->
  (0 <? PriceTime.left (PriceTime.submit isBuy o idx B).1) = true -> idx <> INVALID_INDEX.
Proof.
  intros Hbk El. assert (Hx : idx ∈ PriceTime.book_idxs (PriceTime.submit isBuy o idx B).2).
  { rewrite <-keys_fst. destruct (submit_keys isBuy o idx B) as (R & _ & HK). rewrite HK, El. simpl; set_solver. }
  apply (book_idxs_range _ _ _ _ _ Hbk) in Hx. pose proof (pi_fits _ _ (br_pool _ _ _ _ Hbk)) as Hf.
  unfold pool_fits in Hf; lia.
Qed.

Hypothesis Hfit : cap <= INVALID_INDEX.

(** While the map has room, so has the pool: every slot in use is an entry
    of the map. *)
Lemma core_pool_room p bs m mk Bs M F :
  core_rep p bs m mk Bs M F -> Z.of_nat (size M) < cap -> pool_room p F.
Proof using Hfit.
  intros H Hroom. destruct F as [|i F]; [right | by left].
  enough (vlen (nodes p) <= Z.of_nat (size M)) by lia.
  pose proof (live_slots _ _ _ _ _ _ _ H) as Hp. apply Permutation_length in Hp.
  rewrite length_seqZ, length_app, length_fmap, length_map_to_list in Hp. simpl in Hp. lia.
Qed.


(** Entering an order. *)
Lemma core_enter p bs m mk Bs M F l o :
  core_rep p bs m mk Bs M F -> is_locate l -> order_ok o -> is_u64 (order_ref o) ->
  (buySellIndicator o = chr_B \/ buySellIndicator o = chr_S) -> Exchange.enterable cap reserved o mk ->
  exists out p' bk' m1 m2 Bs' M' F',
    OrderBook.handleOrder o [] [] p (vnth bs l) = Ok (out, p', bk') /\
    order_ref (out_order out) = order_ref o /\
    executedOrders out = (fun f => OrderBook.execution f.1 f.2) <$> (Exchange.enter l o mk).2 /\
    MatchingEngine.eraseAll (removedRefs out) m = Ok m1 /\
    MatchingEngine.insertResting (order_ref o) l (restingIdx out) m1 = Ok m2 /\
    core_rep p' (vupd bs l bk') m2 (Exchange.enter l o mk).1 Bs' M' F'.
Proof using Hfit.
  intros H Hl Hok Hu Hside (Hfresh & Hres & Hroom). pose proof H as [Hbk Hm Hix Hrefs Hview Hdir].
  assert (exists isBuy : bool, buySellIndicator o = if isBuy then chr_B else chr_S) as [isBuy Hind]
    by (destruct Hside; [by exists true | by exists false]).
  rewrite Hdir in Hfresh, Hroom. rewrite map_size_fmap in Hroom. rewrite lookup_fmap, fmap_None in Hfresh.
  assert (Hproom : pool_room p F) by (eapply core_pool_room; [done|lia]).
  destruct (handleOrder_spec isBuy o [] [] p (vnth bs l) (Bs l) F (bk_book _ _ _ _ Hbk l Hl) Hok Hproom Hind)
    as (p' & bk' & F' & E & Hbk' & Hperm & Hag).
  set (r := PriceTime.sweep _ _ _) in *. set (idx := alloc_slot _ _) in *.
  pose proof (index_enter M Bs l isBuy o idx Hix Hl (core_keys_nodup _ _ _ _ _ _ _ l H Hl) Hfresh) as Hix'.
  change (PriceTime.submit isBuy o idx (Bs l)).1 with r in Hix'. cbv zeta in Hix'.
  assert (Hind' : (buySellIndicator o =? chr_B) = isBuy) by (rewrite Hind; by destruct isBuy).
  pose proof (submit_view isBuy o idx (Bs l) Hind') as Hv. change (PriceTime.submit isBuy o idx (Bs l)).1 with r in Hv.
  cbv zeta in Hv. set (B' := (PriceTime.submit isBuy o idx (Bs l)).2) in *.
  set (M1 := foldr delete M (gone_refs r)) in *.
  assert (Hgone : Forall is_u64 (gone_refs r)).
  { apply Forall_forall; intros ref Hx. apply Hrefs. destruct (submit_keys isBuy o idx (Bs l)) as (R & HK & _).
    change (PriceTime.submit isBuy o idx (Bs l)).1 with r in HK.
    apply list_elem_of_fmap in Hx as ([i o'] & -> & Hin). exists (mkLoc l i). apply Hix. split; [done|].
    rewrite HK, elem_of_app; left. apply list_elem_of_fmap. by exists (i, o'). }
  destruct (eraseAll_ok (gone_refs r) m M Hm Hgone) as (m1 & E1 & Hm1). fold M1 in Hm1.
  assert (Hslot : (0 <? PriceTime.left r) = true -> idx <> INVALID_INDEX)
    by (intros El; eapply (submit_slot isBuy o); [exact Hbk' | exact El]).
  destruct (insertResting_ok (0 <? PriceTime.left r) m1 M1 (order_ref o) l idx Hm1 Hu Hres) as (m2 & E2 & Hm2); [|done|].
  { pose proof (size_foldr_delete M (gone_refs r)) as Hsz. fold M1 in Hsz. lia. }
  assert (Hent : Exchange.enter l o mk = (Exchange.Market (<[l:=view B']> (Exchange.books mk))
    (stockLocate <$> (if 0 <? PriceTime.left r then <[order_ref o:=mkLoc l idx]> M1 else M1)), PriceTime.fills r)).
  { unfold Exchange.enter. rewrite (Hview l Hl), Hv; simpl. do 2 f_equal. rewrite Hdir, <-fmap_foldr_delete. fold M1.
    destruct (0 <? PriceTime.left r); [by rewrite fmap_insert | done]. }
  rewrite Hent. do 8 eexists. split_and!; [exact E | done | done | exact E1 | exact E2 |]. split; simpl.
  - by eapply books_update.
  - done.
  - exact Hix'.
  - assert (HM1 : forall k, is_Some (M1 !! k) -> is_u64 k).
    { intros k [v Hv1]. unfold M1 in Hv1. rewrite lookup_foldr_delete in Hv1. case_decide; [done | eauto]. }
    intros k. destruct (0 <? PriceTime.left r); [|auto]. destruct (Z.eq_dec k (order_ref o)) as [->|Hne]; [done|].
    rewrite lookup_insert_ne by done; auto.
  - intros l' Hl'. destruct (Z.eq_dec l' l) as [->|Hne];
      [rewrite !fn_lookup_insert | rewrite !fn_lookup_insert_ne by done]; auto.
  - done.
Qed.

(** ** Messages *)

Context (tscNow : Z -> Z).

Lemma engine_book_ok e Bs M F mk l :
  core_rep (pool e) (orderBooks e) (orderMap e) mk Bs M F -> is_locate l -> 0 <= l < vlen (orderBooks e).
Proof using. intros H Hl. by rewrite (bk_len _ _ _ _ (cr_books _ _ _ _ _ _ _ H)). Qed.

Lemma entries_side e Bs M F mk l i o :
  core_rep (pool e) (orderBooks e) (orderMap e) mk Bs M F -> is_locate l -> (i, o) ∈ entries (Bs l) ->
  buySellIndicator o = chr_B \/ buySellIndicator o = chr_S.
Proof using.
  intros H Hl [Hin|Hin]%elem_of_app; pose proof (br_sides _ _ _ _ (bk_book _ _ _ _ (cr_books _ _ _ _ _ _ _ H) l Hl)) as [Hb Ha];
    [left; exact (Hb _ _ Hin) | right; exact (Ha _ _ Hin)].
Qed.

Lemma resting_live e Bs M F mk l i o :
  core_rep (pool e) (orderBooks e) (orderMap e) mk Bs M F -> is_locate l -> (i, o) ∈ entries (Bs l) ->
  Exchange.resting (order_ref o) (Exchange.books mk l) = Some o.
Proof using.
  intros H Hl Hin. rewrite (cr_view _ _ _ _ _ _ _ H l Hl). apply (resting_view i); [done|].
  intros [j o'] Hj E. apply (core_same _ _ _ _ _ _ _ l i o (j, o') H Hl Hin Hj) in E; simpl in E; subst.
  by rewrite (entries_unique (Bs l) i o o' (core_nodup _ _ _ _ _ _ _ l H Hl) Hin Hj).
Qed.

Lemma bookHandle_ok e l o out p' bk' :
  0 <= l < vlen (orderBooks e) -> OrderBook.handleOrder o [] [] (pool e) (vnth (orderBooks e) l) = Ok (out, p', bk') ->
  MatchingEngine.bookHandle l o (mkScratch [] []) e =
  Ok (out, mkEngine p' (orderMap e) (vupd (orderBooks e) l bk') (latencies e) (wireLatencies e) (tscReads e)).
Proof using. intros Hl E. unfold MatchingEngine.bookHandle. rewrite vget_ok by done; simpl. rewrite E; simpl. by rewrite vset_ok. Qed.

Lemma bookRemove_ok e l i p' bk' :
  0 <= l < vlen (orderBooks e) -> OrderBook.removeByIndex i (pool e) (vnth (orderBooks e) l) = Ok (p', bk') ->
  MatchingEngine.bookRemove l i e =
  Ok (mkEngine p' (orderMap e) (vupd (orderBooks e) l bk') (latencies e) (wireLatencies e) (tscReads e)).
Proof using. intros Hl E. unfold MatchingEngine.bookRemove. rewrite vget_ok by done; simpl. rewrite E; simpl. by rewrite vset_ok. Qed.

Lemma onDelete_ok e mk data ref :
  encodes (Exchange.Delete ref) (chr_D :: data) -> engine_rep e mk ->
  exists e', MatchingEngine.onDelete data e = Ok e' /\ engine_rep e' (Exchange.step (Exchange.Delete ref) mk).1.
Proof using.
  intros Henc (Bs & M & F & H). inversion Henc; subst. unfold MatchingEngine.onDelete.
  rewrite readDeleteOrder_enc, bind_ok by done; cbv beta iota. simpl del_high; simpl del_low.
  change (Z.lor _ _) with (order_ref (order_of ref 0 0 0)). rewrite order_ref_of by done.
  rewrite (idx_find_ok (orderMap e) M) by (done || apply H). rewrite bind_ok; cbv beta.
  simpl Exchange.step. rewrite (cr_dir _ _ _ _ _ _ _ H), lookup_fmap.
  destruct (M !! ref) as [[l i]|] eqn:E; simpl; [|by exists e; split; [|exists Bs, M, F]].
  destruct (core_live _ _ _ _ _ _ _ _ _ H E) as (Hl & _).
  destruct (core_remove _ _ _ _ _ _ _ _ _ _ H E) as (p' & bk' & m' & E1 & E2 & H').
  rewrite (bookRemove_ok e l i p' bk') by (done || by eapply engine_book_ok). simpl. rewrite E2; simpl.
  eexists; split; [done|]. do 3 eexists; exact H'.
Qed.

Lemma onExecuted_ok e mk t data ref x :
  encodes (Exchange.Reduce ref x) (t :: data) -> engine_rep e mk ->
  exists e', MatchingEngine.onExecuted data e = Ok e' /\ engine_rep e' (Exchange.step (Exchange.Reduce ref x) mk).1.
Proof using.
  intros Henc (Bs & M & F & H). inversion Henc as [| |? ? ? ? ? _ Hh Hr Hx| |]; subst. unfold MatchingEngine.onExecuted.
  rewrite readOrderExecuted_enc, bind_ok by done; cbv beta iota. simpl exec_orderRef; simpl exec_shares.
  rewrite (idx_find_ok (orderMap e) M) by (done || apply H). rewrite bind_ok; cbv beta.
  simpl Exchange.step. rewrite (cr_dir _ _ _ _ _ _ _ H), lookup_fmap.
  destruct (M !! ref) as [[l i]|] eqn:E; simpl; [|by exists e; split; [|exists Bs, M, F]].
  destruct (core_live _ _ _ _ _ _ _ _ _ H E) as (Hl & o & Hin & <-); simpl in Hl, Hin.
  pose proof (bk_book _ _ _ _ (cr_books _ _ _ _ _ _ _ H) l Hl) as Hbk.
  destruct (entries_node _ _ _ _ _ _ Hbk Hin) as [Hi Ho]. unfold OrderPool.get. rewrite vget_ok by done; simpl.
  rewrite Ho, (resting_live e Bs M F mk l i o H Hl Hin). destruct (Z.leb_spec (shares o) x) as [Hle|Hlt]; simpl.
  - destruct (core_remove _ _ _ _ _ _ _ _ _ _ H E) as (p' & bk' & m' & E1 & E2 & H').
    rewrite (bookRemove_ok e l i p' bk') by (done || by eapply engine_book_ok). simpl. rewrite E2; simpl.
    eexists; split; [done|]. do 3 eexists; exact H'.
  - rewrite modify_shares by done; simpl. rewrite Ho. unfold is_u32 in Hx.
    destruct (entries_ok _ _ _ _ _ Hbk Hin) as [_ Hs]; simpl in Hs.
    rewrite u32_small by lia. eexists; split; [done|]. do 3 eexists. simpl.
    rewrite <-(cr_dir _ _ _ _ _ _ _ H). eapply core_reduce; [exact H | done | done | lia].
Qed.

Lemma onAdd_ok e mk t data l o tw :
  encodes (Exchange.Add l o) (t :: data) -> engine_rep e mk -> Exchange.admissible cap reserved (Exchange.Add l o) mk ->
  exists s' e', MatchingEngine.onAdd tscNow data tw e = Ok (s', e') /\
    engine_rep e' (Exchange.enter l o mk).1 /\
    scr_executedOrders s' = (fun f => OrderBook.execution f.1 f.2) <$> (Exchange.enter l o mk).2.
Proof using Hfit.
  intros Henc (Bs & M & F & H) [Hside Hent].
  destruct (encodes_add_inv _ _ _ _ Henc) as (h & ref & side & sh & stock & pr & rest & -> & -> & Hl & Hh & Hr & Hs & Hst & Hp). unfold MatchingEngine.onAdd.
  destruct (load16_add l h ref side sh stock pr rest) as (v & Ev & <-); [done|].
  rewrite Ev, bind_ok; cbv beta zeta.
  rewrite readAddOrder_enc, bind_ok by (done || (rewrite length_app; simpl; lia)); cbv beta iota.
  set (o := order_of ref side sh pr) in *. set (l := bswap16 v) in *.
  assert (Hu : is_u64 (order_ref o)) by (unfold o; by rewrite order_ref_of).
  destruct (core_enter (pool e) (orderBooks e) (orderMap e) mk Bs M F l o)
    as (out & p' & bk' & m1 & m2 & Bs' & M' & F' & E1 & Er & Ex & E2 & E3 & H'); try done.
  unfold MatchingEngine.readTsc; cbv beta iota zeta. cbn [pool orderMap orderBooks latencies wireLatencies tscReads].
  rewrite (bookHandle_ok _ l o out p' bk') by (done || by eapply engine_book_ok). simpl. rewrite E2; simpl.
  rewrite Er, E3; simpl. do 2 eexists; split; [done|]. split; [|done].
  exists Bs', M', F'. by case_match.
Qed.

Lemma onReplace_ok e mk data orig new x p :
  encodes (Exchange.Replace orig new x p) (chr_U :: data) -> engine_rep e mk ->
  Exchange.admissible cap reserved (Exchange.Replace orig new x p) mk ->
  exists s' e', MatchingEngine.onReplace data e = Ok (s', e') /\
    engine_rep e' (Exchange.step (Exchange.Replace orig new x p) mk).1 /\
    scr_executedOrders <$> s' =
      fmap (fun f => OrderBook.execution f.1 f.2) <$> (Exchange.step (Exchange.Replace orig new x p) mk).2.
Proof using Hfit.
  intros Henc (Bs & M & F & H) [Hres Hnew]. inversion Henc as [| | |? ? ? ? ? ? Hh Ho' Hn Hx Hp|]; subst. unfold MatchingEngine.onReplace.
  rewrite readOrderReplace_enc, bind_ok by done; cbv beta iota.
  cbn [originalOrderRef newOrderRef rep_shares rep_price].
  rewrite (idx_find_ok (orderMap e) M) by (done || apply H). rewrite bind_ok; cbv beta.
  unfold Exchange.step. rewrite (cr_dir _ _ _ _ _ _ _ H) in Hnew |- *. rewrite !lookup_fmap in *.
  destruct (M !! orig) as [[l i]|] eqn:E; simpl; [|by exists None, e; split; [|split; [exists Bs, M, F|]]].
  destruct (core_live _ _ _ _ _ _ _ _ _ H E) as (Hl & o & Hin & <-); simpl in Hl, Hin.
  pose proof (bk_book _ _ _ _ (cr_books _ _ _ _ _ _ _ H) l Hl) as Hbk.
  destruct (entries_node _ _ _ _ _ _ Hbk Hin) as [Hi Ho]. unfold OrderPool.get. rewrite vget_ok, bind_ok by done.
  cbv beta zeta. rewrite Ho, (resting_live e Bs M F mk l i o H Hl Hin).
  destruct (core_remove _ _ _ _ _ _ _ _ _ _ H E) as (p1 & bk1 & m' & E1 & E2 & H').
  rewrite (bookRemove_ok e l i p1 bk1), bind_ok by (done || by eapply engine_book_ok). cbv beta.
  cbn [orderMap]. rewrite E2, bind_ok; cbv beta zeta.
  set (e1 := MatchingEngine.set_map _ _).
  change (mkOrder (u32 (Z.shiftr new 32)) (u32 new) x p (buySellIndicator o)) with (Exchange.replacement new x p o).
  set (o' := Exchange.replacement new x p o). set (mk1 := Exchange.remove l (order_ref o) mk) in *.
  assert (Er' : o' = order_of new (buySellIndicator o) x p) by (unfold o', Exchange.replacement; by rewrite ref_high).
  assert (Eref : order_ref o' = new) by (rewrite Er'; by apply order_ref_of).
  assert (Hside : buySellIndicator o' = chr_B \/ buySellIndicator o' = chr_S) 
    by (exact (entries_side e Bs M F mk l i o H Hl Hin)).
  assert (Hent : Exchange.enterable cap reserved o' mk1).
  { unfold Exchange.enterable. rewrite Eref. simpl. rewrite (cr_dir _ _ _ _ _ _ _ H).
    pose proof (idx_rep_room _ _ (cr_map _ _ _ _ _ _ _ H)) as Hroom. split_and!; [|done|].
    - destruct Hnew as [->|Hnew]; [apply lookup_delete_eq|]. rewrite lookup_delete_None, lookup_fmap; by right.
    - rewrite map_size_delete_Some by (by rewrite lookup_fmap, E). rewrite map_size_fmap.
      assert (size M <> 0%nat) by (intros ->%map_size_empty_inv; done). lia. }
  destruct (core_enter (pool e1) (orderBooks e1) (orderMap e1) mk1 _ _ _ l o' H')
    as (out & p' & bk' & m1 & m2 & Bs' & M' & F' & F1 & Er & Ex & F2 & F3 & H''); try done.
  { by rewrite Eref. }
  rewrite (bookHandle_ok e1 l o' out p' bk'), bind_ok by (done || by eapply engine_book_ok). cbv beta iota.
  cbn [orderMap]. rewrite F2, bind_ok, <-Eref, F3, bind_ok; cbv beta.
  destruct (Exchange.enter l o' mk1) as [mk2 f] eqn:Een. simpl in *.
  do 2 eexists; split; [done|]. split; [exists Bs', M', F'; exact H'' | simpl; by rewrite Ex].
Qed.

(** *** No book of the market is ever crossed *)

Definition market_uncrossed mk : Prop := forall l, is_locate l -> Exchange.uncrossed (Exchange.books mk l).

Lemma enter_uncrossed p bs m mk Bs M F l o :
  core_rep p bs m mk Bs M F -> is_locate l -> 0 <= shares o -> market_uncrossed mk ->
  market_uncrossed (Exchange.enter l o mk).1.
Proof using.
  intros H Hl Ho Hu l' Hl'. unfold Exchange.enter.
  pose proof (submit_view (buySellIndicator o =? chr_B) o 0 (Bs l) eq_refl) as Hv.
  rewrite (cr_view _ _ _ _ _ _ _ H l Hl), Hv; simpl.
  destruct (Z.eq_dec l' l) as [->|Hne]; [rewrite fn_lookup_insert | rewrite fn_lookup_insert_ne by done; auto].
  apply uncrossed_view. pose proof (bk_book _ _ _ _ (cr_books _ _ _ _ _ _ _ H) l Hl) as [Hb Ha _ _ _].
  apply PriceTime.submit_uncrossed; [apply PriceTime.side_sorted, Hb | apply PriceTime.side_sorted, Ha | | done].
  apply uncrossed_view. rewrite <-(cr_view _ _ _ _ _ _ _ H l Hl). auto.
Qed.

Lemma remove_uncrossed mk l ref : market_uncrossed mk -> is_locate l -> market_uncrossed (Exchange.remove l ref mk).
Proof using.
  intros Hu Hl l' Hl'. simpl. destruct (Z.eq_dec l' l) as [->|Hne];
    [rewrite fn_lookup_insert | rewrite fn_lookup_insert_ne by done; auto].
  intros x y [_ Hx]%list_elem_of_filter [_ Hy]%list_elem_of_filter. by apply (Hu l).
Qed.

Lemma reduce_uncrossed b ref x : Exchange.uncrossed b -> Exchange.uncrossed (Exchange.reduce ref x b).
Proof using.
  intros Hu a c (a' & -> & Ha)%list_elem_of_fmap (c' & -> & Hc)%list_elem_of_fmap.
  assert (Hp : forall o, price (Exchange.reduce1 ref x o) = price o) by (intros o; unfold Exchange.reduce1; by case_match).
  rewrite !Hp. auto.
Qed.

Lemma step_uncrossed e mk m data :
  engine_rep e mk -> encodes m data -> market_uncrossed mk -> market_uncrossed (Exchange.step m mk).1.
Proof using.
  intros (Bs & M & F & H) Henc Hu.
  assert (Hdir : forall ref l, Exchange.dir mk !! ref = Some l -> is_locate l /\ exists i, M !! ref = Some (mkLoc l i)).
  { intros ref l. rewrite (cr_dir _ _ _ _ _ _ _ H), lookup_fmap. destruct (M !! ref) as [[l' i]|] eqn:E; simpl; [|done].
    intros [= <-]. split; [apply (core_live _ _ _ _ _ _ _ _ _ H E) | eauto]. }
  destruct Henc as [t l h ref side sh stock pr rest Ht Hl Hh Hr Hs Hst Hp| |? ? ? ? ? ? ? ? Hx|? ? ? ? ? ? ? ? ? Hx|]; simpl.
  - destruct (Exchange.enter _ _ mk) eqn:E. simpl.
    pose proof (enter_uncrossed _ _ _ _ _ _ _ l (order_of ref side sh pr) H Hl ltac:(simpl; unfold is_u32 in *; lia) Hu) as Hu'.
    by rewrite E in Hu'.
  - destruct (_ !! ref) as [l|] eqn:E; simpl; [|done]. apply remove_uncrossed; [done | by eapply Hdir].
  - destruct (_ !! ref) as [l|] eqn:E; simpl; [|done]. destruct (Hdir _ _ E) as [Hl _].
    destruct (Exchange.resting _ _); [|done]. case_match; simpl; [by apply remove_uncrossed|].
    intros l' Hl'. simpl. destruct (Z.eq_dec l' l) as [->|Hne];
      [rewrite fn_lookup_insert; apply reduce_uncrossed; auto | rewrite fn_lookup_insert_ne by done; auto].
  - destruct (_ !! orig) as [l|] eqn:E; simpl; [|done]. destruct (Hdir _ _ E) as (Hl & i & EM).
    destruct (Exchange.resting _ _) as [o|]; [|done].
    destruct (core_remove _ _ _ _ _ _ _ _ _ _ H EM) as (p' & bk' & m' & _ & _ & H').
    pose proof (enter_uncrossed _ _ _ _ _ _ _ l (Exchange.replacement new shares price o) H' Hl
      ltac:(simpl; unfold is_u32 in *; lia) (remove_uncrossed mk l orig Hu Hl)) as Hu'.
    by destruct (Exchange.enter _ _ _).
  - done.
Qed.

(** The executions a message leaves in the scratch buffer. *)
Definition reported (f : option (list (Z * Z))) (scratch : EngineScratch) : list ItchOrderExecuted :=
  match f with
  | Some fs => (fun f => OrderBook.execution f.1 f.2) <$> fs
  | None => scr_executedOrders scratch
  end.

Lemma processMessage_ok m data len scratch tw e mk :
  encodes m data -> engine_rep e mk -> Exchange.admissible cap reserved m mk ->
  exists s' e', MatchingEngine.processMessage tscNow data len scratch tw e = Ok (s', e') /\
    engine_rep e' (Exchange.step m mk).1 /\
    scr_executedOrders s' = reported (Exchange.step m mk).2 scratch.
Proof using Hfit.
  intros Henc He Hadm. pose proof Henc as Henc0. destruct Henc; unfold MatchingEngine.processMessage.
  - destruct (onAdd_ok e mk t _ l (order_of ref side shares price) tw Henc0 He Hadm) as (s' & e' & E & He' & Hs).
    exists s', e'. simpl Exchange.step. destruct (Exchange.enter l (order_of ref side shares price) mk).
    split_and!; try done. by destruct H as [-> | ->].
  - destruct (onDelete_ok e mk _ ref Henc0 He) as (e' & E & He'). exists scratch, e'.
    simpl. rewrite E; simpl. split_and!; [done | done |]. by destruct (_ !! ref).
  - destruct (onExecuted_ok e mk t _ ref shares Henc0 He) as (e' & E & He'). exists scratch, e'.
    split_and!; [|done|].
    + by destruct H as [-> | [-> | ->]]; simpl; rewrite E.
    + simpl. destruct (_ !! ref); [|done]. destruct (Exchange.resting _ _); [|done]. by case_match.
  - destruct (onReplace_ok e mk _ orig new shares price Henc0 He Hadm) as (s' & e' & E & He' & Hs).
    exists (default scratch s'), e'. split_and!; [|done|].
    + simpl. by rewrite E.
    + revert Hs. destruct (Exchange.step _ _).2, s'; simpl; congruence.
  - assert (Ht : forall c, c ∈ [chr_A; chr_F; chr_D; chr_E; chr_C; chr_X; chr_U] -> (t =? c) = false)
      by (intros c Hc; apply Z.eqb_neq; intros ->; done).
    rewrite !Ht by set_solver. by exists scratch, e.
Qed.

(** *** Whole files *)

Lemma run_loop_step fuel b0 b1 data scratch e :
  MatchingEngine.run_loop tscNow (S fuel) (b0 :: b1 :: data) scratch e =
  _ ← MatchingEngine.prefetchNext (drop (Z.to_nat (bswap16 (le16 b0 b1))) data) e;
  '(scratch, e) ← MatchingEngine.processMessage tscNow data (bswap16 (le16 b0 b1)) scratch 0 e;
  MatchingEngine.run_loop tscNow fuel (drop (Z.to_nat (bswap16 (le16 b0 b1))) data) scratch e.
Proof using. done. Qed.

(** Reading ahead stays inside the file, whatever its bytes. *)
Lemma prefetchRef_ok nextPkt : exists r, MatchingEngine.prefetchRef nextPkt = Ok r.
Proof using.
  unfold MatchingEngine.prefetchRef. destruct (Nat.leb_spec 21 (length nextPkt)) as [Hl|]; [|eauto].
  destruct (lookup_lt_is_Some_2 nextPkt 2) as [nt ->]; [lia|]. case_match; [|eauto].
  assert (Hld : forall k, (k + 4 <= 21)%nat -> exists v, load32 (drop k nextPkt) = Ok v).
  { intros k Hk. assert (Hd : (4 <= length (drop k nextPkt))%nat) by (rewrite length_drop; lia).
    destruct (drop k nextPkt) as [|? [|? [|? [|? ?]]]]; simpl in Hd; try lia. by eexists. }
  destruct (Hld 13%nat) as [hi ->]; [lia|]. destruct (Hld 17%nat) as [lo ->]; [lia|]. by eexists.
Qed.

Lemma prefetchNext_ok nextPkt e mk : engine_rep e mk -> MatchingEngine.prefetchNext nextPkt e = Ok tt.
Proof using.
  intros (Bs & M & F & H). unfold MatchingEngine.prefetchNext. destruct (prefetchRef_ok nextPkt) as [[ref|] ->]; rewrite bind_ok; [|done].
  eapply idx_prefetch_ok, H.
Qed.

Lemma run_loop_ok fuel ms msgs scratch e mk :
  Forall2 encodes ms msgs -> Forall is_msg msgs ->
  engine_rep e mk -> Exchange.all_admissible cap reserved ms mk -> (length msgs < fuel)%nat ->
  exists s' e', MatchingEngine.run_loop tscNow fuel (frames msgs) scratch e = Ok (s', e') /\
    engine_rep e' (Exchange.steps ms mk) /\
    (market_uncrossed mk -> market_uncrossed (Exchange.steps ms mk)).
Proof using Hfit.
  intros Hms; revert fuel scratch e mk. induction Hms as [|m d ms msgs Hm Hms IH]; intros fuel scratch e mk Hlen He Hadm Hfuel;
    (destruct fuel as [|fuel]; [simpl in Hfuel; lia|]).
  - simpl. eauto.
  - apply Forall_cons in Hlen as [Hd Hlen]. destruct Hadm as [Ha Hadm]. simpl in Hfuel.
    unfold is_msg in Hd. rewrite frames_cons. set (rest := frames msgs) in *.
    unfold be16. cbn [app]. rewrite run_loop_step, bswap16_le16, (prefetchNext_ok _ e mk He), bind_ok by lia; cbv beta.
    destruct (processMessage_ok m (d ++ rest) (Z.of_nat (length d)) scratch 0 e mk (encodes_app _ _ _ Hm) He Ha)
      as (s1 & e1 & E1 & He1 & _).
    rewrite E1, bind_ok; cbv beta iota. rewrite Nat2Z.id, drop_app_length.
    destruct (IH fuel s1 e1 _ Hlen He1 Hadm) as (s' & e' & E & He' & Hu); [lia|].
    exists s', e'. split_and!; [done | done |]. intros H0; apply Hu. by eapply step_uncrossed.
Qed.
End refinement.

(** ** The initial engine *)

Lemma new_engine_rep {I} {HI : OrderIndex I} {cap reserved} {HS : OrderIndexSpec I cap reserved} (m : I) :
  idx_rep m ∅ -> engine_rep (MatchingEngine.new m) Exchange.empty.
Proof.
  intros Hm. exists (fun _ => PriceTime.ABook [] []), ∅, []. split; simpl.
  - split.
    + done.
    + intros l Hl. simpl. rewrite vnth_vassign. apply book_new_rep, new_inv.
    + intros l1 l2 i _ _ Hi. by apply elem_of_nil in Hi.
    + simpl. intros; lia.
  - done.
  - intros ref l i. rewrite lookup_empty. split; [done|]. intros [_ Hi]; by apply elem_of_nil in Hi.
  - intros ref [x Hx]. by rewrite lookup_empty in Hx.
  - done.
  - by rewrite fmap_empty.
Qed.
