(* ===== verification/EngineTheorems.v ===== *)
(** What is shown of the hash map, the parser and the matching engine: the
    properties of FlatHashMap.v, Itch.v and MatchingEngine.v, each with an
    instance on concrete input. *)
From Stdlib Require Import ZArith Lia.
From stdpp Require Import base numbers gmap sorting functions list.
From S2P Require Import Prelude Tsc OrderPool LadderSide PriceTime OrderBook FlatHashMap Itch Exchange MatchingEngine BookTheorems.
Open Scope Z_scope.

(** ** The hash map *)

(** C7: the open-addressing table is a finite map. [find] terminates and returns
    what the map holds; [insert] adds or overwrites one key and nothing else, as
    long as one slot stays empty; [erase] removes one key, present or not, and
    nothing else: shifting the rest of the cluster back keeps every other key
    reachable by its probe. The tables they leave are well-formed again. *)
Theorem map_is_finite_map {V} EMPTY Identity cap (m : FlatHashMap V) M k :
  is_capacity cap -> is_u64 EMPTY -> map_rep EMPTY Identity cap m M -> is_u64 k ->
  FlatHashMap.find EMPTY Identity k m = Ok (M !! k) /\
  (forall v, k <> EMPTY -> Z.of_nat (size (<[k:=v]> M)) < cap ->
     exists m', FlatHashMap.insert EMPTY Identity k v m = Ok m' /\ map_rep EMPTY Identity cap m' (<[k:=v]> M)) /\
  (exists m', FlatHashMap.erase EMPTY Identity k m = Ok m' /\ map_rep EMPTY Identity cap m' (delete k M)).
Proof.
  intros Hcap HE Hm Hk. split_and!; [by apply (find_spec EMPTY Identity cap) | | by apply (erase_spec EMPTY Identity cap)].
  intros v Hne Hs. by apply (insert_spec EMPTY Identity cap).
Qed.

(** Keys 1, 9 and 17 share a home slot of an 8-slot identity-hashed table. *)
Definition table1 : FlatHashMap Z :=
  match FlatHashMap.insert 255 true 1 10 (FlatHashMap.new 255 0 8) with Ok m => m | _ => FlatHashMap.new 255 0 8 end.
Definition table2 : FlatHashMap Z :=
  match FlatHashMap.insert 255 true 9 90 table1 with Ok m => m | _ => table1 end.

Lemma cap8 : is_capacity 8.
Proof. exists 3. split; [lia | done]. Qed.

Lemma table1_rep : map_rep 255 true 8 table1 {[1 := 10]}.
Proof.
  destruct (insert_spec 255 true 8 cap8 (FlatHashMap.new 255 0 8) ∅ 1 10) as (m' & E & H);
    [apply new_spec; [apply cap8 | lia] | lia | lia | reflexivity |].
  unfold table1. by rewrite E.
Qed.

Lemma table2_rep : map_rep 255 true 8 table2 (<[9 := 90]> {[1 := 10]}).
Proof.
  destruct (insert_spec 255 true 8 cap8 table1 {[1 := 10]} 9 90) as (m' & E & H);
    [exact table1_rep | lia | lia | reflexivity |].
  unfold table2. by rewrite E.
Qed.

(** Erasing key 1 moves key 9 back to its home. *)
Lemma map_is_finite_map_witness :
  FlatHashMap.find 255 true 1 table2 = Ok (Some 10) /\
  (exists m', FlatHashMap.insert 255 true 1 11 table2 = Ok m' /\ map_rep 255 true 8 m' (<[1 := 11]> (<[9 := 90]> {[1 := 10]}))) /\
  exists m', FlatHashMap.erase 255 true 1 table2 = Ok m' /\ map_rep 255 true 8 m' (delete 1 (<[9 := 90]> {[1 := 10]})).
Proof.
  destruct (map_is_finite_map 255 true 8 table2 (<[9 := 90]> {[1 := 10]}) 1 cap8) as (H1 & H2 & H3).
  - split; [discriminate | reflexivity].
  - exact table2_rep.
  - split; [discriminate | reflexivity].
  - split; [exact H1|]. split; [apply H2; [discriminate | reflexivity] | exact H3].
Defined.

(** The empty slot is necessary: on a table without one, looking up a key
    that is not in it never ends, however long it runs. *)
Theorem full_table_find_diverges {V} EMPTY cap (m : FlatHashMap V) k n idx :
  is_capacity cap -> mask m = cap - 1 -> vlen (table m) = cap -> 0 <= idx < cap ->
  (forall i, 0 <= i < cap -> key (vnth (table m) i) <> EMPTY /\ key (vnth (table m) i) <> k) ->
  FlatHashMap.find_loop EMPTY n (mask m) (table m) k idx = Err Diverge.
Proof.
  intros Hcap Hm Hlen Hidx Hfull. revert idx Hidx. induction n as [|n IH]; intros idx Hidx; simpl; [done|].
  rewrite vget_ok by (by rewrite Hlen). simpl. destruct (Hfull idx Hidx) as [H1 H2].
  rewrite (proj2 (Z.eqb_neq _ _) H1), (proj2 (Z.eqb_neq _ _) H2); simpl. apply IH.
  unfold FlatHashMap.step. rewrite Hm, (land_mask cap) by done. pose proof (is_capacity_range _ Hcap).
  apply Z.mod_pos_bound; lia.
Qed.

Definition full_table : FlatHashMap Z := mkMap 1 (vupd (vassign 2 (mkEntry 4 40)) 1 (mkEntry 7 70)).

Lemma full_table_find_diverges_witness :
  FlatHashMap.find_loop 255 1000 (mask full_table) (table full_table) 5 1 = Err Diverge.
Proof.
  apply (full_table_find_diverges 255 2 full_table 5 1000 1).
  - exists 1. split; [lia | reflexivity].
  - reflexivity.
  - reflexivity.
  - lia.
  - intros i Hi. assert (i = 0 \/ i = 1) as [-> | ->] by lia; split; discriminate.
Defined.

(** ** The parser *)

(** [readAddOrder] recovers every field of an encoded Add message, the
    64-bit reference included, and leaves the pointer behind the price. *)
Theorem add_roundtrip header ref side shares stock price rest :
  length header = 10%nat -> is_u64 ref -> is_u32 shares -> length stock = 8%nat -> is_u32 price ->
  exists o, ItchParser.readAddOrder (enc_add header ref side shares stock price ++ rest) = Ok (o, rest) /\
    order_ref o = ref /\ o = order_of ref side shares price.
Proof.
  intros. exists (order_of ref side shares price). split; [by apply readAddOrder_enc|].
  split; [by apply order_ref_of | done].
Qed.

Lemma add_roundtrip_witness :
  exists o, ItchParser.readAddOrder (enc_add [0;7;0;0;0;0;0;0;0;1] (2 ^ 40 + 5) chr_B 100 [65;65;80;76;32;32;32;32] 1500000 ++ [1;2]) = Ok (o, [1;2]) /\
    order_ref o = 2 ^ 40 + 5 /\ o = order_of (2 ^ 40 + 5) chr_B 100 1500000.
Proof.
  apply (add_roundtrip [0;7;0;0;0;0;0;0;0;1] (2 ^ 40 + 5) chr_B 100 [65;65;80;76;32;32;32;32] 1500000 [1;2]);
    try reflexivity; unfold is_u64, is_u32; lia.
Defined.

(** The three other parsers recover the fields of their messages: the
    reference of a delete, reference and shares of an execution or cancel, and
    both references, shares and price of a replace. *)
Theorem other_roundtrips header ref new shares price rest :
  length header = 10%nat -> is_u64 ref -> is_u64 new -> is_u32 shares -> is_u32 price ->
  (exists d, ItchParser.readDeleteOrder (enc_delete header ref ++ rest) = Ok (d, rest) /\
     Z.lor (u64 (Z.shiftl (del_high d) 32)) (del_low d) = ref) /\
  ItchParser.readOrderExecuted (enc_executed header ref shares ++ rest) = Ok (mkExecMsg ref shares, rest) /\
  ItchParser.readOrderReplace (enc_replace header ref new shares price ++ rest) = Ok (mkReplace ref new shares price, rest).
Proof.
  intros Hh Hr Hn Hs Hp. split_and!; [|by apply readOrderExecuted_enc | by apply readOrderReplace_enc].
  eexists; split; [by apply readDeleteOrder_enc|]. exact (order_ref_of ref 0 0 0 Hr).
Qed.

Lemma other_roundtrips_witness :
  ItchParser.readOrderReplace (enc_replace (replicate 10 0) 77 (2 ^ 63) 5 600 ++ [9]) = Ok (mkReplace 77 (2 ^ 63) 5 600, [9]).
Proof.
  apply (other_roundtrips (replicate 10 0) 77 (2 ^ 63) 5 600 [9]); try reflexivity; unfold is_u64, is_u32; lia.
Defined.

(** C29: each of the four readers inverts the wire encoding of its message and
    leaves the pointer behind it: an Add with its 64-bit reference, side, shares
    and price, the reference of a delete, reference and shares of an execution
    or cancel, and both references, shares and price of a replace. *)
Theorem itch_roundtrips header ref new side shares stock price rest :
  length header = 10%nat -> is_u64 ref -> is_u64 new -> is_u32 shares -> length stock = 8%nat -> is_u32 price ->
  (exists o, ItchParser.readAddOrder (enc_add header ref side shares stock price ++ rest) = Ok (o, rest) /\
    order_ref o = ref /\ o = order_of ref side shares price) /\
  (exists d, ItchParser.readDeleteOrder (enc_delete header ref ++ rest) = Ok (d, rest) /\
     Z.lor (u64 (Z.shiftl (del_high d) 32)) (del_low d) = ref) /\
  ItchParser.readOrderExecuted (enc_executed header ref shares ++ rest) = Ok (mkExecMsg ref shares, rest) /\
  ItchParser.readOrderReplace (enc_replace header ref new shares price ++ rest) = Ok (mkReplace ref new shares price, rest).
Proof. intros. split; [by apply add_roundtrip | by apply other_roundtrips]. Qed.

Lemma itch_roundtrips_witness :
  exists o, ItchParser.readAddOrder (enc_add [0;7;0;0;0;0;0;0;0;1] (2 ^ 40 + 5) chr_B 100 [65;65;80;76;32;32;32;32] 1500000 ++ [1;2]) = Ok (o, [1;2]) /\
    order_ref o = 2 ^ 40 + 5 /\ o = order_of (2 ^ 40 + 5) chr_B 100 1500000.
Proof.
  apply (itch_roundtrips [0;7;0;0;0;0;0;0;0;1] (2 ^ 40 + 5) 77 chr_B 100 [65;65;80;76;32;32;32;32] 1500000 [1;2]);
    try reflexivity; unfold is_u64, is_u32; lia.
Defined.

(** ** The engine *)

(** C5: one message. On an engine that stands for a market, a well-formed
    message that the feed may send makes [processMessage] end without error in
    an engine that stands for the market after [Exchange.step]: orders matched
    by price-time priority, removed, reduced in place or replaced, with pool,
    books and map consistent; and the scratch buffer holds the executions of
    the order it entered. Stated for any map that keeps the [OrderIndex]
    contract. *)
Theorem process_message_refines {I} {HI : OrderIndex I} {cap reserved} {HS : OrderIndexSpec I cap reserved}
    tscNow m data len scratch tw (e : MatchingEngine I) mk :
  cap <= INVALID_INDEX -> encodes m data -> engine_rep e mk -> Exchange.admissible cap reserved m mk ->
  exists s' e', MatchingEngine.processMessage tscNow data len scratch tw e = Ok (s', e') /\
    engine_rep e' (Exchange.step m mk).1 /\
    scr_executedOrders s' = reported (Exchange.step m mk).2 scratch.
Proof. intros; by apply processMessage_ok. Qed.

(** The engine as [main] constructs it. *)
Lemma cap_engine : is_capacity 8388608.
Proof. exists 23. split; [lia | reflexivity]. Qed.

#[export] Instance engine_index_spec : OrderIndexSpec (FlatHashMap OrderLocation) 8388608 UINT64_MAX :=
  flat_index_spec 8388608 cap_engine.

Lemma engine0_rep : engine_rep MatchingEngine.engine0 Exchange.empty.
Proof. apply new_engine_rep. apply (new_spec UINT64_MAX true 8388608 cap_engine). unfold UINT64_MAX; lia. Qed.

(** A short session: two orders that trade, a cancel, a replace. *)
Definition session : list Exchange.message :=
  [Exchange.Add 7 (order_of 101 chr_B 50 10000); Exchange.Add 7 (order_of 102 chr_S 80 9900);
   Exchange.Reduce 102 10; Exchange.Replace 102 103 25 9800; Exchange.Ignored].
Definition session_bytes : list bytes :=
  [chr_A :: enc_add (be16 7 ++ replicate 8 0) 101 chr_B 50 (replicate 8 32) 10000 ++ [];
   chr_F :: enc_add (be16 7 ++ replicate 8 0) 102 chr_S 80 (replicate 8 32) 9900 ++ [77; 80; 73; 68];
   chr_X :: enc_executed (replicate 10 0) 102 10 ++ [];
   chr_U :: enc_replace (replicate 10 0) 102 103 25 9800 ++ [];
   [83; 0; 0]].

(** Ranges of literal fields. *)
Ltac literal := unfold is_u64, is_u32, is_locate in *; (lia || reflexivity || (vm_compute; reflexivity)).

Lemma session_encodes : Forall2 encodes session session_bytes.
Proof.
  constructor; [|constructor; [|constructor; [|constructor; [|constructor; [|constructor]]]]].
  - apply (encodes_add chr_A 7 (replicate 8 0) 101 chr_B 50 (replicate 8 32) 10000 []); literal.
  - apply (encodes_add chr_F 7 (replicate 8 0) 102 chr_S 80 (replicate 8 32) 9900 [77; 80; 73; 68]); literal.
  - apply (encodes_reduce chr_X (replicate 10 0) 102 10 []); literal.
  - apply (encodes_replace (replicate 10 0) 102 103 25 9800 []); literal.
  - apply encodes_other. unfold chr_A, chr_F, chr_D, chr_E, chr_C, chr_X, chr_U. rewrite !elem_of_cons, elem_of_nil. lia.
Qed.

Lemma session_admissible : Exchange.all_admissible 8388608 UINT64_MAX session Exchange.empty.
Proof.
  cbn [Exchange.all_admissible session].
  split; [|split; [|split; [|split; [|split]]]]; try exact I.
  - split; [left; reflexivity|]. split_and!; vm_compute; (reflexivity || discriminate).
  - split; [right; reflexivity|]. split_and!; vm_compute; (reflexivity || discriminate).
  - split; [vm_compute; discriminate | right; vm_compute; reflexivity].
Qed.

Lemma process_message_refines_witness :
  exists s' e', MatchingEngine.processMessage (fun n => n) (hd [] session_bytes) 36 (mkScratch [] []) 0 MatchingEngine.engine0 = Ok (s', e') /\
    engine_rep e' (Exchange.step (Exchange.Add 7 (order_of 101 chr_B 50 10000)) Exchange.empty).1 /\
    scr_executedOrders s' = [].
Proof.
  destruct (process_message_refines (fun n => n) (Exchange.Add 7 (order_of 101 chr_B 50 10000)) (hd [] session_bytes) 36
    (mkScratch [] []) 0 MatchingEngine.engine0 Exchange.empty) as (s' & e' & E & He & Hs).
  - vm_compute; discriminate.
  - pose proof session_encodes as H. inversion H. assumption.
  - exact engine0_rep.
  - exact (proj1 session_admissible).
  - exists s', e'. split; [exact E|]. split; [exact He | exact Hs].
Defined.

(** *** Measurements *)

Definition is_add (data : bytes) : bool :=
  match data with t :: _ => (t =? chr_A) || (t =? chr_F) | [] => false end.

Section samples.
Context {I : Type} {HI : OrderIndex I} (tscNow : Z -> Z).
Implicit Types (e : MatchingEngine I).

Definition same_samples e e' : Prop :=
  latencies e' = latencies e /\ wireLatencies e' = wireLatencies e /\ tscReads e' = tscReads e.

Lemma bookRemove_samples l i e e' : MatchingEngine.bookRemove l i e = Ok e' -> same_samples e e'.
Proof.
  unfold MatchingEngine.bookRemove. intros (b & _ & ((p & b') & _ & (bs & _ & [= <-])%bind_inv)%bind_inv)%bind_inv. done.
Qed.

Lemma bookHandle_samples l o s e out e' : MatchingEngine.bookHandle l o s e = Ok (out, e') -> same_samples e e'.
Proof.
  unfold MatchingEngine.bookHandle.
  intros (b & _ & (((out' & p) & b') & _ & (bs & _ & [= _ <-])%bind_inv)%bind_inv)%bind_inv. done.
Qed.

Lemma onDelete_samples data e e' : MatchingEngine.onDelete data e = Ok e' -> same_samples e e'.
Proof.
  unfold MatchingEngine.onDelete. intros ((d & r) & _ & (f & _ & H)%bind_inv)%bind_inv. destruct f as [loc|]; [|by injection H as <-].
  apply bind_inv in H as (e1 & H1 & (m & _ & [= <-])%bind_inv). by apply bookRemove_samples in H1.
Qed.

Lemma onExecuted_samples data e e' : MatchingEngine.onExecuted data e = Ok e' -> same_samples e e'.
Proof.
  unfold MatchingEngine.onExecuted. intros ((d & r) & _ & (f & _ & H)%bind_inv)%bind_inv. destruct f as [loc|]; [|by injection H as <-].
  apply bind_inv in H as (n & _ & H). case_match.
  - apply bind_inv in H as (e1 & H1 & (m & _ & [= <-])%bind_inv). by apply bookRemove_samples in H1.
  - by apply bind_inv in H as (p & _ & [= <-]).
Qed.

Lemma onReplace_samples data e s e' : MatchingEngine.onReplace data e = Ok (s, e') -> same_samples e e'.
Proof.
  unfold MatchingEngine.onReplace. intros ((d & r) & _ & (f & _ & H)%bind_inv)%bind_inv. destruct f as [loc|]; [|by injection H as _ <-].
  apply bind_inv in H as (n & _ & (e1 & H1 & (m & _ & ((out & e2) & H2 & (m1 & _ & (m2 & _ & [= _ <-])%bind_inv)%bind_inv)%bind_inv)%bind_inv)%bind_inv).
  apply bookRemove_samples in H1 as (A1 & B1 & C1). apply bookHandle_samples in H2 as (A2 & B2 & C2).
  unfold same_samples; simpl in *. split_and!; congruence.
Qed.
End samples.

(** Every Add message that is handled contributes exactly one latency
    sample, the difference modulo 2^64 of two consecutive readings of the
    counter around [handleOrder], and one wire sample exactly when a wire
    timestamp was given; no other message records anything or reads the
    counter. *)
Theorem latency_samples {I} {HI : OrderIndex I} tscNow data len scratch tw (e e' : MatchingEngine I) s' :
  MatchingEngine.processMessage tscNow data len scratch tw e = Ok (s', e') ->
  latencies e' = latencies e ++ (if is_add data then [u64 (tscNow (tscReads e + 1) - tscNow (tscReads e))] else []) /\
  wireLatencies e' = wireLatencies e ++ (if is_add data && negb (tw =? 0) then [u64 (tscNow (tscReads e) - tw)] else []) /\
  tscReads e' = tscReads e + (if is_add data then 2 else 0).
Proof.
  unfold MatchingEngine.processMessage, is_add. destruct data as [|t data]; [done|].
  destruct ((t =? chr_A) || (t =? chr_F)).
  - unfold MatchingEngine.onAdd, MatchingEngine.readTsc.
    intros (v & _ & ((o & r) & _ & ((out & e1) & H1 & (m & _ & (m' & _ & [= _ <-])%bind_inv)%bind_inv)%bind_inv)%bind_inv)%bind_inv.
    apply bookHandle_samples in H1 as (A & B & C). simpl in A, B, C.
    destruct (tw =? 0); simpl; rewrite A, B, C, ?app_nil_r; split_and!; (done || lia).
  - enough (forall e1, same_samples e e1 -> latencies e1 = latencies e ++ [] /\ wireLatencies e1 = wireLatencies e ++ [] /\ tscReads e1 = tscReads e + 0) as Hsame.
    { intros H. apply Hsame. repeat case_match; simpl in H.
      - apply bind_inv in H as (e1 & H & [= _ <-]). by eapply onDelete_samples.
      - apply bind_inv in H as (e1 & H & [= _ <-]). by eapply onExecuted_samples.
      - apply bind_inv in H as ((s1 & e1) & H & [= _ <-]). by eapply onReplace_samples.
      - by injection H as _ <-. }
    intros e1 (A & B & C). by rewrite !app_nil_r, Z.add_0_r.
Qed.

(** The samples of [k] Adds, the counter having been read [r] times before. *)
Fixpoint add_samples (tscNow : Z -> Z) (r : Z) (k : nat) : list Z :=
  match k with
  | O => []
  | S k => u64 (tscNow (r + 1) - tscNow r) :: add_samples tscNow (r + 2) k
  end.

Fixpoint adds (ms : list Exchange.message) : nat :=
  match ms with
  | [] => 0
  | Exchange.Add _ _ :: ms => S (adds ms)
  | _ :: ms => adds ms
  end.

Lemma encodes_is_add m d rest ms : encodes m d -> ((if is_add (d ++ rest) then 1 else 0) + adds ms = adds (m :: ms))%nat.
Proof.
  destruct 1 as [t l h ref side sh stock pr ex Ht| |t h ref sh ex Ht| |t ex Ht]; unfold is_add; cbn [app].
  - by destruct Ht as [-> | ->].
  - done.
  - by destruct Ht as [-> | [-> | ->]].
  - done.
  - assert (H : forall c, c ∈ [chr_A; chr_F; chr_D; chr_E; chr_C; chr_X; chr_U] -> (t =? c) = false)
      by (intros c Hc; apply Z.eqb_neq; intros ->; done).
    by rewrite !H by set_solver.
Qed.

Lemma add_samples_u64 tscNow r k : Forall (fun c => 0 <= c <= UINT64_MAX) (add_samples tscNow r k).
Proof.
  revert r; induction k as [|k IH]; intros r; constructor; [|done]. unfold u64, UINT64_MAX.
  pose proof (Z.mod_pos_bound (tscNow (r + 1) - tscNow r) (2 ^ 64)). lia.
Qed.

Lemma run_loop_samples {I} {HI : OrderIndex I} tscNow fuel ms msgs scratch (e e' : MatchingEngine I) s' :
  Forall2 encodes ms msgs -> Forall is_msg msgs ->
  MatchingEngine.run_loop tscNow fuel (frames msgs) scratch e = Ok (s', e') ->
  latencies e' = latencies e ++ add_samples tscNow (tscReads e) (adds ms) /\ wireLatencies e' = wireLatencies e.
Proof.
  intros Hms; revert fuel scratch e. induction Hms as [|m d ms msgs Hm Hms IH]; intros fuel scratch e Hlen;
    (destruct fuel as [|fuel]; [done|]).
  - simpl. intros [= _ <-]. by rewrite app_nil_r.
  - apply Forall_cons in Hlen as [Hd Hlen]. unfold is_msg in Hd. rewrite frames_cons. set (rest := frames msgs) in *.
    unfold be16. cbn [app]. rewrite run_loop_step, bswap16_le16 by lia. intros (u & _ & ((s1 & e1) & E1 & E2)%bind_inv)%bind_inv. cbv beta iota in E2.
    rewrite Nat2Z.id, drop_app_length in E2. apply latency_samples in E1 as (A & B & C). apply IH in E2 as [A' B']; [|done].
    pose proof (encodes_is_add m d rest ms Hm) as Ha. rewrite A', B', A, B, C. rewrite andb_false_r, app_nil_r. split; [|done].
    rewrite <-Ha, <-app_assoc. by destruct (is_add (d ++ rest)); cbn [app Nat.add add_samples]; rewrite ?Z.add_0_r.
Qed.

(** *** Conversion *)

(** A recorded sample and what it is converted to. *)
Definition sample_line (p : platform) (cyclesPerNs : double) (c n : Z) : Prop :=
  if tscIsCycles p then Calibrate.toNs cyclesPerNs c = Ok n else n = c.

Lemma convert_ok {I} p cpn (e : MatchingEngine I) :
  Forall (fun c => 0 <= c <= UINT64_MAX) (latencies e) -> Forall (fun c => 0 <= c <= UINT64_MAX) (wireLatencies e) ->
  (tscIsCycles p = true -> converts cpn) ->
  exists e', MatchingEngine.convert p cpn e = Ok e' /\ Forall2 (sample_line p cpn) (latencies e) (latencies e') /\
    Forall2 (sample_line p cpn) (wireLatencies e) (wireLatencies e') /\
    pool e' = pool e /\ orderMap e' = orderMap e /\ orderBooks e' = orderBooks e.
Proof.
  intros Hl Hw Hcon. unfold MatchingEngine.convert, sample_line. destruct (tscIsCycles p).
  - assert (Hc : forall c, 0 <= c <= UINT64_MAX -> exists n, Calibrate.toNs cpn c = Ok n) by (by apply Hcon).
    destruct (map_result_ok (Calibrate.toNs cpn) (latencies e)) as (ls & El & Hls); [by eapply Forall_impl|].
    destruct (map_result_ok (Calibrate.toNs cpn) (wireLatencies e)) as (ws & Ew & Hws); [by eapply Forall_impl|].
    rewrite El, bind_ok, Ew, bind_ok. eexists; split; [done|]. by split_and!.
  - exists e. split_and!; try done; apply Forall2_same_length_lookup_2; try done; intros; congruence.
Qed.

Lemma same_engine_rep {I} {HI : OrderIndex I} {cap reserved} {HS : OrderIndexSpec I cap reserved} (e e' : MatchingEngine I) mk :
  pool e' = pool e -> orderMap e' = orderMap e -> orderBooks e' = orderBooks e -> engine_rep e mk -> engine_rep e' mk.
Proof.
  destruct e, e'; simpl. intros -> -> -> (Bs & M & F & H). exists Bs, M, F. destruct H; by split.
Qed.

(** *** Whole files *)

Lemma run_ok {I} {HI : OrderIndex I} {cap reserved} {HS : OrderIndexSpec I cap reserved}
    tscNow p fuel clock cpn ms msgs (e : MatchingEngine I) mk :
  cap <= INVALID_INDEX -> engine_rep e mk -> Forall2 encodes ms msgs ->
  Forall is_msg msgs -> Exchange.all_admissible cap reserved ms mk ->
  Calibrate.calibrateTsc fuel clock (tscNow (tscReads e)) (tscNow (tscReads e + 1)) = Ok cpn ->
  (tscIsCycles p = true -> converts cpn) -> latencies e = [] -> wireLatencies e = [] ->
  exists e', MatchingEngine.run tscNow p fuel clock (Mapped (frames msgs)) e = Ok e' /\
    engine_rep e' (Exchange.steps ms mk) /\ (market_uncrossed mk -> market_uncrossed (Exchange.steps ms mk)) /\
    Forall2 (sample_line p cpn) (add_samples tscNow (tscReads e + 2) (adds ms)) (latencies e') /\ wireLatencies e' = [].
Proof.
  intros Hfit He Henc Hlen Hadm Hcal Hcon Hl0 Hw0. unfold MatchingEngine.run. rewrite Hcal, bind_ok; cbv beta.
  destruct (run_loop_ok Hfit tscNow (S (length (frames msgs))) ms msgs (mkScratch [] []) (MatchingEngine.set_reads (tscReads e + 2) e) mk)
    as (s' & e' & E & He' & Hu); try done.
  { pose proof (frames_count msgs); lia. }
  rewrite E, bind_ok; cbv beta iota. destruct (run_loop_samples _ _ _ _ _ _ _ _ Henc Hlen E) as [Hl Hw]. simpl in Hl, Hw. rewrite Hl0 in Hl. rewrite Hw0 in Hw.
  pose proof (add_samples_u64 tscNow (tscReads e + 2) (adds ms)) as Hr. cbn [app] in Hl. rewrite <-Hl in *.
  destruct (convert_ok p cpn e') as (e2 & E2 & Hl2 & Hw2 & H1 & H2 & H3); [done | by rewrite Hw | done |].
  exists e2. rewrite Hw in Hw2. apply Forall2_nil_inv_l in Hw2. split_and!; try done. by eapply same_engine_rep.
Qed.

(** C1: a whole session. From the engine as constructed, [run] over a file of
    length-prefixed messages the feed may send reads exactly those messages,
    terminates without error, conversion of the samples included, and leaves an
    engine that stands for the market the messages lead to. The only bound is the capacity of the order map:
    fewer than 8388608 live orders. *)
Theorem run_refines_exchange tscNow p fuel clock cpn ms msgs :
  Forall2 encodes ms msgs -> Forall is_msg msgs ->
  Exchange.all_admissible 8388608 UINT64_MAX ms Exchange.empty ->
  Calibrate.calibrateTsc fuel clock (tscNow 0) (tscNow 1) = Ok cpn -> (tscIsCycles p = true -> converts cpn) ->
  exists e', MatchingEngine.run tscNow p fuel clock (Mapped (frames msgs)) MatchingEngine.engine0 = Ok e' /\
    engine_rep e' (Exchange.steps ms Exchange.empty).
Proof.
  intros Henc Hlen Hadm Hcal Hcon. destruct (run_ok tscNow p fuel clock cpn ms msgs MatchingEngine.engine0 Exchange.empty)
    as (e' & E & He & _); try done; [apply engine0_rep | eauto].
Qed.

(** A counter of 3 GHz, calibrated with [clock40]. *)
Definition tsc3 (n : Z) : Z := 360000000 * n.
Definition cpn3 : double := Double.div (Double.of_u64 360000000) (Double.of_u64 120000000).

Lemma tsc3_calibrates : Calibrate.calibrateTsc 4 clock40 (tsc3 0) (tsc3 1) = Ok cpn3.
Proof. vm_compute. reflexivity. Qed.
Lemma cpn3_converts : converts cpn3.
Proof. apply fast_counter_converts; lia. Qed.

(** After the session the book of stock 7 holds the replacement, which found
    no bid left. *)
Lemma run_refines_exchange_witness :
  exists e', MatchingEngine.run tsc3 X86 4 clock40 (Mapped (frames session_bytes)) MatchingEngine.engine0 = Ok e' /\
    engine_rep e' (Exchange.steps session Exchange.empty) /\
    Exchange.books (Exchange.steps session Exchange.empty) 7 = Exchange.Book [] [order_of 103 chr_S 25 9800].
Proof.
  destruct (run_refines_exchange tsc3 X86 4 clock40 cpn3 session session_bytes) as (e' & E & He).
  - exact session_encodes.
  - repeat constructor.
  - exact session_admissible.
  - exact tsc3_calibrates.
  - intros _. exact cpn3_converts.
  - exists e'. split; [exact E|]. split; [exact He | vm_compute; reflexivity].
Defined.

(** C6: no session leaves a crossed book: after any file the feed may send, in
    every book with a best bid and a best ask the bid is below the ask. *)
Theorem run_never_crossed tscNow p fuel clock cpn ms msgs e' l rb pb ra pa :
  Forall2 encodes ms msgs -> Forall is_msg msgs ->
  Exchange.all_admissible 8388608 UINT64_MAX ms Exchange.empty -> is_locate l ->
  Calibrate.calibrateTsc fuel clock (tscNow 0) (tscNow 1) = Ok cpn -> (tscIsCycles p = true -> converts cpn) ->
  MatchingEngine.run tscNow p fuel clock (Mapped (frames msgs)) MatchingEngine.engine0 = Ok e' ->
  LadderSide.bestLevel (bids (vnth (orderBooks e') l)) = Some (rb, pb) ->
  LadderSide.bestLevel (asks (vnth (orderBooks e') l)) = Some (ra, pa) -> pb < pa.
Proof.
  intros Henc Hlen Hadm Hl Hcal Hcon E Eb Ea. destruct (run_ok tscNow p fuel clock cpn ms msgs MatchingEngine.engine0 Exchange.empty)
    as (e1 & E1 & (Bs & M & F & H) & Hu & _); try done; [apply engine0_rep|].
  rewrite E in E1; injection E1 as <-.
  refine (best_levels_uncrossed _ _ _ F rb ra pb pa (bk_book _ _ _ _ (cr_books _ _ _ _ _ _ _ H) l Hl) _ Eb Ea).
  apply uncrossed_view. rewrite <-(cr_view _ _ _ _ _ _ _ H l Hl). apply Hu; [|done].
  intros l' _ x y Hx. by apply elem_of_nil in Hx.
Qed.

Lemma side_has_best ns s isBid Q : side_rep ns s isBid Q -> Q <> [] -> exists ref p, LadderSide.bestLevel s = Some (ref, p).
Proof.
  intros Hs HQ. pose proof (bestLevel_prefix _ _ _ _ Hs) as H. destruct (LadderSide.bestLevel s) as [[ref p]|]; [eauto | done].
Qed.

Definition session2 : list Exchange.message :=
  [Exchange.Add 7 (order_of 101 chr_B 50 9900); Exchange.Add 7 (order_of 102 chr_S 80 10000)].
Definition session2_bytes : list bytes :=
  [chr_A :: enc_add (be16 7 ++ replicate 8 0) 101 chr_B 50 (replicate 8 32) 9900 ++ [];
   chr_A :: enc_add (be16 7 ++ replicate 8 0) 102 chr_S 80 (replicate 8 32) 10000 ++ []].

Lemma session2_encodes : Forall2 encodes session2 session2_bytes.
Proof.
  constructor; [|constructor; [|constructor]].
  - apply (encodes_add chr_A 7 (replicate 8 0) 101 chr_B 50 (replicate 8 32) 9900 []); literal.
  - apply (encodes_add chr_A 7 (replicate 8 0) 102 chr_S 80 (replicate 8 32) 10000 []); literal.
Qed.

Lemma session2_admissible : Exchange.all_admissible 8388608 UINT64_MAX session2 Exchange.empty.
Proof.
  cbn [Exchange.all_admissible session2]. split; [|split]; [| |exact I].
  - split; [left; reflexivity|]. split_and!; vm_compute; (reflexivity || discriminate).
  - split; [right; reflexivity|]. split_and!; vm_compute; (reflexivity || discriminate).
Qed.

Lemma session2_len : Forall is_msg session2_bytes.
Proof. repeat constructor. Qed.

Lemma run_never_crossed_witness :
  exists e' rb pb ra pa,
    MatchingEngine.run tsc3 X86 4 clock40 (Mapped (frames session2_bytes)) MatchingEngine.engine0 = Ok e' /\
    LadderSide.bestLevel (bids (vnth (orderBooks e') 7)) = Some (rb, pb) /\
    LadderSide.bestLevel (asks (vnth (orderBooks e') 7)) = Some (ra, pa) /\ pb < pa.
Proof.
  assert (Hl : is_locate 7) by literal.
  assert (Hfit : 8388608 <= INVALID_INDEX) by (vm_compute; discriminate).
  destruct (run_ok tsc3 X86 4 clock40 cpn3 session2 session2_bytes MatchingEngine.engine0 Exchange.empty Hfit
    engine0_rep session2_encodes session2_len session2_admissible tsc3_calibrates (fun _ => cpn3_converts) eq_refl eq_refl) as (e' & E & (Bs & M & F & H) & _).
  pose proof (cr_view _ _ _ _ _ _ _ H 7 Hl) as Hv.
  destruct (bk_book _ _ _ _ (cr_books _ _ _ _ _ _ _ H) 7 Hl) as [Hb Ha _ _ _].
  destruct (side_has_best _ _ _ _ Hb) as (rb & pb & Eb); [intros H0; apply (f_equal Exchange.Bids) in Hv; simpl in Hv; by rewrite H0 in Hv|].
  destruct (side_has_best _ _ _ _ Ha) as (ra & pa & Ea); [intros H0; apply (f_equal Exchange.Asks) in Hv; simpl in Hv; by rewrite H0 in Hv|].
  exists e', rb, pb, ra, pa. split; [exact E|]. split; [exact Eb|]. split; [exact Ea|].
  exact (run_never_crossed tsc3 X86 4 clock40 cpn3 session2 session2_bytes e' 7 rb pb ra pa
    session2_encodes session2_len session2_admissible Hl tsc3_calibrates (fun _ => cpn3_converts) E Eb Ea).
Defined.

(** Every slot of the pool is on the free list or holds exactly one live
    order. *)
Lemma live_and_free {I} {HI : OrderIndex I} {cap reserved} {HS : OrderIndexSpec I cap reserved} (e : MatchingEngine I) mk :
  engine_rep e mk ->
  exists F, pool_inv (pool e) F /\ vlen (nodes (pool e)) = Z.of_nat (size (Exchange.dir mk)) + Z.of_nat (length F).
Proof.
  intros (Bs & M & F & H). exists F.
  assert (Hinv : pool_inv (pool e) F) by (apply (bk_book _ _ _ _ (cr_books _ _ _ _ _ _ _ H) 0); literal).
  split; [done|]. rewrite (cr_dir _ _ _ _ _ _ _ H), map_size_fmap.
  pose proof (live_slots _ _ _ _ _ _ _ H) as Hp. apply Permutation_length in Hp.
  rewrite length_seqZ, length_app, length_fmap, length_map_to_list in Hp.
  pose proof (pi_fits _ _ Hinv) as Hf. unfold pool_fits in Hf. lia.
Qed.

(** C28: a delete, execution, cancel or replace of a reference that is not live
    changes nothing at all. *)
Theorem unknown_reference_ignored {I} {HI : OrderIndex I} {cap reserved} {HS : OrderIndexSpec I cap reserved}
    tscNow m data len scratch tw (e : MatchingEngine I) mk ref :
  engine_rep e mk -> encodes m data -> Exchange.dir mk !! ref = None ->
  m = Exchange.Delete ref \/ (exists x, m = Exchange.Reduce ref x) \/ (exists new x p, m = Exchange.Replace ref new x p) ->
  MatchingEngine.processMessage tscNow data len scratch tw e = Ok (scratch, e).
Proof.
  intros (Bs & M & F & H) Henc Hnone Hm.
  assert (Hfind : is_u64 ref -> idx_find ref (orderMap e) = Ok None).
  { intros Hr. rewrite (idx_find_ok (orderMap e) M) by (done || apply H).
    rewrite (cr_dir _ _ _ _ _ _ _ H), lookup_fmap, fmap_None in Hnone. by rewrite Hnone. }
  destruct Henc as [| |t header r sh rest Ht| |]; (destruct Hm as [Em | [[x Em] | (nw & x & p & Em)]]; try done); injection Em as; subst;
    unfold MatchingEngine.processMessage.
  - unfold MatchingEngine.onDelete. rewrite readDeleteOrder_enc by done. simpl.
    change (Z.lor _ _) with (order_ref (order_of ref 0 0 0)). rewrite order_ref_of by done. by rewrite Hfind.
  - assert (E : MatchingEngine.onExecuted (enc_executed header ref x ++ rest) e = Ok e).
    { unfold MatchingEngine.onExecuted. rewrite readOrderExecuted_enc by done. simpl. by rewrite Hfind. }
    by destruct Ht as [-> | [-> | ->]]; simpl; rewrite E.
  - simpl. unfold MatchingEngine.onReplace. rewrite readOrderReplace_enc by done. simpl. by rewrite Hfind.
Qed.

Lemma unknown_reference_ignored_witness :
  MatchingEngine.processMessage (fun n => n) (chr_D :: enc_delete (replicate 10 0) 55 ++ []) 19 (mkScratch [] []) 0 MatchingEngine.engine0
  = Ok (mkScratch [] [], MatchingEngine.engine0).
Proof.
  apply (unknown_reference_ignored (fun n => n) (Exchange.Delete 55) _ 19 (mkScratch [] []) 0 MatchingEngine.engine0 Exchange.empty 55).
  - exact engine0_rep.
  - apply encodes_delete; literal.
  - reflexivity.
  - left; reflexivity.
Defined.

(** Two live orders after the second session. *)
Lemma prefetch_known t header ref rest b0 b1 :
  (t =? chr_A) || (t =? chr_F) || (t =? chr_D) || (t =? chr_E) || (t =? chr_C) || (t =? chr_X) || (t =? chr_U) = true ->
  length header = 10%nat -> is_u64 ref ->
  MatchingEngine.prefetchRef (b0 :: b1 :: t :: header ++ be64 ref ++ rest) = Ok (Some ref).
Proof.
  intros Ht Hh Hr. unfold MatchingEngine.prefetchRef. cbn [lookup list_lookup].
  rewrite Ht. destruct (Nat.leb_spec 21 (length (b0 :: b1 :: t :: header ++ be64 ref ++ rest))) as [_|Hlt];
    [|simpl in Hlt; rewrite !length_app, Hh in Hlt; simpl in Hlt; lia].
  destruct (halves ref Hr) as [Hhi Hlo].
  change (drop 13 (b0 :: b1 :: t :: header ++ be64 ref ++ rest)) with (drop 10 (header ++ be64 ref ++ rest)).
  change (drop 17 (b0 :: b1 :: t :: header ++ be64 ref ++ rest)) with (drop 14 (header ++ be64 ref ++ rest)).
  rewrite <-Hh at 1. replace 14%nat with (length header + 4)%nat by lia. rewrite <-drop_drop, !drop_app_length.
  unfold be64. rewrite <-app_assoc.
  replace (drop 4 (be32 (ref / 2 ^ 32) ++ be32 (ref mod 2 ^ 32) ++ rest)) with (be32 (ref mod 2 ^ 32) ++ rest) by reflexivity.
  destruct (load32_be32 _ (be32 (ref mod 2 ^ 32) ++ rest) Hhi) as (w1 & -> & _ & B1).
  destruct (load32_be32 _ rest Hlo) as (w2 & -> & _ & B2). rewrite !bind_ok, B1, B2.
  do 2 f_equal. exact (order_ref_of ref 0 0 0 Hr).
Qed.

(** While one message is processed, [run] prefetches the map slot of the
    order the next message names: the reference it reads ahead, at fixed
    offsets, is the one the parser will return, for every message type that
    carries one; and nothing is prefetched for the others. *)
Theorem prefetch_reads_next_reference m data b0 b1 :
  encodes m data ->
  MatchingEngine.prefetchRef (b0 :: b1 :: data) = Ok
    match m with
    | Exchange.Add _ o => Some (order_ref o)
    | Exchange.Delete ref | Exchange.Reduce ref _ | Exchange.Replace ref _ _ _ => Some ref
    | Exchange.Ignored => None
    end.
Proof.
  destruct 1 as [t l h ref side sh stock pr rest Ht Hl Hh Hr| |t header ref sh rest Ht| |t rest Ht].
  - unfold enc_add. rewrite <-!app_assoc, (app_assoc (be16 l)). rewrite order_ref_of by done.
    apply prefetch_known; [destruct Ht as [-> | ->]; reflexivity | rewrite length_app; simpl; lia | done].
  - unfold enc_delete. rewrite <-!app_assoc. by apply prefetch_known.
  - unfold enc_executed. rewrite <-!app_assoc. apply prefetch_known; [|done|done].
    by destruct Ht as [-> | [-> | ->]].
  - unfold enc_replace. rewrite <-!app_assoc. by apply prefetch_known.
  - assert (H : forall c, c ∈ [chr_A; chr_F; chr_D; chr_E; chr_C; chr_X; chr_U] -> (t =? c) = false)
      by (intros c Hc; apply Z.eqb_neq; intros ->; done).
    unfold MatchingEngine.prefetchRef. cbn [lookup list_lookup]. rewrite !H by set_solver. by destruct (_ <=? _)%nat.
Qed.

Lemma prefetch_reads_next_reference_witness :
  MatchingEngine.prefetchRef (0 :: 19 :: chr_D :: enc_delete (replicate 10 0) (2 ^ 33 + 1) ++ []) = Ok (Some (2 ^ 33 + 1)).
Proof.
  apply (prefetch_reads_next_reference (Exchange.Delete (2 ^ 33 + 1)) _ 0 19). apply encodes_delete; literal.
Defined.

Lemma latency_samples_witness :
  exists s' e', MatchingEngine.processMessage (fun n => 10 * n) (hd [] session_bytes) 36 (mkScratch [] []) 3 MatchingEngine.engine0 = Ok (s', e') /\
    latencies e' = [10] /\ wireLatencies e' = [u64 (-3)] /\ tscReads e' = 2.
Proof.
  assert (Hfit : 8388608 <= INVALID_INDEX) by (vm_compute; discriminate).
  assert (Henc : encodes (Exchange.Add 7 (order_of 101 chr_B 50 10000)) (hd [] session_bytes))
    by (pose proof session_encodes as H; inversion H; assumption).
  destruct (processMessage_ok Hfit (fun n => 10 * n) _ _ 36 (mkScratch [] []) 3 _ _ Henc engine0_rep (proj1 session_admissible))
    as (s' & e' & E & _).
  exists s', e'. split; [exact E|].
  exact (latency_samples (fun n => 10 * n) (hd [] session_bytes) 36 (mkScratch [] []) 3 MatchingEngine.engine0 e' s' E).
Defined.
