(* ===== verification/SlotEconomy.v ===== *)
(** The memory of the order pool over a whole session: which operations of
    include/order_pool.hpp, include/ladder_side.hpp, src/orderbook.cpp and
    src/matching_engine.cpp can grow the arena, and that it never gets larger
    than the largest number of orders that were live at once. *)
From Stdlib Require Import ZArith Lia.
From stdpp Require Import base numbers gmap list.
From S2P Require Import Prelude Tsc OrderPool LadderSide OrderBook FlatHashMap Itch Exchange MatchingEngine EngineTheorems.
Open Scope Z_scope.

(** ** Operations that keep the size *)

Definition same_size (p p' : OrderPool) : Prop := vlen (nodes p') = vlen (nodes p).

(** Take a successful computation apart. *)
Ltac unbind :=
  repeat match goal with
  | H : mbind _ _ = Ok _ |- _ => apply bind_inv in H as (? & ? & H)
  | H : Ok _ = Ok _ |- _ => injection H as H; simplify_eq
  | H : (let '(_, _) := ?x in _) = Ok _ |- _ => destruct x
  | H : (if ?b then _ else _) = Ok _ |- _ => destruct b
  | H : match ?x with None => _ | Some _ => _ end = Ok _ |- _ => destruct x
  end.

Lemma vset_size {A} (v v' : vec A) i x : vset v i x = Ok v' -> vlen v' = vlen v.
Proof. unfold vset. by destruct (vin v i); intros [= <-]. Qed.

Lemma modify_keeps f i p p' : OrderPool.modify f i p = Ok p' -> same_size p p' /\ freeHead p' = freeHead p.
Proof. unfold OrderPool.modify, same_size. intros H. unbind. split; [by eapply vset_size | done]. Qed.

Lemma modify_size f i p p' : OrderPool.modify f i p = Ok p' -> same_size p p'.
Proof. intros [H _]%modify_keeps. exact H. Qed.

Ltac sizes := unfold same_size in *; simpl in *; congruence.

Lemma free_size i p p' : OrderPool.free i p = Ok p' -> same_size p p'.
Proof. unfold OrderPool.free. intros (q & E & [= <-])%bind_inv. by apply modify_size in E. Qed.

Lemma linkAtTail_keeps p lvl i p' lvl' : LadderSide.linkAtTail p lvl i = Ok (p', lvl') -> same_size p p' /\ freeHead p' = freeHead p.
Proof.
  unfold LadderSide.linkAtTail. intros H. unbind;
    repeat match goal with H : OrderPool.modify _ _ _ = Ok _ |- _ => apply modify_keeps in H as [? ?] end; split; sizes.
Qed.

Lemma add_keeps p q i s p' s' : LadderSide.add p q i s = Ok (p', s') -> same_size p p' /\ freeHead p' = freeHead p.
Proof. unfold LadderSide.add. cbv zeta. intros H. unbind; by eapply linkAtTail_keeps. Qed.

Lemma unlink_size p lvl i p' lvl' : LadderSide.unlink p lvl i = Ok (p', lvl') -> same_size p p'.
Proof.
  unfold LadderSide.unlink. intros H. unbind;
    repeat match goal with H : OrderPool.modify _ _ _ = Ok _ |- _ => apply modify_size in H end; sizes.
Qed.

Lemma remove_size p q i s p' s' : LadderSide.remove p q i s = Ok (p', s') -> same_size p p'.
Proof. unfold LadderSide.remove. cbv zeta. intros H. unbind; first [by eapply unlink_size | done]. Qed.

Lemma removeByIndex_size i p bk p' bk' : OrderBook.removeByIndex i p bk = Ok (p', bk') -> same_size p p'.
Proof.
  unfold OrderBook.removeByIndex. intros H. unbind;
    repeat match goal with
    | H : LadderSide.remove _ _ _ _ = Ok _ |- _ => apply remove_size in H
    | H : OrderPool.free _ _ = Ok _ |- _ => apply free_size in H
    end; sizes.
Qed.

Lemma pop_head_size ref lvl node p s p' s' : OrderBook.pop_head ref lvl node p s = Ok (p', s') -> same_size p p'.
Proof.
  unfold OrderBook.pop_head. intros H. unbind;
    repeat match goal with
    | H : OrderPool.modify _ _ _ = Ok _ |- _ => apply modify_size in H
    | H : OrderPool.free _ _ = Ok _ |- _ => apply free_size in H
    end; sizes.
Qed.

Lemma fill_level_size fuel ref st st' :
  OrderBook.fill_level fuel ref st = Ok st' -> same_size (OrderBook.l_pool st) (OrderBook.l_pool st').
Proof.
  revert st; induction fuel as [|fuel IH]; intros st; [done|]. cbn [OrderBook.fill_level]. intros H. unbind; try done;
    repeat match goal with
    | H : OrderPool.modify _ _ _ = Ok _ |- _ => apply modify_size in H
    | H : OrderBook.pop_head _ _ _ _ _ = Ok _ |- _ => apply pop_head_size in H
    | H : OrderBook.fill_level _ _ _ = Ok _ |- _ => apply IH in H
    end; sizes.
Qed.

Lemma match_loop_size fuel refuse st st' :
  OrderBook.match_loop fuel refuse st = Ok st' -> same_size (OrderBook.l_pool st) (OrderBook.l_pool st').
Proof.
  revert st; induction fuel as [|fuel IH]; intros st; [done|]. cbn [OrderBook.match_loop]. intros H. unbind; try done;
    repeat match goal with
    | H : OrderBook.fill_level _ _ _ = Ok _ |- _ => apply fill_level_size in H
    | H : OrderBook.match_loop _ _ _ = Ok _ |- _ => apply IH in H
    end; sizes.
Qed.

(** ** Operations that may grow the arena *)

(** The arena grew only because no slot was free, and none is free after. *)
Definition thrifty (p p' : OrderPool) : Prop := same_size p p' \/ freeHead p' = INVALID_INDEX.

Lemma allocate_thrifty o p i p' : OrderPool.allocate o p = Ok (i, p') -> thrifty p p'.
Proof.
  unfold OrderPool.allocate. destruct (Z.eqb_spec (freeHead p) INVALID_INDEX) as [E|]; cbn [negb]; intros H; unbind;
    repeat match goal with H : OrderPool.modify _ _ _ = Ok _ |- _ => apply modify_keeps in H as [? ?] end;
    [right | left]; sizes.
Qed.

Lemma same_thrifty p q p' : same_size p q -> thrifty q p' -> thrifty p p'.
Proof. intros H [?|?]; [left; sizes | by right]. Qed.

Lemma thrifty_add p q p' i pr s s' : thrifty p q -> LadderSide.add q pr i s = Ok (p', s') -> thrifty p p'.
Proof. intros [?|?] [? E]%add_keeps; [left; sizes | right; congruence]. Qed.

Lemma handleOrder_thrifty o rem exe p bk out p' bk' :
  OrderBook.handleOrder o rem exe p bk = Ok (out, p', bk') -> thrifty p p'.
Proof.
  unfold OrderBook.handleOrder, OrderBook.handleBuyOrder, OrderBook.handleSellOrder. intros H. unbind; try done;
    match goal with H : OrderBook.match_loop _ _ _ = Ok _ |- _ => apply match_loop_size in H as Hs; simpl in Hs end;
    first [by left | eapply same_thrifty; [exact Hs|]; eapply thrifty_add; [by eapply allocate_thrifty | eassumption]].
Qed.

Section engine.
Context {I : Type} {HI : OrderIndex I} (tscNow : Z -> Z).
Implicit Types (e : MatchingEngine I).

Lemma bookRemove_size l i e e' : MatchingEngine.bookRemove l i e = Ok e' -> same_size (pool e) (pool e').
Proof. unfold MatchingEngine.bookRemove. intros H. unbind. by eapply removeByIndex_size. Qed.

Ltac removed := match goal with H : MatchingEngine.bookRemove _ _ _ = Ok _ |- _ => exact (bookRemove_size _ _ _ _ H) end.

Lemma bookHandle_thrifty l o scr e out e' : MatchingEngine.bookHandle l o scr e = Ok (out, e') -> thrifty (pool e) (pool e').
Proof. unfold MatchingEngine.bookHandle. intros H. unbind. by eapply handleOrder_thrifty. Qed.

Lemma onAdd_thrifty data tw e scr e' : MatchingEngine.onAdd tscNow data tw e = Ok (scr, e') -> thrifty (pool e) (pool e').
Proof.
  unfold MatchingEngine.onAdd, MatchingEngine.readTsc. cbv zeta. intros H. unbind;
    match goal with H : MatchingEngine.bookHandle _ _ _ _ = Ok _ |- _ => apply bookHandle_thrifty in H end; by destruct (negb _).
Qed.

Lemma onDelete_size data e e' : MatchingEngine.onDelete data e = Ok e' -> same_size (pool e) (pool e').
Proof. unfold MatchingEngine.onDelete. cbv zeta. intros H. unbind; [removed | done]. Qed.

Lemma onExecuted_size data e e' : MatchingEngine.onExecuted data e = Ok e' -> same_size (pool e) (pool e').
Proof.
  unfold MatchingEngine.onExecuted. cbv zeta. intros H. unbind; [removed | by eapply modify_size | done].
Qed.

Lemma onReplace_thrifty data e scr e' : MatchingEngine.onReplace data e = Ok (scr, e') -> thrifty (pool e) (pool e').
Proof.
  unfold MatchingEngine.onReplace. cbv zeta. intros H. unbind; [|by left].
  match goal with H : MatchingEngine.bookRemove _ _ _ = Ok _ |- _ => apply bookRemove_size in H end.
  match goal with H : MatchingEngine.bookHandle _ _ _ _ = Ok _ |- _ => apply bookHandle_thrifty in H end.
  by eapply same_thrifty.
Qed.

Lemma processMessage_thrifty data len scr tw e scr' e' :
  MatchingEngine.processMessage tscNow data len scr tw e = Ok (scr', e') -> thrifty (pool e) (pool e').
Proof.
  unfold MatchingEngine.processMessage. destruct data as [|t data]; [done|]. intros H. unbind;
    [by eapply onAdd_thrifty | left; by eapply onDelete_size | left; by eapply onExecuted_size | by eapply onReplace_thrifty | by left].
Qed.
End engine.

(** ** A session *)

(** The orders that are live, and the most that are at any time while the
    messages are processed. *)
Definition live (mk : Exchange.market) : Z := Z.of_nat (size (Exchange.dir mk)).
Fixpoint peak (ms : list Exchange.message) (mk : Exchange.market) : Z :=
  match ms with
  | [] => live mk
  | m :: ms => Z.max (live mk) (peak ms (Exchange.step m mk).1)
  end.

Lemma peak_live ms mk : live mk <= peak ms mk.
Proof. destruct ms; simpl; lia. Qed.

Section session.
Context {I : Type} {HI : OrderIndex I} {cap reserved : Z} {HS : OrderIndexSpec I cap reserved}.
Context (Hfit : cap <= INVALID_INDEX) (tscNow : Z -> Z).
Implicit Types (e : MatchingEngine I) (mk : Exchange.market).

(** After a thrifty step the arena is as large as before or holds live orders only. *)
Lemma thrifty_bound e e' mk' B :
  engine_rep e' mk' -> thrifty (pool e) (pool e') -> vlen (nodes (pool e)) <= B -> vlen (nodes (pool e')) <= Z.max B (live mk').
Proof using.
  intros He Ht HB. destruct (live_and_free e' mk' He) as (F & [Hfits Hfree _] & Hlen). unfold live. destruct Ht as [Hs|Hf]; [unfold same_size in Hs; lia|].
  destruct F as [|i F]; [simpl in *; lia|]. simpl in Hfree. destruct Hfree as (Hh & Hr & _). rewrite Hf in Hh. unfold pool_fits in Hfits. lia.
Qed.

Lemma run_loop_bound fuel ms msgs scratch e mk B :
  Forall2 encodes ms msgs -> Forall is_msg msgs -> engine_rep e mk -> Exchange.all_admissible cap reserved ms mk ->
  (length msgs < fuel)%nat -> vlen (nodes (pool e)) <= B ->
  exists s' e', MatchingEngine.run_loop tscNow fuel (frames msgs) scratch e = Ok (s', e') /\ vlen (nodes (pool e')) <= Z.max B (peak ms mk).
Proof using Hfit.
  intros Hms; revert fuel scratch e mk B. induction Hms as [|m d ms msgs Hm Hms IH]; intros fuel scratch e mk B Hlen He Hadm Hfuel HB;
    (destruct fuel as [|fuel]; [simpl in Hfuel; lia|]).
  - simpl. exists scratch, e. split; [done | lia].
  - apply Forall_cons in Hlen as [Hd Hlen]. destruct Hadm as [Ha Hadm]. simpl in Hfuel.
    unfold is_msg in Hd. rewrite frames_cons. set (rest := frames msgs) in *.
    unfold be16. cbn [app]. rewrite run_loop_step, bswap16_le16, (prefetchNext_ok _ e mk He), bind_ok by lia; cbv beta.
    destruct (processMessage_ok Hfit tscNow m (d ++ rest) (Z.of_nat (length d)) scratch 0 e mk (encodes_app _ _ _ Hm) He Ha)
      as (s1 & e1 & E1 & He1 & _).
    pose proof (thrifty_bound e e1 _ B He1 (processMessage_thrifty tscNow _ _ _ _ _ _ _ E1) HB) as HB1.
    rewrite E1, bind_ok; cbv beta iota. rewrite Nat2Z.id, drop_app_length.
    destruct (IH fuel s1 e1 _ _ Hlen He1 Hadm ltac:(lia) HB1) as (s' & e' & E & Hb).
    exists s', e'. split; [done|]. simpl. pose proof (peak_live ms (Exchange.step m mk).1). lia.
Qed.
End session.

Lemma convert_pool {I} p cpn (e e' : MatchingEngine I) : MatchingEngine.convert p cpn e = Ok e' -> pool e' = pool e.
Proof. unfold MatchingEngine.convert. intros H. by unbind. Qed.

(** ** Properties *)

(** C27: the memory of a session. After [run] over any admissible file every slot
    of the order pool is on the free list or holds exactly one live order, so
    none is lost, and the arena has never been larger than the largest number of
    orders live at once: a slot is reused before the arena grows. *)
Theorem slots_accounted tscNow p fuel clock cpn ms msgs :
  Forall2 encodes ms msgs -> Forall is_msg msgs ->
  Exchange.all_admissible 8388608 UINT64_MAX ms Exchange.empty ->
  Calibrate.calibrateTsc fuel clock (tscNow 0) (tscNow 1) = Ok cpn -> (tscIsCycles p = true -> converts cpn) ->
  exists e' F, MatchingEngine.run tscNow p fuel clock (Mapped (frames msgs)) MatchingEngine.engine0 = Ok e' /\
    pool_inv (pool e') F /\ vlen (nodes (pool e')) = live (Exchange.steps ms Exchange.empty) + Z.of_nat (length F) /\
    vlen (nodes (pool e')) <= peak ms Exchange.empty.
Proof.
  intros Henc Hlen Hadm Hcal Hcon. assert (Hfit : 8388608 <= INVALID_INDEX) by done.
  destruct (run_ok tscNow p fuel clock cpn ms msgs MatchingEngine.engine0 Exchange.empty) as (e' & E & He & _); try done; [apply engine0_rep|].
  destruct (live_and_free e' _ He) as (F & Hinv & Hl). exists e', F. split_and!; try done.
  destruct (run_loop_bound Hfit tscNow (S (length (frames msgs))) ms msgs (mkScratch [] []) (MatchingEngine.set_reads 2 MatchingEngine.engine0)
    Exchange.empty 0) as (s1 & e1 & E1 & Hb); try done.
  { eapply same_engine_rep; [| | |exact engine0_rep]; done. }
  { pose proof (frames_count msgs). lia. }
  change (MatchingEngine.run tscNow p fuel clock (Mapped (frames msgs)) MatchingEngine.engine0)
    with (c ← Calibrate.calibrateTsc fuel clock (tscNow 0) (tscNow 1);
          '(_, e) ← MatchingEngine.run_loop tscNow (S (length (frames msgs))) (frames msgs) (mkScratch [] []) (MatchingEngine.set_reads 2 MatchingEngine.engine0);
          MatchingEngine.convert p c e) in E.
  rewrite Hcal, bind_ok, E1, bind_ok in E; cbv beta iota in E. rewrite (convert_pool _ _ _ _ E).
  pose proof (peak_live ms Exchange.empty). unfold live in *. lia.
Qed.

(** The five messages of the session: one order is live at a time, and they share a slot. *)
Lemma slots_accounted_witness :
  exists e' F, MatchingEngine.run tsc3 X86 4 clock40 (Mapped (frames session_bytes)) MatchingEngine.engine0 = Ok e' /\
    pool_inv (pool e') F /\ vlen (nodes (pool e')) = 1 + Z.of_nat (length F) /\ vlen (nodes (pool e')) <= 1.
Proof.
  destruct (slots_accounted tsc3 X86 4 clock40 cpn3 session session_bytes) as (e' & F & E & Hinv & Hl & Hp).
  - exact session_encodes.
  - repeat constructor.
  - exact session_admissible.
  - exact tsc3_calibrates.
  - intros _. exact cpn3_converts.
  - exists e', F. split; [exact E|]. split; [exact Hinv|].
    assert (El : live (Exchange.steps session Exchange.empty) = 1) by (vm_compute; reflexivity).
    assert (Ep : peak session Exchange.empty = 1) by (vm_compute; reflexivity).
    rewrite El in Hl. rewrite Ep in Hp. split; [exact Hl | exact Hp].
Defined.
