(* ===== verification/MoldUDP64.v ===== *)
(** The MoldUDP64 framing of include/moldudp64.hpp: parsing the packet header,
    iterating the messages of a packet, building a packet; with the round trip
    between builder, parser and iterator. *)
From Stdlib Require Import ZArith Lia.
From stdpp Require Import base numbers gmap list.
From S2P Require Import Prelude OrderPool Itch.
Open Scope Z_scope.

Definition kMoldHeaderBytes : Z := 20.
Definition kMoldEndOfSession : Z := 65535.
Definition kMoldHeartbeat : Z := 0.

Record MoldHeader := mkMold { session : bytes; sequenceNumber : Z; messageCount : Z }.

(** [memcpy] of an integer to and from memory on a little-endian host. *)
Definition load64 (data : bytes) : result Z :=
  lo ← load32 data;
  hi ← load32 (drop 4 data);
  Ok (lo + 2 ^ 32 * hi).

Definition bytes16 (v : Z) : bytes := [v mod 2 ^ 8; v / 2 ^ 8 mod 2 ^ 8].
Definition bytes32 (v : Z) : bytes := bytes16 (v mod 2 ^ 16) ++ bytes16 (v / 2 ^ 16).
Definition bytes64 (v : Z) : bytes := bytes32 (v mod 2 ^ 32) ++ bytes32 (v / 2 ^ 32).

(** [memcpy(dst, src, n)] reading, and [memcpy(buf + off, src, |src|)] writing. *)
Definition read_bytes (n : nat) (data : bytes) : result bytes :=
  if (n <=? length data)%nat then Ok (take n data) else Err UB.
Definition write_bytes (off : nat) (src : bytes) (buf : bytes) : result bytes :=
  if (off + length src <=? length buf)%nat
  then Ok (take off buf ++ src ++ drop (off + length src) buf) else Err UB.

Definition parseMoldHeader (data : bytes) : result MoldHeader :=
  session ← read_bytes 10 data;
  seqBe ← load64 (drop 10 data);
  let hi := bswap32 (u32 (Z.land seqBe 4294967295)) in
  let lo := bswap32 (u32 (Z.shiftr seqBe 32)) in
  cntBe ← load16 (drop 18 data);
  Ok (mkMold session (Z.lor (u64 (Z.shiftl hi 32)) lo) (bswap16 cntBe)).

(** An iterator: the memory from [cursor] on, and the bytes up to [end]. *)
Record MoldMessageIterator := mkIter { cursor : bytes; left : Z }.

Module MoldMessageIterator.

Definition new (body : bytes) (bodyBytes : Z) : MoldMessageIterator := mkIter body bodyBytes.

(** [next]: [nullptr], or the message's length and the memory from the message
    on. A failed call may have moved the cursor past the length prefix. *)
Definition next (it : MoldMessageIterator) : result (option (Z * bytes) * MoldMessageIterator) :=
  if left it <? 2 then Ok (None, it) else
  lenBe ← load16 (cursor it);
  let len := bswap16 lenBe in
  cur ← advance 2 (cursor it);
  let it := mkIter cur (left it - 2) in
  if left it <? len then Ok (None, it) else
  let msg := cursor it in
  cur ← advance (Z.to_nat len) (cursor it);
  Ok (Some (len, msg), mkIter cur (left it - len)).

End MoldMessageIterator.

(** The message loop of [buildMoldPacket]; [None] is the return of 0. *)
Fixpoint build_loop (messages : list bytes) (lengths : list Z) (outCap : Z) (n i : nat) (off : Z)
    (out : bytes) : result (option Z * bytes) :=
  match n with
  | O => Ok (Some off, out)
  | S n =>
      match lengths !! i, messages !! i with
      | Some len, Some msg =>
          if outCap <? off + 2 + len then Ok (None, out) else
          out ← write_bytes (Z.to_nat off) (bytes16 (bswap16 len)) out;
          let off := off + 2 in
          payload ← read_bytes (Z.to_nat len) msg;
          out ← write_bytes (Z.to_nat off) payload out;
          build_loop messages lengths outCap n (S i) (off + len) out
      | _, _ => Err UB
      end
  end.

(** The bytes written and the buffer afterwards. *)
Definition buildMoldPacket (out : bytes) (outCap : Z) (session : bytes) (sequenceNumber : Z)
    (messages : list bytes) (messageLengths : list Z) (messageCount : Z) : result (Z * bytes) :=
  if outCap <? kMoldHeaderBytes then Ok (0, out) else
  s ← read_bytes 10 session;
  out ← write_bytes 0 s out;
  let hi := bswap32 (u32 (Z.shiftr sequenceNumber 32)) in
  let lo := bswap32 (u32 (Z.land sequenceNumber 4294967295)) in
  let seqBe := Z.lor (u64 (Z.shiftl lo 32)) hi in
  out ← write_bytes 10 (bytes64 seqBe) out;
  out ← write_bytes 18 (bytes16 (bswap16 messageCount)) out;
  '(r, out) ← build_loop messages messageLengths outCap (Z.to_nat messageCount) 0 kMoldHeaderBytes out;
  Ok (default 0 r, out).

(** ** The wire format *)

Definition packet (session : bytes) (seq count : Z) (msgs : list bytes) : bytes :=
  session ++ be64 seq ++ be16 count ++ frames msgs.

(** Byte-swapped little-endian stores are big-endian fields. *)
Lemma bytes16_swap w : is_u16 w -> bytes16 (bswap16 w) = be16 w.
Proof.
  unfold is_u16, bytes16, bswap16, be16; intros. change (2 ^ 8) with 256.
  f_equal; [|f_equal]; Z.to_euclidean_division_equations; lia.
Qed.

Lemma bswap16_range w : 0 <= bswap16 w < 2 ^ 16.
Proof. unfold bswap16. pose proof (byte_range w). pose proof (byte_range (w / 2 ^ 8)). lia. Qed.

Lemma bytes32_swap v : is_u32 v -> bytes32 (bswap32 v) = be32 v.
Proof.
  unfold is_u32; intros Hv. unfold bytes32, bswap32, be32.
  pose proof (bswap16_range (v mod 2 ^ 16)). pose proof (bswap16_range (v / 2 ^ 16)).
  rewrite Z.add_comm, Z.mod_add, (Z.mod_small (bswap16 _)) by lia.
  rewrite Z.div_add, (Z.div_small (bswap16 _)), Z.add_0_l by lia.
  rewrite !bytes16_swap; [done | |].
  - pose proof (Z.mod_pos_bound v (2 ^ 16)). unfold is_u16; lia.
  - split; [apply Z.div_pos; lia | apply Z.div_lt_upper_bound; lia].
Qed.

Lemma bswap32_range v : 0 <= bswap32 v < 2 ^ 32.
Proof. unfold bswap32. pose proof (bswap16_range (v mod 2 ^ 16)). pose proof (bswap16_range (v / 2 ^ 16)). lia. Qed.

Lemma bytes64_join hi lo : is_u32 hi -> is_u32 lo ->
  bytes64 (Z.lor (u64 (Z.shiftl lo 32)) hi) = bytes32 hi ++ bytes32 lo.
Proof.
  intros Hh Hl. rewrite join_halves by done. unfold bytes64, is_u32 in *.
  rewrite Z.add_comm, Z.mod_add, Z.mod_small, Z.div_add, Z.div_small by lia. done.
Qed.

Lemma land_low v : 0 <= v -> Z.land v 4294967295 = v mod 2 ^ 32.
Proof. intros. change 4294967295 with (Z.ones 32). by rewrite Z.land_ones. Qed.

(** The sequence number the builder stores. *)
Lemma seq_bytes seq : is_u64 seq ->
  bytes64 (Z.lor (u64 (Z.shiftl (bswap32 (u32 (Z.land seq 4294967295))) 32)) (bswap32 (u32 (Z.shiftr seq 32)))) = be64 seq.
Proof.
  intros Hs. destruct (halves seq Hs) as [Hhi Hlo]. unfold is_u64 in Hs.
  rewrite bytes64_join by apply bswap32_range. unfold be64.
  rewrite ref_high by done. rewrite land_low by lia. unfold u32. rewrite Z.mod_mod by lia.
  by rewrite !bytes32_swap.
Qed.

Lemma parse_packet session seq count rest :
  length session = 10%nat -> is_u64 seq -> is_u16 count ->
  parseMoldHeader (session ++ be64 seq ++ be16 count ++ rest) = Ok (mkMold session seq count).
Proof.
  intros Hs Hq Hc. destruct (halves seq Hq) as [Hhi Hlo]. unfold parseMoldHeader, read_bytes.
  destruct (Nat.leb_spec 10 (length (session ++ be64 seq ++ be16 count ++ rest))); [|rewrite !length_app in *; lia].
  rewrite bind_ok; cbv beta. rewrite (take_app_length' session _ 10), (drop_app_length' session _ 10) by done.
  replace (drop 18 (session ++ be64 seq ++ be16 count ++ rest)) with (be16 count ++ rest)
    by (replace 18%nat with (length session + 8)%nat by lia; rewrite <-drop_drop, drop_app_length; done).
  unfold load64, be64. rewrite <-!app_assoc.
  replace (drop 4 (be32 (seq / 2 ^ 32) ++ be32 (seq mod 2 ^ 32) ++ be16 count ++ rest))
    with (be32 (seq mod 2 ^ 32) ++ be16 count ++ rest) by reflexivity.
  destruct (load32_be32 _ (be32 (seq mod 2 ^ 32) ++ be16 count ++ rest) Hhi) as (w1 & -> & Hw1 & E1).
  destruct (load32_be32 _ (be16 count ++ rest) Hlo) as (w2 & -> & Hw2 & E2).
  destruct (load16_be16 count rest Hc) as (c & -> & E3). rewrite !bind_ok; cbv beta zeta.
  unfold is_u32 in Hw1, Hw2. rewrite land_low, Z.shiftr_div_pow2 by lia.
  rewrite (Z.mul_comm (2 ^ 32)), Z.mod_add, Z.div_add, (Z.mod_small w1), (Z.div_small w1), Z.add_0_l, !u32_small by lia.
  rewrite E1, E2, E3, join_halves by done. do 2 f_equal.
  rewrite (Z.div_mod seq (2 ^ 32)) at 3 by lia. lia.
Qed.

(** ** Iterating *)

Lemma next_message m more extra :
  is_msg m -> 0 <= extra ->
  MoldMessageIterator.next (mkIter (be16 (Z.of_nat (length m)) ++ m ++ more) (2 + Z.of_nat (length m) + extra)) =
  Ok (Some (Z.of_nat (length m), m ++ more), mkIter more extra).
Proof.
  unfold is_msg; intros Hm Hx. unfold MoldMessageIterator.next; cbn [cursor left].
  destruct (Z.ltb_spec (2 + Z.of_nat (length m) + extra) 2); [lia|].
  destruct (load16_be16 (Z.of_nat (length m)) (m ++ more)) as (w & Ew & Hw); [unfold is_u16; lia|].
  rewrite Ew, bind_ok; cbv beta. rewrite Hw, advance_app, bind_ok by done. cbv beta zeta. cbn [left cursor].
  destruct (Z.ltb_spec (2 + Z.of_nat (length m) + extra - 2) (Z.of_nat (length m))); [lia|].
  rewrite Nat2Z.id, advance_app, bind_ok by done; cbv beta.
  do 3 f_equal. lia.
Qed.

Lemma next_end more : MoldMessageIterator.next (mkIter more 0) = Ok (None, mkIter more 0).
Proof. done. Qed.

(** The loop over a packet: the messages up to the first null. *)
Fixpoint messages_of (fuel : nat) (it : MoldMessageIterator) : result (list bytes) :=
  match fuel with
  | O => Err Diverge
  | S fuel =>
      '(m, it) ← MoldMessageIterator.next it;
      match m with
      | None => Ok []
      | Some (len, msg) => ms ← messages_of fuel it; Ok (take (Z.to_nat len) msg :: ms)
      end
  end.

Lemma messages_of_frames msgs more fuel :
  Forall is_msg msgs -> (length msgs < fuel)%nat ->
  messages_of fuel (MoldMessageIterator.new (frames msgs ++ more) (Z.of_nat (length (frames msgs)))) = Ok msgs.
Proof.
  unfold MoldMessageIterator.new. revert fuel; induction msgs as [|m msgs IH]; intros fuel Hm Hf;
    (destruct fuel as [|fuel]; [simpl in Hf; lia|]); [done|].
  apply Forall_cons in Hm as [Hm Hms]. simpl in Hf. rewrite frames_length, frames_cons, <-!app_assoc.
  cbn [messages_of].
  replace (Z.of_nat (2 + length m + length (frames msgs)))
    with (2 + Z.of_nat (length m) + Z.of_nat (length (frames msgs))) by lia.
  rewrite next_message, bind_ok by (done || lia); cbv beta iota.
  rewrite IH, bind_ok by (done || lia); cbv beta. by rewrite Nat2Z.id, take_app_length.
Qed.

(** ** Building *)

Lemma read_bytes_app n m more : n = length m -> read_bytes n (m ++ more) = Ok m.
Proof.
  intros ->. unfold read_bytes. rewrite length_app, take_app_length.
  by destruct (Nat.leb_spec (length m) (length m + length more)); [|lia].
Qed.

(** Writing behind what was written so far. *)
Lemma write_bytes_app off pre src buf :
  off = length pre -> (length src <= length buf)%nat ->
  write_bytes off src (pre ++ buf) = Ok ((pre ++ src) ++ drop (length src) buf).
Proof.
  intros -> Hl. unfold write_bytes. rewrite length_app, take_app_length.
  destruct (Nat.leb_spec (length pre + length src) (length pre + length buf)); [|lia].
  by rewrite <-drop_drop, drop_app_length, <-app_assoc.
Qed.

(** [ptr] points at the message [m]. *)
Definition points_at (ptr m : bytes) : Prop := exists more, ptr = m ++ more.

Section build.
Context (ptrs msgs : list bytes) (outCap : Z).
Hypothesis Hptrs : Forall2 points_at ptrs msgs.
Hypothesis Hmsgs : Forall is_msg msgs.
Let lens := (fun m : bytes => Z.of_nat (length m)) <$> msgs.

Lemma build_lookup i m :
  msgs !! i = Some m -> is_msg m /\ lens !! i = Some (Z.of_nat (length m)) /\ exists more, ptrs !! i = Some (m ++ more).
Proof using Hptrs Hmsgs.
  intros Hi. split_and!.
  - exact (Forall_lookup_1 _ _ _ _ Hmsgs Hi).
  - unfold lens. by rewrite list_lookup_fmap, Hi.
  - destruct (Forall2_lookup_r _ _ _ _ _ Hptrs Hi) as (p & Hp & more & ->). eauto.
Qed.

(** While everything fits, the loop appends the frames. *)
Lemma build_loop_fits n i off pre buf :
  n = (length msgs - i)%nat -> (i <= length msgs)%nat -> off = Z.of_nat (length pre) ->
  off + Z.of_nat (length (frames (drop i msgs))) <= outCap ->
  (length (frames (drop i msgs)) <= length buf)%nat ->
  build_loop ptrs lens outCap n i off (pre ++ buf) =
  Ok (Some (off + Z.of_nat (length (frames (drop i msgs)))),
      pre ++ frames (drop i msgs) ++ drop (length (frames (drop i msgs))) buf).
Proof using Hptrs Hmsgs.
  revert i off pre buf; induction n as [|n IH]; intros i off pre buf Hn Hi Hoff Hcap Hbuf.
  { rewrite drop_ge by lia. simpl. by rewrite Z.add_0_r. }
  destruct (lookup_lt_is_Some_2 msgs i) as [m Hm]; [lia|].
  destruct (build_lookup i m Hm) as (Hmsg & Hlen & more & Hptr).
  rewrite (drop_S msgs m i Hm) in *. rewrite frames_length in Hcap, Hbuf |- *. rewrite frames_cons.
  set (rest := frames (drop (S i) msgs)) in *. cbn [build_loop]. rewrite Hlen, Hptr.
  destruct (Z.ltb_spec outCap (off + 2 + Z.of_nat (length m))); [lia|].
  unfold is_msg in Hmsg. rewrite bytes16_swap by (unfold is_u16; lia).
  rewrite (write_bytes_app _ pre) by (simpl; lia). rewrite bind_ok; cbv beta zeta.
  rewrite read_bytes_app, bind_ok by lia; cbv beta.
  rewrite (write_bytes_app _ (pre ++ be16 _)); [|rewrite length_app; simpl; lia | rewrite length_drop; simpl; lia].
  rewrite bind_ok; cbv beta.
  rewrite (IH (S i)); [|lia|lia|rewrite !length_app; simpl; lia|fold rest; lia|fold rest; rewrite !length_drop; simpl; lia].
  fold rest. rewrite !drop_drop, <-!app_assoc.
  replace (off + 2 + Z.of_nat (length m) + Z.of_nat (length rest)) with (off + Z.of_nat (2 + length m + length rest)) by lia.
  replace (length (be16 (Z.of_nat (length m))) + length m + length rest)%nat with (2 + length m + length rest)%nat by done.
  done.
Qed.
End build.

Lemma buildMoldPacket_fits ptrs msgs out outCap session seq :
  Forall2 points_at ptrs msgs -> Forall is_msg msgs -> length session = 10%nat -> is_u64 seq ->
  Z.of_nat (length msgs) < 65536 -> outCap <= Z.of_nat (length out) ->
  kMoldHeaderBytes + Z.of_nat (length (frames msgs)) <= outCap ->
  let n := kMoldHeaderBytes + Z.of_nat (length (frames msgs)) in
  buildMoldPacket out outCap session seq ptrs ((fun m : bytes => Z.of_nat (length m)) <$> msgs) (Z.of_nat (length msgs)) =
  Ok (n, packet session seq (Z.of_nat (length msgs)) msgs ++ drop (Z.to_nat n) out).
Proof.
  intros Hp Hm Hs Hq Hcnt Hout Hfit n. unfold kMoldHeaderBytes in *. unfold buildMoldPacket, kMoldHeaderBytes.
  destruct (Z.ltb_spec outCap 20); [lia|].
  replace (read_bytes 10 session) with (Ok session) by (symmetry; rewrite <-(app_nil_r session) at 1; by apply read_bytes_app).
  rewrite bind_ok; cbv beta zeta. change out with ([] ++ out) at 1.
  rewrite (write_bytes_app 0 [] session out) by (done || lia).
  rewrite bind_ok, seq_bytes by done; cbv beta. cbn [app].
  rewrite (write_bytes_app 10 session) by (done || (rewrite length_drop; simpl; lia)). rewrite bind_ok; cbv beta.
  rewrite bytes16_swap by (unfold is_u16; lia).
  rewrite (write_bytes_app 18 (session ++ be64 seq)); [|rewrite length_app; simpl; lia|rewrite !length_drop; simpl; lia].
  rewrite bind_ok; cbv beta. rewrite Nat2Z.id.
  rewrite (build_loop_fits ptrs msgs outCap Hp Hm); 
    [|lia|lia|rewrite !length_app; simpl; lia|rewrite drop_0; lia|rewrite drop_0, !length_drop, Hs; simpl length; lia].
  rewrite bind_ok; cbv beta iota. rewrite drop_0. cbn [default]. unfold packet. rewrite !drop_drop, <-!app_assoc.
  replace (Z.to_nat n) with (length session + length (be64 seq) + length (be16 (Z.of_nat (length msgs))) + length (frames msgs))%nat
    by (simpl; lia).
  by rewrite <-!Nat.add_assoc.
Qed.

(** ** Properties *)

(** C32: a packet that the builder reports as built parses back: the header has
    the session, sequence number and count it was given, and the iterator
    returns exactly the messages, in order, and then null. *)
Theorem build_parse_roundtrip ptrs msgs out outCap session seq :
  Forall2 points_at ptrs msgs -> Forall is_msg msgs -> length session = 10%nat -> is_u64 seq ->
  Z.of_nat (length msgs) < 65536 -> outCap <= Z.of_nat (length out) ->
  kMoldHeaderBytes + Z.of_nat (length (frames msgs)) <= outCap ->
  exists n buf,
    buildMoldPacket out outCap session seq ptrs ((fun m : bytes => Z.of_nat (length m)) <$> msgs) (Z.of_nat (length msgs)) = Ok (n, buf) /\
    n = kMoldHeaderBytes + Z.of_nat (length (frames msgs)) /\ length buf = length out /\
    parseMoldHeader buf = Ok (mkMold session seq (Z.of_nat (length msgs))) /\
    messages_of (S (length msgs)) (MoldMessageIterator.new (drop (Z.to_nat kMoldHeaderBytes) buf) (n - kMoldHeaderBytes)) = Ok msgs.
Proof.
  intros Hp Hm Hs Hq Hc Ho Hf. rewrite (buildMoldPacket_fits ptrs msgs out outCap session seq) by done.
  do 2 eexists; split; [done|]. split; [done|]. unfold packet. rewrite <-!app_assoc. split_and!.
  - rewrite !length_app, length_drop, Hs. unfold kMoldHeaderBytes in *. simpl length. lia.
  - apply parse_packet; [done | done | unfold is_u16; lia].
  - replace (drop (Z.to_nat kMoldHeaderBytes) (session ++ be64 seq ++ be16 (Z.of_nat (length msgs)) ++ frames msgs ++ drop _ out))
      with (frames msgs ++ drop (Z.to_nat (kMoldHeaderBytes + Z.of_nat (length (frames msgs)))) out).
    + rewrite Z.add_comm, Z.add_simpl_r. apply messages_of_frames; [done | lia].
    + change (Z.to_nat kMoldHeaderBytes) with (10 + 10)%nat. rewrite <-drop_drop, (drop_app_length' session _ 10) by done. done.
Qed.

Lemma build_parse_roundtrip_witness :
  exists n buf,
    buildMoldPacket (replicate 64 0) 64 [79;82;68;66;75;83;69;83;49;0] (2 ^ 40) [[65; 1; 2] ++ [9; 9]; [68] ++ []]
      ((fun m : bytes => Z.of_nat (length m)) <$> [[65; 1; 2]; [68]]) (Z.of_nat (length [[65; 1; 2]; [68]])) = Ok (n, buf) /\
    n = kMoldHeaderBytes + Z.of_nat (length (frames [[65; 1; 2]; [68]])) /\ length buf = length (replicate 64 0) /\
    parseMoldHeader buf = Ok (mkMold [79;82;68;66;75;83;69;83;49;0] (2 ^ 40) 2) /\
    messages_of (S (length [[65; 1; 2]; [68]]))
      (MoldMessageIterator.new (drop (Z.to_nat kMoldHeaderBytes) buf) (n - kMoldHeaderBytes)) = Ok [[65; 1; 2]; [68]].
Proof.
  apply (build_parse_roundtrip [[65; 1; 2] ++ [9; 9]; [68] ++ []] [[65; 1; 2]; [68]] (replicate 64 0) 64
    [79;82;68;66;75;83;69;83;49;0] (2 ^ 40)).
  - constructor; [by exists [9; 9]|]. constructor; [by exists []|]. constructor.
  - repeat constructor.
  - reflexivity.
  - split; [discriminate | reflexivity].
  - reflexivity.
  - discriminate.
  - discriminate.
Defined.

Definition is_byte (b : Z) : Prop := 0 <= b < 256.

Lemma be16_of_bytes b0 b1 : is_byte b0 -> is_byte b1 -> be16 (bswap16 (le16 b0 b1)) = [b0; b1].
Proof.
  unfold is_byte, be16, bswap16, le16; intros. change (2 ^ 8) with 256.
  f_equal; [|f_equal]; Z.to_euclidean_division_equations; lia.
Qed.

(** One step on arbitrary bytes: null, or a message that lies in the body. *)
Lemma next_safe mem n :
  Forall is_byte mem -> 0 <= n <= Z.of_nat (length mem) ->
  exists r it', MoldMessageIterator.next (mkIter mem n) = Ok (r, it') /\
    match r with
    | None => True
    | Some (len, msg) => exists m, 0 <= len /\ is_msg m /\ len = Z.of_nat (length m) /\ msg = m ++ cursor it' /\
        mem = frame m ++ cursor it' /\ left it' = n - 2 - len /\ 0 <= left it'
    end.
Proof.
  intros Hb Hn. unfold MoldMessageIterator.next; cbn [left cursor].
  destruct (Z.ltb_spec n 2); [by eexists None, _|].
  destruct mem as [|b0 [|b1 mem]]; [simpl in *; lia..|]. simpl length in Hn.
  apply Forall_cons in Hb as [H0 [H1 Hb]%Forall_cons].
  cbn [load16]. rewrite bind_ok; cbv beta. set (len := bswap16 (le16 b0 b1)).
  replace (advance 2 (b0 :: b1 :: mem)) with (Ok mem) by done. rewrite bind_ok; cbv beta zeta. cbn [left cursor].
  pose proof (bswap16_range (le16 b0 b1)) as Hl. fold len in Hl.
  destruct (Z.ltb_spec (n - 2) len); [by eexists None, _|].
  unfold advance. destruct (Nat.leb_spec (Z.to_nat len) (length mem)); [|lia]. rewrite bind_ok; cbv beta.
  eexists (Some _), _; split; [done|]. exists (take (Z.to_nat len) mem). cbn [cursor left].
  assert (Hlen : Z.of_nat (length (take (Z.to_nat len) mem)) = len) by (rewrite length_take; lia).
  split_and!; [lia | unfold is_msg; lia | done | by rewrite take_drop | | done | lia].
  unfold frame. rewrite Hlen. unfold len at 1. rewrite be16_of_bytes by done. cbn [app]. by rewrite take_drop.
Qed.

(** C33: the iterator is safe on whatever the network delivers: over any body
    it ends without reading outside the buffer, the messages it returned all
    lie inside the body, one behind the other from its start, and what it left
    is a truncated rest. *)
Theorem iterator_safe mem n :
  Forall is_byte mem -> 0 <= n <= Z.of_nat (length mem) ->
  exists msgs tail, messages_of (S (Z.to_nat n)) (MoldMessageIterator.new mem n) = Ok msgs /\
    Forall is_msg msgs /\ take (Z.to_nat n) mem = frames msgs ++ tail.
Proof.
  unfold MoldMessageIterator.new. intros Hb Hn.
  assert (Hfuel : n < Z.of_nat (S (Z.to_nat n))) by lia.
  revert Hfuel. generalize (S (Z.to_nat n)) as fuel. intros fuel; revert mem n Hb Hn.
  induction fuel as [|fuel IH]; intros mem n Hb Hn Hfuel; [lia|].
  destruct (next_safe mem n Hb Hn) as (r & it' & E & Hr). cbn [messages_of]. rewrite E, bind_ok; cbv beta iota.
  destruct r as [[len msg]|]; [|by exists [], (take (Z.to_nat n) mem)].
  destruct Hr as (m & Hlen0 & Hm & -> & -> & -> & Hleft & Hpos). destruct it' as [cur lf]; simpl in Hleft, Hpos; subst lf.
  simpl cursor in *. rewrite length_app in Hn. unfold frame in Hn. rewrite length_app in Hn. simpl length in Hn.
  destruct (IH cur (n - 2 - Z.of_nat (length m))) as (msgs & tail & E' & Hms & Ht);
    [by apply Forall_app in Hb as [_ ?] | lia | lia |].
  rewrite E', bind_ok; cbv beta. exists (m :: msgs), tail. rewrite Nat2Z.id, take_app_length.
  split_and!; [done | by constructor |]. rewrite frames_cons. unfold frame. rewrite <-!app_assoc, <-Ht.
  rewrite (take_app_ge (be16 _)) by (simpl; lia). f_equal. simpl length.
  rewrite (take_app_ge m) by lia. do 2 f_equal. lia.
Qed.

(** A body whose second message is cut off. *)
Lemma iterator_safe_witness :
  exists msgs tail, messages_of (S (Z.to_nat 6)) (MoldMessageIterator.new [0; 1; 68; 0; 9; 65; 7; 7] 6) = Ok msgs /\
    Forall is_msg msgs /\ take (Z.to_nat 6) [0; 1; 68; 0; 9; 65; 7; 7] = frames msgs ++ tail.
Proof.
  apply (iterator_safe [0; 1; 68; 0; 9; 65; 7; 7] 6).
  - repeat constructor; discriminate.
  - split; discriminate.
Defined.
