(* ===== verification/SpscRing.v ===== *)
(** The single-producer single-consumer ring of include/spsc_ring.hpp: its
    operations as whole calls, and as the individual loads and stores of two
    threads that interleave; with the proofs that the calls implement a bounded
    queue and that every interleaving is first-in first-out.

    Each load and store of [head], [tail] and of a slot is one step. The
    interleaving of such steps is what the acquire and release pairs of the
    source guarantee for this pattern: a slot is written before the release
    store that publishes it and read after the acquire load that saw it. *)
From Stdlib Require Import ZArith Lia.
From stdpp Require Import base numbers gmap list relations.
From S2P Require Import Prelude FlatHashMap.
Open Scope Z_scope.

Record SpscRing (T : Type) := mkRing { head : Z; tail : Z; ring_mask : Z; buffer : vec T }.
Arguments mkRing {T} _ _ _ _.
Arguments head {T} _.
Arguments tail {T} _.
Arguments ring_mask {T} _.
Arguments buffer {T} _.

Module SpscRing.
Section ops.
Context {T : Type}.
Implicit Types (r : SpscRing T).

(** [v0] is the value-initialised element. *)
Definition new (v0 : T) (capacity : Z) : result (SpscRing T) :=
  if negb (Z.land capacity (u64 (capacity - 1)) =? 0) || (capacity =? 0) then Err Aborted
  else Ok (mkRing 0 0 (u64 (capacity - 1)) (vassign capacity v0)).

Definition succ r (i : Z) : Z := Z.land (u64 (i + 1)) (ring_mask r).

Definition set_head (h : Z) r : SpscRing T := mkRing h (tail r) (ring_mask r) (buffer r).
Definition set_tail (t : Z) r : SpscRing T := mkRing (head r) t (ring_mask r) (buffer r).
Definition set_slot (i : Z) (v : T) r : result (SpscRing T) :=
  b ← vset (buffer r) i v;
  Ok (mkRing (head r) (tail r) (ring_mask r) b).

Definition push (value : T) r : result (bool * SpscRing T) :=
  let t := tail r in
  let next := succ r t in
  if next =? head r then Ok (false, r) else
  r ← set_slot t value r;
  Ok (true, set_tail next r).

Definition pop r : result (option T * SpscRing T) :=
  let h := head r in
  if h =? tail r then Ok (None, r) else
  out ← vget (buffer r) h;
  Ok (Some out, set_head (succ r h) r).

(** [spinPop], [n] attempts. *)
Fixpoint spinPop (n : nat) r : result (T * SpscRing T) :=
  match n with
  | O => Err Diverge
  | S n =>
      '(out, r) ← pop r;
      match out with Some v => Ok (v, r) | None => spinPop n r end
  end.
End ops.

(** ** The two threads *)

(** Where the producer is inside [push value]. *)
Inductive producer (T : Type) :=
| PIdle
| PLoaded (t next : Z) (value : T)     (* tail was loaded *)
| PRoom (t next : Z) (value : T)       (* head was loaded: not full *)
| PWritten (next : Z) (value : T).     (* buffer[t] was written *)
Arguments PIdle {T}.
Arguments PLoaded {T} _ _ _.
Arguments PRoom {T} _ _ _.
Arguments PWritten {T} _ _.

(** Where the consumer is inside [pop]. *)
Inductive consumer (T : Type) :=
| CIdle
| CLoaded (h : Z)                      (* head was loaded *)
| CItem (h : Z)                        (* tail was loaded: not empty *)
| CRead (h : Z) (out : T).             (* buffer[h] was read *)
Arguments CIdle {T}.
Arguments CLoaded {T} _.
Arguments CItem {T} _.
Arguments CRead {T} _ _.

(** The ring, the two threads, and the values whose push and pop returned
    true so far. *)
Record system (T : Type) := mkSystem {
  ring : SpscRing T; prod : producer T; cons : consumer T; pushed : list T; popped : list T
}.
Arguments mkSystem {T} _ _ _ _ _.
Arguments ring {T} _.
Arguments prod {T} _.
Arguments cons {T} _.
Arguments pushed {T} _.
Arguments popped {T} _.

(** What a call came to, at the access that decides it. *)
Inductive op (T : Type) := Pushed (v : T) | Full (v : T) | Popped (v : T) | Empty.
Arguments Pushed {T} _.
Arguments Full {T} _.
Arguments Popped {T} _.
Arguments Empty {T}.

(** One access of one thread, with the call it decides if any. *)
Inductive access {T} : option (op T) -> system T -> system T -> Prop :=
| push_load_tail r c us os v :
    access None (mkSystem r PIdle c us os) (mkSystem r (PLoaded (tail r) (succ r (tail r)) v) c us os)
| push_full r c us os t next v :
    next = head r -> access (Some (Full v)) (mkSystem r (PLoaded t next v) c us os) (mkSystem r PIdle c us os)
| push_room r c us os t next v :
    next <> head r -> access None (mkSystem r (PLoaded t next v) c us os) (mkSystem r (PRoom t next v) c us os)
| push_write r r' c us os t next v :
    set_slot t v r = Ok r' -> access None (mkSystem r (PRoom t next v) c us os) (mkSystem r' (PWritten next v) c us os)
| push_store_tail r c us os next v :
    access (Some (Pushed v)) (mkSystem r (PWritten next v) c us os) (mkSystem (set_tail next r) PIdle c (us ++ [v]) os)
| pop_load_head r p us os :
    access None (mkSystem r p CIdle us os) (mkSystem r p (CLoaded (head r)) us os)
| pop_empty r p us os h :
    h = tail r -> access (Some Empty) (mkSystem r p (CLoaded h) us os) (mkSystem r p CIdle us os)
| pop_item r p us os h :
    h <> tail r -> access None (mkSystem r p (CLoaded h) us os) (mkSystem r p (CItem h) us os)
| pop_read r p us os h v :
    vget (buffer r) h = Ok v -> access None (mkSystem r p (CItem h) us os) (mkSystem r p (CRead h v) us os)
| pop_store_head r p us os h v :
    access (Some (Popped v)) (mkSystem r p (CRead h v) us os) (mkSystem (set_head (succ r h) r) p CIdle us (os ++ [v])).

Definition step {T} (s s' : system T) : Prop := exists o, access o s s'.

(** A run, with the calls it decided in order. *)
Inductive history {T} : system T -> list (op T) -> system T -> Prop :=
| history_nil s : history s [] s
| history_step s ops s1 o s2 : history s ops s1 -> access o s1 s2 -> history s (ops ++ option_list o) s2.

Definition initial {T} (r : SpscRing T) : system T := mkSystem r PIdle CIdle [] [].
End SpscRing.
Import SpscRing.

(** ** What the ring holds *)

Section ring.
Context {T : Type} (cap : Z).
Hypothesis Hcap : is_capacity cap.
Implicit Types (r : SpscRing T) (us os q : list T).

(** After [nt] pushes and [nh] pops, [us] being what was pushed: the cursors
    are those counts modulo the capacity and the slots between them hold the
    values in flight. *)
Record counts r us (nh : Z) : Prop := {
  ct_mask : ring_mask r = cap - 1;
  ct_len : vlen (buffer r) = cap;
  ct_head : head r = nh mod cap;
  ct_tail : tail r = Z.of_nat (length us) mod cap;
  ct_order : 0 <= nh <= Z.of_nat (length us);
  ct_size : Z.of_nat (length us) - nh < cap;
  ct_slots : forall k v, nh <= Z.of_nat k -> us !! k = Some v -> vnth (buffer r) (Z.of_nat k mod cap) = v
}.

Lemma cap_pos : 0 < cap.
Proof using Hcap. by apply is_capacity_range. Qed.

Lemma succ_mod r us nh n : counts r us nh -> succ r (n mod cap) = (n + 1) mod cap.
Proof using Hcap.
  intros H. unfold succ. rewrite (ct_mask _ _ _ H), land_mask by done.
  rewrite Z.add_mod_idemp_l by (pose proof cap_pos; lia). done.
Qed.

(** Two counts less than a lap apart share a slot only if they are equal. *)
Lemma mod_apart a b : 0 <= b - a < cap -> a mod cap = b mod cap -> a = b.
Proof using Hcap.
  intros Hd He. pose proof cap_pos. assert (E : (b - a) mod cap = 0).
  { rewrite Zminus_mod, He, Z.sub_diag. apply Z.mod_0_l; lia. }
  rewrite Z.mod_small in E by lia. lia.
Qed.

Lemma full_iff r us nh : counts r us nh ->
  succ r (tail r) = head r <-> Z.of_nat (length us) - nh = cap - 1.
Proof using Hcap.
  intros H. pose proof cap_pos. rewrite (ct_tail _ _ _ H), (succ_mod r us nh _ H), (ct_head _ _ _ H).
  pose proof (ct_order _ _ _ H). pose proof (ct_size _ _ _ H). split.
  - intros E. destruct (Z.eq_dec (Z.of_nat (length us) - nh) (cap - 1)) as [|Hne]; [done|].
    symmetry in E. apply mod_apart in E; lia.
  - intros E. replace (Z.of_nat (length us) + 1) with (nh + 1 * cap) by lia. apply Z.mod_add; lia.
Qed.

Lemma empty_iff r us nh : counts r us nh -> head r = tail r <-> nh = Z.of_nat (length us).
Proof using Hcap.
  intros H. rewrite (ct_head _ _ _ H), (ct_tail _ _ _ H). pose proof (ct_order _ _ _ H). pose proof (ct_size _ _ _ H).
  split; [apply mod_apart; lia | by intros ->].
Qed.

Lemma slot_ok r us nh n : counts r us nh -> 0 <= n mod cap < vlen (buffer r).
Proof using Hcap. intros H. rewrite (ct_len _ _ _ H). apply Z.mod_pos_bound, cap_pos. Qed.

(** Writing the slot at the tail disturbs no value in flight. *)
Lemma counts_write r us nh v :
  counts r us nh -> Z.of_nat (length us) - nh < cap - 1 ->
  exists r', set_slot (tail r) v r = Ok r' /\ counts r' us nh /\
    head r' = head r /\ tail r' = tail r /\ vnth (buffer r') (Z.of_nat (length us) mod cap) = v.
Proof using Hcap.
  intros H Hroom. pose proof (ct_tail _ _ _ H) as Ht. unfold set_slot. rewrite Ht.
  rewrite vset_ok by (by eapply slot_ok). rewrite bind_ok. eexists; split; [done|].
  destruct H as [H1 H2 H3 H4 H5 H6 H7]. split_and!; simpl; try done; [|by rewrite vnth_vupd_eq].
  split; simpl; try done. intros k x Hk Hx. rewrite vnth_vupd_ne; [by apply H7|].
  intros E. symmetry in E. apply lookup_lt_Some in Hx. apply mod_apart in E; lia.
Qed.

Lemma counts_set_tail r us nh v :
  counts r us nh -> Z.of_nat (length us) - nh < cap - 1 -> vnth (buffer r) (Z.of_nat (length us) mod cap) = v ->
  counts (set_tail (succ r (tail r)) r) (us ++ [v]) nh.
Proof using Hcap.
  intros H Hroom Hv. pose proof (succ_mod r us nh (Z.of_nat (length us)) H) as Hs. rewrite <-(ct_tail _ _ _ H) in Hs.
  assert (El : Z.of_nat (length (us ++ [v])) = Z.of_nat (length us) + 1) by (rewrite length_app; simpl; lia).
  destruct H as [H1 H2 H3 H4 H5 H6 H7]. split; rewrite ?El; [done | done | done | exact Hs | lia | lia |].
  intros k x Hk [Hx|[Hge Hx]]%lookup_app_Some; [by apply H7|].
  destruct (k - length us)%nat as [|j] eqn:Ek; [|done]. injection Hx as <-.
  replace k with (length us) by lia. done.
Qed.

Lemma counts_set_head r us nh :
  counts r us nh -> nh < Z.of_nat (length us) -> counts (set_head (succ r (head r)) r) us (nh + 1).
Proof using Hcap.
  intros H Hne. pose proof (succ_mod r us nh nh H) as Hs. rewrite <-(ct_head _ _ _ H) in Hs.
  destruct H as [H1 H2 H3 H4 H5 H6 H7]. split; simpl; try done; try lia. intros k x Hk; apply H7; lia.
Qed.

Lemma counts_read r us nh :
  counts r us nh -> nh < Z.of_nat (length us) ->
  exists v, us !! Z.to_nat nh = Some v /\ vget (buffer r) (head r) = Ok v.
Proof using Hcap.
  intros H Hne. pose proof (ct_order _ _ _ H). destruct (lookup_lt_is_Some_2 us (Z.to_nat nh)) as [v Hv]; [lia|].
  exists v; split; [done|]. rewrite (ct_head _ _ _ H), vget_ok by (by eapply slot_ok).
  f_equal. rewrite <-(Z2Nat.id nh) by lia. by apply (ct_slots _ _ _ H); [lia|].
Qed.

(** ** Whole calls: a bounded queue *)

(** [r] holds the queue [q]. *)
Definition ring_rep r q : Prop := exists us nh, counts r us nh /\ q = drop (Z.to_nat nh) us.

Lemma ring_rep_length r q : ring_rep r q -> Z.of_nat (length q) < cap.
Proof using. intros (us & nh & H & ->). rewrite length_drop. pose proof (ct_order _ _ _ H). pose proof (ct_size _ _ _ H). lia. Qed.

Lemma push_rep r q v :
  ring_rep r q ->
  exists r', push v r = Ok (bool_decide (Z.of_nat (length q) < cap - 1), r') /\
    ring_rep r' (if bool_decide (Z.of_nat (length q) < cap - 1) then q ++ [v] else q).
Proof using Hcap.
  intros (us & nh & H & ->). pose proof (ct_order _ _ _ H) as Ho. pose proof (ct_size _ _ _ H) as Hs.
  rewrite length_drop. unfold push. destruct (Z.eqb_spec (succ r (tail r)) (head r)) as [E|E].
  - apply (full_iff _ _ _ H) in E. rewrite bool_decide_eq_false_2 by lia. exists r; split; [done|]. by exists us, nh.
  - rewrite (full_iff _ _ _ H) in E. rewrite bool_decide_eq_true_2 by lia.
    destruct (counts_write r us nh v H) as (r' & -> & H' & _ & Ht & Hv); [lia|]. rewrite bind_ok.
    eexists; split; [done|]. exists (us ++ [v]), nh. split; [|by rewrite drop_app_le by lia].
    assert (E' : succ r (tail r) = succ r' (tail r')).
    { unfold succ. by rewrite Ht, (ct_mask _ _ _ H), (ct_mask _ _ _ H'). }
    rewrite E'. apply counts_set_tail; [done | lia | done].
Qed.

(** The tail tells whether a push succeeded. *)
Lemma push_tail r q v b r' : ring_rep r q -> push v r = Ok (b, r') -> (tail r' =? tail r) = negb b.
Proof using Hcap.
  intros (us & nh & H & _). unfold push, set_slot. case_match eqn:E; [intros [= <- <-]; apply Z.eqb_refl|].
  intros (r1 & (bf & _ & [= <-])%bind_inv & [= <- <-])%bind_inv. cbn [tail set_tail negb].
  apply Z.eqb_neq in E. apply Z.eqb_neq. rewrite (ct_tail _ _ _ H) in *. rewrite (succ_mod _ _ _ _ H) in *.
  intros Et. pose proof cap_pos. pose proof (ct_order _ _ _ H). pose proof (ct_size _ _ _ H). destruct (Z.eq_dec cap 1) as [E1|].
  - apply E. rewrite (ct_head _ _ _ H), E1, !Z.mod_1_r. done.
  - symmetry in Et. apply mod_apart in Et; lia.
Qed.

Lemma pop_rep r q :
  ring_rep r q ->
  exists r', pop r = Ok (hd_error q, r') /\ ring_rep r' (tl q).
Proof using Hcap.
  intros (us & nh & H & ->). pose proof (ct_order _ _ _ H) as Ho. unfold pop.
  destruct (Z.eqb_spec (head r) (tail r)) as [E|E].
  - apply (empty_iff _ _ _ H) in E. rewrite drop_ge by lia. exists r; split; [done|].
    exists us, nh. rewrite drop_ge by lia. done.
  - rewrite (empty_iff _ _ _ H) in E. destruct (counts_read r us nh H) as (v & Hv & ->); [lia|].
    rewrite bind_ok. rewrite (drop_S us v (Z.to_nat nh) Hv). simpl. eexists; split; [done|].
    exists us, (nh + 1). split; [apply counts_set_head; [done|lia] | f_equal; lia].
Qed.

Lemma new_counts v0 : exists r, new v0 cap = Ok r /\ counts r [] 0.
Proof using Hcap.
  pose proof (is_capacity_range _ Hcap). unfold new.
  assert (E : Z.land cap (u64 (cap - 1)) = 0).
  { rewrite u64_small by lia. pose proof (land_mask cap cap Hcap) as E. rewrite u64_small in E by lia.
    by rewrite E, Z.mod_same by lia. }
  rewrite E, (proj2 (Z.eqb_neq cap 0)) by lia. simpl. eexists; split; [done|].
  split; simpl; [rewrite u64_small; lia | done | by rewrite Z.mod_0_l by lia | by rewrite Z.mod_0_l by lia | lia | lia |].
  intros k v _ Hk. by destruct k.
Qed.

(** ** Interleavings *)

(** What each thread knows at each point. *)
Definition prod_ok (s : system T) (nh : Z) : Prop :=
  match prod s with
  | PIdle => True
  | PLoaded t next _ => t = tail (ring s) /\ next = succ (ring s) (tail (ring s))
  | PRoom t next _ => t = tail (ring s) /\ next = succ (ring s) (tail (ring s)) /\
      Z.of_nat (length (pushed s)) - nh < cap - 1
  | PWritten next v => next = succ (ring s) (tail (ring s)) /\
      Z.of_nat (length (pushed s)) - nh < cap - 1 /\
      vnth (buffer (ring s)) (Z.of_nat (length (pushed s)) mod cap) = v
  end.

Definition cons_ok (s : system T) (nh : Z) : Prop :=
  match cons s with
  | CIdle => True
  | CLoaded h => h = head (ring s)
  | CItem h => h = head (ring s) /\ nh < Z.of_nat (length (pushed s))
  | CRead h v => h = head (ring s) /\ nh < Z.of_nat (length (pushed s)) /\ pushed s !! Z.to_nat nh = Some v
  end.

Record system_ok (s : system T) : Prop := {
  sy_counts : counts (ring s) (pushed s) (Z.of_nat (length (popped s)));
  sy_prefix : popped s = take (length (popped s)) (pushed s);
  sy_prod : prod_ok s (Z.of_nat (length (popped s)));
  sy_cons : cons_ok s (Z.of_nat (length (popped s)))
}.

Lemma ring_step_ok s s' : step s s' -> system_ok s -> system_ok s'.
Proof using Hcap.
  intros [o H]. destruct H; intros [Hc Hp Hpr Hco]; unfold prod_ok, cons_ok in *; simpl in *.
  - by split.
  - by split.
  - destruct Hpr as [-> ->]. split; simpl; try done. unfold prod_ok; simpl. split_and!; try done.
    pose proof (ct_size _ _ _ Hc). destruct (Z.eq_dec (Z.of_nat (length us) - Z.of_nat (length os)) (cap - 1)) as [E|]; [|lia].
    by apply (full_iff _ _ _ Hc) in E.
  - destruct Hpr as (-> & -> & Hroom). destruct (counts_write r us _ v Hc Hroom) as (r1 & E & Hc' & Hh & Ht & Hv).
    rewrite E in H; injection H as <-.
    assert (Es : succ r1 (tail r1) = succ r (tail r)) by (unfold succ; by rewrite Ht, (ct_mask _ _ _ Hc), (ct_mask _ _ _ Hc')).
    split; [done | done | unfold prod_ok; simpl; by rewrite Es | unfold cons_ok; simpl; destruct c; by rewrite ?Hh].
  - destruct Hpr as (-> & Hroom & Hv). split; simpl.
    + by apply counts_set_tail.
    + rewrite take_app_le; [done|]. pose proof (ct_order _ _ _ Hc); lia.
    + done.
    + unfold cons_ok; simpl. rewrite length_app; simpl. destruct c; try done; [naive_solver lia|].
      destruct Hco as (? & ? & Hl). split_and!; [done | lia |]. by apply lookup_app_l_Some.
  - by split.
  - by split.
  - subst h. split; simpl; try done. unfold cons_ok; simpl. split; [done|].
    rewrite (empty_iff _ _ _ Hc) in H. pose proof (ct_order _ _ _ Hc); lia.
  - destruct Hco as [-> Hne]. split; simpl; try done. unfold cons_ok; simpl. split_and!; try done.
    destruct (counts_read r us _ Hc Hne) as (w & Hw & E). congruence.
  - destruct Hco as (-> & Hne & Hv). rewrite Nat2Z.id in Hv.
    assert (El : Z.of_nat (length (os ++ [v])) = Z.of_nat (length os) + 1) by (rewrite length_app; simpl; lia).
    split; simpl.
    + rewrite El. by apply counts_set_head.
    + rewrite length_app, Nat.add_1_r, (take_S_r _ _ _ Hv), <-Hp. done.
    + rewrite El. unfold prod_ok in *; simpl. destruct p; naive_solver lia.
    + done.
Qed.

Lemma reachable_ok v0 r s : new v0 cap = Ok r -> rtc step (initial r) s -> system_ok s.
Proof using Hcap.
  intros E Hs. destruct (new_counts v0) as (r' & E' & Hc). rewrite E in E'; injection E' as <-.
  assert (H0 : system_ok (initial r)) by (by split).
  induction Hs as [s|s1 s2 s3 Hst _ IH]; [done|]. apply IH. by eapply ring_step_ok.
Qed.

Lemma new_rep v0 r : new v0 cap = Ok r -> ring_rep r [].
Proof using Hcap.
  intros E. destruct (new_counts v0) as (r' & E' & Hc). rewrite E in E'; injection E' as <-. by exists [], 0.
Qed.
(** *** Linearization *)

(** The queue the ring implements: what a call does to its contents. *)
Definition queue_spec (q : list T) (o : op T) (q' : list T) : Prop :=
  match o with
  | Pushed v => Z.of_nat (length q) < cap - 1 /\ q' = q ++ [v]
  | Full _ => Z.of_nat (length q) = cap - 1 /\ q' = q
  | Popped v => q = v :: q'
  | Empty => q = [] /\ q' = []
  end.

(** A sequence of calls, one after the other. *)
Fixpoint legal (q : list T) (ops : list (op T)) (q' : list T) : Prop :=
  match ops with
  | [] => q' = q
  | o :: ops => exists q1, queue_spec q o q1 /\ legal q1 ops q'
  end.

Lemma legal_snoc q ops q1 o q2 : legal q ops q1 -> queue_spec q1 o q2 -> legal q (ops ++ [o]) q2.
Proof using.
  revert q; induction ops as [|o' ops IH]; intros q; cbn [legal app]; [intros -> H; by exists q2|].
  intros (q0 & H0 & H) H2. exists q0. split; [done|]. by apply IH.
Qed.

Definition contents (s : system T) : list T := drop (length (popped s)) (pushed s).

(** The deciding access takes the queue from its contents before to those
    after; the other accesses do not change them. *)
Lemma access_spec o s s' : access o s s' -> system_ok s ->
  match o with Some o => queue_spec (contents s) o (contents s') | None => contents s' = contents s end.
Proof using Hcap.
  intros Ha. destruct Ha as [|r c us os t next v Hn| | | | |r p us os h Hn| | |]; intros [Hc Hp Hpr Hco]; unfold prod_ok, cons_ok, contents in *; simpl in *; try done.
  - destruct Hpr as [-> ->]. split; [|done]. rewrite length_drop. apply (full_iff _ _ _ Hc) in Hn. pose proof (ct_order _ _ _ Hc). lia.
  - destruct Hpr as (_ & Hroom & _). pose proof (ct_order _ _ _ Hc). split; [rewrite length_drop; lia|]. by rewrite drop_app_le by lia.
  - assert (He : head r = tail r) by congruence. apply (empty_iff _ _ _ Hc) in He. rewrite drop_ge by lia. done.
  - destruct Hco as (_ & _ & Hv). rewrite Nat2Z.id in Hv. rewrite length_app, Nat.add_1_r. by apply drop_S.
Qed.

Lemma history_legal r ops s : system_ok (initial r) -> history (initial r) ops s -> system_ok s /\ legal [] ops (contents s).
Proof using Hcap.
  intros H0 H. remember (initial r) as s0 eqn:E0. induction H as [s|s ops s1 o s2 _ IH Ha]; [by subst s|].
  destruct (IH E0 H0) as [Hok Hl]. split; [eapply ring_step_ok; [by exists o | done]|].
  pose proof (access_spec o s1 s2 Ha Hok) as Hs. destruct o as [o|]; cbn [option_list]; [by eapply legal_snoc|]. by rewrite app_nil_r, Hs.
Qed.

(** The calls as a whole are the same queue. *)
Lemma push_spec r q v : ring_rep r q ->
  exists b r' q', push v r = Ok (b, r') /\ queue_spec q (if b then Pushed v else Full v) q' /\ ring_rep r' q'.
Proof using Hcap.
  intros H. destruct (push_rep r q v H) as (r' & E & H'). pose proof (ring_rep_length r q H).
  destruct (bool_decide_reflect (Z.of_nat (length q) < cap - 1)).
  - exists true, r', (q ++ [v]). by split_and!.
  - exists false, r', q. split; [done|]. split; [|done]. split; [lia | done].
Qed.

Lemma pop_spec r q : ring_rep r q ->
  exists v r' q', pop r = Ok (v, r') /\ queue_spec q (match v with Some v => Popped v | None => Empty end) q' /\ ring_rep r' q'.
Proof using Hcap.
  intros H. destruct (pop_rep r q H) as (r' & E & H'). exists (hd_error q), r', (tl q). split_and!; try done. by destruct q.
Qed.
End ring.

(** ** Properties *)

(** C17: the ring is linearizable. In every run of the producer's and the
    consumer's interleaved loads and stores, the calls, taken in the order of the
    access inside each that decides it, are a legal history of a bounded queue
    run one call at a time, refusals included: a push is refused only when
    [capacity - 1] values are in the queue at that moment and a pop only when it
    is empty; the queue ends with what was pushed and not yet popped. The calls
    [push] and [pop] as a whole are steps of the same queue. *)
Theorem spsc_linearizable {T} cap (v0 : T) r ops s :
  is_capacity cap -> new v0 cap = Ok r -> history (initial r) ops s ->
  legal cap [] ops (drop (length (popped s)) (pushed s)) /\ popped s `prefix_of` pushed s /\
  (forall (r : SpscRing T) q v, ring_rep cap r q ->
     exists b r' q', push v r = Ok (b, r') /\ queue_spec cap q (if b then Pushed v else Full v) q' /\ ring_rep cap r' q') /\
  (forall (r : SpscRing T) q, ring_rep cap r q ->
     exists v r' q', pop r = Ok (v, r') /\ queue_spec cap q (match v with Some v => Popped v | None => Empty end) q' /\ ring_rep cap r' q').
Proof.
  intros Hcap E Hh. pose proof (reachable_ok cap Hcap v0 r (initial r) E (rtc_refl _ _)) as H0.
  destruct (history_legal cap Hcap r ops s H0 Hh) as [Hok Hl]. split_and!; [done | | by intros; apply push_spec | by intros; apply pop_spec].
  rewrite (sy_prefix _ _ Hok). apply prefix_take.
Qed.

(** The ring is a queue of at most [capacity - 1] elements: [push] appends
    and returns true while fewer are in it and otherwise returns false and
    changes nothing; [pop] returns and removes the oldest, or returns false on
    an empty ring. *)
Theorem ring_is_bounded_queue {T} cap (r : SpscRing T) q v :
  is_capacity cap -> ring_rep cap r q ->
  (exists r', push v r = Ok (bool_decide (Z.of_nat (length q) < cap - 1), r') /\
     ring_rep cap r' (if bool_decide (Z.of_nat (length q) < cap - 1) then q ++ [v] else q)) /\
  (exists r', pop r = Ok (hd_error q, r') /\ ring_rep cap r' (tl q)).
Proof. intros Hcap H. split; [by apply push_rep | by apply pop_rep]. Qed.

Definition ring4 : SpscRing Z := mkRing 0 0 3 (vassign 4 0).

Lemma cap4 : is_capacity 4.
Proof. exists 2. split; [lia | done]. Qed.

Lemma ring4_new : new 0 4 = Ok ring4.
Proof. reflexivity. Qed.

Lemma ring_is_bounded_queue_witness :
  exists r1 r2, push 11 ring4 = Ok (true, r1) /\ pop r1 = Ok (Some 11, r2) /\ ring_rep 4 r2 [].
Proof.
  destruct (ring_is_bounded_queue 4 ring4 [] 11 cap4 (new_rep 4 cap4 0 ring4 ring4_new)) as [(r1 & E1 & H1) _].
  destruct (ring_is_bounded_queue 4 r1 [11] 0 cap4 H1) as [_ (r2 & E2 & H2)].
  exists r1, r2. split; [exact E1|]. split; [exact E2 | exact H2].
Defined.

(** Under every interleaving of the producer's and the consumer's loads and
    stores the values come out in the order they went in, none lost, duplicated
    or invented: what was popped is a prefix of what was pushed, and at most
    [capacity - 1] values are in flight. *)
Theorem spsc_fifo {T} cap (v0 : T) r s :
  is_capacity cap -> new v0 cap = Ok r -> rtc step (initial r) s ->
  popped s `prefix_of` pushed s /\ Z.of_nat (length (pushed s)) - Z.of_nat (length (popped s)) < cap.
Proof.
  intros Hcap E Hs. destruct (reachable_ok cap Hcap v0 r s E Hs) as [Hc Hp _ _].
  split; [rewrite Hp; apply prefix_take | apply (ct_size _ _ _ _ Hc)].
Qed.

(** The producer is between its two checks of a second push while the consumer
    takes the first value out. *)
Definition run2 : system Z :=
  mkSystem (mkRing 1 1 3 (vupd (vassign 4 0) 0 11)) (PLoaded 1 2 22) CIdle [11] [11].

Lemma run2_reachable : rtc step (initial ring4) run2.
Proof.
  eapply rtc_l; [eexists; apply (push_load_tail ring4 CIdle [] [] 11)|].
  eapply rtc_l; [eexists; apply push_room; discriminate|].
  eapply rtc_l; [eexists; apply push_write; reflexivity|].
  eapply rtc_l; [eexists; apply push_store_tail|].
  eapply rtc_l; [eexists; apply pop_load_head|].
  eapply rtc_l; [eexists; apply pop_item; discriminate|].
  eapply rtc_l; [eexists; apply (push_load_tail _ _ _ _ 22)|].
  eapply rtc_l; [eexists; apply pop_read; reflexivity|].
  eapply rtc_l; [eexists; apply pop_store_head|]. apply rtc_refl.
Qed.

Lemma history_first {T} o (s s1 s2 : system T) ops : access o s s1 -> history s1 ops s2 -> history s (option_list o ++ ops) s2.
Proof.
  intros Ha H. induction H as [s1|s1 ops s3 o' s4 _ IH Ha'].
  - rewrite app_nil_r. apply (history_step s [] s o s1); [constructor | done].
  - rewrite app_assoc. eapply history_step; [by apply IH | done].
Qed.

Lemma run2_history : history (initial ring4) [Pushed 11; Popped 11] run2.
Proof.
  apply (history_first None _ _ _ _ (push_load_tail ring4 CIdle [] [] 11)).
  eapply (history_first None); [apply push_room; discriminate|].
  eapply (history_first None); [apply push_write; reflexivity|].
  apply (history_first (Some (Pushed 11)) _ _ _ [Popped 11] (push_store_tail _ _ _ _ _ _)).
  eapply (history_first None); [apply pop_load_head|].
  eapply (history_first None); [apply pop_item; discriminate|].
  eapply (history_first None); [apply (push_load_tail _ _ _ _ 22)|].
  eapply (history_first None); [apply pop_read; reflexivity|].
  apply (history_first (Some (Popped 11)) _ _ _ [] (pop_store_head _ _ _ _ _ _)). apply history_nil.
Qed.

Lemma spsc_linearizable_witness : legal 4 [] [Pushed 11; Popped 11] (drop (length (popped run2)) (pushed run2)).
Proof. exact (proj1 (spsc_linearizable 4 0 ring4 [Pushed 11; Popped 11] run2 cap4 ring4_new run2_history)). Defined.

Lemma spsc_fifo_witness :
  popped run2 `prefix_of` pushed run2 /\ Z.of_nat (length (pushed run2)) - Z.of_nat (length (popped run2)) < 4.
Proof. exact (spsc_fifo 4 0 ring4 run2 cap4 ring4_new run2_reachable). Defined.

(** C30: the two threads never touch the same slot at once, and every slot
    access is inside the buffer: when the producer is about to write slot [t]
    the write succeeds, when the consumer is about to read slot [h] the read
    succeeds, and if both are about to, [t] and [h] differ. *)
Theorem spsc_race_free {T} cap (v0 : T) r s :
  is_capacity cap -> new v0 cap = Ok r -> rtc step (initial r) s ->
  (forall t next v, prod s = PRoom t next v -> exists r', set_slot t v (ring s) = Ok r') /\
  (forall h, cons s = CItem h -> exists v, vget (buffer (ring s)) h = Ok v) /\
  (forall t next v h, prod s = PRoom t next v -> cons s = CItem h -> t <> h).
Proof.
  intros Hcap E Hs. destruct (reachable_ok cap Hcap v0 r s E Hs) as [Hc Hp Hpr Hco].
  unfold prod_ok, cons_ok in *. split_and!.
  - intros t next v Ep. rewrite Ep in Hpr. destruct Hpr as (-> & _ & Hroom).
    destruct (counts_write cap Hcap _ _ _ v Hc Hroom) as (r' & -> & _). eauto.
  - intros h Ec. rewrite Ec in Hco. destruct Hco as [-> Hne].
    destruct (counts_read cap Hcap _ _ _ Hc Hne) as (v & _ & ->). eauto.
  - intros t next v h Ep Ec Eth. rewrite Ep in Hpr. rewrite Ec in Hco. destruct Hpr as (-> & _ & Hroom), Hco as [-> Hne].
    symmetry in Eth. apply (empty_iff cap Hcap _ _ _ Hc) in Eth. lia.
Qed.

Definition run3 : system Z :=
  mkSystem (mkRing 0 1 3 (vupd (vassign 4 0) 0 11)) (PRoom 1 2 22) (CItem 0) [11] [].

Lemma run3_reachable : rtc step (initial ring4) run3.
Proof.
  eapply rtc_l; [eexists; apply (push_load_tail ring4 CIdle [] [] 11)|].
  eapply rtc_l; [eexists; apply push_room; discriminate|].
  eapply rtc_l; [eexists; apply push_write; reflexivity|].
  eapply rtc_l; [eexists; apply push_store_tail|].
  eapply rtc_l; [eexists; apply pop_load_head|].
  eapply rtc_l; [eexists; apply pop_item; discriminate|].
  eapply rtc_l; [eexists; apply (push_load_tail _ _ _ _ 22)|].
  eapply rtc_l; [eexists; apply push_room; discriminate|]. apply rtc_refl.
Qed.

Lemma spsc_race_free_witness :
  (exists r', set_slot 1 22 (ring run3) = Ok r') /\ (exists v, vget (buffer (ring run3)) 0 = Ok v) /\ 1 <> 0.
Proof.
  destruct (spsc_race_free 4 0 ring4 run3 cap4 ring4_new run3_reachable) as (H1 & H2 & H3).
  split; [exact (H1 1 2 22 eq_refl)|]. split; [exact (H2 0 eq_refl) | exact (H3 1 2 22 0 eq_refl eq_refl)].
Defined.
