(* ===== verification/PacketPool.v ===== *)
(** The packet buffer pool of include/packet_pool.hpp: a stack of free slots
    threaded through the slots themselves, updated by compare-and-swap. The
    calls as a whole, and as the loads, stores and compare-and-swaps of any
    number of threads; with the proof that the stack is sound while one thread
    acquires, and a run that breaks it with two.

    As in [SpscRing], each access of shared memory is one step. *)
From Stdlib Require Import ZArith Lia.
From stdpp Require Import base numbers gmap functions list relations.
From S2P Require Import Prelude Itch.
Open Scope Z_scope.

Definition kMaxPacketBytes : Z := 2048.
Definition kPoolInvalid : Z := UINT32_MAX.

Record BufferSlot := mkSlot { data : bytes; length_ : Z; nextFree : Z }.
Definition BufferSlot_zero : BufferSlot := mkSlot (replicate (Z.to_nat kMaxPacketBytes) 0) 0 0.

Record PacketPool := mkPackets { slots : vec BufferSlot; freeHead : Z }.

Definition set_nextFree (n : Z) (s : BufferSlot) : BufferSlot := mkSlot (data s) (length_ s) n.

Module PacketPool.

Definition get (p : PacketPool) (idx : Z) : result BufferSlot := vget (slots p) idx.
Definition modify (f : BufferSlot -> BufferSlot) (idx : Z) (p : PacketPool) : result PacketPool :=
  s ← vget (slots p) idx;
  ss ← vset (slots p) idx (f s);
  Ok (mkPackets ss (freeHead p)).

(** [for (i = 0; i + 1 < numSlots; ++i) slots[i].nextFree = i + 1]. *)
Fixpoint link_loop (fuel : nat) (numSlots i : Z) (p : PacketPool) : result PacketPool :=
  match fuel with
  | O => Err Diverge
  | S fuel =>
      if i + 1 <? numSlots then
        p ← modify (set_nextFree (u32 (i + 1))) i p;
        link_loop fuel numSlots (i + 1) p
      else Ok p
  end.

Definition new (numSlots : Z) : result PacketPool :=
  p ← link_loop (S (Z.to_nat numSlots)) numSlots 0 (mkPackets (vassign numSlots BufferSlot_zero) kPoolInvalid);
  p ← modify (set_nextFree kPoolInvalid) (u64 (numSlots - 1)) p;
  Ok (mkPackets (slots p) 0).

(** A call that no other thread disturbs: the compare-and-swap succeeds. *)
Definition acquire (p : PacketPool) : result (Z * PacketPool) :=
  let head := freeHead p in
  if negb (head =? kPoolInvalid) then
    s ← get p head;
    Ok (head, mkPackets (slots p) (nextFree s))
  else Ok (kPoolInvalid, p).

Definition release (idx : Z) (p : PacketPool) : result PacketPool :=
  let head := freeHead p in
  p ← modify (set_nextFree head) idx p;
  Ok (mkPackets (slots p) idx).

(** ** The threads *)

(** Where a thread is inside [acquire] or [release idx]. *)
Inductive pc :=
| Idle
| ALoaded (head : Z)                (* acquire: [head] loaded, not the sentinel *)
| ANext (head next : Z)             (* slots[head].nextFree was read *)
| RLoaded (idx head : Z)            (* release: [head] loaded *)
| RLinked (idx head : Z).           (* slots[idx].nextFree was written *)

(** The pool, every thread, and the slots handed out to callers. *)
Record system := mkSystem { pool : PacketPool; threads : Z -> pc; held : list Z }.

(** What a call came to, at the access that decides it. *)
Inductive op := Acquired (idx : Z) | NoneFree | Released (idx : Z).

Section step.
(** The threads that call [acquire]. *)
Context (may_acquire : Z -> bool).

(** What [acquire] does with the value of [freeHead] it got, by the first load
    or from a failed compare-and-swap. *)
Definition loaded (head : Z) : pc := if head =? kPoolInvalid then Idle else ALoaded head.

(** The call that value decides: there is no free slot. *)
Definition none_free (head : Z) : option op := if head =? kPoolInvalid then Some NoneFree else None.

(** One access of one thread, with the call it decides if any. *)
Inductive access : option op -> system -> system -> Prop :=
| acquire_load i p th hs :
    may_acquire i = true -> th i = Idle ->
    access (none_free (freeHead p)) (mkSystem p th hs) (mkSystem p (<[i := loaded (freeHead p)]> th) hs)
| acquire_next i p th hs head s :
    th i = ALoaded head -> get p head = Ok s ->
    access None (mkSystem p th hs) (mkSystem p (<[i := ANext head (nextFree s)]> th) hs)
| acquire_cas i p th hs head next :
    th i = ANext head next -> freeHead p = head ->
    access (Some (Acquired head)) (mkSystem p th hs) (mkSystem (mkPackets (slots p) next) (<[i := Idle]> th) (head :: hs))
| acquire_retry i p th hs head next :           (* the weak compare-and-swap may fail at any time *)
    th i = ANext head next ->
    access (none_free (freeHead p)) (mkSystem p th hs) (mkSystem p (<[i := loaded (freeHead p)]> th) hs)
| release_load i p th hs1 hs2 idx :
    th i = Idle ->
    access None (mkSystem p th (hs1 ++ idx :: hs2)) (mkSystem p (<[i := RLoaded idx (freeHead p)]> th) (hs1 ++ hs2))
| release_link i p p' th hs idx head :
    th i = RLoaded idx head -> modify (set_nextFree head) idx p = Ok p' ->
    access None (mkSystem p th hs) (mkSystem p' (<[i := RLinked idx head]> th) hs)
| release_cas i p th hs idx head :
    th i = RLinked idx head -> freeHead p = head ->
    access (Some (Released idx)) (mkSystem p th hs) (mkSystem (mkPackets (slots p) idx) (<[i := Idle]> th) hs)
| release_retry i p th hs idx head :
    th i = RLinked idx head ->
    access None (mkSystem p th hs) (mkSystem p (<[i := RLoaded idx (freeHead p)]> th) hs).

Definition step (s s' : system) : Prop := exists o, access o s s'.

(** A run, with the calls it decided in order. *)
Inductive history : system -> list op -> system -> Prop :=
| history_nil s : history s [] s
| history_step s ops s1 o s2 : history s ops s1 -> access o s1 s2 -> history s (ops ++ option_list o) s2.
End step.

Definition initial (p : PacketPool) : system := mkSystem p (fun _ => Idle) [].
End PacketPool.
Import PacketPool.

(** ** The free stack *)

Fixpoint chain (ss : vec BufferSlot) (h : Z) (F : list Z) : Prop :=
  match F with
  | [] => h = kPoolInvalid
  | i :: F' => h = i /\ 0 <= i < vlen ss /\ chain ss (nextFree (vnth ss i)) F'
  end.

Lemma chain_range ss h F i : chain ss h F -> i ∈ F -> 0 <= i < vlen ss.
Proof.
  revert h; induction F as [|j F IH]; simpl; intros h; [set_solver|].
  intros (-> & Hj & HF) [->|Hi]%elem_of_cons; eauto.
Qed.

Lemma chain_upd ss h F i s : (i ∉ F) -> chain ss h F -> chain (vupd ss i s) h F.
Proof.
  revert h; induction F as [|j F IH]; simpl; intros h Hi; [done|].
  intros (-> & Hj & HF). rewrite vnth_vupd_ne by set_solver.
  split; [done|]. split; [done|]. apply IH; [set_solver | done].
Qed.

(** The stack holds the slots [F], the newest first. *)
Record pool_rep (p : PacketPool) (F : list Z) : Prop := {
  pp_fits : 0 <= vlen (slots p) <= kPoolInvalid;
  pp_chain : chain (slots p) (freeHead p) F;
  pp_nodup : NoDup F
}.

Lemma packet_modify_ok f i p : 0 <= i < vlen (slots p) ->
  modify f i p = Ok (mkPackets (vupd (slots p) i (f (vnth (slots p) i))) (freeHead p)).
Proof. intros Hi. unfold modify. rewrite vget_ok, bind_ok, vset_ok by done. done. Qed.

Lemma not_sentinel p F i : pool_rep p F -> 0 <= i < vlen (slots p) -> (i =? kPoolInvalid) = false.
Proof. intros [Hf _ _] Hi. apply Z.eqb_neq. lia. Qed.

Lemma acquire_rep p F : pool_rep p F ->
  match F with
  | [] => acquire p = Ok (kPoolInvalid, p)
  | i :: F' => exists p', acquire p = Ok (i, p') /\ pool_rep p' F' /\ slots p' = slots p
  end.
Proof.
  intros Hp. pose proof Hp as [Hf Hc Hn]. unfold acquire. destruct F as [|i F]; simpl in Hc.
  - by rewrite Hc.
  - destruct Hc as (Hh & Hi & Hc). rewrite Hh, (not_sentinel p _ i Hp Hi); simpl. unfold get.
    rewrite vget_ok, bind_ok by done. eexists; split_and!; [done | | done].
    apply NoDup_cons in Hn as [_ Hn]. by split.
Qed.

Lemma release_rep i p F : pool_rep p F -> 0 <= i < vlen (slots p) -> (i ∉ F) ->
  exists p', release i p = Ok p' /\ pool_rep p' (i :: F) /\
    (forall j, data (vnth (slots p') j) = data (vnth (slots p) j) /\ length_ (vnth (slots p') j) = length_ (vnth (slots p) j)) /\
    vlen (slots p') = vlen (slots p).
Proof.
  intros [Hf Hc Hn] Hi HF. unfold release. rewrite packet_modify_ok, bind_ok by done. eexists; split; [done|].
  split_and!; simpl; try done.
  - split; simpl; [done | | by apply NoDup_cons]. rewrite vnth_vupd_eq; simpl.
    split_and!; [done | lia | lia | by apply chain_upd].
  - intros j. rewrite vnth_vupd. case_decide; by subst.
Qed.

(** The loop of the constructor links slot [i] to [i + 1]. *)
Lemma link_loop_ok fuel n i p :
  0 <= i < n -> n <= kPoolInvalid -> vlen (slots p) = n -> n - i <= Z.of_nat fuel ->
  (forall k, 0 <= k < i -> nextFree (vnth (slots p) k) = k + 1) ->
  exists p', link_loop fuel n i p = Ok p' /\ vlen (slots p') = n /\ freeHead p' = freeHead p /\
    forall k, 0 <= k < n - 1 -> nextFree (vnth (slots p') k) = k + 1.
Proof.
  unfold kPoolInvalid, UINT32_MAX. revert i p; induction fuel as [|fuel IH]; intros i p Hi Hn Hlen Hf Hk; [lia|]. simpl.
  destruct (Z.ltb_spec (i + 1) n).
  - rewrite packet_modify_ok by lia. simpl.
    destruct (IH (i + 1) (mkPackets (vupd (slots p) i (set_nextFree (u32 (i + 1)) (vnth (slots p) i))) (freeHead p)))
      as (p' & -> & Hl' & Hh' & Hk'); simpl; [lia | lia | done | lia | |].
    + intros k Hr. rewrite vnth_vupd. case_decide; [subst; simpl; rewrite u32_small; lia | apply Hk; lia].
    + exists p'. split_and!; try done.
  - exists p; split_and!; try done. intros k Hr. apply Hk. lia.
Qed.

Lemma chain_linked ss n i :
  vlen ss = n -> 0 <= i <= n -> 0 < n ->
  (forall k, 0 <= k < n - 1 -> nextFree (vnth ss k) = k + 1) -> nextFree (vnth ss (n - 1)) = kPoolInvalid ->
  chain ss (if i <? n then i else kPoolInvalid) (seqZ i (n - i)).
Proof.
  intros Hl Hi Hn Hk Hlast. remember (Z.to_nat (n - i)) as m eqn:Em. revert i Hi Em.
  induction m as [|m IH]; intros i Hi Em.
  - replace i with n by lia. by rewrite Z.sub_diag, Z.ltb_irrefl.
  - rewrite seqZ_cons by lia. destruct (Z.ltb_spec i n); [|lia]. simpl. split; [done|]. split; [lia|].
    specialize (IH (Z.succ i)). replace (Z.pred (n - i)) with (n - Z.succ i) by lia.
    destruct (Z.ltb_spec (Z.succ i) n).
    + rewrite Hk by lia. apply IH; lia.
    + replace i with (n - 1) at 1 by lia. rewrite Hlast. apply IH; lia.
Qed.

Lemma packet_pool_new n : 0 < n <= kPoolInvalid ->
  exists p, new n = Ok p /\ vlen (slots p) = n /\ pool_rep p (seqZ 0 n).
Proof.
  intros Hn. unfold new.
  destruct (link_loop_ok (S (Z.to_nat n)) n 0 (mkPackets (vassign n BufferSlot_zero) kPoolInvalid))
    as (p & -> & Hl & _ & Hk); [lia | lia | done | lia | lia |].
  rewrite bind_ok. assert (Hu : u64 (n - 1) = n - 1) by (apply u64_small; unfold kPoolInvalid, UINT32_MAX in Hn; lia).
  rewrite Hu, packet_modify_ok, bind_ok by lia. eexists; split; [done|]. simpl. split; [done|]. split; simpl.
  - lia.
  - pose proof (chain_linked (vupd (slots p) (n - 1) (set_nextFree kPoolInvalid (vnth (slots p) (n - 1)))) n 0) as Hc.
    rewrite Z.sub_0_r in Hc. destruct (Z.ltb_spec 0 n); [|lia]. apply Hc; [done | lia | lia | |].
    + intros k Hr. rewrite vnth_vupd_ne by lia. by apply Hk.
    + by rewrite vnth_vupd_eq.
  - apply NoDup_seqZ.
Qed.

(** The constructor leaves the buffers zeroed. *)
Lemma modify_data n i p p' j : modify (set_nextFree n) i p = Ok p' -> data (vnth (slots p') j) = data (vnth (slots p) j).
Proof.
  unfold modify. intros (s & Es & (ss & E & [= <-])%bind_inv)%bind_inv. unfold vget, vset in *. destruct (vin _ _); [|done].
  injection Es as <-; injection E as <-. simpl. rewrite vnth_vupd. case_decide; by subst.
Qed.

Lemma link_loop_data fuel n i p p' j : link_loop fuel n i p = Ok p' -> data (vnth (slots p') j) = data (vnth (slots p) j).
Proof.
  revert i p; induction fuel as [|fuel IH]; intros i p; [done|]. cbn [link_loop].
  case_match; [|by intros [= ->]]. intros (p1 & E1 & E)%bind_inv. rewrite (IH _ _ E). by eapply modify_data.
Qed.

Lemma packet_pool_data n p i : new n = Ok p -> data (vnth (slots p) i) = replicate (Z.to_nat kMaxPacketBytes) 0.
Proof.
  unfold new. intros (p1 & E1 & (p2 & E2 & [= <-])%bind_inv)%bind_inv. cbn [slots].
  rewrite (modify_data _ _ _ _ _ E2), (link_loop_data _ _ _ _ _ _ E1). cbn [slots]. by rewrite vnth_vassign.
Qed.

(** ** Interleavings with one acquiring thread *)

(** The slot a thread is giving back, and what it knows. *)
Definition releasing (t : pc) : option Z :=
  match t with RLoaded idx _ | RLinked idx _ => Some idx | _ => None end.

Definition thread_ok (ss : vec BufferSlot) (F : list Z) (t : pc) : Prop :=
  match t with
  | Idle => True
  | ALoaded head => head ∈ F
  | ANext head next => (head ∈ F) /\ nextFree (vnth ss head) = next
  | RLoaded idx _ => (idx ∉ F) /\ 0 <= idx < vlen ss
  | RLinked idx head => (idx ∉ F) /\ 0 <= idx < vlen ss /\ nextFree (vnth ss idx) = head
  end.

Record system_ok (s : system) (F : list Z) : Prop := {
  so_rep : pool_rep (pool s) F;
  so_held : NoDup (held s);
  so_split : forall i, i ∈ held s -> (i ∉ F) /\ 0 <= i < vlen (slots (pool s));
  so_thread : forall i, thread_ok (slots (pool s)) F (threads s i);
  so_apart : forall i j x, releasing (threads s i) = Some x -> releasing (threads s j) = Some x -> i = j;
  so_away : forall i x, releasing (threads s i) = Some x -> x ∉ held s;
  so_all : forall x, 0 <= x < vlen (slots (pool s)) ->
    x ∈ F \/ x ∈ held s \/ exists i, releasing (threads s i) = Some x
}.

Lemma loaded_ok p F : pool_rep p F -> thread_ok (slots p) F (loaded (freeHead p)).
Proof.
  intros Hp. pose proof Hp as [Hf Hc _]. unfold loaded. destruct F as [|i F]; simpl in Hc; [by rewrite Hc|].
  destruct Hc as (-> & Hi & _). rewrite (not_sentinel p (i :: F) i Hp Hi). simpl. set_solver.
Qed.

Lemma loaded_releasing h : releasing (loaded h) = None.
Proof. unfold loaded. by case_match. Qed.

(** One thread moves on and nothing else changes. *)
Lemma thread_moves p th hs F i t :
  system_ok (mkSystem p th hs) F -> thread_ok (slots p) F t ->
  releasing t = releasing (th i) ->
  system_ok (mkSystem p (<[i := t]> th) hs) F.
Proof.
  intros [Hp Hh Hs Ht Ha Hw Hall] Hok Hr; simpl in *.
  assert (Hrel : forall j, releasing (<[i:=t]> th j) = releasing (th j)).
  { intros j. by destruct (Z.eq_dec j i) as [->|Hne]; [rewrite fn_lookup_insert | rewrite fn_lookup_insert_ne]. }
  split; simpl; try done; try setoid_rewrite Hrel; try done.
  intros j. destruct (Z.eq_dec j i) as [->|Hne]; [by rewrite fn_lookup_insert | by rewrite fn_lookup_insert_ne].
Qed.

(** Only thread 0 is inside [acquire]. *)
Definition alone (s : system) : Prop :=
  forall i, match threads s i with ALoaded _ | ANext _ _ => i = 0 | _ => True end.

Lemma cas_acquire_ok p th hs F i head next :
  system_ok (mkSystem p th hs) F -> alone (mkSystem p th hs) ->
  th i = ANext head next -> freeHead p = head ->
  system_ok (mkSystem (mkPackets (slots p) next) (<[i := Idle]> th) (head :: hs)) (tl F).
Proof.
  intros [Hp Hh Hs Ht Ha Hw Hall] Hal Hi Hhead; simpl in *. pose proof (Ht i) as Hti; rewrite Hi in Hti. destruct Hti as [HinF Hnext].
  destruct Hp as [Hf Hc Hn]. destruct F as [|h F]; [by apply elem_of_nil in HinF|]. simpl in Hc.
  destruct Hc as (Eh & Hr & Hc). assert (h = head) as -> by congruence. apply NoDup_cons in Hn as [HnF Hn]. simpl.
  assert (Hoth : forall j, thread_ok (slots p) F (<[i:=Idle]> th j)).
  { intros j. destruct (Z.eq_dec j i) as [->|Hne]; [by rewrite fn_lookup_insert|]. rewrite fn_lookup_insert_ne by done.
    pose proof (Ht j) as Htj. pose proof (Hal j) as Hj. pose proof (Hal i) as H0. simpl in Hj, H0. rewrite Hi in H0.
    destruct (th j); simpl in *; try congruence; set_solver. }
  assert (Hrel : forall j x, releasing (<[i:=Idle]> th j) = Some x -> releasing (th j) = Some x).
  { intros j x. by destruct (Z.eq_dec j i) as [->|Hne]; [rewrite fn_lookup_insert | rewrite fn_lookup_insert_ne]. }
  split; simpl.
  - split; simpl; [done | by rewrite <-Hnext | done].
  - apply NoDup_cons; split; [|done]. intros Hin. apply (Hs head Hin); set_solver.
  - intros j [->|Hj]%elem_of_cons; [done|]. destruct (Hs j Hj); set_solver.
  - done.
  - eauto.
  - intros j x Hx%Hrel. pose proof (Ht j) as Htj. rewrite not_elem_of_cons. split; [|eauto].
    intros ->. destruct (th j); simpl in Hx; try done; injection Hx as ->; simpl in Htj; set_solver.
  - intros x Hx. destruct (Hall x Hx) as [[->|HxF]%elem_of_cons|[HxH|(j & Hj)]]; rewrite ?elem_of_cons; auto.
    right; right. exists j. rewrite fn_lookup_insert_ne; [done|]. intros <-. by rewrite Hi in Hj.
Qed.

Lemma load_release_ok p th hs1 hs2 F i idx :
  system_ok (mkSystem p th (hs1 ++ idx :: hs2)) F -> th i = Idle ->
  system_ok (mkSystem p (<[i := RLoaded idx (freeHead p)]> th) (hs1 ++ hs2)) F.
Proof.
  intros [Hp Hh Hs Ht Ha Hw Hall] Hi; simpl in *. destruct (NoDup_app_3 _ _ _ Hh) as (H1 & H2 & H3).
  assert (Hidx : forall j, releasing (th j) = Some idx -> False).
  { intros j Hj. apply (Hw j idx Hj). set_solver. }
  split; simpl; try done.
  - intros j Hj. apply Hs. set_solver.
  - intros j. destruct (Z.eq_dec j i) as [->|Hne]; [rewrite fn_lookup_insert | by rewrite fn_lookup_insert_ne].
    simpl. apply Hs. set_solver.
  - intros j k x. destruct (Z.eq_dec j i) as [->|Nj], (Z.eq_dec k i) as [->|Nk];
      rewrite ?fn_lookup_insert, ?fn_lookup_insert_ne by done; simpl; try done; [| |by apply Ha].
    + intros [= <-] Hk. by destruct (Hidx k).
    + intros Hj [= <-]. by destruct (Hidx j).
  - intros j x. destruct (Z.eq_dec j i) as [->|Nj]; rewrite ?fn_lookup_insert, ?fn_lookup_insert_ne by done; simpl.
    + intros [= <-]. set_solver.
    + intros Hx Hin. apply (Hw j x Hx). set_solver.
  - intros x Hx. destruct (Hall x Hx) as [?|[[?|[->|?]%elem_of_cons]%elem_of_app|(j & Hj)]]; rewrite ?elem_of_app; auto.
    + right; right. exists i. by rewrite fn_lookup_insert.
    + right; right. exists j. rewrite fn_lookup_insert_ne; [done|]. intros <-. by rewrite Hi in Hj.
Qed.

Lemma link_release_ok p p' th hs F i idx head :
  system_ok (mkSystem p th hs) F -> th i = RLoaded idx head -> modify (set_nextFree head) idx p = Ok p' ->
  system_ok (mkSystem p' (<[i := RLinked idx head]> th) hs) F.
Proof.
  intros H Hi E. pose proof (so_thread _ _ H i) as Hti; simpl in Hti; rewrite Hi in Hti. destruct Hti as [HF Hr].
  rewrite packet_modify_ok in E by done. injection E as <-.
  destruct H as [[Hf Hc Hn] Hh Hs Ht Ha Hw Hall]; simpl in *.
  assert (Hrel : forall j x, releasing (<[i:=RLinked idx head]> th j) = Some x -> releasing (th j) = Some x).
  { intros j x. destruct (Z.eq_dec j i) as [->|Hne]; [rewrite fn_lookup_insert, Hi; by intros | by rewrite fn_lookup_insert_ne]. }
  split; simpl; try done; eauto.
  - split; simpl; [done | by apply chain_upd | done].
  - intros j. destruct (Z.eq_dec j i) as [->|Hne].
    + rewrite fn_lookup_insert. simpl. by rewrite vnth_vupd_eq.
    + rewrite fn_lookup_insert_ne by done. pose proof (Ht j) as Htj. destruct (th j) as [|h|h n|x h|x h] eqn:Ej; simpl in *; try done.
      * rewrite vnth_vupd_ne; [done | set_solver].
      * rewrite vnth_vupd_ne; [done|]. intros ->. apply Hne. apply (Ha j i x); [by rewrite Ej | by rewrite Hi].
  - intros x Hx. destruct (Hall x Hx) as [?|[?|(j & Hj)]]; auto. right; right. exists j.
    destruct (Z.eq_dec j i) as [->|Hne]; [rewrite fn_lookup_insert; by rewrite Hi in Hj | by rewrite fn_lookup_insert_ne].
Qed.

Lemma cas_release_ok p th hs F i idx head :
  system_ok (mkSystem p th hs) F -> th i = RLinked idx head -> freeHead p = head ->
  system_ok (mkSystem (mkPackets (slots p) idx) (<[i := Idle]> th) hs) (idx :: F).
Proof.
  intros [Hp Hh Hs Ht Ha Hw Hall] Hi Hhead; simpl in *. pose proof (Ht i) as Hti; rewrite Hi in Hti. destruct Hti as (HF & Hr & Hlink).
  destruct Hp as [Hf Hc Hn].
  assert (Hrel : forall j x, releasing (<[i:=Idle]> th j) = Some x -> releasing (th j) = Some x).
  { intros j x. by destruct (Z.eq_dec j i) as [->|Hne]; [rewrite fn_lookup_insert | rewrite fn_lookup_insert_ne]. }
  assert (Hidx : idx ∉ hs) by (apply (Hw i); by rewrite Hi).
  split; simpl; try done; eauto.
  - split; simpl; [done | | by apply NoDup_cons]. rewrite Hlink, <-Hhead. auto.
  - intros j Hj. destruct (Hs j Hj). split; [|done]. apply not_elem_of_cons; split; [congruence | done].
  - intros j. destruct (Z.eq_dec j i) as [->|Hne]; [by rewrite fn_lookup_insert|]. rewrite fn_lookup_insert_ne by done.
    pose proof (Ht j) as Htj. assert (Hd : releasing (th j) = Some idx -> False).
    { intros Hj. apply Hne. apply (Ha j i idx); [done | by rewrite Hi]. }
    destruct (th j) as [|h|h n|x h|x h]; simpl in *; try done; rewrite ?elem_of_cons; naive_solver.
  - intros x Hx. rewrite elem_of_cons. destruct (Hall x Hx) as [?|[?|(j & Hj)]]; auto.
    destruct (Z.eq_dec j i) as [->|Hne]; [rewrite Hi in Hj; injection Hj as ->; auto|].
    right; right. exists j. by rewrite fn_lookup_insert_ne.
Qed.

Section one_acquirer.
Context (may_acquire : Z -> bool).

Hypothesis Hone : forall i, may_acquire i = true -> i = 0.

Lemma step_alone s s' : step may_acquire s s' -> alone s -> alone s'.
Proof using Hone.
  intros [o H]; destruct H as [i p th hs Hm Hi|i p th hs h x Hi|i p th hs h n Hi|i p th hs h n Hi|i p th hs1 hs2 x Hi|i p p' th hs x h Hi|i p th hs x h Hi|i p th hs x h Hi];
    intros Ha j; pose proof (Ha j) as Haj; pose proof (Ha i) as Hai; simpl in *;
    (destruct (Z.eq_dec j i) as [->|Hne]; [rewrite fn_lookup_insert | by rewrite fn_lookup_insert_ne]); try done.
  - apply Hone in Hm. unfold loaded. by destruct (_ =? _).
  - by rewrite Hi in Hai.
  - rewrite Hi in Hai. unfold loaded. by destruct (_ =? _).
Qed.

(** The stack of free slots the pool implements. *)
Definition stack_spec (F : list Z) (o : op) (F' : list Z) : Prop :=
  match o with
  | Acquired i => F = i :: F'
  | NoneFree => F = [] /\ F' = []
  | Released i => (i ∉ F) /\ F' = i :: F
  end.

(** The deciding access takes the stack from its contents before to those
    after; the other accesses do not change them. *)
Lemma pool_access_spec o s s' F : access may_acquire o s s' -> alone s -> system_ok s F ->
  exists F', system_ok s' F' /\ match o with Some o => stack_spec F o F' | None => F' = F end.
Proof using Hone.
  assert (Hload : forall p, pool_rep p F -> match none_free (freeHead p) with Some o => stack_spec F o F | None => F = F end).
  { intros p Hp. unfold none_free. destruct (Z.eqb_spec (freeHead p) kPoolInvalid) as [E|]; [|done]. pose proof Hp as [_ Hc _].
    destruct F as [|i F]; [done|]. simpl in Hc. destruct Hc as (Ei & Hi & _). pose proof (not_sentinel p (i :: F) i Hp Hi) as Hs. lia. }
  intros Ha. destruct Ha; intros Hal Hok.
  - exists F. split; [|apply Hload, Hok]. apply thread_moves; [done | by apply loaded_ok, Hok | rewrite loaded_releasing, H0; done].
  - exists F. split; [|done]. apply thread_moves; [done | | by rewrite H]. pose proof (so_thread _ _ Hok i) as Ht; simpl in Ht; rewrite H in Ht.
    unfold get in H0. pose proof (chain_range _ _ _ _ (pp_chain _ _ (so_rep _ _ Hok)) Ht) as Hr; simpl in Hr.
    rewrite vget_ok in H0 by done. injection H0 as <-. done.
  - exists (tl F). split; [by eapply cas_acquire_ok|]. pose proof (so_thread _ _ Hok i) as Ht; simpl in Ht; rewrite H in Ht. destruct Ht as [HF _].
    pose proof (pp_chain _ _ (so_rep _ _ Hok)) as Hc. simpl in Hc. destruct F as [|j F]; [by apply elem_of_nil in HF|]. destruct Hc as [<- _]. simpl. congruence.
  - exists F. split; [|apply Hload, Hok]. apply thread_moves; [done | by apply loaded_ok, Hok | rewrite loaded_releasing, H; done].
  - exists F. split; [|done]. by apply load_release_ok.
  - exists F. split; [|done]. by eapply link_release_ok.
  - exists (idx :: F). split; [by eapply cas_release_ok|]. pose proof (so_thread _ _ Hok i) as Ht; simpl in Ht; rewrite H in Ht. by destruct Ht as [HF _].
  - exists F. split; [|done]. pose proof (so_thread _ _ Hok i) as Ht; simpl in Ht; rewrite H in Ht.
    destruct Ht as (Hi & Hr & _). apply thread_moves; [done | done | by rewrite H].
Qed.

Lemma pool_step_ok s s' F : step may_acquire s s' -> alone s -> system_ok s F -> exists F', system_ok s' F'.
Proof using Hone. intros [o Ha] Hal Hok. destruct (pool_access_spec o s s' F Ha Hal Hok) as (F' & H & _). eauto. Qed.

(** A sequence of calls, one after the other. *)
Fixpoint stack_legal (F : list Z) (ops : list op) (F' : list Z) : Prop :=
  match ops with
  | [] => F' = F
  | o :: ops => exists F1, stack_spec F o F1 /\ stack_legal F1 ops F'
  end.

Lemma pool_legal_snoc F ops F1 o F2 : stack_legal F ops F1 -> stack_spec F1 o F2 -> stack_legal F (ops ++ [o]) F2.
Proof using.
  revert F; induction ops as [|o' ops IH]; intros F; cbn [stack_legal app]; [intros -> H; by exists F2|].
  intros (F0 & H0 & H) H2. exists F0. split; [done|]. by apply IH.
Qed.

Lemma initial_ok n p : 0 < n <= kPoolInvalid -> new n = Ok p -> alone (initial p) /\ system_ok (initial p) (seqZ 0 n).
Proof using.
  intros Hn E. destruct (packet_pool_new n Hn) as (p' & E' & Hl & Hrep). rewrite E in E'; injection E' as <-.
  split; [done|]. split; simpl; try done.
  - constructor.
  - intros i Hi; by apply elem_of_nil in Hi.
  - intros x Hx. left. apply elem_of_seqZ. lia.
Qed.

Lemma pool_history_legal n p ops s : 0 < n <= kPoolInvalid -> new n = Ok p -> history may_acquire (initial p) ops s ->
  alone s /\ exists F, system_ok s F /\ stack_legal (seqZ 0 n) ops F.
Proof using Hone.
  intros Hn E H. destruct (initial_ok n p Hn E) as [Hal0 H0]. remember (initial p) as s0 eqn:E0. clear E0.
  induction H as [s|s ops s1 o s2 _ IH Ha]; [split; [done|]; by exists (seqZ 0 n)|].
  destruct (IH Hal0 H0) as (Hal & F & Hok & Hl). split; [eapply step_alone; [by exists o | done]|].
  destruct (pool_access_spec o s1 s2 F Ha Hal Hok) as (F' & Hok' & Hs). exists F'. split; [done|].
  destruct o as [o|]; cbn [option_list]; [by eapply pool_legal_snoc|]. by rewrite app_nil_r, Hs.
Qed.

Lemma pool_reachable_ok n p s :
  0 < n <= kPoolInvalid -> new n = Ok p -> rtc (step may_acquire) (initial p) s ->
  alone s /\ exists F, system_ok s F.
Proof using Hone.
  intros Hn E Hs. assert (H0 : alone (initial p) /\ exists F, system_ok (initial p) F)
    by (destruct (initial_ok n p Hn E); eauto).
  induction Hs as [s|s1 s2 s3 Hst _ IH]; [done|]. apply IH. destruct H0 as [Hal (F & Hok)]. split; [by eapply step_alone|].
  by eapply pool_step_ok.
Qed.
End one_acquirer.

(** The calls as a whole are the same stack. *)
Lemma acquire_spec p F : pool_rep p F ->
  exists i p' F', acquire p = Ok (i, p') /\ stack_spec F (if i =? kPoolInvalid then NoneFree else Acquired i) F' /\ pool_rep p' F'.
Proof.
  intros H. pose proof (acquire_rep p F H) as Ha. destruct F as [|i F].
  - exists kPoolInvalid, p, []. by split_and!.
  - destruct Ha as (p' & E & H' & _). exists i, p', F. split; [done|]. split; [|done].
    rewrite (not_sentinel p (i :: F) i H); [done|]. eapply chain_range; [apply H | set_solver].
Qed.

(** ** Properties *)

(** C18: the pool is linearizable with one acquiring thread. In every run of the
    interleaved loads, stores and compare-and-swaps of any number of threads,
    failed compare-and-swaps included, the calls, taken in the order of the
    access inside each that decides it, are a legal history of a stack of free
    slots run one call at a time: [acquire] takes the top, or finds the stack
    empty at that moment, and [release] puts a slot on it that is not free. The
    calls as a whole are steps of the same stack. *)
Theorem pool_linearizable may_acquire n p ops s :
  (forall i, may_acquire i = true -> i = 0) -> 0 < n <= kPoolInvalid -> new n = Ok p ->
  history may_acquire (initial p) ops s ->
  (exists F, stack_legal (seqZ 0 n) ops F /\ pool_rep (pool s) F) /\
  (forall p F, pool_rep p F ->
     exists i p' F', acquire p = Ok (i, p') /\ stack_spec F (if i =? kPoolInvalid then NoneFree else Acquired i) F' /\ pool_rep p' F') /\
  (forall i p F, pool_rep p F -> 0 <= i < vlen (slots p) -> (i ∉ F) ->
     exists p', release i p = Ok p' /\ stack_spec F (Released i) (i :: F) /\ pool_rep p' (i :: F)).
Proof.
  intros Hone Hn E Hh. destruct (pool_history_legal may_acquire Hone n p ops s Hn E Hh) as (_ & F & Hok & Hl).
  split_and!; [exists F; split; [done | apply Hok] | apply acquire_spec |].
  intros i p0 F0 Hp Hi HF. destruct (release_rep i p0 F0 Hp Hi HF) as (p' & E' & H' & _). by exists p'.
Qed.

(** C31: with one acquiring thread and any number of releasing ones, under every
    interleaving of their loads, stores and (possibly failing) compare-and-swaps
    the free stack is well formed and no slot is in two places: a slot handed
    out is not free and is not handed out twice, and every slot is free, handed
    out, or being given back. *)
Theorem packet_pool_sound may_acquire n p s :
  (forall i, may_acquire i = true -> i = 0) -> 0 < n <= kPoolInvalid -> new n = Ok p ->
  rtc (step may_acquire) (initial p) s ->
  exists F, pool_rep (pool s) F /\ NoDup (F ++ held s) /\
    (forall x, 0 <= x < vlen (slots (pool s)) ->
       x ∈ F \/ x ∈ held s \/ exists i, releasing (threads s i) = Some x).
Proof.
  intros Hone Hn E Hs. destruct (pool_reachable_ok may_acquire Hone n p s Hn E Hs) as [_ (F & Hok)].
  exists F. split_and!; [apply Hok | | apply Hok]. apply NoDup_app. split_and!; [apply Hok | | apply Hok].
  intros x Hx Hh. by apply (so_split _ _ Hok) in Hh as [? _].
Qed.

Definition pool3 : PacketPool := match new 3 with Ok p => p | _ => mkPackets (vassign 0 BufferSlot_zero) 0 end.

Lemma pool3_new : new 3 = Ok pool3.
Proof. vm_compute. reflexivity. Qed.

(** Thread [i] runs [acquire] or [release] to its end. *)
Lemma run_acquire may p th hs i s :
  may i = true -> th i = Idle -> (freeHead p =? kPoolInvalid) = false -> vget (slots p) (freeHead p) = Ok s ->
  rtc (step may) (mkSystem p th hs)
    (mkSystem (mkPackets (slots p) (nextFree s))
       (<[i:=Idle]> (<[i:=ANext (freeHead p) (nextFree s)]> (<[i:=ALoaded (freeHead p)]> th))) (freeHead p :: hs)).
Proof.
  intros Hm Hi Hh Hs. eapply rtc_l; [eexists; by apply (acquire_load may i)|]. unfold loaded. rewrite Hh.
  eapply rtc_l; [eexists; apply (acquire_next may i _ _ _ (freeHead p) s); [by rewrite fn_lookup_insert | done]|].
  eapply rtc_l; [eexists; apply (acquire_cas may i _ _ _ (freeHead p) (nextFree s)); [by rewrite fn_lookup_insert | done]|].
  apply rtc_refl.
Qed.

Lemma run_release may p p' th hs1 hs2 i idx :
  th i = Idle -> modify (set_nextFree (freeHead p)) idx p = Ok p' -> freeHead p' = freeHead p ->
  rtc (step may) (mkSystem p th (hs1 ++ idx :: hs2))
    (mkSystem (mkPackets (slots p') idx)
       (<[i:=Idle]> (<[i:=RLinked idx (freeHead p)]> (<[i:=RLoaded idx (freeHead p)]> th))) (hs1 ++ hs2)).
Proof.
  intros Hi E Hf. eapply rtc_l; [eexists; by apply (release_load may i)|].
  eapply rtc_l; [eexists; apply (release_link may i _ p' _ _ idx (freeHead p)); [by rewrite fn_lookup_insert | done]|].
  eapply rtc_l; [eexists; apply (release_cas may i _ _ _ idx (freeHead p)); [by rewrite fn_lookup_insert | done]|].
  apply rtc_refl.
Qed.

Lemma history_acquire may p th hs i s :
  may i = true -> th i = Idle -> (freeHead p =? kPoolInvalid) = false -> vget (slots p) (freeHead p) = Ok s ->
  history may (mkSystem p th hs) [Acquired (freeHead p)]
    (mkSystem (mkPackets (slots p) (nextFree s))
       (<[i:=Idle]> (<[i:=ANext (freeHead p) (nextFree s)]> (<[i:=ALoaded (freeHead p)]> th))) (freeHead p :: hs)).
Proof.
  intros Hm Hi Hh Hs. pose proof (acquire_load may i p th hs Hm Hi) as A1. unfold none_free, loaded in A1. rewrite Hh in A1.
  set (s1 := mkSystem p (<[i:=ALoaded (freeHead p)]> th) hs) in *.
  set (s2 := mkSystem p (<[i:=ANext (freeHead p) (nextFree s)]> (<[i:=ALoaded (freeHead p)]> th)) hs).
  apply (history_step may _ [] s2 (Some (Acquired (freeHead p)))); [|apply acquire_cas; [by rewrite fn_lookup_insert | done]].
  apply (history_step may _ [] s1 None); [|apply acquire_next; [by rewrite fn_lookup_insert | done]].
  apply (history_step may _ [] (mkSystem p th hs) None); [constructor | done].
Qed.

Lemma packet_pool_sound_witness :
  exists s F, rtc (step (fun i => i =? 0)) (initial pool3) s /\ held s = [0] /\ pool_rep (pool s) F /\ NoDup (F ++ held s).
Proof.
  assert (E : exists x, vget (slots pool3) (freeHead pool3) = Ok x) by (vm_compute; eauto).
  destruct E as (x & E).
  pose proof (run_acquire (fun i => i =? 0) pool3 (fun _ => Idle) [] 0 x eq_refl eq_refl eq_refl E) as Hr.
  destruct (packet_pool_sound (fun i => i =? 0) 3 pool3 _ (fun i Hi => proj1 (Z.eqb_eq i 0) Hi) ltac:(split; [reflexivity | discriminate])
    pool3_new Hr) as (F & Hrep & Hnd & _).
  eexists _, F. split; [exact Hr|]. split; [reflexivity|]. split; [exact Hrep | exact Hnd].
Defined.

Lemma pool_linearizable_witness :
  exists s F, history (fun i => i =? 0) (initial pool3) [Acquired 0] s /\ stack_legal (seqZ 0 3) [Acquired 0] F /\ pool_rep (pool s) F.
Proof.
  assert (E : exists x, vget (slots pool3) (freeHead pool3) = Ok x) by (vm_compute; eauto).
  destruct E as (x & E). pose proof (history_acquire (fun i => i =? 0) pool3 (fun _ => Idle) [] 0 x eq_refl eq_refl eq_refl E) as Hh.
  destruct (pool_linearizable (fun i => i =? 0) 3 pool3 _ _ (fun i Hi => proj1 (Z.eqb_eq i 0) Hi) ltac:(split; [reflexivity | discriminate])
    pool3_new Hh) as ((F & Hl & Hrep) & _).
  eexists _, F. split; [exact Hh|]. split; [exact Hl | exact Hrep].
Defined.

(** C40: two acquiring threads break the pool. One thread reads the head 0 and
    its successor 1 and is delayed; the other takes 0 and 1 and gives 0 back;
    the delayed compare-and-swap still finds 0 and installs 1, which is in use:
    the next acquire hands 1 out a second time. *)
Theorem two_acquirers_hand_out_twice :
  exists p s, new 3 = Ok p /\ rtc (step (fun _ => true)) (initial p) s /\ ~ NoDup (held s).
Proof.
  exists pool3. eexists. split; [exact pool3_new|]. split.
  - eapply rtc_l; [eexists; apply (acquire_load _ 0); reflexivity|].
    eapply rtc_l; [eexists; eapply (acquire_next _ 0); [vm_compute; reflexivity | vm_compute; reflexivity]|].
    etrans; [eapply (run_acquire _ _ _ _ 1); vm_compute; reflexivity|].
    etrans; [eapply (run_acquire _ _ _ _ 1); vm_compute; reflexivity|].
    etrans; [eapply (run_release _ _ _ _ [1] [] 1 0); vm_compute; reflexivity|].
    eapply rtc_l; [eexists; eapply (acquire_cas _ 0); vm_compute; reflexivity|].
    eapply (run_acquire _ _ _ _ 1); vm_compute; reflexivity.
  - vm_compute. intros H. apply NoDup_cons in H as [H _]. apply H. right. left.
Qed.
