(* ===== verification/FeedHandler.v ===== *)
(** The UDP receive thread of src/feed_handler.cpp: sequence tracking, and what
    one received datagram does to the packet pool, the ring and the counters;
    with the theorems on the order and completeness of what is accepted.

    The socket is outside: what [recv] returned is an argument. A datagram is
    the bytes that [recv] stored, at most [kMaxPacketBytes] of them. *)
From Stdlib Require Import ZArith Lia.
From stdpp Require Import base numbers gmap list.
From S2P Require Import Prelude FlatHashMap Itch MoldUDP64 SpscRing PacketPool.
Open Scope Z_scope.

Record PacketRef := mkRef { ref_poolIdx : Z; ref_tWire : Z }.

#[export] Instance PacketRef_eq_dec : EqDecision PacketRef.
Proof. solve_decision. Defined.

Record FeedStats := mkStats {
  packetsReceived : Z; packetsDropped : Z; bytesReceived : Z;
  gapsDetected : Z; duplicatesIgnored : Z; endOfSession : Z
}.

Module FeedStats.
Definition new : FeedStats := mkStats 0 0 0 0 0 0.
(** The [fetch_add]s. *)
Definition received (n : Z) (s : FeedStats) : FeedStats :=
  mkStats (u64 (packetsReceived s + 1)) (packetsDropped s) (u64 (bytesReceived s + n)) (gapsDetected s) (duplicatesIgnored s) (endOfSession s).
Definition dropped (s : FeedStats) : FeedStats :=
  mkStats (packetsReceived s) (u64 (packetsDropped s + 1)) (bytesReceived s) (gapsDetected s) (duplicatesIgnored s) (endOfSession s).
Definition gap (s : FeedStats) : FeedStats :=
  mkStats (packetsReceived s) (packetsDropped s) (bytesReceived s) (u64 (gapsDetected s + 1)) (duplicatesIgnored s) (endOfSession s).
Definition duplicate (s : FeedStats) : FeedStats :=
  mkStats (packetsReceived s) (packetsDropped s) (bytesReceived s) (gapsDetected s) (u64 (duplicatesIgnored s + 1)) (endOfSession s).
Definition ended (s : FeedStats) : FeedStats :=
  mkStats (packetsReceived s) (packetsDropped s) (bytesReceived s) (gapsDetected s) (duplicatesIgnored s) (u64 (endOfSession s + 1)).
End FeedStats.

(** The locals of the loop that survive an iteration. *)
Record tracker := mkTracker { activeSession : bytes; sessionInit : bool; nextExpected : Z }.
Definition tracker0 : tracker := mkTracker (replicate 10 0) false 1.
Definition set_next (n : Z) (t : tracker) : tracker := mkTracker (activeSession t) (sessionInit t) n.

Inductive verdict := EndOfSession | Heartbeat | Duplicate | Accepted.
#[export] Instance verdict_eq_dec : EqDecision verdict.
Proof. solve_decision. Defined.

(** The branches on a parsed header. *)
Definition track (hdr : MoldHeader) (t : tracker) (s : FeedStats) : verdict * tracker * FeedStats :=
  let t := if sessionInit t then t else mkTracker (session hdr) true (sequenceNumber hdr) in
  if messageCount hdr =? kMoldEndOfSession then (EndOfSession, t, FeedStats.ended s)
  else if messageCount hdr =? kMoldHeartbeat then (Heartbeat, t, s)
  else if sequenceNumber hdr <? nextExpected t then (Duplicate, t, FeedStats.duplicate s)
  else
    let '(t, s) := if nextExpected t <? sequenceNumber hdr
                   then (set_next (sequenceNumber hdr) t, FeedStats.gap s) else (t, s) in
    (Accepted, set_next (u64 (nextExpected t + messageCount hdr)) t, s).

(** What the thread works on: the pool and the ring it shares with the engine,
    the counters, and its tracker. *)
Record feed := mkFeed { pkts : PacketPool; queue : SpscRing PacketRef; stats : FeedStats; trk : tracker }.

Inductive recv_result := Received (payload : bytes) | Interrupted | RecvFailed.
Inductive control := Continue | Break | PushSentinel (sentinel : PacketRef).

Module FeedHandler.

Definition set_data (d : bytes) (s : BufferSlot) : BufferSlot := mkSlot d (length_ s) (nextFree s).
Definition set_length (n : Z) (s : BufferSlot) : BufferSlot := mkSlot (data s) n (nextFree s).

(** [recv(sock, slot.data, kMaxPacketBytes, 0)] having stored [payload]. *)
Definition recv_into (payload : bytes) (slotIdx : Z) (p : PacketPool) : result PacketPool :=
  slot ← PacketPool.get p slotIdx;
  d ← write_bytes 0 payload (data slot);
  PacketPool.modify (set_data d) slotIdx p.

(** The iteration when the pool is empty: receive into a throwaway buffer. *)
Definition starved (r : recv_result) (st : feed) : feed :=
  match r with
  | Received payload =>
      let n := Z.of_nat (length payload) in
      if n <=? 0 then st
      else mkFeed (pkts st) (queue st) (FeedStats.received n (FeedStats.dropped (stats st))) (trk st)
  | _ => st
  end.

(** The rest of an iteration that acquired [slotIdx]. *)
Definition receive (slotIdx : Z) (r : recv_result) (tWire : Z) (st : feed) : result (control * feed) :=
  match r with
  | Interrupted =>
      p ← PacketPool.release slotIdx (pkts st);
      Ok (Continue, mkFeed p (queue st) (stats st) (trk st))
  | RecvFailed =>
      p ← PacketPool.release slotIdx (pkts st);
      Ok (Break, mkFeed p (queue st) (stats st) (trk st))
  | Received payload =>
      p ← recv_into payload slotIdx (pkts st);
      let n := Z.of_nat (length payload) in
      if n <? kMoldHeaderBytes then
        p ← PacketPool.release slotIdx p;
        Ok (Continue, mkFeed p (queue st) (stats st) (trk st))
      else
        p ← PacketPool.modify (set_length (u16 n)) slotIdx p;
        let s := FeedStats.received n (stats st) in
        slot ← PacketPool.get p slotIdx;
        hdr ← parseMoldHeader (data slot);
        let '(v, t, s) := track hdr (trk st) s in
        match v with
        | EndOfSession =>
            p ← PacketPool.release slotIdx p;
            Ok (PushSentinel (mkRef kPoolInvalid tWire), mkFeed p (queue st) s t)
        | Heartbeat | Duplicate =>
            p ← PacketPool.release slotIdx p;
            Ok (Continue, mkFeed p (queue st) s t)
        | Accepted =>
            '(pushed, q) ← SpscRing.push (mkRef slotIdx tWire) (queue st);
            if pushed : bool then Ok (Continue, mkFeed p q s t)
            else
              p ← PacketPool.release slotIdx p;
              Ok (Continue, mkFeed p q (FeedStats.dropped s) t)
        end
  end.
End FeedHandler.

(** ** What the tracker accepts *)

(** The headers accepted out of a sequence of received ones. *)
Fixpoint track_all (hs : list MoldHeader) (t : tracker) (s : FeedStats) : list MoldHeader * tracker * FeedStats :=
  match hs with
  | [] => ([], t, s)
  | h :: hs =>
      let '(v, t, s) := track h t s in
      let '(acc, t, s) := track_all hs t s in
      (match v with Accepted => h :: acc | _ => acc end, t, s)
  end.

Definition end_seq (h : MoldHeader) : Z := sequenceNumber h + messageCount h.
Definition is_data (h : MoldHeader) : bool :=
  negb (messageCount h =? kMoldEndOfSession) && negb (messageCount h =? kMoldHeartbeat).
(** Fields of their widths, and the last message number representable. *)
Definition header_ok (h : MoldHeader) : Prop :=
  0 <= sequenceNumber h /\ 0 <= messageCount h < 65536 /\ end_seq h < 2 ^ 64.

(** From message number [n] on: the packets in order without overlap, the
    number after the last, and how many gaps there are in between. *)
Fixpoint in_order (n : Z) (acc : list MoldHeader) : Prop :=
  match acc with
  | [] => True
  | h :: acc => n <= sequenceNumber h /\ in_order (end_seq h) acc
  end.
Definition reached (n : Z) (acc : list MoldHeader) : Z := foldl (fun _ h => end_seq h) n acc.
Fixpoint gaps (n : Z) (acc : list MoldHeader) : Z :=
  match acc with
  | [] => 0
  | h :: acc => (if n <? sequenceNumber h then 1 else 0) + gaps (end_seq h) acc
  end.

(** The tracker once a session is known. *)
Definition tracking (s : bytes) (n : Z) : tracker := mkTracker s true n.

(** The numbers an accepted packet moves. *)
Lemma track_accepted h s n st :
  header_ok h -> is_data h = true -> 0 <= n <= sequenceNumber h ->
  track h (tracking s n) st =
  (Accepted, tracking s (end_seq h), if n <? sequenceNumber h then FeedStats.gap st else st).
Proof.
  unfold header_ok, end_seq, is_data, track, tracking; intros Hh Hd Hn; cbn [sessionInit nextExpected activeSession].
  apply andb_true_iff in Hd as [H1%negb_true_iff H2%negb_true_iff]. rewrite H1, H2.
  destruct (Z.ltb_spec (sequenceNumber h) n); [lia|].
  destruct (Z.ltb_spec n (sequenceNumber h)); unfold set_next; cbn [sessionInit nextExpected activeSession];
    rewrite u64_small by lia; [done|]. by replace n with (sequenceNumber h) by lia.
Qed.

Lemma track_duplicate h s n st :
  is_data h = true -> sequenceNumber h < n ->
  track h (tracking s n) st = (Duplicate, tracking s n, FeedStats.duplicate st).
Proof.
  unfold is_data, track, tracking; intros Hd Hn; cbn [sessionInit nextExpected].
  apply andb_true_iff in Hd as [H1%negb_true_iff H2%negb_true_iff]. rewrite H1, H2.
  by destruct (Z.ltb_spec (sequenceNumber h) n); [|lia].
Qed.

Lemma track_control h s n st :
  is_data h = false -> exists v st', track h (tracking s n) st = (v, tracking s n, st') /\ v <> Accepted /\
    gapsDetected st' = gapsDetected st /\ duplicatesIgnored st' = duplicatesIgnored st /\ packetsDropped st' = packetsDropped st.
Proof.
  unfold is_data, track, tracking; intros Hd; cbn [sessionInit nextExpected].
  apply andb_false_iff in Hd. destruct (messageCount h =? kMoldEndOfSession); [by do 2 eexists|].
  destruct (messageCount h =? kMoldHeartbeat); [by do 2 eexists | by destruct Hd].
Qed.

(** Before the session is known the first header fixes it. *)
Lemma track_first h t st : sessionInit t = false -> track h t st = track h (tracking (session h) (sequenceNumber h)) st.
Proof. intros Hi. unfold track, tracking. by rewrite Hi. Qed.

Lemma u64_is a : is_u64 (u64 a).
Proof. apply Z.mod_pos_bound; lia. Qed.

Lemma u64_add_l a b : u64 (u64 a + b) = u64 (a + b).
Proof. unfold u64. by rewrite Z.add_mod_idemp_l by lia. Qed.

(** Everything at once, from a known session on. *)
Lemma track_all_ok hs s n st :
  Forall header_ok hs -> 0 <= n -> is_u64 (gapsDetected st) -> is_u64 (duplicatesIgnored st) ->
  exists acc st', track_all hs (tracking s n) st = (acc, tracking s (reached n acc), st') /\
    acc `sublist_of` filter (fun h => is_data h = true) hs /\ in_order n acc /\
    gapsDetected st' = u64 (gapsDetected st + gaps n acc) /\
    duplicatesIgnored st' = u64 (duplicatesIgnored st + (Z.of_nat (length (filter (fun h => is_data h = true) hs)) - Z.of_nat (length acc))).
Proof.
  intros Hok; revert n st; induction Hok as [|h hs Hh Hok IH]; intros n st Hn Hg0 Hd0.
  { exists [], st. split_and!; simpl; try done; rewrite Z.add_0_r, u64_small by done; done. }
  cbn [track_all]. destruct (is_data h) eqn:Hd.
  - rewrite filter_cons_True by done. destruct (Z.le_gt_cases n (sequenceNumber h)) as [Hle|Hlt].
    + rewrite track_accepted by (done || lia). set (st1 := if _ <? _ then _ else _).
      destruct (IH (end_seq h) st1) as (acc & st' & -> & Hsub & Hord & Hg & Hdup);
        [unfold header_ok, end_seq in *; lia | unfold st1; case_match; [apply u64_is | done] | unfold st1; by case_match |].
      exists (h :: acc), st'. split_and!; simpl; try done; [by constructor | |].
      * rewrite Hg. unfold st1. destruct (Z.ltb_spec n (sequenceNumber h)); simpl; [rewrite u64_add_l|]; f_equal; lia.
      * rewrite Hdup. unfold st1. destruct (_ <? _); simpl; f_equal; lia.
    + rewrite track_duplicate by (done || lia).
      destruct (IH n (FeedStats.duplicate st) Hn) as (acc & st' & -> & Hsub & Hord & Hg & Hdup); [done | apply u64_is |].
      exists acc, st'. split_and!; simpl; try done; [by apply sublist_cons|].
      rewrite Hdup. simpl. rewrite u64_add_l. f_equal. lia.
  - rewrite filter_cons_False by congruence. destruct (track_control h s n st Hd) as (v & st1 & -> & Hv & E1 & E2 & _).
    rewrite <-E1 in Hg0. rewrite <-E2 in Hd0. destruct (IH n st1 Hn Hg0 Hd0) as (acc & st' & -> & Hsub & Hord & Hg & Hdup).
    rewrite E1 in Hg. rewrite E2 in Hdup. exists acc, st'. split_and!; try done. by destruct v.
Qed.

Lemma gaps_bound n acc : 0 <= gaps n acc <= Z.of_nat (length acc).
Proof. revert n; induction acc as [|h acc IH]; intros n; simpl; [lia|]. specialize (IH (end_seq h)). case_match; lia. Qed.

Lemma reached_nonneg n acc : 0 <= n -> Forall header_ok acc -> 0 <= reached n acc.
Proof.
  intros Hn Hacc; revert n Hn; induction Hacc as [|h acc Hh _ IH]; intros n Hn; simpl; [done|].
  apply IH. unfold header_ok, end_seq in *; lia.
Qed.

Lemma gaps_nil n acc : in_order n acc -> gaps n acc = 0 <->
  forall acc1 h acc2, acc = acc1 ++ h :: acc2 -> sequenceNumber h = reached n acc1.
Proof.
  revert n; induction acc as [|h acc IH]; simpl; intros n Ho.
  { split; [|done]. intros _ [|??] ?? [=]. }
  destruct Ho as [Hle Ho]. pose proof (gaps_bound (end_seq h) acc). specialize (IH _ Ho). split.
  - intros Hg acc1 h' acc2 E. destruct (Z.ltb_spec n (sequenceNumber h)); [lia|].
    destruct acc1 as [|h1 acc1]; injection E as -> ->; [simpl; lia|]. simpl. eapply IH; [lia | done].
  - intros Hall. rewrite (Hall [] h acc eq_refl). unfold reached at 1; simpl. rewrite Z.ltb_irrefl, Z.add_0_l.
    apply IH. intros acc1 h' acc2 ->. by apply (Hall (h :: acc1) h' acc2).
Qed.

Lemma track_all_app hs1 hs2 t s :
  track_all (hs1 ++ hs2) t s =
  let '(acc1, t, s) := track_all hs1 t s in
  let '(acc2, t, s) := track_all hs2 t s in (acc1 ++ acc2, t, s).
Proof.
  revert t s; induction hs1 as [|h hs1 IH]; intros t s; simpl.
  - by destruct (track_all hs2 t s) as [[??]?].
  - destruct (track h t s) as [[v t1] s1]. rewrite IH. destruct (track_all hs1 t1 s1) as [[a1 t2] s2].
    destruct (track_all hs2 t2 s2) as [[a2 t3] s3]. by destruct v.
Qed.

Definition accepted (hs : list MoldHeader) : list MoldHeader := (track_all hs tracker0 FeedStats.new).1.1.

Lemma track_all_first h0 hs : track_all (h0 :: hs) tracker0 FeedStats.new =
  track_all (h0 :: hs) (tracking (session h0) (sequenceNumber h0)) FeedStats.new.
Proof. cbn [track_all]. by rewrite track_first. Qed.

(** ** One datagram *)

(** Parsing reads the first 20 bytes only, and those suffice. *)
Lemma parse_prefix a b : (20 <= length a)%nat -> exists h, parseMoldHeader a = Ok h /\ parseMoldHeader (a ++ b) = Ok h.
Proof.
  intros Hl. do 20 (destruct a as [|? a]; [simpl in Hl; lia|]).
  unfold parseMoldHeader, read_bytes, load64. cbn [app drop take length Nat.leb load32 load16].
  rewrite !bind_ok; cbv beta zeta. by eexists.
Qed.

(** The header of a datagram. *)
Definition header_of (payload : bytes) : MoldHeader :=
  match parseMoldHeader payload with Ok h => h | Err _ => mkMold [] 0 0 end.

Lemma parse_header_of a b : (20 <= length a)%nat -> parseMoldHeader (a ++ b) = Ok (header_of a).
Proof. intros Hl. unfold header_of. by destruct (parse_prefix a b Hl) as (h & -> & ->). Qed.

(** Slot [i] holds the datagram [payload]. *)
Definition slot_holds (p : PacketPool) (i : Z) (payload : bytes) : Prop :=
  take (length payload) (data (vnth (slots p) i)) = payload /\ length_ (vnth (slots p) i) = Z.of_nat (length payload).

(** The other slots keep their datagrams. *)
Definition same_but (i : Z) (p p' : PacketPool) : Prop :=
  vlen (slots p') = vlen (slots p) /\
  forall j, j <> i -> data (vnth (slots p') j) = data (vnth (slots p) j) /\ length_ (vnth (slots p') j) = length_ (vnth (slots p) j).

Lemma slot_holds_same i j p p' payload : same_but i p p' -> j <> i -> slot_holds p j payload -> slot_holds p' j payload.
Proof. intros [_ H] Hj. unfold slot_holds. by destruct (H j Hj) as [-> ->]. Qed.

Lemma same_but_trans i p1 p2 p3 : same_but i p1 p2 -> same_but i p2 p3 -> same_but i p1 p3.
Proof.
  intros [L1 H1] [L2 H2]. split; [congruence|]. intros j Hj. destruct (H1 j Hj), (H2 j Hj). split; congruence.
Qed.

Section receive.
Context (cap : Z) (Hcap : is_capacity cap).
Implicit Types (st : feed) (F : list Z) (q : list PacketRef).

(** Pool and ring are well-formed, with free slots [F] and contents [q]. *)
Record feed_ok st F q : Prop := {
  fo_pool : pool_rep (pkts st) F;
  fo_ring : ring_rep cap (queue st) q;
  fo_data : forall i, length (data (vnth (slots (pkts st)) i)) = Z.to_nat kMaxPacketBytes
}.

Definition owned st F i : Prop := 0 <= i < vlen (slots (pkts st)) /\ (i ∉ F).

Definition wire_ok (payload : bytes) : Prop := Z.of_nat (length payload) <= kMaxPacketBytes.

(** Returning the slot, after whatever was stored in it. *)
Lemma give_back p p' F i :
  pool_rep p F -> same_but i p p' -> freeHead p' = freeHead p ->
  (forall j, nextFree (vnth (slots p') j) = nextFree (vnth (slots p) j)) ->
  0 <= i < vlen (slots p) -> (i ∉ F) ->
  exists p'', PacketPool.release i p' = Ok p'' /\ pool_rep p'' (i :: F) /\ same_but i p p'' /\
    forall j, data (vnth (slots p'') j) = data (vnth (slots p') j).
Proof using.
  intros [Hf Hc Hn] Hs Hh Hx Hi HF. pose proof Hs as [Hl Hd].
  assert (Hp' : pool_rep p' F).
  { split; [by rewrite Hl | | done]. rewrite Hh. clear -Hc Hx Hl. revert Hc; generalize (freeHead p).
    induction F as [|j F IH]; simpl; [done|]. intros h (-> & Hj & Hc). rewrite Hl, Hx. auto. }
  destruct (release_rep i p' F Hp') as (p'' & E & Hp'' & Hd'' & Hl''); [by rewrite Hl | done |].
  exists p''. split_and!; [done | done | | apply Hd'']. eapply same_but_trans; [done|]. split; [done | auto].
Qed.
Lemma recv_into_ok payload i p :
  0 <= i < vlen (slots p) -> length (data (vnth (slots p) i)) = Z.to_nat kMaxPacketBytes -> wire_ok payload ->
  FeedHandler.recv_into payload i p =
  Ok (mkPackets (vupd (slots p) i
        (FeedHandler.set_data (payload ++ drop (length payload) (data (vnth (slots p) i))) (vnth (slots p) i))) (freeHead p)).
Proof using.
  unfold wire_ok, kMaxPacketBytes; intros Hi Hd Hw. unfold FeedHandler.recv_into, PacketPool.get.
  rewrite vget_ok, bind_ok by done; cbv beta. unfold write_bytes. rewrite Hd.
  destruct (Nat.leb_spec (0 + length payload) (Z.to_nat 2048)); [|lia]. rewrite bind_ok; cbv beta.
  by rewrite packet_modify_ok.
Qed.

(** The pool after a datagram was stored in slot [i]. *)
Definition stored (payload : bytes) (i : Z) (p : PacketPool) : PacketPool :=
  mkPackets (vupd (slots p) i
    (mkSlot (payload ++ drop (length payload) (data (vnth (slots p) i))) (Z.of_nat (length payload)) (nextFree (vnth (slots p) i))))
    (freeHead p).

Lemma stored_same payload i p : same_but i p (stored payload i p).
Proof using. split; [done|]. intros j Hj. unfold stored; simpl. by rewrite vnth_vupd_ne. Qed.

Lemma stored_next payload i p j : nextFree (vnth (slots (stored payload i p)) j) = nextFree (vnth (slots p) j).
Proof using. unfold stored; simpl. rewrite vnth_vupd. case_decide; by subst. Qed.

Lemma stored_holds payload i p : slot_holds (stored payload i p) i payload.
Proof using. unfold slot_holds, stored; simpl. rewrite vnth_vupd_eq; simpl. by rewrite take_app_length. Qed.

Lemma stored_data payload i p j :
  (forall k, length (data (vnth (slots p) k)) = Z.to_nat kMaxPacketBytes) -> wire_ok payload ->
  length (data (vnth (slots (stored payload i p)) j)) = Z.to_nat kMaxPacketBytes.
Proof using.
  unfold wire_ok, kMaxPacketBytes; intros Hd Hw. unfold stored; simpl. rewrite vnth_vupd. case_decide; [|apply Hd].
  simpl. rewrite length_app, length_drop, Hd. lia.
Qed.

(** [receive] of a datagram with a header, up to the tracker's verdict. *)
Lemma receive_unfold st F q i payload tw :
  feed_ok st F q -> owned st F i -> wire_ok payload -> (20 <= length payload)%nat ->
  FeedHandler.receive i (Received payload) tw st =
  let p := stored payload i (pkts st) in
  let '(v, t, s) := track (header_of payload) (trk st) (FeedStats.received (Z.of_nat (length payload)) (stats st)) in
  match v with
  | EndOfSession => p ← PacketPool.release i p; Ok (PushSentinel (mkRef kPoolInvalid tw), mkFeed p (queue st) s t)
  | Heartbeat | Duplicate => p ← PacketPool.release i p; Ok (Continue, mkFeed p (queue st) s t)
  | Accepted =>
      '(pushed, q) ← SpscRing.push (mkRef i tw) (queue st);
      if pushed : bool then Ok (Continue, mkFeed p q s t)
      else p ← PacketPool.release i p; Ok (Continue, mkFeed p q (FeedStats.dropped s) t)
  end.
Proof using.
  intros [Hp Hq Hd] [Hi HF] Hw Hl. unfold FeedHandler.receive.
  rewrite recv_into_ok, bind_ok by done; cbv beta zeta.
  destruct (Z.ltb_spec (Z.of_nat (length payload)) kMoldHeaderBytes); [unfold kMoldHeaderBytes in *; lia|].
  rewrite packet_modify_ok, bind_ok by done; cbv beta. cbn [slots freeHead]. rewrite vnth_vupd_eq, vupd_vupd.
  rewrite u16_small by (unfold wire_ok, kMaxPacketBytes in Hw; lia).
  unfold FeedHandler.set_length, FeedHandler.set_data; cbn [data length_ nextFree]. fold (stored payload i (pkts st)).
  unfold PacketPool.get. rewrite vget_ok, bind_ok by done; cbv beta.
  replace (data (vnth (slots (stored payload i (pkts st))) i)) with (payload ++ drop (length payload) (data (vnth (slots (pkts st)) i)))
    by (unfold stored; cbn [slots]; by rewrite vnth_vupd_eq).
  by rewrite parse_header_of, bind_ok.
Qed.

(** The tracker's verdict on a datagram. *)
Definition judge st (payload : bytes) : verdict * tracker * FeedStats :=
  track (header_of payload) (trk st) (FeedStats.received (Z.of_nat (length payload)) (stats st)).

(** Accepted, and the ring has room: the slot travels on, holding the datagram. *)
Lemma receive_queued st F q i payload tw t s :
  feed_ok st F q -> owned st F i -> wire_ok payload -> (20 <= length payload)%nat ->
  judge st payload = (Accepted, t, s) -> Z.of_nat (length q) < cap - 1 ->
  exists st', FeedHandler.receive i (Received payload) tw st = Ok (Continue, st') /\
    feed_ok st' F (q ++ [mkRef i tw]) /\ same_but i (pkts st) (pkts st') /\ slot_holds (pkts st') i payload /\
    trk st' = t /\ stats st' = s /\ (SpscRing.tail (queue st') =? SpscRing.tail (queue st)) = false.
Proof using Hcap.
  intros H Hi Hw Hl Hj Hroom. rewrite (receive_unfold st F q) by done. fold (judge st payload). rewrite Hj. cbv zeta iota beta.
  destruct (push_rep cap Hcap (queue st) q (mkRef i tw) (fo_ring _ _ _ H)) as (r' & E & Hr).
  pose proof (push_tail cap Hcap _ _ _ _ _ (fo_ring _ _ _ H) E) as Htl.
  rewrite E, bool_decide_eq_true_2 in * by done. rewrite bind_ok; cbv beta iota.
  eexists; split; [done|]. cbn [pkts trk stats queue]. destruct H as [Hp _ Hd], Hi as [Hi HF].
  split_and!; [|apply stored_same | apply stored_holds | done | done | exact Htl].
  split; cbn [pkts queue]; [|done | intros; by apply stored_data].
  destruct Hp as [Hf Hc Hn]. split; [done | | done]. by apply chain_upd.
Qed.

(** The slot comes back: the datagram was not accepted, or the ring is full. *)
Lemma receive_returned st F q i payload tw v t s :
  feed_ok st F q -> owned st F i -> wire_ok payload -> (20 <= length payload)%nat ->
  judge st payload = (v, t, s) -> (v = Accepted -> cap - 1 <= Z.of_nat (length q)) ->
  exists st', FeedHandler.receive i (Received payload) tw st =
      Ok (match v with EndOfSession => PushSentinel (mkRef kPoolInvalid tw) | _ => Continue end, st') /\
    feed_ok st' (i :: F) q /\ same_but i (pkts st) (pkts st') /\
    trk st' = t /\ stats st' = (match v with Accepted => FeedStats.dropped s | _ => s end) /\
    (SpscRing.tail (queue st') =? SpscRing.tail (queue st)) = true.
Proof using Hcap.
  intros H Hi Hw Hl Hj Hfull. rewrite (receive_unfold st F q) by done. fold (judge st payload). rewrite Hj. cbv zeta iota beta.
  destruct (push_rep cap Hcap (queue st) q (mkRef i tw) (fo_ring _ _ _ H)) as (r' & E & Hr).
  pose proof (push_tail cap Hcap _ _ _ _ _ (fo_ring _ _ _ H) E) as Htl. destruct H as [Hp Hq Hd], Hi as [Hi HF].
  destruct (give_back (pkts st) (stored payload i (pkts st)) F i Hp (stored_same _ _ _) eq_refl (stored_next _ _ _) Hi HF)
    as (p' & E' & Hp' & Hs' & Hd'). rewrite E'.
  assert (Hdd : forall j, length (data (vnth (slots p') j)) = Z.to_nat kMaxPacketBytes)
    by (intros j; rewrite Hd'; by apply stored_data).
  destruct v; rewrite ?bind_ok; cbv beta.
  1-3: solve [eexists; split; [done|]; split_and!; [by split | done | done | done | apply Z.eqb_refl]].
  specialize (Hfull eq_refl). rewrite E, bool_decide_eq_false_2 in * by lia. rewrite bind_ok; cbv beta iota.
  eexists; split; [done|]; split_and!; done.
Qed.

(** Nothing usable was received. *)
Lemma receive_nothing st F q i r tw :
  feed_ok st F q -> owned st F i ->
  match r with Received payload => (length payload < 20)%nat | _ => True end ->
  exists st', FeedHandler.receive i r tw st = Ok (match r with RecvFailed => Break | _ => Continue end, st') /\
    feed_ok st' (i :: F) q /\ same_but i (pkts st) (pkts st') /\ trk st' = trk st /\ stats st' = stats st /\
    queue st' = queue st.
Proof using.
  intros [Hp Hq Hd] [Hi HF] Hr.
  assert (Hback : forall p', same_but i (pkts st) p' -> freeHead p' = freeHead (pkts st) ->
    (forall j, nextFree (vnth (slots p') j) = nextFree (vnth (slots (pkts st)) j)) ->
    (forall j, length (data (vnth (slots p') j)) = Z.to_nat kMaxPacketBytes) ->
    exists p'', PacketPool.release i p' = Ok p'' /\
      feed_ok (mkFeed p'' (queue st) (stats st) (trk st)) (i :: F) q /\ same_but i (pkts st) p'').
  { intros p' H1 H2 H3 H4. destruct (give_back (pkts st) p' F i Hp H1 H2 H3 Hi HF) as (p'' & E & Hp'' & Hs & Hd'').
    exists p''. split_and!; try done. split; simpl; try done. intros j. by rewrite Hd''. }
  unfold FeedHandler.receive. destruct r as [payload| |].
  - rewrite recv_into_ok, bind_ok by (done || (unfold wire_ok, kMaxPacketBytes; lia)); cbv beta zeta.
    destruct (Z.ltb_spec (Z.of_nat (length payload)) kMoldHeaderBytes); [|unfold kMoldHeaderBytes in *; lia].
    edestruct Hback as (p'' & E & Hf & Hs); [| | | |rewrite E, bind_ok; cbv beta; by eexists]; simpl; try done.
    + split; [done|]. intros j Hj. simpl. by rewrite vnth_vupd_ne.
    + intros j. rewrite vnth_vupd. case_decide; by subst.
    + intros j. rewrite vnth_vupd. case_decide; [|done]. simpl. rewrite length_app, length_drop, Hd.
      unfold kMaxPacketBytes. lia.
  - destruct (Hback (pkts st)) as (p'' & E & Hf & Hs); try done. rewrite E, bind_ok; cbv beta. by eexists.
  - destruct (Hback (pkts st)) as (p'' & E & Hf & Hs); try done. rewrite E, bind_ok; cbv beta. by eexists.
Qed.

Lemma feed_new n p r s t : 0 < n <= kPoolInvalid -> PacketPool.new n = Ok p -> SpscRing.new (mkRef 0 0) cap = Ok r ->
  feed_ok (mkFeed p r s t) (seqZ 0 n) [] /\ vlen (slots p) = n.
Proof using Hcap.
  intros Hn Ep Er. destruct (packet_pool_new n Hn) as (p' & Ep' & Hl & Hp). rewrite Ep in Ep'; injection Ep' as <-.
  split; [|done]. split; simpl; [done | by eapply new_rep |].
  intros i. by rewrite (packet_pool_data n p i Ep), length_replicate.
Qed.
End receive.

(** ** Properties *)

(** C10: sequence tracking, for headers whose message numbers do not reach
    2^64: the accepted packets are data packets in the order received, from the
    first header's number on, in increasing message order and without overlap;
    a data packet is accepted exactly if it does not start before what was
    reached; and the counters are exact: gaps, and data packets not accepted.
    With no gap counted every accepted packet starts where the previous ended. *)
Theorem feed_sequence h0 hs :
  let all := h0 :: hs in let n := sequenceNumber h0 in
  Forall header_ok all -> Z.of_nat (length all) < 2 ^ 64 ->
  exists t s, track_all all tracker0 FeedStats.new = (accepted all, t, s) /\
    accepted all `sublist_of` filter (fun h => is_data h = true) all /\ in_order n (accepted all) /\
    (forall pre h post, all = pre ++ h :: post -> pre <> [] -> is_data h = true ->
       accepted (pre ++ [h]) = accepted pre ++ (if bool_decide (reached n (accepted pre) <= sequenceNumber h) then [h] else [])) /\
    nextExpected t = reached n (accepted all) /\
    gapsDetected s = gaps n (accepted all) /\
    duplicatesIgnored s = Z.of_nat (length (filter (fun h => is_data h = true) all)) - Z.of_nat (length (accepted all)) /\
    (gapsDetected s = 0 <-> forall acc1 h acc2, accepted all = acc1 ++ h :: acc2 -> sequenceNumber h = reached n acc1).
Proof.
  intros all n Hok Hlen. assert (Hn : 0 <= n) by (apply Forall_cons in Hok as [[? _] _]; done).
  assert (H0 : is_u64 0) by (unfold is_u64; lia).
  destruct (track_all_ok all (session h0) n FeedStats.new Hok Hn H0 H0) as (acc & st & E & Hsub & Hord & Hg & Hd).
  assert (Ea : track_all all tracker0 FeedStats.new = (acc, tracking (session h0) (reached n acc), st))
    by (unfold all; rewrite track_all_first; exact E).
  unfold accepted. rewrite Ea. cbn [fst].
  do 2 eexists; split; [done|]. pose proof (sublist_length _ _ Hsub) as Hl.
  pose proof (length_filter (fun h => is_data h = true) all) as Hf. pose proof (gaps_bound n acc).
  simpl in Hg, Hd. rewrite u64_small in Hg, Hd by lia.
  split_and!; try done; [|rewrite Hg; by apply gaps_nil].
  intros pre h post Eall Hpre Hh. destruct pre as [|h1 pre]; [done|]. injection Eall as <- Ehs.
  cbn [app]. rewrite !track_all_first. rewrite app_comm_cons, track_all_app.
  assert (Hok1 : Forall header_ok (h0 :: pre) /\ header_ok h).
  { unfold all in Hok. rewrite Ehs, app_comm_cons in Hok. apply Forall_app in Hok as [H1 H2]. split; [done|]. by apply Forall_cons in H2 as [? _]. }
  destruct Hok1 as [Hok1 Hokh].
  destruct (track_all_ok (h0 :: pre) (session h0) n FeedStats.new Hok1 Hn H0 H0) as (acc1 & st1 & E1 & Hsub1 & _).
  fold n. rewrite E1. cbn [track_all fst]. case_bool_decide as Hc.
  - rewrite track_accepted; [done..|]. split; [|done]. apply reached_nonneg; [done|].
    rewrite Forall_forall in Hok1 |- *. intros h' Hin. apply Hok1.
    by apply (sublist_subseteq _ _ Hsub1), list_elem_of_filter in Hin as [_ ?].
  - by rewrite track_duplicate by (done || lia).
Qed.

(** In order, a repetition, a gap, a heartbeat and a late packet. *)
Definition headers5 : list MoldHeader :=
  [mkMold [] 7 2; mkMold [] 7 2; mkMold [] 12 3; mkMold [] 15 0; mkMold [] 9 1].

Lemma feed_sequence_witness :
  accepted headers5 = [mkMold [] 7 2; mkMold [] 12 3] /\
  exists t s, track_all headers5 tracker0 FeedStats.new = (accepted headers5, t, s) /\
    nextExpected t = 15 /\ gapsDetected s = 1 /\ duplicatesIgnored s = 2.
Proof.
  split; [vm_compute; reflexivity|].
  destruct (feed_sequence (mkMold [] 7 2) (tl headers5)) as (t & s & E & _ & _ & _ & Hn & Hg & Hd & _).
  - repeat constructor; discriminate.
  - reflexivity.
  - exists t, s. split; [exact E|]. split; [rewrite Hn; vm_compute; reflexivity|].
    split; [rewrite Hg; vm_compute; reflexivity | rewrite Hd; vm_compute; reflexivity].
Defined.

(** C34: a packet dropped because the ring is full is counted as dropped but is
    never seen as a gap: the tracker has moved past it, so that the next packet
    of the sequence is accepted without one. *)
Theorem ring_full_loss_is_no_gap cap st F q i payload tw sid next :
  is_capacity cap -> feed_ok cap st F q -> owned st F i -> Z.of_nat (length q) = cap - 1 ->
  wire_ok payload -> (20 <= length payload)%nat -> header_ok (header_of payload) -> is_data (header_of payload) = true ->
  trk st = tracking sid (sequenceNumber (header_of payload)) ->
  header_ok (header_of next) -> is_data (header_of next) = true ->
  sequenceNumber (header_of next) = end_seq (header_of payload) ->
  exists st', FeedHandler.receive i (Received payload) tw st = Ok (Continue, st') /\ feed_ok cap st' (i :: F) q /\
    packetsDropped (stats st') = u64 (packetsDropped (stats st) + 1) /\ gapsDetected (stats st') = gapsDetected (stats st) /\
    exists t s, judge st' next = (Accepted, t, s) /\ gapsDetected s = gapsDetected (stats st).
Proof.
  intros Hcap H Hi Hfull Hw Hl Hh Hd Ht Hh' Hd' Hseq.
  assert (Ej : judge st payload = (Accepted, tracking sid (end_seq (header_of payload)),
    FeedStats.received (Z.of_nat (length payload)) (stats st))).
  { unfold judge. rewrite Ht, track_accepted by (done || (unfold header_ok in Hh; lia)). by rewrite Z.ltb_irrefl. }
  destruct (receive_returned cap Hcap st F q i payload tw _ _ _ H Hi Hw Hl Ej) as (st' & E & Hf & Hs & Et & Es & _); [lia|].
  exists st'. rewrite Es. split_and!; try done. do 2 eexists. split.
  - unfold judge. rewrite Et. apply track_accepted; [done | done |]. unfold header_ok, end_seq in *; lia.
  - rewrite Hseq, Z.ltb_irrefl, Es. done.
Qed.

(** A ring for one packet, holding one; two consecutive packets of one message. *)
Definition datagram (seq : Z) : bytes := packet (replicate 10 65) seq 1 [[83]].

Lemma full_feed : exists st, feed_ok 2 st [2] [mkRef 0 5] /\ vlen (slots (pkts st)) = 3 /\
  trk st = tracking (replicate 10 65) 8 /\ stats st = mkStats 1 0 23 0 0 0.
Proof.
  assert (Hcap : is_capacity 2) by (exists 1; split; [lia | done]).
  destruct (packet_pool_new 3) as (p & Ep & Hl & _); [unfold kPoolInvalid, UINT32_MAX; lia|].
  destruct (feed_new 2 Hcap 3 p (mkRing 0 0 1 (vassign 2 (mkRef 0 0))) FeedStats.new tracker0) as [[Hp Hq Hd] _];
    [unfold kPoolInvalid, UINT32_MAX; lia | done | done |].
  destruct (acquire_rep _ _ Hp) as (p1 & _ & Hp1 & Hs1). destruct (acquire_rep _ _ Hp1) as (p2 & _ & Hp2 & Hs2).
  simpl in Hs1. rewrite Hs1 in Hs2.
  destruct (receive_queued 2 Hcap (mkFeed p2 (mkRing 0 0 1 (vassign 2 (mkRef 0 0))) FeedStats.new tracker0) [2] []
    0 (datagram 7) 5 (tracking (replicate 10 65) 8) (mkStats 1 0 23 0 0 0)) as (st & _ & Hf & [Hl' _] & _ & Ht & Hst & _).
  - split; simpl; [exact Hp2 | exact Hq | by rewrite Hs2].
  - split; simpl; [rewrite Hs2; lia | rewrite elem_of_cons, elem_of_nil; lia].
  - vm_compute; discriminate.
  - vm_compute; lia.
  - vm_compute; reflexivity.
  - simpl; lia.
  - exists st. split_and!; try done. simpl in Hl'. by rewrite Hl', Hs2.
Qed.

Lemma ring_full_loss_is_no_gap_witness :
  exists st st', stats st = mkStats 1 0 23 0 0 0 /\ FeedHandler.receive 1 (Received (datagram 8)) 6 st = Ok (Continue, st') /\
    packetsDropped (stats st') = 1 /\ exists t s, judge st' (datagram 9) = (Accepted, t, s) /\ gapsDetected s = 0.
Proof.
  destruct full_feed as (st & Hf & Hl & Ht & Hs).
  destruct (ring_full_loss_is_no_gap 2 st [2] [mkRef 0 5] 1 (datagram 8) 6 (replicate 10 65) (datagram 9))
    as (st' & E & _ & Hd & _ & t & s & Ej & Hg).
  - exists 1. split; [lia | reflexivity].
  - exact Hf.
  - split; [rewrite Hl; lia | rewrite elem_of_cons, elem_of_nil; lia].
  - reflexivity.
  - vm_compute; discriminate.
  - vm_compute; lia.
  - vm_compute; repeat split; discriminate.
  - vm_compute; reflexivity.
  - exact Ht.
  - vm_compute; repeat split; discriminate.
  - vm_compute; reflexivity.
  - vm_compute; reflexivity.
  - exists st, st'. rewrite Hs in Hd, Hg. split; [exact Hs|]. split; [exact E|]. split; [exact Hd|].
    exists t, s. split; [exact Ej | exact Hg].
Defined.
