(* ===== verification/FeedHandlerXdp.v ===== *)
(** The AF_XDP receive path of src/feed_handler_xdp.cpp: parsing raw Ethernet
    frames, what one frame does to the packet pool, the ring and the counters,
    and the bookkeeping of the frame buffers lent to the kernel; with the proofs
    that it is equivalent to the socket path of [FeedHandler] and that no frame
    buffer is lost.

    The kernel's side of the rings and libxdp are outside: a frame is the bytes
    the kernel stored, [desc->len] of them, and what [xsk_ring_prod__reserve]
    grants is an argument. *)
From Stdlib Require Import ZArith Lia.
From stdpp Require Import base numbers gmap list relations.
From S2P Require Import Prelude FlatHashMap Itch MoldUDP64 SpscRing PacketPool FeedHandler.
Open Scope Z_scope.

Definition kNumFrames : Z := 4096.
Definition kFrameSize : Z := 4096.
Definition kBatchSize : Z := 64.
Definition kEthHdrSize : Z := 14.
Definition kIpHdrMin : Z := 20.
Definition kUdpHdrSize : Z := 8.
Definition ETH_P_IP : Z := 2048.
Definition IPPROTO_UDP : Z := 17.

Module FeedHandlerXdp.

(** One byte of the frame. *)
Definition byte_at (off : Z) (frame : bytes) : result Z :=
  match frame !! Z.to_nat off with Some b => Ok b | None => Err UB end.

(** The members of [ethhdr], [iphdr] and [udphdr] that are read. On a
    little-endian host [ihl] is the low and [version] the high nibble. *)
Definition h_proto (frame : bytes) : result Z := v ← load16 (drop 12 frame); Ok (bswap16 v).
Definition ip_version (frame : bytes) : result Z := b ← byte_at kEthHdrSize frame; Ok (Z.shiftr b 4).
Definition ip_ihl (frame : bytes) : result Z := b ← byte_at kEthHdrSize frame; Ok (Z.land b 15).
Definition ip_protocol (frame : bytes) : result Z := byte_at (kEthHdrSize + 9) frame.
Definition udp_dest (udpOffset : Z) (frame : bytes) : result Z :=
  v ← load16 (drop (Z.to_nat (udpOffset + 2)) frame); Ok (bswap16 v).

(** The checks of the layers: the MoldUDP64 packet, or [None] where the loop
    continues with the next frame. *)
Definition moldPacket (port : Z) (frame : bytes) : result (option bytes) :=
  let frameLen := Z.of_nat (length frame) in
  if frameLen <? kEthHdrSize + kIpHdrMin + kUdpHdrSize + kMoldHeaderBytes then Ok None else
  proto ← h_proto frame;
  if negb (proto =? ETH_P_IP) then Ok None else
  version ← ip_version frame;
  if negb (version =? 4) then Ok None else
  ihl ← ip_ihl frame;
  let ipLen := ihl * 4 in
  if ipLen <? kIpHdrMin then Ok None else
  protocol ← ip_protocol frame;
  if negb (protocol =? IPPROTO_UDP) then Ok None else
  let udpOffset := kEthHdrSize + ipLen in
  if frameLen <? udpOffset + kUdpHdrSize + kMoldHeaderBytes then Ok None else
  dest ← udp_dest udpOffset frame;
  if negb (dest =? port) then Ok None else
  moldPkt ← advance (Z.to_nat (udpOffset + kUdpHdrSize)) frame;
  let moldLen := frameLen - udpOffset - kUdpHdrSize in
  if moldLen <? kMoldHeaderBytes then Ok None else
  Ok (Some moldPkt).

(** Copy the packet into a slot of the pool and push its reference. *)
Definition enqueue (moldPkt : bytes) (tWire : Z) (st : feed) : result feed :=
  '(slotIdx, p) ← PacketPool.acquire (pkts st);
  if slotIdx =? kPoolInvalid then Ok (mkFeed p (queue st) (FeedStats.dropped (stats st)) (trk st)) else
  let cpyLen := u16 (Z.min (Z.of_nat (length moldPkt)) kMaxPacketBytes) in
  src ← read_bytes (Z.to_nat cpyLen) moldPkt;
  p ← FeedHandler.recv_into src slotIdx p;
  p ← PacketPool.modify (FeedHandler.set_length cpyLen) slotIdx p;
  '(pushed, q) ← SpscRing.push (mkRef slotIdx tWire) (queue st);
  if pushed : bool then Ok (mkFeed p q (stats st) (trk st))
  else
    p ← PacketPool.release slotIdx p;
    Ok (mkFeed p q (FeedStats.dropped (stats st)) (trk st)).

(** One frame. The branches on the header are those of [track]. *)
Definition receiveFrame (port : Z) (frame : bytes) (tWire : Z) (st : feed) : result (control * feed) :=
  m ← moldPacket port frame;
  match m with
  | None => Ok (Continue, st)
  | Some moldPkt =>
      let s := FeedStats.received (Z.of_nat (length moldPkt)) (stats st) in
      hdr ← parseMoldHeader moldPkt;
      let '(v, t, s) := track hdr (trk st) s in
      let st := mkFeed (pkts st) (queue st) s t in
      match v with
      | EndOfSession => Ok (PushSentinel (mkRef kPoolInvalid tWire), st)
      | Heartbeat | Duplicate => Ok (Continue, st)
      | Accepted => st ← enqueue moldPkt tWire st; Ok (Continue, st)
      end
  end.

(** *** Batches *)

(** [batchAddrs], with [None] where nothing was stored yet. *)
Definition addrs0 : list (option Z) := replicate (Z.to_nat kBatchSize) None.

Definition store_addr (i : nat) (a : Z) (addrs : list (option Z)) : result (list (option Z)) :=
  if (i <? length addrs)%nat then Ok (<[i := Some a]> addrs) else Err UB.

(** The [for] over the received descriptors, an address and its frame each.
    It ends early with the sentinel to push. *)
Fixpoint batch_loop (port tWire : Z) (i : nat) (descs : list (Z * bytes)) (addrs : list (option Z)) (st : feed)
    : result (option PacketRef * list (option Z) * feed) :=
  match descs with
  | [] => Ok (None, addrs, st)
  | (addr, frame) :: descs =>
      addrs ← store_addr i addr addrs;
      '(c, st) ← receiveFrame port frame tWire st;
      match c with
      | PushSentinel ref => Ok (Some ref, addrs, st)
      | _ => batch_loop port tWire (S i) descs addrs st
      end
  end.

(** [for (i = 0; i < got; i++) fill[...] = batchAddrs[i]]; reading an element
    that was never written is undefined. *)
Fixpoint refill (n i : nat) (addrs : list (option Z)) : result (list Z) :=
  match n with
  | O => Ok []
  | S n =>
      match addrs !! i with
      | Some (Some a) => rest ← refill n (S i) addrs; Ok (a :: rest)
      | _ => Err UB
      end
  end.

(** The rings shared with the kernel: addresses it may fill, and received
    descriptors with their frames. *)
Record rings := mkRings { fill : list Z; rx : list (Z * bytes) }.

(** The loop's own state. *)
Record xdp := mkXdp { xrings : rings; batchAddrs : list (option Z); xfeed : feed; done_ : bool; sentinel : option PacketRef }.

Section batch.
(** [reserve used n]: what [xsk_ring_prod__reserve] grants of [n] entries
    while [used] are in the fill ring. *)
Context (reserve : nat -> nat -> nat).

(** One iteration that peeked [rcvd] descriptors. *)
Definition batch (port tWire : Z) (rcvd : nat) (x : xdp) : result xdp :=
  if (rcvd =? 0)%nat then Ok x else
  '(s, addrs, st) ← batch_loop port tWire 0 (take rcvd (rx (xrings x))) (batchAddrs x) (xfeed x);
  let got := reserve (length (fill (xrings x))) rcvd in
  back ← refill got 0 addrs;
  Ok (mkXdp (mkRings (fill (xrings x) ++ back) (drop rcvd (rx (xrings x)))) addrs st (bool_decide (is_Some s)) s).

(** [i * kFrameSize] for every frame. *)
Definition all_frames : list Z := (fun i => i * kFrameSize) <$> seqZ 0 kNumFrames.

(** All frames are handed to the kernel up front. *)
Definition start (st : feed) : xdp := mkXdp (mkRings all_frames []) addrs0 st false None.
End batch.
End FeedHandlerXdp.

(** ** The layers of a frame *)

Definition ip_header_ok (ip : bytes) : Prop :=
  exists b0 rest, ip = b0 :: rest /\ Z.shiftr b0 4 = 4 /\ Z.of_nat (length ip) = Z.land b0 15 * 4 /\
    kIpHdrMin <= Z.of_nat (length ip) /\ ip !! 9%nat = Some IPPROTO_UDP.

(** [frame] is an Ethernet frame of an IPv4 UDP datagram to [port] whose data
    is [payload]; options, addresses, lengths and checksums are arbitrary. *)
Definition carries_udp (port : Z) (frame payload : bytes) : Prop :=
  exists macs ip sport lensum, frame = macs ++ be16 ETH_P_IP ++ ip ++ sport ++ be16 port ++ lensum ++ payload /\
    length macs = 12%nat /\ length sport = 2%nat /\ length lensum = 4%nat /\ ip_header_ok ip.

Import FeedHandlerXdp.

Lemma byte_at_app off pre l b : Z.to_nat off = length pre -> byte_at off (pre ++ b :: l) = Ok b.
Proof. intros H. unfold byte_at. by rewrite H, list_lookup_middle. Qed.

Lemma be16_inv_eth b0 b1 v : is_byte b0 -> is_byte b1 -> bswap16 (le16 b0 b1) = v -> [b0; b1] = be16 v.
Proof. intros H0 H1 <-. by rewrite be16_of_bytes. Qed.

Lemma moldPacket_accepts port frame payload :
  is_u16 port -> carries_udp port frame payload -> (20 <= length payload)%nat -> moldPacket port frame = Ok (Some payload).
Proof.
  intros Hport (macs & ip & sport & lensum & -> & Hm & Hs & Hl & b0 & rest & -> & Hv & Hihl & Hmin & Hp) Hpl.
  remember (b0 :: rest) as ip eqn:Eip in *. unfold moldPacket, kEthHdrSize, kIpHdrMin, kUdpHdrSize, kMoldHeaderBytes, ETH_P_IP, IPPROTO_UDP in *.
  set (frame := macs ++ be16 2048 ++ ip ++ sport ++ be16 port ++ lensum ++ payload).
  assert (Hlen : Z.of_nat (length frame) = 14 + Z.of_nat (length ip) + 8 + Z.of_nat (length payload))
    by (unfold frame; rewrite !length_app, Hm, Hs, Hl; simpl; lia).
  rewrite Hlen. destruct (Z.ltb_spec (14 + Z.of_nat (length ip) + 8 + Z.of_nat (length payload)) (14 + 20 + 8 + 20)); [lia|].
  assert (Eproto : h_proto frame = Ok 2048).
  { unfold h_proto, frame. rewrite (drop_app_length' macs) by done.
    destruct (load16_be16 2048 (ip ++ sport ++ be16 port ++ lensum ++ payload)) as (w & -> & Hw); [unfold is_u16; lia|]. by rewrite bind_ok, Hw. }
  assert (Eb0 : byte_at 14 frame = Ok b0).
  { unfold frame. rewrite (app_assoc macs), Eip. apply byte_at_app. by rewrite length_app, Hm. }
  assert (Eproto' : ip_protocol frame = Ok 17).
  { unfold ip_protocol, byte_at, frame, kEthHdrSize. rewrite (app_assoc macs).
    rewrite lookup_app_r by (rewrite length_app, Hm; simpl; lia).
    rewrite lookup_app_l by (rewrite length_app, Hm; simpl; lia). rewrite length_app, Hm. change (Z.to_nat (14 + 9) - (12 + length (be16 2048)))%nat with 9%nat.
    by rewrite Hp. }
  assert (Edest : udp_dest (14 + Z.of_nat (length ip)) frame = Ok port).
  { unfold udp_dest, frame. replace (drop _ _) with (be16 port ++ lensum ++ payload).
    - destruct (load16_be16 port (lensum ++ payload) Hport) as (w & -> & Hw). by rewrite bind_ok, Hw.
    - rewrite (app_assoc macs), (app_assoc (macs ++ be16 2048)), (app_assoc ((macs ++ be16 2048) ++ ip)).
      rewrite drop_app_length'; [done|]. rewrite !length_app, Hm, Hs. simpl length. lia. }
  assert (Eadv : advance (Z.to_nat (14 + Z.of_nat (length ip) + 8)) frame = Ok payload).
  { unfold frame. rewrite (app_assoc macs), (app_assoc (macs ++ be16 2048)), (app_assoc ((macs ++ be16 2048) ++ ip)).
    rewrite (app_assoc _ (be16 port)), (app_assoc _ lensum). apply advance_app. rewrite !length_app, Hm, Hs, Hl. simpl length. lia. }
  rewrite Eproto, bind_ok; cbv beta. cbn [negb Z.eqb Pos.eqb]. unfold ip_version, ip_ihl, kEthHdrSize.
  rewrite Eb0, !bind_ok; cbv beta. rewrite Hv, <-Hihl. cbn [negb Z.eqb Pos.eqb].
  destruct (Z.ltb_spec (Z.of_nat (length ip)) 20); [lia|]. rewrite Eproto', bind_ok; cbv beta. cbn [negb Z.eqb Pos.eqb].
  destruct (Z.ltb_spec (14 + Z.of_nat (length ip) + 8 + Z.of_nat (length payload)) (14 + Z.of_nat (length ip) + 8 + 20)); [lia|].
  rewrite Edest, bind_ok, Z.eqb_refl; cbv beta. cbn [negb]. rewrite Eadv, bind_ok; cbv beta zeta.
  by destruct (Z.ltb_spec (14 + Z.of_nat (length ip) + 8 + Z.of_nat (length payload) - (14 + Z.of_nat (length ip)) - 8) 20); [lia|].
Qed.

Lemma load16_at n l : (n + 2 <= length l)%nat ->
  exists b0 b1, drop n l = b0 :: b1 :: drop (n + 2) l /\ load16 (drop n l) = Ok (le16 b0 b1).
Proof.
  intros Hl. destruct (drop n l) as [|b0 [|b1 r]] eqn:E; apply (f_equal length) in E as El; rewrite length_drop in El; simpl in El; [lia..|].
  exists b0, b1. split; [|done]. by rewrite <-drop_drop, E.
Qed.

Lemma byte_at_ok off l : 0 <= off < Z.of_nat (length l) -> exists b, byte_at off l = Ok b /\ l !! Z.to_nat off = Some b.
Proof. intros H. unfold byte_at. destruct (lookup_lt_is_Some_2 l (Z.to_nat off)) as [b ->]; [lia | eauto]. Qed.

(** Whatever the checks let through is a datagram to the port. *)
Lemma moldPacket_exact port frame : Forall is_byte frame ->
  exists r, moldPacket port frame = Ok r /\ forall p, r = Some p -> carries_udp port frame p /\ (20 <= length p)%nat.
Proof.
  intros Hb. unfold moldPacket, kEthHdrSize, kIpHdrMin, kUdpHdrSize, kMoldHeaderBytes.
  destruct (Z.ltb_spec (Z.of_nat (length frame)) (14 + 20 + 8 + 20)) as [|Hlen]; [by exists None|].
  destruct (load16_at 12 frame) as (e0 & e1 & Ee & Le); [lia|]. unfold h_proto. rewrite Le, !bind_ok; cbv beta.
  destruct (Z.eqb_spec (bswap16 (le16 e0 e1)) ETH_P_IP) as [Heth|]; cbn [negb]; [|by exists None].
  destruct (byte_at_ok 14 frame) as (b0 & Eb & Hb0); [lia|]. unfold ip_version, ip_ihl, kEthHdrSize. rewrite Eb, !bind_ok; cbv beta.
  destruct (Z.eqb_spec (Z.shiftr b0 4) 4) as [Hver|]; cbn [negb]; [|by exists None].
  destruct (Z.ltb_spec (Z.land b0 15 * 4) 20) as [|Hihl]; [by exists None|].
  destruct (byte_at_ok (14 + 9) frame) as (pr & Ep & Hpr); [lia|]. unfold ip_protocol, kEthHdrSize. rewrite Ep, bind_ok; cbv beta.
  destruct (Z.eqb_spec pr IPPROTO_UDP) as [->|]; cbn [negb]; [|by exists None].
  set (ipLen := Z.land b0 15 * 4) in *.
  destruct (Z.ltb_spec (Z.of_nat (length frame)) (14 + ipLen + 8 + 20)) as [|Hudp]; [by exists None|].
  destruct (load16_at (Z.to_nat (14 + ipLen + 2)) frame) as (d0 & d1 & Ed & Ld); [lia|]. unfold udp_dest. rewrite Ld, !bind_ok; cbv beta.
  destruct (Z.eqb_spec (bswap16 (le16 d0 d1)) port) as [Hport|]; cbn [negb]; [|by exists None].
  unfold advance. destruct (Nat.leb_spec (Z.to_nat (14 + ipLen + 8)) (length frame)); [|lia]. rewrite bind_ok; cbv beta zeta.
  destruct (Z.ltb_spec (Z.of_nat (length frame) - (14 + ipLen) - 8) 20); [lia|].
  eexists; split; [done|]. intros p [= <-]. split; [|rewrite length_drop; lia].
  assert (Hby : forall n x y l, drop n frame = x :: y :: l -> is_byte x /\ is_byte y).
  { intros n x y l E. apply (Forall_drop _ n) in Hb. rewrite E in Hb. by apply Forall_cons in Hb as [? [? _]%Forall_cons]. }
  exists (take 12 frame), (take (Z.to_nat ipLen) (drop 14 frame)), (take 2 (drop (Z.to_nat (14 + ipLen)) frame)),
    (take 4 (drop (Z.to_nat (14 + ipLen + 4)) frame)). split_and!.
  - destruct (Hby _ _ _ _ Ee), (Hby _ _ _ _ Ed).
    rewrite <-(be16_inv_eth e0 e1 ETH_P_IP), <-(be16_inv_eth d0 d1 port) by done.
    rewrite <-(take_drop 12 frame) at 1. f_equal. rewrite Ee. cbn [app]. do 2 f_equal. change (12 + 2)%nat with 14%nat.
    rewrite <-(take_drop (Z.to_nat ipLen) (drop 14 frame)) at 1. f_equal.
    rewrite drop_drop. replace (14 + Z.to_nat ipLen)%nat with (Z.to_nat (14 + ipLen)) by lia.
    rewrite <-(take_drop 2 (drop (Z.to_nat (14 + ipLen)) frame)) at 1. f_equal.
    rewrite drop_drop. replace (Z.to_nat (14 + ipLen) + 2)%nat with (Z.to_nat (14 + ipLen + 2)) by lia. rewrite Ed. do 2 f_equal.
    replace (Z.to_nat (14 + ipLen + 2) + 2)%nat with (Z.to_nat (14 + ipLen + 4)) by lia.
    rewrite <-(take_drop 4 (drop (Z.to_nat (14 + ipLen + 4)) frame)) at 1. f_equal. rewrite drop_drop. f_equal. lia.
  - rewrite length_take. lia.
  - rewrite length_take, length_drop. lia.
  - rewrite length_take, length_drop. lia.
  - exists b0. change (Z.to_nat 14) with 14%nat in Hb0. rewrite (drop_S _ _ _ Hb0). destruct (Z.to_nat ipLen) as [|m] eqn:Em; [lia|]. cbn [take].
    eexists; split; [done|]. split; [done|].
    assert (Hlt : Z.of_nat (length (b0 :: take m (drop 15 frame))) = ipLen).
    { cbn [length]. rewrite length_take, length_drop. lia. }
    split_and!; [done | unfold kIpHdrMin; lia |].
    change ((b0 :: take m (drop 15 frame)) !! 9%nat) with (take m (drop 15 frame) !! 8%nat).
    rewrite lookup_take_lt by lia. rewrite lookup_drop. exact Hpr.
Qed.

(** ** One frame *)

(** What fits a slot of a packet. *)
Definition cut (p : bytes) : bytes := take (Z.to_nat kMaxPacketBytes) p.

Lemma cut_wire p : wire_ok (cut p).
Proof. unfold wire_ok, cut, kMaxPacketBytes. rewrite length_take. lia. Qed.

Lemma cut_small p : wire_ok p -> cut p = p.
Proof. unfold wire_ok, cut, kMaxPacketBytes. intros. apply take_ge. lia. Qed.

Lemma same_but_refl i p : same_but i p p.
Proof. by split. Qed.

Section frame.
Context (cap : Z) (Hcap : is_capacity cap).
Implicit Types (st : feed) (F : list Z) (q : list PacketRef).

(** The copy into slot [i] of the pool without it. *)
Lemma enqueue_store p st i p1 :
  PacketPool.acquire (pkts st) = Ok (i, p1) -> (i =? kPoolInvalid) = false -> 0 <= i < vlen (slots p1) ->
  (forall j, length (data (vnth (slots p1) j)) = Z.to_nat kMaxPacketBytes) -> forall tw,
  enqueue p tw st =
  '(pushed, q) ← SpscRing.push (mkRef i tw) (queue st);
  if pushed : bool then Ok (mkFeed (stored (cut p) i p1) q (stats st) (trk st))
  else p ← PacketPool.release i (stored (cut p) i p1); Ok (mkFeed p q (FeedStats.dropped (stats st)) (trk st)).
Proof using.
  intros E Hi Hr Hd tw. unfold enqueue. rewrite E, bind_ok; cbv beta iota. rewrite Hi.
  assert (Hc : Z.of_nat (length (cut p)) = Z.min (Z.of_nat (length p)) kMaxPacketBytes).
  { unfold cut. rewrite length_take. unfold kMaxPacketBytes. lia. }
  rewrite <-Hc. pose proof (cut_wire p) as Hw. unfold wire_ok, kMaxPacketBytes in Hw. rewrite u16_small by lia. rewrite Nat2Z.id.
  assert (Er : read_bytes (length (cut p)) p = Ok (cut p)).
  { rewrite <-(take_drop (Z.to_nat kMaxPacketBytes) p) at 2. by apply read_bytes_app. }
  rewrite Er, bind_ok; cbv beta. rewrite recv_into_ok, bind_ok by (done || apply cut_wire); cbv beta.
  rewrite packet_modify_ok, bind_ok by done; cbv beta. cbn [slots freeHead]. by rewrite vnth_vupd_eq, vupd_vupd.
Qed.

Lemma enqueue_queued p tw st i F q :
  feed_ok cap st (i :: F) q -> Z.of_nat (length q) < cap - 1 ->
  exists st', enqueue p tw st = Ok st' /\ feed_ok cap st' F (q ++ [mkRef i tw]) /\
    same_but i (pkts st) (pkts st') /\ slot_holds (pkts st') i (cut p) /\ trk st' = trk st /\ stats st' = stats st /\
    (SpscRing.tail (queue st') =? SpscRing.tail (queue st)) = false.
Proof using Hcap.
  intros [Hp Hq Hd] Hroom. destruct (acquire_rep _ _ Hp) as (p1 & Ea & Hp1 & Hs1).
  pose proof (chain_range _ _ _ i (pp_chain _ _ Hp) ltac:(set_solver)) as Hi.
  rewrite (enqueue_store p st i p1 Ea) by (by rewrite ?(not_sentinel _ _ i Hp Hi), ?Hs1).
  destruct (push_rep cap Hcap _ _ (mkRef i tw) Hq) as (r & Er & Hr). pose proof (push_tail cap Hcap _ _ _ _ _ Hq Er) as Ht.
  rewrite Er, bool_decide_eq_true_2 in * by done. rewrite bind_ok; cbv beta iota. eexists; split; [done|]. cbn [pkts trk stats queue].
  pose proof (stored_same (cut p) i p1) as [Hl Hj]. rewrite Hs1 in Hl, Hj.
  split_and!; [|done|apply stored_holds|done|done|done].
  split; cbn [pkts queue]; [|done|intros j; apply stored_data; [by rewrite Hs1 | apply cut_wire]].
  destruct Hp1 as [Hf Hc Hn]. split; [done | | done]. apply chain_upd; [|done].
  pose proof (pp_nodup _ _ Hp) as Hnd. by apply NoDup_cons in Hnd as [? _].
Qed.

Lemma enqueue_full p tw st i F q :
  feed_ok cap st (i :: F) q -> cap - 1 <= Z.of_nat (length q) ->
  exists st', enqueue p tw st = Ok st' /\ feed_ok cap st' (i :: F) q /\
    same_but i (pkts st) (pkts st') /\ trk st' = trk st /\ stats st' = FeedStats.dropped (stats st) /\
    (SpscRing.tail (queue st') =? SpscRing.tail (queue st)) = true.
Proof using Hcap.
  intros [Hp Hq Hd] Hfull. destruct (acquire_rep _ _ Hp) as (p1 & Ea & Hp1 & Hs1).
  pose proof (chain_range _ _ _ i (pp_chain _ _ Hp) ltac:(set_solver)) as Hi.
  rewrite (enqueue_store p st i p1 Ea) by (by rewrite ?(not_sentinel _ _ i Hp Hi), ?Hs1).
  destruct (push_rep cap Hcap _ _ (mkRef i tw) Hq) as (r & Er & Hr). pose proof (push_tail cap Hcap _ _ _ _ _ Hq Er) as Ht.
  rewrite Er, bool_decide_eq_false_2 in * by lia. rewrite bind_ok; cbv beta iota.
  assert (HiF : i ∉ F) by (pose proof (pp_nodup _ _ Hp) as Hnd; by apply NoDup_cons in Hnd as [? _]).
  destruct (give_back p1 (stored (cut p) i p1) F i Hp1 (stored_same _ _ _) eq_refl (stored_next _ _ _)) as (p2 & E2 & Hp2 & Hs2 & Hd2);
    [by rewrite Hs1 | done |].
  rewrite E2, bind_ok; cbv beta. eexists; split; [done|]. cbn [pkts trk stats queue].
  destruct Hs2 as [Hl Hj]. rewrite Hs1 in Hl, Hj. split_and!; try done.
  split; cbn [pkts queue]; [done | done |]. intros j. rewrite Hd2. apply stored_data; [by rewrite Hs1 | apply cut_wire].
Qed.

(** A frame that carries a packet [p], up to the tracker's verdict. *)
Lemma receiveFrame_unfold port frame tw st p :
  moldPacket port frame = Ok (Some p) -> (20 <= length p)%nat ->
  receiveFrame port frame tw st =
  let '(v, t, s) := judge st p in
  let st := mkFeed (pkts st) (queue st) s t in
  match v with
  | EndOfSession => Ok (PushSentinel (mkRef kPoolInvalid tw), st)
  | Heartbeat | Duplicate => Ok (Continue, st)
  | Accepted => st ← enqueue p tw st; Ok (Continue, st)
  end.
Proof using.
  intros E Hl. unfold receiveFrame. rewrite E, bind_ok; cbv beta iota zeta.
  pose proof (parse_header_of p [] Hl) as Eh. rewrite app_nil_r in Eh. by rewrite Eh, bind_ok.
Qed.

(** *** Against the socket path *)

(** The same packet: the same length, and as many equal bytes. *)
Definition same_packet (a b : BufferSlot) : Prop :=
  length_ a = length_ b /\ take (Z.to_nat (length_ a)) (data a) = take (Z.to_nat (length_ b)) (data b).

Lemma holds_same_packet p1 p2 i payload :
  slot_holds p1 i payload -> slot_holds p2 i payload -> same_packet (vnth (slots p1) i) (vnth (slots p2) i).
Proof using. intros [T1 L1] [T2 L2]. split; [congruence|]. rewrite L1, L2, Nat2Z.id. congruence. Qed.

(** Two states of the receive thread that the matching thread cannot tell
    apart: the same free slots in the same order, the same ring, counters and
    tracker, and the same packets in the slots that are in use. What free slots
    still hold may differ. *)
Record feed_equiv st1 st2 F q : Prop := {
  fe_left : feed_ok cap st1 F q;
  fe_right : feed_ok cap st2 F q;
  fe_stats : stats st1 = stats st2;
  fe_trk : trk st1 = trk st2;
  fe_len : vlen (slots (pkts st1)) = vlen (slots (pkts st2));
  fe_packets : forall i, (i ∉ F) -> same_packet (vnth (slots (pkts st1)) i) (vnth (slots (pkts st2)) i)
}.

Lemma feed_equiv_sym st1 st2 F q : feed_equiv st1 st2 F q -> feed_equiv st2 st1 F q.
Proof using. intros [H1 H2 E1 E2 E3 H]. split; try done. intros i Hi. destruct (H i Hi). by split. Qed.

(** Both sides touched slot [i] only, which ends up free or holding the same. *)
Lemma packets_same_but st1 st2 F F' q p1' p2' i :
  feed_equiv st1 st2 F q -> same_but i (pkts st1) p1' -> same_but i (pkts st2) p2' ->
  (forall j, j <> i -> j ∉ F' -> j ∉ F) ->
  (i ∈ F' \/ exists payload, slot_holds p1' i payload /\ slot_holds p2' i payload) ->
  forall j, (j ∉ F') -> same_packet (vnth (slots p1') j) (vnth (slots p2') j).
Proof using.
  intros H [_ S1] [_ S2] HF Hi j Hj. destruct (decide (j = i)) as [->|Hne].
  - destruct Hi as [?|(payload & H1 & H2)]; [done | by eapply holds_same_packet].
  - destruct (S1 j Hne) as [D1 L1], (S2 j Hne) as [D2 L2]. unfold same_packet. rewrite D1, D2, L1, L2. by apply (fe_packets _ _ _ _ H), HF.
Qed.

Lemma equivalent_turn st1 st2 i F q port frame p tw :
  feed_equiv st1 st2 (i :: F) q -> moldPacket port frame = Ok (Some p) -> (20 <= length p)%nat -> wire_ok p ->
  exists p1 c st1' st2' F' q',
    PacketPool.acquire (pkts st1) = Ok (i, p1) /\
    FeedHandler.receive i (Received p) tw (mkFeed p1 (queue st1) (stats st1) (trk st1)) = Ok (c, st1') /\
    receiveFrame port frame tw st2 = Ok (c, st2') /\ feed_equiv st1' st2' F' q'.
Proof using Hcap.
  intros H Em Hl Hw. pose proof (fe_left _ _ _ _ H) as [Hp Hq Hd].
  destruct (acquire_rep _ _ Hp) as (p1 & Ea & Hp1 & Hs1). exists p1.
  pose proof (chain_range _ _ _ i (pp_chain _ _ Hp) ltac:(set_solver)) as Hr.
  assert (HiF : i ∉ F) by (pose proof (pp_nodup _ _ Hp) as Hnd; by apply NoDup_cons in Hnd as [? _]).
  set (sta := mkFeed p1 (queue st1) (stats st1) (trk st1)).
  assert (Hfa : feed_ok cap sta F q) by (split; simpl; [done | done | by rewrite Hs1]).
  assert (Hoa : owned sta F i) by (split; [by simpl; rewrite Hs1 | done]).
  assert (Hsa : forall p', same_but i (pkts sta) p' -> same_but i (pkts st1) p')
    by (unfold sta; simpl; unfold same_but; by rewrite Hs1).
  rewrite (receiveFrame_unfold port frame tw st2 p Em Hl).
  assert (Ej : judge st2 p = judge sta p) by (unfold judge, sta; simpl; by rewrite (fe_stats _ _ _ _ H), (fe_trk _ _ _ _ H)).
  rewrite Ej. destruct (judge sta p) as [[v t] s] eqn:Hj. cbv zeta.
  pose proof (fe_right _ _ _ _ H) as [Hp2 Hq2 Hd2]. set (st2a := mkFeed (pkts st2) (queue st2) s t).
  assert (Hf2 : feed_ok cap st2a (i :: F) q) by (by split).
  assert (HF1 : forall j, j <> i -> j ∉ F -> j ∉ i :: F) by (set_solver).
  destruct (decide (v = Accepted /\ Z.of_nat (length q) < cap - 1)) as [[-> Hroom]|Hno].
  - destruct (receive_queued cap Hcap sta F q i p tw t s Hfa Hoa Hw Hl Hj Hroom) as (st1' & E1 & Hf1' & Sb1 & Hh1 & Et1 & Es1 & _).
    destruct (enqueue_queued p tw st2a i F q Hf2 Hroom) as (st2' & E2 & Hf2' & Sb2 & Hh2 & Et2 & Es2 & _).
    rewrite (cut_small p Hw) in Hh2. rewrite E2, bind_ok; cbv beta.
    exists Continue, st1', st2', F, (q ++ [mkRef i tw]). split_and!; try done. split; [done | done | simpl in *; congruence | simpl in *; congruence | |].
    + by rewrite (proj1 Sb2), (proj1 (Hsa _ Sb1)), (fe_len _ _ _ _ H).
    + eapply packets_same_but; eauto.
  - assert (Hfull : v = Accepted -> cap - 1 <= Z.of_nat (length q)).
    { intros ->. destruct (Z.lt_ge_cases (Z.of_nat (length q)) (cap - 1)); [naive_solver | done]. }
    destruct (receive_returned cap Hcap sta F q i p tw v t s Hfa Hoa Hw Hl Hj Hfull) as (st1' & E1 & Hf1' & Sb1 & Et1 & Es1 & _).
    destruct (decide (v = Accepted)) as [->|Hv].
    + destruct (enqueue_full p tw st2a i F q Hf2 (Hfull eq_refl)) as (st2' & E2 & Hf2' & Sb2 & Et2 & Es2 & _).
      rewrite E2, bind_ok; cbv beta. exists Continue, st1', st2', (i :: F), q. split_and!; try done.
      split; [done | done | simpl in *; congruence | simpl in *; congruence | |].
      * by rewrite (proj1 Sb2), (proj1 (Hsa _ Sb1)), (fe_len _ _ _ _ H).
      * eapply packets_same_but; [exact H | by apply Hsa | exact Sb2 | auto | left; set_solver].
    + exists (match v with EndOfSession => PushSentinel (mkRef kPoolInvalid tw) | _ => Continue end), st1', st2a, (i :: F), q.
      split_and!; [done | done | by destruct v |]. split; [done | done | by rewrite Es1; destruct v | done | |].
      * by rewrite (proj1 (Hsa _ Sb1)), (fe_len _ _ _ _ H).
      * eapply packets_same_but; [exact H | by apply Hsa | apply same_but_refl | auto | left; set_solver].
Qed.
End frame.

(** ** Frame buffers *)

Section account.
Context (cap : Z) (Hcap : is_capacity cap) (reserve : nat -> nat -> nat).
(** [xsk_ring_prod__reserve] grants the entries that are free in a ring of
    [kNumFrames]. *)
Hypothesis reserve_grants : forall used k, (used + k <= Z.to_nat kNumFrames)%nat -> reserve used k = k.
Implicit Types (st : feed) (x : xdp).

Definition well st : Prop := exists F q, feed_ok cap st F q.

Lemma enqueue_empty p tw st q : feed_ok cap st [] q ->
  enqueue p tw st = Ok (mkFeed (pkts st) (queue st) (FeedStats.dropped (stats st)) (trk st)).
Proof using. intros [Hp _ _]. pose proof (acquire_rep _ _ Hp) as Ea. simpl in Ea. unfold enqueue. by rewrite Ea. Qed.

(** No frame makes the handler fail, and none makes it stop but the end of
    the session. *)
Lemma receiveFrame_ok port frame tw st : well st -> Forall is_byte frame ->
  exists c st', receiveFrame port frame tw st = Ok (c, st') /\ well st' /\ c <> Break.
Proof using Hcap.
  intros (F & q & H) Hb. destruct (moldPacket_exact port frame Hb) as ([p|] & E & Hp).
  2: { exists Continue, st. unfold receiveFrame. rewrite E. split_and!; [done | by exists F, q | done]. }
  destruct (Hp p eq_refl) as [_ Hl]. rewrite (receiveFrame_unfold port frame tw st p E Hl).
  destruct (judge st p) as [[v t] s]. set (st1 := mkFeed (pkts st) (queue st) s t). cbv zeta.
  assert (H1 : feed_ok cap st1 F q) by (destruct H; by split).
  destruct v; [by eexists _, _; split_and!; [done | exists F, q |]..|].
  destruct F as [|i F].
  - rewrite (enqueue_empty p tw st1 q H1), bind_ok; cbv beta. eexists _, _. split_and!; [done | | done].
    exists [], q. destruct H1; by split.
  - destruct (Z.lt_ge_cases (Z.of_nat (length q)) (cap - 1)) as [Hroom|Hfull].
    + destruct (enqueue_queued cap Hcap p tw st1 i F q H1 Hroom) as (st' & -> & Hf & _). rewrite bind_ok; cbv beta.
      eexists _, _. split_and!; [done | by eexists _, _ | done].
    + destruct (enqueue_full cap Hcap p tw st1 i F q H1 Hfull) as (st' & -> & Hf & _). rewrite bind_ok; cbv beta.
      eexists _, _. split_and!; [done | by eexists _, _ | done].
Qed.

(** The batch loop stores the address of every frame it visits. *)
Lemma batch_loop_ok port tw descs i addrs st :
  well st -> Forall (fun d => Forall is_byte d.2) descs -> (i + length descs <= length addrs)%nat ->
  exists s addrs' st', batch_loop port tw i descs addrs st = Ok (s, addrs', st') /\ well st' /\ length addrs' = length addrs /\
    (forall j, (j < i)%nat -> addrs' !! j = addrs !! j) /\
    (s = None -> forall j d, descs !! j = Some d -> addrs' !! (i + j)%nat = Some (Some d.1)).
Proof using Hcap.
  intros Hst Hd; revert i addrs st Hst. induction Hd as [|[a f] descs Hf _ IH]; intros i addrs st Hst Hl.
  { exists None, addrs, st. simpl. split_and!; done. }
  simpl in Hl, Hf. cbn [batch_loop]. unfold store_addr. destruct (Nat.ltb_spec i (length addrs)); [|lia]. rewrite bind_ok; cbv beta.
  destruct (receiveFrame_ok port f tw st Hst Hf) as (c & st1 & E & Hst1 & Hc). rewrite E, bind_ok; cbv beta iota.
  destruct c as [| |ref]; [|done|].
  - destruct (IH (S i) (<[i := Some a]> addrs) st1 Hst1) as (s & addrs' & st' & E' & Hst' & Hlen & Hlow & Hall);
      [rewrite length_insert; lia|].
    rewrite E'. exists s, addrs', st'. rewrite length_insert in Hlen. split_and!; try done.
    + intros j Hj. rewrite Hlow, list_lookup_insert_ne by lia. done.
    + intros Hs [|j] d Hd; [injection Hd as <-|].
      * rewrite Nat.add_0_r, Hlow, list_lookup_insert_eq by lia. done.
      * rewrite <-(Hall Hs j d Hd). f_equal. lia.
  - exists (Some ref), (<[i := Some a]> addrs), st1. split_and!; [done | done | by rewrite length_insert | | done].
    intros j Hj. rewrite list_lookup_insert_ne by lia. done.
Qed.

(** [frame] does not carry an end-of-session packet. *)
Definition goes_on (port : Z) (frame : bytes) : Prop :=
  Forall is_byte frame /\ forall p, carries_udp port frame p -> (20 <= length p)%nat -> messageCount (header_of p) <> kMoldEndOfSession.

Lemma receiveFrame_goes_on port frame tw st : well st -> goes_on port frame ->
  exists st', receiveFrame port frame tw st = Ok (Continue, st') /\ well st'.
Proof using Hcap.
  intros Hw [Hb Hg]. destruct (receiveFrame_ok port frame tw st Hw Hb) as (c & st' & E & Hw' & Hc). exists st'. split; [|done].
  rewrite E. f_equal; f_equal. destruct (moldPacket_exact port frame Hb) as ([p|] & Em & Hp).
  - destruct (Hp p eq_refl) as [Hcu Hl]. specialize (Hg p Hcu Hl). rewrite (receiveFrame_unfold port frame tw st p Em Hl) in E.
    unfold judge, track in E. destruct (Z.eqb_spec (messageCount (header_of p)) kMoldEndOfSession); [done|].
    repeat case_match; simplify_eq; try done; by apply bind_inv in E as (? & _ & [= <- _]).
  - unfold receiveFrame in E. rewrite Em in E. by injection E as <- _.
Qed.

(** Frames that do not end the session are passed, their addresses stored. *)
Lemma batch_loop_goes_on port tw before rest i addrs st :
  well st -> Forall (fun d => goes_on port d.2) before -> (i + length before <= length addrs)%nat ->
  exists addrs' st', batch_loop port tw i (before ++ rest) addrs st = batch_loop port tw (i + length before) rest addrs' st' /\
    length addrs' = length addrs /\ forall j, (i + length before <= j)%nat -> addrs' !! j = addrs !! j.
Proof using Hcap.
  intros Hw Hb; revert i addrs st Hw. induction Hb as [|[a f] before Hf _ IH]; intros i addrs st Hw Hl; cbn [length app] in *.
  { exists addrs, st. by rewrite Nat.add_0_r. }
  cbn [batch_loop]. unfold store_addr. destruct (Nat.ltb_spec i (length addrs)); [|lia]. rewrite bind_ok; cbv beta.
  destruct (receiveFrame_goes_on port f tw st Hw Hf) as (st1 & E & Hw1). rewrite E, bind_ok; cbv beta iota.
  destruct (IH (S i) (<[i := Some a]> addrs) st1 Hw1) as (addrs' & st' & E' & Hlen & Hall); [rewrite length_insert; lia|].
  rewrite length_insert in Hlen. exists addrs', st'. rewrite E', Nat.add_succ_r. split_and!; try done.
  intros j Hj. rewrite Hall, list_lookup_insert_ne by lia. done.
Qed.

Lemma refill_unwritten k i j addrs : (j < k)%nat -> addrs !! (i + j)%nat = Some None -> refill k i addrs = Err UB.
Proof using.
  revert i j; induction k as [|k IH]; intros i j Hj E; [lia|]. cbn [refill]. destruct j as [|j].
  - rewrite Nat.add_0_r in E. by rewrite E.
  - destruct (addrs !! i) as [[a|]|]; [|done..]. rewrite (IH (S i) j); [done | lia | by rewrite <-E; f_equal; lia].
Qed.

Lemma refill_ok k i addrs (l : list Z) : length l = k ->
  (forall j a, l !! j = Some a -> addrs !! (i + j)%nat = Some (Some a)) -> refill k i addrs = Ok l.
Proof using.
  revert i l; induction k as [|k IH]; intros i l Hl Hall.
  - by destruct l.
  - destruct l as [|a l]; [done|]. cbn [refill]. pose proof (Hall 0%nat a eq_refl) as H0. rewrite Nat.add_0_r in H0. rewrite H0.
    rewrite (IH (S i) l); [done | by injection Hl | ]. intros j b Hb. rewrite <-(Hall (S j) b Hb). f_equal. lia.
Qed.

(** Every frame buffer is with the kernel or received and not yet handled. *)
Record accounted x : Prop := {
  ac_well : well (xfeed x);
  ac_addrs : length (batchAddrs x) = Z.to_nat kBatchSize;
  ac_bytes : Forall (fun d => Forall is_byte d.2) (rx (xrings x));
  ac_frames : done_ x = false -> fill (xrings x) ++ (rx (xrings x)).*1 ≡ₚ all_frames
}.

(** What [xsk_ring_cons__peek] may return. *)
Definition peeked (k : nat) x : Prop := (k <= Z.to_nat kBatchSize)%nat /\ (k <= length (rx (xrings x)))%nat.

(** A batch without an end-of-session packet returns all its frames. *)
Lemma batch_ok port tw k x :
  accounted x -> done_ x = false -> peeked k x ->
  exists s addrs st, batch_loop port tw 0 (take k (rx (xrings x))) (batchAddrs x) (xfeed x) = Ok (s, addrs, st) /\
    (s = None -> exists x', batch reserve port tw k x = Ok x' /\ done_ x' = false /\ accounted x' /\
       rx (xrings x') = drop k (rx (xrings x)) /\ fill (xrings x') = fill (xrings x) ++ (take k (rx (xrings x))).*1).
Proof using Hcap reserve_grants.
  intros [Hw Ha Hb Hf] Hd [Hk1 Hk2].
  assert (Htk : length (take k (rx (xrings x))) = k) by (rewrite length_take; lia).
  destruct (batch_loop_ok port tw (take k (rx (xrings x))) 0 (batchAddrs x) (xfeed x) Hw) as (s & addrs & st & E & Hst & Hlen & _ & Hall);
    [by apply Forall_take | rewrite Htk, Ha; lia |].
  exists s, addrs, st. split; [done|]. intros Hs. specialize (Hall Hs). subst s. unfold batch. specialize (Hf Hd).
  destruct (Nat.eqb_spec k 0) as [->|Hk0].
  { exists x. rewrite take_0, drop_0, app_nil_r. split_and!; try done. }
  rewrite E, bind_ok; cbv beta iota zeta. rewrite reserve_grants.
  - rewrite (refill_ok k 0 addrs (take k (rx (xrings x))).*1), bind_ok; cbv beta.
    + eexists; split; [done|]. rewrite bool_decide_eq_false_2 by (by intros []). split; [done|]. split; [|done].
      split; cbn [xfeed batchAddrs xrings rx fill done_]; [done | congruence | by apply Forall_drop |].
      intros _. rewrite <-Hf, <-app_assoc, <-fmap_app, take_drop. done.
    + by rewrite length_fmap.
    + intros j a Ha'. rewrite list_lookup_fmap in Ha'. destruct (take k (rx (xrings x)) !! j) as [d|] eqn:Ed; [|done].
      injection Ha' as <-. by apply (Hall j d).
  - apply Permutation_length in Hf. rewrite length_app, length_fmap in Hf. unfold all_frames in Hf.
    rewrite length_fmap, length_seqZ in Hf. lia.
Qed.

(** The kernel stores a frame in a buffer it was lent; the thread handles a
    batch; the matching thread works on pool and ring in between. Addresses stand
    for the chunks they lie in: the kernel may report a frame at an offset inside
    the chunk, and masks the offset off when the address comes back. *)
Inductive xstep (port : Z) : xdp -> xdp -> Prop :=
| kernel_receives a fs r frame addrs st d s :
    Forall is_byte frame -> Z.of_nat (length frame) <= kFrameSize ->
    xstep port (mkXdp (mkRings (a :: fs) r) addrs st d s) (mkXdp (mkRings fs (r ++ [(a, frame)])) addrs st d s)
| thread_batch tw k x x' :
    done_ x = false -> peeked k x -> batch reserve port tw k x = Ok x' -> xstep port x x'
| matching_thread rs addrs st st' d s :
    well st' -> xstep port (mkXdp rs addrs st d s) (mkXdp rs addrs st' d s).

Lemma start_accounted st : well st -> accounted (start st).
Proof using. intros H. split; cbn [start xfeed batchAddrs xrings rx fill done_]; [exact H | reflexivity | apply Forall_nil_2 |].
  intros _. by rewrite app_nil_r. Qed.

Lemma xstep_accounted port x x' : accounted x -> xstep port x x' -> accounted x'.
Proof using Hcap reserve_grants.
  intros Hx Hst. destruct Hst as [a fs r frame addrs st d s Hb _|tw k x x' Hd Hk E|rs addrs st st' d s Hw].
  - destruct Hx as [Hw Ha Hf Hp]. split; cbn [xfeed batchAddrs xrings rx fill done_] in *; try done.
    + apply Forall_app; split; [done | by constructor].
    + intros Hd. rewrite fmap_app, app_assoc. cbn [fmap list_fmap fst]. rewrite <-Permutation_cons_append. by apply Hp.
  - destruct (batch_ok port tw k x Hx Hd Hk) as (s & addrs & st & El & Hs). destruct s as [ref|].
    + unfold batch in E. destruct (k =? 0)%nat; [by injection E as <-|]. rewrite El, bind_ok in E; cbv beta iota zeta in E.
      apply bind_inv in E as (back & _ & [= <-]). destruct Hx as [Hw Ha Hf _].
      destruct (batch_loop_ok port tw (take k (rx (xrings x))) 0 (batchAddrs x) (xfeed x) Hw) as (s' & a' & st' & El' & Hst & Hlen & _);
        [by apply Forall_take | rewrite length_take, Ha; unfold peeked in Hk; lia |].
      rewrite El in El'. injection El' as <- <- <-. split; cbn [xfeed batchAddrs xrings rx fill done_];
        [done | congruence | by apply Forall_drop | done].
    + destruct (Hs eq_refl) as (x'' & E' & _ & Hx'' & _). congruence.
  - destruct Hx as [_ Ha Hf Hp]. by split.
Qed.

Lemma xdp_reachable port st x : well st -> rtc (xstep port) (start st) x -> accounted x.
Proof using Hcap reserve_grants.
  intros Hw Hr. pose proof (start_accounted st Hw) as H0. induction Hr as [|x1 x2 x3 Hst _ IH]; [done|].
  apply IH. by eapply xstep_accounted.
Qed.
End account.

(** ** Properties *)

(** C12: parsing is in bounds and exact. On a frame of any bytes no header field
    is read past the frame's end, and the frame is passed on exactly if it is an
    IPv4 UDP datagram to the port with room for a MoldUDP64 header, whatever the
    length of the IP header; what is passed on is the datagram's data. *)
Theorem xdp_parse_exact port frame :
  is_u16 port -> Forall is_byte frame ->
  exists r, moldPacket port frame = Ok r /\
    forall p, r = Some p <-> carries_udp port frame p /\ (20 <= length p)%nat.
Proof.
  intros Hport Hb. destruct (moldPacket_exact port frame Hb) as (r & E & Hr). exists r. split; [done|].
  intros p. split; [apply Hr|]. intros [Hc Hl]. pose proof (moldPacket_accepts port frame p Hport Hc Hl). congruence.
Qed.

(** A frame with an IP header of 24 bytes, to port 30001. *)
Definition test_ip : bytes := [70; 0; 0; 0; 0; 0; 0; 0; 64; 17; 0; 0; 127; 0; 0; 1; 127; 0; 0; 1; 1; 1; 1; 1].
Definition test_frame (payload : bytes) : bytes :=
  replicate 12 2 ++ be16 ETH_P_IP ++ test_ip ++ [4; 210] ++ be16 30001 ++ [0; 31; 0; 0] ++ payload.

Lemma test_frame_carries payload : carries_udp 30001 (test_frame payload) payload.
Proof.
  exists (replicate 12 2), test_ip, [4; 210], [0; 31; 0; 0]. split_and!; try done.
  exists 70, (tl test_ip). split_and!; done.
Qed.

Lemma xdp_parse_exact_witness :
  exists r, moldPacket 30001 (test_frame (datagram 5)) = Ok r /\
    forall p, r = Some p <-> carries_udp 30001 (test_frame (datagram 5)) p /\ (20 <= length p)%nat.
Proof.
  apply (xdp_parse_exact 30001 (test_frame (datagram 5))).
  - split; [discriminate | reflexivity].
  - repeat constructor; vm_compute; discriminate.
Defined.

(** C11: the AF_XDP path is equivalent to the socket path. From states the
    matching thread cannot tell apart, with a free slot in the pool, receiving a
    datagram of 20 to 2048 bytes through the socket and receiving a frame that
    carries it both succeed, continue in the same
    way, and lead to states that cannot be told apart: the same slot queued with
    the same packet or returned, the same counters and tracker. *)
Theorem xdp_equivalent cap st1 st2 i F q port frame p tw :
  is_capacity cap -> feed_equiv cap st1 st2 (i :: F) q -> is_u16 port -> carries_udp port frame p ->
  (20 <= length p)%nat -> wire_ok p ->
  exists p1 c st1' st2' F' q',
    PacketPool.acquire (pkts st1) = Ok (i, p1) /\
    FeedHandler.receive i (Received p) tw (mkFeed p1 (queue st1) (stats st1) (trk st1)) = Ok (c, st1') /\
    receiveFrame port frame tw st2 = Ok (c, st2') /\ feed_equiv cap st1' st2' F' q'.
Proof.
  intros Hcap H Hport Hc Hl Hw.
  apply (equivalent_turn cap Hcap st1 st2 i F q); try done. by apply moldPacket_accepts.
Qed.

Lemma xdp_equivalent_witness :
  exists st p1 c st1' st2' F' q', PacketPool.acquire (pkts st) = Ok (2, p1) /\
    FeedHandler.receive 2 (Received (datagram 8)) 6 (mkFeed p1 (queue st) (stats st) (trk st)) = Ok (c, st1') /\
    receiveFrame 30001 (test_frame (datagram 8)) 6 st = Ok (c, st2') /\ feed_equiv 2 st1' st2' F' q'.
Proof.
  destruct full_feed as (st & Hf & _). exists st.
  apply (xdp_equivalent 2 st st 2 [] [mkRef 0 5] 30001 (test_frame (datagram 8)) (datagram 8) 6).
  - exists 1. split; [lia | reflexivity].
  - split; try reflexivity; [exact Hf | exact Hf | intros; split; reflexivity].
  - split; [discriminate | reflexivity].
  - exact (test_frame_carries (datagram 8)).
  - vm_compute; lia.
  - vm_compute; discriminate.
Defined.

(** C13: no frame buffer is lost while the session lasts. Whatever frames
    arrive and in whatever batches, each of the 4096 buffers is lent to the
    kernel or received and not yet handled, exactly once; a batch never fails
    on its frames, and unless it ends the session it returns exactly the
    buffers it took, the fill ring always having room. *)
Theorem xdp_frames_conserved cap reserve port st x :
  is_capacity cap -> (forall used k, (used + k <= Z.to_nat kNumFrames)%nat -> reserve used k = k) ->
  well cap st -> rtc (xstep cap reserve port) (start st) x -> done_ x = false ->
  fill (xrings x) ++ (rx (xrings x)).*1 ≡ₚ all_frames /\ NoDup (fill (xrings x) ++ (rx (xrings x)).*1) /\
  forall k tw, peeked k x ->
    exists s addrs st', batch_loop port tw 0 (take k (rx (xrings x))) (batchAddrs x) (xfeed x) = Ok (s, addrs, st') /\
      (s = None -> exists x', batch reserve port tw k x = Ok x' /\ done_ x' = false /\
         rx (xrings x') = drop k (rx (xrings x)) /\ fill (xrings x') = fill (xrings x) ++ (take k (rx (xrings x))).*1).
Proof.
  intros Hcap Hres Hw Hr Hd. pose proof (xdp_reachable cap Hcap reserve Hres port st x Hw Hr) as Hx.
  pose proof (ac_frames _ _ Hx Hd) as Hp. split_and!; [done | |].
  - rewrite Hp. apply NoDup_fmap_2; [|apply NoDup_seqZ]. intros a b. unfold kFrameSize. lia.
  - intros k tw Hk. destruct (batch_ok cap Hcap reserve Hres port tw k x Hx Hd Hk) as (s & addrs & st' & E & Hs).
    exists s, addrs, st'. split; [done|]. intros Hn. destruct (Hs Hn) as (x' & E' & Hd' & _ & H1 & H2). eauto.
Qed.

(** What libxdp documents of the reservation, as a function. *)
Definition reserve_all_or_none (used k : nat) : nat := if (used + k <=? Z.to_nat kNumFrames)%nat then k else 0%nat.

Lemma reserve_all_or_none_grants used k : (used + k <= Z.to_nat kNumFrames)%nat -> reserve_all_or_none used k = k.
Proof. intros H. unfold reserve_all_or_none. by destruct (Nat.leb_spec (used + k) (Z.to_nat kNumFrames)); [|lia]. Qed.

Lemma all_frames_cons : all_frames = 0 :: tl all_frames.
Proof. unfold all_frames. rewrite seqZ_cons by (unfold kNumFrames; lia). done. Qed.

(** One frame arrived. *)
Definition one_frame (st : feed) : xdp :=
  mkXdp (mkRings (tl all_frames) ([] ++ [(0, test_frame (datagram 8))])) addrs0 st false None.

Lemma one_frame_reachable cap st : rtc (xstep cap reserve_all_or_none 30001) (start st) (one_frame st).
Proof.
  apply rtc_once. unfold start, one_frame. rewrite all_frames_cons at 1.
  apply kernel_receives.
  - repeat constructor; vm_compute; discriminate.
  - vm_compute; discriminate.
Qed.

Lemma xdp_frames_conserved_witness :
  exists st s addrs st', batch_loop 30001 9 0 (take 1 (rx (xrings (one_frame st)))) addrs0 st = Ok (s, addrs, st') /\
    fill (xrings (one_frame st)) ++ (rx (xrings (one_frame st))).*1 ≡ₚ all_frames.
Proof.
  destruct full_feed as (st & Hf & _). exists st.
  destruct (xdp_frames_conserved 2 reserve_all_or_none 30001 st (one_frame st)) as (Hp & _ & Hb).
  - exists 1. split; [lia | reflexivity].
  - exact reserve_all_or_none_grants.
  - exact (ex_intro _ [2] (ex_intro _ [mkRef 0 5] Hf)).
  - exact (one_frame_reachable 2 st).
  - reflexivity.
  - destruct (Hb 1%nat 9) as (s & addrs & st' & E & _); [split; [vm_compute; lia | apply le_n]|].
    exists s, addrs, st'. split; [exact E | exact Hp].
Defined.

(** C38: the batch that ends the session returns addresses it never stored.
    When the first batch holds the end-of-session packet, after frames that do not
    end the session and before at least one more frame, the loop is left before
    the later addresses are saved, but as many buffers as were received are
    returned: the array is read where it was never written. *)
Theorem xdp_end_reads_unwritten cap reserve port tw fs before a f p after r st :
  let k := length (before ++ (a, f) :: after) in
  is_capacity cap -> well cap st -> (forall used m, (used + m <= Z.to_nat kNumFrames)%nat -> reserve used m = m) ->
  is_u16 port -> Forall (fun d => goes_on port d.2) before ->
  carries_udp port f p -> (20 <= length p)%nat -> messageCount (header_of p) = kMoldEndOfSession -> after <> [] ->
  (k <= Z.to_nat kBatchSize)%nat -> (length fs + k <= Z.to_nat kNumFrames)%nat ->
  batch reserve port tw k (mkXdp (mkRings fs ((before ++ (a, f) :: after) ++ r)) addrs0 st false None) = Err UB.
Proof.
  intros k Hcap Hw Hres Hport Hb Hc H20 Heos Ha Hk Hl. unfold batch. cbn [xrings rx fill batchAddrs xfeed].
  assert (Hlen : k = (length before + S (length after))%nat) by (unfold k; rewrite length_app; simpl; lia).
  assert (0 < length after)%nat by (destruct after; [done | simpl; lia]).
  rewrite (proj2 (Nat.eqb_neq k 0)), Hres, take_app_length' by (done || lia).
  assert (Hal : length addrs0 = Z.to_nat kBatchSize) by apply length_replicate.
  destruct (batch_loop_goes_on cap Hcap port tw before ((a, f) :: after) 0 addrs0 st Hw Hb) as (addrs & st' & E & Hal' & Hun); [lia|].
  rewrite E. cbn [batch_loop]. unfold store_addr. destruct (Nat.ltb_spec (0 + length before) (length addrs)); [|lia]. rewrite bind_ok; cbv beta.
  rewrite (receiveFrame_unfold port f tw st' p) by (done || by apply moldPacket_accepts).
  unfold judge, track. rewrite Heos, Z.eqb_refl. cbv zeta iota. rewrite !bind_ok; cbv beta iota zeta.
  rewrite (refill_unwritten k 0 (S (length before))); [done | lia |].
  rewrite list_lookup_insert_ne, Hun by lia. apply lookup_replicate_2. lia.
Qed.

Definition eos_datagram : bytes := replicate 10 65 ++ be64 9 ++ be16 kMoldEndOfSession.

(** A heartbeat, the end of the session, and one more packet in a batch. *)
Definition heartbeat_datagram : bytes := replicate 10 65 ++ be64 9 ++ be16 kMoldHeartbeat.

Lemma heartbeat_goes_on : goes_on 30001 (test_frame heartbeat_datagram).
Proof.
  split; [repeat constructor; vm_compute; discriminate|]. intros p Hc Hl.
  assert (Hp : is_u16 30001) by (split; [discriminate | reflexivity]). pose proof (moldPacket_accepts _ _ _ Hp Hc Hl) as E.
  vm_compute in E. injection E as <-. vm_compute. discriminate.
Qed.

Lemma xdp_end_reads_unwritten_witness :
  exists st, batch reserve_all_or_none 30001 9 3
    (mkXdp (mkRings [] [(0, test_frame heartbeat_datagram); (4096, test_frame eos_datagram); (8192, test_frame (datagram 9))]) addrs0 st false None) = Err UB.
Proof.
  destruct full_feed as (st & Hf & _). exists st.
  apply (xdp_end_reads_unwritten 2 reserve_all_or_none 30001 9 [] [(0, test_frame heartbeat_datagram)] 4096 (test_frame eos_datagram) eos_datagram
    [(8192, test_frame (datagram 9))] [] st).
  - exists 1. split; [lia | reflexivity].
  - exact (ex_intro _ [2] (ex_intro _ [mkRef 0 5] Hf)).
  - exact reserve_all_or_none_grants.
  - split; [discriminate | reflexivity].
  - constructor; [exact heartbeat_goes_on | constructor].
  - exact (test_frame_carries eos_datagram).
  - vm_compute; lia.
  - vm_compute; reflexivity.
  - discriminate.
  - vm_compute; lia.
  - vm_compute; lia.
Defined.
