(* ===== verification/Startup.v ===== *)
(** What the threads and programs ask of the operating system before and after
    their loops: opening the socket of src/feed_handler.cpp, the AF_XDP socket
    of src/feed_handler_xdp.cpp and the files of [MatchingEngine::run] and of
    src/replay.cpp, every error path included, and the start of the receive
    thread in src/engine_udp.cpp; with the proof that what is acquired is
    released.

    What a call returns is an argument, [os]; a piece of code is the calls it
    makes and, unless it returned early, its result. *)
From Stdlib Require Import ZArith Lia String.
From stdpp Require Import base numbers list strings.
From S2P Require Import Prelude Itch MoldUDP64 FeedHandlerXdp.
Open Scope Z_scope.

Inductive sockopt :=
| ReuseAddr (v : Z) | ReusePort (v : Z) | RcvBuf (bytes : Z)
| AddMembership (group iface : Z) | MulticastTtl (v : Z).

Inductive syscall :=
| Socket
| SetSockOpt (sock : Z) (o : sockopt)
| Bind (sock addr netPort : Z)
| ReceiveLoop (sock : Z)                     (* the loop around recv *)
| SendLoop (sock addr netPort : Z)           (* the loop around sendto *)
| CloseSock (sock : Z)
| SetAffinity (cores : list Z)
| PosixMemalign (size : Z)
| FillArea (size : Z)                        (* memset and madvise *)
| UmemCreate (size fill_size comp_size frame_size frame_headroom : Z)
| FillReserve (n : Z)
| FillSubmit (n : Z)
| XskCreate (iface : option string) (queue rx_size tx_size : Z)
| XskLoop                                    (* the loop around xsk_ring_cons__peek *)
| XskDelete | UmemDelete | FreeArea
| Open (name : string) | Fstat (file : Z) | Mmap (file : Z) | Munmap | CloseFile (file : Z).

(** The calls made and the result; [None] after a [return]. *)
Definition setup (A : Type) : Type := list syscall * option A.
#[export] Instance setup_ret : MRet setup := fun A a => ([], Some a).
#[export] Instance setup_bind : MBind setup := fun A B f m =>
  match m.2 with
  | Some a => let r := f a in (m.1 ++ r.1, r.2)
  | None => (m.1, None)
  end.

Module Startup.
Section os.
Context (os : syscall -> Z).

Definition sys (c : syscall) : setup Z := ([c], Some (os c)).
(** Clean up and return. *)
Definition quit {A} (cs : list syscall) : setup A := (cs, None).
(** [if (b) { cs; return; }] *)
Definition unless (b : bool) (cs : list syscall) : setup unit := if b then quit cs else mret ().

Definition htons (port : Z) : Z := bswap16 (u16 port).
Definition INADDR_ANY : Z := 0.

(** [p && *p]: the string, when there is one and it is not empty. *)
Definition given (p : option string) : option string :=
  match p with Some s => if String.eqb s "" then None else Some s | None => None end.

Section feed_handler.
Context (inet_addr : string -> Z).

(** [runFeedHandler] up to its loop. *)
Definition openSocket (bindAddr : option string) (port : Z) (multicastGroup : option string) : setup Z :=
  sock ← sys Socket;
  _ ← unless (sock <? 0) [];
  _ ← sys (SetSockOpt sock (ReuseAddr 1));
  _ ← sys (SetSockOpt sock (ReusePort 1));
  _ ← sys (SetSockOpt sock (RcvBuf (8 * 1024 * 1024)));
  let addr := match given bindAddr with Some a => inet_addr a | None => INADDR_ANY end in
  bound ← sys (Bind sock addr (htons port));
  _ ← unless (bound <? 0) [CloseSock sock];
  match given multicastGroup with
  | Some g =>
      joined ← sys (SetSockOpt sock (AddMembership (inet_addr g) INADDR_ANY));
      _ ← unless (joined <? 0) [CloseSock sock];
      mret sock
  | None => mret sock
  end.

Definition runFeedHandler (bindAddr : option string) (port : Z) (multicastGroup : option string) : setup unit :=
  sock ← openSocket bindAddr port multicastGroup;
  _ ← sys (ReceiveLoop sock);
  _ ← sys (CloseSock sock);
  mret ().
End feed_handler.

(** [runFeedHandlerXdp] up to its loop. *)
Definition umemSize : Z := kNumFrames * kFrameSize.
Definition openXdp (iface : option string) : setup unit :=
  aligned ← sys (PosixMemalign umemSize);
  _ ← unless (negb (aligned =? 0)) [];
  _ ← sys (FillArea umemSize);
  ret ← sys (UmemCreate umemSize kNumFrames kNumFrames kFrameSize 0);
  _ ← unless (negb (ret =? 0)) [FreeArea];
  reserved ← sys (FillReserve kNumFrames);
  _ ← unless (negb (reserved =? kNumFrames)) [UmemDelete; FreeArea];
  _ ← sys (FillSubmit kNumFrames);
  ret ← sys (XskCreate iface 0 kNumFrames 64);
  _ ← unless (negb (ret =? 0)) [UmemDelete; FreeArea];
  mret ().

Definition runFeedHandlerXdp (iface : option string) : setup unit :=
  _ ← openXdp iface;
  _ ← sys XskLoop;
  _ ← sys XskDelete;
  _ ← sys UmemDelete;
  _ ← sys FreeArea;
  mret ().

(** [CPU_SET] ignores a core beyond the set. *)
Definition CPU_SETSIZE : Z := 1024.
Definition pinThread (netCore : Z) : setup unit :=
  if 0 <=? netCore then
    _ ← sys (SetAffinity (if netCore <? CPU_SETSIZE then [netCore] else []));
    mret ()
  else mret ().

(** The function of the receive thread in [runUdp]. *)
Definition netThread (inet_addr : string -> Z) (bindAddr : option string) (port : Z) (multicastGroup : option string)
    (netCore : Z) (useXdp : bool) (iface : option string) : setup unit :=
  _ ← pinThread netCore;
  if useXdp then runFeedHandlerXdp iface else runFeedHandler inet_addr bindAddr port multicastGroup.

(** Whether the thread reaches its receive loop. *)
Definition ready (inet_addr : string -> Z) (bindAddr : option string) (port : Z) (multicastGroup : option string)
    (useXdp : bool) (iface : option string) : bool :=
  if useXdp then bool_decide (is_Some (openXdp iface).2)
  else bool_decide (is_Some (openSocket inet_addr bindAddr port multicastGroup).2).

Definition MAP_FAILED : Z := -1.

(** [MatchingEngine::run]: the calls before and after the work on the mapped
    bytes. *)
Definition runFile : setup unit :=
  fd ← sys (Open "itch_data.NASDAQ_ITCH50");
  _ ← sys (Fstat fd);
  file ← sys (Mmap fd);
  _ ← unless (file =? MAP_FAILED) [CloseFile fd];
  _ ← sys Munmap;
  _ ← sys (CloseFile fd);
  mret ().

(** [main] of the replay program. *)
Definition replayMain (inet_addr : string -> Z) (file target : string) (port : Z) (multicast : bool) : setup unit :=
  fd ← sys (Open file);
  _ ← unless (fd <? 0) [];
  _ ← sys (Fstat fd);
  fileMap ← sys (Mmap fd);
  _ ← unless (fileMap =? MAP_FAILED) [CloseFile fd];
  sock ← sys Socket;
  _ ← unless (sock <? 0) [];
  _ ← (if multicast then sys (SetSockOpt sock (MulticastTtl 1)) else mret 0);
  _ ← sys (SendLoop sock (inet_addr target) (htons port));
  _ ← sys Munmap;
  _ ← sys (CloseFile fd);
  _ ← sys (CloseSock sock);
  mret ().
End os.
End Startup.
Import Startup.

(** ** Resources *)

Inductive resource := Sock (fd : Z) | File (fd : Z) | Mapping | Area | Umem | Xsk.
#[export] Instance resource_eq_dec : EqDecision resource.
Proof. solve_decision. Defined.

Section audit.
Context (os : syscall -> Z).

Definition needs (r : resource) (held : list resource) : option (list resource) :=
  if decide (r ∈ held) then Some held else None.
Definition acquire_if (b : bool) (r : resource) (held : list resource) : option (list resource) :=
  Some (if b then r :: held else held).
(** Released while held, and before what it rests on. *)
Definition release (r : resource) (users held : list resource) : option (list resource) :=
  if decide (r ∈ held) then
    if decide (Forall (fun u => u ∉ held) users) then Some (filter (fun x => x <> r) held) else None
  else None.

(** What is held after a call; [None] when it uses or releases something that
    is not held, or something that is still in use. *)
Definition effect (c : syscall) (held : list resource) : option (list resource) :=
  match c with
  | Socket => acquire_if (negb (os c <? 0)) (Sock (os c)) held
  | SetSockOpt fd _ | Bind fd _ _ | ReceiveLoop fd | SendLoop fd _ _ => needs (Sock fd) held
  | CloseSock fd => release (Sock fd) [] held
  | SetAffinity _ => Some held
  | PosixMemalign _ => acquire_if (os c =? 0) Area held
  | FillArea _ => needs Area held
  | UmemCreate _ _ _ _ _ => h ← needs Area held; acquire_if (os c =? 0) Umem h
  | FillReserve _ | FillSubmit _ => needs Umem held
  | XskCreate _ _ _ _ => h ← needs Umem held; acquire_if (os c =? 0) Xsk h
  | XskLoop => needs Xsk held
  | XskDelete => release Xsk [] held
  | UmemDelete => release Umem [Xsk] held
  | FreeArea => release Area [Umem; Xsk] held
  | Open _ => acquire_if (negb (os c <? 0)) (File (os c)) held
  | Fstat fd => needs (File fd) held
  | Mmap fd => h ← needs (File fd) held; acquire_if (negb (os c =? MAP_FAILED)) Mapping h
  | Munmap => release Mapping [] held
  | CloseFile fd => release (File fd) [] held
  end.

Fixpoint audit (cs : list syscall) (held : list resource) : option (list resource) :=
  match cs with
  | [] => Some held
  | c :: cs => h ← effect c held; audit cs h
  end.
End audit.

(** ** The audit of a piece of code *)

Section audit_lemmas.
Context (os : syscall -> Z).
Implicit Types (held : list resource) (r : resource).

Lemma audit_app cs cs' held : audit os (cs ++ cs') held = (h ← audit os cs held; audit os cs' h).
Proof. revert held; induction cs as [|c cs IH]; intros held; [done|]. cbn [app audit]. destruct (effect os c held); simpl; [apply IH | done]. Qed.

Lemma needs_held r held : r ∈ held -> needs r held = Some held.
Proof. intros H. unfold needs. by rewrite decide_True. Qed.

Lemma needs_not r held : (r ∉ held) -> needs r held = None.
Proof. intros H. unfold needs. by rewrite decide_False. Qed.

Lemma release_held r users held :
  r ∈ held -> Forall (fun u => u ∉ held) users -> release r users held = Some (filter (fun x => x <> r) held).
Proof. intros H1 H2. unfold release. by rewrite !decide_True. Qed.

(** What a successful or failed piece leaves. *)
Definition leaves {A} (m : setup A) (held : list resource) (post : option A -> list resource -> Prop) : Prop :=
  exists h, audit os m.1 held = Some h /\ post m.2 h.

Lemma leaves_ret {A} (a : A) held post : post (Some a) held -> leaves (mret a) held post.
Proof. intros H. by exists held. Qed.

Lemma leaves_bind {A B} (m : setup A) (f : A -> setup B) held post :
  leaves m held (fun a h => match a with Some a => leaves (f a) h post | None => post None h end) -> leaves (m ≫= f) held post.
Proof.
  intros (h & E & H). destruct m as [cs [a|]]; cbn [fst snd] in *.
  - destruct H as (h' & E' & H). exists h'. unfold mbind, setup_bind; cbn [fst snd]. rewrite audit_app, E. by split.
  - by exists h.
Qed.

Lemma leaves_sys c held h post : effect os c held = Some h -> post (Some (os c)) h -> leaves (sys os c) held post.
Proof. intros E H. exists h. cbn. by rewrite E. Qed.

Lemma leaves_unless (b : bool) cs held post :
  (b = true -> exists h, audit os cs held = Some h /\ post None h) -> (b = false -> post (Some tt) held) ->
  leaves (unless b cs) held post.
Proof. intros H1 H2. destruct b; [by apply H1 | by exists held; split; [|apply H2]]. Qed.
End audit_lemmas.

(** Walk through the calls; membership in a short list of resources. *)
Ltac holds := first [done | rewrite ?elem_of_cons; naive_solver].
Ltac simplify_effect :=
  cbn [effect]; unfold acquire_if;
  rewrite ?needs_held by holds; rewrite ?release_held by (holds || (repeat constructor; rewrite ?elem_of_cons, ?elem_of_nil; naive_solver)).
Ltac call := apply leaves_bind; eapply leaves_sys; [simplify_effect; reflexivity|]; cbv beta iota.
(** A check of a result; the first goal is the early return. *)
Ltac check := apply leaves_bind; apply leaves_unless; let H := fresh in intros H; rewrite ?negb_true_iff, ?negb_false_iff in H; try rewrite H; cbn [negb]; cbv beta iota.
Ltac filtered := rewrite ?filter_cons, ?filter_nil; repeat first [rewrite decide_True by discriminate | rewrite decide_False by (let H := fresh in intros H; apply H; reflexivity)]; try reflexivity.
Ltac quits := eexists; split; [cbn [audit]; simplify_effect; cbn [mbind option_bind audit]; reflexivity | cbv beta iota; filtered].

Lemma openSocket_leaves os inet_addr bindAddr port group :
  leaves os (openSocket os inet_addr bindAddr port group) [] (fun r h => match r with Some fd => h = [Sock fd] | None => h = [] end).
Proof.
  unfold openSocket. call. check; [quits|]. do 3 call. call. check; [quits|].
  destruct (given group) as [g|].
  - call. check; [quits|]. by apply leaves_ret.
  - by apply leaves_ret.
Qed.

Lemma openXdp_leaves os iface :
  leaves os (openXdp os iface) [] (fun r h => match r with Some _ => h = [Xsk; Umem; Area] | None => h = [] end).
Proof.
  unfold openXdp. call. check; [quits|]. do 2 call. check; [quits|]. call. check; [quits|]. do 2 call. check; [quits|]. by apply leaves_ret.
Qed.

Lemma leaves_mono os {A} (m : setup A) held (post post' : option A -> list resource -> Prop) :
  leaves os m held post -> (forall r h, post r h -> post' r h) -> leaves os m held post'.
Proof. intros (h & E & H) Hi. exists h. eauto. Qed.

Lemma netThread_leaves os inet_addr bindAddr port group netCore useXdp iface :
  leaves os (netThread os inet_addr bindAddr port group netCore useXdp iface) [] (fun _ h => h = []).
Proof.
  unfold netThread. apply leaves_bind. exists []. split; [by unfold pinThread; destruct (0 <=? netCore)|].
  assert (Hp : exists a, (pinThread os netCore).2 = Some a) by (unfold pinThread; destruct (0 <=? netCore); eexists; reflexivity).
  destruct Hp as [a ->]. destruct useXdp.
  - unfold runFeedHandlerXdp. apply leaves_bind. eapply leaves_mono; [apply openXdp_leaves|]. intros [r|] h ->; [|done].
    do 2 call. filtered. call. filtered. call. apply leaves_ret. by filtered.
  - unfold runFeedHandler. apply leaves_bind. eapply leaves_mono; [apply openSocket_leaves|]. intros [r|] h ->; [|done].
    do 2 call. apply leaves_ret. by filtered.
Qed.

(** File and mapping are left when both were had and the socket was not. *)
Definition replay_leaves (os : syscall -> Z) (file : string) : list resource :=
  let fd := os (Open file) in
  if negb (fd <? 0) && negb (os (Mmap fd) =? MAP_FAILED) && (os Socket <? 0) then [Mapping; File fd] else [].

Lemma replayMain_leaves os inet_addr file target port mc :
  leaves os (replayMain os inet_addr file target port mc) [] (fun _ h => h = replay_leaves os file).
Proof.
  unfold replayMain, replay_leaves. call. check; [by eexists|]. do 2 call.
  check; [eexists; split; [cbn [audit]; simplify_effect; reflexivity | by filtered]|].
  call. check; [by eexists|]. apply leaves_bind. destruct mc.
  - eapply leaves_sys; [simplify_effect; reflexivity|]. cbv beta iota. do 2 call. filtered. call. filtered. call. apply leaves_ret. by filtered.
  - apply leaves_ret. cbv beta iota. do 2 call. filtered. call. filtered. call. apply leaves_ret. by filtered.
Qed.

Lemma runFile_leaves os : 0 <= os (Open "itch_data.NASDAQ_ITCH50") -> leaves os (runFile os) [] (fun _ h => h = []).
Proof.
  intros Ho. unfold runFile. call. rewrite (proj2 (Z.ltb_ge _ _) Ho). cbn [negb]. do 2 call. check; [quits|].
  call. filtered. call. apply leaves_ret. by filtered.
Qed.

(** Without the file [run] goes on with a descriptor it does not have. *)
Lemma runFile_misuse os : os (Open "itch_data.NASDAQ_ITCH50") < 0 -> audit os (runFile os).1 [] = None.
Proof.
  intros Ho. apply Z.ltb_lt in Ho. unfold runFile. cbn [mbind setup_bind sys fst snd app audit effect acquire_if]. rewrite Ho. done.
Qed.

Lemma ready_xdp os iface :
  bool_decide (is_Some (openXdp os iface).2) =
  (os (PosixMemalign umemSize) =? 0) && (os (UmemCreate umemSize kNumFrames kNumFrames kFrameSize 0) =? 0) &&
  (os (FillReserve kNumFrames) =? kNumFrames) && (os (XskCreate iface 0 kNumFrames 64) =? 0).
Proof.
  unfold openXdp, unless. cbn [mbind setup_bind sys fst snd].
  destruct (os (PosixMemalign umemSize) =? 0); [|done]. cbn [negb mret setup_ret snd fst].
  destruct (os (UmemCreate _ _ _ _ _) =? 0); [|done]. cbn [negb mret setup_ret snd fst].
  destruct (os (FillReserve kNumFrames) =? kNumFrames); [|done]. cbn [negb mret setup_ret snd fst].
  by destruct (os (XskCreate iface 0 kNumFrames 64) =? 0).
Qed.

Lemma ready_socket os inet_addr bindAddr port group :
  bool_decide (is_Some (openSocket os inet_addr bindAddr port group).2) =
  negb (os Socket <? 0) &&
  negb (os (Bind (os Socket) (match given bindAddr with Some a => inet_addr a | None => INADDR_ANY end) (htons port)) <? 0) &&
  match given group with
  | Some g => negb (os (SetSockOpt (os Socket) (AddMembership (inet_addr g) INADDR_ANY)) <? 0)
  | None => true
  end.
Proof.
  unfold openSocket, unless. cbn [mbind setup_bind sys fst snd].
  destruct (os Socket <? 0); [done|]. cbn [negb mret setup_ret snd fst].
  destruct (os (Bind _ _ _) <? 0); [done|]. cbn [negb mret setup_ret snd fst].
  destruct (given group) as [g|]; [|done]. by destruct (os (SetSockOpt _ _) <? 0).
Qed.

(** ** Properties *)

(** C21: whatever the calls return, the receive thread releases exactly what it
    acquired, never uses or releases anything it does not hold, and takes the
    AF_XDP socket, its memory registration and the memory down in that order; it
    reaches its loop exactly if every call it checks succeeds. The replay program
    releases all it acquired too, unless file and mapping were had and the socket
    was not: then exactly file and mapping are left. [MatchingEngine::run] does so if its file opens, and
    otherwise goes on with an invalid descriptor. *)
Theorem resources_released os inet_addr bindAddr port group netCore useXdp iface file target mc :
  audit os (netThread os inet_addr bindAddr port group netCore useXdp iface).1 [] = Some [] /\
  ready os inet_addr bindAddr port group useXdp iface =
    (if useXdp then
       (os (PosixMemalign umemSize) =? 0) && (os (UmemCreate umemSize kNumFrames kNumFrames kFrameSize 0) =? 0) &&
       (os (FillReserve kNumFrames) =? kNumFrames) && (os (XskCreate iface 0 kNumFrames 64) =? 0)
     else
       negb (os Socket <? 0) &&
       negb (os (Bind (os Socket) (match given bindAddr with Some a => inet_addr a | None => INADDR_ANY end) (htons port)) <? 0) &&
       match given group with
       | Some g => negb (os (SetSockOpt (os Socket) (AddMembership (inet_addr g) INADDR_ANY)) <? 0)
       | None => true
       end) /\
  audit os (replayMain os inet_addr file target port mc).1 [] =
    Some (if negb (os (Open file) <? 0) && negb (os (Mmap (os (Open file))) =? MAP_FAILED) && (os Socket <? 0)
          then [Mapping; File (os (Open file))] else []) /\
  audit os (runFile os).1 [] = (if os (Open "itch_data.NASDAQ_ITCH50") <? 0 then None else Some []).
Proof.
  split_and!.
  - by destruct (netThread_leaves os inet_addr bindAddr port group netCore useXdp iface) as (h & E & ->).
  - unfold ready. destruct useXdp; [apply ready_xdp | apply ready_socket].
  - by destruct (replayMain_leaves os inet_addr file target port mc) as (h & E & ->).
  - destruct (Z.ltb_spec (os (Open "itch_data.NASDAQ_ITCH50")) 0) as [Ho|Ho]; [by apply runFile_misuse|].
    by destruct (runFile_leaves os Ho) as (h & E & ->).
Qed.
