(* ===== verification/EngineUdp.v ===== *)
(** The UDP mode of the engine, [MatchingEngine::runUdp] of
    src/engine_udp.cpp: the receive thread and the matching thread around the
    packet pool and the ring. Each turn of a thread is an executable function;
    the system takes turns in any order.

    A turn is a call of [acquire], the handling of one [recv], one try of
    [push] or [pop], or the processing of one packet. Taking such a call as one
    step is what [SpscRing.spsc_linearizable] and [PacketPool.pool_linearizable] show
    of their single loads, stores and compare-and-swaps; between these calls a
    thread only touches its own variables and the slot it owns. *)
From Stdlib Require Import ZArith Lia.
From stdpp Require Import base numbers gmap list relations.
From S2P Require Import Prelude Tsc FlatHashMap Itch MoldUDP64 SpscRing PacketPool FeedHandler FeedHandlerXdp Exchange MatchingEngine.
Open Scope Z_scope.

Definition kRingSlots : Z := 65536.
Definition kPoolSlots : Z := 131072.

(** Where the receive thread is: at the head of its loop, inside [recv] with or
    without a slot, pushing the sentinel, or returned. *)
Inductive net_pc := NetLoop | NetHolding (slotIdx : Z) | NetStarved | NetSentinel (sentinel : PacketRef) | NetDone.

(** A turn of a thread with what the network and the counter give it. *)
Inductive turn :=
| NetTurn (r : recv_result) (tWire : Z)
| XdpTurn (first : bool) (frame : bytes) (tWire : Z)
| EngTurn.

(** The turns of a run: on one of the receive paths; [recv] stores at most the
    buffer's size and frames are bytes. *)
Definition turn_ok (useXdp : bool) (t : turn) : Prop :=
  match t with
  | NetTurn (Received p) _ => useXdp = false /\ wire_ok p
  | NetTurn _ _ => useXdp = false
  | XdpTurn _ frame _ => useXdp = true /\ Forall is_byte frame
  | EngTurn => True
  end.

#[export] Instance turn_ok_dec useXdp t : Decision (turn_ok useXdp t).
Proof. destruct t as [[p| |] tw|first frame tw|]; simpl; unfold wire_ok, is_byte; apply _. Defined.

(** Where the matching thread is: popping, with a packet, or out of its loop. *)
Inductive eng_pc := EngLoop (spinBudget : Z) | EngHolding (ref : PacketRef) | EngDone.

#[export] Instance eng_pc_eq_dec : EqDecision eng_pc.
Proof. solve_decision. Defined.

(** The two threads and what they share. The last four fields record what
    happened: the datagrams received, those whose reference was pushed (with
    its time stamp), those accepted but not pushed, and those processed. *)
Record udp (I : Type) := mkUdp {
  fd : feed; net : net_pc; eng : eng_pc; stop : bool;
  engine : MatchingEngine I; scratch : EngineScratch; matched : Z;
  arrived : list bytes; queued : list (bytes * Z); lost : list bytes; processed : list (bytes * Z)
}.
Arguments mkUdp {I} _ _ _ _ _ _ _ _ _ _ _.
Arguments fd {I} _.
Arguments net {I} _.
Arguments eng {I} _.
Arguments stop {I} _.
Arguments engine {I} _.
Arguments scratch {I} _.
Arguments matched {I} _.
Arguments arrived {I} _.
Arguments queued {I} _.
Arguments lost {I} _.
Arguments processed {I} _.

Module EngineUdp.
Section udp.
Context {I : Type} {HI : OrderIndex I} (tscNow : Z -> Z).
Implicit Types (s : udp I) (e : MatchingEngine I).

(** The matching thread's work: engine, scratch buffer and message counter. *)
Definition work : Type := MatchingEngine I * EngineScratch * Z.

(** [while (msg = it.next(msgLen)) processMessage(...)]. *)
Fixpoint packet_loop (fuel : nat) (it : MoldMessageIterator) (tWire : Z) (w : work) : result work :=
  match fuel with
  | O => Err Diverge
  | S fuel =>
      '(m, it) ← MoldMessageIterator.next it;
      match m with
      | None => Ok w
      | Some (msgLen, msg) =>
          let '(e, scratch, messageCount) := w in
          '(scratch, e) ← MatchingEngine.processMessage tscNow msg msgLen scratch tWire e;
          packet_loop fuel it tWire (e, scratch, u64 (messageCount + 1))
      end
  end.

(** The packet in [slot]. Every message takes two bytes of the body at least. *)
Definition processPacket (slot : BufferSlot) (tWire : Z) (w : work) : result work :=
  body ← advance (Z.to_nat kMoldHeaderBytes) (data slot);
  packet_loop (S (length body)) (MoldMessageIterator.new body (u64 (length_ slot - kMoldHeaderBytes))) tWire w.

Definition payload_of (r : recv_result) : list bytes := match r with Received p => [p] | _ => [] end.

(** What one [receive] did to the records: the ring's tail moved, or the
    tracker accepted the datagram and it did not. *)
Definition tail_moved (f f' : feed) : bool := negb (SpscRing.tail (queue f') =? SpscRing.tail (queue f)).
Definition was_accepted (f : feed) (r : recv_result) : bool :=
  match r with
  | Received p => (20 <=? length p)%nat && bool_decide ((judge f p).1.1 = Accepted)
  | _ => false
  end.

(** [while (!ring.push(sentinel) && !stop.load())], one try. *)
Definition sentinelTurn (ref : PacketRef) s : result (udp I) :=
  '(pushed, q) ← SpscRing.push ref (queue (fd s));
  let f := mkFeed (pkts (fd s)) q (stats (fd s)) (trk (fd s)) in
  let n := if (pushed : bool) || stop s then NetDone else NetSentinel ref in
  Ok (mkUdp f n (eng s) (stop s) (engine s) (scratch s) (matched s) (arrived s) (queued s) (lost s) (processed s)).

Definition netTurn (r : recv_result) (tWire : Z) s : result (udp I) :=
  match net s with
  | NetLoop =>
      if stop s then
        Ok (mkUdp (fd s) NetDone (eng s) (stop s) (engine s) (scratch s) (matched s) (arrived s) (queued s) (lost s) (processed s))
      else
        '(slotIdx, p) ← PacketPool.acquire (pkts (fd s));
        let f := mkFeed p (queue (fd s)) (stats (fd s)) (trk (fd s)) in
        let n := if slotIdx =? kPoolInvalid then NetStarved else NetHolding slotIdx in
        Ok (mkUdp f n (eng s) (stop s) (engine s) (scratch s) (matched s) (arrived s) (queued s) (lost s) (processed s))
  | NetStarved =>
      Ok (mkUdp (FeedHandler.starved r (fd s)) NetLoop (eng s) (stop s) (engine s) (scratch s) (matched s)
            (arrived s ++ payload_of r) (queued s) (lost s ++ payload_of r) (processed s))
  | NetHolding slotIdx =>
      '(ctl, f) ← FeedHandler.receive slotIdx r tWire (fd s);
      let n := match ctl with Continue => NetLoop | Break => NetDone | PushSentinel ref => NetSentinel ref end in
      let sent := if tail_moved (fd s) f then payload_of r else [] in
      let missed := if was_accepted (fd s) r && negb (tail_moved (fd s) f) then payload_of r else [] in
      Ok (mkUdp f n (eng s) (stop s) (engine s) (scratch s) (matched s) (arrived s ++ payload_of r)
            (queued s ++ ((fun p => (p, tWire)) <$> sent)) (lost s ++ missed) (processed s))
  | NetSentinel ref => sentinelTurn ref s
  | NetDone => Ok s
  end.

(** What a frame adds to the records: the packet it carries, cut to a slot. *)
Definition frame_input (port : Z) (frame : bytes) : recv_result :=
  match FeedHandlerXdp.moldPacket port frame with Ok (Some p) => Received (cut p) | _ => Interrupted end.

(** A turn of the AF_XDP thread handles one frame of a batch, or ends the loop.
    The stop flag is read before the [first] frame of a batch only. What the
    matching thread does between the accesses of one frame commutes with them:
    it releases slots the frame does not use and takes from the other end of the
    ring. The return of frame buffers between batches is in
    [FeedHandlerXdp.batch]. *)
Definition xdpTurn (port : Z) (first : bool) (frame : bytes) (tWire : Z) s : result (udp I) :=
  match net s with
  | NetLoop =>
      if first && stop s then
        Ok (mkUdp (fd s) NetDone (eng s) (stop s) (engine s) (scratch s) (matched s) (arrived s) (queued s) (lost s) (processed s))
      else
        '(ctl, f) ← FeedHandlerXdp.receiveFrame port frame tWire (fd s);
        let r := frame_input port frame in
        let n := match ctl with Continue => NetLoop | Break => NetDone | PushSentinel ref => NetSentinel ref end in
        let sent := if tail_moved (fd s) f then payload_of r else [] in
        let missed := if was_accepted (fd s) r && negb (tail_moved (fd s) f) then payload_of r else [] in
        Ok (mkUdp f n (eng s) (stop s) (engine s) (scratch s) (matched s) (arrived s ++ payload_of r)
              (queued s ++ ((fun p => (p, tWire)) <$> sent)) (lost s ++ missed) (processed s))
  | NetSentinel ref => sentinelTurn ref s
  | NetHolding _ | NetStarved | NetDone => Ok s
  end.

Definition engTurn s : result (udp I) :=
  match eng s with
  | EngLoop spinBudget =>
      '(r, q) ← SpscRing.pop (queue (fd s));
      let f := mkFeed (pkts (fd s)) q (stats (fd s)) (trk (fd s)) in
      match r with
      | None =>
          let spinBudget := spinBudget + 1 in
          if 1024 <=? spinBudget then
            Ok (mkUdp f (net s) (if stop s then EngDone else EngLoop 0) (stop s) (engine s) (scratch s) (matched s)
                  (arrived s) (queued s) (lost s) (processed s))
          else
            Ok (mkUdp f (net s) (EngLoop spinBudget) (stop s) (engine s) (scratch s) (matched s)
                  (arrived s) (queued s) (lost s) (processed s))
      | Some ref =>
          if ref_poolIdx ref =? kPoolInvalid then
            Ok (mkUdp f (net s) EngDone true (engine s) (scratch s) (matched s)
                  (arrived s) (queued s) (lost s) (processed s))
          else
            Ok (mkUdp f (net s) (EngHolding ref) (stop s) (engine s) (scratch s) (matched s)
                  (arrived s) (queued s) (lost s) (processed s))
      end
  | EngHolding ref =>
      slot ← PacketPool.get (pkts (fd s)) (ref_poolIdx ref);
      '(e, scr, m) ← processPacket slot (ref_tWire ref) (engine s, scratch s, matched s);
      p ← PacketPool.release (ref_poolIdx ref) (pkts (fd s));
      let f := mkFeed p (queue (fd s)) (stats (fd s)) (trk (fd s)) in
      Ok (mkUdp f (net s) (EngLoop 0) (stop s) e scr m (arrived s) (queued s) (lost s)
            (processed s ++ [(take (Z.to_nat (length_ slot)) (data slot), ref_tWire ref)]))
  | EngDone => Ok s
  end.

(** The state [runUdp] sets up. The receive thread is at its loop if its set-up
    succeeded ([Startup.ready]) and has returned otherwise. What the matching
    thread does while it sets up is the same spinning on an empty ring. *)
Definition initial (ready : bool) (poolSlots ringSlots : Z) e : result (udp I) :=
  p ← PacketPool.new poolSlots;
  r ← SpscRing.new (mkRef 0 0) ringSlots;
  Ok (mkUdp (mkFeed p r FeedStats.new tracker0) (if ready then NetLoop else NetDone) (EngLoop 0) false e (mkScratch [] []) 0 [] [] [] []).

(** The turns of both threads in the order they happen. *)
Definition takeTurn (port : Z) (t : turn) s : result (udp I) :=
  match t with
  | NetTurn r tWire => netTurn r tWire s
  | XdpTurn first frame tWire => xdpTurn port first frame tWire s
  | EngTurn => engTurn s
  end.
Fixpoint takeTurns (port : Z) (ts : list turn) s : result (udp I) :=
  match ts with
  | [] => Ok s
  | t :: ts => s ← takeTurn port t s; takeTurns port ts s
  end.

(** Any thread takes the next turn. A turn that fails, an exception in
    [processMessage] say, ends the program, so every state that is reached was
    reached by turns that succeeded. [useXdp] and [port] are arguments of
    [runUdp]; a [recv] stores at most the buffer's size. *)
Inductive step (useXdp : bool) (port : Z) : udp I -> udp I -> Prop :=
| net_step r tWire s s' :
    useXdp = false -> (forall p, r = Received p -> wire_ok p) -> netTurn r tWire s = Ok s' -> step useXdp port s s'
| xdp_step first frame tWire s s' :
    useXdp = true -> Forall is_byte frame -> xdpTurn port first frame tWire s = Ok s' -> step useXdp port s s'
| eng_step s s' : engTurn s = Ok s' -> step useXdp port s s'.

(** [runUdp] after the loop, with the ratio [calibrateTscUdp] returned. *)
Definition finish (p : platform) (cyclesPerNs : double) e : result (MatchingEngine I) := MatchingEngine.convert p cyclesPerNs e.
End udp.
End EngineUdp.

(** The sizes of [runUdp] meet what the theorems ask of them. *)
Lemma runUdp_sizes : is_capacity kRingSlots /\ kRingSlots < kPoolSlots <= kPoolInvalid.
Proof. split; [exists 16; split; [lia | done] | unfold kRingSlots, kPoolSlots, kPoolInvalid, UINT32_MAX; lia]. Qed.

(** ** What was accepted *)

(** The datagrams a tracker accepts out of those received, and the tracker. *)
Fixpoint admitted (t : tracker) (arr : list bytes) : list bytes * tracker :=
  match arr with
  | [] => ([], t)
  | p :: arr =>
      if (20 <=? length p)%nat then
        let '(v, t, _) := track (header_of p) t FeedStats.new in
        let '(acc, t) := admitted t arr in
        (match v with Accepted => p :: acc | _ => acc end, t)
      else admitted t arr
  end.

(** Verdict and tracker do not depend on the counters. *)
Lemma track_stats h t s s' : (track h t s).1 = (track h t s').1.
Proof.
  unfold track. generalize (if sessionInit t then t else mkTracker (session h) true (sequenceNumber h)) as t1; intros t1.
  destruct (messageCount h =? kMoldEndOfSession), (messageCount h =? kMoldHeartbeat),
    (sequenceNumber h <? nextExpected t1), (nextExpected t1 <? sequenceNumber h); done.
Qed.

Lemma admitted_snoc t arr p :
  admitted t (arr ++ [p]) =
  let '(acc, t) := admitted t arr in
  if (20 <=? length p)%nat then
    let '(v, t, _) := track (header_of p) t FeedStats.new in
    (match v with Accepted => acc ++ [p] | _ => acc end, t)
  else (acc, t).
Proof.
  revert t; induction arr as [|p0 arr IH]; intros t; cbn [admitted app].
  - case_match; [|done]. destruct (track _ t _) as [[[] t1] s1]; done.
  - destruct (20 <=? length p0)%nat; [|apply IH]. destruct (track (header_of p0) t _) as [[v0 t0] s0]. rewrite IH.
    destruct (admitted t0 arr) as [acc t1]. destruct (20 <=? length p)%nat; [|done]. destruct (track (header_of p) t1 _) as [[v t2] s2].
    by destruct v0, v.
Qed.

Definition is_eos (p : bytes) : Prop := (20 <= length p)%nat /\ messageCount (header_of p) = kMoldEndOfSession.

(** The end-of-session marker arrived, as the last datagram. *)
Definition eos_last (arr : list bytes) : Prop := exists arr' p, arr = arr' ++ [p] /\ is_eos p.

Lemma eos_last_snoc arr p : eos_last (arr ++ [p]) <-> is_eos p.
Proof.
  split; [|unfold eos_last; eauto]. by intros (arr' & p' & [_ ->]%app_inj_tail & Hp).
Qed.

Lemma track_eos h t s : (track h t s).1.1 = EndOfSession <-> messageCount h = kMoldEndOfSession.
Proof.
  unfold track. destruct (Z.eqb_spec (messageCount h) kMoldEndOfSession) as [E|E]; [done|].
  split; [|done]. repeat case_match; simplify_eq; done.
Qed.

(** ** Ownership of the slots *)

Definition net_slots (n : net_pc) : list Z := match n with NetHolding i => [i] | _ => [] end.
Definition eng_refs (c : eng_pc) : list PacketRef := match c with EngHolding ref => [ref] | _ => [] end.

(** The slot of a reference holds the datagram it was pushed for. *)
Definition carries (f : feed) (ref : PacketRef) (x : bytes * Z) : Prop :=
  slot_holds (pkts f) (ref_poolIdx ref) x.1 /\ ref_tWire ref = x.2 /\ wire_ok x.1 /\ (20 <= length x.1)%nat.

Section invariant.
Context {I : Type} {HI : OrderIndex I} (n cap : Z).
Context (Hcap : is_capacity cap) (Hn : cap < n <= kPoolInvalid).
Implicit Types (s : udp I) (F : list Z) (refs sent : list PacketRef) (flight : list (bytes * Z)).

(** [F] is free, [refs] and then [sent] are in the ring, [flight] are the
    datagrams pushed and not yet processed. *)
Record udp_ok s F refs sent flight : Prop := {
  uo_feed : feed_ok cap (fd s) F (refs ++ sent);
  uo_len : vlen (slots (pkts (fd s))) = n;
  uo_slots : F ++ net_slots (net s) ++ (ref_poolIdx <$> eng_refs (eng s) ++ refs) ≡ₚ seqZ 0 n;
  uo_flight : Forall2 (carries (fd s)) (eng_refs (eng s) ++ refs) flight;
  uo_queued : queued s = processed s ++ flight;
  uo_sent : sent = [] \/ net s = NetDone /\ exists ref, sent = [ref] /\ ref_poolIdx ref = kPoolInvalid;
  uo_sentinel : forall ref, net s = NetSentinel ref -> ref_poolIdx ref = kPoolInvalid;
  uo_eos : ((exists ref, net s = NetSentinel ref) \/ sent <> [] \/ eng s = EngDone) <-> eos_last (arrived s);
  uo_done : eng s = EngDone -> refs = [] /\ sent = [] /\ net s = NetDone;
  uo_stop : stop s = true -> eng s = EngDone;
  uo_fed : net s <> NetStarved;
  uo_track : exists acc, admitted tracker0 (arrived s) = (acc, trk (fd s)) /\ (queued s).*1 `sublist_of` acc /\
    length acc = (length (queued s) + length (lost s))%nat;
  uo_room : lost s = [] \/ cap - 1 <= Z.of_nat (length (queued s))
}.

Definition sound s : Prop := exists F refs sent flight, udp_ok s F refs sent flight.

Lemma admitted_length t arr : (length (admitted t arr).1 <= length arr)%nat.
Proof using.
  revert t; induction arr as [|p arr IH]; intros t; cbn [admitted]; [done|]. destruct (20 <=? length p)%nat; simpl; [|specialize (IH t); lia].
  destruct (track _ _ _) as [[v t1] st]. specialize (IH t1). destruct (admitted t1 arr) as [acc t2]. destruct v; simpl in *; lia.
Qed.

(** Fewer datagrams than the ring has slots are never dropped, however late the
    matching thread is. *)
Lemma few_not_lost s : sound s -> Z.of_nat (length (arrived s)) < cap -> lost s = [].
Proof using.
  intros (F & refs & sent & flight & H) Hlen. destruct (uo_room _ _ _ _ _ H) as [?|Hr]; [done|].
  destruct (uo_track _ _ _ _ _ H) as (acc & Ea & _ & El). pose proof (admitted_length tracker0 (arrived s)) as Hle. rewrite Ea in Hle. simpl in Hle.
  apply length_zero_iff_nil. lia.
Qed.

Lemma initial_sound ready e s : EngineUdp.initial ready n cap e = Ok s -> sound s.
Proof using Hcap Hn.
  unfold EngineUdp.initial. pose proof (is_capacity_range _ Hcap). intros (p & Ep & (r & Er & [= <-])%bind_inv)%bind_inv.
  destruct (feed_new cap Hcap n p r FeedStats.new tracker0) as [Hf Hl]; [lia | done | done |].
  exists (seqZ 0 n), [], [], []. split; simpl; destruct ready; try done;
    first [by rewrite app_nil_r | by left | by exists [] | split; [naive_solver | by intros ([|] & ? & ? & _)]].
Qed.

Lemma in_range s F refs sent flight i :
  udp_ok s F refs sent flight -> i ∈ F ++ net_slots (net s) ++ (ref_poolIdx <$> eng_refs (eng s) ++ refs) -> 0 <= i < n.
Proof using. intros H. rewrite (uo_slots _ _ _ _ _ H), elem_of_seqZ. lia. Qed.

Lemma slots_nodup s F refs sent flight :
  udp_ok s F refs sent flight -> NoDup (F ++ net_slots (net s) ++ (ref_poolIdx <$> eng_refs (eng s) ++ refs)).
Proof using. intros H. rewrite (uo_slots _ _ _ _ _ H). apply NoDup_seqZ. Qed.

(** Other slots were touched: what is carried stays. *)
Lemma carries_same f f' i rs xs :
  same_but i (pkts f) (pkts f') -> (i ∉ ref_poolIdx <$> rs) -> Forall2 (carries f) rs xs -> Forall2 (carries f') rs xs.
Proof using.
  intros Hs Hi H. induction H as [|ref x rs xs (Hc & Ht & Hw & Hl) _ IH]; [constructor|].
  rewrite fmap_cons, not_elem_of_cons in Hi. destruct Hi as [Hi1 Hi2].
  constructor; [|auto]. split_and!; try done. eapply slot_holds_same; eauto.
Qed.

Lemma carries_pool f f' rs xs :
  slots (pkts f') = slots (pkts f) -> Forall2 (carries f) rs xs -> Forall2 (carries f') rs xs.
Proof using. intros E. unfold carries, slot_holds. by rewrite E. Qed.

(** The free list is never empty when the receive thread acquires. *)
Lemma never_starves s F refs sent flight :
  udp_ok s F refs sent flight -> net_slots (net s) = [] -> F <> [].
Proof using Hn.
  intros H Hnet ->. pose proof (uo_slots _ _ _ _ _ H) as Hp. rewrite Hnet in Hp. apply Permutation_length in Hp.
  rewrite length_seqZ in Hp. simpl in Hp. rewrite fmap_app, length_app, !length_fmap in Hp.
  pose proof (ring_rep_length cap _ _ (fo_ring _ _ _ _ (uo_feed _ _ _ _ _ H))) as Hq. rewrite length_app in Hq.
  assert (length (eng_refs (eng s)) <= 1)%nat by (destruct (eng s); simpl; lia). lia.
Qed.

(** What is in the ring was queued. *)
Lemma refs_queued s F refs sent flight : udp_ok s F refs sent flight -> (length refs <= length (queued s))%nat.
Proof using.
  intros H. pose proof (Forall2_length _ _ _ (uo_flight _ _ _ _ _ H)) as Hl. rewrite length_app in Hl.
  rewrite (uo_queued _ _ _ _ _ H), length_app. lia.
Qed.

Lemma room_kept s F refs sent flight lost' :
  udp_ok s F refs sent flight -> lost' = lost s \/ cap - 1 <= Z.of_nat (length refs) ->
  lost' = [] \/ cap - 1 <= Z.of_nat (length (queued s)).
Proof using. intros H [->|Hr]; [exact (uo_room _ _ _ _ _ H)|]. right. pose proof (refs_queued _ _ _ _ _ H). lia. Qed.

(** Nor did queueing one more datagram take room. *)
Lemma room_queued s F refs sent flight x :
  udp_ok s F refs sent flight -> lost s = [] \/ cap - 1 <= Z.of_nat (length (queued s ++ [x])).
Proof using. intros H. destruct (uo_room _ _ _ _ _ H) as [?|?]; [by left | right; rewrite length_app; lia]. Qed.

(** A field of the invariant that the turn did not touch. *)
Ltac keep H := first
  [ done | exact (uo_queued _ _ _ _ _ H) | exact (uo_track _ _ _ _ _ H) | exact (uo_sentinel _ _ _ _ _ H)
  | exact (uo_stop _ _ _ _ _ H) | exact (uo_len _ _ _ _ _ H) | exact (uo_flight _ _ _ _ _ H) | exact (uo_sent _ _ _ _ _ H)
  | exact (uo_room _ _ _ _ _ H) | exact (uo_fed _ _ _ _ _ H) | exact (uo_done _ _ _ _ _ H) | exact (uo_eos _ _ _ _ _ H) | exact (uo_slots _ _ _ _ _ H)
  | left; reflexivity ].

(** *** Turns of the receive thread *)

Lemma sent_nil s F refs sent flight : udp_ok s F refs sent flight -> net s <> NetDone -> sent = [].
Proof using Hcap Hn. intros H Hne. by destruct (uo_sent _ _ _ _ _ H) as [?|[? _]]. Qed.

Lemma holding_owned s F refs sent flight i :
  udp_ok s F refs sent flight -> net s = NetHolding i ->
  owned (fd s) F i /\ (i ∉ ref_poolIdx <$> eng_refs (eng s) ++ refs).
Proof using Hcap Hn.
  intros H Hi. pose proof (slots_nodup _ _ _ _ _ H) as Hnd. rewrite Hi in Hnd. cbn [net_slots app] in Hnd.
  apply NoDup_app_3 in Hnd as (H1 & H2 & _). split; [|done]. split; [|done]. rewrite (uo_len _ _ _ _ _ H).
  eapply in_range; [done|]. rewrite Hi. set_solver.
Qed.

Lemma not_done s F refs sent flight : udp_ok s F refs sent flight -> net s <> NetDone -> eng s <> EngDone /\ stop s = false.
Proof using Hcap Hn.
  intros H Hne. assert (Hd : eng s <> EngDone) by (intros Hd; by destruct (uo_done _ _ _ _ _ H Hd) as (_ & _ & ?)).
  split; [done|]. destruct (stop s) eqn:E; [|done]. by apply (uo_stop _ _ _ _ _ H) in E.
Qed.

(** The slot went back to the pool and the datagram is not in the ring. *)
Lemma returned_ok s F refs flight i f' n' arr' lost' :
  udp_ok s F refs [] flight -> net s = NetHolding i -> feed_ok cap f' (i :: F) refs ->
  same_but i (pkts (fd s)) (pkts f') ->
  (n' = NetLoop \/ n' = NetDone) /\ ~ eos_last arr' \/ (exists ref p, n' = NetSentinel ref /\ ref_poolIdx ref = kPoolInvalid /\ arr' = arrived s ++ [p] /\ is_eos p) ->
  (exists acc, admitted tracker0 arr' = (acc, trk f') /\ (queued s).*1 `sublist_of` acc /\ length acc = (length (queued s) + length lost')%nat) ->
  lost' = lost s \/ cap - 1 <= Z.of_nat (length refs) ->
  sound (mkUdp f' n' (eng s) (stop s) (engine s) (scratch s) (matched s) arr' (queued s) lost' (processed s)).
Proof using Hcap Hn.
  intros H Hi Hf Hs Hn' Htr Hro. destruct (holding_owned _ _ _ _ _ _ H Hi) as [Ho Hout].
  destruct (not_done _ _ _ _ _ H) as [Hnd Hst]; [by rewrite Hi|].
  exists (i :: F), refs, [], flight. split; simpl; try done.
  - by rewrite app_nil_r.
  - by rewrite (proj1 Hs), (uo_len _ _ _ _ _ H).
  - pose proof (uo_slots _ _ _ _ _ H) as Hp. rewrite Hi in Hp. simpl in Hp.
    assert (En : net_slots n' = []) by (by destruct Hn' as [[[-> | ->] _] | (? & ? & -> & _)]). rewrite En; simpl.
    by rewrite <-Hp, Permutation_middle.
  - eapply carries_same; [done | done | apply H].
  - apply H.
  - by left.
  - intros ref ->. by destruct Hn' as [[[? | ?] _] | (? & ? & [= <-] & ? & _)].
  - destruct Hn' as [[Hn' Hno] | (ref & p & -> & _ & -> & Hp)].
    + split; [|done]. intros [(ref & ->)|[?|?]]; [by destruct Hn' | done | done].
    + rewrite eos_last_snoc. split; [done | eauto].
  - rewrite Hst; done.
  - by destruct Hn' as [[[-> | ->] _] | (? & ? & -> & _)].
  - by eapply room_kept.
Qed.

Lemma netTurn_acquire s r tw : sound s -> net s = NetLoop -> exists s', EngineUdp.netTurn r tw s = Ok s' /\ sound s'.
Proof using Hcap Hn.
  intros (F & refs & sent & flight & H) Hi. destruct (not_done _ _ _ _ _ H) as [Hnd Hst]; [by rewrite Hi|].
  pose proof (sent_nil _ _ _ _ _ H ltac:(by rewrite Hi)) as ->.
  unfold EngineUdp.netTurn. rewrite Hi, Hst. destruct (uo_feed _ _ _ _ _ H) as [Hp Hq Hd].
  pose proof (never_starves _ _ _ _ _ H ltac:(by rewrite Hi)) as HF. destruct F as [|i F]; [done|].
  destruct (acquire_rep _ _ Hp) as (p' & E & Hp' & Hsl). rewrite E, bind_ok; cbv beta iota.
  assert (Hr : 0 <= i < n) by (eapply in_range; [exact H | set_solver]).
  destruct (Z.eqb_spec i kPoolInvalid) as [?|_]; [lia|]. eexists; split; [done|].
  exists F, refs, [], flight. split; simpl; try keep H.
  - split; simpl; [done | done | by rewrite Hsl].
  - rewrite Hsl. apply H.
  - pose proof (uo_slots _ _ _ _ _ H) as Hs. rewrite Hi in Hs. simpl in Hs. rewrite <-Hs. by rewrite Permutation_middle.
  - eapply carries_pool; [|apply H]. done.
  - rewrite <-(uo_eos _ _ _ _ _ H), Hi. naive_solver.
Qed.

(** The tracker's record after one more datagram. *)
Lemma admitted_judge s p v t st :
  judge (fd s) p = (v, t, st) -> (20 <= length p)%nat ->
  (exists acc, admitted tracker0 (arrived s) = (acc, trk (fd s)) /\ (queued s).*1 `sublist_of` acc /\
     length acc = (length (queued s) + length (lost s))%nat) ->
  exists acc, admitted tracker0 (arrived s ++ [p]) = (match v with Accepted => acc ++ [p] | _ => acc end, t) /\
    (queued s).*1 `sublist_of` acc /\ length acc = (length (queued s) + length (lost s))%nat.
Proof using Hcap Hn.
  intros Hj Hl (acc & Ha & Hsub & Hlen). exists acc. rewrite admitted_snoc, Ha.
  destruct (Nat.leb_spec 20 (length p)); [|lia]. unfold judge in Hj.
  pose proof (track_stats (header_of p) (trk (fd s)) FeedStats.new (FeedStats.received (Z.of_nat (length p)) (stats (fd s)))) as Es.
  rewrite Hj in Es. destruct (track _ _ FeedStats.new) as [[v' t'] s']; simpl in Es. injection Es as -> ->. done.
Qed.

Lemma no_eos_yet s F refs flight i : udp_ok s F refs [] flight -> net s = NetHolding i -> ~ eos_last (arrived s).
Proof using Hcap Hn.
  intros H Hi He. destruct (not_done _ _ _ _ _ H) as [Hnd _]; [by rewrite Hi|].
  apply (uo_eos _ _ _ _ _ H) in He as [(ref & E)|[?|?]]; [by rewrite Hi in E | done | done].
Qed.

Lemma nothing_new s F refs flight i r :
  udp_ok s F refs [] flight -> net s = NetHolding i ->
  match r with Received p => (length p < 20)%nat | _ => True end -> ~ eos_last (arrived s ++ EngineUdp.payload_of r).
Proof using Hcap Hn.
  intros H Hi Hr. destruct r as [p| |]; cbn [EngineUdp.payload_of]; rewrite ?app_nil_r; [|by eapply no_eos_yet..].
  rewrite eos_last_snoc. intros [? _]. lia.
Qed.

Lemma netTurn_reject s r tw F refs flight i :
  udp_ok s F refs [] flight -> net s = NetHolding i ->
  match r with Received p => (length p < 20)%nat | _ => True end ->
  exists s', EngineUdp.netTurn r tw s = Ok s' /\ sound s'.
Proof using Hcap Hn.
  intros H Hi Hr. destruct (holding_owned _ _ _ _ _ _ H Hi) as [Ho Hout]. pose proof (uo_feed _ _ _ _ _ H) as Hf. rewrite app_nil_r in Hf.
  destruct (receive_nothing cap (fd s) F refs i r tw Hf Ho Hr) as (f' & E & Hf' & Hs & Et & _ & Eq).
  unfold EngineUdp.netTurn. rewrite Hi, E, bind_ok; cbv beta iota zeta.
  unfold EngineUdp.tail_moved. rewrite Eq, Z.eqb_refl. cbn [negb fmap list_fmap].
  assert (Ha : EngineUdp.was_accepted (fd s) r = false).
  { destruct r as [p| |]; try done. unfold EngineUdp.was_accepted. by destruct (Nat.leb_spec 20 (length p)); [lia|]. }
  rewrite Ha. cbn [andb fmap list_fmap]. rewrite !app_nil_r. eexists; split; [done|].
  eapply returned_ok; [exact H | exact Hi | exact Hf' | exact Hs | left; split; [destruct r; auto|] | | by left].
  { intros He. apply (nothing_new s F refs flight i r H Hi Hr He). }
  rewrite Et. destruct (uo_track _ _ _ _ _ H) as (acc & Hac & Hrest). exists acc. split; [|done].
  destruct r as [p| |]; cbn [EngineUdp.payload_of]; rewrite ?app_nil_r; try done.
  rewrite admitted_snoc, Hac. by destruct (Nat.leb_spec 20 (length p)); [lia|].
Qed.

Lemma was_accepted_judge s p v t st :
  judge (fd s) p = (v, t, st) -> (20 <= length p)%nat -> EngineUdp.was_accepted (fd s) (Received p) = bool_decide (v = Accepted).
Proof using Hcap Hn. intros Hj Hl. unfold EngineUdp.was_accepted. rewrite Hj. by destruct (Nat.leb_spec 20 (length p)); [|lia]. Qed.

Lemma netTurn_returned s p tw F refs flight i v t st :
  udp_ok s F refs [] flight -> net s = NetHolding i -> wire_ok p -> (20 <= length p)%nat ->
  judge (fd s) p = (v, t, st) -> (v = Accepted -> cap - 1 <= Z.of_nat (length refs)) ->
  exists s', EngineUdp.netTurn (Received p) tw s = Ok s' /\ sound s'.
Proof using Hcap Hn.
  intros H Hi Hw Hl Hj Hfull. destruct (holding_owned _ _ _ _ _ _ H Hi) as [Ho Hout].
  pose proof (uo_feed _ _ _ _ _ H) as Hf. rewrite app_nil_r in Hf.
  destruct (receive_returned cap Hcap (fd s) F refs i p tw v t st Hf Ho Hw Hl Hj Hfull) as (f' & E & Hf' & Hs & Et & _ & Eq).
  unfold EngineUdp.netTurn. rewrite Hi, E, bind_ok; cbv beta iota zeta.
  rewrite (was_accepted_judge s p v t st Hj Hl). unfold EngineUdp.tail_moved. rewrite Eq. cbn [negb].
  rewrite andb_true_r. cbn [fmap list_fmap]. rewrite app_nil_r. eexists; split; [done|].
  destruct (admitted_judge s p v t st Hj Hl (uo_track _ _ _ _ _ H)) as (acc & Ha & Hsub & Hlen).
  eapply returned_ok; [exact H | exact Hi | exact Hf' | exact Hs | | |].
  - destruct (decide (v = EndOfSession)) as [->|Hv].
    2: { left. split; [destruct v; auto; done|]. cbn [EngineUdp.payload_of]. rewrite eos_last_snoc. intros [_ Hc]. apply Hv.
         apply (track_eos _ (trk (fd s)) (FeedStats.received (Z.of_nat (length p)) (stats (fd s)))) in Hc.
         unfold judge in Hj. by rewrite Hj in Hc. }
    right. eexists _, p. split_and!; try done. split; [done|]. apply (track_eos (header_of p) (trk (fd s)) (FeedStats.received (Z.of_nat (length p)) (stats (fd s)))). unfold judge in Hj. by rewrite Hj.
  - simpl. rewrite Ha, Et. eexists; split; [done|].
    destruct v; rewrite ?bool_decide_eq_false_2 by done; rewrite ?app_nil_r; try done.
    rewrite bool_decide_eq_true_2 by done. split; [by apply sublist_inserts_r|]. rewrite !length_app; simpl. lia.
  - case_bool_decide; [right; auto | left; apply app_nil_r].
Qed.

Lemma netTurn_queued s p tw F refs flight i t st :
  udp_ok s F refs [] flight -> net s = NetHolding i -> wire_ok p -> (20 <= length p)%nat ->
  judge (fd s) p = (Accepted, t, st) -> Z.of_nat (length refs) < cap - 1 ->
  exists s', EngineUdp.netTurn (Received p) tw s = Ok s' /\ sound s'.
Proof using Hcap Hn.
  intros H Hi Hw Hl Hj Hroom. destruct (holding_owned _ _ _ _ _ _ H Hi) as [Ho Hout].
  destruct (not_done _ _ _ _ _ H) as [Hnd Hst]; [by rewrite Hi|].
  pose proof (uo_feed _ _ _ _ _ H) as Hf. rewrite app_nil_r in Hf.
  destruct (receive_queued cap Hcap (fd s) F refs i p tw t st Hf Ho Hw Hl Hj Hroom) as (f' & E & Hf' & Hs & Hh & Et & _ & Eq).
  unfold EngineUdp.netTurn. rewrite Hi, E, bind_ok; cbv beta iota zeta.
  rewrite (was_accepted_judge s p _ t st Hj Hl). unfold EngineUdp.tail_moved. rewrite Eq. cbn [negb].
  rewrite andb_false_r, app_nil_r. eexists; split; [done|].
  destruct (admitted_judge s p _ t st Hj Hl (uo_track _ _ _ _ _ H)) as (acc & Ha & Hsub & Hlen).
  exists F, (refs ++ [mkRef i tw]), [], (flight ++ [(p, tw)]). split; simpl; try done.
  - by rewrite app_nil_r.
  - by rewrite (proj1 Hs), (uo_len _ _ _ _ _ H).
  - rewrite <-(uo_slots _ _ _ _ _ H), Hi, !fmap_app. cbn [net_slots app fmap list_fmap ref_poolIdx].
    f_equiv. rewrite app_assoc. by rewrite <-Permutation_cons_append.
  - rewrite app_assoc. apply Forall2_app; [|constructor; [|constructor]].
    + eapply carries_same; [done | done | apply H].
    + done.
  - rewrite (uo_queued _ _ _ _ _ H), <-app_assoc. done.
  - by left.
  - rewrite eos_last_snoc. split; [intros [(? & ?)|[?|?]]; done|]. intros [_ Hc]. exfalso.
    apply (track_eos _ (trk (fd s)) (FeedStats.received (Z.of_nat (length p)) (stats (fd s)))) in Hc.
    unfold judge in Hj. by rewrite Hj in Hc.
  - rewrite Hst; done.
  - rewrite Ha, Et. eexists; split; [done|]. rewrite fmap_app; simpl. split; [by apply sublist_app|].
    rewrite !length_app; simpl. lia.
  - by eapply room_queued.
Qed.

Lemma sentinelTurn_sound s ref : sound s -> net s = NetSentinel ref -> exists s', EngineUdp.sentinelTurn ref s = Ok s' /\ sound s'.
Proof using Hcap Hn.
  intros (F & refs & sent & flight & H) Hi. destruct (not_done _ _ _ _ _ H) as [Hnd Hst]; [by rewrite Hi|].
  pose proof (sent_nil _ _ _ _ _ H ltac:(by rewrite Hi)) as ->. pose proof (uo_feed _ _ _ _ _ H) as Hf. rewrite app_nil_r in Hf.
  pose proof (proj1 (uo_eos _ _ _ _ _ H) ltac:(eauto)) as Heos.
  unfold EngineUdp.sentinelTurn. destruct (push_rep cap Hcap _ _ ref (fo_ring _ _ _ _ Hf)) as (r' & E & Hr').
  rewrite E, bind_ok; cbv beta iota zeta. rewrite Hst, orb_false_r. eexists; split; [done|].
  pose proof (uo_slots _ _ _ _ _ H) as Hs. rewrite Hi in Hs. simpl in Hs.
  exists F, refs, (if bool_decide (Z.of_nat (length refs) < cap - 1) then [ref] else []), flight.
  case_bool_decide; split; simpl; try keep H; eauto.
  - split; simpl; [apply Hf | done | apply Hf].
  - right. split; [done|]. exists ref. split; [done|]. by apply (uo_sentinel _ _ _ _ _ H).
  - split; [done|]. intros _. auto.
  - split; simpl; [apply Hf | by rewrite app_nil_r | apply Hf].
  - intros ? [= <-]. by apply (uo_sentinel _ _ _ _ _ H).
  - split; [done|]. eauto.
Qed.

Lemma netTurn_sound s r tw :
  sound s -> (forall p, r = Received p -> wire_ok p) -> exists s', EngineUdp.netTurn r tw s = Ok s' /\ sound s'.
Proof using Hcap Hn.
  intros Hs Hw. destruct (net s) as [|i| |ref|] eqn:Hi.
  - by apply netTurn_acquire.
  - destruct Hs as (F & refs & sent & flight & H). pose proof (sent_nil _ _ _ _ _ H ltac:(by rewrite Hi)) as ->.
    destruct r as [p| |]; [|by eapply netTurn_reject..].
    destruct (le_lt_dec 20 (length p)) as [Hl|Hl]; [|by eapply netTurn_reject]. specialize (Hw p eq_refl).
    destruct (judge (fd s) p) as [[v t] st] eqn:Hj.
    destruct (decide (v = Accepted /\ Z.of_nat (length refs) < cap - 1)) as [[-> Hroom]|Hno]; [by eapply netTurn_queued|].
    eapply netTurn_returned; try done. intros ->. destruct (Z.lt_ge_cases (Z.of_nat (length refs)) (cap - 1)); [naive_solver | done].
  - destruct Hs as (F & refs & sent & flight & H). by destruct (uo_fed _ _ _ _ _ H).
  - unfold EngineUdp.netTurn. rewrite Hi. by apply sentinelTurn_sound.
  - unfold EngineUdp.netTurn. rewrite Hi. eauto.
Qed.
(** *** Turns of the AF_XDP thread *)

(** Pool slots of the free list may have been written; nothing was pushed. *)
Lemma skipped_ok s F refs flight i f' n' arr' lost' :
  udp_ok s F refs [] flight -> net s = NetLoop -> feed_ok cap f' F refs -> i ∈ F ->
  same_but i (pkts (fd s)) (pkts f') ->
  n' = NetLoop /\ ~ eos_last arr' \/ (exists ref p, n' = NetSentinel ref /\ ref_poolIdx ref = kPoolInvalid /\ arr' = arrived s ++ [p] /\ is_eos p) ->
  (exists acc, admitted tracker0 arr' = (acc, trk f') /\ (queued s).*1 `sublist_of` acc /\ length acc = (length (queued s) + length lost')%nat) ->
  lost' = lost s \/ cap - 1 <= Z.of_nat (length refs) ->
  sound (mkUdp f' n' (eng s) false (engine s) (scratch s) (matched s) arr' (queued s) lost' (processed s)).
Proof using Hcap Hn.
  intros H Hi Hf HiF Hs Hn' Htr Hro. destruct (not_done _ _ _ _ _ H) as [Hnd Hst]; [by rewrite Hi|].
  pose proof (uo_slots _ _ _ _ _ H) as Hp. rewrite Hi in Hp. simpl in Hp.
  exists F, refs, [], flight. split; simpl; try keep H.
  - by rewrite app_nil_r.
  - by rewrite (proj1 Hs), (uo_len _ _ _ _ _ H).
  - by replace (net_slots n') with (@nil Z) by (by destruct Hn' as [[-> _]|(? & ? & -> & _)]).
  - eapply carries_same; [exact Hs | | exact (uo_flight _ _ _ _ _ H)]. intros Hin.
    pose proof (slots_nodup _ _ _ _ _ H) as Hno. rewrite Hi in Hno. simpl in Hno. apply NoDup_app in Hno as (_ & Hno & _). by apply (Hno i).
  - intros ref ->. by destruct Hn' as [[? _]|(? & ? & [= <-] & ? & _)].
  - destruct Hn' as [[-> Hno]|(ref & p & -> & _ & -> & Hep)].
    + split; [|done]. intros [(? & ?)|[?|?]]; done.
    + rewrite eos_last_snoc. split; [done | eauto].
  - by destruct Hn' as [[-> _]|(? & ? & -> & _)].
  - by eapply room_kept.
Qed.

Lemma loop_no_eos s F refs flight : udp_ok s F refs [] flight -> net s = NetLoop -> ~ eos_last (arrived s).
Proof using Hcap Hn.
  intros H Hi He. destruct (not_done _ _ _ _ _ H) as [Hnd _]; [by rewrite Hi|].
  apply (uo_eos _ _ _ _ _ H) in He as [(ref & E)|[?|?]]; [by rewrite Hi in E | done | done].
Qed.

(** The packet of a frame and its cut have the same header. *)
Lemma header_of_cut p : (20 <= length p)%nat -> header_of (cut p) = header_of p.
Proof using.
  intros Hl. assert (Hc : (20 <= length (cut p))%nat) by (unfold cut, kMaxPacketBytes; rewrite length_take; lia).
  pose proof (parse_header_of (cut p) (drop (Z.to_nat kMaxPacketBytes) p) Hc) as E. unfold cut in E at 1. rewrite take_drop in E.
  pose proof (parse_header_of p [] Hl) as E'. rewrite app_nil_r in E'. congruence.
Qed.

Lemma judge_cut (f : feed) p v t st : (20 <= length p)%nat -> judge f p = (v, t, st) -> exists st', judge f (cut p) = (v, t, st').
Proof using.
  intros Hl Hj. unfold judge in *. rewrite header_of_cut by done.
  pose proof (track_stats (header_of p) (trk f) (FeedStats.received (Z.of_nat (length (cut p))) (stats f))
    (FeedStats.received (Z.of_nat (length p)) (stats f))) as E.
  rewrite Hj in E. destruct (track _ _ (FeedStats.received (Z.of_nat (length (cut p))) _)) as [[v' t'] s']. simpl in E. injection E as -> ->. eauto.
Qed.

Lemma judge_eos (f : feed) p v t st : judge f p = (v, t, st) -> (v = EndOfSession <-> messageCount (header_of p) = kMoldEndOfSession).
Proof using. intros Hj. unfold judge in Hj. by rewrite <-(track_eos _ (trk f) (FeedStats.received (Z.of_nat (length p)) (stats f))), Hj. Qed.

(** A frame with a packet, given what [receiveFrame] made of it. *)
Lemma xdpTurn_unfold s port first frame tw p v t st c f :
  net s = NetLoop -> stop s = false -> FeedHandlerXdp.moldPacket port frame = Ok (Some p) -> (20 <= length p)%nat ->
  judge (fd s) p = (v, t, st) -> FeedHandlerXdp.receiveFrame port frame tw (fd s) = Ok (c, f) ->
  EngineUdp.xdpTurn port first frame tw s =
  Ok (mkUdp f (match c with Continue => NetLoop | Break => NetDone | PushSentinel ref => NetSentinel ref end) (eng s) false
        (engine s) (scratch s) (matched s) (arrived s ++ [cut p])
        (queued s ++ (if EngineUdp.tail_moved (fd s) f then [(cut p, tw)] else []))
        (lost s ++ (if bool_decide (v = Accepted) && negb (EngineUdp.tail_moved (fd s) f) then [cut p] else [])) (processed s)).
Proof using Hcap Hn.
  intros Hi Hst E Hl Hj Er. assert (Hlc : (20 <= length (cut p))%nat) by (unfold cut, kMaxPacketBytes; rewrite length_take; lia).
  destruct (judge_cut _ _ _ _ _ Hl Hj) as (st' & Hjc). unfold EngineUdp.xdpTurn, EngineUdp.frame_input. rewrite Hi, Hst, andb_false_r, E, Er, bind_ok.
  cbv beta iota zeta. rewrite (was_accepted_judge s (cut p) v t st' Hjc Hlc). cbn [EngineUdp.payload_of].
  by destruct (EngineUdp.tail_moved (fd s) f).
Qed.

Section xdp_packet.
Context (s : udp I) (port : Z) (first : bool) (frame : bytes) (tw : Z) (F : list Z) (refs : list PacketRef) (flight : list (bytes * Z)) (i : Z) (p : bytes).
Context (v : verdict) (t : tracker) (st : FeedStats).
Context (H : udp_ok s (i :: F) refs [] flight) (Hi : net s = NetLoop).
Context (E : FeedHandlerXdp.moldPacket port frame = Ok (Some p)) (Hl : (20 <= length p)%nat) (Hj : judge (fd s) p = (v, t, st)).
Let f1 := mkFeed (pkts (fd s)) (queue (fd s)) st t.

Lemma xdp_feed : feed_ok cap f1 (i :: F) refs.
Proof using H. pose proof (uo_feed _ _ _ _ _ H) as Hf. rewrite app_nil_r in Hf. destruct Hf; by split. Qed.

Lemma xdp_running : stop s = false.
Proof using Hcap Hn H Hi E Hl Hj. by destruct (not_done _ _ _ _ _ H) as [_ ?]; [rewrite Hi|]. Qed.

Lemma xdp_eos : v = EndOfSession <-> is_eos (cut p).
Proof using Hcap Hn H Hi E Hl Hj.
  destruct (judge_cut _ _ _ _ _ Hl Hj) as (st' & Hjc). rewrite (judge_eos _ _ _ _ _ Hjc). unfold is_eos.
  assert ((20 <= length (cut p))%nat) by (unfold cut, kMaxPacketBytes; rewrite length_take; lia). tauto.
Qed.

Lemma xdp_admitted :
  exists acc, admitted tracker0 (arrived s ++ [cut p]) = (match v with Accepted => acc ++ [cut p] | _ => acc end, t) /\
    (queued s).*1 `sublist_of` acc /\ length acc = (length (queued s) + length (lost s))%nat.
Proof using Hcap Hn H Hi E Hl Hj.
  destruct (judge_cut _ _ _ _ _ Hl Hj) as (st' & Hjc). apply (admitted_judge s (cut p) v t st' Hjc); [|exact (uo_track _ _ _ _ _ H)].
  unfold cut, kMaxPacketBytes; rewrite length_take; lia.
Qed.

Lemma xdpTurn_queued : v = Accepted -> Z.of_nat (length refs) < cap - 1 -> exists s', EngineUdp.xdpTurn port first frame tw s = Ok s' /\ sound s'.
Proof using Hcap Hn H Hi E Hl Hj.
  intros Ev Hroom. destruct (enqueue_queued cap Hcap p tw f1 i F refs xdp_feed Hroom) as (f' & E' & Hf' & Hs & Hh & Et & _ & Eq).
  assert (Er : FeedHandlerXdp.receiveFrame port frame tw (fd s) = Ok (Continue, f'))
    by (rewrite (receiveFrame_unfold port frame tw (fd s) p E Hl), Hj, Ev; cbv zeta; fold f1; by rewrite E').
  rewrite (xdpTurn_unfold s port first frame tw p v t st Continue f' Hi xdp_running E Hl Hj Er). eexists; split; [done|].
  unfold EngineUdp.tail_moved. change (queue f1) with (queue (fd s)) in Eq. rewrite Eq. cbn [negb]. rewrite andb_false_r, app_nil_r.
  destruct xdp_admitted as (acc & Ha & Hsub & Hlen). rewrite Ev in Ha.
  destruct (not_done _ _ _ _ _ H) as [Hnd Hst]; [by rewrite Hi|].
  exists F, (refs ++ [mkRef i tw]), [], (flight ++ [(cut p, tw)]). split; simpl; try keep H.
  - by rewrite app_nil_r.
  - by rewrite (proj1 Hs), <-(uo_len _ _ _ _ _ H).
  - rewrite <-(uo_slots _ _ _ _ _ H), Hi, !fmap_app. cbn [net_slots app fmap list_fmap ref_poolIdx].
    rewrite !app_assoc. by rewrite <-Permutation_cons_append.
  - rewrite app_assoc. apply Forall2_app; [|constructor; [|constructor]].
    + eapply carries_same; [exact Hs | | exact (uo_flight _ _ _ _ _ H)]. intros Hin.
      pose proof (slots_nodup _ _ _ _ _ H) as Hno. rewrite Hi in Hno. simpl in Hno. apply NoDup_cons in Hno as [Hno _]. set_solver.
    + split_and!; [done | done | apply cut_wire | unfold cut, kMaxPacketBytes; simpl; rewrite length_take; lia].
  - rewrite (uo_queued _ _ _ _ _ H), <-app_assoc. done.
  - rewrite eos_last_snoc, <-xdp_eos, Ev. split; [intros [(? & ?)|[?|?]]; done | done].
  - rewrite Ha, Et. eexists; split; [done|]. rewrite fmap_app; simpl. split; [by apply sublist_app|]. rewrite !length_app; simpl. lia.
  - by eapply room_queued.
Qed.

Lemma xdpTurn_full : v = Accepted -> cap - 1 <= Z.of_nat (length refs) -> exists s', EngineUdp.xdpTurn port first frame tw s = Ok s' /\ sound s'.
Proof using Hcap Hn H Hi E Hl Hj.
  intros Ev Hfull. destruct (enqueue_full cap Hcap p tw f1 i F refs xdp_feed Hfull) as (f' & E' & Hf' & Hs & Et & _ & Eq).
  assert (Er : FeedHandlerXdp.receiveFrame port frame tw (fd s) = Ok (Continue, f'))
    by (rewrite (receiveFrame_unfold port frame tw (fd s) p E Hl), Hj, Ev; cbv zeta; fold f1; by rewrite E').
  rewrite (xdpTurn_unfold s port first frame tw p v t st Continue f' Hi xdp_running E Hl Hj Er). eexists; split; [done|].
  unfold EngineUdp.tail_moved. change (queue f1) with (queue (fd s)) in Eq. rewrite Eq. cbn [negb].
  rewrite andb_true_r, bool_decide_eq_true_2, app_nil_r by done. destruct xdp_admitted as (acc & Ha & Hsub & Hlen). rewrite Ev in Ha.
  eapply (skipped_ok s (i :: F) refs flight i); [exact H | done | exact Hf' | set_solver | exact Hs | | | by right].
  - left. split; [done|]. by rewrite eos_last_snoc, <-xdp_eos, Ev.
  - rewrite Ha, Et. eexists; split; [done|]. split; [by apply sublist_inserts_r|]. rewrite !length_app; simpl. lia.
Qed.

Lemma xdpTurn_rejected : v <> Accepted -> exists s', EngineUdp.xdpTurn port first frame tw s = Ok s' /\ sound s'.
Proof using Hcap Hn H Hi E Hl Hj.
  intros Hv. set (c := match v with EndOfSession => PushSentinel (mkRef kPoolInvalid tw) | _ => Continue end).
  assert (Er : FeedHandlerXdp.receiveFrame port frame tw (fd s) = Ok (c, f1))
    by (rewrite (receiveFrame_unfold port frame tw (fd s) p E Hl), Hj; unfold c; by destruct v).
  rewrite (xdpTurn_unfold s port first frame tw p v t st c f1 Hi xdp_running E Hl Hj Er). eexists; split; [done|].
  unfold EngineUdp.tail_moved. change (queue f1) with (queue (fd s)). rewrite Z.eqb_refl. cbn [negb].
  rewrite bool_decide_eq_false_2 by done. cbn [andb]. rewrite !app_nil_r. destruct xdp_admitted as (acc & Ha & Hrest).
  eapply (skipped_ok s (i :: F) refs flight i); [exact H | done | exact xdp_feed | set_solver | apply same_but_refl | | | by left].
  - destruct (decide (v = EndOfSession)) as [Ev|Hne].
    + right. exists (mkRef kPoolInvalid tw), (cut p). split_and!; [unfold c; by rewrite Ev | done | done | by apply xdp_eos].
    + left. split; [unfold c; by destruct v | by rewrite eos_last_snoc, <-xdp_eos].
  - rewrite Ha. destruct v; try done; eauto.
Qed.
End xdp_packet.

Lemma xdpTurn_sound s port first frame tw :
  sound s -> Forall is_byte frame -> exists s', EngineUdp.xdpTurn port first frame tw s = Ok s' /\ sound s'.
Proof using Hcap Hn.
  intros Hs Hb. destruct (net s) as [|i| |ref|] eqn:Hi; try (unfold EngineUdp.xdpTurn; rewrite Hi; by eauto).
  - destruct Hs as (F & refs & sent & flight & H). pose proof (sent_nil _ _ _ _ _ H ltac:(by rewrite Hi)) as ->.
    pose proof (never_starves _ _ _ _ _ H ltac:(by rewrite Hi)) as HF. destruct F as [|i F]; [done|].
    destruct (moldPacket_exact port frame Hb) as ([p|] & E & Hp).
    + destruct (Hp p eq_refl) as [_ Hl]. destruct (judge (fd s) p) as [[v t] st] eqn:Hj.
      destruct (decide (v = Accepted)); [|by eapply xdpTurn_rejected].
      destruct (Z.lt_ge_cases (Z.of_nat (length refs)) (cap - 1)); [by eapply xdpTurn_queued | by eapply xdpTurn_full].
    + destruct (not_done _ _ _ _ _ H) as [Hnd Hst]; [by rewrite Hi|].
      unfold EngineUdp.xdpTurn, EngineUdp.frame_input, FeedHandlerXdp.receiveFrame. rewrite Hi, Hst, andb_false_r, E, !bind_ok; cbv beta iota zeta.
      unfold EngineUdp.tail_moved. rewrite Z.eqb_refl. cbn [negb EngineUdp.was_accepted andb EngineUdp.payload_of fmap list_fmap]. rewrite !app_nil_r.
      eexists; split; [done|]. pose proof (uo_feed _ _ _ _ _ H) as Hf. rewrite app_nil_r in Hf.
      eapply (skipped_ok s (i :: F) refs flight i); [exact H | done | exact Hf | set_solver | apply same_but_refl | | exact (uo_track _ _ _ _ _ H) | by left].
      left. split; [done|]. by eapply loop_no_eos.
  - unfold EngineUdp.xdpTurn. rewrite Hi. by apply sentinelTurn_sound.
Qed.

(** *** Turns of the matching thread *)

Context (tscNow : Z -> Z).

(** With a packet in hand: its slot holds the oldest datagram in flight. *)
Lemma engTurn_hold s F refs sent flight ref :
  udp_ok s F refs sent flight -> eng s = EngHolding ref ->
  exists x flight' slot, flight = x :: flight' /\ ref_tWire ref = x.2 /\
    PacketPool.get (pkts (fd s)) (ref_poolIdx ref) = Ok slot /\
    take (length x.1) (data slot) = x.1 /\ length_ slot = Z.of_nat (length x.1) /\ wire_ok x.1 /\ (20 <= length x.1)%nat /\
    forall e scr m, EngineUdp.processPacket tscNow slot x.2 (engine s, scratch s, matched s) = Ok (e, scr, m) ->
      exists f', let s' := mkUdp f' (net s) (EngLoop 0) (stop s) e scr m (arrived s) (queued s) (lost s) (processed s ++ [x]) in
        EngineUdp.engTurn tscNow s = Ok s' /\ udp_ok s' (ref_poolIdx ref :: F) refs sent flight'.
Proof using Hcap Hn.
  intros H Hi. pose proof (uo_flight _ _ _ _ _ H) as Hfl. rewrite Hi in Hfl. cbn [eng_refs app] in Hfl.
  apply Forall2_cons_inv_l in Hfl as (x & flight' & Hx & Hfl & ->). pose proof Hx as ((Htk & Hlen) & Htw & Hw & H20).
  pose proof (slots_nodup _ _ _ _ _ H) as Hnd. rewrite Hi in Hnd. cbn [eng_refs app fmap list_fmap] in Hnd.
  rewrite app_assoc in Hnd. apply NoDup_app_3 in Hnd as (Hout1 & Hout2 & _). apply not_elem_of_app in Hout1 as [Hout1 Hnet].
  assert (Hr : 0 <= ref_poolIdx ref < n) by (eapply in_range; [exact H|]; rewrite Hi; set_solver).
  pose proof (uo_feed _ _ _ _ _ H) as [Hp Hq Hd].
  exists x, flight', (vnth (slots (pkts (fd s))) (ref_poolIdx ref)). unfold PacketPool.get.
  assert (Hg : vget (slots (pkts (fd s))) (ref_poolIdx ref) = Ok (vnth (slots (pkts (fd s))) (ref_poolIdx ref)))
    by (apply vget_ok; rewrite (uo_len _ _ _ _ _ H); lia).
  split_and!; try done. intros e scr m E.
  destruct (release_rep (ref_poolIdx ref) (pkts (fd s)) F Hp) as (p' & Ep & Hp' & Hsame & Hl'); [rewrite (uo_len _ _ _ _ _ H); lia | done |].
  eexists (mkFeed p' _ _ _). cbv zeta. split.
  - unfold EngineUdp.engTurn, PacketPool.get. rewrite Hi, Hg, bind_ok; cbv beta. rewrite Htw, E, bind_ok; cbv beta iota.
    rewrite Ep, bind_ok; cbv beta. rewrite Hlen, Nat2Z.id, Htk. destruct x; done.
  - split; simpl; try keep H.
    + split; simpl; [done | done |]. intros j. by rewrite (proj1 (Hsame j)).
    + by rewrite Hl', (uo_len _ _ _ _ _ H).
    + rewrite <-(uo_slots _ _ _ _ _ H), Hi. cbn [eng_refs app fmap list_fmap]. rewrite (app_assoc F (net_slots _) (_ :: _)).
      by rewrite <-Permutation_middle, <-app_assoc.
    + eapply (carries_same (fd s) _ (ref_poolIdx ref)); [|done|exact Hfl]. split; [done|]. intros j _. apply Hsame.
    + rewrite <-app_assoc. exact (uo_queued _ _ _ _ _ H).
    + rewrite <-(uo_eos _ _ _ _ _ H), Hi. naive_solver.
    + intros Hst. apply (uo_stop _ _ _ _ _ H) in Hst. by rewrite Hi in Hst.
Qed.

(** Popping: nothing, the sentinel, or a packet. It never fails. *)
Lemma engTurn_pop s F refs sent flight k :
  udp_ok s F refs sent flight -> eng s = EngLoop k ->
  exists f' c' refs' sent', let s' := mkUdp f' (net s) c' (bool_decide (c' = EngDone)) (engine s) (scratch s) (matched s) (arrived s) (queued s) (lost s) (processed s) in
    EngineUdp.engTurn tscNow s = Ok s' /\ udp_ok s' F refs' sent' flight /\
    (c' = EngDone \/ (exists ref, c' = EngHolding ref) \/ refs ++ sent = []).
Proof using Hcap Hn.
  intros H Hi. pose proof (uo_feed _ _ _ _ _ H) as [Hp Hq Hd]. destruct (pop_rep cap Hcap _ _ Hq) as (r' & E & Hr').
  assert (Hst : stop s = false) by (destruct (stop s) eqn:Es; [|done]; apply (uo_stop _ _ _ _ _ H) in Es; by rewrite Hi in Es).
  pose proof (uo_slots _ _ _ _ _ H) as Hsl. pose proof (uo_flight _ _ _ _ _ H) as Hfl. rewrite Hi in Hsl, Hfl. simpl in Hsl, Hfl.
  unfold EngineUdp.engTurn. rewrite Hi, E, bind_ok, Hst; cbv beta iota zeta.
  assert (Hfd : feed_ok cap (mkFeed (pkts (fd s)) r' (stats (fd s)) (trk (fd s))) F (tl (refs ++ sent))) by (by split).
  destruct refs as [|ref refs]; [destruct (uo_sent _ _ _ _ _ H) as [->|(Hnet & x & -> & Hx)]|]; cbn [hd_error app] in *.
  - assert (Hnew : forall k', udp_ok (mkUdp (mkFeed (pkts (fd s)) r' (stats (fd s)) (trk (fd s))) (net s) (EngLoop k') false
      (engine s) (scratch s) (matched s) (arrived s) (queued s) (lost s) (processed s)) F [] [] flight).
    { intros k'. split; simpl; try keep H. rewrite <-(uo_eos _ _ _ _ _ H), Hi. naive_solver. }
    destruct (1024 <=? k + 1); [exists (mkFeed (pkts (fd s)) r' (stats (fd s)) (trk (fd s))), (EngLoop 0) |
      exists (mkFeed (pkts (fd s)) r' (stats (fd s)) (trk (fd s))), (EngLoop (k + 1))];
      exists [], []; cbv zeta; rewrite bool_decide_eq_false_2 by done; auto.
  - rewrite Hx, Z.eqb_refl. eexists _, EngDone, [], []. cbv zeta. rewrite bool_decide_eq_true_2 by done. split; [done|]. split; [|auto].
    split; simpl; try keep H; try done. rewrite <-(uo_eos _ _ _ _ _ H). naive_solver.
  - assert (Hr : 0 <= ref_poolIdx ref < n) by (eapply in_range; [exact H|]; rewrite Hi; simpl; set_solver).
    destruct (Z.eqb_spec (ref_poolIdx ref) kPoolInvalid); [lia|].
    eexists _, (EngHolding ref), refs, sent. cbv zeta. rewrite bool_decide_eq_false_2 by done. split; [done|]. split; [|eauto].
    split; simpl; try keep H.
    rewrite <-(uo_eos _ _ _ _ _ H), Hi. naive_solver.
Qed.

Lemma engTurn_sound s s' : sound s -> EngineUdp.engTurn tscNow s = Ok s' -> sound s'.
Proof using Hcap Hn.
  intros (F & refs & sent & flight & H) E. destruct (eng s) as [k|ref|] eqn:Hi.
  - destruct (engTurn_pop _ _ _ _ _ k H Hi) as (f' & c' & refs' & sent' & E' & H' & _). rewrite E in E'; injection E' as ->.
    by exists F, refs', sent', flight.
  - destruct (engTurn_hold _ _ _ _ _ ref H Hi) as (x & flight' & slot & -> & Htw & Hg & _ & _ & _ & _ & Hgo).
    assert (exists w, EngineUdp.processPacket tscNow slot x.2 (engine s, scratch s, matched s) = Ok w) as [[[e scr] m] Ew].
    { unfold EngineUdp.engTurn in E. rewrite Hi, Hg, bind_ok, Htw in E. apply bind_inv in E as (w & Ew & _). eauto. }
    destruct (Hgo e scr m Ew) as (f' & E' & H'). rewrite E in E'; injection E' as ->. by do 4 eexists.
  - unfold EngineUdp.engTurn in E. rewrite Hi in E. injection E as <-. by do 4 eexists.
Qed.

Lemma step_sound useXdp port s s' : sound s -> EngineUdp.step tscNow useXdp port s s' -> sound s'.
Proof using Hcap Hn.
  intros Hs Hst. destruct Hst as [r tw s1 s2 _ Hw E|first frame tw s1 s2 _ Hb E|s1 s2 E].
  - destruct (netTurn_sound s1 r tw Hs Hw) as (s'' & E' & Hs''). congruence.
  - destruct (xdpTurn_sound s1 port first frame tw Hs Hb) as (s'' & E' & Hs''). congruence.
  - by eapply engTurn_sound.
Qed.

Lemma reachable_sound useXdp port ready e s0 s :
  EngineUdp.initial ready n cap e = Ok s0 -> rtc (EngineUdp.step tscNow useXdp port) s0 s -> sound s.
Proof using Hcap Hn.
  intros E0 Hs. pose proof (initial_sound ready e s0 E0) as H0. clear E0. induction Hs as [|s1 s2 s3 Hst _ IH]; [done|].
  apply IH. by eapply step_sound.
Qed.
End invariant.
