(* ===== verification/Replay.v ===== *)
(** The replay sender of src/replay.cpp: batching the messages of a file into
    MoldUDP64 packets and closing the session; with the proof of what it sends
    for a well-formed file and when. [sendto] is outside: the datagrams handed
    to it are the result, and whether the n-th call succeeds is an argument, as
    is what the clock returns. *)
From Stdlib Require Import ZArith Lia.
From stdpp Require Import base numbers gmap list.
From S2P Require Import Prelude Tsc OrderPool Itch MoldUDP64.
Open Scope Z_scope.

Module Replay.

Definition session : bytes := [79; 82; 68; 66; 75; 83; 69; 83; 49; 0].
Definition packetBytes : Z := 2048.
Definition batchSlots : nat := 256.

(** [batchPtrs] and [batchLens]: a pointer is the memory from it on. *)
Record batch := mkBatch { batchPtrs : list bytes; batchLens : list Z; batchCount : Z; packetUsed : Z }.

(** [a[i] = x] on an array. *)
Definition store {A} (i : Z) (x : A) (a : list A) : result (list A) :=
  if (Z.to_nat i <? length a)%nat then Ok (<[Z.to_nat i := x]> a) else Err UB.

(** The inner loop: what is left of the file, and the batch. *)
Fixpoint fill_loop (fuel : nat) (maxPerPacket : Z) (data : bytes) (b : batch) : result (bytes * batch) :=
  match fuel with
  | O => Err Diverge
  | S fuel =>
      match data with
      | [] => Ok (data, b)
      | _ =>
          if batchCount b <? maxPerPacket then
            v ← load16 data;
            let mlen := bswap16 v in
            if packetBytes <? packetUsed b + 2 + mlen then Ok (data, b) else
            ptrs ← store (batchCount b) (drop 2 data) (batchPtrs b);
            lens ← store (batchCount b) mlen (batchLens b);
            fill_loop fuel maxPerPacket (drop (Z.to_nat (2 + mlen)) data)
              (mkBatch ptrs lens (u16 (batchCount b + 1)) (u16 (packetUsed b + (2 + mlen))))
          else Ok (data, b)
      end
  end.

(** *** Pacing *)

(** The sender's clock: the i-th reading is [clock i], and [spins] bounds the
    readings of one wait. *)
Record pacing := mkPacing { clock : nat -> timespec; spins : nat; nsPerMsg : Z }.
Definition startNs (c : pacing) : Z := monoNs (clock c 0).

(** [args.rateMsgPerSec ? 1000000000ull / args.rateMsgPerSec : 0]. *)
Definition nsPerMsgOf (rateMsgPerSec : Z) : Z := if rateMsgPerSec =? 0 then 0 else 1000000000 / rateMsgPerSec.

(** [while ((now = monoNs()) < targetNs)], from the [i]-th reading on: the last
    reading, and how many there were. *)
Fixpoint wait (fuel : nat) (clk : nat -> timespec) (targetNs : Z) (i : nat) : result (Z * nat) :=
  match fuel with
  | O => Err Diverge
  | S fuel => let now := monoNs (clk i) in if now <? targetNs then wait fuel clk targetNs (S i) else Ok (now, S i)
  end.

(** Before a packet that starts with message number [totalMsgs]. *)
Definition pace (c : pacing) (totalMsgs : Z) (i : nat) : result (option Z * nat) :=
  if nsPerMsg c =? 0 then Ok (None, i) else
  '(now, i) ← wait (spins c) (clock c) (u64 (startNs c + u64 (totalMsgs * nsPerMsg c))) i;
  Ok (Some now, i).

(** The outer loop: the datagrams sent, each with the last reading of the clock
    before it when paced, and packet buffer and sequence number where it ended.
    [sends n] tells whether the n-th [sendto] succeeds; [i] readings of the clock
    were made. *)
Fixpoint send_loop (fuel : nat) (maxPerPacket : Z) (c : pacing) (sends : nat -> bool) (data : bytes) (ptrs : list bytes) (lens : list Z)
    (packet : bytes) (seq totalMsgs : Z) (pkts i : nat) : result (list (bytes * option Z) * bytes * Z) :=
  match fuel with
  | O => Err Diverge
  | S fuel =>
      match data with
      | [] => Ok ([], packet, seq)
      | _ =>
          '(data, b) ← fill_loop (S (length data)) maxPerPacket data (mkBatch ptrs lens 0 kMoldHeaderBytes);
          if batchCount b =? 0 then Ok ([], packet, seq) else
          '(pktBytes, packet) ← buildMoldPacket packet packetBytes session seq (batchPtrs b) (batchLens b) (batchCount b);
          if pktBytes =? 0 then Ok ([], packet, seq) else
          '(now, i) ← pace c totalMsgs i;
          if sends pkts then
            '(sent, packet', seq') ← send_loop fuel maxPerPacket c sends data (batchPtrs b) (batchLens b) packet
                                       (u64 (seq + batchCount b)) (u64 (totalMsgs + batchCount b)) (S pkts) i;
            Ok ((take (Z.to_nat pktBytes) packet, now) :: sent, packet', seq')
          else Ok ([], packet, seq)
      end
  end.

(** The whole run: the datagrams sent, the end-of-session marker last.
    [buffer] is the uninitialised packet buffer, [ptrs] and [lens] the
    uninitialised batch arrays; the first reading of the clock is [startNs]. *)
Definition replay (maxPerPacket : Z) (c : pacing) (sends : nat -> bool) (file : bytes)
    (buffer : bytes) (ptrs : list bytes) (lens : list Z) : result (list (bytes * option Z)) :=
  '(sent, packet, seq) ← send_loop (S (length file)) maxPerPacket c sends file ptrs lens buffer 1 0 0 1;
  '(eosBytes, packet) ← buildMoldPacket packet packetBytes session seq [] [] 0;
  packet ← write_bytes 18 (bytes16 (bswap16 kMoldEndOfSession)) packet;
  Ok (sent ++ [(take (Z.to_nat eosBytes) packet, None)]).
End Replay.

(** ** The packets of a session *)

(** Consecutive packets of the groups, the first message numbered [seq]. *)
Fixpoint data_packets (sid : bytes) (seq : Z) (groups : list (list bytes)) : list bytes :=
  match groups with
  | [] => []
  | g :: gs => packet sid seq (Z.of_nat (length g)) g :: data_packets sid (seq + Z.of_nat (length g)) gs
  end.
Definition eos_packet (sid : bytes) (seq : Z) : bytes := sid ++ be64 seq ++ be16 kMoldEndOfSession.
Definition session_packets (sid : bytes) (seq : Z) (groups : list (list bytes)) : list bytes :=
  data_packets sid seq groups ++ [eos_packet sid (seq + Z.of_nat (length (concat groups)))].

(** A group that goes into one packet. *)
Definition group_ok (maxPerPacket : Z) (g : list bytes) : Prop :=
  g <> [] /\ Z.of_nat (length g) <= maxPerPacket /\
  kMoldHeaderBytes + Z.of_nat (length (frames g)) <= Replay.packetBytes /\ Forall is_msg g.

(** ** Filling a batch *)

(** The first [batchCount] entries of the arrays are the messages [g]. *)
Record batch_rep (b : Replay.batch) (g : list bytes) : Prop := {
  ba_ptrs : Forall2 points_at (take (length g) (Replay.batchPtrs b)) g;
  ba_lens : take (length g) (Replay.batchLens b) = (fun m : bytes => Z.of_nat (length m)) <$> g;
  ba_plen : length (Replay.batchPtrs b) = Replay.batchSlots;
  ba_llen : length (Replay.batchLens b) = Replay.batchSlots;
  ba_count : Replay.batchCount b = Z.of_nat (length g);
  ba_used : Replay.packetUsed b = kMoldHeaderBytes + Z.of_nat (length (frames g));
  ba_fits : Replay.packetUsed b <= Replay.packetBytes
}.

Lemma frames_app a b : frames (a ++ b) = frames a ++ frames b.
Proof. unfold frames. by rewrite fmap_app, concat_app. Qed.

Lemma take_store {A} i (x : A) a : (i < length a)%nat -> take (S i) (<[i := x]> a) = take i a ++ [x].
Proof.
  intros Hi. rewrite (take_S_r _ i x) by (by apply list_lookup_insert_eq). by rewrite take_insert_ge by lia.
Qed.

(** One message more. *)
Lemma batch_push b g m rest :
  batch_rep b g -> is_msg m -> Z.of_nat (length g) < Z.of_nat Replay.batchSlots ->
  Replay.packetUsed b + 2 + Z.of_nat (length m) <= Replay.packetBytes ->
  exists ptrs lens, Replay.store (Replay.batchCount b) (m ++ rest) (Replay.batchPtrs b) = Ok ptrs /\
    Replay.store (Replay.batchCount b) (Z.of_nat (length m)) (Replay.batchLens b) = Ok lens /\
    batch_rep (Replay.mkBatch ptrs lens (u16 (Replay.batchCount b + 1)) (u16 (Replay.packetUsed b + (2 + Z.of_nat (length m))))) (g ++ [m]).
Proof.
  intros [Hp Hl Hpl Hll Hc Hu Hf] Hm Hroom Hfit. unfold Replay.store. rewrite Hc, Nat2Z.id, Hpl, Hll.
  unfold Replay.batchSlots, Replay.packetBytes, kMoldHeaderBytes in *.
  destruct (Nat.ltb_spec (length g) 256); [|lia]. do 2 eexists; split_and!; [done | done |].
  split; cbn [Replay.batchPtrs Replay.batchLens Replay.batchCount Replay.packetUsed]; rewrite ?length_app, ?Nat.add_1_r.
  - rewrite take_store by (rewrite Hpl; lia). apply Forall2_app; [done|]. constructor; [by exists rest | constructor].
  - rewrite take_store by (rewrite Hll; lia). by rewrite Hl, fmap_app.
  - by rewrite length_insert.
  - by rewrite length_insert.
  - rewrite u16_small by lia. lia.
  - rewrite u16_small by lia. rewrite frames_app, length_app, frames_length. simpl. unfold kMoldHeaderBytes. lia.
  - rewrite u16_small by lia. unfold Replay.packetBytes. lia.
Qed.

Section fill.
Context (maxPerPacket : Z) (Hmax : 0 < maxPerPacket <= 256).

(** Where the inner loop stops: at the end of the file, at the maximal count,
    or before a message that does not fit. *)
Lemma fill_loop_ok fuel msgs b g :
  batch_rep b g -> Forall is_msg msgs -> Z.of_nat (length g) <= maxPerPacket -> (length msgs < fuel)%nat ->
  exists g' rest b', Replay.fill_loop fuel maxPerPacket (frames msgs) b = Ok (frames rest, b') /\
    msgs = g' ++ rest /\ batch_rep b' (g ++ g') /\ Z.of_nat (length (g ++ g')) <= maxPerPacket /\
    (g' = [] -> msgs = [] \/ maxPerPacket <= Z.of_nat (length g) \/
       exists m, hd_error msgs = Some m /\ Replay.packetBytes < Replay.packetUsed b + 2 + Z.of_nat (length m)).
Proof using Hmax.
  revert msgs b g; induction fuel as [|fuel IH]; intros msgs b g Hb Hm Hg Hf; [lia|].
  assert (Hstop : forall P, P -> exists g' rest b', Ok (frames msgs, b) = Ok (frames rest, b') /\ msgs = g' ++ rest /\
    batch_rep b' (g ++ g') /\ Z.of_nat (length (g ++ g')) <= maxPerPacket /\ (g' = [] -> P)).
  { intros P HP. exists [], msgs, b. rewrite app_nil_r. auto. }
  destruct msgs as [|m msgs]; [apply Hstop; auto|]. apply Forall_cons in Hm as [Hm Hms]. simpl in Hf.
  pose proof (ba_count _ _ Hb) as Hc. rewrite frames_cons in *.
  assert (Hl16 : exists v, load16 (be16 (Z.of_nat (length m)) ++ m ++ frames msgs) = Ok v /\ bswap16 v = Z.of_nat (length m))
    by (apply load16_be16; unfold is_msg, is_u16 in *; lia).
  destruct Hl16 as (v & Ev & Hv).
  cbn [Replay.fill_loop]. destruct (be16 (Z.of_nat (length m)) ++ m ++ frames msgs) as [|b0 l0] eqn:El; [done|]. rewrite <-El in *.
  destruct (Z.ltb_spec (Replay.batchCount b) maxPerPacket) as [Hlt|Hge]; [|apply Hstop; right; left; lia].
  rewrite Ev, bind_ok; cbv beta zeta. rewrite Hv.
  destruct (Z.ltb_spec Replay.packetBytes (Replay.packetUsed b + 2 + Z.of_nat (length m))) as [Hbig|Hfit]; [apply Hstop; eauto|].
  replace (drop 2 (be16 (Z.of_nat (length m)) ++ m ++ frames msgs)) with (m ++ frames msgs) by done.
  replace (drop (Z.to_nat (2 + Z.of_nat (length m))) (be16 (Z.of_nat (length m)) ++ m ++ frames msgs)) with (frames msgs).
  2: { replace (Z.to_nat (2 + Z.of_nat (length m))) with (2 + length m)%nat by lia. rewrite <-drop_drop.
       replace (drop 2 (be16 (Z.of_nat (length m)) ++ m ++ frames msgs)) with (m ++ frames msgs) by done. by rewrite drop_app_length. }
  destruct (batch_push b g m (frames msgs) Hb Hm) as (ptrs & lens & E1 & E2 & Hb'); [unfold Replay.batchSlots; lia | lia |].
  rewrite E1, bind_ok, E2, bind_ok; cbv beta.
  destruct (IH msgs _ _ Hb' Hms) as (g' & rest & b' & E & -> & Hb'' & Hlen & _); [rewrite length_app; simpl; lia | lia |].
  rewrite E. exists (m :: g'), rest, b'. rewrite <-app_assoc in Hb'', Hlen. split_and!; done.
Qed.
End fill.

(** ** Building from the arrays *)

(** The builder looks at the first [messageCount] entries only. *)
Lemma build_loop_take ptrs lens outCap c k i off out :
  (i + k <= c)%nat ->
  build_loop (take c ptrs) (take c lens) outCap k i off out = build_loop ptrs lens outCap k i off out.
Proof.
  revert i off out; induction k as [|k IH]; intros i off out Hi; [done|]. cbn [build_loop].
  rewrite !lookup_take_lt by lia. destruct (lens !! i) as [len|], (ptrs !! i) as [msg|]; try done.
  case_match; [done|]. destruct (write_bytes _ _ out) as [o1|]; [|done]. rewrite !bind_ok; cbv beta zeta.
  destruct (read_bytes _ msg) as [pl|]; [|done]. rewrite !bind_ok; cbv beta.
  destruct (write_bytes _ pl o1) as [o2|]; [|done]. rewrite !bind_ok; cbv beta. apply IH; lia.
Qed.

Lemma build_batch b g out seq :
  batch_rep b g -> Forall is_msg g -> is_u64 seq -> length out = Z.to_nat Replay.packetBytes -> Z.of_nat (length g) < 65536 ->
  exists buf, buildMoldPacket out Replay.packetBytes Replay.session seq (Replay.batchPtrs b) (Replay.batchLens b) (Replay.batchCount b) =
      Ok (kMoldHeaderBytes + Z.of_nat (length (frames g)), buf) /\ length buf = length out /\
    take (Z.to_nat (kMoldHeaderBytes + Z.of_nat (length (frames g)))) buf = packet Replay.session seq (Z.of_nat (length g)) g.
Proof.
  intros [Hp Hl Hpl Hll Hc Hu Hf] Hm Hseq Hout Hcnt.
  pose proof (buildMoldPacket_fits (take (length g) (Replay.batchPtrs b)) g out Replay.packetBytes Replay.session seq) as E.
  rewrite Hu in Hf. rewrite <-Hl in E. cbv zeta in E.
  assert (Eb : buildMoldPacket out Replay.packetBytes Replay.session seq (Replay.batchPtrs b) (Replay.batchLens b) (Replay.batchCount b) =
    buildMoldPacket out Replay.packetBytes Replay.session seq (take (length g) (Replay.batchPtrs b)) (take (length g) (Replay.batchLens b)) (Z.of_nat (length g))).
  { unfold buildMoldPacket. rewrite Hc, Nat2Z.id. case_match; [done|].
    destruct (read_bytes 10 _); [|done]. rewrite !bind_ok; cbv beta. destruct (write_bytes 0 _ out) as [o1|]; [|done].
    rewrite !bind_ok; cbv beta zeta. destruct (write_bytes 10 _ o1) as [o2|]; [|done]. rewrite !bind_ok; cbv beta.
    destruct (write_bytes 18 _ o2) as [o3|]; [|done]. rewrite !bind_ok; cbv beta. by rewrite build_loop_take. }
  rewrite Eb. set (nb := kMoldHeaderBytes + Z.of_nat (length (frames g))) in *.
  assert (Hpk : length (packet Replay.session seq (Z.of_nat (length g)) g) = Z.to_nat nb).
  { unfold packet, nb, kMoldHeaderBytes. rewrite !length_app. simpl length. lia. }
  rewrite E; [|done|done|done|done|done|rewrite Hout; unfold Replay.packetBytes; lia|done].
  eexists; split; [done|]. split; [|by rewrite take_app_length'].
  rewrite length_app, length_drop, Hpk. unfold Replay.packetBytes in *. lia.
Qed.

(** ** Waiting *)

(** As fast as possible; the clock is not read again. *)
Definition unpaced : Replay.pacing := Replay.mkPacing (fun _ => mkTimespec 0 0) 0 (Replay.nsPerMsgOf 0).


(** The clock gets there in the readings of one wait. *)
Definition reaches (c : Replay.pacing) (t : Z) : Prop :=
  forall i, exists j, (j < Replay.spins c)%nat /\ t <= monoNs (Replay.clock c (i + j)%nat).

Lemma wait_ok clk t j fuel i : (j < fuel)%nat -> t <= monoNs (clk (i + j)%nat) -> exists now k, Replay.wait fuel clk t i = Ok (now, k) /\ t <= now.
Proof.
  revert fuel i; induction j as [|j IH]; intros fuel i Hf Ht; (destruct fuel as [|fuel]; [lia|]); cbn [Replay.wait].
  - rewrite Nat.add_0_r in Ht. destruct (Z.ltb_spec (monoNs (clk i)) t); [lia | eauto].
  - destruct (Z.ltb_spec (monoNs (clk i)) t); [|eauto]. apply IH; [lia|]. by replace (S i + j)%nat with (i + S j)%nat by lia.
Qed.

(** A clock that can pace [n] messages. *)
Definition paces (c : Replay.pacing) (n : Z) : Prop :=
  0 <= Replay.nsPerMsg c /\
  (Replay.nsPerMsg c = 0 \/ Replay.startNs c + n * Replay.nsPerMsg c < 2 ^ 64 /\ reaches c (Replay.startNs c + n * Replay.nsPerMsg c)).

(** Not before the time of message number [m]. *)
Definition in_time (c : Replay.pacing) (m : Z) (now : option Z) : Prop :=
  match now with Some t => Replay.startNs c + m * Replay.nsPerMsg c <= t | None => Replay.nsPerMsg c = 0 end.

Lemma pace_ok c n m i : paces c n -> 0 <= m <= n -> exists now k, Replay.pace c m i = Ok (now, k) /\ in_time c m now.
Proof.
  intros [H0 Hp] Hm. unfold Replay.pace. destruct (Z.eqb_spec (Replay.nsPerMsg c) 0) as [E|Hne]; [eauto|].
  destruct Hp as [?|[Hfit Hr]]; [done|]. assert (0 <= Replay.startNs c) by (unfold Replay.startNs, monoNs, u64; apply Z.mod_pos_bound; lia).
  assert (Hle : 0 <= m * Replay.nsPerMsg c <= n * Replay.nsPerMsg c) by nia. rewrite (u64_small (m * _)), u64_small by lia.
  destruct (Hr i) as (j & Hj & Ht). destruct (wait_ok (Replay.clock c) (Replay.startNs c + m * Replay.nsPerMsg c) j (Replay.spins c) i Hj) as (now & k & E & Hn); [lia|].
  rewrite E, bind_ok. eauto.
Qed.

(** The packets of the groups in time, [m] messages having gone before. *)
Fixpoint on_time (c : Replay.pacing) (m : Z) (groups : list (list bytes)) (times : list (option Z)) : Prop :=
  match groups, times with
  | g :: gs, now :: times => in_time c m now /\ on_time c (m + Z.of_nat (length g)) gs times
  | [], [] => True
  | _, _ => False
  end.

Section send.
Context (maxPerPacket : Z) (Hmax : 0 < maxPerPacket <= 256) (sends : nat -> bool).
Context (c : Replay.pacing) (n : Z) (Hpace : paces c n).

(** Every message fits a packet of its own. *)
Definition sendable (m : bytes) : Prop := is_msg m /\ kMoldHeaderBytes + 2 + Z.of_nat (length m) <= Replay.packetBytes.

Lemma empty_batch ptrs lens : length ptrs = Replay.batchSlots -> length lens = Replay.batchSlots ->
  batch_rep (Replay.mkBatch ptrs lens 0 kMoldHeaderBytes) [].
Proof using. intros Hp Hl. split; simpl; try done. Qed.

(** Why the loop stopped before [rest], [k] packets having been sent: there is no
    more, the next [sendto] fails, or the next message does not fit a packet. *)
Definition stopped (k : nat) (rest : list bytes) : Prop :=
  rest = [] \/ sends k = false \/ exists m, hd_error rest = Some m /\ Replay.packetBytes < kMoldHeaderBytes + 2 + Z.of_nat (length m).

Lemma send_loop_ok fuel msgs ptrs lens buf seq m0 k i :
  Forall is_msg msgs -> length ptrs = Replay.batchSlots -> length lens = Replay.batchSlots ->
  length buf = Z.to_nat Replay.packetBytes -> 0 <= seq -> seq + Z.of_nat (length msgs) < 2 ^ 64 -> (length msgs < fuel)%nat ->
  0 <= m0 -> m0 + Z.of_nat (length msgs) <= n -> n < 2 ^ 64 ->
  exists groups rest sent buf', concat groups ++ rest = msgs /\ Forall (group_ok maxPerPacket) groups /\
    stopped (k + length groups) rest /\ (forall j, (j < length groups)%nat -> sends (k + j)%nat = true) /\
    length buf' = Z.to_nat Replay.packetBytes /\
    sent.*1 = data_packets Replay.session seq groups /\ on_time c m0 groups sent.*2 /\
    Replay.send_loop fuel maxPerPacket c sends (frames msgs) ptrs lens buf seq m0 k i = Ok (sent, buf', seq + Z.of_nat (length (concat groups))).
Proof using Hmax Hpace.
  revert msgs ptrs lens buf seq m0 k i; induction fuel as [|fuel IH]; intros msgs ptrs lens buf seq m0 k i Hm Hp Hl Hb Hs0 Hs Hf Hm0 Hn Hn64; [lia|].
  assert (Hstop : forall buf' : bytes, stopped k msgs -> length buf' = Z.to_nat Replay.packetBytes -> exists groups rest sent buf'',
    concat groups ++ rest = msgs /\ Forall (group_ok maxPerPacket) groups /\ stopped (k + length groups) rest /\
    (forall j, (j < length groups)%nat -> sends (k + j)%nat = true) /\ length buf'' = Z.to_nat Replay.packetBytes /\
    sent.*1 = data_packets Replay.session seq groups /\ on_time c m0 groups sent.*2 /\
    Ok ([], buf', seq) = Ok (sent, buf'', seq + Z.of_nat (length (concat groups)))).
  { intros buf' Hst Hlb. exists [], msgs, [], buf'. simpl. rewrite Z.add_0_r, Nat.add_0_r. split_and!; try done. lia. }
  destruct msgs as [|m msgs]; [apply Hstop; [by left | done]|].
  cbn [Replay.send_loop]. destruct (frames (m :: msgs)) as [|x0 l0] eqn:El; [by rewrite frames_cons in El|]. rewrite <-El. clear x0 l0 El.
  destruct (fill_loop_ok maxPerPacket Hmax (S (length (frames (m :: msgs)))) (m :: msgs) _ [] (empty_batch ptrs lens Hp Hl) Hm)
    as (g & rest & b & E & Eg & Hrep & Hcnt & Hne); [simpl; lia | pose proof (frames_count (m :: msgs)); lia |].
  rewrite E, bind_ok; cbv beta iota. cbn [app] in Hrep, Hcnt. pose proof (ba_count _ _ Hrep) as Hc.
  destruct (Z.eqb_spec (Replay.batchCount b) 0) as [E0|E0].
  { apply Hstop; [|done]. destruct Hne as [?|[?|(m' & [= <-] & Hbig)]]; [destruct g; [done | simpl in *; lia] | done | simpl in *; lia |].
    right; right. exists m. split; [done|]. cbn [Replay.packetUsed] in Hbig. lia. }
  assert (Hg : g <> []) by (intros ->; simpl in *; lia). assert (0 < length g)%nat by (destruct g; [done | simpl; lia]).
  rewrite Eg in Hm, Hs, Hf, Hn. apply Forall_app in Hm as [Hg1 Hr1]. rewrite length_app in Hs, Hf, Hn.
  destruct (build_batch b g buf seq Hrep Hg1) as (buf1 & Eb & Hlb & Htk); [unfold is_u64; lia | done | lia |].
  rewrite Eb, bind_ok; cbv beta iota. destruct (Z.eqb_spec (kMoldHeaderBytes + Z.of_nat (length (frames g))) 0); [unfold kMoldHeaderBytes in *; lia|].
  destruct (pace_ok c n m0 i Hpace) as (now & i' & Ep & Ht); [lia|]. rewrite Ep, bind_ok; cbv beta iota.
  destruct (sends k) eqn:Esend; [|apply Hstop; [by right; left | congruence]]. clear Hstop. rewrite Hc, !u64_small by lia.
  destruct (IH rest (Replay.batchPtrs b) (Replay.batchLens b) buf1 (seq + Z.of_nat (length g)) (m0 + Z.of_nat (length g)) (S k) i' Hr1)
    as (groups & rest' & sent & buf' & Ec & Hgs & Hst & Hok & Hl' & Es & Hts & E'); [apply Hrep | apply Hrep | congruence | lia.. |].
  rewrite E', bind_ok; cbv beta iota. rewrite Htk.
  exists (g :: groups), rest', ((packet Replay.session seq (Z.of_nat (length g)) g, now) :: sent), buf'.
  split_and!; [simpl; rewrite <-app_assoc; congruence | | by cbn [length]; rewrite Nat.add_succ_r | | done | by rewrite fmap_cons, Es | done |].
  - constructor; [|done]. split_and!; try done. rewrite <-(ba_used _ _ Hrep). apply Hrep.
  - intros [|j] Hj; [by rewrite Nat.add_0_r|]. simpl in Hj. rewrite Nat.add_succ_r. apply Hok. lia.
  - cbn [concat]. rewrite length_app, Nat2Z.inj_add. by rewrite Z.add_assoc.
Qed.
End send.

(** The end-of-session marker, patched into an empty packet. *)
Lemma eos_ok buf seq : length buf = Z.to_nat Replay.packetBytes -> is_u64 seq ->
  exists buf1 buf2, buildMoldPacket buf Replay.packetBytes Replay.session seq [] [] 0 = Ok (kMoldHeaderBytes, buf1) /\
    write_bytes 18 (bytes16 (bswap16 kMoldEndOfSession)) buf1 = Ok buf2 /\
    take (Z.to_nat kMoldHeaderBytes) buf2 = eos_packet Replay.session seq.
Proof.
  intros Hb Hs. pose proof (buildMoldPacket_fits [] [] buf Replay.packetBytes Replay.session seq) as E. cbv zeta in E.
  eexists _, _; split; [apply E; [constructor|constructor|done|done|done|rewrite Hb; unfold Replay.packetBytes; lia|done]|]. unfold packet. cbn [frames]. rewrite bytes16_swap by (unfold is_u16, kMoldEndOfSession; lia).
  set (rest := drop _ buf). unfold write_bytes.
  assert (Hr : length (Replay.session ++ be64 seq) = 18%nat) by done.
  replace ((Replay.session ++ be64 seq ++ be16 (Z.of_nat (length (A:=bytes) [])) ++ frames []) ++ rest)
    with ((Replay.session ++ be64 seq) ++ be16 0 ++ rest) by (by rewrite <-!app_assoc).
  rewrite length_app, Hr. destruct (Nat.leb_spec (18 + length (be16 kMoldEndOfSession)) (18 + length (be16 0 ++ rest)));
    [|rewrite length_app in *; simpl in *; lia].
  split; [done|]. rewrite (take_app_length' (Replay.session ++ be64 seq) _ 18) by done. unfold eos_packet. rewrite (app_assoc Replay.session).
  rewrite (app_assoc (Replay.session ++ be64 seq)). by rewrite take_app_length'.
Qed.

Lemma replay_sends maxPerPacket c msgs buffer ptrs lens sends :
  paces c (Z.of_nat (length msgs)) -> 0 < maxPerPacket <= 256 -> Forall is_msg msgs -> Z.of_nat (length msgs) < 2 ^ 64 - 1 ->
  length buffer = Z.to_nat Replay.packetBytes -> length ptrs = Replay.batchSlots -> length lens = Replay.batchSlots ->
  exists groups rest sent, concat groups ++ rest = msgs /\ Forall (group_ok maxPerPacket) groups /\
    stopped sends (length groups) rest /\ (forall j, (j < length groups)%nat -> sends j = true) /\
    Replay.replay maxPerPacket c sends (frames msgs) buffer ptrs lens = Ok sent /\
    sent.*1 = session_packets Replay.session 1 groups /\ exists times, sent.*2 = times ++ [None] /\ on_time c 0 groups times.
Proof.
  intros Hpace Hmax Hm Hlen Hb Hp Hl. unfold Replay.replay.
  destruct (send_loop_ok maxPerPacket Hmax sends c _ Hpace (S (length (frames msgs))) msgs ptrs lens buffer 1 0 0 1)
    as (groups & rest & sent & buf & Ec & Hg & Hst & Hok & Hbl & Es & Ht & E); try done; try (pose proof (frames_count msgs); lia).
  rewrite E, bind_ok; cbv beta iota. assert (length (concat groups) <= length msgs)%nat by (rewrite <-Ec, length_app; lia).
  destruct (eos_ok buf (1 + Z.of_nat (length (concat groups))) Hbl) as (b1 & b2 & E1 & E2 & E3); [unfold is_u64; lia|].
  rewrite E1, bind_ok; cbv beta iota. rewrite E2, bind_ok, E3; cbv beta. exists groups, rest. eexists. split_and!; [done.. | |].
  - rewrite fmap_app, Es. done.
  - exists sent.*2. by rewrite fmap_app.
Qed.

(** Nothing is left when every message fits and every packet goes out. *)
Lemma stopped_end sends k rest : stopped sends k rest -> Forall sendable rest -> (forall j, sends j = true) -> rest = [].
Proof.
  intros [?|[Hk|(m & Hm & Hbig)]] Hs Hsends; [done | by rewrite Hsends in Hk|]. destruct rest; [done|]. injection Hm as ->.
  apply Forall_cons in Hs as [[_ Hfit] _]. lia.
Qed.

Lemma replay_ok maxPerPacket c msgs buffer ptrs lens sends :
  paces c (Z.of_nat (length msgs)) -> 0 < maxPerPacket <= 256 -> Forall sendable msgs -> Z.of_nat (length msgs) < 2 ^ 64 - 1 ->
  length buffer = Z.to_nat Replay.packetBytes -> length ptrs = Replay.batchSlots -> length lens = Replay.batchSlots ->
  (forall k, sends k = true) ->
  exists groups sent, concat groups = msgs /\ Forall (group_ok maxPerPacket) groups /\
    Replay.replay maxPerPacket c sends (frames msgs) buffer ptrs lens = Ok sent /\
    sent.*1 = session_packets Replay.session 1 groups /\ exists times, sent.*2 = times ++ [None] /\ on_time c 0 groups times.
Proof.
  intros Hpace Hmax Hm Hlen Hb Hp Hl Hs.
  destruct (replay_sends maxPerPacket c msgs buffer ptrs lens sends) as (groups & rest & sent & Ec & Hg & Hst & _ & E & Hrest); try done.
  { eapply Forall_impl; [exact Hm | by intros x [? _]]. }
  assert (rest = []) as ->; [|rewrite app_nil_r in Ec; eauto 6]. eapply stopped_end; [exact Hst | | done].
  rewrite <-Ec in Hm. by apply Forall_app in Hm as [_ ?].
Qed.

(** ** Overflow of the arrays *)

(** One more message than the arrays hold, all of which fit the packet. *)
Lemma fill_overflows maxPerPacket fuel msgs more b g :
  256 < maxPerPacket -> batch_rep b g -> Forall is_msg msgs -> (length g + length msgs = 257)%nat -> msgs <> [] -> (length msgs < fuel)%nat ->
  Replay.packetUsed b + Z.of_nat (length (frames msgs)) <= Replay.packetBytes ->
  Replay.fill_loop fuel maxPerPacket (frames msgs ++ more) b = Err UB.
Proof.
  intros Hmax; revert fuel b g; induction msgs as [|m msgs IH]; intros fuel b g Hb Hm Hk Hne Hf Hfit; [done|].
  destruct fuel as [|fuel]; [lia|]. apply Forall_cons in Hm as [Hm Hms]. pose proof (ba_count _ _ Hb) as Hc. cbn [length] in Hk, Hf.
  rewrite frames_length in Hfit. rewrite frames_cons, <-!app_assoc.
  assert (Hl16 : exists v, load16 (be16 (Z.of_nat (length m)) ++ m ++ frames msgs ++ more) = Ok v /\ bswap16 v = Z.of_nat (length m))
    by (apply load16_be16; unfold is_msg, is_u16 in *; lia).
  destruct Hl16 as (v & Ev & Hv). cbn [Replay.fill_loop].
  destruct (be16 (Z.of_nat (length m)) ++ m ++ frames msgs ++ more) as [|b0 l0] eqn:El; [done|]. rewrite <-El in *.
  destruct (Z.ltb_spec (Replay.batchCount b) maxPerPacket); [|lia]. rewrite Ev, bind_ok; cbv beta zeta. rewrite Hv.
  destruct (Z.ltb_spec Replay.packetBytes (Replay.packetUsed b + 2 + Z.of_nat (length m))); [lia|].
  destruct (Nat.eq_dec (length g) 256%nat) as [E|Hlt].
  { assert (Es : forall x, Replay.store (Replay.batchCount b) x (Replay.batchPtrs b) = Err UB)
      by (intros x; unfold Replay.store; by rewrite Hc, Nat2Z.id, (ba_plen _ _ Hb), E). by rewrite Es. }
  replace (drop 2 (be16 (Z.of_nat (length m)) ++ m ++ frames msgs ++ more)) with (m ++ frames msgs ++ more) by done.
  replace (drop (Z.to_nat (2 + Z.of_nat (length m))) (be16 (Z.of_nat (length m)) ++ m ++ frames msgs ++ more)) with (frames msgs ++ more).
  2: { replace (Z.to_nat (2 + Z.of_nat (length m))) with (2 + length m)%nat by lia. rewrite <-drop_drop.
       replace (drop 2 (be16 (Z.of_nat (length m)) ++ m ++ frames msgs ++ more)) with (m ++ frames msgs ++ more) by done. by rewrite drop_app_length. }
  destruct (batch_push b g m (frames msgs ++ more) Hb Hm) as (ptrs & lens & E1 & E2 & Hb'); [unfold Replay.batchSlots; lia | lia |].
  rewrite E1, bind_ok, E2, bind_ok; cbv beta. apply (IH _ _ (g ++ [m]) Hb' Hms); [rewrite length_app; simpl; lia | destruct msgs; [simpl in *; lia | done] | lia |].
  cbn [Replay.packetUsed]. pose proof (ba_fits _ _ Hb). pose proof (ba_used _ _ Hb). unfold kMoldHeaderBytes, Replay.packetBytes in *.
  rewrite u16_small by lia. lia.
Qed.

Lemma replay_overflows maxPerPacket c sends msgs buffer ptrs lens :
  256 < maxPerPacket -> Forall is_msg msgs -> (257 <= length msgs)%nat ->
  kMoldHeaderBytes + Z.of_nat (length (frames (take 257 msgs))) <= Replay.packetBytes ->
  length ptrs = Replay.batchSlots -> length lens = Replay.batchSlots ->
  Replay.replay maxPerPacket c sends (frames msgs) buffer ptrs lens = Err UB.
Proof.
  intros Hmax Hm Hlen Hfit Hp Hl. unfold Replay.replay. assert (Hlt : length (take 257 msgs) = 257%nat) by (rewrite length_take; lia).
  assert (E : Replay.fill_loop (S (length (frames msgs))) maxPerPacket (frames msgs) (Replay.mkBatch ptrs lens 0 kMoldHeaderBytes) = Err UB).
  { rewrite <-(take_drop 257 msgs) at 2. rewrite frames_app.
    apply (fill_overflows _ _ _ _ _ []); [done | by apply empty_batch | by apply Forall_take | done | | | done].
    - intros E. by rewrite E in Hlt.
    - pose proof (frames_count msgs). lia. }
  cbn [Replay.send_loop]. destruct (frames msgs) as [|x l] eqn:El; [|by rewrite E].
  pose proof (frames_count msgs) as Hc. rewrite El in Hc. simpl in Hc. lia.
Qed.
