(* ===== verification/UdpTheorems.v ===== *)
(** The properties of the UDP mode as a whole: what reaches the engine through
    pool and ring, when the matching thread ends, and that a session sent by
    the replay program leaves the engine as the exchange prescribes. *)
From Stdlib Require Import ZArith Lia.
From stdpp Require Import base numbers gmap functions list relations.
From S2P Require Import Prelude OrderPool FlatHashMap Itch Exchange MatchingEngine EngineTheorems MoldUDP64 SpscRing PacketPool FeedHandler EngineUdp Replay.
Open Scope Z_scope.

(** ** A packet of well-formed messages *)

Lemma steps_app ms1 ms2 mk : Exchange.steps (ms1 ++ ms2) mk = Exchange.steps ms2 (Exchange.steps ms1 mk).
Proof. revert mk; induction ms1 as [|m ms1 IH]; intros mk; simpl; [done | apply IH]. Qed.

Lemma all_admissible_app cap reserved ms1 ms2 mk :
  Exchange.all_admissible cap reserved (ms1 ++ ms2) mk <->
  Exchange.all_admissible cap reserved ms1 mk /\ Exchange.all_admissible cap reserved ms2 (Exchange.steps ms1 mk).
Proof. revert mk; induction ms1 as [|m ms1 IH]; intros mk; simpl; [tauto|]. rewrite IH. tauto. Qed.

(** *** What a packet records *)

(** The wire samples of [k] Adds of a packet stamped [tw]. *)
Fixpoint wire_samples (tscNow : Z -> Z) (tw r : Z) (k : nat) : list Z :=
  match k with
  | O => []
  | S k => (if tw =? 0 then [] else [u64 (tscNow r - tw)]) ++ wire_samples tscNow tw (r + 2) k
  end.

(** The samples of the messages [ms] of a packet stamped [tw]. *)
Definition records {I} (tscNow : Z -> Z) (tw : Z) (ms : list Exchange.message) (e e' : MatchingEngine I) : Prop :=
  latencies e' = latencies e ++ add_samples tscNow (tscReads e) (adds ms) /\
  wireLatencies e' = wireLatencies e ++ wire_samples tscNow tw (tscReads e) (adds ms) /\
  tscReads e' = tscReads e + 2 * Z.of_nat (adds ms).

Lemma records_nil {I} tscNow tw (e : MatchingEngine I) : records tscNow tw [] e e.
Proof. unfold records. simpl. by rewrite !app_nil_r, Z.add_0_r. Qed.

Lemma records_cons {I} {HI : OrderIndex I} tscNow tw m d rest ms len scr scr1 (e e1 e' : MatchingEngine I) :
  encodes m d -> MatchingEngine.processMessage tscNow (d ++ rest) len scr tw e = Ok (scr1, e1) ->
  records tscNow tw ms e1 e' -> records tscNow tw (m :: ms) e e'.
Proof.
  intros Hm (A & B & C)%latency_samples (A' & B' & C'). pose proof (encodes_is_add m d rest ms Hm) as Ha. unfold records.
  rewrite A', B', C', A, B, C, <-Ha, <-!app_assoc. destruct (is_add (d ++ rest)); cbn [Nat.add add_samples wire_samples andb app].
  - split_and!; [done | by destruct (tw =? 0) | lia].
  - rewrite !Z.add_0_r. by split_and!.
Qed.

Section packets.
Context {I : Type} {HI : OrderIndex I} {cap reserved : Z} {HS : OrderIndexSpec I cap reserved}.
Context (Hfit : cap <= INVALID_INDEX) (tscNow : Z -> Z).
Implicit Types (e : MatchingEngine I) (mk : Exchange.market).

(** The loop over the messages of a packet. *)
Lemma packet_loop_ok fuel ms g more tw e scr m mk :
  Forall2 encodes ms g -> Forall is_msg g -> engine_rep e mk -> Exchange.all_admissible cap reserved ms mk ->
  (length g < fuel)%nat ->
  exists e' scr' m', EngineUdp.packet_loop tscNow fuel (MoldMessageIterator.new (frames g ++ more) (Z.of_nat (length (frames g)))) tw (e, scr, m) =
      Ok (e', scr', m') /\ engine_rep e' (Exchange.steps ms mk) /\ records tscNow tw ms e e' /\ (is_u64 m -> m' = u64 (m + Z.of_nat (length ms))).
Proof using Hfit.
  unfold MoldMessageIterator.new. intros Hms; revert fuel e scr m mk. induction Hms as [|x d ms g Hx Hms IH]; intros fuel e scr m mk Hg He Ha Hf;
    (destruct fuel as [|fuel]; [simpl in Hf; lia|]).
  { exists e, scr, m. rewrite Z.add_0_r. split_and!; try done; [apply records_nil|]. intros. by rewrite u64_small. }
  apply Forall_cons in Hg as [Hd Hg]. destruct Ha as [Ha1 Ha2]. simpl in Hf. rewrite frames_length, frames_cons, <-!app_assoc.
  replace (Z.of_nat (2 + length d + length (frames g))) with (2 + Z.of_nat (length d) + Z.of_nat (length (frames g))) by lia.
  cbn [EngineUdp.packet_loop]. rewrite next_message, bind_ok by (done || lia); cbv beta iota.
  destruct (processMessage_ok Hfit tscNow x (d ++ frames g ++ more) (Z.of_nat (length d)) scr tw e mk (encodes_app _ _ _ Hx) He Ha1)
    as (s1 & e1 & E1 & He1 & _).
  rewrite E1, bind_ok; cbv beta iota.
  destruct (IH fuel e1 s1 (u64 (m + 1)) (Exchange.step x mk).1) as (e' & scr' & m' & E & He' & Hr & Hm); try (done || lia).
  exists e', scr', m'. split_and!; try done; [by eapply records_cons|]. intros _. rewrite Hm by apply u64_range. rewrite u64_add_l. f_equal. cbn [length]. lia.
Qed.

Lemma processPacket_ok slot p sid seq ms g tw e scr m mk :
  p = packet sid seq (Z.of_nat (length g)) g -> length sid = 10%nat ->
  take (length p) (data slot) = p -> length_ slot = Z.of_nat (length p) -> wire_ok p ->
  Forall2 encodes ms g -> Forall is_msg g -> engine_rep e mk -> Exchange.all_admissible cap reserved ms mk ->
  exists e' scr' m', EngineUdp.processPacket tscNow slot tw (e, scr, m) = Ok (e', scr', m') /\ engine_rep e' (Exchange.steps ms mk) /\
    records tscNow tw ms e e' /\ (is_u64 m -> m' = u64 (m + Z.of_nat (length ms))).
Proof using Hfit.
  intros Ep Hsid Hd Hl Hw Hms Hg He Ha. unfold EngineUdp.processPacket.
  assert (Hlp : length p = (20 + length (frames g))%nat) by (rewrite Ep; unfold packet; rewrite !length_app, Hsid; simpl; lia).
  rewrite <-(take_drop (length p) (data slot)), Hd. set (junk := drop _ _).
  replace (p ++ junk) with ((sid ++ be64 seq ++ be16 (Z.of_nat (length g))) ++ frames g ++ junk)
    by (rewrite Ep; unfold packet; by rewrite <-!app_assoc).
  rewrite advance_app, bind_ok by (rewrite !length_app, Hsid; done); cbv beta.
  unfold wire_ok, kMaxPacketBytes, kMoldHeaderBytes in *. rewrite Hl, Hlp, u64_small by lia.
  replace (Z.of_nat (20 + length (frames g)) - 20) with (Z.of_nat (length (frames g))) by lia.
  apply packet_loop_ok; try done. rewrite length_app. pose proof (frames_count g). lia.
Qed.
End packets.

(** ** What the tracker makes of a session *)

Lemma header_of_packet sid seq count g :
  length sid = 10%nat -> is_u64 seq -> is_u16 count -> header_of (packet sid seq count g) = mkMold sid seq count.
Proof. intros. unfold header_of, packet. by rewrite parse_packet. Qed.

Lemma header_of_eos sid seq : length sid = 10%nat -> is_u64 seq ->
  header_of (eos_packet sid seq) = mkMold sid seq kMoldEndOfSession.
Proof.
  intros. replace (eos_packet sid seq) with (packet sid seq kMoldEndOfSession []).
  - by apply header_of_packet.
  - unfold eos_packet, packet. change (frames []) with (@nil Z). by rewrite app_nil_r.
Qed.

Lemma data_packets_take sid seq groups j : data_packets sid seq (take j groups) = take j (data_packets sid seq groups).
Proof. revert seq j; induction groups as [|g gs IH]; intros seq [|j]; simpl; try done. by rewrite IH. Qed.

Lemma concat_take_le {A} j (groups : list (list A)) : (length (concat (take j groups)) <= length (concat groups))%nat.
Proof.
  rewrite <-(take_drop j groups) at 2. rewrite concat_app, length_app. lia.
Qed.

Lemma data_packets_length sid seq groups : length (data_packets sid seq groups) = length groups.
Proof. revert seq; induction groups as [|g gs IH]; intros seq; simpl; [done | by rewrite IH]. Qed.

Lemma data_packets_lookup sid seq groups i p : data_packets sid seq groups !! i = Some p ->
  exists g, groups !! i = Some g /\ p = packet sid (seq + Z.of_nat (length (concat (take i groups)))) (Z.of_nat (length g)) g.
Proof.
  revert seq i; induction groups as [|g gs IH]; intros seq [|i]; simpl; try done.
  - intros [= <-]. exists g. by rewrite Z.add_0_r.
  - intros Hp. destruct (IH _ _ Hp) as (g' & Hg' & ->). exists g'. split; [done|]. rewrite length_app. f_equal. lia.
Qed.

Section tracked.
Context (sid : bytes) (Hsid : length sid = 10%nat) (maxPer : Z) (Hmax : maxPer <= 256).

Lemma track_group t0 seq g st :
  0 <= seq -> seq + Z.of_nat (length g) < 2 ^ 64 -> group_ok maxPer g ->
  t0 = tracker0 \/ t0 = tracking sid seq ->
  track (header_of (packet sid seq (Z.of_nat (length g)) g)) t0 st = (Accepted, tracking sid (seq + Z.of_nat (length g)), st).
Proof using Hsid Hmax.
  intros Hs0 Hs (Hne & Hcnt & _) Ht. assert (0 < length g)%nat by (destruct g; [done | simpl; lia]).
  rewrite header_of_packet by (done || unfold is_u64, is_u16; lia).
  set (h := mkMold _ _ _). assert (E : track h t0 st = track h (tracking sid seq) st) by (by destruct Ht as [-> | ->]; [rewrite track_first|]).
  rewrite E, track_accepted; simpl.
  - unfold end_seq; simpl. by rewrite Z.ltb_irrefl.
  - unfold header_ok, end_seq; simpl. lia.
  - unfold is_data; simpl. unfold kMoldEndOfSession, kMoldHeartbeat.
    destruct (Z.eqb_spec (Z.of_nat (length g)) 65535), (Z.eqb_spec (Z.of_nat (length g)) 0); (done || lia).
  - lia.
Qed.

Lemma packet_long seq c g : (20 <=? length (packet sid seq c g))%nat = true.
Proof using Hsid. apply Nat.leb_le. unfold packet. rewrite !length_app, Hsid. simpl. lia. Qed.

Lemma admitted_data groups seq t0 :
  0 <= seq -> seq + Z.of_nat (length (concat groups)) < 2 ^ 64 -> Forall (group_ok maxPer) groups ->
  t0 = tracker0 \/ t0 = tracking sid seq ->
  (admitted t0 (data_packets sid seq groups)).1 = data_packets sid seq groups.
Proof using Hsid Hmax.
  revert seq t0; induction groups as [|g gs IH]; intros seq t0 Hs0 Hs Hg Ht; [done|].
  apply Forall_cons in Hg as [Hg Hgs]. simpl in Hs. rewrite length_app in Hs. cbn [data_packets admitted].
  rewrite packet_long, track_group by (done || lia).
  specialize (IH (seq + Z.of_nat (length g)) (tracking sid (seq + Z.of_nat (length g))) ltac:(lia) ltac:(lia) Hgs ltac:(by right)).
  destruct (admitted _ _) as [acc t1]. simpl in *. by rewrite IH.
Qed.

Lemma eos_not_accepted t arr seq : is_u64 seq -> (admitted t (arr ++ [eos_packet sid seq])).1 = (admitted t arr).1.
Proof using Hsid.
  intros Hseq. rewrite admitted_snoc. destruct (admitted t arr) as [acc t1].
  destruct (Nat.leb_spec 20 (length (eos_packet sid seq))) as [_|H]; [|unfold eos_packet in H; rewrite !length_app, Hsid in H; simpl in H; lia].
  rewrite header_of_eos by done. by destruct (sessionInit t1) eqn:E; unfold track; rewrite E.
Qed.

(** However much of the session arrived: an initial piece of the packets was
    accepted, and all of them once the end marker arrived. *)
Lemma admitted_session groups arr :
  let total := 1 + Z.of_nat (length (concat groups)) in
  total < 2 ^ 64 -> Forall (group_ok maxPer) groups -> arr `prefix_of` session_packets sid 1 groups ->
  exists j, (admitted tracker0 arr).1 = data_packets sid 1 (take j groups) /\
    (eos_last arr -> take j groups = groups).
Proof using Hsid Hmax.
  intros total Htot Hg [rest E]. unfold session_packets in E. fold total in E.
  destruct rest as [|x rest _] using rev_ind.
  - rewrite app_nil_r in E. subst arr. exists (length groups). rewrite firstn_all. split; [|done].
    rewrite eos_not_accepted by (unfold is_u64; lia). apply admitted_data; auto; lia.
  - rewrite app_assoc in E. apply app_inj_tail in E as [E _].
    assert (Ea : arr = data_packets sid 1 (take (length arr) groups)) by (by rewrite data_packets_take, E, take_app_length).
    exists (length arr). split.
    + rewrite Ea at 1. apply admitted_data; auto; [lia | | by apply Forall_take].
      pose proof (concat_take_le (length arr) groups). unfold total in *. lia.
    + intros (arr' & p & -> & Hp & Hc). exfalso.
      assert (Hin : data_packets sid 1 groups !! length arr' = Some p).
      { rewrite E, <-app_assoc. by apply list_lookup_middle. }
      destruct (data_packets_lookup _ _ _ _ _ Hin) as (g & Hgi & ->).
      pose proof (Forall_lookup_1 _ _ _ _ Hg Hgi) as (Hne & Hcnt & _).
      pose proof (concat_take_le (length arr') groups).
      rewrite header_of_packet in Hc by (done || unfold is_u64, is_u16, total in *; lia). simpl in Hc. unfold kMoldEndOfSession in Hc. lia.
Qed.
End tracked.

(** ** What each turn leaves alone *)

Section frames.
Context {I : Type} {HI : OrderIndex I} (tscNow : Z -> Z).
Implicit Types (s : udp I).

Lemma netTurn_frame r tw s s' : EngineUdp.netTurn r tw s = Ok s' ->
  engine s' = engine s /\ processed s' = processed s /\ eng s' = eng s /\
  arrived s `prefix_of` arrived s' /\ lost s `prefix_of` lost s' /\ (net s = NetDone -> s' = s).
Proof using.
  unfold EngineUdp.netTurn. destruct (net s) as [|i| |ref|] eqn:Hi.
  - case_match; [intros [= <-]; by split_and!|]. intros ([idx p] & _ & [= <-])%bind_inv. by split_and!.
  - intros ([ctl f] & _ & [= <-])%bind_inv. simpl. split_and!; try done; by apply prefix_app_r.
  - intros [= <-]. simpl. split_and!; try done; by apply prefix_app_r.
  - intros ([b q] & _ & [= <-])%bind_inv. by split_and!.
  - intros [= <-]. by split_and!.
Qed.

Lemma engTurn_frame s s' : EngineUdp.engTurn tscNow s = Ok s' -> net s' = net s /\ arrived s' = arrived s /\ lost s' = lost s.
Proof using.
  unfold EngineUdp.engTurn. destruct (eng s) as [k|ref|] eqn:Hi.
  - intros ([o q] & _ & E)%bind_inv. destruct o; repeat case_match; by injection E as <-.
  - intros (slot & _ & ([[e scr] m] & _ & (p & _ & [= <-])%bind_inv)%bind_inv)%bind_inv. done.
  - by intros [= <-].
Qed.

Lemma xdpTurn_frame port first frame tw s s' : EngineUdp.xdpTurn port first frame tw s = Ok s' ->
  engine s' = engine s /\ processed s' = processed s /\ eng s' = eng s /\
  arrived s `prefix_of` arrived s' /\ lost s `prefix_of` lost s' /\ (net s = NetDone -> s' = s).
Proof using.
  unfold EngineUdp.xdpTurn. destruct (net s) as [|i| |ref|] eqn:Hi; try (intros [= <-]; by split_and!).
  - case_match; [intros [= <-]; by split_and!|]. intros ([ctl f] & _ & [= <-])%bind_inv. simpl.
    split_and!; try done; by apply prefix_app_r.
  - intros ([b q] & _ & [= <-])%bind_inv. by split_and!.
Qed.

Lemma netTurn_matched r tw s s' : EngineUdp.netTurn r tw s = Ok s' -> matched s' = matched s.
Proof using.
  unfold EngineUdp.netTurn. destruct (net s) as [|i| |ref|].
  - case_match; [by intros [= <-]|]. by intros ([idx p] & _ & [= <-])%bind_inv.
  - by intros ([ctl f] & _ & [= <-])%bind_inv.
  - by intros [= <-].
  - by intros ([b q] & _ & [= <-])%bind_inv.
  - by intros [= <-].
Qed.

Lemma xdpTurn_matched port first frame tw s s' : EngineUdp.xdpTurn port first frame tw s = Ok s' -> matched s' = matched s.
Proof using.
  unfold EngineUdp.xdpTurn. destruct (net s) as [|i| |ref|]; try by intros [= <-].
  - case_match; [by intros [= <-]|]. by intros ([ctl f] & _ & [= <-])%bind_inv.
  - by intros ([b q] & _ & [= <-])%bind_inv.
Qed.

Lemma step_frame useXdp port s s' : EngineUdp.step tscNow useXdp port s s' -> arrived s `prefix_of` arrived s' /\ lost s `prefix_of` lost s'.
Proof using.
  intros Hst. destruct Hst as [r tw s s' _ _ E|first frame tw s s' _ _ E|s s' E].
  - by apply netTurn_frame in E as (_ & _ & _ & ? & ? & _).
  - by apply xdpTurn_frame in E as (_ & _ & _ & ? & ? & _).
  - by apply engTurn_frame in E as (_ & -> & ->).
Qed.
End frames.

(** ** A session through the pipeline *)

Section session.
Context {I : Type} {HI : OrderIndex I} {cap reserved : Z} {HS : OrderIndexSpec I cap reserved}.
Context (Hfit : cap <= INVALID_INDEX) (tscNow : Z -> Z).
Context (n rcap : Z) (Hrcap : is_capacity rcap) (Hn : rcap < n <= kPoolInvalid).
Context (sid : bytes) (Hsid : length sid = 10%nat) (maxPer : Z) (Hmax : maxPer <= 256).
Context (groups : list (list bytes)) (mss : list (list Exchange.message)) (mk0 : Exchange.market).
Context (Hgroups : Forall (group_ok maxPer) groups) (Htotal : 1 + Z.of_nat (length (concat groups)) < 2 ^ 64).
Context (Hms : Forall2 (Forall2 encodes) mss groups) (Hadm : Exchange.all_admissible cap reserved (concat mss) mk0).
Implicit Types (s : udp I).

(** The session so far is what was received, and nothing of it was dropped. *)
Definition on_session s : Prop := arrived s `prefix_of` session_packets sid 1 groups /\ lost s = [].

(** The market after the packets processed so far. *)
Definition market_at s : Exchange.market := Exchange.steps (concat (take (length (processed s)) mss)) mk0.

Lemma queued_session s F refs sent flight :
  udp_ok n rcap s F refs sent flight -> on_session s ->
  exists j, (queued s).*1 = data_packets sid 1 (take j groups) /\ (eos_last (arrived s) -> take j groups = groups).
Proof using Hsid Hmax Hgroups Htotal.
  intros H [Harr Hlost]. destruct (uo_track _ _ _ _ _ _ _ H) as (acc & Ha & Hsub & Hlen). rewrite Hlost in Hlen. simpl in Hlen.
  assert (Eq : (queued s).*1 = acc) by (apply sublist_same_length; [done | rewrite length_fmap; lia]).
  destruct (admitted_session sid Hsid maxPer Hmax groups (arrived s) Htotal Hgroups Harr) as (j & Hj & He).
  exists j. rewrite Eq. by rewrite Ha in Hj.
Qed.

(** When the matching thread has ended every packet was processed. *)
Lemma session_complete s : sound n rcap s -> on_session s -> eng s = EngDone ->
  processed s = queued s /\ length (processed s) = length mss.
Proof using Hsid Hmax Hgroups Htotal Hms.
  intros (F & refs & sent & flight & H) Hon Hd. destruct (uo_done _ _ _ _ _ _ _ H Hd) as (-> & -> & _).
  destruct (queued_session s F [] [] flight H Hon) as (j & Hq & Hall). rewrite Hall in Hq by (apply (uo_eos _ _ _ _ _ _ _ H); auto).
  pose proof (uo_flight _ _ _ _ _ _ _ H) as Hf. rewrite Hd in Hf. apply Forall2_nil_inv_l in Hf as ->.
  pose proof (uo_queued _ _ _ _ _ _ _ H) as Eq. rewrite app_nil_r in Eq. split; [done|]. rewrite Eq in Hq.
  apply (f_equal length) in Hq. by rewrite length_fmap, data_packets_length, <-(Forall2_length _ _ _ Hms) in Hq.
Qed.

(** The packet in hand is the next of the session: processing it succeeds. *)
Lemma hold_session s ref :
  sound n rcap s -> on_session s -> eng s = EngHolding ref -> engine_rep (engine s) (market_at s) ->
  exists s', EngineUdp.engTurn tscNow s = Ok s' /\ engine_rep (engine s') (market_at s') /\ eng s' = EngLoop 0 /\
    queued s' = queued s /\ length (processed s') = S (length (processed s)) /\ (length (processed s') <= length (queued s'))%nat /\
    exists ms x, mss !! length (processed s) = Some ms /\ processed s' = processed s ++ [x] /\ x ∈ queued s /\
      records tscNow x.2 ms (engine s) (engine s') /\ (is_u64 (matched s) -> matched s' = u64 (matched s + Z.of_nat (length ms))).
Proof using All.
  intros (F & refs & sent & flight & H) Hon Hi He.
  destruct (queued_session _ _ _ _ _ H Hon) as (j & Hq & _).
  destruct (engTurn_hold n rcap Hrcap Hn tscNow s F refs sent flight ref H Hi) as (x & flight' & slot & -> & _ & _ & Hd & Hl & Hw & _ & Hgo).
  assert (Hx : data_packets sid 1 (take j groups) !! length (processed s) = Some x.1).
  { rewrite <-Hq, (uo_queued _ _ _ _ _ _ _ H), fmap_app. rewrite lookup_app_r by (by rewrite length_fmap).
    by rewrite length_fmap, Nat.sub_diag. }
  destruct (data_packets_lookup _ _ _ _ _ Hx) as (g & Hg & Ex). apply lookup_take_Some in Hg as [Hg _].
  destruct (Forall2_lookup_r _ _ _ _ _ Hms Hg) as (ms & Hmsi & Henc).
  pose proof (Forall_lookup_1 _ _ _ _ Hgroups Hg) as (_ & _ & _ & Hmsg).
  assert (Hsplit : concat mss = concat (take (length (processed s)) mss) ++ ms ++ concat (drop (S (length (processed s))) mss)).
  { rewrite <-(take_drop_middle _ _ _ Hmsi) at 1. by rewrite concat_app. }
  pose proof Hadm as Hadm'. rewrite Hsplit in Hadm'. apply all_admissible_app in Hadm' as [_ [Hams _]%all_admissible_app].
  destruct (processPacket_ok Hfit tscNow slot x.1 sid _ ms g x.2 (engine s) (scratch s) (matched s) (market_at s) Ex Hsid Hd Hl Hw Henc Hmsg He Hams)
    as (e' & scr' & m' & E & He' & Hrec & Hm').
  destruct (Hgo e' scr' m' E) as (f' & E' & _). eexists; split; [exact E'|]. cbn [engine eng processed queued].
  rewrite (uo_queued _ _ _ _ _ _ _ H), !length_app, Nat.add_1_r. cbn [length]. split_and!; [|done|done|lia|lia|].
  2: { exists ms, x. split_and!; try done. set_solver. }
  unfold market_at; cbn [processed]. rewrite length_app, Nat.add_1_r, (take_S_r _ _ _ Hmsi), concat_app, steps_app. cbn [concat].
  by rewrite app_nil_r.
Qed.

(** When the receive thread has ended the session, the matching thread ends
    after finitely many turns of its own. *)
Lemma session_drains s :
  sound n rcap s -> on_session s -> engine_rep (engine s) (market_at s) -> net s = NetDone -> eos_last (arrived s) ->
  exists s', rtc (fun a b => EngineUdp.engTurn tscNow a = Ok b) s s' /\ eng s' = EngDone.
Proof using All.
  remember (2 * (length (queued s) - length (processed s)) + match eng s with EngLoop _ => 1 | _ => 0 end)%nat as k eqn:Ek.
  revert s Ek. induction k as [k IH] using lt_wf_ind. intros s -> Hs Hon He Hnet Heos.
  destruct (eng s) as [b|ref|] eqn:Hi.
  - pose proof Hs as (F & refs & sent & flight & H).
    destruct (engTurn_pop n rcap Hrcap Hn tscNow s F refs sent flight b H Hi) as (f' & c' & refs' & sent' & E' & H' & Hc).
    set (s1 := mkUdp _ _ _ _ _ _ _ _ _ _ _) in *. destruct Hc as [->|[(ref & ->)|Hnil]].
    + exists s1. split; [by apply rtc_once | done].
    + destruct (IH (2 * (length (queued s) - length (processed s)))%nat) with (s := s1) as (s' & Hr & Hd);
        [lia | simpl; lia | by do 4 eexists | exact Hon | exact He | exact Hnet | exact Heos |].
      exists s'. split; [by eapply rtc_l | done].
    + apply app_nil in Hnil as [-> ->]. exfalso. apply (uo_eos _ _ _ _ _ _ _ H) in Heos as [(ref & E)|[?|E]]; congruence.
  - destruct (hold_session s ref Hs Hon Hi He) as (s1 & E & He1 & Hi1 & Hq & Hp & Hle & _).
    destruct (engTurn_frame tscNow s s1 E) as (En & Ea & El).
    destruct (IH (2 * (length (queued s1) - length (processed s1)) + 1)%nat) with (s := s1) as (s' & Hr & Hd).
    + rewrite Hq, Hp in *. lia.
    + by rewrite Hi1.
    + by eapply engTurn_sound.
    + unfold on_session. by rewrite Ea, El.
    + done.
    + congruence.
    + by rewrite Ea.
    + exists s'. split; [by eapply rtc_l | done].
  - by exists s.
Qed.

Lemma step_session useXdp port s s' :
  sound n rcap s -> EngineUdp.step tscNow useXdp port s s' -> on_session s' -> on_session s /\
    (engine_rep (engine s) (market_at s) -> engine_rep (engine s') (market_at s')).
Proof using All.
  intros Hs Hst [Ha Hl]. destruct (step_frame tscNow useXdp port s s' Hst) as [Hpa Hpl].
  assert (Hon : on_session s).
  { split; [by etrans|]. rewrite Hl in Hpl. by apply prefix_nil_inv in Hpl. }
  split; [done|]. intros He. destruct Hst as [r tw s s' _ _ E|first frame tw s s' _ _ E|s s' E].
  - apply netTurn_frame in E as (Ee & Ep & _). unfold market_at. by rewrite Ee, Ep.
  - apply xdpTurn_frame in E as (Ee & Ep & _). unfold market_at. by rewrite Ee, Ep.
  - destruct (eng s) as [k|ref|] eqn:Hi.
    + destruct Hs as (F & refs & sent & flight & H).
      destruct (engTurn_pop n rcap Hrcap Hn tscNow s F refs sent flight k H Hi) as (f' & c' & refs' & sent' & E' & _ & _).
      rewrite E in E'. by injection E' as ->.
    + destruct (hold_session s ref Hs Hon Hi He) as (s'' & E' & He' & _). rewrite E in E'. by injection E' as ->.
    + unfold EngineUdp.engTurn in E. rewrite Hi in E. by injection E as <-.
Qed.

Lemma reachable_session useXdp port ready e s0 s :
  EngineUdp.initial ready n rcap e = Ok s0 -> engine_rep e mk0 -> rtc (EngineUdp.step tscNow useXdp port) s0 s -> on_session s ->
  engine_rep (engine s) (market_at s).
Proof using All.
  intros E0 He Hr. pose proof (initial_sound n rcap Hrcap Hn ready e s0 E0) as H0.
  assert (Hm0 : engine_rep (engine s0) (market_at s0)).
  { unfold EngineUdp.initial in E0. apply bind_inv in E0 as (p & _ & (r & _ & [= <-])%bind_inv). done. }
  clear E0. intros Hon. cut (sound n rcap s /\ (on_session s -> engine_rep (engine s) (market_at s))); [naive_solver|].
  assert (HP : sound n rcap s0 /\ (on_session s0 -> engine_rep (engine s0) (market_at s0))) by done.
  clear H0 Hm0 Hon. induction Hr as [|s1 s2 s3 Hst _ IH]; [done|]. apply IH. destruct HP as [H1 H2]. split.
  - by eapply step_sound.
  - intros Hon. destruct (step_session useXdp port s1 s2 H1 Hst Hon) as [Hon1 Hgo]. auto.
Qed.
End session.

(** ** Properties *)

(** C8: ownership and delivery, in every interleaving of the two threads and
    for anything the network sends, whichever of the two receive paths (socket or
    AF_XDP frames) is in use. The receive thread never fails and never
    finds the pool empty; every slot is free, or held by exactly one of the
    receive thread, the ring and the matching thread, so none is lost or shared;
    the slot the matching thread works on still holds the datagram it was pushed
    for, the oldest not yet processed; and what was pushed are the datagrams the
    tracker accepted, in order, up to those counted as lost. It needs one slot
    more than the ring has. *)
Theorem packets_delivered {I} {HI : OrderIndex I} tscNow useXdp port ready n rcap (e : MatchingEngine I) s0 s :
  is_capacity rcap -> rcap < n <= kPoolInvalid -> EngineUdp.initial ready n rcap e = Ok s0 -> rtc (EngineUdp.step tscNow useXdp port) s0 s ->
  (forall r tw, (forall p, r = Received p -> wire_ok p) -> exists s', EngineUdp.netTurn r tw s = Ok s') /\
  (forall first frame tw, Forall is_byte frame -> exists s', EngineUdp.xdpTurn port first frame tw s = Ok s') /\
  net s <> NetStarved /\
  (exists F refs sent, feed_ok rcap (fd s) F (refs ++ sent) /\
     F ++ net_slots (net s) ++ (ref_poolIdx <$> eng_refs (eng s) ++ refs) ≡ₚ seqZ 0 n) /\
  (forall ref, eng s = EngHolding ref -> exists x later,
     queued s = processed s ++ x :: later /\ slot_holds (pkts (fd s)) (ref_poolIdx ref) x.1 /\ ref_tWire ref = x.2) /\
  processed s `prefix_of` queued s /\
  (queued s).*1 `sublist_of` (admitted tracker0 (arrived s)).1 /\
  length (admitted tracker0 (arrived s)).1 = (length (queued s) + length (lost s))%nat.
Proof.
  intros Hcap Hn E Hr. pose proof (reachable_sound n rcap Hcap Hn tscNow useXdp port ready e s0 s E Hr) as Hs.
  split; [|split]; [| |pose proof Hs as (F & refs & sent & flight & H); split_and!].
  - intros r tw Hw. destruct (netTurn_sound n rcap Hcap Hn s r tw Hs Hw) as (s' & E' & _). eauto.
  - intros first frame tw Hb. destruct (xdpTurn_sound n rcap Hcap Hn s port first frame tw Hs Hb) as (s' & E' & _). eauto.
  - apply H.
  - exists F, refs, sent. split; [apply H | exact (uo_slots _ _ _ _ _ _ _ H)].
  - intros ref Hi. pose proof (uo_flight _ _ _ _ _ _ _ H) as Hf. rewrite Hi in Hf. simpl in Hf.
    apply Forall2_cons_inv_l in Hf as (x & later & (Hh & Ht & _) & _ & ->). exists x, later.
    split; [exact (uo_queued _ _ _ _ _ _ _ H) | done].
  - exists flight. exact (uo_queued _ _ _ _ _ _ _ H).
  - destruct (uo_track _ _ _ _ _ _ _ H) as (acc & -> & ? & _). done.
  - destruct (uo_track _ _ _ _ _ _ _ H) as (acc & -> & _ & ?). done.
Qed.

(** C35: the matching thread ends only on an end-of-session packet. When the
    receive thread has returned without one, its socket not having opened or
    [recv] having failed, no turn of any thread ever ends the matching thread, on
    either receive path: the stop flag it polls is set by nobody else. *)
Theorem matching_thread_waits_forever {I} {HI : OrderIndex I} tscNow useXdp port ready n rcap (e : MatchingEngine I) s0 s s' :
  is_capacity rcap -> rcap < n <= kPoolInvalid -> EngineUdp.initial ready n rcap e = Ok s0 -> rtc (EngineUdp.step tscNow useXdp port) s0 s ->
  net s = NetDone -> ~ eos_last (arrived s) -> rtc (EngineUdp.step tscNow useXdp port) s s' ->
  eng s' <> EngDone /\ arrived s' = arrived s.
Proof.
  intros Hcap Hn E Hr Hnet Hno Hr'. assert (Hs' : sound n rcap s').
  { eapply (reachable_sound n rcap Hcap Hn tscNow useXdp port ready e s0); [done|]. by etrans. }
  assert (Hf : arrived s' = arrived s).
  { clear -Hr' Hnet. induction Hr' as [|s1 s2 s3 Hst _ IH]; [done|]. destruct Hst as [r tw s1 s2 _ _ E|first frame tw s1 s2 _ _ E|s1 s2 E].
    - apply netTurn_frame in E as (_ & _ & _ & _ & _ & Eq). rewrite (Eq Hnet) in IH. auto.
    - apply xdpTurn_frame in E as (_ & _ & _ & _ & _ & Eq). rewrite (Eq Hnet) in IH. auto.
    - apply engTurn_frame in E as (En & <- & _). apply IH. congruence. }
  split; [|done]. intros Hd. destruct Hs' as (F & refs & sent & flight & H). apply Hno. rewrite <-Hf.
  apply (uo_eos _ _ _ _ _ _ _ H). auto.
Qed.

Lemma takeTurns_reach {I} {HI : OrderIndex I} tscNow useXdp port ts (s s' : udp I) :
  Forall (turn_ok useXdp) ts -> EngineUdp.takeTurns tscNow port ts s = Ok s' -> rtc (EngineUdp.step tscNow useXdp port) s s'.
Proof.
  intros Hts; revert s; induction Hts as [|t ts Ht _ IH]; intros s; simpl; [by intros [= ->]|].
  intros (s1 & E & Hr)%bind_inv. eapply rtc_l; [|by apply IH]. destruct t as [r tw|first frame tw|]; simpl in *.
  - eapply EngineUdp.net_step; [| |exact E]; [by destruct r; try destruct Ht | by intros p ->; destruct Ht].
  - destruct Ht as [Hx Hb]. by eapply EngineUdp.xdp_step.
  - by eapply EngineUdp.eng_step.
Qed.

(** A run with a ring for one packet and a pool of three slots. *)
Definition small_start : result (udp (FlatHashMap OrderLocation)) := EngineUdp.initial true 3 2 MatchingEngine.engine0.
Definition from_start {A} (ts : list turn) (k : udp (FlatHashMap OrderLocation) -> A) : option A :=
  match small_start with
  | Ok s0 => match EngineUdp.takeTurns (fun n => n) 0 ts s0 with Ok s => Some (k s) | Err _ => None end
  | Err _ => None
  end.

Lemma from_start_run {A} ts (k : udp (FlatHashMap OrderLocation) -> A) a :
  Forall (turn_ok false) ts -> from_start ts k = Some a ->
  exists s0 s, small_start = Ok s0 /\ rtc (EngineUdp.step (fun n => n) false 0) s0 s /\ k s = a.
Proof.
  intros Hts. unfold from_start. destruct small_start as [s0|]; [|done].
  destruct (EngineUdp.takeTurns _ _ ts s0) as [s|] eqn:E; [|done]. intros [= <-]. exists s0, s. split_and!; try done. by eapply takeTurns_reach.
Qed.

Lemma from_start_state ts c arr l :
  Forall (turn_ok false) ts -> from_start ts (fun s => (eng s, arrived s, lost s)) = Some (c, arr, l) ->
  exists s0 s, small_start = Ok s0 /\ rtc (EngineUdp.step (fun n => n) false 0) s0 s /\ eng s = c /\ arrived s = arr /\ lost s = l.
Proof.
  intros Hts H. destruct (from_start_run ts _ _ Hts H) as (s0 & s & E & Hr & Hk). injection Hk as <- <- <-. by exists s0, s.
Qed.

Lemma cap2 : is_capacity 2.
Proof. exists 1. split; [lia | done]. Qed.

Lemma slots3 : 2 < 3 <= kPoolInvalid.
Proof. unfold kPoolInvalid, UINT32_MAX. lia. Qed.

(** One packet is received and popped; the next waits in the ring. *)
Definition two_packets : list turn :=
  [NetTurn Interrupted 0; NetTurn (Received (datagram 1)) 11; EngTurn; NetTurn Interrupted 0; NetTurn (Received (datagram 2)) 12].

Lemma packets_delivered_witness :
  exists s : udp (FlatHashMap OrderLocation), eng s = EngHolding (mkRef 0 11) /\ net s = NetLoop /\
    (exists x later, queued s = processed s ++ x :: later /\ slot_holds (pkts (fd s)) 0 x.1 /\ 11 = x.2) /\
    processed s `prefix_of` queued s.
Proof.
  destruct (from_start_run two_packets (fun s => (eng s, net s)) (EngHolding (mkRef 0 11), NetLoop)) as (s0 & s & E & Hr & Hk).
  - repeat constructor; vm_compute; discriminate.
  - vm_compute. reflexivity.
  - injection Hk as He Hn. destruct (packets_delivered (fun n => n) false 0 true 3 2 MatchingEngine.engine0 s0 s cap2 slots3 E Hr)
      as (_ & _ & _ & _ & Hh & Hp & _).
    exists s. split; [exact He|]. split; [exact Hn|]. split; [exact (Hh _ He) | exact Hp].
Defined.

(** [recv] fails at once. *)
Lemma matching_thread_waits_forever_witness :
  exists s : udp (FlatHashMap OrderLocation), net s = NetDone /\
    forall s', rtc (EngineUdp.step (fun n => n) false 0) s s' -> eng s' <> EngDone /\ arrived s' = arrived s.
Proof.
  destruct (from_start_run [NetTurn Interrupted 0; NetTurn RecvFailed 0] (fun s => (net s, arrived s)) (NetDone, []))
    as (s0 & s & E & Hr & Hk).
  - repeat constructor.
  - vm_compute. reflexivity.
  - injection Hk as Hn Ha. exists s. split; [exact Hn|]. intros s' Hs'.
    apply (matching_thread_waits_forever (fun n => n) false 0 true 3 2 MatchingEngine.engine0 s0 s s' cap2 slots3 E Hr Hn); [|exact Hs'].
    rewrite Ha. intros (arr & p & Hp & _). by destruct arr.
Defined.

Lemma split_groups ms (groups : list (list bytes)) :
  Forall2 encodes ms (concat groups) -> exists mss, concat mss = ms /\ Forall2 (Forall2 encodes) mss groups.
Proof.
  revert ms; induction groups as [|g gs IH]; simpl; intros ms H.
  - apply Forall2_nil_inv_r in H as ->. by exists [].
  - apply Forall2_app_inv_r in H as (m1 & m2 & H1 & H2 & ->). destruct (IH _ H2) as (mss & <- & H3).
    exists (m1 :: mss). by split; [|constructor].
Qed.

(** Nothing was dropped, or the whole session fits the ring. *)
Lemma session_kept {I} {HI : OrderIndex I} n rcap (s : udp I) (datagrams : list (bytes * option Z)) :
  sound n rcap s -> arrived s `prefix_of` datagrams.*1 -> lost s = [] \/ Z.of_nat (length datagrams) < rcap -> lost s = [].
Proof.
  intros Hs Harr [?|Hlt]; [done|]. apply (few_not_lost n rcap s Hs). apply prefix_length in Harr. rewrite length_fmap in Harr. lia.
Qed.

(** C2: end to end. A file of well-formed messages is sent by the replay
    program, received through the socket or as AF_XDP frames, passed through pool
    and ring and processed, under any interleaving of the two
    threads. Assume that the network delivers an initial part of what was sent, in
    order, and that no packet found the ring full; the latter holds in every
    interleaving if the session has fewer packets than the ring has slots. Then the
    engine stands for the market
    after an initial part of the file's messages and processing the next packet
    succeeds; once the receive thread has ended the session the matching thread
    ends too; and when it has ended the engine stands for the market after
    exactly all messages, as [MatchingEngine::run] on the file itself. *)
Theorem replay_session_refines tscNow useXdp port pc maxPer ms msgs buffer ptrs lens datagrams ready n rcap s0 s :
  paces pc (Z.of_nat (length msgs)) -> 0 < maxPer <= 256 -> Forall sendable msgs -> Z.of_nat (length msgs) < 2 ^ 64 - 1 ->
  length buffer = Z.to_nat Replay.packetBytes -> length ptrs = Replay.batchSlots -> length lens = Replay.batchSlots ->
  Replay.replay maxPer pc (fun _ => true) (frames msgs) buffer ptrs lens = Ok datagrams ->
  Forall2 encodes ms msgs -> Exchange.all_admissible 8388608 UINT64_MAX ms Exchange.empty ->
  is_capacity rcap -> rcap < n <= kPoolInvalid -> EngineUdp.initial ready n rcap MatchingEngine.engine0 = Ok s0 ->
  rtc (EngineUdp.step tscNow useXdp port) s0 s -> arrived s `prefix_of` datagrams.*1 ->
  lost s = [] \/ Z.of_nat (length datagrams) < rcap ->
  (exists k, engine_rep (engine s) (Exchange.steps (take k ms) Exchange.empty)) /\
  (exists s', EngineUdp.engTurn tscNow s = Ok s') /\
  (net s = NetDone -> eos_last (arrived s) ->
     exists s', rtc (fun a b => EngineUdp.engTurn tscNow a = Ok b) s s' /\ eng s' = EngDone) /\
  (eng s = EngDone -> engine_rep (engine s) (Exchange.steps ms Exchange.empty)).
Proof.
  intros Hpace Hmax Hsend Hlen Hb Hp Hl Er Henc Hadm Hcap Hn E0 Hr Harr Hroom.
  pose proof (reachable_sound n rcap Hcap Hn tscNow useXdp port ready MatchingEngine.engine0 s0 s E0 Hr) as Hs.
  pose proof (session_kept n rcap s datagrams Hs Harr Hroom) as Hlost.
  destruct (replay_ok maxPer pc msgs buffer ptrs lens (fun _ => true)) as (groups & sent' & <- & Hg & Er' & Esent & _); try done.
  rewrite Er in Er'; injection Er' as <-. rewrite Esent in Harr. destruct (split_groups _ _ Henc) as (mss & <- & Hms).
  assert (Hfit : 8388608 <= INVALID_INDEX) by done.
  assert (Htot : 1 + Z.of_nat (length (concat groups)) < 2 ^ 64) by lia.
  assert (Hon : on_session Replay.session groups s) by done.
  assert (He : engine_rep (engine s) (market_at mss Exchange.empty s)).
  { eapply (reachable_session Hfit tscNow n rcap Hcap Hn Replay.session eq_refl maxPer (proj2 Hmax) groups mss Exchange.empty Hg Htot Hms Hadm useXdp port);
      [exact E0 | exact engine0_rep | exact Hr | exact Hon]. }
  split_and!.
  - exists (length (concat (take (length (processed s)) mss))). unfold market_at in He.
    rewrite <-(take_drop (length (processed s)) mss) at 2. by rewrite concat_app, take_app_length.
  - destruct (eng s) as [k|ref|] eqn:Hi.
    + destruct Hs as (F & refs & sent & flight & H).
      destruct (engTurn_pop n rcap Hcap Hn tscNow s F refs sent flight k H Hi) as (f' & c' & refs' & sent' & E' & _ & _). eauto.
    + destruct (hold_session Hfit tscNow n rcap Hcap Hn Replay.session eq_refl maxPer (proj2 Hmax) groups mss Exchange.empty Hg Htot Hms Hadm
        s ref Hs Hon Hi He) as (s' & E & _). eauto.
    + exists s. unfold EngineUdp.engTurn. by rewrite Hi.
  - intros Hnet Heos. by apply (session_drains Hfit tscNow n rcap Hcap Hn Replay.session eq_refl maxPer (proj2 Hmax) groups mss
      Exchange.empty Hg Htot Hms Hadm s Hs Hon He).
  - intros Hd. destruct (session_complete n rcap Replay.session eq_refl maxPer (proj2 Hmax) groups mss Hg Htot Hms s Hs Hon Hd) as [_ El].
    unfold market_at in He. by rewrite El, firstn_all in He.
Qed.

(** The short session of the engine's own theorems, two messages per packet,
    each packet processed before the next is received. *)
Definition small_sent : list (bytes * option Z) :=
  match Replay.replay 2 unpaced (fun _ => true) (frames session_bytes) (replicate 2048 0) (replicate 256 []) (replicate 256 0) with
  | Ok ds => ds | Err _ => [] end.
Definition small_datagrams : list bytes := small_sent.*1.
Definition small_turns : list turn :=
  concat ((fun p => [NetTurn Interrupted 0; NetTurn (Received p) 7; EngTurn; EngTurn]) <$> small_datagrams)
  ++ [NetTurn Interrupted 0; EngTurn].

Lemma replay_session_refines_witness :
  exists s, eng s = EngDone /\ length (arrived s) = 4%nat /\ engine_rep (engine s) (Exchange.steps EngineTheorems.session Exchange.empty).
Proof.
  destruct (from_start_state small_turns EngDone small_datagrams []) as (s0 & s & E & Hr & He & Ha & Hl).
  - apply (bool_decide_unpack _). vm_compute. exact I.
  - vm_compute. reflexivity.
  - destruct (replay_session_refines (fun n => n) false 0 unpaced 2 EngineTheorems.session session_bytes (replicate 2048 0) (replicate 256 []) (replicate 256 0)
      small_sent true 3 2 s0 s) as (_ & _ & _ & Hd).
    + split; [vm_compute; discriminate | left; reflexivity].
    + lia.
    + repeat constructor; discriminate.
    + reflexivity.
    + reflexivity.
    + reflexivity.
    + reflexivity.
    + vm_compute. reflexivity.
    + exact session_encodes.
    + exact session_admissible.
    + exact cap2.
    + exact slots3.
    + exact E.
    + exact Hr.
    + rewrite Ha. reflexivity.
    + left. exact Hl.
    + exists s. split; [exact He|]. split; [rewrite Ha; vm_compute; reflexivity | exact (Hd He)].
Defined.
