(* ===== verification/Counters.v ===== *)
(** The counters of UDP mode: what the [FeedStats] that [runUdp] reports at its
    end (src/engine_udp.cpp) hold under any interleaving of the two threads. *)
From Stdlib Require Import ZArith Lia.
From stdpp Require Import base numbers gmap list relations.
From S2P Require Import Prelude FlatHashMap Itch MoldUDP64 SpscRing PacketPool FeedHandler FeedHandlerXdp Exchange MatchingEngine EngineUdp UdpTheorems.
Open Scope Z_scope.

(** ** What the counters should say *)

(** The datagrams long enough for a header, their headers and their bytes. *)
Definition usable (arr : list bytes) : list bytes := filter (fun p => (20 <= length p)%nat) arr.
Definition headers (arr : list bytes) : list MoldHeader := header_of <$> usable arr.
Definition total (arr : list bytes) : Z := foldr (fun p n => Z.of_nat (length p) + n) 0 (usable arr).

(** The counters for [arr] received and [k] lost; the bytes if [b]. *)
Record counted (b : bool) (st : FeedStats) (arr : list bytes) (k : nat) : Prop := {
  co_received : packetsReceived st = u64 (Z.of_nat (length (usable arr)));
  co_bytes : b = true -> bytesReceived st = u64 (total arr);
  co_dropped : packetsDropped st = u64 (Z.of_nat k);
  co_gaps : gapsDetected st = gapsDetected (track_all (headers arr) tracker0 FeedStats.new).2;
  co_dups : duplicatesIgnored st = duplicatesIgnored (track_all (headers arr) tracker0 FeedStats.new).2;
  co_eos : endOfSession st = endOfSession (track_all (headers arr) tracker0 FeedStats.new).2
}.

Lemma usable_snoc arr p : usable (arr ++ [p]) = usable arr ++ (if (20 <=? length p)%nat then [p] else []).
Proof. unfold usable. rewrite filter_app. f_equal. rewrite filter_cons. destruct (Nat.leb_spec 20 (length p)); case_decide; done || lia. Qed.

Lemma total_snoc arr p : (20 <= length p)%nat -> total (arr ++ [p]) = total arr + Z.of_nat (length p).
Proof.
  intros Hl. unfold total. rewrite usable_snoc. destruct (Nat.leb_spec 20 (length p)); [|lia].
  induction (usable arr) as [|q l IH]; simpl; [lia|]. simpl in IH. rewrite IH. lia.
Qed.

Lemma usable_short arr p : (length p < 20)%nat -> usable (arr ++ [p]) = usable arr.
Proof. intros Hl. rewrite usable_snoc. destruct (Nat.leb_spec 20 (length p)); [lia | by rewrite app_nil_r]. Qed.

(** A verdict leaves the other counters and adds alike to equal ones. *)
Lemma track_frame h t s :
  let s' := (track h t s).2 in
  packetsReceived s' = packetsReceived s /\ packetsDropped s' = packetsDropped s /\ bytesReceived s' = bytesReceived s.
Proof.
  unfold track. generalize (if sessionInit t then t else mkTracker (session h) true (sequenceNumber h)) as t1; intros t1.
  destruct (messageCount h =? kMoldEndOfSession), (messageCount h =? kMoldHeartbeat),
    (sequenceNumber h <? nextExpected t1), (nextExpected t1 <? sequenceNumber h); done.
Qed.

Definition alike (s1 s2 : FeedStats) : Prop :=
  gapsDetected s1 = gapsDetected s2 /\ duplicatesIgnored s1 = duplicatesIgnored s2 /\ endOfSession s1 = endOfSession s2.

Lemma track_alike h t s1 s2 : alike s1 s2 -> alike (track h t s1).2 (track h t s2).2.
Proof.
  intros (Hg & Hd & He). unfold track. generalize (if sessionInit t then t else mkTracker (session h) true (sequenceNumber h)) as t1; intros t1.
  destruct (messageCount h =? kMoldEndOfSession), (messageCount h =? kMoldHeartbeat),
    (sequenceNumber h <? nextExpected t1), (nextExpected t1 <? sequenceNumber h); unfold alike; simpl; by rewrite ?Hg, ?Hd, ?He.
Qed.

Lemma track_all_snoc hs h t s :
  (track_all (hs ++ [h]) t s).2 = (track h (track_all hs t s).1.2 (track_all hs t s).2).2.
Proof.
  rewrite track_all_app. destruct (track_all hs t s) as [[acc t1] s1]. cbn [track_all fst snd]. by destruct (track h t1 s1) as [[v t2] s2].
Qed.

(** The tracker of the datagrams is that of their headers. *)
Lemma admitted_headers t s arr :
  header_of <$> (admitted t arr).1 = (track_all (headers arr) t s).1.1 /\ (admitted t arr).2 = (track_all (headers arr) t s).1.2.
Proof.
  revert t s; induction arr as [|p arr IH]; intros t s; [done|]. unfold headers, usable. rewrite filter_cons. cbn [admitted].
  destruct (Nat.leb_spec 20 (length p)); case_decide; try lia; [|apply IH].
  rewrite fmap_cons. cbn [track_all]. pose proof (track_stats (header_of p) t s FeedStats.new) as E.
  destruct (track (header_of p) t s) as [[v t1] s1], (track (header_of p) t FeedStats.new) as [[v' t1'] s1']. simpl in E. injection E as -> ->.
  destruct (IH t1' s1) as [E1 E2]. unfold headers, usable in E1, E2. destruct (admitted t1' arr) as [acc t2], (track_all _ t1' s1) as [[acc' t3] s3].
  simpl in *. subst. by destruct v'.
Qed.

Lemma counted_judged b f arr k p p' v t st :
  counted b (stats f) arr k -> trk f = (track_all (headers arr) tracker0 FeedStats.new).1.2 ->
  judge f p = (v, t, st) -> header_of p' = header_of p -> (20 <= length p')%nat -> (b = true -> p' = p) ->
  counted b st (arr ++ [p']) k.
Proof.
  intros [Hr Hb Hd Hg Hu He] Ht Hj Hh Hl Hp. unfold judge in Hj. rewrite <-Hh in Hj.
  destruct (track_frame (header_of p') (trk f) (FeedStats.received (Z.of_nat (length p)) (stats f))) as (Fr & Fd & Fb). rewrite Hj in Fr, Fd, Fb.
  assert (Ha : alike st (track_all (headers (arr ++ [p'])) tracker0 FeedStats.new).2).
  { unfold headers. rewrite usable_snoc. destruct (Nat.leb_spec 20 (length p')); [|lia]. rewrite fmap_app. fold (headers arr). cbn [fmap list_fmap].
    rewrite track_all_snoc, <-Ht. change st with (v, t, st).2. rewrite <-Hj. by apply track_alike. }
  destruct Ha as (Ag & Ad & Ae). simpl in Fr, Fd, Fb. split; try done.
  - rewrite Fr, Hr, usable_snoc. destruct (Nat.leb_spec 20 (length p')); [|lia]. rewrite length_app, Nat2Z.inj_add, u64_add_l. done.
  - intros Eb. rewrite Fb, (Hb Eb), (Hp Eb), u64_add_l, total_snoc; [done|]. by rewrite <-(Hp Eb).
  - by rewrite Fd.
Qed.

Lemma counted_short b st arr k p : (length p < 20)%nat -> counted b st arr k -> counted b st (arr ++ [p]) k.
Proof. intros Hl [? ? ? ? ? ?]. split; unfold headers, total in *; by rewrite ?usable_short by done. Qed.

Lemma counted_dropped b st arr k : counted b st arr k -> counted b (FeedStats.dropped st) arr (k + 1)%nat.
Proof. intros [? ? Hd ? ? ?]. split; try done. simpl. rewrite Hd, u64_add_l. f_equal. lia. Qed.

(** ** Every turn *)

Section turns.
Context {I : Type} {HI : OrderIndex I} (n cap : Z).
Context (Hcap : is_capacity cap) (Hn : cap < n <= kPoolInvalid).
Implicit Types (s : udp I).

Definition counts (b : bool) s : Prop := counted b (stats (fd s)) (arrived s) (length (lost s)).

Lemma tracker_of s F refs sent flight :
  udp_ok n cap s F refs sent flight -> trk (fd s) = (track_all (headers (arrived s)) tracker0 FeedStats.new).1.2.
Proof using.
  intros H. destruct (uo_track _ _ _ _ _ _ _ H) as (acc & E & _). destruct (admitted_headers tracker0 FeedStats.new (arrived s)) as [_ E'].
  by rewrite E in E'.
Qed.

(** What a turn does with a datagram [p'] and its verdict: the fields the
    counters depend on. *)
Lemma counts_turn b s s' p p' v t st F refs sent flight (moved : bool) :
  udp_ok n cap s F refs sent flight -> counts b s -> judge (fd s) p = (v, t, st) -> header_of p' = header_of p ->
  (20 <= length p')%nat -> (b = true -> p' = p) ->
  stats (fd s') = (if bool_decide (v = Accepted) && negb moved then FeedStats.dropped st else st) ->
  arrived s' = arrived s ++ [p'] ->
  lost s' = lost s ++ (if bool_decide (v = Accepted) && negb moved then [p'] else []) -> counts b s'.
Proof using.
  intros H Hc Hj Hh Hl Hp Es Ea El. unfold counts. rewrite Es, Ea, El.
  pose proof (counted_judged b (fd s) _ _ p p' v t st Hc (tracker_of _ _ _ _ _ H) Hj Hh Hl Hp) as Hc'.
  destruct (_ && _); [rewrite length_app; by apply counted_dropped | by rewrite app_nil_r].
Qed.

Lemma counts_sentinel b s s' ref : counts b s -> EngineUdp.sentinelTurn ref s = Ok s' -> counts b s'.
Proof using. intros Hc ([pushed q] & _ & [= <-])%bind_inv. done. Qed.

Lemma counts_eng b tscNow s s' : counts b s -> EngineUdp.engTurn tscNow s = Ok s' -> counts b s'.
Proof using.
  intros Hc. unfold EngineUdp.engTurn. destruct (eng s) as [k|ref|].
  - intros ([r q] & _ & E)%bind_inv. cbv beta iota zeta in E. repeat case_match; by injection E as <-.
  - intros (slot & _ & ([[e scr] m] & _ & (p & _ & [= <-])%bind_inv)%bind_inv)%bind_inv. done.
  - by intros [= <-].
Qed.

Lemma counts_net s s' r tw :
  sound n cap s -> counts true s -> (forall p, r = Received p -> wire_ok p) -> EngineUdp.netTurn r tw s = Ok s' -> counts true s'.
Proof using Hcap Hn.
  intros (F & refs & sent & flight & H) Hc Hw E. destruct (net s) as [|i| |ref|] eqn:Hi.
  - unfold EngineUdp.netTurn in E. rewrite Hi in E. destruct (stop s); [by injection E as <-|]. apply bind_inv in E as ([j p] & _ & E). by injection E as <-.
  - pose proof (sent_nil n cap Hcap Hn _ _ _ _ _ H ltac:(by rewrite Hi)) as ->. destruct (holding_owned n cap Hcap Hn _ _ _ _ _ _ H Hi) as [Ho _].
    pose proof (uo_feed _ _ _ _ _ _ _ H) as Hf. rewrite app_nil_r in Hf.
    assert (Hq : match r with Received p => (length p < 20)%nat | _ => True end \/ exists p, r = Received p /\ (20 <= length p)%nat).
    { destruct r as [p| |]; auto. destruct (le_lt_dec 20 (length p)); eauto. }
    unfold EngineUdp.netTurn, EngineUdp.tail_moved in E. rewrite Hi in E. destruct Hq as [Hr|(p & -> & Hl)].
    + destruct (receive_nothing cap (fd s) F refs i r tw Hf Ho Hr) as (f' & Er & _ & _ & _ & Es & Eq).
      rewrite Er, bind_ok, Eq, Z.eqb_refl in E. cbv beta iota zeta in E.
      assert (Ha : EngineUdp.was_accepted (fd s) r = false).
      { destruct r as [p| |]; try done. unfold EngineUdp.was_accepted. by destruct (Nat.leb_spec 20 (length p)); [lia|]. }
      rewrite Ha in E. cbn [andb negb fmap list_fmap] in E. rewrite !app_nil_r in E. injection E as <-. unfold counts; cbn [fd arrived lost]. rewrite Es.
      destruct r as [p| |]; cbn [EngineUdp.payload_of]; rewrite ?app_nil_r; [by apply counted_short | done..].
    + specialize (Hw p eq_refl). destruct (judge (fd s) p) as [[v t] st] eqn:Hj.
      pose proof (was_accepted_judge n cap Hcap Hn s p v t st Hj Hl) as Hacc.
      destruct (decide (v = Accepted /\ Z.of_nat (length refs) < cap - 1)) as [[-> Hroom]|Hno].
      * destruct (receive_queued cap Hcap (fd s) F refs i p tw t st Hf Ho Hw Hl Hj Hroom) as (f' & Er & _ & _ & _ & _ & Es & Eq).
        rewrite Er, bind_ok, Eq, Hacc in E. injection E as <-.
        by eapply (counts_turn true s _ p p Accepted t st F refs [] flight true).
      * destruct (receive_returned cap Hcap (fd s) F refs i p tw v t st Hf Ho Hw Hl Hj) as (f' & Er & _ & _ & _ & Es & Eq).
        { intros ->. destruct (Z.lt_ge_cases (Z.of_nat (length refs)) (cap - 1)); [naive_solver | done]. }
        rewrite Er, bind_ok, Eq, Hacc in E. injection E as <-.
        eapply (counts_turn true s _ p p v t st F refs [] flight false); try done. cbn [fd negb]. rewrite andb_true_r, Es. by destruct v.
  - by destruct (uo_fed _ _ _ _ _ _ _ H).
  - unfold EngineUdp.netTurn in E. rewrite Hi in E. by eapply counts_sentinel.
  - unfold EngineUdp.netTurn in E. rewrite Hi in E. by injection E as <-.
Qed.

Lemma counts_xdp s s' port first frame tw :
  sound n cap s -> counts false s -> Forall is_byte frame -> EngineUdp.xdpTurn port first frame tw s = Ok s' -> counts false s'.
Proof using Hcap Hn.
  intros (F & refs & sent & flight & H) Hc Hb E. destruct (net s) as [|i| |ref|] eqn:Hi;
    try (unfold EngineUdp.xdpTurn in E; rewrite Hi in E; first [by injection E as <- | by eapply counts_sentinel]).
  pose proof (sent_nil n cap Hcap Hn _ _ _ _ _ H ltac:(by rewrite Hi)) as ->. destruct (not_done n cap Hcap Hn _ _ _ _ _ H) as [_ Hst]; [by rewrite Hi|].
  pose proof (never_starves n cap Hn _ _ _ _ _ H ltac:(by rewrite Hi)) as HF. destruct F as [|i F]; [done|].
  destruct (moldPacket_exact port frame Hb) as ([p|] & Em & Hp).
  2: { unfold EngineUdp.xdpTurn, EngineUdp.frame_input, FeedHandlerXdp.receiveFrame, EngineUdp.tail_moved in E.
       rewrite Hi, Hst, andb_false_r, Em, !bind_ok in E. cbv beta iota zeta in E. rewrite Z.eqb_refl in E.
       cbn [negb EngineUdp.was_accepted andb EngineUdp.payload_of] in E. rewrite !app_nil_r in E. by injection E as <-. }
  destruct (Hp p eq_refl) as [_ Hl]. destruct (judge (fd s) p) as [[v t] st] eqn:Hj.
  assert (Hlc : (20 <= length (cut p))%nat) by (unfold cut, kMaxPacketBytes; rewrite length_take; lia).
  pose proof (header_of_cut p Hl) as Hh. pose proof (receiveFrame_unfold port frame tw (fd s) p Em Hl) as Er. rewrite Hj in Er. cbv zeta in Er.
  set (f1 := mkFeed (pkts (fd s)) (queue (fd s)) st t) in Er.
  assert (Hf : feed_ok cap f1 (i :: F) refs) by (pose proof (uo_feed _ _ _ _ _ _ _ H) as Hf; rewrite app_nil_r in Hf; destruct Hf; by split).
  destruct (decide (v = Accepted)) as [->|Hv].
  - destruct (Z.lt_ge_cases (Z.of_nat (length refs)) (cap - 1)) as [Hroom|Hfull].
    + destruct (enqueue_queued cap Hcap p tw f1 i F refs Hf Hroom) as (f' & Ee & _ & _ & _ & _ & Es & Eq). rewrite Ee, bind_ok in Er.
      rewrite (xdpTurn_unfold n cap Hcap Hn s port first frame tw p _ t st _ f' Hi Hst Em Hl Hj Er) in E. injection E as <-.
      unfold EngineUdp.tail_moved. change (queue (fd s)) with (queue f1). rewrite Eq.
      by eapply (counts_turn false s _ p (cut p) Accepted t st (i :: F) refs [] flight true).
    + destruct (enqueue_full cap Hcap p tw f1 i F refs Hf Hfull) as (f' & Ee & _ & _ & _ & Es & Eq). rewrite Ee, bind_ok in Er.
      rewrite (xdpTurn_unfold n cap Hcap Hn s port first frame tw p _ t st _ f' Hi Hst Em Hl Hj Er) in E. injection E as <-.
      unfold EngineUdp.tail_moved. change (queue (fd s)) with (queue f1). rewrite Eq.
      by eapply (counts_turn false s _ p (cut p) Accepted t st (i :: F) refs [] flight false).
  - set (c := match v with EndOfSession => PushSentinel (mkRef kPoolInvalid tw) | _ => Continue end).
    assert (Er' : FeedHandlerXdp.receiveFrame port frame tw (fd s) = Ok (c, f1)) by (rewrite Er; unfold c; by destruct v).
    rewrite (xdpTurn_unfold n cap Hcap Hn s port first frame tw p v t st c f1 Hi Hst Em Hl Hj Er') in E. injection E as <-.
    eapply (counts_turn false s _ p (cut p) v t st (i :: F) refs [] flight true); cbn [fd arrived lost]; try done; by rewrite bool_decide_eq_false_2.
Qed.
End turns.

(** ** The balance *)

Definition is_control (h : MoldHeader) : Prop := is_data h = false.
#[export] Instance is_control_dec h : Decision (is_control h).
Proof. unfold is_control. apply _. Defined.

Lemma data_or_control hs : length hs = (length (filter (fun h => is_data h = true) hs) + length (filter is_control hs))%nat.
Proof.
  induction hs as [|h hs IH]; [done|]. rewrite !filter_cons.
  repeat case_decide; unfold is_control in *; simpl; destruct (is_data h); done || lia.
Qed.

(** The duplicates counted are the data packets not accepted. *)
Lemma duplicates_exact hs : Forall header_ok hs -> Z.of_nat (length hs) < 2 ^ 64 ->
  duplicatesIgnored (track_all hs tracker0 FeedStats.new).2 =
  Z.of_nat (length (filter (fun h => is_data h = true) hs)) - Z.of_nat (length (accepted hs)) /\
  (length (accepted hs) <= length (filter (fun h => is_data h = true) hs))%nat.
Proof.
  intros Hok Hlen. unfold accepted. destruct hs as [|h0 hs]; [done|]. rewrite track_all_first.
  assert (Hs : 0 <= sequenceNumber h0) by (apply Forall_cons in Hok as [[? _] _]; done).
  assert (H0 : is_u64 0) by (unfold is_u64; lia).
  destruct (track_all_ok (h0 :: hs) (session h0) (sequenceNumber h0) FeedStats.new Hok Hs H0 H0) as (acc & st & E & Hsub & _ & _ & Hd).
  rewrite E. cbn [fst snd]. pose proof (sublist_length _ _ Hsub). pose proof (length_filter (fun h => is_data h = true) (h0 :: hs)).
  split; [|done]. rewrite Hd. cbn [duplicatesIgnored FeedStats.new]. apply u64_small. lia.
Qed.

Lemma reachable_counts {I} {HI : OrderIndex I} tscNow useXdp port ready n rcap (e : MatchingEngine I) s0 s :
  is_capacity rcap -> rcap < n <= kPoolInvalid -> EngineUdp.initial ready n rcap e = Ok s0 -> rtc (EngineUdp.step tscNow useXdp port) s0 s ->
  sound n rcap s /\ counts (negb useXdp) s.
Proof.
  intros Hcap Hn E Hr. assert (H0 : sound n rcap s0 /\ counts (negb useXdp) s0).
  { split; [by eapply initial_sound|]. unfold EngineUdp.initial in E. apply bind_inv in E as (p & _ & (r & _ & [= <-])%bind_inv). by split. }
  clear E. induction Hr as [|s1 s2 s3 Hst _ IH]; [done|]. apply IH. destruct H0 as [Hs Hc].
  split; [by eapply (step_sound n rcap Hcap Hn tscNow useXdp port s1)|]. destruct Hst as [r tw s1 s2 -> Hw E|first frame tw s1 s2 -> Hb E|s1 s2 E].
  - by eapply (counts_net n rcap).
  - by eapply (counts_xdp n rcap).
  - by eapply counts_eng.
Qed.

(** ** Properties *)

(** C16: the counters of UDP mode are exact in every interleaving. Whenever they
    are read, [packetsReceived] is the number of datagrams that arrived with a
    header, [bytesReceived] their bytes on the socket path, [packetsDropped] the
    number accepted and not queued, and gaps, duplicates and ends of session are
    those of the headers taken one after the other; every datagram accepted was
    queued or dropped. With message numbers below 2^64 the books balance: the
    packets received are those queued, dropped, duplicate and without data. *)
Theorem counters_exact {I} {HI : OrderIndex I} tscNow useXdp port ready n rcap (e : MatchingEngine I) s0 s :
  is_capacity rcap -> rcap < n <= kPoolInvalid -> EngineUdp.initial ready n rcap e = Ok s0 -> rtc (EngineUdp.step tscNow useXdp port) s0 s ->
  let hs := headers (arrived s) in let st := stats (fd s) in let all := (track_all hs tracker0 FeedStats.new).2 in
  packetsReceived st = u64 (Z.of_nat (length hs)) /\ (useXdp = false -> bytesReceived st = u64 (total (arrived s))) /\
  packetsDropped st = u64 (Z.of_nat (length (lost s))) /\
  gapsDetected st = gapsDetected all /\ duplicatesIgnored st = duplicatesIgnored all /\ endOfSession st = endOfSession all /\
  length (accepted hs) = (length (queued s) + length (lost s))%nat /\
  (Forall header_ok hs -> Z.of_nat (length hs) < 2 ^ 64 ->
   packetsReceived st = Z.of_nat (length (queued s)) + packetsDropped st + duplicatesIgnored st + Z.of_nat (length (filter is_control hs))).
Proof.
  intros Hcap Hn E Hr hs st all. destruct (reachable_counts tscNow useXdp port ready n rcap e s0 s Hcap Hn E Hr) as [Hs [Hre Hby Hdr Hg Hd He]].
  assert (Hlen : length hs = length (usable (arrived s))) by apply length_fmap.
  assert (Hacc : length (accepted hs) = (length (queued s) + length (lost s))%nat).
  { destruct Hs as (F & refs & sent & flight & H). destruct (uo_track _ _ _ _ _ _ _ H) as (acc & Ea & _ & <-).
    destruct (admitted_headers tracker0 FeedStats.new (arrived s)) as [Ea' _]. rewrite Ea in Ea'. unfold accepted, hs. by rewrite <-Ea', length_fmap. }
  rewrite Hlen. split_and!; try done; [intros ->; by apply Hby|]. intros Hok Hlt. fold hs in Hd. destruct (duplicates_exact hs Hok ltac:(lia)) as [Hx Hle].
  pose proof (data_or_control hs) as Hc.
  unfold st in *. rewrite Hre, Hdr, Hd, Hx, !u64_small by lia. lia.
Qed.

(** A ring for one packet: the first is queued, the second repeats it, the third
    leaves a gap and is dropped. *)
Definition three_packets : list turn :=
  [NetTurn Interrupted 0; NetTurn (Received (datagram 1)) 11; NetTurn Interrupted 0; NetTurn (Received (datagram 1)) 12;
   NetTurn Interrupted 0; NetTurn (Received (datagram 3)) 13].

Lemma counters_exact_witness :
  exists s : udp (FlatHashMap OrderLocation), stats (fd s) = mkStats 3 1 69 1 1 0 /\ length (queued s) = 1%nat /\
    let hs := headers (arrived s) in
    packetsReceived (stats (fd s)) = u64 (Z.of_nat (length hs)) /\
    bytesReceived (stats (fd s)) = u64 (total (arrived s)) /\
    length (accepted hs) = (length (queued s) + length (lost s))%nat.
Proof.
  destruct (from_start_run three_packets (fun s => (stats (fd s), length (queued s))) (mkStats 3 1 69 1 1 0, 1%nat)) as (s0 & s & E & Hr & Hk).
  - repeat constructor; vm_compute; discriminate.
  - vm_compute. reflexivity.
  - injection Hk as Hs Hq. destruct (counters_exact (fun n => n) false 0 true 3 2 MatchingEngine.engine0 s0 s cap2 slots3 E Hr)
      as (H1 & H2 & _ & _ & _ & _ & H3 & _).
    exists s. split; [exact Hs|]. split; [exact Hq|]. split; [exact H1|]. split; [exact (H2 eq_refl) | exact H3].
Defined.
