(* ===== verification/Liveness.v ===== *)
(** Fair runs of UDP mode end: when the end-of-session packet has arrived and
    neither thread is held up forever, the receive thread gets its sentinel
    into the ring, the matching thread processes all that was queued, and both
    end, whatever the order of their turns. *)
From Stdlib Require Import ZArith Lia.
From stdpp Require Import base numbers gmap list relations.
From S2P Require Import Prelude FlatHashMap Itch MoldUDP64 SpscRing PacketPool FeedHandler FeedHandlerXdp Exchange MatchingEngine EngineUdp Replay UdpTheorems.
Open Scope Z_scope.

(** ** Fair progress *)

(** A run of a system of threads in which some unfinished thread can always
    bring a measure down, and stays able to until it does or another one did. *)
Section progress.
Context {S T : Type} (run : nat -> S) (turn : nat -> T) (measure : S -> nat) (finished : S -> Prop) (able : T -> S -> Prop).
Context `{!EqDecision T} (i0 : nat).

(** The next turn finished or made progress. *)
Definition advanced (i : nat) : Prop := finished (run (1 + i)%nat) \/ (measure (run (1 + i)%nat) < measure (run i))%nat.

Context (fair : forall t i, exists j, (i <= j)%nat /\ turn j = t).
Context (some_able : forall i, (i0 <= i)%nat -> finished (run i) \/ exists t, able t (run i)).
Context (progress : forall i, (i0 <= i)%nat -> able (turn i) (run i) -> advanced i).
Context (still_able : forall i t, (i0 <= i)%nat -> able t (run i) -> turn i <> t ->
  advanced i \/ able t (run (1 + i)%nat) /\ (measure (run (1 + i)%nat) <= measure (run i))%nat).

(** Until thread [t] has its turn after [d] others, progress is made. *)
Lemma able_advances d i t : (i0 <= i)%nat -> able t (run i) -> turn (i + d)%nat = t ->
  exists k, (i < k)%nat /\ (finished (run k) \/ (measure (run k) < measure (run i))%nat).
Proof using progress still_able EqDecision0.
  revert i; induction d as [|d IH]; intros i Hi Ha Ht.
  - rewrite Nat.add_0_r in Ht. exists (1 + i)%nat. split; [lia|]. apply progress; [done | by rewrite Ht].
  - destruct (decide (turn i = t)) as [E|Hne].
    + exists (1 + i)%nat. split; [lia|]. apply progress; [done | by rewrite E].
    + destruct (still_able i t Hi Ha Hne) as [Hadv|[Ha' Hle]]; [exists (1 + i)%nat; split; [lia | exact Hadv]|].
      destruct (IH (1 + i)%nat) as (k & Hk & Hp); [lia | done | by rewrite <-Ht; f_equal; lia |].
      exists k. split; [lia|]. destruct Hp as [?|?]; [by left | right; lia].
Qed.

Lemma fair_finishes i : (i0 <= i)%nat -> exists k, (i <= k)%nat /\ finished (run k).
Proof using fair some_able progress still_able EqDecision0.
  remember (measure (run i)) as m eqn:Em. revert i Em. induction m as [m IH] using lt_wf_ind. intros i -> Hi.
  destruct (some_able i Hi) as [Hf|(t & Ha)]; [by exists i|].
  destruct (fair t i) as (j & Hj & Ht). destruct (able_advances (j - i) i t Hi Ha) as (k & Hk & Hp); [by rewrite <-Ht; f_equal; lia|].
  destruct Hp as [Hf|Hlt]; [exists k; split; [lia | done]|].
  destruct (IH _ Hlt k eq_refl) as (k' & Hk' & Hf); [lia|]. exists k'. split; [lia | done].
Qed.
End progress.

(** ** The two threads *)

Inductive thread := NetThread | EngThread.
#[export] Instance thread_eq_dec : EqDecision thread.
Proof. solve_decision. Defined.

Section threads.
Context {I : Type} {HI : OrderIndex I} (tscNow : Z -> Z) (useXdp : bool) (port : Z).
Implicit Types (s : udp I).

Definition thread_of (x : turn) : thread := match x with EngTurn => EngThread | _ => NetThread end.

(** A run: the turns [input] taken one after the other. A turn that fails ends
    the program. *)
Fixpoint trace (input : nat -> turn) (r0 : result (udp I)) (i : nat) : result (udp I) :=
  match i with
  | O => r0
  | S i => s ← trace input r0 i; EngineUdp.takeTurn tscNow port (input i) s
  end.

(** A turn of a thread that succeeds, on any input. *)
Definition moves (t : thread) s s' : Prop :=
  exists x, thread_of x = t /\ turn_ok useXdp x /\ EngineUdp.takeTurn tscNow port x s = Ok s'.

Lemma moves_eng s s' : moves EngThread s s' -> EngineUdp.engTurn tscNow s = Ok s'.
Proof using. by intros ([] & ? & _ & E). Qed.

Lemma moves_step t s s' : moves t s s' -> EngineUdp.step tscNow useXdp port s s'.
Proof using.
  intros (x & _ & Hx & E). destruct x as [r tw|first frame tw|]; simpl in *.
  - eapply EngineUdp.net_step; [| |exact E]; [by destruct r; try destruct Hx | by intros p ->; destruct Hx].
  - destruct Hx as [H1 H2]. by eapply EngineUdp.xdp_step.
  - by apply EngineUdp.eng_step.
Qed.

(** The work left: packets, each to be popped and processed, and the sentinel. *)
Definition pending s : nat :=
  2 * (2 * (length (queued s) - length (processed s)) + match eng s with EngLoop _ => 1 | _ => 0 end) +
  match net s with NetSentinel _ => 1 | _ => 0 end.

Definition ring_empty s : Prop := SpscRing.head (queue (fd s)) = SpscRing.tail (queue (fd s)).

(** The matching thread can go on with a packet or the ring, the receive thread
    with an empty ring. *)
Definition able (t : thread) s : Prop :=
  match t with
  | NetThread => (exists ref, net s = NetSentinel ref) /\ (exists k, eng s = EngLoop k) /\ ring_empty s
  | EngThread => (exists ref, eng s = EngHolding ref) \/ (exists k, eng s = EngLoop k) /\ ~ ring_empty s
  end.

(** Once the end of session has arrived the receive thread only pushes. *)
Definition pushing (n : net_pc) : Prop := n = NetDone \/ exists ref, n = NetSentinel ref.

Lemma moves_pushing s s' : moves NetThread s s' -> pushing (net s) ->
  net s = NetDone /\ s' = s \/ exists ref, net s = NetSentinel ref /\ EngineUdp.sentinelTurn ref s = Ok s'.
Proof using.
  intros (x & Ht & _ & E) Hp. destruct x as [r tw|first frame tw|]; [unfold EngineUdp.takeTurn, EngineUdp.netTurn in E |
    unfold EngineUdp.takeTurn, EngineUdp.xdpTurn in E | done];
    (destruct Hp as [Hp|[ref Hp]]; rewrite Hp in E; [left; by injection E as <- | eauto]).
Qed.

(** One try to push the sentinel. *)
Lemma sentinel_cases ref s s' : EngineUdp.sentinelTurn ref s = Ok s' ->
  eng s' = eng s /\ queued s' = queued s /\ processed s' = processed s /\ arrived s' = arrived s /\
  (net s' = NetDone \/ net s' = NetSentinel ref /\ queue (fd s') = queue (fd s) /\ exists q, SpscRing.push ref (queue (fd s)) = Ok (false, q)).
Proof using.
  intros ([b q] & E & [= <-])%bind_inv. cbn [eng queued processed net fd queue arrived]. split_and!; try done.
  destruct b; [by left|]. destruct (stop s); [by left|]. right. split; [done|]. split; [|by exists q]. unfold SpscRing.push in E.
  case_match; [by injection E|]. by apply bind_inv in E as (r & _ & [=]).
Qed.

(** *** Against the invariant *)

Context (n cap : Z) (Hcap : is_capacity cap) (H1 : 1 < cap) (Hn : cap < n <= kPoolInvalid).

Lemma ring_empty_iff s F q : feed_ok cap (fd s) F q -> (ring_empty s <-> q = []).
Proof using Hcap.
  intros [_ Hr _]. destruct (pop_rep cap Hcap _ _ Hr) as (r' & E & _). unfold ring_empty, SpscRing.pop in *.
  destruct (Z.eqb_spec (SpscRing.head (queue (fd s))) (SpscRing.tail (queue (fd s)))).
  - injection E as E _. by destruct q.
  - apply bind_inv in E as (v & _ & [= E _]). by destruct q.
Qed.

(** The end of session has arrived. *)
Definition ending s : Prop := sound n cap s /\ eos_last (arrived s).

Lemma ending_pushing s : ending s -> pushing (net s).
Proof using.
  intros [(F & refs & sent & flight & H) He]. apply (uo_eos _ _ _ _ _ _ _ H) in He as [(ref & E)|[Hs|Hd]].
  - right. eauto.
  - left. by destruct (uo_sent _ _ _ _ _ _ _ H) as [?|[? _]].
  - left. by apply (uo_done _ _ _ _ _ _ _ H).
Qed.

Lemma ending_moves t s s' : ending s -> moves t s s' -> ending s'.
Proof using Hcap Hn.
  intros He Hm. pose proof He as [Hs Heos]. split; [eapply (step_sound n cap Hcap Hn tscNow useXdp port); [done | by eapply moves_step]|].
  destruct t.
  - destruct (moves_pushing s s' Hm (ending_pushing s He)) as [[_ ->]|(ref & _ & E)]; [done|].
    apply sentinel_cases in E as (_ & _ & _ & -> & _). done.
  - apply moves_eng, engTurn_frame in Hm as (_ & -> & _). done.
Qed.

Lemma done_moves t s s' : ending s -> moves t s s' -> eng s = EngDone -> eng s' = EngDone.
Proof using.
  intros He Hm Hd. destruct t; [|apply moves_eng in Hm; unfold EngineUdp.engTurn in Hm; rewrite Hd in Hm; by injection Hm as <-].
  destruct (moves_pushing s s' Hm (ending_pushing s He)) as [[_ ->]|(ref & _ & E)]; [done|]. by apply sentinel_cases in E as (-> & _).
Qed.

Lemma ending_able s : ending s -> eng s = EngDone \/ exists t, able t s.
Proof using Hcap.
  intros He. pose proof He as [(F & refs & sent & flight & H) Heos]. pose proof (ring_empty_iff s F _ (uo_feed _ _ _ _ _ _ _ H)) as Hr.
  destruct (eng s) as [k|ref|] eqn:Hi; [|right; exists EngThread; left; eauto | by left]. right.
  destruct (ending_pushing s He) as [Hd|[ref Hd]].
  - exists EngThread. right. split; [eauto|]. rewrite Hr. intros [-> ->]%app_nil.
    apply (uo_eos _ _ _ _ _ _ _ H) in Heos as [(ref & E)|[?|E]]; congruence.
  - destruct (decide (refs ++ sent = [])) as [E|E].
    + exists NetThread. split_and!; [eauto | eauto | by apply Hr].
    + exists EngThread. right. split; [eauto | by rewrite Hr].
Qed.

Lemma able_net_progress s s' : ending s -> able NetThread s -> moves NetThread s s' -> (pending s' < pending s)%nat.
Proof using Hcap H1.
  intros He ((ref & Hnet) & _ & Hr) Hm. pose proof He as [(F & refs & sent & flight & H) _].
  apply (ring_empty_iff s F _ (uo_feed _ _ _ _ _ _ _ H)) in Hr.
  destruct (moves_pushing s s' Hm (ending_pushing s He)) as [[? _]|(ref' & _ & E)]; [congruence|].
  apply sentinel_cases in E as (E1 & E2 & E3 & _ & Hc). unfold pending. rewrite E1, E2, E3, Hnet.
  destruct Hc as [->|(_ & _ & q & Ep)]; [lia|]. exfalso. pose proof (uo_feed _ _ _ _ _ _ _ H) as [_ Hq _]. rewrite Hr in Hq.
  destruct (push_rep cap Hcap _ _ ref' Hq) as (r' & Ep' & _). rewrite Ep in Ep'. rewrite bool_decide_eq_true_2 in Ep' by (simpl; lia). done.
Qed.

(** A turn of the receive thread takes nothing from the matching thread. *)
Lemma net_keeps_able s s' : ending s -> able EngThread s -> moves NetThread s s' ->
  (pending s' < pending s)%nat \/ able EngThread s' /\ (pending s' <= pending s)%nat.
Proof using.
  intros He Ha Hm. destruct (moves_pushing s s' Hm (ending_pushing s He)) as [[_ ->]|(ref & Hnet & E)]; [by right|].
  apply sentinel_cases in E as (E1 & E2 & E3 & _ & Hc). unfold pending, able, ring_empty in *. rewrite E1, E2, E3, Hnet.
  destruct Hc as [->|(-> & -> & _)]; [left; lia | by right].
Qed.

Lemma able_eng_progress s s' : ending s -> able EngThread s -> moves EngThread s s' -> eng s' = EngDone \/ (pending s' < pending s)%nat.
Proof using Hcap Hn.
  intros He Ha E%moves_eng. pose proof He as [(F & refs & sent & flight & H) _]. destruct Ha as [(ref & Hi)|((k & Hi) & Hr)].
  - destruct (engTurn_hold n cap Hcap Hn tscNow _ _ _ _ _ ref H Hi) as (x & flight' & slot & -> & Htw & Hg & _ & _ & _ & _ & Hgo).
    assert (exists w, EngineUdp.processPacket tscNow slot x.2 (engine s, scratch s, matched s) = Ok w) as [[[e scr] m] Ew].
    { unfold EngineUdp.engTurn in E. rewrite Hi, Hg, bind_ok, Htw in E. apply bind_inv in E as (w & Ew & _). eauto. }
    destruct (Hgo e scr m Ew) as (f' & E' & _). rewrite E in E'; injection E' as ->. right. unfold pending. cbn [queued processed eng net].
    rewrite Hi, (uo_queued _ _ _ _ _ _ _ H), !length_app. simpl. lia.
  - destruct (engTurn_pop n cap Hcap Hn tscNow _ _ _ _ _ k H Hi) as (f' & c' & refs' & sent' & E' & _ & Hc). rewrite E in E'; injection E' as ->.
    destruct Hc as [->|[(ref & ->)|Hnil]]; [by left | right; unfold pending; cbn [queued processed eng net]; rewrite Hi; lia |].
    exfalso. apply Hr. by apply (ring_empty_iff s F _ (uo_feed _ _ _ _ _ _ _ H)).
Qed.

(** Nor does a look at an empty ring change anything for the receive thread. *)
Lemma eng_keeps_able s s' : able NetThread s -> moves EngThread s s' ->
  eng s' = EngDone \/ able NetThread s' /\ (pending s' <= pending s)%nat.
Proof using.
  clear n cap Hcap H1 Hn. intros ((ref & Hnet) & (k & Hi) & Hr) E%moves_eng. unfold EngineUdp.engTurn, SpscRing.pop in E. rewrite Hi, Hr, Z.eqb_refl, bind_ok in E.
  cbv beta iota zeta in E. unfold pending, able, ring_empty in *. repeat case_match; simplify_eq; cbn [eng net queue fd queued processed] in *;
    rewrite ?Hnet, ?Hi; naive_solver.
Qed.

(** ** Failing turns *)

(** The only thing that can fail is the processing of a packet. *)
Definition fails s err : Prop :=
  exists ref slot, eng s = EngHolding ref /\ PacketPool.get (pkts (fd s)) (ref_poolIdx ref) = Ok slot /\
    EngineUdp.processPacket tscNow slot (ref_tWire ref) (engine s, scratch s, matched s) = Err err.

Lemma turn_fails x s err : sound n cap s -> turn_ok useXdp x -> EngineUdp.takeTurn tscNow port x s = Err err -> fails s err.
Proof using Hcap Hn.
  intros Hs Hx E. destruct x as [r tw|first frame tw|]; simpl in *.
  - destruct (netTurn_sound n cap Hcap Hn s r tw Hs) as (s' & E' & _); [by intros p ->; destruct Hx | by rewrite E in E'].
  - destruct (xdpTurn_sound n cap Hcap Hn s port first frame tw Hs) as (s' & E' & _); [by destruct Hx | by rewrite E in E'].
  - destruct Hs as (F & refs & sent & flight & H). destruct (eng s) as [k|ref|] eqn:Hi.
    + destruct (engTurn_pop n cap Hcap Hn tscNow s F refs sent flight k H Hi) as (f' & c' & refs' & sent' & E' & _). by rewrite E in E'.
    + destruct (engTurn_hold n cap Hcap Hn tscNow s F refs sent flight ref H Hi) as (y & flight' & slot & -> & Htw & Hg & _ & _ & _ & _ & Hgo).
      exists ref, slot. split_and!; [done | done|]. rewrite Htw.
      destruct (EngineUdp.processPacket tscNow slot y.2 _) as [[[e scr] m]|err'] eqn:Ew.
      * destruct (Hgo e scr m eq_refl) as (f' & E' & _). by rewrite E in E'.
      * unfold EngineUdp.engTurn in E. rewrite Hi, Hg, bind_ok, Htw, Ew in E. by injection E as ->.
    + unfold EngineUdp.engTurn in E. by rewrite Hi in E.
Qed.

Context (input : nat -> turn) (r0 : result (udp I)) (Hin : forall j, turn_ok useXdp (input j)) (H0 : forall s, r0 = Ok s -> sound n cap s).
Abbreviation run := (trace input r0).

Lemma trace_S j : run (S j) = (s ← run j; EngineUdp.takeTurn tscNow port (input j) s).
Proof using. done. Qed.

Lemma trace_moves j s s' : run j = Ok s -> run (S j) = Ok s' -> moves (thread_of (input j)) s s'.
Proof using Hin. intros E E'. rewrite trace_S, E in E'. exists (input j). auto. Qed.

Lemma trace_sound j s : run j = Ok s -> sound n cap s.
Proof using Hcap Hn Hin H0.
  revert s; induction j as [|j IH]; intros s E; [by apply H0|]. rewrite trace_S in E. apply bind_inv in E as (s1 & E1 & E).
  eapply (step_sound n cap Hcap Hn tscNow useXdp port); [by apply IH|]. eapply moves_step. exists (input j). eauto.
Qed.

Lemma trace_dead j k err : run j = Err err -> (j <= k)%nat -> run k = Err err.
Proof using. intros E. induction 1 as [|k _ IH]; [done|]. by rewrite trace_S, IH. Qed.

(** A run that is dead died of a packet. *)
Lemma trace_died i k s err : run i = Ok s -> run k = Err err -> (i <= k)%nat ->
  exists j s', (i <= j < k)%nat /\ run j = Ok s' /\ fails s' err.
Proof using Hcap Hn Hin H0.
  intros Ei Ek Hik. induction Hik as [|k Hik IH]; [congruence|]. rewrite trace_S in Ek. destruct (run k) as [s1|e1] eqn:E1; simpl in Ek.
  - exists k, s1. split_and!; [lia | lia | done|]. eapply turn_fails; [by eapply trace_sound | apply Hin | exact Ek].
  - injection Ek as ->. destruct (IH eq_refl) as (j & s' & Hj & H). exists j, s'. split; [lia | done].
Qed.

Lemma trace_ending i j s s' : run i = Ok s -> eos_last (arrived s) -> (i <= j)%nat -> run j = Ok s' -> ending s'.
Proof using Hcap Hn Hin H0.
  intros Ei He Hij. revert s'. induction Hij as [|j Hij IH]; intros s' Ej.
  - rewrite Ei in Ej; injection Ej as <-. split; [by eapply trace_sound | done].
  - destruct (run j) as [s1|] eqn:E1; [|rewrite trace_S, E1 in Ej; done]. eapply ending_moves; [by apply IH | by eapply trace_moves].
Qed.

(** Ended or dead. *)
Definition over (r : result (udp I)) : Prop := match r with Ok s => eng s = EngDone | Err _ => True end.
Definition left_ (r : result (udp I)) : nat := match r with Ok s => pending s | Err _ => 0 end.
Definition can (t : thread) (r : result (udp I)) : Prop := match r with Ok s => able t s | Err _ => False end.

Lemma trace_over i s : (forall t j, exists k, (j <= k)%nat /\ thread_of (input k) = t) ->
  run i = Ok s -> eos_last (arrived s) -> exists k, (i <= k)%nat /\ over (run k).
Proof using Hcap H1 Hn Hin H0.
  intros Hfair Ei He. apply (fair_finishes run (fun j => thread_of (input j)) left_ over can i Hfair); [| | |lia].
  - intros j Hj. destruct (run j) as [s1|] eqn:E1; [|by left]. eapply ending_able, trace_ending; [exact Ei | done | exact Hj | done].
  - intros j Hj Hc. unfold advanced. change (1 + j)%nat with (S j). destruct (run j) as [s1|] eqn:E1; [|done].
    destruct (run (S j)) as [s2|] eqn:E2; [|by left]. simpl in Hc |- *. pose proof (trace_ending i j s s1 Ei He Hj E1) as Hen.
    pose proof (trace_moves j s1 s2 E1 E2) as Hm. destruct (thread_of (input j)); [right; by eapply able_net_progress | by eapply able_eng_progress].
  - intros j t Hj Hc Hne. unfold advanced. change (1 + j)%nat with (S j). destruct (run j) as [s1|] eqn:E1; [|done].
    destruct (run (S j)) as [s2|] eqn:E2; [|by left; left]. simpl in Hc |- *. pose proof (trace_ending i j s s1 Ei He Hj E1) as Hen.
    pose proof (trace_moves j s1 s2 E1 E2) as Hm. destruct t, (thread_of (input j)); try done.
    + destruct (eng_keeps_able _ _ Hc Hm); auto.
    + destruct (net_keeps_able _ _ Hen Hc Hm); auto.
Qed.

(** Once the matching thread has ended it stays so, and all is processed. *)
Lemma trace_rests i k j s sk : run i = Ok s -> eos_last (arrived s) -> (i <= k <= j)%nat -> run k = Ok sk -> eng sk = EngDone ->
  exists s', run j = Ok s' /\ eng s' = EngDone /\ net s' = NetDone /\ ring_empty s' /\ processed s' = queued s'.
Proof using Hcap Hn Hin H0.
  intros Ei He [Hik Hkj] Ek Hd. assert (exists s', run j = Ok s' /\ eng s' = EngDone) as (s' & Ej & Hd').
  { induction Hkj as [|j Hkj (s1 & E1 & Hd1)]; [eauto|]. destruct (run (S j)) as [s2|err] eqn:E2.
    - exists s2. split; [done|]. eapply done_moves; [eapply trace_ending; [exact Ei | done | |exact E1]; lia | by eapply trace_moves | done].
    - rewrite trace_S, E1 in E2. simpl in E2. apply turn_fails in E2 as (ref & slot & Hi & _); [congruence | by eapply trace_sound | apply Hin]. }
  exists s'. split; [done|]. destruct (trace_sound j s' Ej) as (F & refs & sent & flight & H). destruct (uo_done _ _ _ _ _ _ _ H Hd') as (-> & -> & Hnet).
  split_and!; try done; [by apply (ring_empty_iff _ F _ (uo_feed _ _ _ _ _ _ _ H))|].
  pose proof (uo_flight _ _ _ _ _ _ _ H) as Hf. rewrite Hd' in Hf. apply Forall2_nil_inv_l in Hf as ->.
  by rewrite (uo_queued _ _ _ _ _ _ _ H), app_nil_r.
Qed.
End threads.

(** ** Properties *)

(** C9: fair runs end. Take any infinite sequence of turns of UDP mode, with a
    ring for one packet or more, on either receive path, with any input, in which
    each thread gets a turn again and again. If the end-of-session packet arrives
    at some point, then from some point on both threads have ended, no packet is
    left in the ring, and every packet that was queued has been processed; or the
    program dies in between of an error in the processing of a packet's messages
    (an exception, say), the only thing that can fail. *)
Theorem udp_fair_run_ends {I} {HI : OrderIndex I} tscNow useXdp port ready n rcap (e : MatchingEngine I) input i s :
  let run := trace tscNow port input (EngineUdp.initial ready n rcap e) in
  is_capacity rcap -> 1 < rcap -> rcap < n <= kPoolInvalid -> (forall j, turn_ok useXdp (input j)) ->
  (forall t j, exists k, (j <= k)%nat /\ thread_of (input k) = t) ->
  run i = Ok s -> eos_last (arrived s) ->
  exists k, (i <= k)%nat /\
    ((forall j, (k <= j)%nat -> exists s',
        run j = Ok s' /\ eng s' = EngDone /\ net s' = NetDone /\ ring_empty s' /\ processed s' = queued s') \/
     (exists j s' err, (i <= j < k)%nat /\ run j = Ok s' /\ fails tscNow s' err /\ forall j', (k <= j')%nat -> run j' = Err err)).
Proof.
  intros run Hcap H1 Hn Hin Hfair Ei He.
  assert (H0 : forall s, EngineUdp.initial ready n rcap e = Ok s -> sound n rcap s) by (intros s1; by apply initial_sound).
  destruct (trace_over tscNow useXdp port n rcap Hcap H1 Hn input _ Hin H0 i s Hfair Ei He) as (k & Hk & Ho). fold run in Ho.
  exists k. split; [done|]. destruct (run k) as [sk|err] eqn:Ek.
  - left. intros j Hj. by eapply (trace_rests tscNow useXdp port n rcap Hcap Hn input _ Hin H0 i k j).
  - right. destruct (trace_died tscNow useXdp port n rcap Hcap Hn input _ Hin H0 i k s err Ei Ek Hk) as (j & s' & Hj & Ej & Hf).
    exists j, s', err. split_and!; try done; [lia | lia |]. intros j' Hj'. by eapply trace_dead.
Qed.

(** The receive thread gets the end-of-session packet at once, the matching
    thread finds its sentinel, and then both go round with nothing to do. *)
Definition eos_input (i : nat) : turn :=
  if (i <? 3)%nat || Nat.even i then NetTurn (Received (eos_packet Replay.session 1)) 7 else EngTurn.

Lemma eos_input_fair t j : exists k, (j <= k)%nat /\ thread_of (eos_input k) = t.
Proof.
  exists (match t with NetThread => 2 * j + 4 | EngThread => 2 * j + 5 end)%nat. unfold eos_input. split; [destruct t; lia|].
  destruct t; (destruct (Nat.ltb_spec (2 * j + 4) 3), (Nat.ltb_spec (2 * j + 5) 3); try lia); rewrite Nat.even_add, Nat.even_mul; done.
Qed.

Lemma eos_input_ok j : turn_ok false (eos_input j).
Proof. unfold eos_input. destruct (_ || _); [|exact I]. split; [done | vm_compute; discriminate]. Qed.

Definition eos_run : nat -> result (udp (FlatHashMap OrderLocation)) := trace (fun n => n) 0 eos_input small_start.

Lemma eos_run_2 : exists s, eos_run 2 = Ok s /\ arrived s = [eos_packet Replay.session 1].
Proof.
  assert (E : match eos_run 2 with Ok s => Some (arrived s) | Err _ => None end = Some [eos_packet Replay.session 1]) by (vm_compute; reflexivity).
  destruct (eos_run 2) as [s|]; [|done]. injection E as E. eauto.
Qed.

Lemma udp_fair_run_ends_witness :
  exists k, (2 <= k)%nat /\
    ((forall j, (k <= j)%nat -> exists s',
        eos_run j = Ok s' /\ eng s' = EngDone /\ net s' = NetDone /\ ring_empty s' /\ processed s' = queued s') \/
     (exists j s' err, (2 <= j < k)%nat /\ eos_run j = Ok s' /\ fails (fun n => n) s' err /\ forall j', (k <= j')%nat -> eos_run j' = Err err)).
Proof.
  destruct eos_run_2 as (s & E & Ha).
  apply (udp_fair_run_ends (fun n => n) false 0 true 3 2 MatchingEngine.engine0 eos_input 2 s cap2).
  - lia.
  - exact slots3.
  - exact eos_input_ok.
  - exact eos_input_fair.
  - exact E.
  - rewrite Ha. exists [], (eos_packet Replay.session 1). split; [reflexivity|]. split; vm_compute; [lia | reflexivity].
Defined.
