(* ===== verification/Cli.v ===== *)
(** The command lines: option parsing and dispatch of src/main.cpp and the
    argument parsing of src/replay.cpp, with the number conversions of the C
    and C++ standard library they use, and the sample files [main] writes;
    with the round trips between configurations and argument lists. *)
From Stdlib Require Import ZArith Lia Ascii String.
From stdpp Require Import base numbers gmap list strings.
From S2P Require Import Prelude Tsc FlatHashMap Itch Exchange MatchingEngine EngineTheorems MoldUDP64 Replay.
Open Scope Z_scope.

(** ** Reading numbers *)

Definition code (c : ascii) : Z := Z.of_N (N_of_ascii c).

(** [isspace] in the C locale. *)
Definition isspace (c : ascii) : bool := (code c =? 32) || ((9 <=? code c) && (code c <=? 13)).
Definition isdigit (c : ascii) : bool := (48 <=? code c) && (code c <=? 57).

Fixpoint skip_space (s : string) : string :=
  match s with
  | String c s' => if isspace c then skip_space s' else s
  | EmptyString => s
  end.

(** The value of the leading digits, after [acc]. *)
Fixpoint digits_from (acc : Z) (s : string) : Z :=
  match s with
  | String c s' => if isdigit c then digits_from (10 * acc + (code c - 48)) s' else acc
  | EmptyString => acc
  end.
Definition starts_with_digit (s : string) : bool :=
  match s with String c _ => isdigit c | EmptyString => false end.

(** The subject sequence of [strtol] in base 10: sign and magnitude, or [None]
    when there is nothing to convert. *)
Definition subject (s : string) : option (bool * Z) :=
  let s := skip_space s in
  let '(neg, s) :=
    match s with
    | String c s' => if code c =? 45 then (true, s') else if code c =? 43 then (false, s') else (false, s)
    | EmptyString => (false, s)
    end in
  if starts_with_digit s then Some (neg, digits_from 0 s) else None.

Definition signed (x : bool * Z) : Z := if x.1 then - x.2 else x.2.
Definition in_int (z : Z) : bool := (- 2 ^ 31 <=? z) && (z <? 2 ^ 31).

(** [std::stoi] throws when nothing converts and when the value is no [int]. *)
Definition stoi (s : string) : result Z :=
  match subject s with
  | Some x => if in_int (signed x) then Ok (signed x) else Err Throw
  | None => Err Throw
  end.

(** [atoi] returns 0 when nothing converts and is undefined out of range. *)
Definition atoi (s : string) : result Z :=
  match subject s with
  | Some x => if in_int (signed x) then Ok (signed x) else Err UB
  | None => Ok 0
  end.

(** [strtoull] saturates, and negates modulo 2^64. *)
Definition strtoull (s : string) : Z :=
  match subject s with
  | Some (neg, m) => if UINT64_MAX <? m then UINT64_MAX else u64 (if neg then - m else m)
  | None => 0
  end.

(** ** The engine's options *)

Record Options := mkOptions {
  udpMode : bool; bindAddr : string; port : Z; multicastGroup : string; netCore : Z; useXdp : bool; iface : string
}.

Definition default_options : Options := mkOptions false "0.0.0.0" 30001 "" (-1) false "".

Module Main.

Definition set_udp (o : Options) : Options :=
  mkOptions true (bindAddr o) (port o) (multicastGroup o) (netCore o) (useXdp o) (iface o).
Definition set_bind (v : string) (o : Options) : Options :=
  mkOptions (udpMode o) v (port o) (multicastGroup o) (netCore o) (useXdp o) (iface o).
Definition set_port (v : Z) (o : Options) : Options :=
  mkOptions (udpMode o) (bindAddr o) v (multicastGroup o) (netCore o) (useXdp o) (iface o).
Definition set_multicast (v : string) (o : Options) : Options :=
  mkOptions (udpMode o) (bindAddr o) (port o) v (netCore o) (useXdp o) (iface o).
Definition set_netCore (v : Z) (o : Options) : Options :=
  mkOptions (udpMode o) (bindAddr o) (port o) (multicastGroup o) v (useXdp o) (iface o).
Definition set_xdp (o : Options) : Options :=
  mkOptions (udpMode o) (bindAddr o) (port o) (multicastGroup o) (netCore o) true (iface o).
Definition set_iface (v : string) (o : Options) : Options :=
  mkOptions (udpMode o) (bindAddr o) (port o) (multicastGroup o) (netCore o) (useXdp o) v.

(** The loop over [argv[1]] and on. An option without its value and an unknown
    argument exit with 1. *)
Fixpoint parse (args : list string) (o : Options) : result Options :=
  match args with
  | [] => Ok o
  | k :: args =>
      if String.eqb k "--udp" then parse args (set_udp o)
      else if String.eqb k "--bind" then
        match args with v :: args => parse args (set_bind v o) | [] => Err (Exited 1) end
      else if String.eqb k "--port" then
        match args with v :: args => n ← stoi v; parse args (set_port (u16 n) o) | [] => Err (Exited 1) end
      else if String.eqb k "--multicast" then
        match args with v :: args => parse args (set_multicast v o) | [] => Err (Exited 1) end
      else if String.eqb k "--net-core" then
        match args with v :: args => n ← stoi v; parse args (set_netCore n o) | [] => Err (Exited 1) end
      else if String.eqb k "--afxdp" then parse args (set_xdp o)
      else if String.eqb k "--iface" then
        match args with v :: args => parse args (set_iface v o) | [] => Err (Exited 1) end
      else Err (Exited 1)
  end.

(** What [main] calls on the engine; a null pointer is [None]. *)
Inductive call :=
| RunUdp (bindAddr : string) (port : Z) (multicastGroup : option string) (netCore : Z) (useXdp : bool) (iface : option string)
| RunFile.

Definition nonempty (s : string) : option string := if String.eqb s "" then None else Some s.

Definition dispatch (o : Options) : result call :=
  if udpMode o then
    if useXdp o && String.eqb (iface o) "" then Err (Exited 1)
    else Ok (RunUdp (bindAddr o) (port o) (nonempty (multicastGroup o)) (netCore o) (useXdp o) (nonempty (iface o)))
  else Ok RunFile.

Definition plan (args : list string) : result call := o ← parse args default_options; dispatch o.

(** *** The sample files *)

(** [f << l] on a [uint64_t]: decimal digits, 20 at most. *)
Definition digit (d : Z) : ascii := ascii_of_N (Z.to_N (48 + d)).
Fixpoint decimal_loop (fuel : nat) (n : Z) (acc : string) : string :=
  match fuel with
  | O => acc
  | S fuel =>
      let acc := String (digit (n mod 10)) acc in
      if n <? 10 then acc else decimal_loop fuel (n / 10) acc
  end.
Definition decimal (n : Z) : string := decimal_loop 20 n "".

Definition newline : string := String (ascii_of_N 10) "".
Fixpoint lines (ls : list Z) : string :=
  match ls with
  | [] => ""
  | l :: ls => (decimal l ++ newline ++ lines ls)%string
  end.

(** The files written, by name. *)
Definition save {I} (e : MatchingEngine I) : list (string * string) :=
  ("latencies.txt"%string, lines (latencies e)) ::
  match wireLatencies e with [] => [] | ws => [("wire_latencies.txt"%string, lines ws)] end.

(** [main] on a new [engine]: the files it writes. [runUdp] and [runFile] are
    the member functions, applied to the rest of their input. *)
Definition main {I} (engine : MatchingEngine I)
    (runUdp : string -> Z -> option string -> Z -> bool -> option string -> MatchingEngine I -> result (MatchingEngine I))
    (runFile : MatchingEngine I -> result (MatchingEngine I)) (args : list string) : result (list (string * string)) :=
  c ← plan args;
  e ← match c with
      | RunUdp bindAddr port group core xdp ifc => runUdp bindAddr port group core xdp ifc engine
      | RunFile => runFile engine
      end;
  Ok (save e).
End Main.

(** ** The replay program's arguments *)

Record Args := mkArgs {
  file : string; target : string; arg_port : Z; maxPerPacket : Z; rateMsgPerSec : Z; multicast : bool
}.

Definition default_args : Args := mkArgs "itch_data.NASDAQ_ITCH50" "127.0.0.1" 30001 16 0 false.

Module ReplayArgs.

Definition set_file (v : string) (a : Args) : Args :=
  mkArgs v (target a) (arg_port a) (maxPerPacket a) (rateMsgPerSec a) (multicast a).
Definition set_target (v : string) (a : Args) : Args :=
  mkArgs (file a) v (arg_port a) (maxPerPacket a) (rateMsgPerSec a) (multicast a).
Definition set_port (v : Z) (a : Args) : Args :=
  mkArgs (file a) (target a) v (maxPerPacket a) (rateMsgPerSec a) (multicast a).
Definition set_max (v : Z) (a : Args) : Args :=
  mkArgs (file a) (target a) (arg_port a) v (rateMsgPerSec a) (multicast a).
Definition set_rate (v : Z) (a : Args) : Args :=
  mkArgs (file a) (target a) (arg_port a) (maxPerPacket a) v (multicast a).
Definition set_multicast (a : Args) : Args :=
  mkArgs (file a) (target a) (arg_port a) (maxPerPacket a) (rateMsgPerSec a) true.

Fixpoint parseArgs (args : list string) (a : Args) : result Args :=
  match args with
  | [] => Ok a
  | k :: args =>
      if String.eqb k "--file" then
        match args with v :: args => parseArgs args (set_file v a) | [] => Err (Exited 1) end
      else if String.eqb k "--target" then
        match args with v :: args => parseArgs args (set_target v a) | [] => Err (Exited 1) end
      else if String.eqb k "--port" then
        match args with v :: args => n ← atoi v; parseArgs args (set_port (u16 n) a) | [] => Err (Exited 1) end
      else if String.eqb k "--max-per-packet" then
        match args with v :: args => n ← atoi v; parseArgs args (set_max (u16 n) a) | [] => Err (Exited 1) end
      else if String.eqb k "--rate" then
        match args with
        | v :: args => parseArgs args (set_rate (if String.eqb v "max" then 0 else strtoull v) a)
        | [] => Err (Exited 1)
        end
      else if String.eqb k "--multicast" then parseArgs args (set_multicast a)
      else Err (Exited 1)
  end.

(** [main] of the replay program. [mapped] gives the contents of a file that
    [open] and [mmap] succeed on, [socketOk] is whether [socket] does; a failure
    of one of them returns 1. [clock] is the clock, and [spins] bounds the
    readings of one wait. *)
Definition main (args : list string) (mapped : string -> option bytes) (socketOk : bool) (clock : nat -> timespec) (spins : nat)
    (sends : nat -> bool) (buffer : bytes) (ptrs : list bytes) (lens : list Z) : result (list (bytes * option Z)) :=
  a ← parseArgs args default_args;
  match mapped (file a) with
  | None => Err (Exited 1)
  | Some data =>
      if socketOk then
        Replay.replay (maxPerPacket a) (Replay.mkPacing clock spins (Replay.nsPerMsgOf (rateMsgPerSec a))) sends data buffer ptrs lens
      else Err (Exited 1)
  end.
End ReplayArgs.

(** ** Decimal numbers *)

Import Main.

Lemma code_digit d : 0 <= d < 10 -> code (digit d) = 48 + d.
Proof. intros Hd. unfold code, digit. rewrite N_ascii_embedding by lia. lia. Qed.

Lemma isdigit_digit d : 0 <= d < 10 -> isdigit (digit d) = true.
Proof. intros Hd. unfold isdigit. rewrite code_digit by done. apply andb_true_iff. lia. Qed.

Lemma digits_decimal fuel n acc : 0 <= n < 10 ^ Z.of_nat fuel -> digits_from 0 (decimal_loop fuel n acc) = digits_from n acc.
Proof.
  revert n acc; induction fuel as [|fuel IH]; intros n acc Hn.
  { assert (n = 0) as -> by (simpl in Hn; lia). done. }
  pose proof (Z.mod_pos_bound n 10 ltac:(lia)) as Hm. cbn [decimal_loop]. destruct (Z.ltb_spec n 10) as [Hs|Hb].
  - cbn [digits_from]. rewrite isdigit_digit, code_digit, Z.mod_small by lia. f_equal. lia.
  - rewrite IH.
    + cbn [digits_from]. rewrite isdigit_digit, code_digit by lia. f_equal. pose proof (Z.div_mod n 10). lia.
    + rewrite Nat2Z.inj_succ, Z.pow_succ_r in Hn by lia. split; [apply Z.div_pos; lia | apply Z.div_lt_upper_bound; lia].
Qed.

Lemma decimal_starts fuel n acc : 0 <= n -> starts_with_digit acc = true -> starts_with_digit (decimal_loop fuel n acc) = true.
Proof.
  revert n acc; induction fuel as [|fuel IH]; intros n acc Hn Ha; [done|]. cbn [decimal_loop].
  pose proof (Z.mod_pos_bound n 10 ltac:(lia)). case_match; [by apply isdigit_digit|].
  apply IH; [apply Z.div_pos; lia | by apply isdigit_digit].
Qed.

Lemma decimal_starts_S fuel n : 0 <= n -> starts_with_digit (decimal_loop (S fuel) n "") = true.
Proof.
  intros Hn. cbn [decimal_loop]. pose proof (Z.mod_pos_bound n 10 ltac:(lia)). case_match; [by apply isdigit_digit|].
  apply decimal_starts; [apply Z.div_pos; lia | by apply isdigit_digit].
Qed.

Lemma decimal_first n : 0 <= n -> exists c s, decimal n = String c s /\ isdigit c = true.
Proof.
  intros Hn. pose proof (decimal_starts_S 19 n Hn) as Hs. unfold decimal.
  destruct (decimal_loop 20 n "") as [|c s]; [done | by exists c, s].
Qed.

(** [-5] and [5]. *)
Definition int_text (z : Z) : string := if z <? 0 then String "-" (decimal (- z)) else decimal z.

Lemma subject_decimal n : 0 <= n < 10 ^ 20 -> subject (decimal n) = Some (false, n).
Proof.
  intros Hn. destruct (decimal_first n ltac:(lia)) as (c & s & E & Hc). unfold subject.
  pose proof Hc as Hr. unfold isdigit in Hr. apply andb_true_iff in Hr as [H1%Z.leb_le H2%Z.leb_le].
  assert (Hsk : skip_space (decimal n) = decimal n).
  { rewrite E. cbn [skip_space]. unfold isspace. destruct (Z.eqb_spec (code c) 32), (Z.leb_spec 9 (code c)), (Z.leb_spec (code c) 13); (lia || done). }
  rewrite Hsk. rewrite E at 1. destruct (Z.eqb_spec (code c) 45); [lia|]. destruct (Z.eqb_spec (code c) 43); [lia|].
  assert (Hst : starts_with_digit (decimal n) = true) by (by rewrite E). rewrite Hst.
  unfold decimal. by rewrite digits_decimal by (simpl; lia).
Qed.

Lemma subject_int z : - 10 ^ 20 < z < 10 ^ 20 -> exists x, subject (int_text z) = Some x /\ signed x = z.
Proof.
  intros Hz. unfold int_text. destruct (Z.ltb_spec z 0) as [Hneg|Hpos].
  - exists (true, - z). split; [|unfold signed; simpl; lia].
    destruct (decimal_first (- z) ltac:(lia)) as (c & s & E & Hc).
    pose proof (subject_decimal (- z) ltac:(lia)) as Hs. unfold subject in *.
    change (skip_space (String "-" (decimal (- z)))) with (String "-" (decimal (- z))). cbv iota beta.
    change (code "-" =? 45) with true. cbv iota beta.
    assert (Hst : starts_with_digit (decimal (- z)) = true) by (by rewrite E). rewrite Hst.
    unfold decimal. by rewrite digits_decimal by (simpl; lia).
  - exists (false, z). split; [by apply subject_decimal; lia | done].
Qed.

Lemma in_int_spec z : in_int z = true <-> - 2 ^ 31 <= z < 2 ^ 31.
Proof. unfold in_int. rewrite andb_true_iff. lia. Qed.

Lemma stoi_text z : - 2 ^ 31 <= z < 2 ^ 31 -> stoi (int_text z) = Ok z.
Proof.
  intros Hz. unfold stoi. destruct (subject_int z) as (x & -> & Hx); [lia|]. rewrite Hx. apply in_int_spec in Hz. by rewrite Hz.
Qed.

Lemma atoi_text z : - 2 ^ 31 <= z < 2 ^ 31 -> atoi (int_text z) = Ok z.
Proof.
  intros Hz. unfold atoi. destruct (subject_int z) as (x & -> & Hx); [lia|]. rewrite Hx. apply in_int_spec in Hz. by rewrite Hz.
Qed.

Lemma strtoull_text n : 0 <= n <= UINT64_MAX -> strtoull (decimal n) = n.
Proof.
  unfold UINT64_MAX; intros Hn. unfold strtoull. rewrite subject_decimal by lia. unfold UINT64_MAX.
  destruct (Z.ltb_spec 18446744073709551615 n); [lia|]. apply u64_small. lia.
Qed.

(** ** What the options mean *)

Lemma Forall_subset {A} (P : A -> Prop) (xs ys : list A) : xs ⊆ ys -> Forall P ys -> Forall P xs.
Proof. rewrite !Forall_forall. set_solver. Qed.

Section settings.
Context {A S : Type} (apply : A -> S -> S).

(** Parsing the words of a list of settings applies them from left to right. *)
Lemma parse_settings (words : A -> list string) (ok : A -> Prop) (p : list string -> S -> result S) xs s :
  (forall s, p [] s = Ok s) ->
  (forall x rest s, ok x -> p (words x ++ rest) s = p rest (apply x s)) ->
  Forall ok xs -> p (concat (words <$> xs)) s = Ok (foldl (fun s x => apply x s) s xs).
Proof.
  intros Hnil Hw H; revert s; induction H as [|x xs Hx _ IH]; intros s; [apply Hnil|].
  rewrite fmap_cons; cbn [concat foldl]. by rewrite Hw, IH.
Qed.

(** A predicate that some setting establishes, or the start has, and every
    setting keeps, holds at the end. *)
Lemma fold_establishes (P : S -> Prop) (xs : list A) (s : S) :
  (forall x s, x ∈ xs -> P s -> P (apply x s)) ->
  P s \/ (exists x, x ∈ xs /\ forall s, P (apply x s)) ->
  P (foldl (fun s x => apply x s) s xs).
Proof.
  revert s; induction xs as [|x xs IH]; intros s Hk Hs; cbn [foldl].
  - destruct Hs as [Hs|(x & Hx & _)]; [done | set_solver].
  - apply IH; [intros; apply Hk; [set_solver | done]|]. destruct Hs as [Hs|(y & Hy & He)]; [left; apply Hk; [set_solver | done]|].
    apply elem_of_cons in Hy as [->|Hy]; [by left; apply He | right; by exists y].
Qed.

(** A field [f] that the settings [sp] only ever set to its value in [s]: it has
    that value once all of [sp], in any order and number, are applied. *)
Lemma field_set {T} (f : S -> T) (s0 s : S) (sp xs : list A) (x : option A) :
  xs ⊆ sp -> sp ⊆ xs ->
  (forall y s', y ∈ sp -> f s' = f s -> f (apply y s') = f s) ->
  match x with Some x => x ∈ sp /\ (forall s', f (apply x s') = f s) | None => f s0 = f s end ->
  f (foldl (fun s x => apply x s) s0 xs) = f s.
Proof.
  intros H1 H2 Hk Hx. apply (fold_establishes (fun s' => f s' = f s)).
  - intros y s' Hy. apply Hk. by apply H1.
  - destruct x as [x|]; [right | by left]. exists x. split; [apply H2 | ]; apply Hx.
Qed.
End settings.

(** [field apply f x]: field [f] ends with the value of the spelled
    configuration, set by [x]. *)
Ltac field apply f x :=
  match goal with H : _ ⊆ ?spelled ?s |- _ => apply (field_set apply f _ s (spelled s) _ x) end; [done | done |
    let y := fresh "y" in let Hy := fresh "Hy" in
    intros y ? Hy; cbn in Hy; rewrite ?elem_of_cons, ?elem_of_nil in Hy; destruct_or? Hy; simplify_eq; simpl in *; rewrite ?u16_small by lia; done |
    first [done | split; [cbn; set_solver | intros; simpl; rewrite ?u16_small by lia; done]]].

Module MainOption.

(** One option of the engine's command line. *)
Inductive t := Udp | Bind (v : string) | Port (n : Z) | Multicast (v : string) | NetCore (n : Z) | Xdp | Iface (v : string).

Definition words (x : t) : list string :=
  match x with
  | Udp => ["--udp"%string]
  | Bind v => ["--bind"%string; v]
  | Port n => ["--port"%string; int_text n]
  | Multicast v => ["--multicast"%string; v]
  | NetCore n => ["--net-core"%string; int_text n]
  | Xdp => ["--afxdp"%string]
  | Iface v => ["--iface"%string; v]
  end.

Definition apply (x : t) : Options -> Options :=
  match x with
  | Udp => set_udp
  | Bind v => set_bind v
  | Port n => Main.set_port (u16 n)
  | Multicast v => Main.set_multicast v
  | NetCore n => set_netCore n
  | Xdp => set_xdp
  | Iface v => set_iface v
  end.

Definition ok (x : t) : Prop :=
  match x with Port n | NetCore n => - 2 ^ 31 <= n < 2 ^ 31 | _ => True end.

(** The options that spell a configuration out. *)
Definition spelled (o : Options) : list t :=
  (if udpMode o then [Udp] else []) ++ [Bind (bindAddr o); Port (port o); Multicast (multicastGroup o); NetCore (netCore o)] ++
  (if useXdp o then [Xdp] else []) ++ [Iface (iface o)].

Lemma parse_words x rest o : ok x -> parse (words x ++ rest) o = parse rest (apply x o).
Proof.
  destruct x as [|v|n|v|n| |v]; intros Hx; try reflexivity.
  - change (parse (words (Port n) ++ rest) o) with (v ← stoi (int_text n); parse rest (Main.set_port (u16 v) o)).
    by rewrite stoi_text by exact Hx.
  - change (parse (words (NetCore n) ++ rest) o) with (v ← stoi (int_text n); parse rest (set_netCore v o)).
    by rewrite stoi_text by exact Hx.
Qed.

(** The configurations the program can hold. *)
Definition config_ok (o : Options) : Prop := 0 <= port o < 65536 /\ - 2 ^ 31 <= netCore o < 2 ^ 31.

Lemma spelled_ok o : config_ok o -> Forall ok (spelled o).
Proof.
  intros [? ?]. unfold spelled. destruct (udpMode o), (useXdp o); repeat apply Forall_cons_2; simpl; done || lia || by constructor.
Qed.

Lemma parse_spelled o xs : config_ok o -> xs ⊆ spelled o -> spelled o ⊆ xs -> parse (concat (words <$> xs)) default_options = Ok o.
Proof.
  intros Ho H1 H2. rewrite (parse_settings apply words ok) by (done || apply parse_words || by eapply Forall_subset, spelled_ok).
  f_equal. destruct o as [u b p m n d i], Ho as [Hp Hn]. simpl in Hp, Hn.
  transitivity (let r := foldl (fun o x => apply x o) default_options xs in
    mkOptions (udpMode r) (bindAddr r) (port r) (multicastGroup r) (netCore r) (useXdp r) (iface r)); [by destruct (foldl _ _ _)|].
  cbv zeta. f_equal; destruct u, d;
    lazymatch goal with
    | |- udpMode _ = true => field apply udpMode (Some Udp)
    | |- udpMode _ = false => field apply udpMode (@None t)
    | |- bindAddr _ = _ => field apply bindAddr (Some (Bind b))
    | |- port _ = _ => field apply port (Some (Port p))
    | |- multicastGroup _ = _ => field apply multicastGroup (Some (Multicast m))
    | |- netCore _ = _ => field apply netCore (Some (NetCore n))
    | |- useXdp _ = true => field apply useXdp (Some Xdp)
    | |- useXdp _ = false => field apply useXdp (@None t)
    | |- iface _ = _ => field apply iface (Some (Iface i))
    end.
Qed.
End MainOption.

Module ReplayOption.

(** One option of the replay program; [RateMax] is [--rate max]. *)
Inductive t := File (v : string) | Target (v : string) | Port (n : Z) | MaxPerPacket (n : Z) | Rate (n : Z) | RateMax | Multicast.

Definition words (x : t) : list string :=
  match x with
  | File v => ["--file"%string; v]
  | Target v => ["--target"%string; v]
  | Port n => ["--port"%string; int_text n]
  | MaxPerPacket n => ["--max-per-packet"%string; int_text n]
  | Rate n => ["--rate"%string; decimal n]
  | RateMax => ["--rate"%string; "max"%string]
  | Multicast => ["--multicast"%string]
  end.

Definition apply (x : t) : Args -> Args :=
  match x with
  | File v => ReplayArgs.set_file v
  | Target v => ReplayArgs.set_target v
  | Port n => ReplayArgs.set_port (u16 n)
  | MaxPerPacket n => ReplayArgs.set_max (u16 n)
  | Rate n => ReplayArgs.set_rate n
  | RateMax => ReplayArgs.set_rate 0
  | Multicast => ReplayArgs.set_multicast
  end.

Definition ok (x : t) : Prop :=
  match x with
  | Port n | MaxPerPacket n => - 2 ^ 31 <= n < 2 ^ 31
  | Rate n => 0 <= n <= UINT64_MAX
  | _ => True
  end.

Definition spelled (a : Args) : list t :=
  [File (file a); Target (target a); Port (arg_port a); MaxPerPacket (maxPerPacket a);
   if rateMsgPerSec a =? 0 then RateMax else Rate (rateMsgPerSec a)] ++ (if multicast a then [Multicast] else []).

Lemma decimal_not_max n : 0 <= n -> String.eqb (decimal n) "max" = false.
Proof.
  intros Hn. destruct (decimal_first n Hn) as (c & s & -> & Hc). apply String.eqb_neq. intros E. by simplify_eq.
Qed.

Lemma args_parse_words x rest a : ok x -> ReplayArgs.parseArgs (words x ++ rest) a = ReplayArgs.parseArgs rest (apply x a).
Proof.
  destruct x as [v|v|n|n|n| |]; intros Hx; try reflexivity.
  - change (ReplayArgs.parseArgs (words (Port n) ++ rest) a)
      with (v ← atoi (int_text n); ReplayArgs.parseArgs rest (ReplayArgs.set_port (u16 v) a)).
    by rewrite atoi_text by exact Hx.
  - change (ReplayArgs.parseArgs (words (MaxPerPacket n) ++ rest) a)
      with (v ← atoi (int_text n); ReplayArgs.parseArgs rest (ReplayArgs.set_max (u16 v) a)).
    by rewrite atoi_text by exact Hx.
  - change (ReplayArgs.parseArgs (words (Rate n) ++ rest) a)
      with (ReplayArgs.parseArgs rest (ReplayArgs.set_rate (if String.eqb (decimal n) "max" then 0 else strtoull (decimal n)) a)).
    simpl in Hx. by rewrite decimal_not_max, strtoull_text by lia.
Qed.

Definition config_ok (a : Args) : Prop :=
  0 <= arg_port a < 65536 /\ 0 <= maxPerPacket a < 65536 /\ 0 <= rateMsgPerSec a <= UINT64_MAX.

Lemma args_spelled_ok a : config_ok a -> Forall ok (spelled a).
Proof.
  intros (? & ? & ?). unfold spelled. destruct (rateMsgPerSec a =? 0), (multicast a); repeat apply Forall_cons_2; simpl; done || lia || by constructor.
Qed.

Lemma args_parse_spelled a xs :
  config_ok a -> xs ⊆ spelled a -> spelled a ⊆ xs -> ReplayArgs.parseArgs (concat (words <$> xs)) default_args = Ok a.
Proof.
  intros Ha H1 H2. rewrite (parse_settings apply words ok) by (done || apply args_parse_words || by eapply Forall_subset, args_spelled_ok).
  f_equal. destruct a as [f t p m r c], Ha as (Hp & Hm & Hr). simpl in Hp, Hm, Hr.
  transitivity (let r := foldl (fun a x => apply x a) default_args xs in
    mkArgs (file r) (target r) (arg_port r) (maxPerPacket r) (rateMsgPerSec r) (multicast r)); [by destruct (foldl _ _ _)|].
  cbv zeta. f_equal; destruct r as [|r|r], c; try lia;
    lazymatch goal with
    | |- file _ = _ => field apply file (Some (File f))
    | |- target _ = _ => field apply target (Some (Target t))
    | |- arg_port _ = _ => field apply arg_port (Some (Port p))
    | |- maxPerPacket _ = _ => field apply maxPerPacket (Some (MaxPerPacket m))
    | |- rateMsgPerSec _ = 0 => field apply rateMsgPerSec (Some RateMax)
    | |- rateMsgPerSec _ = _ => field apply rateMsgPerSec (Some (Rate (Z.pos r)))
    | |- multicast _ = true => field apply multicast (Some Multicast)
    | |- multicast _ = false => field apply multicast (@None ReplayOption.t)
    end.
Qed.
End ReplayOption.

(** ** What a command line can come to *)

Lemma stoi_outcome s : match stoi s with Ok z => - 2 ^ 31 <= z < 2 ^ 31 | Err e => e = Throw end.
Proof. unfold stoi. repeat case_match; simplify_eq; try done. by apply in_int_spec. Qed.

Lemma atoi_outcome s : match atoi s with Ok z => - 2 ^ 31 <= z < 2 ^ 31 | Err e => e = UB end.
Proof. unfold atoi. repeat case_match; simplify_eq; try done. by apply in_int_spec. Qed.

Lemma strtoull_outcome s : 0 <= strtoull s <= UINT64_MAX.
Proof.
  unfold strtoull, u64, UINT64_MAX. destruct (subject s) as [[b z]|]; [|lia]. case_match; [lia|].
  pose proof (Z.mod_pos_bound (if b then - z else z) (2 ^ 64)). lia.
Qed.

Lemma u16_bound z : 0 <= u16 z < 65536.
Proof. unfold u16. apply Z.mod_pos_bound. lia. Qed.

(** A predicate of argument lists that holds when it holds for what is left after
    one argument and after two. *)
Lemma args_ind {A} (P : list A -> Prop) :
  P [] -> (forall k args, P args -> (forall v rest, args = v :: rest -> P rest) -> P (k :: args)) -> forall args, P args.
Proof.
  intros H0 Hs args. induction args as [args IH] using (induction_ltof1 _ length). destruct args as [|k args]; [done|].
  apply Hs; [|intros v rest ->]; apply IH; unfold ltof; simpl; lia.
Qed.

Lemma parse_outcome args o :
  MainOption.config_ok o ->
  match parse args o with Ok o' => MainOption.config_ok o' | Err e => e = Exited 1 \/ e = Throw end.
Proof.
  revert o; induction args as [|k args IH1 IH2] using args_ind; intros o Ho; [done|].
  destruct Ho as [Hp Hc]. cbn [parse].
  repeat (destruct (String.eqb k _)); try (apply IH1; done); destruct args as [|v args]; try (by left);
    try (apply (IH2 v args); done); pose proof (stoi_outcome v); destruct (stoi v) as [n|e]; try (by right; congruence);
    rewrite bind_ok; cbv beta; apply (IH2 v args); try done; split; simpl; try apply u16_bound; done.
Qed.

Lemma parseArgs_outcome args a :
  ReplayOption.config_ok a ->
  match ReplayArgs.parseArgs args a with Ok a' => ReplayOption.config_ok a' | Err e => e = Exited 1 \/ e = UB end.
Proof.
  revert a; induction args as [|k args IH1 IH2] using args_ind; intros a Ha; [done|].
  destruct Ha as (Hp & Hm & Hr). cbn [ReplayArgs.parseArgs].
  repeat (destruct (String.eqb k _)); try (apply IH1; done); destruct args as [|v args]; try (by left);
    try (apply (IH2 v args); done).
  3: { apply (IH2 v args); [done|]. split; [done|]. split; [done|]. simpl. case_match; [unfold UINT64_MAX; lia | apply strtoull_outcome]. }
  all: pose proof (atoi_outcome v); destruct (atoi v) as [n|e]; try (by right; congruence);
    rewrite bind_ok; cbv beta; apply (IH2 v args); try done; (split; [|split]); simpl; try apply u16_bound; done.
Qed.

Lemma stoi_range n : 2 ^ 31 <= n < 10 ^ 20 -> stoi (decimal n) = Err Throw.
Proof.
  intros Hn. unfold stoi. rewrite subject_decimal by lia. unfold signed; cbn [fst snd].
  destruct (in_int n) eqn:E; [apply in_int_spec in E; lia | done].
Qed.

Lemma int_text_decimal n : 0 <= n -> int_text n = decimal n.
Proof. intros Hn. unfold int_text. by destruct (Z.ltb_spec n 0); [lia|]. Qed.

Lemma parse_port n o :
  0 <= n < 2 ^ 64 -> parse ["--port"%string; decimal n] o = if n <? 2 ^ 31 then Ok (Main.set_port (n mod 65536) o) else Err Throw.
Proof.
  intros Hn. change (parse ["--port"%string; decimal n] o) with (v ← stoi (decimal n); Ok (Main.set_port (u16 v) o)).
  destruct (Z.ltb_spec n (2 ^ 31)) as [Hs|Hb].
  - rewrite <-(int_text_decimal n), stoi_text by lia. done.
  - by rewrite stoi_range by lia.
Qed.

Lemma nonempty_some s : nonempty s <> Some ""%string.
Proof. unfold nonempty. destruct (String.eqb_spec s ""); congruence. Qed.

Lemma plan_outcome args :
  match plan args with
  | Ok (RunUdp _ p group core xdp ifc) =>
      0 <= p < 65536 /\ - 2 ^ 31 <= core < 2 ^ 31 /\ group <> Some ""%string /\ ifc <> Some ""%string /\ (xdp = false \/ is_Some ifc)
  | Ok RunFile => True
  | Err e => e = Exited 1 \/ e = Throw
  end.
Proof.
  unfold plan. assert (Ho : MainOption.config_ok default_options) by (split; simpl; lia).
  pose proof (parse_outcome args default_options Ho) as H. destruct (parse args default_options) as [o|e]; [|done].
  rewrite bind_ok; cbv beta. destruct H as [Hp Hc]. unfold dispatch. destruct (udpMode o); [|done].
  destruct (useXdp o && String.eqb (iface o) "") eqn:E; [by left|]. split_and!; try apply Hp; try apply Hc; try apply nonempty_some.
  destruct (useXdp o); [right | by left]. simpl in E. unfold nonempty. rewrite E. done.
Qed.

(** ** Reading the samples back *)

(** The numbers of a file with one number per line. *)
Fixpoint read_lines (acc : Z) (s : string) : list Z :=
  match s with
  | EmptyString => []
  | String c s => if code c =? 10 then acc :: read_lines 0 s else read_lines (10 * acc + (code c - 48)) s
  end.

Lemma read_digit acc d s : 0 <= d < 10 -> read_lines acc (String (digit d) s) = read_lines (10 * acc + d) s.
Proof.
  intros Hd. cbn [read_lines]. rewrite code_digit by done. destruct (Z.eqb_spec (48 + d) 10); [lia|]. f_equal. lia.
Qed.

Lemma append_cons c (s rest : string) : (String c s ++ rest)%string = String c (s ++ rest).
Proof. reflexivity. Qed.

Lemma read_decimal fuel n acc rest :
  0 <= n < 10 ^ Z.of_nat fuel -> read_lines 0 (decimal_loop fuel n acc ++ rest) = read_lines n (acc ++ rest).
Proof.
  revert n acc; induction fuel as [|fuel IH]; intros n acc Hn.
  { assert (n = 0) as -> by (simpl in Hn; lia). done. }
  pose proof (Z.mod_pos_bound n 10 ltac:(lia)) as Hm. cbn [decimal_loop]. destruct (Z.ltb_spec n 10) as [Hs|Hb].
  - rewrite append_cons, read_digit, Z.mod_small by lia. done.
  - rewrite IH.
    + rewrite append_cons, read_digit by lia. f_equal. pose proof (Z.div_mod n 10). lia.
    + rewrite Nat2Z.inj_succ, Z.pow_succ_r in Hn by lia. split; [apply Z.div_pos; lia | apply Z.div_lt_upper_bound; lia].
Qed.

Lemma read_samples ls : Forall (fun l => 0 <= l <= UINT64_MAX) ls -> read_lines 0 (lines ls) = ls.
Proof.
  unfold UINT64_MAX. induction 1 as [|l ls Hl _ IH]; [done|]. cbn [lines]. unfold decimal. rewrite read_decimal by (simpl; lia).
  change (l :: read_lines 0 (lines ls) = l :: ls). by rewrite IH.
Qed.

(** ** Properties *)

(** C36: the command lines round-trip. Whatever configuration the engine can hold,
    the words of its options, in any order and with repetitions, parse back to
    it; the same for the arguments of the replay program; and the numbers of a
    sample file are the recorded samples, in order. *)
Theorem cli_roundtrip o xs a ys ls :
  MainOption.config_ok o -> xs ⊆ MainOption.spelled o -> MainOption.spelled o ⊆ xs ->
  ReplayOption.config_ok a -> ys ⊆ ReplayOption.spelled a -> ReplayOption.spelled a ⊆ ys ->
  Forall (fun l => 0 <= l <= UINT64_MAX) ls ->
  Main.parse (concat (MainOption.words <$> xs)) default_options = Ok o /\
  ReplayArgs.parseArgs (concat (ReplayOption.words <$> ys)) default_args = Ok a /\
  read_lines 0 (Main.lines ls) = ls.
Proof.
  intros Ho H1 H2 Ha H3 H4 Hl. split_and!; [by apply MainOption.parse_spelled | by apply ReplayOption.args_parse_spelled | by apply read_samples].
Qed.

Definition example_options : Options := mkOptions true "10.0.0.1" 40001 "239.1.1.1" (-1) true "eth0".
Definition example_args : Args := mkArgs "itch.bin" "10.0.0.2" 40001 32 0 true.

Lemma cli_roundtrip_witness :
  Main.parse ["--iface"; "eth0"; "--afxdp"; "--net-core"; "-1"; "--multicast"; "239.1.1.1"; "--port"; "40001"; "--bind"; "10.0.0.1"; "--udp"]%string
    default_options = Ok example_options /\
  ReplayArgs.parseArgs ["--multicast"; "--rate"; "max"; "--max-per-packet"; "32"; "--port"; "40001"; "--target"; "10.0.0.2"; "--file"; "itch.bin"]%string
    default_args = Ok example_args /\
  read_lines 0 (Main.lines [120; 0; 18446744073709551615]) = [120; 0; 18446744073709551615].
Proof.
  apply (cli_roundtrip example_options (reverse (MainOption.spelled example_options)) example_args (reverse (ReplayOption.spelled example_args))).
  - split; simpl; lia.
  - intros x Hx. by apply elem_of_reverse.
  - intros x Hx. by apply elem_of_reverse.
  - split; [|split]; unfold UINT64_MAX; simpl; lia.
  - intros x Hx. by apply elem_of_reverse.
  - intros x Hx. by apply elem_of_reverse.
  - repeat constructor; unfold UINT64_MAX; lia.
Defined.

(** C37: whatever the arguments, the engine's command line comes to one of: exit
    with 1, an exception of the number conversion, the file mode, or the UDP mode
    with a 16-bit port, an [int] core, no empty group or interface name and, for
    AF_XDP, an interface; the replay's to exit with 1, a number outside [int]
    (undefined), or arguments in the range of their types. A decimal port is
    taken modulo 65536 without complaint below 2^31 and throws from there on. *)
Theorem cli_outcomes args o n :
  0 <= n <= UINT64_MAX ->
  match Main.plan args with
  | Ok (Main.RunUdp _ p group core xdp ifc) =>
      0 <= p < 65536 /\ - 2 ^ 31 <= core < 2 ^ 31 /\ group <> Some ""%string /\ ifc <> Some ""%string /\ (xdp = false \/ is_Some ifc)
  | Ok Main.RunFile => True
  | Err e => e = Exited 1 \/ e = Throw
  end /\
  match ReplayArgs.parseArgs args default_args with
  | Ok a => 0 <= arg_port a < 65536 /\ 0 <= maxPerPacket a < 65536 /\ 0 <= rateMsgPerSec a <= UINT64_MAX
  | Err e => e = Exited 1 \/ e = UB
  end /\
  Main.parse ["--port"%string; Main.decimal n] o = if n <? 2 ^ 31 then Ok (Main.set_port (n mod 65536) o) else Err Throw.
Proof.
  intros Hn. split_and!.
  - apply plan_outcome.
  - apply parseArgs_outcome. unfold ReplayOption.config_ok, UINT64_MAX; simpl; lia.
  - apply parse_port; unfold UINT64_MAX in Hn; lia.
Qed.

Lemma cli_outcomes_witness :
  (exists c, Main.plan ["--udp"; "--port"; "95537"]%string = Ok c) /\
  Main.parse ["--port"; "95537"]%string default_options = Ok (Main.set_port 30001 default_options).
Proof.
  split; [eexists; vm_compute; reflexivity|].
  apply (cli_outcomes ["--udp"; "--port"; "95537"]%string default_options 95537). unfold UINT64_MAX; lia.
Defined.

(** C14: run as a program on any command line that parses to a configuration with
    a batch limit of 1 to 256, on a file of messages, the replay terminates. It
    sends the messages in order and each at most once, in non-empty packets of at
    most the limit and 2048 bytes, numbered consecutively from 1 and closed by the
    end-of-session marker with the next number. It stops early only at a failing
    [sendto] or at a message that fits no packet; if every message fits and every
    [sendto] succeeds all messages are sent. At a rate given on the command line no
    packet leaves before [startNs + m * (1000000000 / rate)] on its clock, [m] being
    the number of messages in the packets before it. It sends nothing when the file
    does not open or map or no socket is to be had. *)
Theorem replay_main_sends_all argv a mapped clock spins msgs sends buffer ptrs lens :
  let pc := Replay.mkPacing clock spins (Replay.nsPerMsgOf (rateMsgPerSec a)) in
  ReplayArgs.parseArgs argv default_args = Ok a ->
  paces pc (Z.of_nat (length msgs)) ->
  0 < maxPerPacket a <= 256 -> mapped (file a) = Some (frames msgs) ->
  Forall is_msg msgs -> Z.of_nat (length msgs) < 2 ^ 64 - 1 ->
  length buffer = Z.to_nat Replay.packetBytes -> length ptrs = Replay.batchSlots -> length lens = Replay.batchSlots ->
  (exists groups rest sent, concat groups ++ rest = msgs /\ Forall (group_ok (maxPerPacket a)) groups /\
    stopped sends (length groups) rest /\ (forall j, (j < length groups)%nat -> sends j = true) /\
    (Forall sendable msgs -> (forall j, sends j = true) -> rest = []) /\
    ReplayArgs.main argv mapped true clock spins sends buffer ptrs lens = Ok sent /\
    sent.*1 = session_packets Replay.session 1 groups /\ exists times, sent.*2 = times ++ [None] /\ on_time pc 0 groups times) /\
  ReplayArgs.main argv mapped false clock spins sends buffer ptrs lens = Err (Exited 1) /\
  ReplayArgs.main argv (fun _ => None) true clock spins sends buffer ptrs lens = Err (Exited 1).
Proof.
  intros pc Ha Hpc Hmax Hf Hm Hlen Hb Hp Hl. unfold ReplayArgs.main. rewrite Ha, !bind_ok; cbv beta. rewrite Hf. split; [|done].
  destruct (replay_sends (maxPerPacket a) pc msgs buffer ptrs lens sends) as (groups & rest & sent & Ec & Hg & Hst & Hok & E & Es & Ht); try done.
  exists groups, rest, sent. split_and!; try done. intros Hs. rewrite <-Ec in Hs. apply Forall_app in Hs as [_ Hs]. by apply (stopped_end sends (length groups)).
Qed.

(** 50 messages per second and a clock that advances by 10 ms per reading, for
    60 ms: the second packet waits until 40 ms have passed. *)
Definition clock10 (i : nat) : timespec := mkTimespec 5 (10000000 * Z.of_nat (Nat.min i 6)).

Lemma clock10_paces : paces (Replay.mkPacing clock10 7 (Replay.nsPerMsgOf 50)) 3.
Proof.
  split; [vm_compute; discriminate|]. right. split; [vm_compute; reflexivity|].
  intros i. exists 6%nat. split; [simpl; lia|]. cbn [Replay.clock]. unfold clock10. replace (Nat.min (i + 6) 6) with 6%nat by lia.
  vm_compute; discriminate.
Qed.

Lemma replay_main_sends_all_witness :
  exists groups rest sent, concat groups ++ rest = [[83; 1]; [83; 2]; [83; 3]] /\ rest = [] /\ Forall (group_ok 2) groups /\
    ReplayArgs.main ["--max-per-packet"; "2"; "--rate"; "50"]%string
      (fun _ => Some (frames [[83; 1]; [83; 2]; [83; 3]])) true clock10 7 (fun _ => true) (replicate 2048 7) (replicate 256 []) (replicate 256 9) = Ok sent /\
    sent.*1 = session_packets Replay.session 1 groups.
Proof.
  destruct (replay_main_sends_all ["--max-per-packet"; "2"; "--rate"; "50"]%string (mkArgs (file default_args) (target default_args) 30001 2 50 false)
    (fun _ => Some (frames [[83; 1]; [83; 2]; [83; 3]])) clock10 7 [[83; 1]; [83; 2]; [83; 3]] (fun _ => true) (replicate 2048 7) (replicate 256 []) (replicate 256 9))
    as [(groups & rest & sent & H1 & H2 & _ & _ & H3 & H4 & H5 & _) _].
  - vm_compute; reflexivity.
  - exact clock10_paces.
  - simpl; lia.
  - done.
  - repeat constructor; vm_compute; reflexivity.
  - done.
  - done.
  - done.
  - done.
  - exists groups, rest, sent. split; [exact H1|]. split; [apply H3; [repeat constructor; vm_compute; discriminate | done]|].
    split; [exact H2|]. split; [exact H4 | exact H5].
Defined.

(** C39: the batch arrays hold 256 messages but the count is limited by the
    command line alone. Whatever limit above 256 is given, a file that starts with
    257 messages which fit one packet together makes the program write past the
    end of both arrays. *)
Theorem replay_overflows_batch argv a mapped clock spins msgs sends buffer ptrs lens :
  ReplayArgs.parseArgs argv default_args = Ok a -> 256 < maxPerPacket a -> mapped (file a) = Some (frames msgs) ->
  Forall is_msg msgs -> (257 <= length msgs)%nat -> kMoldHeaderBytes + Z.of_nat (length (frames (take 257 msgs))) <= Replay.packetBytes ->
  length ptrs = Replay.batchSlots -> length lens = Replay.batchSlots ->
  ReplayArgs.main argv mapped true clock spins sends buffer ptrs lens = Err UB.
Proof. intros Ha Hmax Hf Hm Hlen Hfit Hp Hl. unfold ReplayArgs.main. rewrite Ha, bind_ok; cbv beta. rewrite Hf. by apply replay_overflows. Qed.

Lemma replay_overflows_batch_witness :
  ReplayArgs.main ["--max-per-packet"; "300"]%string (fun _ => Some (frames (replicate 257 [83]))) true clock10 7 (fun _ => true)
    (replicate 2048 0) (replicate 256 []) (replicate 256 0) = Err UB.
Proof.
  apply (replay_overflows_batch ["--max-per-packet"; "300"]%string (mkArgs (file default_args) (target default_args) 30001 300 0 false)
    (fun _ => Some (frames (replicate 257 [83]))) clock10 7 (replicate 257 [83])).
  - vm_compute; reflexivity.
  - reflexivity.
  - done.
  - apply Forall_replicate. vm_compute. reflexivity.
  - rewrite length_replicate. lia.
  - vm_compute. discriminate.
  - done.
  - done.
Defined.

(** C15: the program in file mode, whenever the arguments do not ask for UDP. If
    the file is one the feed may send and the counter was calibrated, the program
    writes [latencies.txt] and nothing else, with one line per Add message, in
    their order: the time between the two readings around the matching of that
    order, in nanoseconds. If the file does not map it writes the empty file. *)
Theorem file_mode_program args tscNow p fuel clock cpn ms msgs runUdp :
  Main.plan args = Ok Main.RunFile ->
  Forall2 encodes ms msgs -> Forall is_msg msgs -> Exchange.all_admissible 8388608 UINT64_MAX ms Exchange.empty ->
  Calibrate.calibrateTsc fuel clock (tscNow 0) (tscNow 1) = Ok cpn -> (tscIsCycles p = true -> converts cpn) ->
  (exists text, Main.main MatchingEngine.engine0 runUdp (MatchingEngine.run tscNow p fuel clock (Mapped (frames msgs))) args =
      Ok [("latencies.txt"%string, text)] /\
    Forall2 (sample_line p cpn) (add_samples tscNow 2 (adds ms)) (read_lines 0 text)) /\
  Main.main MatchingEngine.engine0 runUdp (MatchingEngine.run tscNow p fuel clock MapFailed) args = Ok [("latencies.txt"%string, ""%string)].
Proof.
  intros Hp Henc Hlen Hadm Hcal Hcon. unfold Main.main. rewrite Hp, !bind_ok; cbv beta iota. split; [|done].
  destruct (run_ok tscNow p fuel clock cpn ms msgs MatchingEngine.engine0 Exchange.empty) as (e & E & _ & _ & Hl & Hw); try done; [apply engine0_rep|].
  rewrite E, bind_ok. unfold Main.save. rewrite Hw. eexists; split; [done|]. rewrite read_samples; [exact Hl|].
  eapply Forall2_Forall_r; [exact Hl|]. eapply Forall_impl; [apply add_samples_u64|]. intros c Hc n. unfold sample_line.
  destruct (tscIsCycles p); [|by intros ->]. intros Hn. exact (toNs_range _ _ _ _ _ c n Hcal (proj1 Hc) Hn).
Qed.

Lemma file_mode_program_witness :
  Main.plan ["--bind"; "10.0.0.1"]%string = Ok Main.RunFile /\
  exists text, Main.main MatchingEngine.engine0 (fun _ _ _ _ _ _ e => Ok e) (MatchingEngine.run tsc3 X86 4 clock40 (Mapped (frames session2_bytes)))
      ["--bind"; "10.0.0.1"]%string = Ok [("latencies.txt"%string, text)] /\
    Forall2 (sample_line X86 cpn3) [360000000; 360000000] (read_lines 0 text).
Proof.
  split; [vm_compute; reflexivity|].
  apply (file_mode_program ["--bind"; "10.0.0.1"]%string tsc3 X86 4 clock40 cpn3 session2 session2_bytes (fun _ _ _ _ _ _ e => Ok e)).
  - vm_compute; reflexivity.
  - exact session2_encodes.
  - exact session2_len.
  - exact session2_admissible.
  - exact tsc3_calibrates.
  - intros _. exact cpn3_converts.
Defined.
