(* ===== verification/UdpProgram.v ===== *)
(** The program in UDP mode, from the session on the wire to the files and the
    report: the end of [MatchingEngine::runUdp] (src/engine_udp.cpp) and the
    rest of [main] (src/main.cpp), with the samples recorded packet by packet
    and the counters of a session. *)
From Stdlib Require Import ZArith Lia Ascii String.
From stdpp Require Import base numbers gmap functions list relations strings.
From S2P Require Import Prelude Startup Tsc OrderPool FlatHashMap Itch Exchange MatchingEngine EngineTheorems MoldUDP64 SpscRing PacketPool FeedHandler EngineUdp Replay UdpTheorems Counters Cli.
Open Scope Z_scope.

Module UdpProgram.

(** One line of the report. *)
Definition report_line (label : string) (v : Z) : string := (label ++ Main.decimal v ++ Main.newline)%string.

(** The report [runUdp] prints at its end. *)
Definition report (messageCount : Z) (st : FeedStats) : string :=
  ("UDP run complete:" ++ Main.newline ++
   report_line "  matched messages: " messageCount ++
   report_line "  packets received: " (packetsReceived st) ++
   report_line "  packets dropped:  " (packetsDropped st) ++
   report_line "  bytes received:   " (bytesReceived st) ++
   report_line "  gaps detected:    " (gapsDetected st) ++
   report_line "  duplicates:       " (duplicatesIgnored st))%string.

(** [runUdp] from the state both threads ended in: the engine and the report. *)
Definition runUdpEnd {I} (p : platform) (cyclesPerNs : double) (s : udp I) : result (MatchingEngine I * string) :=
  e ← EngineUdp.finish p cyclesPerNs (engine s);
  Ok (e, report (matched s) (stats (fd s))).

Section program.
(** The sizes of pool and ring, [kPoolSlots] and [kRingSlots] in the code; the
    counter and the clock; the results of the system calls; and the turns the two
    threads take, with what the network gives them. *)
Context (poolSlots ringSlots : Z) (tscNow : Z -> Z) (p : platform) (fuel : nat) (clock : nat -> timespec).
Context (os : syscall -> Z) (inet_addr : string -> Z) (turns : list turn).

(** The two threads, from their start on. Calibration has read the counter
    twice. *)
Definition threads {I} {HI : OrderIndex I} (bindAddr : string) (port : Z) (group : option string) (useXdp : bool) (iface : option string)
    (e : MatchingEngine I) : result (udp I) :=
  s ← EngineUdp.initial (Startup.ready os inet_addr (Some bindAddr) port group useXdp iface) poolSlots ringSlots
        (MatchingEngine.set_reads (tscReads e + 2) e);
  EngineUdp.takeTurns tscNow port turns s.

(** [runUdp] returns after the matching thread has left its loop and the receive
    thread was joined. [netCore] only pins the thread ([Startup.pinThread]). *)
Definition runUdp {I} {HI : OrderIndex I} (bindAddr : string) (port : Z) (group : option string) (netCore : Z) (useXdp : bool)
    (iface : option string) (e : MatchingEngine I) : result (MatchingEngine I * string) :=
  cyclesPerNs ← Calibrate.calibrateTscUdp fuel clock (tscNow (tscReads e)) (tscNow (tscReads e + 1));
  s ← threads bindAddr port group useXdp iface e;
  match eng s, net s with
  | EngDone, NetDone => runUdpEnd p cyclesPerNs s
  | _, _ => Err Diverge
  end.

(** The program: [main] with both modes. *)
Definition program (f : opened) (args : list string) : result (list (string * string)) :=
  Main.main MatchingEngine.engine0
    (fun bindAddr port group netCore useXdp iface e => r ← runUdp bindAddr port group netCore useXdp iface e; Ok r.1)
    (MatchingEngine.run tscNow p fuel clock f) args.
End program.
End UdpProgram.

(** ** The samples of a session *)

(** The wire samples of packets with their stamps, the counter having been read
    [r] times before. *)
Fixpoint session_wire (tscNow : Z -> Z) (r : Z) (ps : list (list Exchange.message * Z)) : list Z :=
  match ps with
  | [] => []
  | (ms, tw) :: ps => wire_samples tscNow tw r (adds ms) ++ session_wire tscNow (r + 2 * Z.of_nat (adds ms)) ps
  end.

Lemma adds_app ms1 ms2 : adds (ms1 ++ ms2) = (adds ms1 + adds ms2)%nat.
Proof. induction ms1 as [|[] ms1 IH]; simpl; lia. Qed.

Lemma add_samples_app tscNow r a b : add_samples tscNow r (a + b) = add_samples tscNow r a ++ add_samples tscNow (r + 2 * Z.of_nat a) b.
Proof.
  revert r; induction a as [|a IH]; intros r; cbn [Nat.add add_samples app]; [by rewrite Z.add_0_r|]. rewrite IH. do 3 f_equal. lia.
Qed.

Lemma session_wire_snoc tscNow r ps ms tw :
  session_wire tscNow r (ps ++ [(ms, tw)]) =
  session_wire tscNow r ps ++ wire_samples tscNow tw (r + 2 * Z.of_nat (adds (concat ps.*1))) (adds ms).
Proof.
  revert r; induction ps as [|[ms0 tw0] ps IH]; intros r; cbn [app session_wire fmap list_fmap fst concat].
  - by rewrite app_nil_r, Z.add_0_r.
  - rewrite IH, <-app_assoc, adds_app. do 3 f_equal. lia.
Qed.

Lemma wire_samples_u64 tscNow tw r k : Forall (fun c => 0 <= c <= UINT64_MAX) (wire_samples tscNow tw r k).
Proof.
  revert r; induction k as [|k IH]; intros r; cbn [wire_samples]; [done|]. apply Forall_app; split; [|apply IH].
  destruct (tw =? 0); repeat constructor; pose proof (u64_range (tscNow r - tw)); unfold UINT64_MAX; lia.
Qed.

Lemma session_wire_u64 tscNow r ps : Forall (fun c => 0 <= c <= UINT64_MAX) (session_wire tscNow r ps).
Proof. revert r; induction ps as [|[ms tw] ps IH]; intros r; cbn [session_wire]; [done|]. apply Forall_app; split; [apply wire_samples_u64 | apply IH]. Qed.

(** One wire sample per Add when every packet has a stamp. *)
Lemma session_wire_length tscNow r ps : Forall (fun x => x.2 <> 0) ps -> length (session_wire tscNow r ps) = adds (concat ps.*1).
Proof.
  intros H; revert r; induction H as [|[ms tw] ps Htw _ IH]; intros r; cbn [session_wire fmap list_fmap fst concat]; [done|].
  rewrite length_app, IH, adds_app. f_equal. simpl in Htw. generalize (adds ms) as k. intros k; revert r. induction k as [|k IHk]; intros r; cbn [wire_samples]; [done|].
  rewrite length_app, IHk. by destruct (Z.eqb_spec tw 0).
Qed.

Section sampled.
Context {I : Type} {HI : OrderIndex I} {cap reserved : Z} {HS : OrderIndexSpec I cap reserved}.
Context (Hfit : cap <= INVALID_INDEX) (tscNow : Z -> Z).
Context (n rcap : Z) (Hrcap : is_capacity rcap) (Hn : rcap < n <= kPoolInvalid).
Context (sid : bytes) (Hsid : length sid = 10%nat) (maxPer : Z) (Hmax : maxPer <= 256).
Context (groups : list (list bytes)) (mss : list (list Exchange.message)) (mk0 : Exchange.market).
Context (Hgroups : Forall (group_ok maxPer) groups) (Htotal : 1 + Z.of_nat (length (concat groups)) < 2 ^ 64).
Context (Hms : Forall2 (Forall2 encodes) mss groups) (Hadm : Exchange.all_admissible cap reserved (concat mss) mk0).
Context (r0 : Z).
Implicit Types (s : udp I).

(** What was recorded of the packets processed so far, from the reading [r0]. *)
Record sampled s : Prop := {
  sa_adds : latencies (engine s) = add_samples tscNow r0 (adds (concat (take (length (processed s)) mss)));
  sa_wire : wireLatencies (engine s) = session_wire tscNow r0 (zip (take (length (processed s)) mss) (processed s).*2);
  sa_reads : tscReads (engine s) = r0 + 2 * Z.of_nat (adds (concat (take (length (processed s)) mss)));
  sa_matched : matched s = u64 (Z.of_nat (length (concat (take (length (processed s)) mss))))
}.

Lemma sampled_packet s s' ms x :
  sampled s -> mss !! length (processed s) = Some ms -> processed s' = processed s ++ [x] ->
  records tscNow x.2 ms (engine s) (engine s') -> matched s' = u64 (matched s + Z.of_nat (length ms)) -> sampled s'.
Proof using.
  clear Hsid Hmax Hfit Hn Htotal. intros [Ha Hw Hr Hm] Hi Hp (A & B & C) Hm'. pose proof (lookup_lt_Some _ _ _ Hi) as Hlt.
  assert (Et : take (length (processed s')) mss = take (length (processed s)) mss ++ [ms])
    by (by rewrite Hp, length_app, Nat.add_1_r, (take_S_r _ _ _ Hi)).
  assert (Ec : concat (take (length (processed s')) mss) = concat (take (length (processed s)) mss) ++ ms)
    by (rewrite Et, concat_app; simpl; by rewrite app_nil_r).
  split.
  - by rewrite A, Ha, Hr, Ec, adds_app, add_samples_app.
  - rewrite B, Hw, Hr, Et, Hp, fmap_app. rewrite zip_with_app by (rewrite length_take, length_fmap; lia). cbn [fmap list_fmap zip_with].
    rewrite session_wire_snoc, fst_zip; [done|]. rewrite length_take, length_fmap. lia.
  - rewrite C, Hr, Ec, adds_app. lia.
  - rewrite Hm', Hm, u64_add_l, Ec, length_app. f_equal. lia.
Qed.

Lemma step_sampled useXdp port s s' :
  sound n rcap s -> engine_rep (engine s) (market_at mss mk0 s) -> on_session sid groups s ->
  EngineUdp.step tscNow useXdp port s s' -> sampled s -> sampled s'.
Proof using Hfit Hrcap Hn Hsid Hmax Hgroups Htotal Hms Hadm.
  intros Hs He Hon Hst H. destruct Hst as [r tw s s' _ _ E|first frame tw s s' _ _ E|s s' E].
  - pose proof (netTurn_matched _ _ _ _ E). apply netTurn_frame in E as (Ee & Ep & _). destruct H as [? ? ? ?]. split; congruence.
  - pose proof (xdpTurn_matched _ _ _ _ _ _ E). apply xdpTurn_frame in E as (Ee & Ep & _). destruct H as [? ? ? ?]. split; congruence.
  - destruct (eng s) as [k|ref|] eqn:Hi.
    + destruct Hs as (F & refs & sent & flight & Hok).
      destruct (engTurn_pop n rcap Hrcap Hn tscNow s F refs sent flight k Hok Hi) as (f' & c' & refs' & sent' & E' & _ & _).
      rewrite E in E'. injection E' as ->. destruct H as [? ? ? ?]. by split.
    + destruct (hold_session Hfit tscNow n rcap Hrcap Hn sid Hsid maxPer Hmax groups mss mk0 Hgroups Htotal Hms Hadm s ref Hs Hon Hi He)
        as (s'' & E' & _ & _ & _ & _ & _ & ms & x & Hl & Hp & _ & Hrec & Hm). rewrite E in E'. injection E' as <-.
      eapply sampled_packet; try done. apply Hm. rewrite (sa_matched _ H). apply u64_range.
    + unfold EngineUdp.engTurn in E. rewrite Hi in E. by injection E as <-.
Qed.

Lemma reachable_sampled useXdp port ready e s0 s :
  EngineUdp.initial ready n rcap e = Ok s0 -> engine_rep e mk0 -> latencies e = [] -> wireLatencies e = [] -> tscReads e = r0 ->
  rtc (EngineUdp.step tscNow useXdp port) s0 s -> on_session sid groups s ->
  engine_rep (engine s) (market_at mss mk0 s) /\ sampled s.
Proof using Hfit Hrcap Hn Hsid Hmax Hgroups Htotal Hms Hadm.
  intros E0 He Hl Hw Hr0 Hr Hon. cut (sound n rcap s /\ (on_session sid groups s -> engine_rep (engine s) (market_at mss mk0 s) /\ sampled s)); [naive_solver|].
  assert (HP : sound n rcap s0 /\ (on_session sid groups s0 -> engine_rep (engine s0) (market_at mss mk0 s0) /\ sampled s0)).
  { split; [by eapply initial_sound|]. intros _. unfold EngineUdp.initial in E0. apply bind_inv in E0 as (p & _ & (r & _ & [= <-])%bind_inv).
    split; [done|]. split; simpl; rewrite ?Hl, ?Hw, ?Hr0; try done. lia. }
  clear E0 Hon. induction Hr as [|s1 s2 s3 Hst _ IH]; [done|]. apply IH. destruct HP as [H1 H2]. split; [by eapply step_sound|]. intros Hon.
  destruct (step_session Hfit tscNow n rcap Hrcap Hn sid Hsid maxPer Hmax groups mss mk0 Hgroups Htotal Hms Hadm useXdp port s1 s2 H1 Hst Hon) as [Hon1 Hgo].
  destruct (H2 Hon1) as [He1 Hs1]. split; [by apply Hgo | by eapply step_sampled].
Qed.
End sampled.

(** ** The counters of a session *)

Section counters.
Context (sid : bytes) (Hsid : length sid = 10%nat) (maxPer : Z) (Hmax : maxPer <= 256).

Lemma headers_cons p arr : (20 <= length p)%nat -> headers (p :: arr) = header_of p :: headers arr.
Proof using. intros Hl. unfold headers, usable. rewrite filter_cons, decide_True by done. done. Qed.

(** The tracker goes through the data packets without a gap or a duplicate. *)
Lemma track_all_data groups seq t0 st rest :
  0 <= seq -> seq + Z.of_nat (length (concat groups)) < 2 ^ 64 -> Forall (group_ok maxPer) groups ->
  t0 = tracker0 \/ t0 = tracking sid seq ->
  exists t, (track_all (headers (data_packets sid seq groups ++ rest)) t0 st).2 = (track_all (headers rest) t st).2.
Proof using Hsid Hmax.
  revert seq t0; induction groups as [|g gs IH]; intros seq t0 Hs0 Hs Hg Ht; [by exists t0|].
  apply Forall_cons in Hg as [Hg Hgs]. simpl in Hs. rewrite length_app in Hs. cbn [data_packets app].
  rewrite headers_cons by (apply Nat.leb_le, (packet_long sid Hsid)). cbn [track_all].
  rewrite (track_group sid Hsid maxPer Hmax) by (done || lia).
  destruct (IH (seq + Z.of_nat (length g)) (tracking sid (seq + Z.of_nat (length g)))) as (t & E); [lia | lia | done | by right |].
  exists t. rewrite <-E. by destruct (track_all (headers (data_packets _ _ gs ++ rest)) _ st) as [[??]?].
Qed.

Lemma eos_long seq : (20 <= length (eos_packet sid seq))%nat.
Proof using Hsid. unfold eos_packet. rewrite !length_app, Hsid. simpl. lia. Qed.

Lemma data_headers groups seq rest : length (headers (data_packets sid seq groups ++ rest)) = (length groups + length (headers rest))%nat.
Proof using Hsid.
  revert seq; induction groups as [|g gs IH]; intros seq; [done|]. cbn [data_packets app].
  rewrite headers_cons by (apply Nat.leb_le, (packet_long sid Hsid)). cbn [length]. by rewrite IH.
Qed.

Lemma session_counts groups b st : 1 + Z.of_nat (length (concat groups)) < 2 ^ 64 -> Forall (group_ok maxPer) groups ->
  counted b st (session_packets sid 1 groups) 0 ->
  st = mkStats (u64 (Z.of_nat (length groups) + 1)) 0 (bytesReceived st) 0 0 1.
Proof using Hsid Hmax.
  intros Htot Hg [Hr _ Hd Hgp Hdu He]. set (eos := eos_packet sid (1 + Z.of_nat (length (concat groups)))).
  assert (Hh : headers [eos] = [mkMold sid (1 + Z.of_nat (length (concat groups))) kMoldEndOfSession])
    by (rewrite headers_cons by apply eos_long; unfold eos; by rewrite header_of_eos by (done || unfold is_u64; lia)).
  pose proof (data_headers groups 1 [eos]) as Hl. rewrite Hh in Hl. unfold headers in Hl. rewrite length_fmap in Hl. cbn [length] in Hl.
  destruct (track_all_data groups 1 tracker0 FeedStats.new [eos]) as (t & E); [lia | done | done | by left |]. rewrite Hh in E.
  assert (Et : (track_all (headers (session_packets sid 1 groups)) tracker0 FeedStats.new).2 = FeedStats.ended FeedStats.new) by exact E.
  rewrite Et in Hgp, Hdu, He. unfold session_packets in Hr. fold eos in Hr. rewrite Hl in Hr.
  destruct st as [a1 a2 a3 a4 a5 a6]. simpl in *. subst. f_equal. f_equal. lia.
Qed.
End counters.

(** ** Lines of the files *)

Lemma samples_range p fuel clock cyc0 cyc1 cpn cs ns :
  Calibrate.calibrateTscUdp fuel clock cyc0 cyc1 = Ok cpn -> Forall (fun c => 0 <= c <= UINT64_MAX) cs ->
  Forall2 (sample_line p cpn) cs ns -> Forall (fun n => 0 <= n <= UINT64_MAX) ns.
Proof.
  intros Hcal Hc H. eapply Forall2_Forall_r; [exact H|]. eapply Forall_impl; [exact Hc|]. intros c Hc' n. unfold sample_line.
  destruct (tscIsCycles p); [|by intros ->]. intros Hn. exact (toNs_range fuel clock cyc0 cyc1 cpn c n Hcal (proj1 Hc') Hn).
Qed.

Lemma groups_count maxPer groups : Forall (group_ok maxPer) groups -> (length groups <= length (concat groups))%nat.
Proof.
  induction 1 as [|g gs (Hne & _) _ IH]; [done|]. cbn [concat length]. rewrite length_app. destruct g; [done | simpl; lia].
Qed.

Definition start_engine : MatchingEngine (FlatHashMap OrderLocation) := MatchingEngine.set_reads 2 MatchingEngine.engine0.

Lemma start_engine_rep : engine_rep start_engine Exchange.empty.
Proof. eapply same_engine_rep; [| | |exact engine0_rep]; done. Qed.

(** What a whole session leaves: the market, the samples and the counters. *)
Lemma session_run tscNow xdp port ready n rcap pc maxPer ms msgs buffer ptrs lens datagrams s0 s :
  paces pc (Z.of_nat (length msgs)) -> 0 < maxPer <= 256 -> Forall sendable msgs -> Z.of_nat (length msgs) < 2 ^ 64 - 1 ->
  length buffer = Z.to_nat Replay.packetBytes -> length ptrs = Replay.batchSlots -> length lens = Replay.batchSlots ->
  Replay.replay maxPer pc (fun _ => true) (frames msgs) buffer ptrs lens = Ok datagrams ->
  Forall2 encodes ms msgs -> Exchange.all_admissible 8388608 UINT64_MAX ms Exchange.empty ->
  is_capacity rcap -> rcap < n <= kPoolInvalid -> EngineUdp.initial ready n rcap start_engine = Ok s0 ->
  rtc (EngineUdp.step tscNow xdp port) s0 s -> eng s = EngDone -> arrived s = datagrams.*1 -> lost s = [] ->
  exists mss, concat mss = ms /\ engine_rep (engine s) (Exchange.steps ms Exchange.empty) /\
    latencies (engine s) = add_samples tscNow 2 (adds ms) /\
    wireLatencies (engine s) = session_wire tscNow 2 (zip mss (queued s).*2) /\ matched s = Z.of_nat (length msgs) /\
    stats (fd s) = mkStats (Z.of_nat (length datagrams)) 0 (bytesReceived (stats (fd s))) 0 0 1 /\ length mss = length (queued s).
Proof.
  intros Hpace Hmax Hsend Hlen Hb Hp Hl Er Henc Hadm Hcap Hn E0 Hr Hd Harr Hlost.
  destruct (replay_ok maxPer pc msgs buffer ptrs lens (fun _ => true)) as (groups & sent' & <- & Hg & Er' & Esent & _); try done.
  rewrite Er in Er'; injection Er' as <-. rewrite Esent in Harr. destruct (split_groups _ _ Henc) as (mss & <- & Hms).
  assert (Hfit : 8388608 <= INVALID_INDEX) by done. assert (Htot : 1 + Z.of_nat (length (concat groups)) < 2 ^ 64) by lia.
  assert (Hon : on_session Replay.session groups s) by (split; [rewrite Harr; reflexivity | done]).
  destruct (reachable_counts tscNow xdp port ready n rcap start_engine s0 s Hcap Hn E0 Hr) as [Hs Hc].
  destruct (reachable_sampled Hfit tscNow n rcap Hcap Hn Replay.session eq_refl maxPer (proj2 Hmax) groups mss Exchange.empty Hg Htot Hms Hadm 2
    xdp port ready start_engine s0 s E0 start_engine_rep eq_refl eq_refl eq_refl Hr Hon) as [He [Ha Hw _ Hm]].
  destruct (session_complete n rcap Replay.session eq_refl maxPer (proj2 Hmax) groups mss Hg Htot Hms s Hs Hon Hd) as [Epq El].
  unfold market_at in He. rewrite El, firstn_all in Ha, Hw, Hm, He. rewrite Epq in Hw.
  unfold counts in Hc. rewrite Harr, Hlost in Hc. pose proof (session_counts Replay.session eq_refl maxPer (proj2 Hmax) groups _ _ Htot Hg Hc) as Est.
  pose proof (groups_count _ _ Hg) as Hgc. pose proof (Forall2_length _ _ _ Henc) as Hlm.
  assert (Ed : Z.of_nat (length datagrams) = Z.of_nat (length groups) + 1).
  { rewrite <-(length_fmap fst datagrams), Esent. unfold session_packets. rewrite length_app, data_packets_length. simpl. lia. }
  exists mss. split_and!; try done; [| |by rewrite <-Epq].
  - rewrite Hm, Hlm, u64_small by lia. done.
  - rewrite Est at 1. rewrite Ed, u64_small by lia. done.
Qed.

(** ** Properties *)

(** C3: the program in UDP mode, end to end, with its pool and ring or with any
    others of suitable size. The counter was calibrated; the datagrams a replay of
    the file sends have all arrived, in order, on either path; no packet found the
    ring full, which holds in every interleaving if the session has fewer packets
    than the ring has slots; and the matching thread has left its loop after the
    turns the threads took. Then [runUdp] returns without error with the engine at
    the market after all messages and with a report that counts every message,
    every packet, no drop, no gap and no duplicate; and the program writes
    [latencies.txt] with one line per Add message, in order, and
    [wire_latencies.txt] with the time from the stamp of its packet for each, or no
    such file when there is none. *)
Theorem udp_mode_program args bindAddr port group core xdp ifc tscNow p fuel clock cpn os inet_addr turns f
    pc maxPer ms msgs buffer ptrs lens datagrams n rcap s :
  Main.plan args = Ok (Main.RunUdp bindAddr port group core xdp ifc) ->
  paces pc (Z.of_nat (length msgs)) -> 0 < maxPer <= 256 -> Forall sendable msgs -> Z.of_nat (length msgs) < 2 ^ 64 - 1 ->
  length buffer = Z.to_nat Replay.packetBytes -> length ptrs = Replay.batchSlots -> length lens = Replay.batchSlots ->
  Replay.replay maxPer pc (fun _ => true) (frames msgs) buffer ptrs lens = Ok datagrams ->
  Forall2 encodes ms msgs -> Exchange.all_admissible 8388608 UINT64_MAX ms Exchange.empty ->
  Calibrate.calibrateTscUdp fuel clock (tscNow 0) (tscNow 1) = Ok cpn -> (tscIsCycles p = true -> converts cpn) ->
  is_capacity rcap -> rcap < n <= kPoolInvalid -> Forall (turn_ok xdp) turns ->
  UdpProgram.threads n rcap tscNow os inet_addr turns bindAddr port group xdp ifc MatchingEngine.engine0 = Ok s ->
  eng s = EngDone -> arrived s = datagrams.*1 -> lost s = [] \/ Z.of_nat (length datagrams) < rcap ->
  exists e' bytes mss ls ws,
    UdpProgram.runUdp n rcap tscNow p fuel clock os inet_addr turns bindAddr port group core xdp ifc MatchingEngine.engine0 =
      Ok (e', UdpProgram.report (Z.of_nat (length msgs)) (mkStats (Z.of_nat (length datagrams)) 0 bytes 0 0 1)) /\
    engine_rep e' (Exchange.steps ms Exchange.empty) /\ (xdp = false -> bytes = u64 (total datagrams.*1)) /\
    UdpProgram.program n rcap tscNow p fuel clock os inet_addr turns f args =
      Ok (("latencies.txt"%string, Main.lines ls) :: match ws with [] => [] | _ => [("wire_latencies.txt"%string, Main.lines ws)] end) /\
    read_lines 0 (Main.lines ls) = ls /\ read_lines 0 (Main.lines ws) = ws /\
    Forall2 (sample_line p cpn) (add_samples tscNow 2 (adds ms)) ls /\
    concat mss = ms /\ Forall2 (sample_line p cpn) (session_wire tscNow 2 (zip mss (queued s).*2)) ws /\
    (Forall (fun x => x.2 <> 0) (queued s) -> length ws = adds ms).
Proof.
  intros Hplan Hpace Hmax Hsend Hlen Hb Hp Hl Er Henc Hadm Hcal Hcon Hcap Hn Hts Ht Hd Harr Hroom.
  pose proof Ht as (s0 & E0 & Hr%(takeTurns_reach tscNow xdp port))%bind_inv; [|done]. change (MatchingEngine.set_reads _ _) with start_engine in E0.
  destruct (reachable_counts tscNow xdp port _ n rcap start_engine s0 s Hcap Hn E0 Hr) as [Hs Hc].
  assert (Hlost : lost s = []) by (eapply session_kept; [exact Hs | by rewrite Harr | exact Hroom]).
  destruct (session_run tscNow xdp port _ n rcap pc maxPer ms msgs buffer ptrs lens datagrams s0 s Hpace Hmax Hsend Hlen Hb Hp Hl Er Henc Hadm Hcap Hn E0 Hr Hd Harr Hlost)
    as (mss & Emss & He & Ha & Hw & Hm & Est & Epq).
  destruct (convert_ok p cpn (engine s)) as (e' & E & Hls & Hws & H1 & H2 & H3);
    [rewrite Ha; apply add_samples_u64 | rewrite Hw; apply session_wire_u64 | done |]. rewrite Ha in Hls. rewrite Hw in Hws.
  assert (Hnet : net s = NetDone) by (destruct Hs as (F & refs & sent & flight & H); by apply (uo_done _ _ _ _ _ _ _ H) in Hd as (_ & _ & ?)).
  assert (Erun : UdpProgram.runUdp n rcap tscNow p fuel clock os inet_addr turns bindAddr port group core xdp ifc MatchingEngine.engine0 =
    Ok (e', UdpProgram.report (Z.of_nat (length msgs)) (mkStats (Z.of_nat (length datagrams)) 0 (bytesReceived (stats (fd s))) 0 0 1))).
  { unfold UdpProgram.runUdp. change (tscReads MatchingEngine.engine0) with 0. change (0 + 1) with 1. rewrite Hcal, bind_ok; cbv beta. rewrite Ht, bind_ok; cbv beta.
    rewrite Hd, Hnet. unfold UdpProgram.runUdpEnd, EngineUdp.finish. rewrite E, bind_ok. by rewrite Hm, Est at 1. }
  exists e', (bytesReceived (stats (fd s))), mss, (latencies e'), (wireLatencies e'). split_and!; try done.
  - by eapply same_engine_rep.
  - intros ->. rewrite <-Harr. by apply (co_bytes _ _ _ _ Hc).
  - unfold UdpProgram.program, Main.main. rewrite Hplan, bind_ok; cbv beta iota. rewrite Erun, !bind_ok. cbn [fst]. unfold Main.save. by destruct (wireLatencies e').
  - eapply read_samples, samples_range; [exact Hcal | apply add_samples_u64 | exact Hls].
  - eapply read_samples, samples_range; [exact Hcal | apply session_wire_u64 | exact Hws].
  - intros Hst. rewrite <-(Forall2_length _ _ _ Hws), session_wire_length; [f_equal; rewrite <-Emss; f_equal; apply fst_zip; rewrite length_fmap; lia|].
    apply Forall_forall. intros [m tw] Hin. apply elem_of_zip_r in Hin. apply list_elem_of_fmap in Hin as (x & -> & Hx).
    by apply (Forall_forall (fun x => x.2 <> 0) (queued s)) in Hx.
Qed.

(** The short session, on the 3 GHz counter, every packet stamped 7. *)
Definition udp_args : list string := ["--udp"; "--port"; "0"]%string.
Definition calls_succeed (c : syscall) : Z := 3.
Definition small_threads : result (udp (FlatHashMap OrderLocation)) :=
  UdpProgram.threads 3 2 tsc3 calls_succeed (fun _ => 0) small_turns "0.0.0.0" 0 None false None MatchingEngine.engine0.

Lemma threads_state {I} (r : result (udp I)) c arr l :
  match r with Ok s => Some (eng s, arrived s, lost s) | Err _ => None end = Some (c, arr, l) ->
  exists s, r = Ok s /\ eng s = c /\ arrived s = arr /\ lost s = l.
Proof. destruct r as [s|]; [|done]. intros [= <- <- <-]. eauto. Qed.

Lemma small_threads_end : exists s, small_threads = Ok s /\ eng s = EngDone /\ arrived s = small_datagrams /\ lost s = [].
Proof. apply threads_state. vm_compute. reflexivity. Qed.

Lemma udp_mode_program_witness :
  exists e' bytes ls ws,
    UdpProgram.runUdp 3 2 tsc3 X86 4 clock40 calls_succeed (fun _ => 0) small_turns "0.0.0.0" 0 None (-1) false None MatchingEngine.engine0 =
      Ok (e', UdpProgram.report 5 (mkStats 4 0 bytes 0 0 1)) /\
    UdpProgram.program 3 2 tsc3 X86 4 clock40 calls_succeed (fun _ => 0) small_turns OpenFailed udp_args =
      Ok (("latencies.txt"%string, Main.lines ls) :: match ws with [] => [] | _ => [("wire_latencies.txt"%string, Main.lines ws)] end) /\
    Forall2 (sample_line X86 cpn3) (add_samples tsc3 2 (adds EngineTheorems.session)) ls.
Proof.
  destruct small_threads_end as (s & E & He & Ha & Hl).
  destruct (udp_mode_program udp_args "0.0.0.0" 0 None (-1) false None tsc3 X86 4 clock40 cpn3 calls_succeed (fun _ => 0) small_turns OpenFailed
    unpaced 2 EngineTheorems.session session_bytes (replicate 2048 0) (replicate 256 []) (replicate 256 0) small_sent 3 2 s)
    as (e' & bytes & mss & ls & ws & H1 & _ & _ & H2 & _ & _ & H3 & _).
  - vm_compute; reflexivity.
  - split; [vm_compute; discriminate | left; reflexivity].
  - lia.
  - repeat constructor; discriminate.
  - reflexivity.
  - reflexivity.
  - reflexivity.
  - reflexivity.
  - vm_compute; reflexivity.
  - exact session_encodes.
  - exact session_admissible.
  - exact tsc3_calibrates.
  - intros _. exact cpn3_converts.
  - exact cap2.
  - exact slots3.
  - apply (bool_decide_unpack _). vm_compute. exact I.
  - exact E.
  - exact He.
  - exact Ha.
  - left. exact Hl.
  - exists e', bytes, ls, ws. split; [exact H1|]. split; [exact H2 | exact H3].
Defined.
